(* ===== verification/_CoqProject ===== *)
-Q . S2P
Prelude.v
PyInt.v
PyDict.v
PyFloat.v
PySort.v
Envelope.v
Json.v
Serializer.v
Table.v
Strategy.v
Resolver.v
Deadlock.v
Quota.v
CircuitBreaker.v
Monitor.v
TaskQueue.v
TaskThreads.v
Throttle.v
PriorityQueue.v
DeadLetter.v
Broker.v
Glob.v
PubSub.v
Consensus.v
TaskLifecycle.v
ServiceBalancer.v
HealthCheck.v
Retry.v
Fallback.v
Workflow.v
Dag.v
DagExec.v
Race.v
YamlWorkflow.v
Fleet.v
K8s.v
AgentController.v
MeshController.v
Cluster.v
Plugins.v
AgentCard.v
AcpBridge.v
Tracing.v
Transports.v
Convenience.v
Cli.v
TracedBroker.v
Operator.v
Reports.v
FleetMonitor.v
