(* ===== verification/Prelude.v ===== *)
(** * The agent mesh router, verified

    This library models the Python package under
    [src/src/agent_mesh_router], with the Kubernetes operator under
    [src/k8s/operator], and proves what makes their parts correct.  It reads
    like the code: a class is a record, its methods are functions in a state and
    exception monad (or explicit state passing) with the guards, the early returns
    and the mutations in the order of the source, and names are those of the source
    where Rocq allows.  Below, paths are relative to [src/src/agent_mesh_router].

    ** Parts

    Foundations.  [Prelude]: the outcome type, the state and exception monad [M]
    (mutations made before an exception stay), slices, rotations, ASCII strings.
    [PyDict]: insertion-ordered dictionaries as association lists with unique keys.
    [PyFloat]: the operations of [float] as a class with two instances, [B64]
    (IEEE binary64, executable) and [QF] (exact rationals), and the comparison laws
    both satisfy.  [PySort]: [sorted], [min] and [max] with their stability.
    [PyInt]: [int] and [str] on decimal numerals.  [Json]: the printer and the reader
    of Python's [json], with the proof that the one inverts the other.

    Messages and routing.  [Envelope] ([messages/envelope.py], [messages/types.py]):
    envelopes, expiry, priorities, copies, replies.  [Serializer]
    ([messages/serializer.py] and the text forms of [messages/envelope.py]): envelopes as
    JSON text or MessagePack bytes.  [Table] ([routing/table.py]),
    [Strategy] ([routing/strategy.py]) and [Resolver] ([routing/resolver.py]): the
    registry of agents, the five rankings over it, and the route built from them;
    the resolver is proved against the strategies' contract.  [Convenience]
    ([convenience.py]): the table and the round-robin strategy behind two methods.

    Delivery.  [PriorityQueue] ([broker/queue.py]), [DeadLetter]
    ([broker/dead_letter.py]), [Broker] ([broker/message_broker.py]: publishing,
    worker rounds, dispatch with retries) and [PubSub] with [Glob]
    ([broker/pubsub.py], with the [fnmatch] it uses).  [Transports] ([adapters/http.py],
    [adapters/redis_adapter.py], [adapters/kafka_adapter.py]): sends with their retries
    and backoff, channels and topics.  [Tracing] ([middleware/tracing.py]): chains of
    middlewares that rewrite one shared envelope.  [TracedBroker]: such middlewares
    subscribed to the broker, whose deliveries and retries share the envelope.

    Flow control.  [Monitor] ([backpressure/monitor.py]), [TaskQueue]
    ([backpressure/task_queue.py]), [Throttle] ([backpressure/throttle.py]) and
    [Quota] ([quotas/resource_quota.py]); the task queue and the throttle report to
    and read from the monitor.  [TaskThreads] cuts the methods of the task queue into the
    sections that run without another thread between, and interleaves the sections of any
    number of threads.

    Coordination.  [Deadlock] ([deadlock/detector.py]), [Consensus]
    ([consensus/protocol.py]), [TaskLifecycle] ([a2a/models.py],
    [a2a/task_lifecycle.py]).  [AgentCard] ([a2a/agent_card.py], [a2a/discovery.py]):
    cards from configurations, and the endpoint that serves one.  [AcpBridge]
    ([a2a/acp_bridge.py]): envelopes to tasks and back.

    Resilience.  [CircuitBreaker], [HealthCheck], [Retry] (with
    [recovery_tester.py]), [Fallback] and [ServiceBalancer]: the modules of those
    names under [resilience/].  [Cli] (the [health] command of
    [cli/resilience_commands.py]): definitions read from JSON, probed by the checker; and
    the commands that print fixed texts.

    Fleet.  [Fleet] ([fleet/registry.py], [fleet/health.py],
    [fleet/load_balancer.py]): nodes shared by reference through a heap, the monitor
    that marks them and the balancer that picks one.  [FleetMonitor] interleaves the turns
    of the background loop with any other operations on the fleet.

    Workflows.  [Workflow] ([workflows/base.py], [workflows/sequential.py]), [Dag] (the
    validations and levels of [workflows/parallel.py] and
    [workflows/hierarchical.py]), [DagExec] (their [execute]), [Race]
    ([workflows/competitive.py], [workflows/consensus.py]) and [YamlWorkflow]
    ([workflows/yaml_workflow.py]).

    Plugins.  [Plugins] ([plugins/registry.py]): classes by name and entry points.

    Operator.  [K8s]: the requests of the two controllers as an effect signature, the
    API server as the interface they are proved against, and the handlers' monad.
    [AgentController] and [MeshController] ([src/k8s/operator/controllers/]): the
    handlers of the two resources.  [Cluster] composes them: runs of both controllers on
    one cluster, whose laws are an interface, with the statuses written back, changes by
    others and restarts.  [Operator] ([src/k8s/operator/main.py]): what the hooks at
    start-up read from the environment and configure.

    Reports.  [Reports]: the dictionaries and summaries of deadlock runs, votes and quota
    snapshots, and the accessors of their owners.

    ** What is shown

    Each property has an id C1, C2, ... in the doc comment of its theorem.
    - Reachability invariants, by induction over sequences of calls that return or
      raise: the circuit breaker, the A2A state machine, the routing table, the topic
      manager's inverse indices, the fleet.
    - Refinements of abstract specifications: the priority queue is one FIFO per
      priority to any callers; the fallback registry is its history of calls; both
      graph executors implement one dependency relation ([DagExec.settles]).
    - Exact functional results: deadlock detection is the set of elementary cycles;
      smooth weighted round robin realises the weights; voting; matching; what is
      delivered and what is dead-lettered; what a health check marks.
    - Equivalences: Kahn's algorithm and the depth-first search accept the same
      workflows; [check_and_record] is [check] then [record]; a consensus workflow's
      early stop gives the verdict of waiting for everyone.
    - Accounts: what quotas say of an agent is what its own calls make of its limits and
      its usage, whatever other agents do.
    - Bounds: tokens over time, delays, quorums, how long a silent node of the fleet can
      go unnoticed.
    - Round trips: every workflow the document parser accepts can be written back and
      parsed again; an envelope is read back from its JSON, and from its binary form unless
      only the sender has the MessagePack package; a payload crosses the ACP bridge and
      back; a mesh and the addresses of its agents' Services are read back from the text of
      its ConfigMap; a configuration gives exactly the agent card it describes.
    - The operator: an agent over its budget is suspended, by the request and in its
      status; a mesh is ready exactly when all its agents run; no run of the
      two controllers opens a mesh's circuit breaker.
    - Services over the parts: what an HTTP send posts and sleeps, what a batch of them
      counts however they interleave, that loading plugins twice is loading them once, what
      the discovery endpoint serves after a change of its card, how the health command exits.
    - Compositions: a dispatch of the broker through tracing middlewares is one chain of
      spans, subscribers and retries alike; what the ACP bridge makes of the tasks of a
      task manager; both controllers of the operator on one cluster.
    - Behaviour that differs from what is documented, proved on the model: lost
      messages, leaked half-open slots, updates that are not atomic, quotas exceeded by
      negative amounts or rounding, and others.

    ** Conventions

    Numbers.  Python's integers are [Z].  Floats are the [float] of [PyFloat]: a
    theorem over any [F] with [FloatOrder F], and [FloatNonneg F] where it adds weights,
    holds in binary64, NaN included; one over [QF] is about the arithmetic the code means,
    with rounding left out, and says so.  [sum] is taken from left to right.  A quotient
    of two integers is the quotient of their floats, which is Python's below 2^53; where an
    integer is beyond every float the model's float is infinite and Python raises
    [OverflowError].

    Strings are lists of 8-bit characters; [lower] and [isspace] act on ASCII.

    The environment.  Clocks are arguments, one per reading.  Random numbers, agents,
    handlers and callables are functions with a state of their own ([W]) or, where
    calls overlap, a record of what the event loop did (batches of completed tasks,
    what cancelled tasks did).  A [BaseException] that is no [Exception] is an outcome
    of its own: a handler of the broker may be cancelled, which ends the dispatch.

    Concurrency.  An operation that runs under a lock, or between two awaits, is one
    step, and interleavings are sequences of such steps of several callers.  The
    circuit breaker and the task queue, which release their lock within an operation or
    call a queue with a lock of its own, are split at those points; the sends of an HTTP batch are split at their sleeps.

    Aliasing.  Objects that several owners mutate are shared in the model: the nodes of
    the fleet through a heap, where clients may assign to them directly, the envelope of a dispatch through the state that every
    handler, attempt and target passes on.

    Fuel.  Loops whose recursion is not structural take fuel and return [option]; each
    has a theorem that the fuel its caller passes is enough: the depth-first search
    of [Deadlock] (the nodes it can still push), Kahn's loop, the depth-first search
    and the depths of [Dag] and the wave loop of [DagExec] (one more than the number
    of steps), the delivery attempts of [Broker].  Python's recursion limit is not
    modelled.

    ** Not modelled

    Log records, [__repr__] and metrics text.  The re-exports of the [__init__] files;
    the examples and the benchmarks, which use the library; the TypeScript client.  The
    four workflow executors repeat one [_run_step]; it is modelled once, in [Workflow].
    Third-party code is a parameter where it is used: MessagePack, YAML reading, pydantic's
    validation and JSON dump, the clients of HTTP, Redis, Kafka and Kubernetes, structlog,
    OpenTelemetry's tracer and exporter, click and rich.  The gRPC transport is an interface
    without an implementation, and is only declared. *)
From stdpp Require Import base gmap sets list strings.
From Stdlib Require Import ZArith Lia.

(** ** Outcomes of Python calls

    A call either returns a value or raises.  [E] is the component's own
    exception type: one constructor per exception class the code raises. *)
Inductive result (E A : Type) : Type :=
  | Ok (a : A)
  | Raise (e : E).
Arguments Ok {E A} a.
Arguments Raise {E A} e.

Definition is_ok {E A} (r : result E A) : bool :=
  match r with Ok _ => true | Raise _ => false end.

(** A call that may raise, then the rest. *)
Definition bindR {E A B} (m : result E A) (k : A → result E B) : result E B :=
  match m with Ok a => k a | Raise e => Raise e end.

(** ** A state and exception monad

    Python keeps the mutations made before an exception is raised, so the
    state is returned next to the outcome, on both branches. *)
Definition M (S E A : Type) : Type := S → result E A * S.

Definition retS {S E A} (a : A) : M S E A := λ s, (Ok a, s).
Definition raiseS {S E A} (e : E) : M S E A := λ s, (Raise e, s).
Definition getS {S E} : M S E S := λ s, (Ok s, s).
Definition putS {S E} (s : S) : M S E unit := λ _, (Ok tt, s).
Definition modS {S E} (f : S → S) : M S E unit := λ s, (Ok tt, f s).
Definition bindS {S E A B} (m : M S E A) (k : A → M S E B) : M S E B := λ s,
  match m s with
  | (Ok a, s') => k a s'
  | (Raise e, s') => (Raise e, s')
  end.

(** [raise e] when the guard holds, as in [if guard: raise e]. *)
Definition guardS {S E} (b : bool) (e : E) : M S E unit :=
  if b then raiseS e else retS tt.

Declare Scope py_scope.
Delimit Scope py_scope with py.
Notation "'let!' x := m 'in' k" := (bindS m (λ x, k))
  (at level 10, x name, m at level 100, k at level 200) : py_scope.
Notation "'let?' x := m 'in' k" := (bindR m (λ x, k))
  (at level 10, x name, m at level 100, k at level 200) : py_scope.
#[global] Open Scope py_scope.

Lemma bindS_assoc {S E A B C} (m : M S E A) (f : A → M S E B) (g : B → M S E C) s :
  bindS (bindS m f) g s = bindS m (λ a, bindS (f a) g) s.
Proof. unfold bindS. destruct (m s) as [[a|e] s']; reflexivity. Qed.

Lemma bindS_ret {S E A B} (a : A) (k : A → M S E B) s : bindS (retS a) k s = k a s.
Proof. reflexivity. Qed.

Lemma bindS_raise {S E A B} (e : E) (k : A → M S E B) s :
  bindS (raiseS e) k s = (Raise e, s).
Proof. reflexivity. Qed.

Lemma bindS_guard {S E A} (b : bool) (e : E) (k : unit → M S E A) s :
  bindS (guardS b e) k s = if b then (Raise e, s) else k tt s.
Proof. destruct b; reflexivity. Qed.

(** A predicate on states that an operation keeps, whatever its outcome. *)
Definition preserves {S E A} (P : S → Prop) (m : M S E A) : Prop :=
  ∀ s, P s → P (m s).2.

Lemma preserves_ret {S E A} (P : S → Prop) (a : A) : preserves P (retS (E:=E) a).
Proof. intros s H; exact H. Qed.

Lemma preserves_raise {S E A} (P : S → Prop) (e : E) : preserves P (raiseS (A:=A) e).
Proof. intros s H; exact H. Qed.

Lemma preserves_get {S E} (P : S → Prop) : preserves P (getS (E:=E)).
Proof. intros s H; exact H. Qed.

Lemma preserves_guard {S E} (P : S → Prop) b (e : E) : preserves P (guardS b e).
Proof. destruct b; intros s H; exact H. Qed.

Lemma preserves_mod {S E} (P : S → Prop) (f : S → S) :
  (∀ s, P s → P (f s)) → preserves P (modS (E:=E) f).
Proof. intros Hf s H; exact (Hf s H). Qed.

Lemma preserves_bind {S E A B} (P : S → Prop) (m : M S E A) (k : A → M S E B) :
  preserves P m → (∀ a, preserves P (k a)) → preserves P (bindS m k).
Proof.
  intros Hm Hk s Hs. unfold bindS. specialize (Hm s Hs).
  destruct (m s) as [[a|e] s']; simpl in *; [apply Hk|]; assumption.
Qed.

Create HintDb py discriminated.
Create Rewrite HintDb pyrw.
#[export] Hint Resolve preserves_ret preserves_raise preserves_get preserves_guard
  preserves_mod preserves_bind : py.

(** ** Tactics of the development *)

(** Destruct every [match]/[if] scrutinee of the goal, remembering equations. *)
Ltac case_all :=
  repeat (case_match; simplify_eq/=).

(** Run a monadic operation: unfold the monad and split on its guards. *)
Ltac run_m :=
  unfold bindS, retS, raiseS, getS, putS, modS, guardS in *; simpl in *;
  repeat (match goal with
          | |- context [if ?b then _ else _] =>
              lazymatch type of b with bool => destruct b eqn:? end
          | H : context [if ?b then _ else _] |- _ =>
              lazymatch type of b with bool => destruct b eqn:? end
          end; simpl in *; simplify_eq/=).

(** Turn boolean facts into propositions. *)
Ltac bool_simpl :=
  repeat match goal with
  | H : _ && _ = true |- _ => apply andb_true_iff in H as [? ?]
  | H : _ || _ = false |- _ => apply orb_false_iff in H as [? ?]
  | H : negb _ = true |- _ => apply negb_true_iff in H
  | H : negb _ = false |- _ => apply negb_false_iff in H
  | H : bool_decide _ = true |- _ => apply bool_decide_eq_true in H
  | H : bool_decide _ = false |- _ => apply bool_decide_eq_false in H
  | H : Z.leb _ _ = true |- _ => apply Z.leb_le in H
  | H : Z.leb _ _ = false |- _ => apply Z.leb_gt in H
  | H : Z.ltb _ _ = true |- _ => apply Z.ltb_lt in H
  | H : Z.ltb _ _ = false |- _ => apply Z.ltb_ge in H
  | H : Z.eqb _ _ = true |- _ => apply Z.eqb_eq in H
  | H : Z.eqb _ _ = false |- _ => apply Z.eqb_neq in H
  end.

(** ** Lists *)

Lemma filter_all {A} (P : A → Prop) `{∀ x, Decision (P x)} (l : list A) :
  (∀ x, x ∈ l → P x) → filter P l = l.
Proof.
  induction l as [|x l IH]; intros Hl; [done|].
  rewrite filter_cons_True by (apply Hl; left). f_equal. apply IH.
  intros y Hy. apply Hl. by right.
Qed.

Lemma length_filter_strict {A} (P Q : A → Prop) `{∀ x, Decision (P x), ∀ x, Decision (Q x)}
    (l : list A) (x : A) :
  (∀ y, P y → Q y) → x ∈ l → Q x → ¬ P x → (length (filter P l) < length (filter Q l))%nat.
Proof.
  intros HPQ Hx HQ HP.
  assert (E : filter P l = filter P (filter Q l)).
  { rewrite list_filter_filter. apply list_filter_iff. naive_solver. }
  rewrite E. eapply length_filter_lt; [|exact HP]. by apply list_elem_of_filter.
Qed.

Lemma length_filter_complement {A} (P : A → Prop) `{∀ x, Decision (P x)} (l : list A) :
  (length (filter P l) + length (filter (λ x, ¬ P x) l) = length l)%nat.
Proof.
  induction l as [|x l IH]; [done|]. rewrite !filter_cons.
  repeat case_decide; simpl; done || lia.
Qed.

Lemma filter_none {A} (P : A → Prop) `{∀ x, Decision (P x)} (l : list A) :
  (∀ x, x ∈ l → ¬ P x) → filter P l = [].
Proof.
  induction l as [|x l IH]; intros Hl; [done|].
  rewrite filter_cons_False by (apply Hl; left). apply IH.
  intros y Hy. apply Hl. by right.
Qed.

Lemma omap_fmap_some {A B} (f : A → option B) (l : list A) :
  (∀ x, x ∈ l → is_Some (f x)) → Some <$> omap f l = f <$> l.
Proof.
  induction l as [|x l IH]; intros Hx; [done|]. csimpl.
  destruct (Hx x) as [y Hy]; [set_solver|]. rewrite Hy. csimpl. f_equal. apply IH. set_solver.
Qed.

Lemma omap_ext_in {A B} (f g : A → option B) (l : list A) :
  (∀ x, x ∈ l → f x = g x) → omap f l = omap g l.
Proof.
  induction l as [|x l IH]; intros H; [done|]. csimpl.
  rewrite IH by (intros y Hy; apply H; by right). by rewrite H by left.
Qed.

(** Matching on no element, one, or more. *)
Lemma match_length {A B} (l : list A) (a b c : B) :
  match l with [] => a | [_] => b | _ => c end
  = match length l with O => a | S O => b | _ => c end.
Proof. by destruct l as [|? [|]]. Qed.

(** [l[i:]] and [l[i:j]]: a negative bound counts from the end, and bounds are
    clipped to the list. *)
Definition py_bound (len i : Z) : Z :=
  if (i <? 0)%Z then Z.max 0 (len + i) else Z.min i len.

Definition py_slice {A} (l : list A) (i j : Z) : list A :=
  let len := Z.of_nat (length l) in
  let a := py_bound len i in
  let b := py_bound len j in
  take (Z.to_nat (b - a)) (drop (Z.to_nat a) l).

Definition py_slice_from {A} (l : list A) (i : Z) : list A :=
  drop (Z.to_nat (py_bound (Z.of_nat (length l)) i)) l.

Lemma py_slice_sublist {A} (l : list A) i j : py_slice l i j `sublist_of` l.
Proof.
  unfold py_slice. etrans; [apply sublist_take|apply sublist_drop].
Qed.

Lemma py_slice_take {A} (l : list A) (n : Z) :
  (0 ≤ n)%Z → py_slice l 0 n = take (Z.to_nat n) l.
Proof.
  intros Hn. unfold py_slice, py_bound. rewrite Z.ltb_irrefl, (proj2 (Z.ltb_ge n 0)) by done.
  rewrite (Z.min_l 0) by lia. rewrite Z.sub_0_r, drop_0.
  destruct (Z.le_ge_cases n (Z.of_nat (length l))); [by rewrite Z.min_l|].
  rewrite Z.min_r by done. rewrite Nat2Z.id. by rewrite !firstn_all2 by lia.
Qed.

(** [l[n:] + l[:n]] *)
Definition rotated {A} (n : nat) (l : list A) : list A := drop n l ++ take n l.

Lemma rotated_perm {A} n (l : list A) : rotated n l ≡ₚ l.
Proof. unfold rotated. by rewrite Permutation_app_comm, take_drop. Qed.

Lemma rotated_lookup {A} (i j : nat) (l : list A) :
  i < length l → j < length l → rotated i l !! j = l !! ((i + j) mod length l).
Proof.
  intros Hi Hj. unfold rotated. destruct (decide (j < length l - i)) as [Hlt|Hge].
  - rewrite lookup_app_l by (rewrite length_drop; lia). rewrite lookup_drop.
    by rewrite Nat.mod_small by lia.
  - rewrite lookup_app_r by (rewrite length_drop; lia). rewrite length_drop.
    rewrite lookup_take_lt by lia. f_equal.
    replace (i + j) with ((j - (length l - i)) + 1 * length l) by lia.
    rewrite Nat.Div0.mod_add. by rewrite Nat.mod_small by lia.
Qed.

(** Taking [length l] consecutive elements round the list, from any start, takes
    each one once. *)
Lemma cyclic_perm {A} (c : Z) (l xs : list A) :
  length xs = length l →
  (∀ j, j < length l → xs !! j = l !! Z.to_nat ((c + Z.of_nat j) mod Z.of_nat (length l))) →
  xs ≡ₚ l.
Proof.
  intros Hlen Hxs. destruct (decide (length l = 0)) as [E|E].
  { destruct l; [|done]. by destruct xs. }
  assert (Hb : (0 ≤ c mod Z.of_nat (length l) < Z.of_nat (length l))%Z)
    by (apply Z.mod_pos_bound; lia).
  rewrite <-(rotated_perm (Z.to_nat (c mod Z.of_nat (length l))) l).
  assert (xs = rotated (Z.to_nat (c mod Z.of_nat (length l))) l) as ->; [|done].
  apply list_eq_same_length with (length l);
    [by rewrite ?(Permutation_length (rotated_perm _ _))..|].
  - intros j x y Hj. rewrite Hxs, rotated_lookup by lia.
    replace (Z.to_nat ((c + Z.of_nat j) mod Z.of_nat (length l)))
      with ((Z.to_nat (c mod Z.of_nat (length l)) + j) mod length l); [congruence|].
    apply Nat2Z.inj. rewrite Nat2Z.inj_mod, Nat2Z.inj_add, !Z2Nat.id by
      (try apply Z.mod_pos_bound; lia). by rewrite Z.add_mod_idemp_l by lia.
Qed.

(** ** Strings *)

(** [str.isspace] on the ASCII range: tab, LF, VT, FF, CR, FS, GS, RS, US and space. *)
Definition is_space (c : Ascii.ascii) : bool :=
  let n := Ascii.nat_of_ascii c in
  bool_decide (9 ≤ n ≤ 13) || bool_decide (28 ≤ n ≤ 32).

(** [not s.strip()]: every character is white space (or there is none). *)
Fixpoint is_blank (s : string) : bool :=
  match s with
  | EmptyString => true
  | String c s' => is_space c && is_blank s'
  end.

(** [str.lower] on the ASCII range. *)
Definition lower_ascii (c : Ascii.ascii) : Ascii.ascii :=
  let n := Ascii.nat_of_ascii c in
  if bool_decide (65 ≤ n ≤ 90) then Ascii.ascii_of_nat (n + 32) else c.

Fixpoint lower (s : string) : string :=
  match s with
  | EmptyString => EmptyString
  | String c s' => String (lower_ascii c) (lower s')
  end.

(** [a < b] on strings: code-point lexicographic order. *)
Definition str_ltb (a b : string) : bool := negb (String.leb b a).

Lemma str_ltb_irrefl a : str_ltb a a = false.
Proof.
  unfold str_ltb. pose proof (String.leb_total a a) as [->| ->]; reflexivity.
Qed.

Lemma str_ltb_lt a b : str_ltb a b = true ↔ String.le a b ∧ a ≠ b.
Proof.
  unfold str_ltb. rewrite negb_true_iff. unfold String.le. split.
  - intros H. destruct (String.leb_total a b) as [Hab|Hba]; [|congruence].
    split; [by rewrite Hab|]. intros ->. congruence.
  - intros [Hab Hne]. destruct (String.leb b a) eqn:E; [|done].
    exfalso. apply Hne. apply (anti_symm String.le); [done|].
    unfold String.le. by rewrite E.
Qed.

Lemma str_ltb_trans a b c :
  str_ltb a b = true → str_ltb b c = true → str_ltb a c = true.
Proof.
  rewrite !str_ltb_lt. intros [Hab Nab] [Hbc Nbc]. split.
  - by transitivity b.
  - intros ->. apply Nbc. by apply (anti_symm String.le).
Qed.

Lemma str_ltb_total a b : str_ltb a b = true ∨ a = b ∨ str_ltb b a = true.
Proof.
  destruct (decide (a = b)) as [->|Hne]; [by right; left|].
  destruct (total String.le a b); [left|right; right]; apply str_ltb_lt; auto.
Qed.
