(* ===== verification/PyInt.v ===== *)
(** * Python's [int] and [str] on decimal numerals

    [int(s)] reads a numeral as Python does; [str(n)] writes one, by the Standard
    Library's decimal conversions. *)
From stdpp Require Import base list strings pretty.
From Stdlib Require Import ZArith Ascii Lia.
From S2P Require Import Prelude.

(** [int(s)] for a string: blanks around an optional sign and decimal digits,
    single underscores between digits. *)
Section py_int.
Definition digit_of (c : Ascii.ascii) : option Z :=
  let n := Ascii.nat_of_ascii c in
  if bool_decide (48 ≤ n ≤ 57) then Some (Z.of_nat (n - 48)) else None.

Fixpoint skip_blank (s : string) : string :=
  match s with
  | String c s' => if is_space c then skip_blank s' else s
  | EmptyString => EmptyString
  end.

(** [acc] is the value read; [after_digit] says the last character was one. *)
Fixpoint read_digits (acc : Z) (after_digit : bool) (s : string) : option Z :=
  match s with
  | EmptyString => if after_digit then Some acc else None
  | String c s' =>
      match digit_of c with
      | Some d => read_digits (acc * 10 + d) true s'
      | None =>
          if after_digit then
            if bool_decide (c = "_"%char) then read_digits acc false s'
            else if is_blank s then Some acc else None
          else None
      end
  end.

Definition py_int (s : string) : option Z :=
  match skip_blank s with
  | String "-"%char s' => Z.opp <$> read_digits 0 false s'
  | String "+"%char s' => read_digits 0 false s'
  | s' => read_digits 0 false s'
  end.
End py_int.


(** ** Numerals as characters *)

(** [str(n)]: decimal digits, after a minus sign when negative. *)
Definition nat_digits (n : N) : list ascii := String.list_ascii_of_string (pretty n).

Definition int_text (z : Z) : list ascii :=
  if (z <? 0)%Z then "-"%char :: nat_digits (Z.abs_N z) else nat_digits (Z.abs_N z).

Definition is_digit (c : ascii) : bool :=
  let n := Ascii.nat_of_ascii c in bool_decide (48 ≤ n ≤ 57).

Definition digit_value (c : ascii) : Z := Z.of_nat (Ascii.nat_of_ascii c) - 48.

(** The number a list of digits denotes, after [acc]. *)
Definition digits_value (acc : Z) (l : list ascii) : Z :=
  fold_left (λ a c, a * 10 + digit_value c)%Z l acc.

Lemma pretty_char_digit x :
  (x < 10)%N → is_digit (pretty_N_char x) = true ∧ digit_value (pretty_N_char x) = Z.of_N x.
Proof.
  intros Hx.
  assert (x = 0 ∨ x = 1 ∨ x = 2 ∨ x = 3 ∨ x = 4 ∨ x = 5 ∨ x = 6 ∨ x = 7 ∨ x = 8 ∨ x = 9)%N
    by lia.
  naive_solver.
Qed.

Lemma pretty_go_spec x s :
  let l := String.list_ascii_of_string s in
  let r := String.list_ascii_of_string (pretty_N_go x s) in
  (forallb is_digit l = true → forallb is_digit r = true) ∧
  digits_value 0 r = digits_value (Z.of_N x) l ∧
  ((0 < x)%N → ∃ c r', r = c :: r' ∧ c ≠ "0"%char).
Proof.
  revert s. induction (N.lt_wf_0 x) as [x _ IH]; intros s. cbv zeta.
  destruct (decide (0 < x)%N) as [Hx|Hx]; cycle 1.
  { assert (x = 0)%N as -> by lia. rewrite pretty_N_go_0. split_and!; [done|done|lia]. }
  rewrite pretty_N_go_step by done.
  destruct (pretty_char_digit (x `mod` 10)) as [Hd Hv]; [by apply N.mod_lt|].
  destruct (IH (x `div` 10)%N (N.div_lt x 10 Hx eq_refl) (String (pretty_N_char (x `mod` 10)) s))
    as (H1 & H2 & H3). cbn [String.list_ascii_of_string] in *. split_and!.
  - intros Hl. apply H1. simpl. by rewrite Hd.
  - rewrite H2. cbn [digits_value fold_left]. unfold digits_value at 1. simpl.
    rewrite Hv. f_equal. rewrite (N.div_mod x 10) at 3 by done. rewrite N2Z.inj_add, N2Z.inj_mul.
    lia.
  - intros _. destruct (decide (0 < x `div` 10)%N) as [Hq|Hq]; [by apply H3|].
    assert (Hq0 : (x `div` 10 = 0)%N) by (apply N.le_0_r, N.nlt_ge, Hq).
    rewrite Hq0, pretty_N_go_0. simpl.
    eexists _, _. split; [done|].
    apply N.div_small_iff in Hq0; [|done]. rewrite N.mod_small by done.
    intros E. apply (pretty_N_char_inj x 0%N) in E; lia.
Qed.

(** A numeral is made of digits, denotes its number, and has no leading zero. *)
Lemma nat_digits_spec n :
  forallb is_digit (nat_digits n) = true ∧ digits_value 0 (nat_digits n) = Z.of_N n ∧
  ∃ c l, nat_digits n = c :: l ∧ (c = "0"%char → l = []).
Proof.
  unfold nat_digits, pretty, pretty_N. case_decide as Hn.
  { subst. split_and!; [done|done|]. by exists "0"%char, []. }
  destruct (pretty_go_spec n "") as (H1 & H2 & H3). split_and!.
  - by apply H1.
  - by rewrite H2.
  - destruct H3 as (c & l & -> & Hc); [lia|]. by exists c, l.
Qed.
