(* ===== verification/PyDict.v ===== *)
(** * Python dictionaries

    A [dict] keeps its keys in insertion order: assigning to a key that is
    present keeps its place, assigning to a new key appends it.  The model is
    the list of items in that order; [to_map] forgets the order. *)
From stdpp Require Import base gmap sets list strings.
From Stdlib Require Import ZArith.
From S2P Require Import Prelude.

Abbreviation dict V := (list (string * V)).

Section dict.
Context {V : Type}.
Implicit Types (d : dict V) (k : string) (v : V).

(** [d.get(k)] *)
Fixpoint dget d k : option V :=
match d with
| [] => None
| (k', v) :: d' => if decide (k = k') then Some v else dget d' k
end.

(** [k in d] *)
Definition dmem d k : bool :=
match dget d k with Some _ => true | None => false end.

(** [d[k] = v] *)
Fixpoint dset d k v : dict V :=
match d with
| [] => [(k, v)]
| (k', v') :: d' => if decide (k = k') then (k, v) :: d' else (k', v') :: dset d' k v
end.

(** [d.pop(k, None)] (and [del d[k]] once [k in d] is known) *)
Fixpoint ddel d k : dict V :=
match d with
| [] => []
| (k', v') :: d' => if decide (k = k') then d' else (k', v') :: ddel d' k
end.

(** [d.keys()] and [d.values()], in order *)
Definition dkeys d : list string := d.*1.
Definition dvalues d : list V := d.*2.

(** The keys of a dictionary are distinct. *)
Definition dwf d : Prop := NoDup (dkeys d).

(** The dictionary as a finite map, its order forgotten. *)
Definition to_map d : gmap string V := list_to_map d.
End dict.

(** [d1.update(d2)] *)
Definition dupdate {V} (d1 d2 : dict V) : dict V :=
  fold_left (λ d kv, dset d kv.1 kv.2) d2 d1.

(** [{k: f(v) for k, v in d.items()}] *)
Definition dmap {V W} (f : V → W) (d : dict V) : dict W := prod_map id f <$> d.

Section dict_lemmas.
Context {V : Type}.
Implicit Types (d : dict V) (k : string) (v : V).

Lemma dget_nil k : dget (V:=V) [] k = None.
Proof. done. Qed.

Lemma dget_set d k k' v :
  dget (dset d k v) k' = if decide (k' = k) then Some v else dget d k'.
Proof.
  induction d as [|[k0 v0] d IH]; simpl; [done|].
  destruct (decide (k = k0)) as [->|Hne]; simpl.
  - by destruct (decide (k' = k0)).
  - rewrite IH. repeat case_decide; congruence.
Qed.

Lemma dget_set_eq d k v : dget (dset d k v) k = Some v.
Proof. rewrite dget_set. by case_decide. Qed.

Lemma dget_set_ne d k k' v : k' ≠ k → dget (dset d k v) k' = dget d k'.
Proof. intros. rewrite dget_set. by case_decide. Qed.

Lemma dget_Some_elem d k v : dget d k = Some v → (k, v) ∈ d.
Proof.
  induction d as [|[k0 v0] d IH]; simpl; [done|].
  case_decide; intros; simplify_eq; [left|right; auto].
Qed.

Lemma dget_None d k : dget d k = None ↔ k ∉ dkeys d.
Proof.
  induction d as [|[k0 v0] d IH]; csimpl.
  - split; [|done]. intros _ Hin. by apply elem_of_nil in Hin.
  - rewrite not_elem_of_cons. case_decide as Hk.
    + split; [done|]. by intros [? _].
    + rewrite IH. split; [by split|by intros [_ ?]].
Qed.

Lemma dget_is_Some d k : is_Some (dget d k) ↔ k ∈ dkeys d.
Proof.
  rewrite <-not_eq_None_Some, dget_None. split; [|tauto].
  intros H. destruct (decide (k ∈ dkeys d)); tauto.
Qed.

Lemma dmem_true d k : dmem d k = true ↔ k ∈ dkeys d.
Proof.
  unfold dmem. rewrite <-dget_is_Some. destruct (dget d k); split; by try intros [? ?].
Qed.

Lemma dmem_false d k : dmem d k = false ↔ dget d k = None.
Proof. unfold dmem. by destruct (dget d k). Qed.

Lemma elem_dget d k v : dwf d → (k, v) ∈ d → dget d k = Some v.
Proof.
  unfold dwf. induction d as [|[k0 v0] d IH]; csimpl; intros Hnd Hin.
  { by apply elem_of_nil in Hin. }
  apply NoDup_cons in Hnd as [Hk0 Hnd].
  apply elem_of_cons in Hin as [Heq|Hin]; [simplify_eq; by case_decide|].
  case_decide; [subst|auto].
  exfalso. apply Hk0. apply list_elem_of_fmap. by exists (k0, v).
Qed.

Lemma elem_dget_iff d k v : dwf d → (k, v) ∈ d ↔ dget d k = Some v.
Proof. split; auto using elem_dget, dget_Some_elem. Qed.

Lemma dkeys_set d k v :
  dkeys (dset d k v) = if dmem d k then dkeys d else dkeys d ++ [k].
Proof.
  unfold dmem. induction d as [|[k0 v0] d IH]; csimpl; [done|].
  destruct (decide (k = k0)) as [->|Hne]; csimpl; [done|].
  rewrite IH. by destruct (dget d k).
Qed.

Lemma elem_dkeys_set d k k' v : k' ∈ dkeys (dset d k v) ↔ k' = k ∨ k' ∈ dkeys d.
Proof. rewrite <-!dget_is_Some, dget_set. case_decide; naive_solver. Qed.

Lemma dwf_nil : dwf (V:=V) [].
Proof. constructor. Qed.

Lemma dwf_set d k v : dwf d → dwf (dset d k v).
Proof.
  unfold dwf. intros H. rewrite dkeys_set. destruct (dmem d k) eqn:E; [done|].
  apply dmem_false, dget_None in E. apply NoDup_app.
  split; [done|]. split; [|apply NoDup_singleton].
  intros x Hx Hk. by apply list_elem_of_singleton in Hk as ->.
Qed.

Lemma elem_dset_inv d k v k' v' :
  (k', v') ∈ dset d k v → (k' = k ∧ v' = v) ∨ (k', v') ∈ d.
Proof.
  induction d as [|[k0 v0] d IH]; simpl.
  - intros H. apply list_elem_of_singleton in H. left; naive_solver.
  - case_decide; rewrite !elem_of_cons; naive_solver.
Qed.

Lemma Forall_dset (P : string * V → Prop) d k v :
  Forall P d → P (k, v) → Forall P (dset d k v).
Proof.
  rewrite !Forall_forall. intros H Hp [k' v'] Hin.
  apply elem_dset_inv in Hin as [[-> ->]|]; auto.
Qed.

Lemma elem_ddel d k x : x ∈ ddel d k → x ∈ d.
Proof.
  induction d as [|[k0 v0] d IH]; simpl; [done|].
  case_decide; rewrite !elem_of_cons; naive_solver.
Qed.

Lemma ddel_sublist d k : ddel d k `sublist_of` d.
Proof.
  induction d as [|[k0 v0] d IH]; simpl; [done|].
  case_decide; [by apply sublist_cons|by apply sublist_skip].
Qed.

Lemma Forall_ddel (P : string * V → Prop) d k : Forall P d → Forall P (ddel d k).
Proof. rewrite !Forall_forall. eauto using elem_ddel. Qed.

Lemma dwf_del d k : dwf d → dwf (ddel d k).
Proof.
  unfold dwf, dkeys. intros H. eapply sublist_NoDup; [exact H|].
  apply fmap_sublist, ddel_sublist.
Qed.

Lemma dget_del d k k' :
  dwf d → dget (ddel d k) k' = if decide (k' = k) then None else dget d k'.
Proof.
  unfold dwf. induction d as [|[k0 v0] d IH]; csimpl; intros Hwf.
  { by case_decide. }
  apply NoDup_cons in Hwf as [Hk0 Hwf].
  destruct (decide (k = k0)) as [->|Hne]; simpl.
  - case_decide as E; subst; [|done]. by apply dget_None.
  - rewrite IH by done. repeat case_decide; congruence.
Qed.

Lemma elem_dkeys_del d k k' :
  dwf d → k' ∈ dkeys (ddel d k) ↔ k' ≠ k ∧ k' ∈ dkeys d.
Proof.
  intros. rewrite <-!dget_is_Some, dget_del by done. case_decide; [|naive_solver].
  split; [by intros [??]|naive_solver].
Qed.

Lemma ddel_notin d k : k ∉ dkeys d → ddel d k = d.
Proof.
  induction d as [|[k0 v0] d IH]; csimpl; [done|].
  rewrite not_elem_of_cons. intros [??]. case_decide; [done|]. f_equal; auto.
Qed.

Lemma dkeys_del d k : dwf d → dkeys (ddel d k) = filter (λ k', k' ≠ k) (dkeys d).
Proof.
  unfold dwf. induction d as [|[k0 v0] d IH]; csimpl; intros Hwf; [done|].
  apply NoDup_cons in Hwf as [Hk0 Hwf].
  destruct (decide (k = k0)) as [->|Hne]; csimpl.
  - rewrite filter_cons_False by tauto.
    symmetry. apply filter_all. intros x Hx ->. done.
  - rewrite filter_cons_True by congruence. f_equal. auto.
Qed.

Lemma dwf_update d d' : dwf d → dwf (dupdate d d').
Proof.
  unfold dupdate. revert d. induction d' as [|[k v] d' IH]; simpl; auto using dwf_set.
Qed.

Lemma dget_update d d' k :
  dwf d' → dget (dupdate d d') k =
    match dget d' k with Some v => Some v | None => dget d k end.
Proof.
  unfold dupdate, dwf. revert d. induction d' as [|[k0 v0] d' IH]; csimpl; [done|].
  intros d Hwf. apply NoDup_cons in Hwf as [Hk0 Hwf]. rewrite IH by done.
  rewrite dget_set. case_decide; [subst|done].
  by rewrite (proj2 (dget_None d' k0)).
Qed.

(** The order-free view: insertion, lookup and deletion are those of [gmap]. *)
Lemma to_map_lookup d k : dwf d → to_map d !! k = dget d k.
Proof.
  unfold to_map. intros Hwf. destruct (dget d k) as [v|] eqn:E.
  - apply elem_of_list_to_map_1; [done|]. by apply dget_Some_elem.
  - apply not_elem_of_list_to_map_1. by apply dget_None.
Qed.

Lemma to_map_set d k v : dwf d → to_map (dset d k v) = <[k:=v]> (to_map d).
Proof.
  intros Hwf. apply map_eq; intros k'. rewrite to_map_lookup by by apply dwf_set.
  rewrite dget_set, lookup_insert, to_map_lookup by done.
  repeat case_decide; congruence.
Qed.

Lemma to_map_del d k : dwf d → to_map (ddel d k) = delete k (to_map d).
Proof.
  intros Hwf. apply map_eq; intros k'. rewrite to_map_lookup by by apply dwf_del.
  rewrite dget_del, lookup_delete, to_map_lookup by done.
  repeat case_decide; congruence.
Qed.
End dict_lemmas.

Section dmap_lemmas.
Context {V W : Type} (f : V → W).

Lemma dkeys_map (d : dict V) : dkeys (dmap f d) = dkeys d.
Proof. unfold dkeys, dmap. rewrite <-list_fmap_compose. by apply list_fmap_ext. Qed.

Lemma dget_map (d : dict V) k : dget (dmap f d) k = f <$> dget d k.
Proof.
  induction d as [|[k0 v0] d IH]; simpl; [done|]. by case_decide.
Qed.

Lemma dwf_map (d : dict V) : dwf d → dwf (dmap f d).
Proof. unfold dwf. by rewrite dkeys_map. Qed.
End dmap_lemmas.

#[export] Hint Resolve dwf_nil dwf_set dwf_del dwf_update dwf_map
  Forall_dset Forall_ddel : py.
#[export] Hint Rewrite @dget_set_eq @dkeys_map @dget_map : pyrw.

(** ** Counters: [d.get(k, 0)], and [d[k]] of a [defaultdict(int)] *)
Definition get0 (d : dict Z) (k : string) : Z := default 0%Z (dget d k).

Lemma get0_set (d : dict Z) k v k' :
  get0 (dset d k v) k' = if decide (k' = k) then v else get0 d k'.
Proof. unfold get0. rewrite dget_set. by case_decide. Qed.

(** A new key goes to the end. *)
Lemma dset_fresh {A} (d : dict A) k v : k ∉ dkeys d → dset d k v = d ++ [(k, v)].
Proof.
  induction d as [|[k' v'] d IH]; csimpl; [done|].
  rewrite not_elem_of_cons. intros [??]. case_decide; [done|]. f_equal. auto.
Qed.

(** ** Dictionaries built from a list, [{key(x): val(x) for x in l}] *)
Section comprehension.
Context {X A : Type} (key : X → string) (val : X → A).

(** Inserting distinct fresh keys in order appends them. *)
Lemma fold_dset_fresh l (d : dict A) :
  NoDup (key <$> l) → (∀ x, x ∈ l → key x ∉ dkeys d) →
  fold_left (λ d x, dset d (key x) (val x)) l d = d ++ ((λ x, (key x, val x)) <$> l).
Proof.
  revert d. induction l as [|r l IH]; csimpl; intros d Hnd Hd; [by rewrite app_nil_r|].
  apply NoDup_cons in Hnd as [Hr Hnd].
  rewrite dset_fresh by (apply Hd; left). rewrite IH; [by rewrite <-app_assoc|done|].
  intros r' Hr'. unfold dkeys. rewrite fmap_app, not_elem_of_app. csimpl. split.
  - apply Hd. by right.
  - rewrite list_elem_of_singleton. intros Heq. apply Hr. rewrite <-Heq.
    by apply list_elem_of_fmap_2.
Qed.

Lemma fold_dset_elem l (d : dict A) k v :
  dget (fold_left (λ d x, dset d (key x) (val x)) l d) k = Some v →
  dget d k = Some v ∨ ∃ x, x ∈ l ∧ key x = k ∧ val x = v.
Proof.
  revert d. induction l as [|x l IH]; simpl; intros d; [by left|]. intros H.
  destruct (IH _ H) as [H1|(y & Hy & <- & <-)]; [|right; exists y; split; [by right|done]].
  rewrite dget_set in H1. case_decide; simplify_eq; [|by left].
  right. exists x. split; [left|done].
Qed.

Lemma elem_fold_dset l (d : dict A) k :
  k ∈ dkeys (fold_left (λ d x, dset d (key x) (val x)) l d) ↔ k ∈ dkeys d ∨ k ∈ key <$> l.
Proof.
  revert d. induction l as [|x l IH]; csimpl; intros d.
  - split; [by left|]. intros [?|H]; [done|]. by apply elem_of_nil in H.
  - rewrite IH, elem_dkeys_set, elem_of_cons. naive_solver.
Qed.
End comprehension.
