(* ===== verification/PyFloat.v ===== *)
(** * Python floats

    The router computes with Python's [float].  [PyFloat] lists the operations
    the code uses; every component is parametric in it.  Two structures
    implement it:
    - [B64]: IEEE 754 binary64, the semantics of CPython's [float], by the
      Standard Library's executable [SpecFloat] at precision 53 and maximal
      exponent 1024: NaN, infinities, signed zeros and rounding included;
    - [QF]: exact rationals, used where a theorem is about the arithmetic the
      code means and rounding would only blur it.
    [FloatOrder] states the comparison laws both satisfy (NaN compares false
    with everything, as in Python); theorems about guards, sorting and
    thresholds are proved from these laws, so they hold for binary64.  [FloatNonneg] adds
    that sums of numbers that are not negative are such numbers. *)
From stdpp Require Import base list.
From Stdlib Require Import ZArith SpecFloat QArith Lqa Lia.
From S2P Require Import Prelude.

(** The operations of [float] the code uses.  [fdiv] is only applied under the
    code's own guard against a zero divisor ([ZeroDivisionError] otherwise). *)
Class PyFloat : Type := {
  float : Type;
  fofZ : Z → float;               (* float(n) *)
  fadd : float → float → float;   (* x + y *)
  fsub : float → float → float;   (* x - y *)
  fmul : float → float → float;   (* x * y *)
  fdiv : float → float → float;   (* x / y *)
  fltb : float → float → bool;    (* x < y *)
  fleb : float → float → bool;    (* x <= y *)
  feqb : float → float → bool;    (* x == y *)
  ftrunc : float → option Z;      (* int(x); None where it raises *)
  fninf_ltb : float → bool;       (* float("-inf") < x *)
}.

Declare Scope float_scope.
Delimit Scope float_scope with F.
Bind Scope float_scope with float.
Infix "+" := fadd : float_scope.
Infix "-" := fsub : float_scope.
Infix "*" := fmul : float_scope.
Infix "/" := fdiv : float_scope.
Infix "<?" := fltb : float_scope.
Infix "<=?" := fleb : float_scope.
Infix "=?" := feqb : float_scope.

Section ops.
Context {F : PyFloat}.

(** [0.0], [1.0], and a decimal literal [n/d] (for [|n|, d < 2^53] the
    correctly rounded quotient is the literal's binary64 value). *)
Definition f0 : float := fofZ 0.
Definition f1 : float := fofZ 1.
Definition flit (n d : Z) : float := fdiv (fofZ n) (fofZ d).

(** Not a NaN: Python's [x == x]. *)
Definition fnum (x : float) : bool := feqb x x.

(** [min(x, y)] and [max(x, y)]: the first argument unless the second one is
    strictly smaller (larger). *)
Definition fmin (x y : float) : float := if fltb y x then y else x.
Definition fmax (x y : float) : float := if fltb x y then y else x.

(** [sum(xs)]: left to right, from the integer 0. *)
Definition fsum (xs : list float) : float := fold_left fadd xs f0.

(** [lo <= x <= hi] *)
Definition fbetween (lo x hi : float) : bool := fleb lo x && fleb x hi.
End ops.

(** ** Comparison laws *)
Class FloatOrder (F : PyFloat) : Prop := {
  fltb_irrefl x : fltb x x = false;
  fltb_trans x y z : fltb x y = true → fltb y z = true → fltb x z = true;
  fltb_negtrans x y z :
    fnum y = true → fltb x y = false → fltb y z = false → fltb x z = false;
  fleb_num x y : fleb x y = true → fnum x = true ∧ fnum y = true;
  fltb_num x y : fltb x y = true → fnum x = true ∧ fnum y = true;
  fleb_ltb x y : fnum x = true → fnum y = true → fleb x y = negb (fltb y x);
  feqb_leb x y : feqb x y = fleb x y && fleb y x;
  fnum_0 : fnum f0 = true;
  fnum_1 : fnum f1 = true;
  fltb_0_1 : fltb f0 f1 = true;
}.

(** Sums of numbers that are not negative. *)
Class FloatNonneg (F : PyFloat) : Prop := {
  fofZ_nonneg n : (0 <= n)%Z → fleb f0 (fofZ n) = true;
  fadd_nonneg x y : fleb f0 x = true → fleb f0 y = true → fleb f0 (fadd x y) = true;
}.

Lemma fsum_nonneg {F : PyFloat} {HF : FloatOrder F} {HN : FloatNonneg F} (xs : list float) :
  Forall (λ x, fleb f0 x = true) xs → fleb f0 (fsum xs) = true.
Proof.
  assert (Hacc : ∀ a, fleb f0 a = true → Forall (λ x, fleb f0 x = true) xs →
    fleb f0 (fold_left fadd xs a) = true).
  { induction xs as [|x xs IH]; intros a Ha Hx; [done|].
    apply Forall_cons in Hx as [Hx Hxs]. apply IH; [by apply fadd_nonneg|done]. }
  apply Hacc. by apply fofZ_nonneg.
Qed.

Section order_lemmas.
Context {F : PyFloat} {HF : FloatOrder F}.
Implicit Types x y z : float.

Lemma fleb_refl x : fnum x = true → fleb x x = true.
Proof. intros. rewrite fleb_ltb by done. by rewrite fltb_irrefl. Qed.

Lemma fltb_leb x y : fltb x y = true → fleb x y = true.
Proof.
  intros H. destruct (fltb_num x y H). rewrite fleb_ltb by done.
  apply negb_true_iff. destruct (fltb y x) eqn:E; [|done].
  pose proof (fltb_trans _ _ _ H E). by rewrite fltb_irrefl in *.
Qed.

Lemma fleb_total x y : fnum x = true → fnum y = true → fleb x y = true ∨ fleb y x = true.
Proof.
  intros. destruct (fltb y x) eqn:E; [right; by apply fltb_leb|left].
  rewrite fleb_ltb by done. by rewrite E.
Qed.

Lemma fleb_not_ltb x y : fleb x y = true → fltb y x = false.
Proof.
  intros H. destruct (fleb_num x y H). rewrite fleb_ltb in H by done.
  by apply negb_true_iff.
Qed.

Lemma not_ltb_leb x y : fnum x = true → fnum y = true → fltb y x = false → fleb x y = true.
Proof. intros. rewrite fleb_ltb by done. by apply negb_true_iff. Qed.

Lemma not_leb_ltb x y : fnum x = true → fnum y = true → fleb y x = false → fltb x y = true.
Proof. intros ?? H. rewrite fleb_ltb in H by done. by apply negb_false_iff. Qed.

Lemma fleb_trans x y z : fleb x y = true → fleb y z = true → fleb x z = true.
Proof.
  intros H1 H2. destruct (fleb_num _ _ H1), (fleb_num _ _ H2).
  apply not_ltb_leb; [done..|]. apply (fltb_negtrans _ y); auto using fleb_not_ltb.
Qed.

Lemma fltb_leb_trans x y z : fltb x y = true → fleb y z = true → fltb x z = true.
Proof.
  intros H1 H2. destruct (fltb_num _ _ H1), (fleb_num _ _ H2).
  destruct (fltb x z) eqn:E; [done|].
  pose proof (fltb_negtrans x z y ltac:(done) E (fleb_not_ltb _ _ H2)). congruence.
Qed.

Lemma fnum_min x y : fnum x = true → fnum y = true → fnum (fmin x y) = true.
Proof. unfold fmin. by case_match. Qed.

(** [min] is below its first argument even when the second one is a NaN. *)
Lemma fmin_le_l x y : fnum x = true → fleb (fmin x y) x = true.
Proof. unfold fmin. intros. case_match; [by apply fltb_leb|by apply fleb_refl]. Qed.

Lemma fmax_ge_l x y : fnum x = true → fleb x (fmax x y) = true.
Proof. unfold fmax. intros. case_match; [by apply fltb_leb|by apply fleb_refl]. Qed.

Lemma fbetween_num lo x hi : fbetween lo x hi = true → fnum x = true.
Proof. unfold fbetween. intros [H _]%andb_prop. exact (proj2 (fleb_num _ _ H)). Qed.

Lemma f1_not_lt_0 : fltb f1 f0 = false.
Proof. apply fleb_not_ltb, fltb_leb, fltb_0_1. Qed.
End order_lemmas.

(** ** Binary64 *)
Section binary64.
(** A number's rank: sign and magnitude class, then exponent, then mantissa. *)
Definition sf_rank (x : spec_float) : option (Z * Z * Z) :=
  match x with
  | S754_nan => None
  | S754_zero _ => Some (0, 0, 0)%Z
  | S754_infinity false => Some (2, 0, 0)%Z
  | S754_infinity true => Some (-2, 0, 0)%Z
  | S754_finite false m e => Some (1, e, Z.pos m)%Z
  | S754_finite true m e => Some (-1, - e, - Z.pos m)%Z
  end.

Definition rank_ltb (a b : Z * Z * Z) : bool :=
  let '(a1, a2, a3) := a in
  let '(b1, b2, b3) := b in
  ((a1 <? b1) || (a1 =? b1) && ((a2 <? b2) || (a2 =? b2) && (a3 <? b3)))%Z.

Lemma rank_ltb_lt a b : rank_ltb a b = true ↔
  (a.1.1 < b.1.1 ∨ a.1.1 = b.1.1 ∧ (a.1.2 < b.1.2 ∨ a.1.2 = b.1.2 ∧ a.2 < b.2))%Z.
Proof. destruct a as [[a1 a2] a3], b as [[b1 b2] b3]. simpl. lia. Qed.

Lemma rank_not_ltb a b : rank_ltb a b = false ↔
  ¬ (a.1.1 < b.1.1 ∨ a.1.1 = b.1.1 ∧ (a.1.2 < b.1.2 ∨ a.1.2 = b.1.2 ∧ a.2 < b.2))%Z.
Proof. rewrite <-rank_ltb_lt. by destruct (rank_ltb a b); split. Qed.

Lemma SFcompare_rank x y :
  SFcompare x y =
    match sf_rank x, sf_rank y with
    | Some a, Some b =>
        Some (if rank_ltb a b then Lt else if rank_ltb b a then Gt else Eq)
    | _, _ => None
    end.
Proof.
  destruct x as [sx|sx| |sx mx ex], y as [sy|sy| |sy my ey];
    repeat match goal with b : bool |- _ => destruct b end; try reflexivity;
    cbn -[Z.compare Z.ltb Z.opp];
    change (Pos.compare_cont Eq mx my) with (Pos.compare mx my).
  all: destruct (Z.compare_spec ex ey); destruct (Pos.compare_spec mx my); subst; simpl;
    repeat case_match; bool_simpl; try done; try lia.
Qed.

Lemma SFltb_rank x y : SFltb x y =
  match sf_rank x, sf_rank y with Some a, Some b => rank_ltb a b | _, _ => false end.
Proof.
  unfold SFltb. rewrite SFcompare_rank.
  destruct (sf_rank x), (sf_rank y); try done. by repeat case_match.
Qed.

Lemma SFleb_rank x y : SFleb x y =
  match sf_rank x, sf_rank y with Some a, Some b => negb (rank_ltb b a) | _, _ => false end.
Proof.
  unfold SFleb. rewrite SFcompare_rank.
  destruct (sf_rank x) as [a|], (sf_rank y) as [b|]; try done.
  destruct (rank_ltb a b) eqn:E1, (rank_ltb b a) eqn:E2; try done.
  apply rank_ltb_lt in E1, E2. lia.
Qed.

Lemma SFeqb_rank x y : SFeqb x y =
  match sf_rank x, sf_rank y with
  | Some a, Some b => negb (rank_ltb a b) && negb (rank_ltb b a) | _, _ => false end.
Proof.
  unfold SFeqb. rewrite SFcompare_rank.
  destruct (sf_rank x) as [a|], (sf_rank y) as [b|]; try done.
  by destruct (rank_ltb a b), (rank_ltb b a).
Qed.

(** Truncation towards zero; [int] raises on NaN and the infinities. *)
Definition sf_trunc (x : spec_float) : option Z :=
  match x with
  | S754_zero _ => Some 0%Z
  | S754_finite s m e =>
      let n := Z.shiftl (Z.pos m) e in Some (if s then (- n)%Z else n)
  | _ => None
  end.

Definition B64 : PyFloat := {|
  float := spec_float;
  fofZ z := binary_normalize 53 1024 z 0 false;
  fadd := SFadd 53 1024;
  fsub := SFsub 53 1024;
  fmul := SFmul 53 1024;
  fdiv := SFdiv 53 1024;
  fltb := SFltb;
  fleb := SFleb;
  feqb := SFeqb;
  ftrunc := sf_trunc;
  fninf_ltb := SFltb (S754_infinity true);
|}.

#[global] Instance B64_order : FloatOrder B64.
Proof.
  split; try reflexivity; unfold fnum; simpl; intros *;
    rewrite ?SFltb_rank, ?SFleb_rank, ?SFeqb_rank;
    repeat match goal with |- context [sf_rank ?a] => destruct (sf_rank a) end;
    rewrite ?andb_true_iff, ?negb_true_iff, ?rank_ltb_lt, ?rank_not_ltb;
    try done; try lia; try (intros; by split; rewrite ?rank_not_ltb; try lia).
  by rewrite andb_comm.
Qed.

(** Rounding keeps the sign of what is not negative. *)
Definition sf_nonneg (x : spec_float) : bool :=
  match x with S754_zero _ | S754_infinity false | S754_finite false _ _ => true | _ => false end.

Lemma SFleb_0 x : SFleb (binary_normalize 53 1024 0 0 false) x = sf_nonneg x.
Proof. by destruct x as [|[]| |[] m e]. Qed.

Lemma shr_nonneg (r : shr_record) e n : (0 <= shr_m r)%Z → (0 <= shr_m (shr r e n).1)%Z.
Proof.
  assert (H1 : ∀ r, (0 <= shr_m r)%Z → (0 <= shr_m (shr_1 r))%Z)
    by (intros [[|[]|] r0 s]; simpl; lia).
  unfold shr. destruct n as [|p|p]; [done| |done]. cbn [fst]. revert r.
  induction p as [p IH|p IH|]; intros r Hr; simpl; [apply IH, IH, H1|apply IH, IH|apply H1]; done.
Qed.

Lemma round_nonneg m e l : (0 <= m)%Z → sf_nonneg (binary_round_aux 53 1024 false m e l) = true.
Proof.
  intros Hm. unfold binary_round_aux, shr_fexp.
  pose proof (shr_nonneg (shr_record_of_loc m l) e (fexp 53 1024 (Zdigits2 m + e) - e)) as H1.
  destruct (shr _ _ _) as [r1 e1]. cbn [fst] in H1.
  set (m1 := round_nearest_even _ _). assert (Hm1 : (0 <= m1)%Z).
  { assert (0 <= shr_m r1)%Z by (apply H1; destruct l as [|[]]; simpl; lia).
    unfold m1, round_nearest_even. repeat case_match; lia. }
  pose proof (shr_nonneg (shr_record_of_loc m1 loc_Exact) e1 (fexp 53 1024 (Zdigits2 m1 + e1) - e1)) as H2.
  destruct (shr (shr_record_of_loc m1 loc_Exact) _ _) as [r2 e2]. cbn [fst] in H2. specialize (H2 Hm1).
  destruct (shr_m r2); [done|by case_match|lia].
Qed.

Lemma normalize_nonneg m e : (0 <= m)%Z → sf_nonneg (binary_normalize 53 1024 m e false) = true.
Proof.
  destruct m as [|m|m]; [done|intros _|lia]. unfold binary_normalize, binary_round.
  destruct (shl_align _ _ _). by apply round_nonneg.
Qed.

#[global] Instance B64_nonneg : FloatNonneg B64.
Proof.
  split; unfold f0; cbn [fofZ fadd fleb B64]; setoid_rewrite SFleb_0.
  - intros n. by apply normalize_nonneg.
  - intros [|[]| |[] mx ex] [|[]| |[] my ey]; try done; intros _ _; unfold SFadd.
    1: by repeat case_match.
    apply normalize_nonneg. simpl. lia.
Qed.
End binary64.

(** ** Exact rationals *)
Definition Qltb (x y : Q) : bool := negb (Qle_bool y x).

Lemma Qltb_lt x y : Qltb x y = true ↔ (x < y)%Q.
Proof.
  unfold Qltb. rewrite negb_true_iff, <-not_true_iff_false, Qle_bool_iff.
  split; [apply Qnot_le_lt|apply Qlt_not_le].
Qed.

Lemma Qltb_ge x y : Qltb x y = false ↔ (y <= x)%Q.
Proof. unfold Qltb. by rewrite negb_false_iff, Qle_bool_iff. Qed.

Lemma Qle_bool_false x y : Qle_bool x y = false ↔ (y < x)%Q.
Proof.
  rewrite <-not_true_iff_false, Qle_bool_iff.
  split; [apply Qnot_le_lt|apply Qlt_not_le].
Qed.

Definition QF : PyFloat := {|
  float := Q;
  fofZ z := inject_Z z;
  fadd := Qplus;
  fsub := Qminus;
  fmul := Qmult;
  fdiv := Qdiv;
  fltb := Qltb;
  fleb := Qle_bool;
  feqb := Qeq_bool;
  ftrunc x := Some (Z.quot (Qnum x) (Z.pos (Qden x)));
  fninf_ltb _ := true;
|}.

#[global] Instance QF_order : FloatOrder QF.
Proof.
  assert (Hnum : ∀ x : Q, Qeq_bool x x = true) by (intros; by apply Qeq_bool_iff).
  split; unfold fnum; simpl; intros *; rewrite ?Hnum; try done.
  - apply Qltb_ge. lra.
  - rewrite !Qltb_lt. lra.
  - rewrite !Qltb_ge. lra.
  - unfold Qltb. by rewrite negb_involutive.
  - apply eq_true_iff_eq. rewrite andb_true_iff, Qeq_bool_iff, !Qle_bool_iff. lra.
Qed.

#[global] Instance QF_nonneg : FloatNonneg QF.
Proof.
  split; unfold f0; cbn [fofZ fadd fleb QF]; intros *; rewrite !Qle_bool_iff.
  - intros H. by rewrite <-Zle_Qle.
  - change (inject_Z 0) with 0%Q. lra.
Qed.

(** Push the comparisons of [QF] to propositions over [Q]. *)
Ltac q_simpl :=
  cbn [float fofZ fadd fsub fmul fdiv fltb fleb feqb QF] in *;
  rewrite ?Qltb_lt, ?Qltb_ge, ?Qle_bool_iff, ?Qle_bool_false, ?Qeq_bool_iff in *.

(** Show a goal over [QF] as one over [Q], for [ring] and [lra]. *)
Ltac qf :=
  unfold f0, f1, flit in *; cbn [float fofZ fadd fsub fmul fdiv fltb fleb feqb QF] in *;
  change (inject_Z 0) with 0%Q in *; change (inject_Z 1) with 1%Q in *;
  change (@float QF) with Q in *.

(** Sums over [QF] do not depend on the accumulator. *)
Section rational_sums.
#[local] Existing Instance QF.
#[local] Open Scope Q_scope.

Lemma fsum_acc (xs : list float) (a : float) :
  fold_left fadd xs a == a + fold_left fadd xs f0.
Proof.
  revert a. induction xs as [|x xs IH]; intros a; simpl; [qf; ring|].
  rewrite (IH (fadd a x)), (IH (fadd f0 x)). qf. ring.
Qed.

Lemma fmin_q (x y : float) :
  fmin x y <= x ∧ fmin x y <= y ∧ (fmin x y = x ∨ fmin x y = y).
Proof.
  unfold fmin. destruct (fltb y x) eqn:E; [apply Qltb_lt in E|apply Qltb_ge in E];
    repeat split; auto using Qle_refl, Qlt_le_weak.
Qed.

Lemma fmax_q (x y : float) :
  x <= fmax x y ∧ y <= fmax x y ∧ (fmax x y = x ∨ fmax x y = y).
Proof.
  unfold fmax. destruct (fltb x y) eqn:E; [apply Qltb_lt in E|apply Qltb_ge in E];
    repeat split; auto using Qle_refl, Qlt_le_weak.
Qed.

Lemma fmin_mono (a x y : float) : x <= y → fmin a x <= fmin a y.
Proof.
  intros H. destruct (fmin_q a x) as (H1 & H2 & _), (fmin_q a y) as (_ & _ & [-> | ->]);
    [done|by eapply Qle_trans].
Qed.

(** [n / d] on integers, [d] positive. *)
Lemma fdiv_nonneg (a d : Z) : (0 <= a)%Z → (0 < d)%Z → 0 <= inject_Z a / inject_Z d.
Proof.
  intros Ha Hd. apply Qle_shift_div_l; [by rewrite (Zlt_Qlt 0) in Hd|].
  rewrite Qmult_0_l. by rewrite (Zle_Qle 0) in Ha.
Qed.

Lemma fdiv_mono (a b d : Z) :
  (a <= b)%Z → (0 < d)%Z → inject_Z a / inject_Z d <= inject_Z b / inject_Z d.
Proof.
  intros Hab Hd. rewrite (Zlt_Qlt 0) in Hd. apply Qle_shift_div_l; [done|].
  unfold Qdiv. rewrite <-Qmult_assoc, (Qmult_comm (/ _)), Qmult_inv_r, Qmult_1_r.
  - by rewrite Zle_Qle in Hab.
  - intros E. rewrite E in Hd. by apply Qlt_irrefl in Hd.
Qed.

Lemma fsum_nil : fsum [] == 0.
Proof. done. Qed.

Lemma fsum_cons (x : float) xs : fsum (x :: xs) == x + fsum xs.
Proof. unfold fsum. simpl. rewrite fsum_acc. qf. ring. Qed.

Lemma fsum_app (xs ys : list float) : fsum (xs ++ ys) == fsum xs + fsum ys.
Proof.
  induction xs as [|x xs IH]; [rewrite fsum_nil; simpl; lra|].
  simpl. rewrite !fsum_cons, IH. lra.
Qed.
End rational_sums.

#[export] Hint Resolve fleb_refl fltb_leb fleb_not_ltb fnum_min fmin_le_l : py.
