(* ===== verification/PySort.v ===== *)
(** * Python's stable sort, [min] and [max]

    [list.sort(key=...)] and [sorted] compare keys with [<] only and are
    stable.  [py_sort lt] is the stable sort for a comparison [lt] on the
    elements ([lt x y] is [key(x) < key(y)]); [reverse=True] keeps stability, so
    it is [py_sort] for the flipped comparison.  On keys that are all numbers
    the stable sort of a list is unique, so insertion sort computes the same
    list as CPython's merge sort. *)
From stdpp Require Import base list sorting strings.
From S2P Require Import Prelude.

Section sort.
Context {A : Type} (lt : A → A → bool).
Implicit Types (x y : A) (l : list A).

(** Insert [x], which came before every element of [l], into a sorted [l]. *)
Fixpoint py_insert x l : list A :=
  match l with
  | [] => [x]
  | y :: l' => if lt y x then y :: py_insert x l' else x :: y :: l'
  end.

Fixpoint py_sort l : list A :=
  match l with
  | [] => []
  | x :: l' => py_insert x (py_sort l')
  end.

(** [min(l, key=...)]: the first of the smallest elements. *)
Definition py_min_from x l : A :=
  fold_left (λ best y, if lt y best then y else best) l x.

Definition py_min l : option A :=
  match l with [] => None | x :: l' => Some (py_min_from x l') end.

(** [max(l, key=...)]: the first of the largest elements. *)
Definition py_max_from x l : A :=
  fold_left (λ best y, if lt best y then y else best) l x.

Definition py_max l : option A :=
  match l with [] => None | x :: l' => Some (py_max_from x l') end.

Lemma py_min_from_elem x l : py_min_from x l ∈ x :: l.
Proof.
  unfold py_min_from. revert x. induction l as [|y l IH]; intros x; simpl; [left|].
  destruct (lt y x); [right; apply IH|]. specialize (IH x).
  apply elem_of_cons in IH as [->|IH]; [left|by right; right].
Qed.

Lemma py_insert_perm x l : py_insert x l ≡ₚ x :: l.
Proof.
  induction l as [|y l IH]; simpl; [done|]. case_match; [|done].
  rewrite IH. constructor.
Qed.

Lemma py_sort_perm l : py_sort l ≡ₚ l.
Proof. induction l as [|x l IH]; simpl; [done|]. by rewrite py_insert_perm, IH. Qed.

Lemma elem_py_sort x l : x ∈ py_sort l ↔ x ∈ l.
Proof. by rewrite py_sort_perm. Qed.

Lemma length_py_sort l : length (py_sort l) = length l.
Proof. apply Permutation_length, py_sort_perm. Qed.

Lemma py_sort_nil l : py_sort l = [] ↔ l = [].
Proof.
  rewrite <-!length_zero_iff_nil, length_py_sort. done.
Qed.

(** The comparison is a strict weak order on the elements satisfying [P]. *)
Record weak_order (P : A → Prop) : Prop := {
  wo_irrefl x : P x → lt x x = false;
  wo_trans x y z : P x → P y → P z → lt x y = true → lt y z = true → lt x z = true;
  wo_negtrans x y z :
    P x → P y → P z → lt x y = false → lt y z = false → lt x z = false;
}.

Lemma wo_asym P x y : weak_order P → P x → P y → lt x y = true → lt y x = false.
Proof.
  intros H ?? Hxy. destruct (lt y x) eqn:E; [|done].
  pose proof (wo_trans _ H x y x ltac:(done) ltac:(done) ltac:(done) Hxy E) as Hxx.
  by rewrite (wo_irrefl _ H) in Hxx.
Qed.

(** [y] does not come strictly before [x]. *)
Definition not_after x y : Prop := lt y x = false.

Context (P : A → Prop) (HP : weak_order P).

Lemma py_insert_sorted x l :
  P x → Forall P l → StronglySorted not_after l → StronglySorted not_after (py_insert x l).
Proof.
  intros Px Pl Hs. induction Hs as [|y l Hs IH Hy]; simpl; [repeat constructor|].
  apply Forall_cons in Pl as [Py Pl].
  destruct (lt y x) eqn:E.
  - constructor; [auto|]. rewrite py_insert_perm. constructor; [|done].
    unfold not_after. eauto using wo_asym.
  - constructor; [by constructor|]. constructor; [done|].
    rewrite Forall_forall in Hy, Pl |- *. intros z Hz. unfold not_after in *.
    eapply (wo_negtrans P HP z y x); auto.
Qed.

Lemma py_sort_sorted l : Forall P l → StronglySorted not_after (py_sort l).
Proof.
  induction 1 as [|x l Px Pl IH]; simpl; [constructor|].
  apply py_insert_sorted; [done| |done]. by rewrite py_sort_perm.
Qed.

(** Stability: the elements that tie with [k] keep their order. *)
Definition ties k x : bool := negb (lt k x) && negb (lt x k).

Lemma py_insert_ties k x l :
  P k → P x → Forall P l → StronglySorted not_after l →
  filter (λ y, ties k y) (py_insert x l) = filter (λ y, ties k y) (x :: l).
Proof.
  intros Pk Px Pl. induction 1 as [|y l Hs IH Hy]; simpl; [done|].
  apply Forall_cons in Pl as [Py Pl].
  destruct (lt y x) eqn:E; [|done].
  rewrite filter_cons, IH by done. rewrite !filter_cons.
  destruct (decide (ties k x)) as [Tx|]; [|done].
  destruct (decide (ties k y)) as [Ty|]; [|done].
  unfold ties in *. apply Is_true_true in Tx, Ty. bool_simpl.
  exfalso. assert (lt y x = false); [|congruence].
  eapply (wo_negtrans P HP y k x); auto.
Qed.

Lemma py_sort_stable k l :
  P k → Forall P l → filter (λ y, ties k y) (py_sort l) = filter (λ y, ties k y) l.
Proof.
  intros Pk. induction 1 as [|x l Px Pl IH]; [done|].
  cbn [py_sort]. rewrite py_insert_ties; [|done..| |by apply py_sort_sorted].
  - rewrite !filter_cons, IH. done.
  - by rewrite py_sort_perm.
Qed.

Lemma py_min_from_spec x l :
  P x → Forall P l →
  py_min_from x l ∈ x :: l ∧ ∀ y, y ∈ x :: l → lt y (py_min_from x l) = false.
Proof.
  unfold py_min_from. revert x. induction l as [|y l IH]; intros x Px Pl; simpl.
  { split; [left|]. intros z Hz. apply list_elem_of_singleton in Hz as ->.
    by apply (wo_irrefl P HP). }
  apply Forall_cons in Pl as [Py Pl]. destruct (lt y x) eqn:E.
  - destruct (IH y Py Pl) as [Hin Hmin]. split; [by right|].
    intros z Hz. apply elem_of_cons in Hz as [->|Hz]; [|auto].
    assert (P (fold_left (λ best y, if lt y best then y else best) l y)) as Pm.
    { apply elem_of_cons in Hin as [->|Hin]; [done|].
      by eapply Forall_forall in Pl; [|exact Hin]. }
    apply (wo_negtrans P HP x y); [done..| |].
    + by apply (wo_asym P).
    + apply Hmin. left.
  - destruct (IH x Px Pl) as [Hin Hmin]. split.
    { apply elem_of_cons in Hin as [->|Hin]; [left|by right; right]. }
    intros z Hz. apply elem_of_cons in Hz as [->|Hz]; [apply Hmin; left|].
    apply elem_of_cons in Hz as [->|Hz]; [|apply Hmin; by right].
    assert (P (fold_left (λ best y, if lt y best then y else best) l x)) as Pm.
    { apply elem_of_cons in Hin as [->|Hin]; [done|].
      by eapply Forall_forall in Pl; [|exact Hin]. }
    eapply (wo_negtrans P HP y x); auto. apply Hmin. left.
Qed.
End sort.

Lemma py_max_min {A} (lt : A → A → bool) l : py_max lt l = py_min (flip lt) l.
Proof. done. Qed.

(** The first of the smallest elements is the first of the sorted list. *)
Lemma head_py_sort {A} (lt : A → A → bool) (P : A → Prop) (HP : weak_order lt P) l :
  Forall P l → head (py_sort lt l) = py_min lt l.
Proof.
  intros Hl. destruct Hl as [|x l Hx Hl]; [done|]. simpl. unfold py_min_from.
  assert (H : ∀ x, P x → head (py_insert lt x (py_sort lt l)) =
    Some (fold_left (λ best y, if lt y best then y else best) l x)); [|by apply H].
  clear x Hx. induction Hl as [|y l Hy Hl IH]; intros x Hx; [done|].
  cbn [py_sort fold_left].
  pose proof (IH y Hy) as Hmy. pose proof (IH x Hx) as Hmx.
  destruct (py_sort lt l) as [|w ws] eqn:E.
  { apply py_sort_nil in E as ->. simpl. by destruct (lt y x). }
  assert (Pw : P w).
  { rewrite Forall_forall in Hl. apply Hl. rewrite <-(elem_py_sort lt), E. left. }
  assert (Hif : (if lt y x then fold_left (λ best y, if lt y best then y else best) l y
      else fold_left (λ best y, if lt y best then y else best) l x)
    = fold_left (λ best y, if lt y best then y else best) l (if lt y x then y else x))
    by by destruct (lt y x).
  rewrite <-Hif. clear Hif IH.
  simpl in *. destruct (lt w y) eqn:Ewy; simpl in *; injection Hmy as <-.
  - destruct (lt y x) eqn:Eyx; [by rewrite (wo_trans lt P HP w y x)|].
    rewrite <-Hmx. by destruct (lt w x).
  - destruct (lt y x) eqn:Eyx; [done|]. rewrite <-Hmx. by rewrite (wo_negtrans lt P HP w y x).
Qed.

Lemma py_max_from_min {A} (lt : A → A → bool) x l :
  py_max_from lt x l = py_min_from (flip lt) x l.
Proof. done. Qed.

Lemma weak_order_flip {A} (lt : A → A → bool) P :
  weak_order lt P → weak_order (flip lt) P.
Proof.
  intros H. split; simpl; intros.
  - by eapply wo_irrefl.
  - by apply (wo_trans lt P H z y x).
  - by apply (wo_negtrans lt P H z y x).
Qed.

Lemma weak_order_key {A B} (lt : B → B → bool) (P : B → Prop) (key : A → B) :
  weak_order lt P → weak_order (λ x y, lt (key x) (key y)) (λ x, P (key x)).
Proof.
  intros H. split; intros.
  - by eapply wo_irrefl.
  - by apply (wo_trans lt P H _ (key y) _).
  - by apply (wo_negtrans lt P H _ (key y) _).
Qed.

Lemma str_weak_order : weak_order str_ltb (λ _, True).
Proof.
  split; intros.
  - apply str_ltb_irrefl.
  - by eapply str_ltb_trans.
  - destruct (str_ltb x z) eqn:E; [|done].
    destruct (str_ltb_total x y) as [?|[->|Hyx]]; [congruence..|].
    pose proof (str_ltb_trans _ _ _ Hyx E). congruence.
Qed.

(** Sorting strings gives the one strictly increasing list when they are distinct. *)
Lemma str_sort_sorted l : StronglySorted (not_after str_ltb) (py_sort str_ltb l).
Proof. eapply py_sort_sorted; [apply str_weak_order|]. by apply Forall_true. Qed.
