(* ===== verification/Envelope.v ===== *)
(** * Messages ([messages/types.py], [messages/envelope.py])

    The envelope every agent exchanges: its fields, validation, expiry, the
    replies and handoffs derived from it, and its dictionary form.  Readings of
    the clock and fresh UUIDs are arguments. *)
From stdpp Require Import base gmap sets list strings.
From Stdlib Require Import ZArith.
From S2P Require Import Prelude PyDict PyFloat.

Inductive MessageType : Type :=
  | TASK | QUERY | RESPONSE | RESULT | HANDOFF | BROADCAST | HEARTBEAT | ERROR | CANCEL | ACK.

Inductive Priority : Type := CRITICAL | HIGH | NORMAL | LOW | BATCH.

#[export] Instance MessageType_eq_dec : EqDecision MessageType.
Proof. solve_decision. Defined.
#[export] Instance Priority_eq_dec : EqDecision Priority.
Proof. solve_decision. Defined.

(** [MessageType.value] and [MessageType(value)] *)
Definition type_value (m : MessageType) : string :=
  match m with
  | TASK => "task" | QUERY => "query" | RESPONSE => "response" | RESULT => "result"
  | HANDOFF => "handoff" | BROADCAST => "broadcast" | HEARTBEAT => "heartbeat"
  | ERROR => "error" | CANCEL => "cancel" | ACK => "ack"
  end.

Definition message_types : list MessageType :=
  [TASK; QUERY; RESPONSE; RESULT; HANDOFF; BROADCAST; HEARTBEAT; ERROR; CANCEL; ACK].

Definition type_of_value (s : string) : option MessageType :=
  snd <$> list_find (λ m, type_value m = s) message_types.

(** [int(Priority)] and [Priority(n)] *)
Definition priority_value (p : Priority) : Z :=
  match p with CRITICAL => 0 | HIGH => 1 | NORMAL => 2 | LOW => 3 | BATCH => 4 end.

Definition priorities : list Priority := [CRITICAL; HIGH; NORMAL; LOW; BATCH].

Definition priority_of_value (n : Z) : option Priority :=
  snd <$> list_find (λ p, priority_value p = n) priorities.

Inductive EnvelopeError : Type :=
  | EmptySender | EmptyReceiver   (* ValueError *)
  | BadTtl | BadBudget.           (* ValueError *)

Section envelope.
Context {F : PyFloat}.

(** [PayloadValue]: what JSON can carry. *)
Inductive json : Type :=
  | JNull
  | JBool (b : bool)
  | JInt (n : Z)
  | JFloat (x : float)
  | JStr (s : string)
  | JList (l : list json)
  | JDict (d : list (string * json)).

Record HandoffMetrics : Type := mkMetrics {
  source_agent : string;
  target_agent : string;
  reason : string;
  cost_incurred_usd : float;
  tokens_consumed : Z;
  latency_ms : float;
  handoff_timestamp : float;
  attempt_number : Z;
}.

Record MessageEnvelope : Type := mkEnvelope {
  sender : string;
  receiver : string;
  payload : dict json;
  message_type : MessageType;
  priority : Priority;
  topic : option string;
  trace_id : string;
  parent_message_id : option string;
  message_id : string;
  created_at : float;
  ttl_seconds : option float;
  cost_budget_usd : option float;
  env_metadata : dict string;
}.

(** The [isinstance] tests of [validate] always pass on typed values; what
    remains are the value tests, in the code's order. *)
Definition validate (e : MessageEnvelope) : result EnvelopeError unit :=
  if is_blank e.(sender) then Raise EmptySender
  else if is_blank e.(receiver) then Raise EmptyReceiver
  else if match e.(ttl_seconds) with Some t => fleb t f0 | None => false end
  then Raise BadTtl
  else if match e.(cost_budget_usd) with Some c => fltb c f0 | None => false end
  then Raise BadBudget
  else Ok tt.

Definition is_expired (e : MessageEnvelope) (now : float) : bool :=
  match e.(ttl_seconds) with
  | None => false
  | Some ttl => fltb ttl (fsub now e.(created_at))
  end.

(** [new_id] is the fresh [message_id], [now] its creation time. *)
Definition create_response (e : MessageEnvelope) (pl : dict json) (mt : MessageType)
    (pr : option Priority) (new_id : string) (now : float) : MessageEnvelope :=
  mkEnvelope e.(receiver) e.(sender) pl mt (default e.(priority) pr) e.(topic)
    e.(trace_id) (Some e.(message_id)) new_id now None e.(cost_budget_usd) [].

Definition metrics_dict (m : HandoffMetrics) : dict json :=
  [("source_agent", JStr m.(source_agent)); ("target_agent", JStr m.(target_agent));
   ("reason", JStr m.(reason)); ("cost_incurred_usd", JFloat m.(cost_incurred_usd));
   ("tokens_consumed", JInt m.(tokens_consumed)); ("latency_ms", JFloat m.(latency_ms));
   ("handoff_timestamp", JFloat m.(handoff_timestamp));
   ("attempt_number", JInt m.(attempt_number))].

Definition create_handoff (e : MessageEnvelope) (new_receiver : string)
    (m : HandoffMetrics) (updated_payload : option (dict json))
    (budget : option float) (new_id : string) (now : float) : MessageEnvelope :=
  mkEnvelope e.(receiver) new_receiver
    (dset (default e.(payload) updated_payload) "__handoff_metrics__" (JDict (metrics_dict m)))
    HANDOFF e.(priority) e.(topic) e.(trace_id) (Some e.(message_id)) new_id now None
    (match budget with Some b => Some b | None => e.(cost_budget_usd) end)
    e.(env_metadata).

Definition create_ack (e : MessageEnvelope) (new_id : string) (now : float)
    : MessageEnvelope :=
  create_response e [("acked_message_id", JStr e.(message_id))] ACK (Some HIGH) new_id now.

Definition create_error (e : MessageEnvelope) (msg code new_id : string) (now : float)
    : MessageEnvelope :=
  create_response e
    [("error_code", JStr code); ("error_message", JStr msg);
     ("failed_message_id", JStr e.(message_id))] ERROR (Some HIGH) new_id now.

Definition opt_json {A} (f : A → json) (o : option A) : json :=
  match o with Some a => f a | None => JNull end.

Definition to_dict (e : MessageEnvelope) : dict json :=
  [("sender", JStr e.(sender)); ("receiver", JStr e.(receiver));
   ("payload", JDict e.(payload)); ("message_type", JStr (type_value e.(message_type)));
   ("priority", JInt (priority_value e.(priority))); ("topic", opt_json JStr e.(topic));
   ("trace_id", JStr e.(trace_id));
   ("parent_message_id", opt_json JStr e.(parent_message_id));
   ("message_id", JStr e.(message_id)); ("created_at", JFloat e.(created_at));
   ("ttl_seconds", opt_json JFloat e.(ttl_seconds));
   ("cost_budget_usd", opt_json JFloat e.(cost_budget_usd));
   ("metadata", JDict (dmap JStr e.(env_metadata)))].
End envelope.

(** The enum values and their readers are inverse. *)
Lemma type_of_value_value m : type_of_value (type_value m) = Some m.
Proof. by destruct m. Qed.

Lemma priority_of_value_value p : priority_of_value (priority_value p) = Some p.
Proof. by destruct p. Qed.

Lemma priority_value_bounds p : (0 ≤ priority_value p ≤ 4)%Z.
Proof. by destruct p. Qed.

Section replies.
Context {F : PyFloat}.

Definition replies_to (r e : MessageEnvelope) : Prop :=
  r.(sender) = e.(receiver) ∧ r.(trace_id) = e.(trace_id) ∧
  r.(parent_message_id) = Some e.(message_id) ∧ r.(topic) = e.(topic) ∧
  r.(ttl_seconds) = None.

Lemma create_response_replies e pl mt pr i now :
  replies_to (create_response e pl mt pr i now) e.
Proof. done. Qed.

Lemma create_handoff_replies e nr m up b i now :
  replies_to (create_handoff e nr m up b i now) e.
Proof. done. Qed.
End replies.
