(* ===== verification/Json.v ===== *)
(** * JSON text ([json.dumps] and [json.loads], as [messages/envelope.py] and the
      operator use them)

    The printer of the Standard Library's [json] (separators, indentation, ASCII
    escapes) and its reader, on texts as lists of characters.  The text of floats,
    the shortest numeral that reads back, is a parameter with that property.  Strings
    are 8-bit: an escape beyond [\u00ff] has no value here. *)
From stdpp Require Import base list strings.
From Stdlib Require Import ZArith Ascii Lia.
From Stdlib Require QArith.
From S2P Require Import Prelude PyInt PyDict PyFloat Envelope.

Abbreviation text := (list ascii).

(** [repr] of a float as [json] writes it (with [NaN] and [Infinity]), and the value of
    a numeral or of one of these words. *)
Class FloatText (F : PyFloat) : Type := {
  float_repr : float → text;
  float_of_text : text → option float;
}.

(** ** Printing *)

Record style : Type := mkStyle { item_sep : text; key_sep : text; indent : option nat }.

Definition lit (s : string) : text := String.list_ascii_of_string s.

(** [separators=(",", ":")], and [indent=2] with its default separators. *)
Definition compact : style := mkStyle (lit ",") (lit ":") None.
Definition indented : style := mkStyle (lit ",") (lit ": ") (Some 2%nat).

Definition hex_char (n : nat) : ascii := ascii_of_nat (if decide (n < 10) then 48 + n else 87 + n).

(** The escapes of [ensure_ascii]. *)
Definition escape (c : ascii) : text :=
  let n := nat_of_ascii c in
  if decide (n = 34) then lit "\" ++ ["034"%char]
  else if decide (n = 92) then lit "\\"
  else if decide (n = 10) then lit "\n"
  else if decide (n = 13) then lit "\r"
  else if decide (n = 9) then lit "\t"
  else if decide (n = 12) then lit "\f"
  else if decide (n = 8) then lit "\b"
  else if decide (32 ≤ n ≤ 126) then [c]
  else lit "\u00" ++ [hex_char (n / 16); hex_char (n mod 16)].

Definition quote (s : string) : text :=
  "034"%char :: concat (map escape (lit s)) ++ ["034"%char].

Definition newline (st : style) (level : nat) : text :=
  match st.(indent) with
  | None => []
  | Some k => "010"%char :: repeat " "%char (k * level)
  end.

Definition join_items (sep : text) (l : list text) : text :=
  match l with
  | [] => []
  | x :: rest => x ++ concat (map (λ y, sep ++ y) rest)
  end.

Section json.
Context {F : PyFloat} {FT : FloatText F}.

(** [json.dumps(v)] in a style, at an indentation level. *)
Fixpoint render (st : style) (level : nat) (j : json) : text :=
  match j with
  | JNull => lit "null"
  | JBool true => lit "true"
  | JBool false => lit "false"
  | JInt n => int_text n
  | JFloat x => float_repr x
  | JStr s => quote s
  | JList l =>
      match l with
      | [] => lit "[]"
      | _ => lit "[" ++ newline st (S level)
               ++ join_items (st.(item_sep) ++ newline st (S level)) (map (render st (S level)) l)
               ++ newline st level ++ lit "]"
      end
  | JDict d =>
      match d with
      | [] => lit "{}"
      | _ => lit "{" ++ newline st (S level)
               ++ join_items (st.(item_sep) ++ newline st (S level))
                    (map (λ kv, quote kv.1 ++ st.(key_sep) ++ render st (S level) kv.2) d)
               ++ newline st level ++ lit "}"
      end
  end.

Definition dumps (st : style) (j : json) : text := render st 0 j.

(** ** Reading *)

Definition is_ws (c : ascii) : bool :=
  let n := nat_of_ascii c in bool_decide (n = 32 ∨ n = 9 ∨ n = 10 ∨ n = 13).

Fixpoint skip_ws (l : text) : text :=
  match l with c :: r => if is_ws c then skip_ws r else l | [] => [] end.

Definition hex_value (c : ascii) : option nat :=
  let n := nat_of_ascii c in
  if decide (48 ≤ n ≤ 57) then Some (n - 48)
  else if decide (97 ≤ n ≤ 102) then Some (n - 87)
  else if decide (65 ≤ n ≤ 70) then Some (n - 55)
  else None.

Definition hex4 (a b c d : ascii) : option nat :=
  x ← hex_value a; y ← hex_value b; z ← hex_value c; t ← hex_value d;
  Some (((x * 16 + y) * 16 + z) * 16 + t).

(** The characters after a backslash, other than [u]. *)
Definition unescape (c : ascii) : option ascii :=
  let n := nat_of_ascii c in
  if decide (n = 34 ∨ n = 92 ∨ n = 47) then Some c
  else if decide (n = 110) then Some "010"%char
  else if decide (n = 114) then Some "013"%char
  else if decide (n = 116) then Some "009"%char
  else if decide (n = 102) then Some "012"%char
  else if decide (n = 98) then Some "008"%char
  else None.

(** A string after its opening quote: its characters and what follows. *)
Fixpoint scan_string (l : text) : option (text * text) :=
  match l with
  | [] => None
  | c :: r =>
      let n := nat_of_ascii c in
      if decide (n = 34) then Some ([], r)
      else if decide (n = 92) then
        match r with
        | [] => None
        | e :: r1 =>
            if decide (nat_of_ascii e = 117) then
              match r1 with
              | h1 :: h2 :: h3 :: h4 :: r2 =>
                  match hex4 h1 h2 h3 h4 with
                  | Some v => if decide (v < 256) then prod_map (cons (ascii_of_nat v)) id <$> scan_string r2
                              else None
                  | None => None
                  end
              | _ => None
              end
            else match unescape e with
                 | Some x => prod_map (cons x) id <$> scan_string r1
                 | None => None
                 end
        end
      else if decide (n < 32) then None
      else prod_map (cons c) id <$> scan_string r
  end.

(** The longest run of digits. *)
Fixpoint span_digits (l : text) : text * text :=
  match l with
  | c :: r => if is_digit c then prod_map (cons c) id (span_digits r) else ([], l)
  | [] => ([], [])
  end.

(** The integer part: a zero, or digits that do not start with one. *)
Definition scan_int (l : text) : option (text * text) :=
  match l with
  | "0"%char :: r => Some (["0"%char], r)
  | _ => match span_digits l with ([], _) => None | p => Some p end
  end.

(** [(\.\d+)?] *)
Definition scan_frac (l : text) : text * text :=
  match l with
  | "."%char :: r => match span_digits r with
                     | ([], _) => ([], l)
                     | (ds, r') => ("."%char :: ds, r')
                     end
  | _ => ([], l)
  end.

(** [([eE][-+]?\d+)?] *)
Definition scan_exp (l : text) : text * text :=
  match l with
  | c :: r =>
      if decide (c = "e"%char ∨ c = "E"%char) then
        let '(sign, r1) := match r with
          | s :: r' => if decide (s = "+"%char ∨ s = "-"%char) then ([s], r') else ([], r)
          | [] => ([], r)
          end in
        match span_digits r1 with
        | ([], _) => ([], l)
        | (ds, r') => (c :: sign ++ ds, r')
        end
      else ([], l)
  | [] => ([], l)
  end.

Definition scan_number (l : text) : option (json * text) :=
  let '(sign, l1) := match l with "-"%char :: r => (["-"%char], r) | _ => ([], l) end in
  match scan_int l1 with
  | None => None
  | Some (ip, l2) =>
      let '(fp, l3) := scan_frac l2 in
      let '(ep, l4) := scan_exp l3 in
      match fp, ep with
      | [], [] =>
          let n := digits_value 0 ip in
          Some (JInt (match sign with [] => n | _ => (- n)%Z end), l4)
      | _, _ => (λ x, (JFloat x, l4)) <$> float_of_text (sign ++ ip ++ fp ++ ep)
      end
  end.

(** [l] after [w], when it starts with [w]. *)
Fixpoint strip (w l : text) : option text :=
  match w, l with
  | [], _ => Some l
  | a :: w', b :: l' => if decide (a = b) then strip w' l' else None
  | _ :: _, [] => None
  end.

(** A value at the head of the text, by its first character; [fuel] bounds the length
    of the text. *)
Fixpoint scan_value (fuel : nat) (l : text) : option (json * text) :=
  match fuel with
  | O => None
  | S fuel' =>
      match l with
      | [] => None
      | c :: r =>
          if decide (c = "034"%char) then
            (λ p : text * text, (JStr (String.string_of_list_ascii p.1), p.2)) <$> scan_string r
          else if decide (c = "{"%char) then
            match skip_ws r with
            | "}"%char :: r1 => Some (JDict [], r1)
            | r1 => prod_map JDict id <$> scan_members fuel' r1 []
            end
          else if decide (c = "["%char) then
            match skip_ws r with
            | "]"%char :: r1 => Some (JList [], r1)
            | r1 => prod_map JList id <$> scan_elements fuel' r1
            end
          else match strip (lit "null") l, strip (lit "true") l, strip (lit "false") l with
          | Some r1, _, _ => Some (JNull, r1)
          | _, Some r1, _ => Some (JBool true, r1)
          | _, _, Some r1 => Some (JBool false, r1)
          | _, _, _ =>
              match scan_number l with
              | Some p => Some p
              | None =>
                  match strip (lit "NaN") l, strip (lit "Infinity") l, strip (lit "-Infinity") l with
                  | Some r1, _, _ => (λ x, (JFloat x, r1)) <$> float_of_text (lit "NaN")
                  | _, Some r1, _ => (λ x, (JFloat x, r1)) <$> float_of_text (lit "Infinity")
                  | _, _, Some r1 => (λ x, (JFloat x, r1)) <$> float_of_text (lit "-Infinity")
                  | _, _, _ => None
                  end
              end
          end
      end
  end
with scan_elements (fuel : nat) (l : text) : option (list json * text) :=
  match fuel with
  | O => None
  | S fuel' =>
      match scan_value fuel' l with
      | None => None
      | Some (j, r) =>
          match skip_ws r with
          | "]"%char :: r1 => Some ([j], r1)
          | ","%char :: r1 => prod_map (cons j) id <$> scan_elements fuel' (skip_ws r1)
          | _ => None
          end
      end
  end
with scan_members (fuel : nat) (l : text) (acc : dict json) : option (dict json * text) :=
  match fuel with
  | O => None
  | S fuel' =>
      match l with
      | c :: r0 =>
          if decide (c = "034"%char) then
            match scan_string r0 with
            | None => None
            | Some (k, r) =>
                match skip_ws r with
                | ":"%char :: r1 =>
                    match scan_value fuel' (skip_ws r1) with
                    | None => None
                    | Some (j, r2) =>
                        let acc1 := dset acc (String.string_of_list_ascii k) j in
                        match skip_ws r2 with
                        | "}"%char :: r3 => Some (acc1, r3)
                        | ","%char :: r3 => scan_members fuel' (skip_ws r3) acc1
                        | _ => None
                        end
                    end
                | _ => None
                end
            end
          else None
      | [] => None
      end
  end.

(** [json.loads(text)]; [None] is a [JSONDecodeError]. *)
Definition loads (l : text) : option json :=
  match scan_value (2 * length l + 2) (skip_ws l) with
  | Some (j, r) => match skip_ws r with [] => Some j | _ => None end
  | None => None
  end.
End json.

(** ** Reading back what was printed *)

(** The text of a float: one of [json]'s words, or a numeral with a fraction or an
    exponent; and it reads back. *)
Inductive float_numeral : text → Prop :=
  | numeral_word w : w ∈ [lit "NaN"; lit "Infinity"; lit "-Infinity"] → float_numeral w
  | numeral_parts sign ip fp ep :
      (sign = [] ∨ sign = ["-"%char]) →
      forallb is_digit ip = true → ip ≠ [] → (∀ l, ip = "0"%char :: l → l = []) →
      (fp = [] ∨ ∃ ds, fp = "."%char :: ds ∧ forallb is_digit ds = true ∧ ds ≠ []) →
      (ep = [] ∨ ∃ c s ds, ep = c :: s ++ ds ∧ (c = "e"%char ∨ c = "E"%char) ∧
        (s = [] ∨ s = ["+"%char] ∨ s = ["-"%char]) ∧ forallb is_digit ds = true ∧ ds ≠ []) →
      (fp ≠ [] ∨ ep ≠ []) →
      float_numeral (sign ++ ip ++ fp ++ ep).

Class FloatTextOk (F : PyFloat) {FT : FloatText F} : Prop := {
  float_repr_numeral x : float_numeral (float_repr x);
  float_of_repr x : float_of_text (float_repr x) = Some x;
}.

(** Texts that cannot continue a number. *)
Definition stops (rest : text) : Prop :=
  match rest with
  | [] => True
  | c :: _ => is_digit c = false ∧ c ≠ "."%char ∧ c ≠ "e"%char ∧ c ≠ "E"%char
  end.

Definition blank_text (l : text) : Prop := forallb is_ws l = true.

Record style_ok (st : style) : Prop := {
  ok_item : ∃ w, st.(item_sep) = ","%char :: w ∧ blank_text w;
  ok_key : ∃ w, st.(key_sep) = ":"%char :: w ∧ blank_text w;
}.

Lemma compact_ok : style_ok compact.
Proof. split; by exists []. Qed.

Lemma indented_ok : style_ok indented.
Proof. split; [by exists []|by exists [" "%char]]. Qed.

Lemma skip_blank_text w l : blank_text w → skip_ws (w ++ l) = skip_ws l.
Proof.
  unfold blank_text. induction w as [|c w IH]; [done|]. simpl. intros [-> Hw]%andb_prop. auto.
Qed.

Lemma newline_blank st lv : blank_text (newline st lv).
Proof.
  unfold newline, blank_text. destruct (indent st) as [k|]; [|done]. simpl.
  induction (k * lv) as [|n IH]; [done|]. simpl. done.
Qed.

Lemma blank_app w1 w2 : blank_text w1 → blank_text w2 → blank_text (w1 ++ w2).
Proof. unfold blank_text. rewrite forallb_app. by intros -> ->. Qed.

(** A character of white space, or any of [,:\]}], ends a number. *)
Lemma ws_not_number c : is_ws c = true → stops [c].
Proof.
  unfold is_ws, stops, is_digit. intros [H|[H|[H|H]]]%bool_decide_eq_true;
    (split_and!; [apply bool_decide_eq_false; lia|intros ->; discriminate..]).
Qed.

Lemma stops_blank w rest : blank_text w → stops rest → stops (w ++ rest).
Proof.
  destruct w as [|c w]; [done|]. unfold blank_text. simpl. intros [Hc _]%andb_prop _.
  by apply ws_not_number.
Qed.

Lemma span_digits_app ds rest :
  forallb is_digit ds = true → stops rest → span_digits (ds ++ rest) = (ds, rest).
Proof.
  intros Hd Hr. induction ds as [|c ds IH]; simpl in *.
  - destruct rest as [|c r]; [done|]. destruct Hr as [Hc _]. simpl. by rewrite Hc.
  - apply andb_prop in Hd as [-> Hd]. by rewrite IH.
Qed.

Lemma scan_int_app ip rest :
  forallb is_digit ip = true → ip ≠ [] → (∀ l, ip = "0"%char :: l → l = []) →
  (match rest with [] => True | c :: _ => is_digit c = false end) →
  scan_int (ip ++ rest) = Some (ip, rest).
Proof.
  intros Hd Hne H0 Hr.
  assert (Hs : span_digits (ip ++ rest) = (ip, rest)).
  { clear H0 Hne. induction ip as [|c ds IH]; simpl in *.
    - destruct rest as [|c r]; [done|]. simpl. by rewrite Hr.
    - apply andb_prop in Hd as [-> Hd]. by rewrite IH. }
  destruct ip as [|c l]; [done|]. unfold scan_int.
  destruct (decide (c = "0"%char)) as [->|Hc].
  - rewrite (H0 l) by done. done.
  - rewrite Hs. cbn [app]. destruct c as [[] [] [] [] [] [] [] []]; done.
Qed.

Lemma scan_frac_app fp rest :
  (fp = [] ∨ ∃ ds, fp = "."%char :: ds ∧ forallb is_digit ds = true ∧ ds ≠ []) →
  (match rest with [] => True | c :: _ => is_digit c = false ∧ c ≠ "."%char end) →
  scan_frac (fp ++ rest) = (fp, rest).
Proof.
  intros [->|(ds & -> & Hd & Hne)] Hr.
  - simpl. destruct rest as [|c r]; [done|]. destruct Hr as [_ Hc].
    destruct c as [[] [] [] [] [] [] [] []]; done.
  - simpl. assert (Hs : span_digits (ds ++ rest) = (ds, rest)).
    { clear Hne. induction ds as [|c ds IH]; simpl in *.
      - destruct rest as [|c r]; [done|]. simpl. by destruct Hr as [-> _].
      - apply andb_prop in Hd as [-> Hd]. by rewrite IH. }
    rewrite Hs. by destruct ds.
Qed.

Lemma scan_exp_app ep rest :
  (ep = [] ∨ ∃ c s ds, ep = c :: s ++ ds ∧ (c = "e"%char ∨ c = "E"%char) ∧
    (s = [] ∨ s = ["+"%char] ∨ s = ["-"%char]) ∧ forallb is_digit ds = true ∧ ds ≠ []) →
  stops rest → scan_exp (ep ++ rest) = (ep, rest).
Proof.
  intros [->|(c & s & ds & -> & Hc & Hs & Hd & Hne)] Hr.
  - simpl. destruct rest as [|c r]; [done|]. destruct Hr as (_ & _ & H1 & H2).
    simpl. rewrite decide_False by tauto. done.
  - simpl. rewrite decide_True by done. rewrite <-(assoc (++)).
    pose proof (span_digits_app ds rest Hd Hr) as Hsp.
    destruct Hs as [->|[->| ->]]; simpl.
    + destruct ds as [|d ds]; [done|]. cbn [app] in *.
      assert (Hnd : ¬ (d = "+"%char ∨ d = "-"%char)) by (simpl in Hd; intros [->| ->]; done).
      rewrite decide_False by done. by rewrite Hsp.
    + rewrite Hsp. by destruct ds.
    + rewrite Hsp. by destruct ds.
Qed.

(** *** Numbers *)

Lemma stops_frac rest : stops rest →
  match rest with [] => True | c :: _ => is_digit c = false ∧ c ≠ "."%char end.
Proof. destruct rest; [done|]. by intros (? & ? & _). Qed.

Lemma stops_digit rest : stops rest →
  match rest with [] => True | c :: _ => is_digit c = false end.
Proof. destruct rest; [done|]. by intros (? & _). Qed.

Section numbers.
Context {F : PyFloat} {FT : FloatText F}.

(** A numeral by its parts. *)
Lemma scan_number_parts sign ip fp ep rest :
  (sign = [] ∨ sign = ["-"%char]) →
  forallb is_digit ip = true → ip ≠ [] → (∀ l, ip = "0"%char :: l → l = []) →
  (fp = [] ∨ ∃ ds, fp = "."%char :: ds ∧ forallb is_digit ds = true ∧ ds ≠ []) →
  (ep = [] ∨ ∃ c s ds, ep = c :: s ++ ds ∧ (c = "e"%char ∨ c = "E"%char) ∧
    (s = [] ∨ s = ["+"%char] ∨ s = ["-"%char]) ∧ forallb is_digit ds = true ∧ ds ≠ []) →
  stops rest →
  scan_number ((sign ++ ip ++ fp ++ ep) ++ rest) =
    match fp, ep with
    | [], [] => Some (JInt (match sign with [] => digits_value 0 ip | _ => - digits_value 0 ip end)%Z, rest)
    | _, _ => (λ x, (JFloat x, rest)) <$> float_of_text (sign ++ ip ++ fp ++ ep)
    end.
Proof.
  intros Hs Hd Hne H0 Hf He Hr.
  assert (Hexp : match ep ++ rest with [] => True | c :: _ => is_digit c = false ∧ c ≠ "."%char end).
  { destruct He as [->|(c & s & ds & -> & [->| ->] & _)]; [by apply stops_frac|done..]. }
  assert (Hfr : match fp ++ ep ++ rest with [] => True | c :: _ => is_digit c = false end).
  { destruct Hf as [->|(ds & -> & _)]; [|done].
    cbn [app]. destruct (ep ++ rest); [done|]. by destruct Hexp. }
  unfold scan_number. rewrite <-!(assoc_L (++)).
  assert (Hsg : (match sign ++ ip ++ fp ++ ep ++ rest with
                 | "-"%char :: r => (["-"%char], r) | _ => ([], sign ++ ip ++ fp ++ ep ++ rest) end)
                = (sign, ip ++ fp ++ ep ++ rest)).
  { destruct Hs as [->| ->]; [|done]. destruct ip as [|c ip]; [done|].
    simpl in Hd. apply andb_prop in Hd as [Hc _]. cbn [app].
    destruct c as [[] [] [] [] [] [] [] []]; done. }
  rewrite Hsg. rewrite scan_int_app by done. cbv zeta.
  rewrite scan_frac_app by done. rewrite scan_exp_app by done.
  destruct fp, ep; done.
Qed.

Lemma scan_number_int z rest : stops rest → scan_number (int_text z ++ rest) = Some (JInt z, rest).
Proof.
  intros Hr. destruct (nat_digits_spec (Z.abs_N z)) as (Hd & Hv & c & l & Hcl & H0).
  pose (sign := if (z <? 0)%Z then ["-"%char] else []).
  assert (int_text z = sign ++ nat_digits (Z.abs_N z) ++ [] ++ []) as ->.
  { unfold int_text, sign. rewrite !app_nil_r. by case_match. }
  rewrite scan_number_parts; try done.
  - unfold sign. rewrite Hv. destruct (Z.ltb_spec z 0); do 3 f_equal; lia.
  - unfold sign. case_match; auto.
  - by rewrite Hcl.
  - intros l' E. rewrite Hcl in E. simplify_eq. auto.
  - by left.
  - by left.
Qed.
End numbers.

(** *** Strings *)

Lemma scan_string_escape c rest :
  scan_string (escape c ++ rest) = prod_map (cons c) id <$> scan_string rest.
Proof. destruct c as [[] [] [] [] [] [] [] []]; reflexivity. Qed.

Lemma scan_string_escapes s rest :
  scan_string (concat (map escape s) ++ "034"%char :: rest) = Some (s, rest).
Proof.
  induction s as [|c s IH]; [done|]. cbn [map concat]. rewrite <-(assoc_L (++)).
  by rewrite scan_string_escape, IH.
Qed.

Lemma lit_string s : String.string_of_list_ascii (lit s) = s.
Proof. apply String.string_of_list_ascii_of_string. Qed.

(** *** Values *)

Section json_induction.
Context {F : PyFloat} (P : json → Prop).
Hypothesis Pnull : P JNull.
Hypothesis Pbool : ∀ b, P (JBool b).
Hypothesis Pint : ∀ n, P (JInt n).
Hypothesis Pfloat : ∀ x, P (JFloat x).
Hypothesis Pstr : ∀ s, P (JStr s).
Hypothesis Plist : ∀ l, Forall P l → P (JList l).
Hypothesis Pdict : ∀ d, Forall (λ kv, P kv.2) d → P (JDict d).

Definition json_nested_ind : ∀ j, P j :=
  fix go (j : json) : P j :=
    match j with
    | JNull => Pnull
    | JBool b => Pbool b
    | JInt n => Pint n
    | JFloat x => Pfloat x
    | JStr s => Pstr s
    | JList l => Plist l ((fix all l : Forall P l :=
        match l with [] => List.Forall_nil _ | x :: l' => @List.Forall_cons _ P x l' (go x) (all l') end) l)
    | JDict d => Pdict d ((fix all d : Forall (λ kv, P kv.2) d :=
        match d with
        | [] => List.Forall_nil _
        | kv :: d' => @List.Forall_cons _ (λ kv, P kv.2) kv d' (go kv.2) (all d')
        end) d)
    end.
End json_induction.

Section values.
Context {F : PyFloat} {FT : FloatText F}.

(** A value as the code builds one: the keys of its objects are distinct. *)
Fixpoint json_ok (j : json) : Prop :=
  match j with
  | JList l => foldr and True (map json_ok l)
  | JDict d => dwf d ∧ foldr and True (map (λ kv, json_ok kv.2) d)
  | _ => True
  end.

(** The calls the reader makes on the text of a value. *)
Fixpoint scans (j : json) : nat :=
  match j with
  | JList l => S (foldr (λ x n, S (scans x) + n) 0 l)
  | JDict d => S (foldr (λ kv n, S (scans kv.2) + n) 0 d)
  | _ => 1
  end.

Context `{FTO : !FloatTextOk F}.

(** What a value's text starts with. *)
Definition value_head (c : ascii) : Prop :=
  is_ws c = false ∧ c ≠ "]"%char ∧ c ≠ "}"%char ∧ (nat_of_ascii c <? 128) = true.

Lemma numeral_head sign ip rest :
  (sign = [] ∨ sign = ["-"%char]) → forallb is_digit ip = true → ip ≠ [] →
  ∃ c r, (sign ++ ip ++ rest) = c :: r ∧ (c = "-"%char ∨ is_digit c = true).
Proof.
  intros [->| ->] Hd Hne; [|eexists _, _; split; [done|by left]].
  destruct ip as [|c ip]; [done|]. apply andb_prop in Hd as [Hc _].
  eexists _, _; split; [done|by right].
Qed.

Lemma int_head z : ∃ c r, int_text z = c :: r ∧ (c = "-"%char ∨ is_digit c = true).
Proof.
  destruct (nat_digits_spec (Z.abs_N z)) as (Hd & _ & c & l & Hcl & _).
  unfold int_text. rewrite Hcl in *. apply andb_prop in Hd as [Hc _].
  case_match; eexists _, _; (split; [done|]); auto.
Qed.

Lemma digit_value_head c : c = "-"%char ∨ is_digit c = true → value_head c.
Proof.
  unfold value_head. intros [->|H]; [done|].
  destruct c as [[] [] [] [] [] [] [] []]; done.
Qed.

Lemma render_head st lv j : ∃ c r, render st lv j = c :: r ∧ value_head c.
Proof.
  destruct j as [|[]|z|x|s|[]|[]]; try (by eexists _, _; split).
  - cbn [render]. destruct (int_head z) as (c & r & -> & H). eexists _, _. split; [done|].
    by apply digit_value_head.
  - cbn. destruct (float_repr_numeral x) as [w Hw|sign ip fp ep Hs Hd Hne _ _ _ _].
    + repeat (apply elem_of_cons in Hw as [->|Hw]; [by eexists _, _; split|]).
      by apply elem_of_nil in Hw.
    + destruct (numeral_head sign ip (fp ++ ep) Hs Hd Hne) as (c & r & -> & H).
      eexists _, _. split; [done|]. by apply digit_value_head.
Qed.

(** The characters that start a number lead [scan_value] to [scan_number]. *)
Lemma scan_value_number fuel c r :
  c = "-"%char ∨ is_digit c = true → is_Some (scan_number (c :: r)) →
  scan_value (S fuel) (c :: r) = scan_number (c :: r).
Proof.
  intros Hc [p Hp].
  assert (Hn : c ≠ "034"%char ∧ c ≠ "{"%char ∧ c ≠ "["%char ∧ c ≠ "n"%char ∧ c ≠ "t"%char ∧
    c ≠ "f"%char) by (destruct Hc as [->|Hc]; split_and!; congruence || (intros ->; done)).
  destruct Hn as (?&?&?&?&?&?).
  cbn [scan_value]. rewrite !decide_False by done.
  cbn [strip lit String.list_ascii_of_string]. rewrite !decide_False by congruence.
  by rewrite Hp.
Qed.

Lemma scan_value_float fuel x rest :
  stops rest → scan_value (S fuel) (float_repr x ++ rest) = Some (JFloat x, rest).
Proof.
  intros Hr. pose proof (float_of_repr x) as Hx.
  destruct (float_repr_numeral x) as [w Hw|sign ip fp ep Hs Hd Hne H0 Hf He Hfe].
  - repeat (apply elem_of_cons in Hw as [->|Hw]; [cbn -[lit] in *; by rewrite ?Hx|]).
    by apply elem_of_nil in Hw.
  - pose proof (scan_number_parts sign ip fp ep rest Hs Hd Hne H0 Hf He Hr) as Hn.
    rewrite Hx in Hn.
    assert (Hn' : scan_number ((sign ++ ip ++ fp ++ ep) ++ rest) = Some (JFloat x, rest)).
    { rewrite Hn. destruct fp, ep; [|done..]. by destruct Hfe. }
    clear Hn. rewrite <-!(assoc_L (++)) in *.
    destruct (numeral_head sign ip (fp ++ ep ++ rest) Hs Hd Hne) as (c & r & E & H).
    rewrite E in *. rewrite scan_value_number; [done|done|]. by rewrite Hn'.
Qed.

(** One step of each scanner on printed text. *)
Lemma skip_value c r : value_head c → skip_ws (c :: r) = c :: r.
Proof. intros (H & _). cbn [skip_ws]. by rewrite H. Qed.

Lemma skip_mark c r : c = ","%char ∨ c = ":"%char → skip_ws (c :: r) = c :: r.
Proof. by intros [->| ->]. Qed.

Lemma scan_value_list fuel w c r :
  blank_text w → value_head c →
  scan_value (S fuel) ("["%char :: w ++ c :: r) = prod_map JList id <$> scan_elements fuel (c :: r).
Proof.
  intros Hw Hc. cbn -[scan_elements skip_ws]. rewrite skip_blank_text, skip_value by done.
  destruct Hc as (_ & Hc & _). destruct c as [[] [] [] [] [] [] [] []]; done.
Qed.

Lemma scan_value_dict fuel w r :
  blank_text w →
  scan_value (S fuel) ("{"%char :: w ++ "034"%char :: r) =
    prod_map JDict id <$> scan_members fuel ("034"%char :: r) [].
Proof. intros Hw. cbn -[scan_members skip_ws]. by rewrite skip_blank_text. Qed.

Lemma scan_elements_S fuel l :
  scan_elements (S fuel) l =
    match scan_value fuel l with
    | None => None
    | Some (j, r) =>
        match skip_ws r with
        | "]"%char :: r1 => Some ([j], r1)
        | ","%char :: r1 => prod_map (cons j) id <$> scan_elements fuel (skip_ws r1)
        | _ => None
        end
    end.
Proof. reflexivity. Qed.

Lemma scan_elements_last fuel j l w rest :
  blank_text w → scan_value fuel l = Some (j, w ++ "]"%char :: rest) →
  scan_elements (S fuel) l = Some ([j], rest).
Proof. intros Hw H. by rewrite scan_elements_S, H, skip_blank_text. Qed.

Lemma scan_elements_more fuel j l w r :
  blank_text w → skip_ws r = r → scan_value fuel l = Some (j, ","%char :: w ++ r) →
  scan_elements (S fuel) l = prod_map (cons j) id <$> scan_elements fuel r.
Proof.
  intros Hw Hr H. by rewrite scan_elements_S, H, skip_mark, skip_blank_text, Hr by auto.
Qed.

Lemma scan_members_S fuel r0 acc :
  scan_members (S fuel) ("034"%char :: r0) acc =
    match scan_string r0 with
    | None => None
    | Some (k, r) =>
        match skip_ws r with
        | ":"%char :: r1 =>
            match scan_value fuel (skip_ws r1) with
            | None => None
            | Some (j, r2) =>
                match skip_ws r2 with
                | "}"%char :: r3 => Some (dset acc (String.string_of_list_ascii k) j, r3)
                | ","%char :: r3 =>
                    scan_members fuel (skip_ws r3) (dset acc (String.string_of_list_ascii k) j)
                | _ => None
                end
            end
        | _ => None
        end
    end.
Proof. reflexivity. Qed.

Lemma scan_member fuel k w l j r acc :
  blank_text w → skip_ws l = l → scan_value fuel l = Some (j, r) →
  scan_members (S fuel) (quote k ++ ":"%char :: w ++ l) acc =
    match skip_ws r with
    | "}"%char :: r3 => Some (dset acc k j, r3)
    | ","%char :: r3 => scan_members fuel (skip_ws r3) (dset acc k j)
    | _ => None
    end.
Proof.
  intros Hw Hl H. unfold quote. cbn [app]. rewrite scan_members_S.
  rewrite <-(assoc_L (++)). cbn [app]. rewrite scan_string_escapes.
  by rewrite skip_mark, skip_blank_text, Hl, H, lit_string by auto.
Qed.

(** The reader on the text of a value, then on the items of an array and of an object. *)
Definition reads (st : style) (j : json) : Prop :=
  ∀ lv fuel rest, stops rest → scans j ≤ fuel →
    scan_value fuel (render st lv j ++ rest) = Some (j, rest).

Lemma render_skip st lv j rest : skip_ws (render st lv j ++ rest) = render st lv j ++ rest.
Proof. destruct (render_head st lv j) as (c & r & -> & Hc). by apply skip_value. Qed.

Lemma closes_stop w c rest : blank_text w → c = "]"%char ∨ c = "}"%char → stops (w ++ c :: rest).
Proof. intros Hw Hc. apply stops_blank; [done|]. by destruct Hc as [->| ->]. Qed.

(** Concatenations to the right, conses in front. *)
Ltac app_norm := repeat (rewrite <-!(assoc_L (++)); cbn [app]).

Lemma sep_comma st lv :
  style_ok st → ∃ v, st.(item_sep) ++ newline st lv = ","%char :: v ∧ blank_text v.
Proof.
  intros Hst. destruct (ok_item st Hst) as (w & -> & Hb).
  exists (w ++ newline st lv). split; [done|]. apply blank_app; [done|apply newline_blank].
Qed.

Lemma elements_read st l x lv fuel rest :
  style_ok st → Forall (reads st) (x :: l) →
  foldr (λ x n, S (scans x) + n) 0 (x :: l) ≤ fuel →
  scan_elements fuel
    (join_items (st.(item_sep) ++ newline st lv) (map (render st lv) (x :: l)) ++
     newline st (pred lv) ++ "]"%char :: rest) = Some (x :: l, rest).
Proof.
  intros Hst. destruct (sep_comma st lv Hst) as (v & -> & Hb).
  revert x fuel. induction l as [|y l IH]; intros x fuel [Hx Hl]%Forall_cons Hf;
    (destruct fuel as [|fuel]; [simpl in Hf; lia|]); cbn [map join_items concat foldr] in *.
  - rewrite app_nil_r. eapply scan_elements_last; [apply newline_blank|].
    apply Hx; [apply closes_stop; [apply newline_blank|by left]|lia].
  - specialize (IH y fuel Hl). rewrite <-!(assoc_L (++)) in *. cbn [app] in *.
    erewrite scan_elements_more; [|done|apply render_skip|apply Hx; [done|lia]].
    by rewrite IH by lia.
Qed.

Definition member_text (st : style) (lv : nat) (kv : string * json) : text :=
  quote kv.1 ++ st.(key_sep) ++ render st lv kv.2.

Lemma member_head st lv kv : ∃ r, member_text st lv kv = "034"%char :: r.
Proof. unfold member_text, quote. by eexists. Qed.

Lemma member_skip st lv kv rest :
  skip_ws (member_text st lv kv ++ rest) = member_text st lv kv ++ rest.
Proof. done. Qed.

Lemma scan_member_text st lv fuel kv r acc :
  style_ok st → reads st kv.2 → stops r → scans kv.2 ≤ fuel →
  scan_members (S fuel) (member_text st lv kv ++ r) acc =
    match skip_ws r with
    | "}"%char :: r3 => Some (dset acc kv.1 kv.2, r3)
    | ","%char :: r3 => scan_members fuel (skip_ws r3) (dset acc kv.1 kv.2)
    | _ => None
    end.
Proof.
  intros Hst Hx Hr Hf. destruct (ok_key st Hst) as (w & Hw & Hb).
  unfold member_text. rewrite Hw, <-!(assoc_L (++)). cbn [app].
  by apply scan_member; [|apply render_skip|apply Hx].
Qed.

Lemma members_read st d kv lv fuel rest acc :
  style_ok st → Forall (λ kv, reads st kv.2) (kv :: d) → dwf (acc ++ kv :: d) →
  foldr (λ kv n, S (scans kv.2) + n) 0 (kv :: d) ≤ fuel →
  scan_members fuel
    (join_items (st.(item_sep) ++ newline st lv) (map (member_text st lv) (kv :: d)) ++
     newline st (pred lv) ++ "}"%char :: rest) acc = Some (acc ++ kv :: d, rest).
Proof.
  intros Hst. destruct (sep_comma st lv Hst) as (v & -> & Hb).
  revert kv fuel acc. induction d as [|kv' d IH]; intros kv fuel acc [Hx Hl]%Forall_cons Hwf Hf;
    (destruct fuel as [|fuel]; [simpl in Hf; lia|]); cbn [map join_items concat foldr] in *;
    (assert (Hset : dset acc kv.1 kv.2 = acc ++ [kv]);
     [rewrite dset_fresh, <-surjective_pairing; [done|];
      unfold dwf, dkeys in Hwf; rewrite fmap_app in Hwf;
      apply NoDup_app in Hwf as (_ & Hwf & _); intros Hin; apply (Hwf _ Hin); left|]).
  - rewrite app_nil_r. rewrite scan_member_text by
      (done || lia || (apply closes_stop; [apply newline_blank|by right])).
    rewrite skip_blank_text by apply newline_blank. by rewrite Hset.
  - specialize (IH kv' fuel (acc ++ [kv]) Hl). rewrite <-!(assoc_L (++)) in *. cbn [app] in *.
    rewrite scan_member_text by (done || lia).
    rewrite skip_mark, skip_blank_text, member_skip, Hset by auto. apply IH; [done|lia].
Qed.

Lemma foldr_and {A} (P : A → Prop) l : foldr and True (map P l) ↔ Forall P l.
Proof.
  induction l as [|x l IH]; simpl; [by split|]. by rewrite IH, Forall_cons.
Qed.

Lemma value_reads st j : style_ok st → json_ok j → reads st j.
Proof.
  intros Hst. induction j as [|b|z|x|s|l IH|d IH] using json_nested_ind;
    intros Hok lv fuel rest Hr Hf; (destruct fuel as [|fuel]; [simpl in Hf; lia|]).
  - done.
  - by destruct b.
  - cbn [render]. destruct (int_head z) as (c & r & E & H).
    pose proof (scan_number_int z rest Hr) as Hn. rewrite E in *. cbn [app] in *.
    rewrite scan_value_number; [done|done|]. by rewrite Hn.
  - by apply scan_value_float.
  - cbn [render]. unfold quote. cbn [app scan_value]. rewrite decide_True by done.
    rewrite <-(assoc_L (++)). cbn [app]. rewrite scan_string_escapes.
    cbn [fmap option_fmap option_map fst snd]. by rewrite lit_string.
  - cbn [json_ok] in Hok. rewrite foldr_and in Hok.
    destruct l as [|x l]; [done|].
    assert (Hl : Forall (reads st) (x :: l)) by (rewrite Forall_forall in *; eauto).
    pose proof (elements_read st l x (S lv) fuel rest Hst Hl ltac:(cbn [scans] in Hf; lia)) as He.
    cbn [render]. cbn [map join_items] in *. destruct (render_head st (S lv) x) as (c & r & E & Hc).
    rewrite E in *. cbn [lit String.list_ascii_of_string app pred] in *.
    revert He. app_norm. intros He. by rewrite scan_value_list, He by (done || apply newline_blank).
  - cbn [json_ok] in Hok. rewrite foldr_and in Hok. destruct Hok as [Hwf Hok].
    destruct d as [|kv d]; [done|].
    assert (Hl : Forall (λ kv, reads st kv.2) (kv :: d)) by (rewrite Forall_forall in *; eauto).
    pose proof (members_read st d kv (S lv) fuel rest [] Hst Hl Hwf
      ltac:(cbn [scans] in Hf; lia)) as He.
    cbn [render]. change (map (λ kv, quote kv.1 ++ key_sep st ++ render st (S lv) kv.2) (kv :: d))
      with (map (member_text st (S lv)) (kv :: d)).
    destruct (member_head st (S lv) kv) as (r & E). cbn [map join_items] in *. rewrite E in *.
    cbn [lit String.list_ascii_of_string app pred] in *.
    revert He. app_norm. intros He. by rewrite scan_value_dict, He by apply newline_blank.
Qed.

(** A value's text has at least half as many characters as the reader makes calls. *)
Lemma length_join sep l : length (join_items sep l) ≥ sum_list_with (S ∘ length) l - 1 ∨ sep = [].
Proof.
  destruct l as [|x l]; [by left; simpl; lia|].
  destruct sep as [|c sep]; [by right|left]. cbn [join_items sum_list_with compose].
  rewrite length_app. assert (length (concat (map (λ y, (c :: sep) ++ y) l)) ≥
    sum_list_with (S ∘ length) l); [|unfold compose in *; lia].
  induction l as [|y l IH]; [simpl; lia|].
  cbn [map concat sum_list_with compose]. rewrite !length_app. simpl in *. lia.
Qed.

Lemma scans_items {A} (f : A → json) (g : A → text) l :
  Forall (λ x, scans (f x) ≤ 2 * length (g x)) l →
  foldr (λ x n, S (scans (f x)) + n) 0 l ≤ 2 * sum_list_with (S ∘ length) (map g l).
Proof. induction 1; cbn [foldr map sum_list_with compose]; lia. Qed.

Lemma scans_length st lv j : style_ok st → scans j ≤ 2 * length (render st lv j).
Proof.
  intros Hst. revert lv. induction j as [|b|z|x|s|l IH|d IH] using json_nested_ind; intros lv;
    try (match goal with |- scans ?j ≤ _ => destruct (render_head st lv j) as (c & r & -> & _) end;
         simpl; lia).
  - pose proof (scans_items id (render st (S lv)) l) as Hi. 
    destruct (length_join (item_sep st ++ newline st (S lv)) (map (render st (S lv)) l)) as [Hj|Hj];
      [|destruct (ok_item st Hst) as (w & Hw & _); by rewrite Hw in Hj].
    destruct l as [|x l]; [simpl; lia|].
    cbn [scans render]. rewrite !length_app. unfold id in Hi.
    cbn [lit String.list_ascii_of_string length]. 
    specialize (Hi (Forall_impl _ _ _ IH (λ x H, H (S lv)))). lia.
  - pose proof (scans_items snd (λ kv, quote kv.1 ++ st.(key_sep) ++ render st (S lv) kv.2) d) as Hi.
    destruct (length_join (item_sep st ++ newline st (S lv))
      (map (λ kv, quote kv.1 ++ st.(key_sep) ++ render st (S lv) kv.2) d)) as [Hj|Hj];
      [|destruct (ok_item st Hst) as (w & Hw & _); by rewrite Hw in Hj].
    destruct d as [|x d]; [simpl; lia|].
    cbn [scans render]. rewrite !length_app.
    cbn [lit String.list_ascii_of_string length].
    enough (Forall (λ kv, scans kv.2 ≤
      2 * length (quote kv.1 ++ key_sep st ++ render st (S lv) kv.2)) (x :: d)) by (specialize (Hi H); lia).
    eapply Forall_impl; [exact IH|]. intros kv H. rewrite !length_app. specialize (H (S lv)). lia.
Qed.

(** What was printed reads back, in either style. *)
Lemma loads_dumps st j : style_ok st → json_ok j → loads (dumps st j) = Some j.
Proof.
  intros Hst Hok. unfold loads, dumps.
  pose proof (render_skip st 0 j []) as Hs. rewrite app_nil_r in Hs. rewrite Hs.
  pose proof (value_reads st j Hst Hok 0 (2 * length (render st 0 j) + 2) [] I) as Hr.
  rewrite app_nil_r in Hr. rewrite Hr; [done|]. pose proof (scans_length st 0 j Hst). lia.
Qed.
End values.

(** ** A text for rationals: numerator, point, denominator *)
Section rational_text.
#[local] Existing Instance QF.

Definition pos_digits (p : positive) : text := nat_digits (Npos p).

Definition q_repr (x : QArith_base.Q) : text :=
  int_text (QArith_base.Qnum x) ++ "."%char :: pos_digits (QArith_base.Qden x).

Definition q_of_text (t : text) : option QArith_base.Q :=
  let '(sign, l1) := match t with "-"%char :: r => (["-"%char], r) | _ => ([], t) end in
  let '(ip, l2) := span_digits l1 in
  let n := digits_value 0 ip in
  match l2 with
  | "."%char :: ds =>
      Some (QArith_base.Qmake (match sign with [] => n | _ => (- n)%Z end)
              (Z.to_pos (digits_value 0 ds)))
  | _ => None
  end.

#[export] Instance QF_text : FloatText QF := { float_repr := q_repr; float_of_text := q_of_text }.

Lemma int_text_parts z :
  ∃ sign, int_text z = sign ++ nat_digits (Z.abs_N z) ∧
    (sign = [] ∧ (0 ≤ z)%Z ∨ sign = ["-"%char] ∧ (z < 0)%Z).
Proof.
  unfold int_text. destruct (Z.ltb_spec z 0) as [H|H].
  - exists ["-"%char]. auto.
  - exists []. auto.
Qed.

#[export] Instance QF_text_ok : FloatTextOk QF.
Proof.
  split; intros [n d]; cbn [float_repr float_of_text QF_text] in *; unfold q_repr, pos_digits;
    cbn [QArith_base.Qnum QArith_base.Qden];
    destruct (int_text_parts n) as (sign & -> & Hs);
    destruct (nat_digits_spec (Z.abs_N n)) as (Hd & Hv & c & l & Hcl & H0);
    destruct (nat_digits_spec (Npos d)) as (Hd' & Hv' & c' & l' & Hcl' & _).
  - rewrite <-(assoc_L (++)).
    replace ("."%char :: nat_digits (Npos d)) with (("."%char :: nat_digits (Npos d)) ++ [])
      by apply app_nil_r.
    apply numeral_parts; [naive_solver|done|by rewrite Hcl|..].
    + intros x E. rewrite Hcl in E. simplify_eq. auto.
    + right. eexists. split; [done|]. split; [done|by rewrite Hcl'].
    + by left.
    + by left.
  - unfold q_of_text. rewrite <-(assoc_L (++)).
    assert (Hsp : span_digits (nat_digits (Z.abs_N n) ++ "."%char :: nat_digits (Npos d)) =
      (nat_digits (Z.abs_N n), "."%char :: nat_digits (Npos d))).
    { clear Hv H0 Hs Hcl. induction (nat_digits (Z.abs_N n)) as [|a w IH]; [done|].
      simpl in *. apply andb_prop in Hd as [-> Hd]. by rewrite IH. }
    destruct Hs as [[-> Hs]|[-> Hs]]; cbn [app].
    + assert (Hm : (match nat_digits (Z.abs_N n) ++ "."%char :: nat_digits (Npos d) with
                 | "-"%char :: r => (["-"%char], r)
                 | _ => ([], nat_digits (Z.abs_N n) ++ "."%char :: nat_digits (Npos d)) end)
                = ([], nat_digits (Z.abs_N n) ++ "."%char :: nat_digits (Npos d))).
      { rewrite Hcl in *. apply andb_prop in Hd as [Hc _]. cbn [app].
        destruct c as [[] [] [] [] [] [] [] []]; done. }
      rewrite Hm, Hsp, Hv, Hv'. cbn. do 2 f_equal. lia.
    + rewrite Hsp, Hv, Hv'. cbn. do 2 f_equal. lia.
Qed.
End rational_text.
