(* ===== verification/Serializer.v ===== *)
(** * Envelopes as text ([messages/envelope.py], [messages/serializer.py])

    [to_json] and [from_json], and [MessageSerializer] over JSON or MessagePack.  A
    serialized envelope is a list of characters, ASCII as [json.dumps] writes it.
    MessagePack is third-party code: the package, when installed, is a parameter. *)
From stdpp Require Import base list strings.
From Stdlib Require Import ZArith Ascii Lia.
From S2P Require Import Prelude PyInt PyDict PyFloat Envelope Json.

(** The exceptions that leave [from_json]. *)
Inductive FromError : Type := ValueError | TypeError | OverflowError | KeyError.

(** [float(s)] of a string, [None] for a [ValueError]. *)
Class FloatParse (F : PyFloat) : Type := float_of_str : string → option float.

(** ** [str(x)] of a JSON value *)
Section str.
Context {F : PyFloat} {FT : FloatText F}.

(** A character inside the quotes [q]: what is not printable is escaped. *)
Definition repr_char (q c : ascii) : text :=
  let n := nat_of_ascii c in
  if decide (c = q ∨ n = 92) then ["092"%char; c]
  else if decide (n = 9) then lit "\t"
  else if decide (n = 10) then lit "\n"
  else if decide (n = 13) then lit "\r"
  else if decide (32 ≤ n ≤ 126 ∨ 161 ≤ n ∧ n ≠ 173) then [c]
  else lit "\x" ++ [hex_char (n / 16); hex_char (n mod 16)].

(** Single quotes, unless the string has one and no double quote. *)
Definition repr_str (s : string) : text :=
  let l := lit s in
  let q := if decide ("'"%char ∈ l ∧ "034"%char ∉ l) then "034"%char else "'"%char in
  q :: concat (map (repr_char q) l) ++ [q].

Definition py_float_repr (x : float) : text :=
  let t := float_repr x in
  if decide (t = lit "NaN") then lit "nan"
  else if decide (t = lit "Infinity") then lit "inf"
  else if decide (t = lit "-Infinity") then lit "-inf"
  else t.

Fixpoint py_repr (j : json) : text :=
  match j with
  | JNull => lit "None"
  | JBool true => lit "True"
  | JBool false => lit "False"
  | JInt n => int_text n
  | JFloat x => py_float_repr x
  | JStr s => repr_str s
  | JList l => lit "[" ++ join_items (lit ", ") (map py_repr l) ++ lit "]"
  | JDict d =>
      lit "{" ++ join_items (lit ", ") (map (λ kv, repr_str kv.1 ++ lit ": " ++ py_repr kv.2) d)
        ++ lit "}"
  end.

Definition py_str (j : json) : string :=
  match j with JStr s => s | _ => String.string_of_list_ascii (py_repr j) end.
End str.

(** ** The conversions [from_json] makes *)
Section convert.
Context {F : PyFloat} {FP : FloatParse F}.

(** [int(x)] *)
Definition arg_int (j : json) : result FromError Z :=
  match j with
  | JInt n => Ok n
  | JBool b => Ok (Z.b2z b)
  | JFloat x => match ftrunc x with
                | Some n => Ok n
                | None => Raise (if fnum x then OverflowError else ValueError)
                end
  | JStr s => match py_int s with Some n => Ok n | None => Raise ValueError end
  | JNull | JList _ | JDict _ => Raise TypeError
  end.

(** [float(x)]; an integer beyond the largest float overflows. *)
Definition arg_float (j : json) : result FromError float :=
  match j with
  | JFloat x => Ok x
  | JInt n => match ftrunc (fofZ n) with Some _ => Ok (fofZ n) | None => Raise OverflowError end
  | JBool b => Ok (fofZ (Z.b2z b))
  | JStr s => match float_of_str s with Some x => Ok x | None => Raise ValueError end
  | JNull | JList _ | JDict _ => Raise TypeError
  end.

(** [bool(x)] *)
Definition truthy (j : json) : bool :=
  match j with
  | JNull => false
  | JBool b => b
  | JInt n => negb (n =? 0)%Z
  | JFloat x => negb (feqb x f0)
  | JStr s => bool_decide (s ≠ "")
  | JList l => match l with [] => false | _ => true end
  | JDict d => match d with [] => false | _ => true end
  end.

(** [dict(items)]: each item a pair.  [None]: some key is not a string. *)
Fixpoint dict_items (l : list json) (acc : option (dict json))
    : result FromError (option (dict json)) :=
  match l with
  | [] => Ok acc
  | JList [k; v] :: r =>
      match k with
      | JStr k => dict_items r ((λ d, dset d k v) <$> acc)
      | JList _ | JDict _ => Raise TypeError
      | _ => dict_items r None
      end
  | JStr (String a (String b EmptyString)) :: r =>
      dict_items r ((λ d, dset d (String a EmptyString) (JStr (String b EmptyString))) <$> acc)
  | JDict [(k, _); (k', _)] :: r => dict_items r ((λ d, dset d k (JStr k')) <$> acc)
  | (JList _ | JStr _ | JDict _) :: _ => Raise ValueError
  | _ :: _ => Raise TypeError
  end.

(** [dict(x)] *)
Definition arg_dict (j : json) : result FromError (option (dict json)) :=
  match j with
  | JDict d => Ok (Some d)
  | JList l => dict_items l (Some [])
  | JStr EmptyString => Ok (Some [])
  | JStr _ => Raise ValueError
  | JNull | JBool _ | JInt _ | JFloat _ => Raise TypeError
  end.

(** The strings of a dictionary, if it has nothing else. *)
Fixpoint strings (d : dict json) : option (dict string) :=
  match d with
  | [] => Some []
  | (k, JStr s) :: r => cons (k, s) <$> strings r
  | _ => None
  end.

(** [data[k]], and [data.get(k)] with [None] for a null. *)
Definition field (data : dict json) (k : string) : result FromError json :=
  match dget data k with Some j => Ok j | None => Raise KeyError end.

Definition opt_field (data : dict json) (k : string) : option json :=
  match dget data k with Some JNull | None => None | Some j => Some j end.

Definition opt_float (o : option json) : result FromError (option float) :=
  match o with
  | None => Ok None
  | Some j => let? x := arg_float j in Ok (Some x)
  end.
End convert.

(** ** [MessageEnvelope.to_json] and [from_json] *)
Section json_form.
Context {F : PyFloat} {FT : FloatText F} {FP : FloatParse F}.

(** [json.dumps(data, separators=(",", ":")).encode("utf-8")] *)
Definition to_json (e : MessageEnvelope) : text := dumps compact (JDict (to_dict e)).

(** [MessageType(v)] and [Priority(n)] *)
Definition to_type (j : json) : result FromError MessageType :=
  match j with
  | JStr s => match type_of_value s with Some m => Ok m | None => Raise ValueError end
  | _ => Raise ValueError
  end.

Definition to_priority (n : Z) : result FromError Priority :=
  match priority_of_value n with Some p => Ok p | None => Raise ValueError end.

(** The two [except (ValueError, KeyError)] clauses. *)
Definition as_value_error {A} (r : result FromError A) : result FromError A :=
  match r with Raise KeyError => Raise ValueError | _ => r end.

(** The call of the constructor, its arguments in order; [created] is the default of
    [created_at].  [None]: an envelope is built, with a field that is not of its
    declared type (a topic that is not a string, say). *)
Definition build (data : dict json) (mt : result FromError MessageType)
    (pr : result FromError Priority) (created : float)
    : result FromError (option MessageEnvelope) :=
  let? se := field data "sender" in
  let? re := field data "receiver" in
  let? pl := (let? p := field data "payload" in arg_dict p) in
  let? mt := mt in
  let? pr := pr in
  let topic := match opt_field data "topic" with
    | None => Some None | Some (JStr t) => Some (Some t) | Some _ => None end in
  let? tr := field data "trace_id" in
  let? mi := field data "message_id" in
  let? cr := match dget data "created_at" with None => Ok created | Some j => arg_float j end in
  let? ttl := opt_float (opt_field data "ttl_seconds") in
  let? bud := opt_float (opt_field data "cost_budget_usd") in
  let? md := match dget data "metadata" with None => Ok (Some []) | Some j => arg_dict j end in
  Ok (pl ← pl; topic ← topic; md ← md; md ← strings md;
      Some (mkEnvelope (py_str se) (py_str re) pl mt pr topic (py_str tr)
              (py_str <$> opt_field data "parent_message_id") (py_str mi) cr ttl bud md)).

Definition required_fields : list string :=
  ["sender"; "receiver"; "payload"; "message_id"; "trace_id"].

(** [now] is the reading of the clock when [created_at] is missing. *)
Definition from_json (now : float) (raw : text) : result FromError (option MessageEnvelope) :=
  match loads raw with
  | Some (JDict data) =>
      if forallb (dmem data) required_fields then
        let? mt := as_value_error (let? j := field data "message_type" in to_type j) in
        let? pr := as_value_error
          (let? j := field data "priority" in let? n := arg_int j in to_priority n) in
        build data (Ok mt) (Ok pr) now
      else Raise ValueError
  | _ => Raise ValueError
  end.

(** ** [MessageSerializer] *)

(** The [msgpack] package: [packb] of a value, and [unpackb] of bytes, which raises or
    gives a value, [None] when the value is none of JSON's. *)
Record Msgpack : Type := mkMsgpack {
  packb : json → option text;
  unpackb : text → option (option json);
}.

Inductive Format : Type := JsonFormat | MsgpackFormat.

Definition MSGPACK_HEADER : ascii := "193".

Definition envelope_to_wire_dict (e : MessageEnvelope) : dict json :=
  [("sender", JStr e.(sender)); ("receiver", JStr e.(receiver));
   ("payload", JDict e.(payload)); ("message_type", JStr (type_value e.(message_type)));
   ("priority", JInt (priority_value e.(priority))); ("topic", opt_json JStr e.(topic));
   ("trace_id", JStr e.(trace_id));
   ("parent_message_id", opt_json JStr e.(parent_message_id));
   ("message_id", JStr e.(message_id)); ("created_at", JFloat e.(created_at));
   ("ttl_seconds", opt_json JFloat e.(ttl_seconds));
   ("cost_budget_usd", opt_json JFloat e.(cost_budget_usd));
   ("metadata", JDict (dmap JStr e.(env_metadata)))].

Definition wire_dict_to_envelope (data : dict json) : result FromError (option MessageEnvelope) :=
  build data (let? j := field data "message_type" in to_type j)
    (let? j := field data "priority" in let? n := arg_int j in to_priority n) f0.

(** [msgpack] is the package, when the import succeeds.  [None] is the exception of
    [packb]. *)
Definition encode_msgpack (msgpack : option Msgpack) (e : MessageEnvelope) : option text :=
  match msgpack with
  | Some m => m.(packb) (JDict (envelope_to_wire_dict e))
  | None => Some (MSGPACK_HEADER :: to_json e)
  end.

(** What the [try] block reads; every exception in it becomes a [ValueError].  A value
    that is no dictionary has no ["sender"]. *)
Definition unpack_raw (msgpack : option Msgpack) (raw : text)
    : result FromError (option MessageEnvelope) :=
  match msgpack with
  | None => Raise ValueError
  | Some m =>
      match m.(unpackb) raw with
      | None => Raise ValueError
      | Some None => Ok None
      | Some (Some (JDict data)) =>
          match wire_dict_to_envelope data with Ok e => Ok e | Raise _ => Raise ValueError end
      | Some (Some _) => Raise ValueError
      end
  end.

Definition decode_msgpack (msgpack : option Msgpack) (now : float) (raw : text)
    : result FromError (option MessageEnvelope) :=
  match raw with
  | c :: r =>
      if decide (c = MSGPACK_HEADER) then from_json now r
      else unpack_raw msgpack raw
  | [] => unpack_raw msgpack raw
  end.

Definition encode (msgpack : option Msgpack) (e : MessageEnvelope) (f : Format) : option text :=
  match f with MsgpackFormat => encode_msgpack msgpack e | JsonFormat => Some (to_json e) end.

Definition decode (msgpack : option Msgpack) (now : float) (raw : text) (f : Format)
    : result FromError (option MessageEnvelope) :=
  match f with
  | MsgpackFormat => decode_msgpack msgpack now raw
  | JsonFormat => from_json now raw
  end.

Definition supports_msgpack (msgpack : option Msgpack) : bool :=
  match msgpack with Some _ => true | None => false end.
End json_form.

(** ** Round trips *)

(** The package as its documentation has it: it reads back what it packed, and never
    writes the reserved byte first. *)
Definition msgpack_ok {F : PyFloat} (m : Msgpack) : Prop :=
  ∀ j t, json_ok j → m.(packb) j = Some t →
    m.(unpackb) t = Some (Some j) ∧ ∀ r, t ≠ MSGPACK_HEADER :: r.

Section roundtrip.
Context {F : PyFloat} {FT : FloatText F} {FP : FloatParse F}.

(** The dictionaries of an envelope have distinct keys. *)
Definition env_ok (e : MessageEnvelope) : Prop :=
  json_ok (JDict e.(payload)) ∧ dwf e.(env_metadata).

Lemma strings_dmap d : strings (dmap JStr d) = Some d.
Proof. induction d as [|[k s] d IH]; [done|]. cbn. unfold dmap in IH. by rewrite IH. Qed.

Lemma json_ok_to_dict e : env_ok e → json_ok (JDict (to_dict e)).
Proof.
  intros [[Hp1 Hp2] Hm]. cbn [json_ok]. split.
  { unfold dwf, dkeys. cbn. by apply (bool_decide_unpack _). }
  cbn -[json_ok]. split_and!; try done.
  - by destruct e.(topic).
  - by destruct e.(parent_message_id).
  - by destruct e.(ttl_seconds).
  - by destruct e.(cost_budget_usd).
  - cbn [json_ok]. split; [by apply dwf_map|].
    clear. induction e.(env_metadata) as [|kv l IH]; [done|]. by split.
Qed.

Lemma opt_field_opt {A} data k (f : A → json) o :
  dget data k = Some (opt_json f o) → (∀ a, f a ≠ JNull) → opt_field data k = f <$> o.
Proof.
  unfold opt_field. intros -> Hf. destruct o as [a|]; [|done]. simpl.
  specialize (Hf a). by destruct (f a).
Qed.

Lemma build_to_dict e c :
  build (to_dict e) (Ok e.(message_type)) (Ok e.(priority)) c = Ok (Some e).
Proof.
  unfold build.
  rewrite (opt_field_opt _ "topic" JStr e.(topic)) by done.
  rewrite (opt_field_opt _ "parent_message_id" JStr e.(parent_message_id)) by done.
  rewrite (opt_field_opt _ "ttl_seconds" JFloat e.(ttl_seconds)) by done.
  rewrite (opt_field_opt _ "cost_budget_usd" JFloat e.(cost_budget_usd)) by done.
  destruct e as [? ? ? ? ? [t|] ? [p|] ? ? [x|] [y|] md]; lazy -[strings dmap]; by rewrite strings_dmap.
Qed.

Lemma type_to_dict e :
  (let? j := field (to_dict e) "message_type" in to_type j) = Ok e.(message_type).
Proof.
  change (field (to_dict e) "message_type")
    with (Ok (E:=FromError) (JStr (F:=F) (type_value e.(message_type)))).
  unfold bindR, to_type. by rewrite type_of_value_value.
Qed.

Lemma priority_to_dict e :
  (let? j := field (to_dict e) "priority" in let? n := arg_int j in to_priority n) =
    Ok e.(priority).
Proof.
  change (field (to_dict e) "priority")
    with (Ok (E:=FromError) (JInt (F:=F) (priority_value e.(priority)))).
  unfold bindR, arg_int, to_priority. by rewrite priority_of_value_value.
Qed.

Context `{FTO : !FloatTextOk F}.

(** Round trip of the JSON form: an envelope read back from its serialization, byte
    for byte as the compact printer writes it, is the envelope, all fields included. *)
Theorem from_to_json e now : env_ok e → from_json now (to_json e) = Ok (Some e).
Proof.
  intros He. unfold from_json, to_json.
  rewrite loads_dumps by (apply compact_ok || by apply json_ok_to_dict).
  change (forallb (dmem (to_dict e)) required_fields) with true. cbv iota.
  rewrite type_to_dict, priority_to_dict. cbn [as_value_error bindR]. apply build_to_dict.
Qed.

(** C9. [decode] after [encode], whatever the format and wherever [msgpack] is installed:
    the envelope comes back, except that frames [msgpack] packed need it to be read; in
    particular the fallback written without the package is recognised by both sides. *)
Theorem decode_encode e f (pk pk' : option Msgpack) raw now :
  env_ok e → (∀ m, pk = Some m → msgpack_ok m) → encode pk e f = Some raw →
  pk' = pk ∨ pk = None ∨ pk' = None →
  decode pk' now raw f =
    match f, pk, pk' with
    | MsgpackFormat, Some _, None => Raise ValueError
    | _, _, _ => Ok (Some e)
    end.
Proof.
  intros He Hpk Henc Hor. destruct f; simpl in *; [simplify_eq; by apply from_to_json|].
  destruct pk as [m|]; simpl in Henc; cycle 1.
  { simplify_eq. cbn -[from_json to_json]. by apply from_to_json. }
  destruct (Hpk m eq_refl _ _ (json_ok_to_dict e He) Henc) as [Hun Hh].
  assert (Hd : decode_msgpack pk' now raw = unpack_raw pk' raw).
  { destruct raw as [|c r]; [done|]. simpl. case_decide as Hc; [|done].
    subst. by destruct (Hh r). }
  rewrite Hd. destruct pk' as [m'|]; [|done].
  destruct Hor as [[= ->]|[?|?]]; [|done..]. cbn [unpack_raw]. rewrite Hun.
  change (envelope_to_wire_dict e) with (to_dict e). unfold wire_dict_to_envelope.
  by rewrite type_to_dict, priority_to_dict, build_to_dict.
Qed.
End roundtrip.

(** ** Errors *)
Section errors.
Context {F : PyFloat} {FT : FloatText F} {FP : FloatParse F}.

(** [decode] of a MessagePack frame raises nothing but a [ValueError]. *)
Lemma unpack_raw_error pk raw x : unpack_raw pk raw = Raise x → x = ValueError.
Proof. unfold unpack_raw. repeat case_match; naive_solver. Qed.

(** A call that raises no [KeyError]. *)
Definition no_key_error {A} (r : result FromError A) : Prop := r ≠ Raise KeyError.

Lemma nke_bind {A B} (r : result FromError A) (k : A → result FromError B) :
  no_key_error r → (∀ a, no_key_error (k a)) → no_key_error (bindR r k).
Proof. intros Hr Hk. destruct r as [a|e]; [apply Hk|]. intros [= ->]. by apply Hr. Qed.

Lemma nke_ok {A} (a : A) : no_key_error (Ok a).
Proof. done. Qed.

Lemma nke_field data k : dmem data k = true → no_key_error (field data k).
Proof. unfold field, dmem. by destruct (dget data k). Qed.

Lemma nke_float j : no_key_error (arg_float j).
Proof. unfold arg_float. by repeat case_match. Qed.

Lemma nke_opt_float o : no_key_error (opt_float o).
Proof. destruct o; [apply nke_bind; [apply nke_float|done]|done]. Qed.

Lemma nke_dict_items l acc : no_key_error (dict_items l acc).
Proof.
  revert acc. induction l as [|x l IH]; intros acc; [done|]. simpl.
  repeat case_match; done || apply IH.
Qed.

Lemma nke_dict j : no_key_error (arg_dict j).
Proof. destruct j; try done; simpl; [by case_match|apply nke_dict_items]. Qed.

Lemma nke_build data mt pr c :
  forallb (dmem data) required_fields = true →
  no_key_error (build data (Ok mt) (Ok pr) c).
Proof.
  simpl. rewrite !andb_true_iff. intros (?&?&?&?&?&_). unfold build.
  repeat first [done|apply nke_bind; [|intros ?]|by apply nke_field|apply nke_opt_float
    |apply nke_dict|case_match; [apply nke_float || apply nke_dict|done]].
Qed.

(** [from_json] raises no [KeyError]: a missing field is always reported as the
    documented [ValueError]. *)
Theorem from_json_missing now raw data k :
  loads raw = Some (JDict data) →
  k ∈ required_fields ++ ["message_type"; "priority"] → dget data k = None →
  from_json now raw = Raise ValueError.
Proof.
  intros Hl Hk Hn. unfold from_json. rewrite Hl.
  destruct (forallb _ _) eqn:Hreq; [|done].
  rewrite forallb_forall in Hreq. apply elem_of_app in Hk as [Hk|Hk].
  { apply list_elem_of_In, Hreq in Hk. unfold dmem in Hk. by rewrite Hn in Hk. }
  destruct (field data "message_type") as [j|e] eqn:Hj; cycle 1.
  { unfold field in Hj. case_match; by simplify_eq. }
  destruct (to_type j) as [m|e] eqn:Hm; cycle 1.
  { unfold to_type in Hm. simpl. unfold to_type. repeat case_match; by simplify_eq. }
  apply elem_of_cons in Hk as [->|Hk]; [unfold field in Hj; by rewrite Hn in Hj|].
  apply list_elem_of_singleton in Hk as ->.
  simpl. rewrite Hm. simpl. unfold field. by rewrite Hn.
Qed.

Lemma from_json_no_key_error now raw : no_key_error (from_json now raw).
Proof.
  unfold from_json. destruct (loads raw) as [[]|]; try done.
  destruct (forallb _ _) eqn:Hreq; [|done].
  apply nke_bind; [unfold as_value_error; by repeat case_match|]. intros m.
  apply nke_bind; [unfold as_value_error; by repeat case_match|]. intros n.
  by apply nke_build.
Qed.

(** The documentation promises a [ValueError] for every bad input; a null priority, or
    an infinite one, raises another exception. *)
Lemma from_json_type_error now raw data m :
  loads raw = Some (JDict data) → forallb (dmem data) required_fields = true →
  (let? j := field data "message_type" in to_type j) = Ok m →
  dget data "priority" = Some JNull →
  from_json now raw = Raise TypeError.
Proof.
  intros Hl Hr Hm Hp. unfold from_json. rewrite Hl, Hr, Hm. unfold field. by rewrite Hp.
Qed.
End errors.

(** ** Witnesses *)
Section witnesses.
#[local] Existing Instance QF.

(** [float] of an integer's numeral, as a rational. *)
#[export] Instance QF_parse : FloatParse QF := λ s, fofZ <$> py_int s.

Definition ex_env : MessageEnvelope :=
  mkEnvelope "a" "b" [("q", JList [JInt (-7); JStr "x\"])] QUERY HIGH None "t" None "m"
    (fofZ 3) (Some (fofZ 60)) None [("k", "v")].

Definition ex_packer : Msgpack :=
  mkMsgpack (λ j, Some (dumps compact j)) (λ t, Some <$> loads t).

Lemma ex_env_ok : env_ok ex_env.
Proof. split; [split; [by apply (bool_decide_unpack _)|done]|by apply (bool_decide_unpack _)]. Qed.

Lemma ex_packer_ok : msgpack_ok ex_packer.
Proof.
  intros j t Hj [= <-]. split.
  - cbn. by rewrite loads_dumps by (apply compact_ok || done).
  - intros r. unfold dumps. destruct (render_head compact 0 j) as (c & r' & -> & Hc).
    intros [= -> _]. by destruct Hc as (_ & _ & _ & ?).
Qed.

Lemma from_to_json_witness :
  from_json (fofZ 9) (to_json ex_env) = Ok (Some ex_env).
Proof. apply from_to_json, ex_env_ok. Defined.

Lemma decode_encode_witness :
  ∃ raw, encode (Some ex_packer) ex_env MsgpackFormat = Some raw ∧
    decode (Some ex_packer) (fofZ 9) raw MsgpackFormat = Ok (Some ex_env).
Proof.
  eexists. split; [reflexivity|].
  apply (decode_encode ex_env MsgpackFormat (Some ex_packer) (Some ex_packer));
    [exact ex_env_ok|intros m [= <-]; exact ex_packer_ok|reflexivity|by left].
Defined.
End witnesses.
