(* ===== verification/Table.v ===== *)
(** * The routing table ([routing/table.py])

    [RoutingTable] maps agent ids to [AgentRecord]s in registration order.
    Each public method is one definition; the methods that can raise run in
    the state and exception monad, so a write made before a [raise] stays. *)
From stdpp Require Import base gmap sets list strings.
From S2P Require Import Prelude PyDict PyFloat.

Inductive TableError : Type :=
  | AgentNotFoundError (agent_id : string)
  | AgentAlreadyRegisteredError (agent_id : string)
  | InvalidLoad       (* ValueError of _validate_load *)
  | InvalidCost.      (* ValueError of _validate_cost *)

Section table.
Context {F : PyFloat}.

Record AgentRecord : Type := mkAgentRecord {
  agent_id : string;
  capabilities : gset string;
  cost_per_token : float;
  current_load : float;
  healthy : bool;
  registered_at : float;
  last_heartbeat_at : float;
  tags : dict string;
  metadata : dict string;
}.

Record RoutingTable : Type := mkTable {
  default_healthy_only : bool;
  agents : dict AgentRecord;
}.

Definition new_table (healthy_only : bool) : RoutingTable := mkTable healthy_only [].

(** In-place attribute assignments on a record. *)
Definition set_capabilities (cs : list string) (r : AgentRecord) : AgentRecord :=
  mkAgentRecord r.(agent_id) (list_to_set cs) r.(cost_per_token) r.(current_load)
    r.(healthy) r.(registered_at) r.(last_heartbeat_at) r.(tags) r.(metadata).
Definition set_cost (c : float) (r : AgentRecord) : AgentRecord :=
  mkAgentRecord r.(agent_id) r.(capabilities) c r.(current_load)
    r.(healthy) r.(registered_at) r.(last_heartbeat_at) r.(tags) r.(metadata).
Definition set_load (l : float) (r : AgentRecord) : AgentRecord :=
  mkAgentRecord r.(agent_id) r.(capabilities) r.(cost_per_token) l
    r.(healthy) r.(registered_at) r.(last_heartbeat_at) r.(tags) r.(metadata).
Definition set_healthy (h : bool) (r : AgentRecord) : AgentRecord :=
  mkAgentRecord r.(agent_id) r.(capabilities) r.(cost_per_token) r.(current_load)
    h r.(registered_at) r.(last_heartbeat_at) r.(tags) r.(metadata).
Definition set_heartbeat (now : float) (r : AgentRecord) : AgentRecord :=
  mkAgentRecord r.(agent_id) r.(capabilities) r.(cost_per_token) r.(current_load)
    r.(healthy) r.(registered_at) now r.(tags) r.(metadata).
Definition update_tags (d : dict string) (r : AgentRecord) : AgentRecord :=
  mkAgentRecord r.(agent_id) r.(capabilities) r.(cost_per_token) r.(current_load)
    r.(healthy) r.(registered_at) r.(last_heartbeat_at) (dupdate r.(tags) d) r.(metadata).
Definition update_metadata (d : dict string) (r : AgentRecord) : AgentRecord :=
  mkAgentRecord r.(agent_id) r.(capabilities) r.(cost_per_token) r.(current_load)
    r.(healthy) r.(registered_at) r.(last_heartbeat_at) r.(tags) (dupdate r.(metadata) d).

Definition matches_capabilities (r : AgentRecord) (required : gset string) : bool :=
  bool_decide (required ⊆ r.(capabilities)).

Definition capability_overlap_score (r : AgentRecord) (required : gset string) : float :=
  if bool_decide (required = ∅) then f0
  else fdiv (fofZ (Z.of_nat (size (required ∩ r.(capabilities)))))
         (fofZ (Z.of_nat (size required))).

Definition with_agents (t : RoutingTable) (d : dict AgentRecord) : RoutingTable :=
  mkTable t.(default_healthy_only) d.

(** Mutate the record stored under [id], as an attribute assignment on the
    object held by the dictionary does. *)
Definition mutate (id : string) (f : AgentRecord → AgentRecord) (t : RoutingTable)
    : RoutingTable :=
  match dget t.(agents) id with
  | Some r => with_agents t (dset t.(agents) id (f r))
  | None => t
  end.

Abbreviation T A := (M RoutingTable TableError A).

Definition _validate_load (load : float) : T unit :=
  guardS (negb (fbetween f0 load f1)) InvalidLoad.

Definition _validate_cost (cost : float) : T unit :=
  guardS (fltb cost f0) InvalidCost.

Definition _get_or_raise (id : string) : T AgentRecord := λ t,
  match dget t.(agents) id with
  | Some r => (Ok r, t)
  | None => (Raise (AgentNotFoundError id), t)
  end.

(** [t_reg] and [t_hb] are the two [time.time()] readings of the record's
    default factories. *)
Definition register_agent (id : string) (caps : option (list string))
    (cost load : float) (tg md : option (dict string)) (t_reg t_hb : float)
    : T AgentRecord :=
  let! _ := _validate_load load in
  let! _ := _validate_cost cost in
  let! t := getS in
  let! _ := guardS (dmem t.(agents) id) (AgentAlreadyRegisteredError id) in
  let r := mkAgentRecord id (list_to_set (default [] caps)) cost load true t_reg t_hb
             (default [] tg) (default [] md) in
  let! _ := putS (with_agents t (dset t.(agents) id r)) in
  retS r.

Definition deregister_agent (id : string) : T unit :=
  let! t := getS in
  let! _ := guardS (negb (dmem t.(agents) id)) (AgentNotFoundError id) in
  putS (with_agents t (ddel t.(agents) id)).

(** One [if arg is not None: record.field = ...] statement. *)
Definition assign {A} (id : string) (o : option A) (f : A → AgentRecord → AgentRecord)
    : T unit :=
  match o with Some a => modS (mutate id (f a)) | None => retS tt end.

(** The same with a validation before the assignment. *)
Definition assign_checked {A} (id : string) (o : option A) (check : A → T unit)
    (f : A → AgentRecord → AgentRecord) : T unit :=
  match o with
  | Some a => let! _ := check a in modS (mutate id (f a))
  | None => retS tt
  end.

Definition update_agent (id : string) (caps : option (list string))
    (cost load : option float) (hl : option bool) (tg md : option (dict string))
    : T AgentRecord :=
  let! _ := _get_or_raise id in
  let! _ := assign id caps set_capabilities in
  let! _ := assign_checked id cost _validate_cost set_cost in
  let! _ := assign_checked id load _validate_load set_load in
  let! _ := assign id hl set_healthy in
  let! _ := assign id tg update_tags in
  let! _ := assign id md update_metadata in
  _get_or_raise id.

Definition upsert_agent (id : string) (caps : option (list string))
    (cost load : float) (tg md : option (dict string)) (t_reg t_hb : float)
    : T AgentRecord :=
  let! t := getS in
  if dmem t.(agents) id
  then update_agent id caps (Some cost) (Some load) None tg md
  else register_agent id caps cost load tg md t_reg t_hb.

Definition record_heartbeat (id : string) (now : float) : T unit :=
  let! _ := _get_or_raise id in
  modS (mutate id (set_heartbeat now)).

Definition update_load (id : string) (load : float) : T unit :=
  let! _ := update_agent id None None (Some load) None None None in
  retS tt.

Definition get_agent (id : string) : T AgentRecord := _get_or_raise id.

Definition list_agents (t : RoutingTable) (healthy_only : option bool) : list AgentRecord :=
  let filter_healthy := default t.(default_healthy_only) healthy_only in
  if filter_healthy then filter (λ r, healthy r) (dvalues t.(agents))
  else dvalues t.(agents).

Definition find_by_capability (t : RoutingTable) (cap : string)
    (healthy_only : option bool) : list AgentRecord :=
  filter (λ r, cap ∈ r.(capabilities)) (list_agents t healthy_only).

Definition find_by_capabilities (t : RoutingTable) (required : gset string)
    (healthy_only : option bool) (require_all : bool) : list AgentRecord :=
  let records := list_agents t healthy_only in
  if require_all then filter (λ r, matches_capabilities r required) records
  else filter (λ r, required ∩ r.(capabilities) ≠ ∅) records.

Definition table_len (t : RoutingTable) : nat := length t.(agents).
Definition table_contains (t : RoutingTable) (id : string) : bool := dmem t.(agents) id.

(** Every state-changing method, as a command. *)
Inductive table_op : Type :=
  | OpRegister (id : string) (caps : option (list string)) (cost load : float)
      (tg md : option (dict string)) (t_reg t_hb : float)
  | OpDeregister (id : string)
  | OpUpsert (id : string) (caps : option (list string)) (cost load : float)
      (tg md : option (dict string)) (t_reg t_hb : float)
  | OpUpdate (id : string) (caps : option (list string)) (cost load : option float)
      (hl : option bool) (tg md : option (dict string))
  | OpHeartbeat (id : string) (now : float)
  | OpLoad (id : string) (load : float).

(** The state after a command, whether it returned or raised. *)
Definition run_table_op (o : table_op) (t : RoutingTable) : RoutingTable :=
  match o with
  | OpRegister id caps c l tg md t1 t2 => (register_agent id caps c l tg md t1 t2 t).2
  | OpDeregister id => (deregister_agent id t).2
  | OpUpsert id caps c l tg md t1 t2 => (upsert_agent id caps c l tg md t1 t2 t).2
  | OpUpdate id caps c l hl tg md => (update_agent id caps c l hl tg md t).2
  | OpHeartbeat id now => (record_heartbeat id now t).2
  | OpLoad id load => (update_load id load t).2
  end.

(** What the table guarantees of each record: a load in [0.0, 1.0], a cost
    that is not negative, and the id it is stored under. *)
Definition record_ok (r : AgentRecord) : Prop :=
  fbetween f0 r.(current_load) f1 = true ∧ fltb r.(cost_per_token) f0 = false.

Definition table_ok (t : RoutingTable) : Prop :=
  dwf t.(agents) ∧
  Forall (λ kr, kr.2.(agent_id) = kr.1 ∧ record_ok kr.2) t.(agents).
End table.

#[export] Hint Unfold record_ok : py.

(** ** The invariant *)
Section invariant.
Context {F : PyFloat}.
Implicit Types (t : RoutingTable) (r : AgentRecord) (id : string).

Lemma table_ok_lookup t id r :
  table_ok t → dget t.(agents) id = Some r → r.(agent_id) = id ∧ record_ok r.
Proof.
  intros [_ H] Hr. apply dget_Some_elem in Hr. rewrite Forall_forall in H.
  exact (H _ Hr).
Qed.

Lemma table_ok_mutate t id f :
  (∀ r, record_ok r → record_ok (f r)) → (∀ r, agent_id (f r) = agent_id r) →
  table_ok t → table_ok (mutate id f t).
Proof.
  intros Hf Hid Ht. unfold mutate. destruct (dget (agents t) id) as [r|] eqn:E; [|done].
  destruct (table_ok_lookup _ _ _ Ht E) as [<- Hr]. destruct Ht as [Hwf Hall].
  split; simpl; [by apply dwf_set|]. apply Forall_dset; [done|]. simpl. auto.
Qed.

Lemma preserves_get_or_raise id : preserves table_ok (_get_or_raise id).
Proof. intros t Ht. unfold _get_or_raise. by case_match. Qed.

Lemma preserves_assign {A} id (o : option A) f :
  (∀ a r, record_ok r → record_ok (f a r)) → (∀ a r, agent_id (f a r) = agent_id r) →
  preserves table_ok (assign id o f).
Proof.
  intros Hf Hid. destruct o; simpl; [|apply preserves_ret].
  apply preserves_mod. auto using table_ok_mutate.
Qed.

(** A checked assignment may rely on the fact the check established. *)
Lemma preserves_assign_checked {A} id (o : option A) (bad : A → bool) e f :
  (∀ a r, bad a = false → record_ok r → record_ok (f a r)) →
  (∀ a r, agent_id (f a r) = agent_id r) →
  preserves table_ok (assign_checked id o (λ a, guardS (bad a) e) f).
Proof.
  intros Hf Hid. destruct o as [a|]; simpl; [|apply preserves_ret].
  intros t Ht. rewrite bindS_guard. destruct (bad a) eqn:E; [done|].
  simpl. apply table_ok_mutate; auto.
Qed.

Lemma update_agent_ok id caps c l hl tg md :
  preserves table_ok (update_agent id caps c l hl tg md).
Proof.
  unfold update_agent, _validate_cost, _validate_load.
  repeat (apply preserves_bind; [|intros _]); auto using preserves_get_or_raise.
  all: try (apply preserves_assign; [by intros ?? [??]|done]).
  - apply preserves_assign_checked; [|done]. by intros ? ? ? [? ?].
  - apply preserves_assign_checked; [|done].
    intros ? ? H [? ?]. by apply negb_false_iff in H.
Qed.

Lemma register_agent_ok id caps c l tg md n1 n2 :
  preserves table_ok (register_agent id caps c l tg md n1 n2).
Proof.
  intros t [Hwf Hall]. unfold register_agent, _validate_load, _validate_cost.
  run_m; try done. bool_simpl.
  split; simpl; [by apply dwf_set|]. by apply Forall_dset.
Qed.

Lemma deregister_agent_ok id : preserves table_ok (deregister_agent id).
Proof.
  intros t [Hwf Hall]. unfold deregister_agent. run_m; [done|].
  split; simpl; [by apply dwf_del|by apply Forall_ddel].
Qed.

Lemma run_table_op_ok o t : table_ok t → table_ok (run_table_op o t).
Proof.
  intros Ht. destruct o; simpl.
  - by apply register_agent_ok.
  - by apply deregister_agent_ok.
  - unfold upsert_agent, bindS at 1; simpl. case_match.
    + by apply update_agent_ok.
    + by apply register_agent_ok.
  - by apply update_agent_ok.
  - apply (preserves_bind table_ok); [apply preserves_get_or_raise| |done].
    intros _. apply preserves_mod. intros. apply table_ok_mutate; [by intros ? [??]|done..].
  - apply (preserves_bind table_ok); [apply update_agent_ok| |done]. intros. apply preserves_ret.
Qed.

(** Whatever sequence of calls the table receives, and whichever of them
    raise, every stored record has a load in [0.0, 1.0], a cost that is not
    negative and the id it is stored under, and ids are distinct. *)
Theorem table_reachable_ok (healthy_only : bool) (ops : list table_op) :
  table_ok (fold_left (λ t o, run_table_op o t) ops (new_table healthy_only)).
Proof.
  assert (H : table_ok (new_table healthy_only)) by (split; constructor).
  revert H. generalize (new_table healthy_only).
  induction ops as [|o ops IH]; intros t Ht; simpl; [done|].
  by apply IH, run_table_op_ok.
Qed.
End invariant.

(** ** Functional behaviour *)
Section behaviour.
Context {F : PyFloat}.
Implicit Types (t : RoutingTable) (r : AgentRecord) (id : string).

(** The record the call asks for: the given fields replaced, the given tags
    and metadata merged. *)
Definition given {A} (o : option A) (f : A → AgentRecord → AgentRecord) r : AgentRecord :=
  match o with Some a => f a r | None => r end.

Definition updated (caps : option (list string)) (cost load : option float)
    (hl : option bool) (tg md : option (dict string)) r : AgentRecord :=
  given md update_metadata (given tg update_tags (given hl set_healthy
    (given load set_load (given cost set_cost (given caps set_capabilities r))))).

Lemma assign_run {A} id (o : option A) f t :
  assign id o f t = (Ok tt, mutate id (given o f) t).
Proof.
  destruct o as [a|]; simpl; [done|]. unfold retS, mutate, with_agents. f_equal.
  destruct t as [b d]; simpl. destruct (dget d id) as [r|] eqn:E; [|done]. f_equal.
  induction d as [|[k v] d IH]; simpl in *; [done|].
  case_decide; simplify_eq; [done|]. f_equal. auto.
Qed.

Lemma mutate_mutate id f g t : mutate id g (mutate id f t) = mutate id (λ r, g (f r)) t.
Proof.
  unfold mutate. destruct (dget (agents t) id) as [r|] eqn:E; [|by rewrite E].
  unfold with_agents; simpl. rewrite dget_set_eq. f_equal.
  clear E. induction (agents t) as [|[k v] d IH]; simpl.
  - by case_decide.
  - case_decide; simpl; case_decide; try done. by f_equal.
Qed.

Lemma dget_mutate t id f r :
  dget t.(agents) id = Some r → dget (mutate id f t).(agents) id = Some (f r).
Proof. unfold mutate. intros ->. simpl. apply dget_set_eq. Qed.

Lemma get_or_raise_mutate id f t r :
  dget t.(agents) id = Some r → _get_or_raise id (mutate id f t) = (Ok (f r), mutate id f t).
Proof. intros H. unfold _get_or_raise. by erewrite dget_mutate. Qed.

Definition bad_cost (c : option float) : bool :=
  match c with Some c => fltb c f0 | None => false end.
Definition bad_load (l : option float) : bool :=
  match l with Some l => negb (fbetween f0 l f1) | None => false end.

Lemma assign_checked_run {A} id (o : option A) (bad : A → bool) e f t :
  assign_checked id o (λ a, guardS (bad a) e) f t =
    if match o with Some a => bad a | None => false end then (Raise e, t)
    else (Ok tt, mutate id (given o f) t).
Proof.
  destruct o as [a|]; simpl; [rewrite bindS_guard; by destruct (bad a)|].
  exact (assign_run id None f t).
Qed.

Lemma update_agent_run t id caps cost load hl tg md :
  update_agent id caps cost load hl tg md t =
    match dget t.(agents) id with
    | None => (Raise (AgentNotFoundError id), t)
    | Some r =>
        if bad_cost cost then
          (Raise InvalidCost, mutate id (given caps set_capabilities) t)
        else if bad_load load then
          (Raise InvalidLoad,
           mutate id (λ r, given cost set_cost (given caps set_capabilities r)) t)
        else (Ok (updated caps cost load hl tg md r),
              with_agents t (dset t.(agents) id (updated caps cost load hl tg md r)))
    end.
Proof.
  unfold update_agent, bindS at 1, _get_or_raise at 1.
  destruct (dget _ _) as [r|] eqn:E; [|done].
  unfold bindS at 1. rewrite assign_run.
  unfold bindS at 1, _validate_cost. rewrite assign_checked_run.
  fold (bad_cost cost). destruct (bad_cost cost); [done|].
  unfold bindS at 1, _validate_load. rewrite assign_checked_run, mutate_mutate.
  fold (bad_load load). destruct (bad_load load); [done|].
  unfold bindS. rewrite !assign_run, !mutate_mutate.
  rewrite (get_or_raise_mutate _ _ _ r) by done.
  unfold mutate. by rewrite E.
Qed.

(** [update_agent] on every branch: an unknown id raises and changes
    nothing; a negative cost raises after the capabilities were replaced; a
    load outside [0.0, 1.0] raises after the capabilities and the cost were
    replaced; otherwise the record becomes exactly the requested one, is
    returned, and keeps its place in the table. *)
Theorem update_agent_spec t id caps cost load hl tg md :
  update_agent id caps cost load hl tg md t =
    match dget t.(agents) id with
    | None => (Raise (AgentNotFoundError id), t)
    | Some r =>
        if bad_cost cost then
          (Raise InvalidCost, mutate id (given caps set_capabilities) t)
        else if bad_load load then
          (Raise InvalidLoad,
           mutate id (λ r, given cost set_cost (given caps set_capabilities r)) t)
        else (Ok (updated caps cost load hl tg md r),
              with_agents t (dset t.(agents) id (updated caps cost load hl tg md r)))
    end.
Proof. apply update_agent_run. Qed.

(** [upsert_agent] promises to register or update "atomically", but an
    update with a load outside [0.0, 1.0] raises [ValueError] and leaves the
    new capabilities and the new cost behind in the registered record. *)
Theorem upsert_agent_not_atomic t id r cs cost load tg md n1 n2 :
  dget t.(agents) id = Some r → fltb cost f0 = false → fbetween f0 load f1 = false →
  ∃ t', upsert_agent id (Some cs) cost load tg md n1 n2 t = (Raise InvalidLoad, t') ∧
        dget t'.(agents) id = Some (set_cost cost (set_capabilities cs r)).
Proof.
  intros Hr Hc Hl. unfold upsert_agent, bindS at 1; simpl. unfold dmem. rewrite Hr.
  rewrite update_agent_run, Hr. simpl. rewrite Hc, Hl. simpl.
  eexists; split; [done|]. by erewrite dget_mutate.
Qed.

Lemma elem_list_agents t h r :
  r ∈ list_agents t h ↔ r ∈ dvalues t.(agents) ∧
    (default t.(default_healthy_only) h = true → r.(healthy) = true).
Proof.
  unfold list_agents. destruct (default _ h).
  - rewrite list_elem_of_filter. rewrite Is_true_true. naive_solver.
  - naive_solver.
Qed.

Lemma elem_dvalues t r :
  table_ok t → r ∈ dvalues t.(agents) ↔ dget t.(agents) r.(agent_id) = Some r.
Proof.
  intros [Hwf Hall]. rewrite <-elem_dget_iff by done. unfold dvalues.
  rewrite list_elem_of_fmap. split; [|by exists (agent_id r, r)].
  intros [[k r'] [-> Hin]]. rewrite Forall_forall in Hall.
  destruct (Hall _ Hin) as [Hid _]. simpl in *. by subst.
Qed.

(** [find_by_capabilities] returns exactly the registered agents (healthy
    ones when health is asked for) that have all the required capabilities,
    or with [require_all=False] at least one of them. *)
Theorem find_by_capabilities_spec t req h all r :
  table_ok t →
  r ∈ find_by_capabilities t req h all ↔
    dget t.(agents) r.(agent_id) = Some r ∧
    (default t.(default_healthy_only) h = true → r.(healthy) = true) ∧
    if all then req ⊆ r.(capabilities) else ∃ c, c ∈ req ∧ c ∈ r.(capabilities).
Proof.
  intros Ht. unfold find_by_capabilities. destruct all;
    rewrite list_elem_of_filter, elem_list_agents, elem_dvalues by done.
  - unfold matches_capabilities. rewrite bool_decide_spec. naive_solver.
  - assert (req ∩ capabilities r ≠ ∅ ↔ ∃ c, c ∈ req ∧ c ∈ capabilities r) as ->;
      [|naive_solver].
    split; [|set_solver]. intros [c Hc]%set_choose_L. exists c. set_solver.
Qed.
End behaviour.

(** ** Witnesses: a table of binary64 records *)
Section witnesses.
#[local] Existing Instance B64.

Definition ex_agent : AgentRecord :=
  mkAgentRecord "a" {["chat"]} (flit 1 100) (flit 1 4) true f0 f0 [] [].

Definition ex_table : RoutingTable := mkTable true [("a", ex_agent)].

Lemma ex_table_ok : table_ok ex_table.
Proof.
  split; [apply NoDup_singleton|].
  apply Forall_singleton. split; [reflexivity|split; vm_compute; reflexivity].
Qed.

Lemma upsert_agent_not_atomic_witness :
  ∃ t', upsert_agent "a" (Some ["code"]) (flit 2 100) (flit 3 2) None None f0 f0 ex_table
          = (Raise InvalidLoad, t') ∧
        dget t'.(agents) "a" = Some (set_cost (flit 2 100) (set_capabilities ["code"] ex_agent)).
Proof.
  apply (upsert_agent_not_atomic ex_table "a" ex_agent); reflexivity.
Defined.

Lemma find_by_capabilities_witness :
  ex_agent ∈ find_by_capabilities ex_table {["chat"]} None true ↔
    dget ex_table.(agents) ex_agent.(agent_id) = Some ex_agent ∧
    (default true None = true → ex_agent.(healthy) = true) ∧
    {["chat"]} ⊆ ex_agent.(capabilities).
Proof.
  exact (find_by_capabilities_spec ex_table {["chat"]} None true ex_agent ex_table_ok).
Defined.
End witnesses.
