(* ===== verification/Strategy.v ===== *)
(** * Routing strategies ([routing/strategy.py])

    [strategy] has one constructor per [RoutingStrategy] class; a
    [RoundRobinRouter] carries its counter, so ranking returns the strategy's
    next state.  [rank_candidates] is the method of that name of each class. *)
From stdpp Require Import base gmap sets list sorting strings.
From Stdlib Require Import ZArith Ascii QArith Lqa Lia.
From S2P Require Import Prelude PyInt PyDict PyFloat PySort Envelope Table.
#[local] Close Scope Q_scope.

(** What ranking can raise: [set(raw)] on an unhashable element (TypeError),
    and [int(...)] on the estimated token count. *)
Inductive RouteError : Type :=
  | UnhashableCapability
  | BadTokenEstimate
  | NoRouteFoundError (strategy_name : string).

Section strategy.
Context {F : PyFloat}.

Inductive strategy : Type :=
  | CapabilityMatchRouter (require_all tie_break_by_load : bool)
  | CostAwareRouter (budget_safety_margin : float)
  | RoundRobinRouter (counter : Z)
  | LeastLoadedRouter (load_ceiling : float)
  | CompositeRouter (strategies : list (strategy * float)).

(** The constructors' checks. *)
Definition new_cost_aware (margin : float) : option strategy :=
  if fleb f0 margin && fltb margin f1 then Some (CostAwareRouter margin) else None.
Definition new_least_loaded (ceiling : float) : option strategy :=
  if fbetween f0 ceiling f1 then Some (LeastLoadedRouter ceiling) else None.
Definition new_composite (ss : list (strategy * float)) : option strategy :=
  match ss with
  | [] => None
  | _ => if existsb (λ sw, fltb sw.2 f0) ss then None else Some (CompositeRouter ss)
  end.

(** [type(strategy).__name__] *)
Definition strategy_name (s : strategy) : string :=
  match s with
  | CapabilityMatchRouter _ _ => "CapabilityMatchRouter"
  | CostAwareRouter _ => "CostAwareRouter"
  | RoundRobinRouter _ => "RoundRobinRouter"
  | LeastLoadedRouter _ => "LeastLoadedRouter"
  | CompositeRouter _ => "CompositeRouter"
  end.

(** [set(raw)]: the strings of the list; [foreign] tells that it also holds
    some other hashable value, which no agent's capability equals. *)
Definition is_str (j : json) : bool := match j with JStr _ => true | _ => false end.
Definition hashable (j : json) : bool :=
  match j with JList _ | JDict _ => false | _ => true end.
Definition strings_of (l : list json) : list string :=
  omap (λ j, match j with JStr s => Some s | _ => None end) l.

Definition required_capabilities (e : MessageEnvelope)
    : result RouteError (gset string * bool) :=
  match dget e.(payload) "required_capabilities" with
  | Some (JList raw) =>
      if forallb hashable raw
      then Ok (list_to_set (strings_of raw), existsb (λ j, negb (is_str j)) raw)
      else Raise UnhashableCapability
  | _ => Ok (∅, false)
  end.

Definition load_lt (a b : AgentRecord) : bool := fltb a.(current_load) b.(current_load).
Definition cost_lt (a b : AgentRecord) : bool := fltb a.(cost_per_token) b.(cost_per_token).
Definition id_lt (a b : AgentRecord) : bool := str_ltb a.(agent_id) b.(agent_id).

Definition healthy_agents (t : RoutingTable) : list AgentRecord := list_agents t (Some true).

Definition rank_capability (require_all tie : bool) (t : RoutingTable)
    (e : MessageEnvelope) : result RouteError (list AgentRecord) :=
  match required_capabilities e with
  | Raise err => Raise err
  | Ok (required, foreign) =>
      let candidates :=
        if bool_decide (required = ∅) && negb foreign then healthy_agents t
        else if require_all && foreign then []
        else find_by_capabilities t required (Some true) require_all in
      Ok (if tie then py_sort load_lt candidates else candidates)
  end.

(** [int(payload.get("estimated_tokens", 1000))] *)
Definition estimated_tokens (e : MessageEnvelope) : result RouteError Z :=
  let r := match dget e.(payload) "estimated_tokens" with
    | None => Some 1000%Z
    | Some (JInt n) => Some n
    | Some (JBool b) => Some (if b then 1 else 0)%Z
    | Some (JFloat x) => ftrunc x
    | Some (JStr s) => py_int s
    | Some _ => None
    end in
  match r with Some n => Ok n | None => Raise BadTokenEstimate end.

Definition within_budget (tokens : Z) (effective : float) (r : AgentRecord) : bool :=
  fleb (fmul r.(cost_per_token) (fofZ tokens)) effective.

Definition rank_cost (margin : float) (t : RoutingTable) (e : MessageEnvelope)
    : result RouteError (list AgentRecord) :=
  let candidates := healthy_agents t in
  match candidates with
  | [] => Ok []
  | _ =>
      match e.(cost_budget_usd) with
      | None => Ok (py_sort cost_lt candidates)
      | Some budget =>
          let effective := fmul budget (fsub f1 margin) in
          match estimated_tokens e with
          | Raise err => Raise err
          | Ok tokens =>
              Ok (py_sort cost_lt (filter (λ r, within_budget tokens effective r) candidates))
          end
      end
  end.


Definition rank_round_robin (counter : Z) (t : RoutingTable) : list AgentRecord * Z :=
  match healthy_agents t with
  | [] => ([], counter)
  | candidates =>
      let sorted := py_sort id_lt candidates in
      let index := Z.modulo counter (Z.of_nat (length sorted)) in
      (rotated (Z.to_nat index) sorted, counter + 1)%Z
  end.

Definition rank_least_loaded (ceiling : float) (t : RoutingTable) : list AgentRecord :=
  py_sort load_lt (filter (λ r, fleb r.(current_load) ceiling) (healthy_agents t)).

(** [scores.get(id, 0.0)] *)
Definition score_of (scores : dict float) (id : string) : float :=
  default f0 (dget scores id).

(** One strategy's ranking added to the scores: the candidate at index [i]
    of [total] gains [(total - i) / total * weight]. *)
Fixpoint add_scores (scores : dict float) (ranked : list AgentRecord) (i total : Z)
    (weight : float) : dict float :=
  match ranked with
  | [] => scores
  | r :: rest =>
      let scores' :=
        match dget scores r.(agent_id) with
        | Some s => dset scores r.(agent_id)
            (fadd s (fmul (fdiv (fofZ (total - i)) (fofZ total)) weight))
        | None => scores
        end in
      add_scores scores' rest (i + 1)%Z total weight
  end.

Definition init_scores (candidates : list AgentRecord) : dict float :=
  fold_left (λ d r, dset d r.(agent_id) f0) candidates [].

Definition by_id (candidates : list AgentRecord) : dict AgentRecord :=
  fold_left (λ d r, dset d r.(agent_id) r) candidates [].

(** [sorted(all_candidates.values(), key=score, reverse=True)] without the
    candidates whose score is not positive. *)
Definition rank_by_score (all : dict AgentRecord) (scores : dict float) : list AgentRecord :=
  let score r := score_of scores r.(agent_id) in
  filter (λ r, fltb f0 (score r)) (py_sort (λ a b, fltb (score b) (score a)) (dvalues all)).

Definition rank_result : Type := result RouteError (list AgentRecord) * strategy.

(** The loop of [CompositeRouter.rank_candidates] over its strategies, given
    the ranking method: an exception leaves the strategies ranked so far in
    their new states. *)
Definition composite_go (rank : strategy → rank_result)
    : list (strategy * float) → dict float →
      result RouteError (dict float) * list (strategy * float) :=
  fix go ss scores :=
    match ss with
    | [] => (Ok scores, [])
    | (s1, w) :: rest =>
        match rank s1 with
        | (Raise err, s1') => (Raise err, (s1', w) :: rest)
        | (Ok ranked, s1') =>
            let total := Z.of_nat (length ranked) in
            let '(r, rest') := go rest (add_scores scores ranked 0 total w) in
            (r, (s1', w) :: rest')
        end
    end.

Fixpoint rank_candidates (s : strategy) (t : RoutingTable) (e : MessageEnvelope)
    {struct s} : rank_result :=
  match s with
  | CapabilityMatchRouter all tie => (rank_capability all tie t e, s)
  | CostAwareRouter margin => (rank_cost margin t e, s)
  | RoundRobinRouter c =>
      let '(l, c') := rank_round_robin c t in (Ok l, RoundRobinRouter c')
  | LeastLoadedRouter ceiling => (Ok (rank_least_loaded ceiling t), s)
  | CompositeRouter ss =>
      match healthy_agents t with
      | [] => (Ok [], s)
      | candidates =>
          let '(r, ss') := composite_go (λ s1, rank_candidates s1 t e) ss
                             (init_scores candidates) in
          (match r with
           | Ok scores => Ok (rank_by_score (by_id candidates) scores)
           | Raise err => Raise err
           end, CompositeRouter ss')
      end
  end.

(** [RoutingStrategy.select]: the head of the ranking, if any. *)
Definition select (s : strategy) (t : RoutingTable) (e : MessageEnvelope)
    : result RouteError (option AgentRecord) * strategy :=
  match rank_candidates s t e with
  | (Ok l, s') => (Ok (head l), s')
  | (Raise err, s') => (Raise err, s')
  end.

(** The agents selected by [n] calls in a row. *)
Fixpoint picks (n : nat) (s : strategy) (t : RoutingTable) (e : MessageEnvelope)
    : list AgentRecord :=
  match n with
  | O => []
  | S n' =>
      match select s t e with
      | (Ok (Some r), s') => r :: picks n' s' t e
      | _ => []
      end
  end.

(** What a ranking promises: distinct agents, all registered and healthy. *)
Definition sound_ranking (t : RoutingTable) (l : list AgentRecord) : Prop :=
  NoDup (agent_id <$> l) ∧
  ∀ r, r ∈ l → dget t.(agents) r.(agent_id) = Some r ∧ r.(healthy) = true.
End strategy.

(** ** Soundness of every ranking *)
Section soundness.
Context {F : PyFloat}.
Implicit Types (t : RoutingTable) (r : AgentRecord) (l : list AgentRecord).

Lemma sound_sublist t l l' : l' `sublist_of` l → sound_ranking t l → sound_ranking t l'.
Proof.
  intros Hs [Hnd Hl]. split.
  - eapply sublist_NoDup; [exact Hnd|]. by apply fmap_sublist.
  - intros r Hr. apply Hl. by eapply elem_of_sublist.
Qed.

Lemma sound_filter t l (P : AgentRecord → Prop) `{∀ r, Decision (P r)} :
  sound_ranking t l → sound_ranking t (filter P l).
Proof. apply sound_sublist, sublist_filter. Qed.

Lemma sound_perm t l l' : l' ≡ₚ l → sound_ranking t l → sound_ranking t l'.
Proof.
  intros Hp [Hnd Hl]. split; [by rewrite Hp|]. intros r. rewrite Hp. apply Hl.
Qed.

Lemma sound_sort t l lt : sound_ranking t l → sound_ranking t (py_sort lt l).
Proof. apply sound_perm, py_sort_perm. Qed.

Lemma sound_nil t : sound_ranking t [].
Proof. split; [constructor|]. intros r Hr. by apply elem_of_nil in Hr. Qed.

Lemma elem_healthy t r : table_ok t →
  r ∈ healthy_agents t ↔ dget t.(agents) r.(agent_id) = Some r ∧ r.(healthy) = true.
Proof.
  intros Ht. unfold healthy_agents. rewrite elem_list_agents, elem_dvalues by done.
  simpl. naive_solver.
Qed.

Lemma healthy_agents_ids t : table_ok t → NoDup (agent_id <$> healthy_agents t).
Proof.
  intros [Hwf Hall]. unfold healthy_agents, list_agents; simpl.
  eapply sublist_NoDup; [exact Hwf|].
  assert (dkeys (agents t) = agent_id <$> dvalues (agents t)) as ->.
  { unfold dkeys, dvalues. rewrite <-list_fmap_compose.
    apply list_fmap_ext. intros i [k r] Hi. rewrite Forall_forall in Hall.
    destruct (Hall (k, r)) as [? _]; [by eapply list_elem_of_lookup_2|done]. }
  apply fmap_sublist, sublist_filter.
Qed.

Lemma healthy_agents_sound t : table_ok t → sound_ranking t (healthy_agents t).
Proof.
  intros Ht. split; [by apply healthy_agents_ids|]. intros r. by apply elem_healthy.
Qed.

Lemma by_id_values t : table_ok t → dvalues (by_id (healthy_agents t)) = healthy_agents t.
Proof.
  intros Ht. unfold by_id.
  rewrite (fold_dset_fresh agent_id (λ r, r)); [|by apply healthy_agents_ids|].
  - unfold dvalues. rewrite app_nil_l, <-list_fmap_compose. apply list_fmap_id.
  - intros r _ Hr. by apply elem_of_nil in Hr.
Qed.

Lemma rank_capability_sound all tie t e l :
  table_ok t → rank_capability all tie t e = Ok l → sound_ranking t l.
Proof.
  intros Ht. unfold rank_capability.
  destruct (required_capabilities e) as [[req foreign]|]; [|done].
  intros [= <-].
  assert (H : sound_ranking t
    (if bool_decide (req = ∅) && negb foreign then healthy_agents t
     else if all && foreign then [] else find_by_capabilities t req (Some true) all)).
  { case_match; [by apply healthy_agents_sound|]. case_match; [apply sound_nil|].
    unfold find_by_capabilities. case_match; apply sound_filter, healthy_agents_sound; done. }
  destruct tie; [by apply sound_sort|done].
Qed.

Lemma rank_cost_sound margin t e l :
  table_ok t → rank_cost margin t e = Ok l → sound_ranking t l.
Proof.
  intros Ht. pose proof (healthy_agents_sound t Ht) as Hs. unfold rank_cost.
  destruct (healthy_agents t) as [|r0 l0] eqn:E; [intros [= <-]; apply sound_nil|].
  rewrite <-E in *. clear E r0 l0. destruct (cost_budget_usd e) as [b|]; [|intros [= <-]; by apply sound_sort].
  destruct (estimated_tokens e); [|done]. intros [= <-].
  by apply sound_sort, sound_filter.
Qed.

Lemma rank_sound s t e l :
  table_ok t → (rank_candidates s t e).1 = Ok l → sound_ranking t l.
Proof.
  intros Ht. pose proof (healthy_agents_sound t Ht) as Hs.
  destruct s as [all tie|margin|c|ceiling|ss]; simpl.
  - by apply rank_capability_sound.
  - by apply rank_cost_sound.
  - unfold rank_round_robin.
    destruct (healthy_agents t) as [|r0 l0] eqn:E; [intros [= <-]; apply sound_nil|].
    rewrite <-E in *. clear E r0 l0. intros [= <-]. eapply sound_perm; [apply rotated_perm|]. by apply sound_sort.
  - intros [= <-]. by apply sound_sort, sound_filter.
  - pose proof (by_id_values t Ht) as Hv.
    destruct (healthy_agents t) as [|r0 l0] eqn:E; [intros [= <-]; apply sound_nil|].
    rewrite <-E in *. clear E r0 l0. destruct (composite_go _ _ _) as [[scores|err] ss'] eqn:G; [|done].
    intros [= <-]. unfold rank_by_score. rewrite Hv. by apply sound_filter, sound_sort.
Qed.

(** C28. Every strategy, alone or inside a composite, only ever ranks
    distinct agents that are registered in the table and healthy. *)
Theorem rank_candidates_sound s t e l :
  table_ok t → (rank_candidates s t e).1 = Ok l →
  NoDup (agent_id <$> l) ∧
  ∀ r, r ∈ l → dget t.(agents) r.(agent_id) = Some r ∧ r.(healthy) = true.
Proof. apply rank_sound. Qed.
End soundness.

(** ** What each strategy ranks *)
Section ranking_facts.
Context {F : PyFloat} {HF : FloatOrder F}.
Implicit Types (t : RoutingTable) (r : AgentRecord).

Lemma rotated_step {A} (i : nat) (l l' : list A) x :
  i < length l → rotated i l = x :: l' →
  rotated (S i mod length l) l = l' ++ [x].
Proof.
  unfold rotated. intros Hi Hr.
  destruct (lookup_lt_is_Some_2 l i Hi) as [y Hy].
  rewrite (drop_S _ _ _ Hy) in Hr. simpl in Hr. injection Hr as -> <-.
  destruct (decide (S i = length l)) as [Hl|Hl].
  - rewrite Hl, Nat.Div0.mod_same. rewrite drop_0, take_0, app_nil_r.
    rewrite <-Hl, drop_ge by lia. simpl.
    rewrite <-(take_S_r _ _ _ Hy). by rewrite firstn_all2 by lia.
  - rewrite Nat.mod_small by lia. rewrite (take_S_r _ _ _ Hy). by rewrite <-app_assoc.
Qed.

Lemma rotated_cons {A} (i : nat) (l : list A) :
  i < length l → ∃ x l', rotated i l = x :: l' ∧ length l = S (length l').
Proof.
  intros Hi. pose proof (Permutation_length (rotated_perm i l)) as Hp.
  destruct (rotated i l) as [|x l'] eqn:E; simpl in *; [lia|]. eauto.
Qed.

Lemma rank_round_robin_ne c t :
  healthy_agents t ≠ [] →
  let sorted := py_sort id_lt (healthy_agents t) in
  rank_round_robin c t =
    (rotated (Z.to_nat (c mod Z.of_nat (length sorted))) sorted, (c + 1)%Z).
Proof. intros Hne. unfold rank_round_robin. by destruct (healthy_agents t). Qed.

Lemma picks_round_robin k c t e :
  let sorted := py_sort id_lt (healthy_agents t) in
  k ≤ length sorted → healthy_agents t ≠ [] →
  picks k (RoundRobinRouter c) t e =
    take k (rotated (Z.to_nat (c mod Z.of_nat (length sorted))) sorted).
Proof.
  intros sorted. revert c. induction k as [|k IH]; intros c Hk Hne; [done|].
  assert (Hlen : (0 < Z.of_nat (length sorted))%Z) by lia.
  pose proof (Z.mod_pos_bound c _ Hlen) as Hb.
  set (i := Z.to_nat (c mod Z.of_nat (length sorted))).
  destruct (rotated_cons i sorted) as (x & l' & Hrot & Hl'); [unfold i; lia|].
  cbn [picks]. unfold select. simpl rank_candidates.
  rewrite rank_round_robin_ne by done. cbv zeta. fold sorted. fold i. rewrite Hrot. simpl head. cbv beta iota.
  rewrite IH by (lia || done). simpl take. f_equal.
  assert (Z.to_nat ((c + 1) mod Z.of_nat (length sorted)) = S i mod length sorted) as ->.
  { unfold i. rewrite <-Z.add_mod_idemp_l by lia.
    apply Nat2Z.inj.
    rewrite Nat2Z.inj_mod, Z2Nat.id by (apply Z.mod_pos_bound; lia). f_equal. lia. }
  rewrite (rotated_step i sorted l' x) by (done || unfold i; lia).
  rewrite take_app_le by lia. done.
Qed.

(** Round robin is fair: whatever the counter, as many selections in a
    row as there are healthy agents select each healthy agent exactly once. *)
Theorem round_robin_fair c t e :
  picks (length (healthy_agents t)) (RoundRobinRouter c) t e ≡ₚ healthy_agents t.
Proof.
  destruct (decide (healthy_agents t = [])) as [E|Hne]; [by rewrite E|].
  assert (Hlen : length (healthy_agents t) = length (py_sort id_lt (healthy_agents t)))
    by (by rewrite length_py_sort).
  rewrite Hlen at 1.
  rewrite picks_round_robin by done.
  rewrite firstn_all2; [by rewrite rotated_perm, py_sort_perm|].
  by rewrite (Permutation_length (rotated_perm _ _)).
Qed.

Lemma load_weak_order : weak_order load_lt (λ r, fnum r.(current_load) = true).
Proof.
  apply (weak_order_key fltb (λ x, fnum x = true) current_load).
  split; eauto using fltb_irrefl, fltb_trans, fltb_negtrans.
Qed.

Lemma cost_weak_order : weak_order cost_lt (λ r, fnum r.(cost_per_token) = true).
Proof.
  apply (weak_order_key fltb (λ x, fnum x = true) cost_per_token).
  split; eauto using fltb_irrefl, fltb_trans, fltb_negtrans.
Qed.

Lemma registered_load_num t r :
  table_ok t → dget t.(agents) r.(agent_id) = Some r → fnum r.(current_load) = true.
Proof.
  intros Ht Hr. destruct (table_ok_lookup _ _ _ Ht Hr) as [_ [Hl _]].
  by eapply fbetween_num.
Qed.

Lemma sound_load_num t l :
  table_ok t → sound_ranking t l → Forall (λ r, fnum r.(current_load) = true) l.
Proof.
  intros Ht [_ Hl]. apply Forall_forall. intros r Hr.
  destruct (Hl r Hr) as [? _]. by eapply registered_load_num.
Qed.

(** The least-loaded ranking is exactly the healthy agents whose load is
    at most the ceiling, least loaded first. *)
Theorem rank_least_loaded_spec ceiling t :
  table_ok t →
  StronglySorted (not_after load_lt) (rank_least_loaded ceiling t) ∧
  ∀ r, r ∈ rank_least_loaded ceiling t ↔
    dget t.(agents) r.(agent_id) = Some r ∧ r.(healthy) = true ∧
    fleb r.(current_load) ceiling = true.
Proof.
  intros Ht. unfold rank_least_loaded. split.
  - eapply py_sort_sorted; [apply load_weak_order|]. eapply sound_load_num; [done|].
    by apply sound_filter, healthy_agents_sound.
  - intros r. rewrite elem_py_sort, list_elem_of_filter, elem_healthy, Is_true_true by done.
    naive_solver.
Qed.

(** The capability ranking over a list of capability names: exactly the
    healthy agents with all (or, without [require_all], some) of the required
    capabilities, in load order when ties are broken by load. *)
Theorem rank_capability_spec all tie t e raw :
  table_ok t →
  dget e.(payload) "required_capabilities" = Some (JList (JStr <$> raw)) → raw ≠ [] →
  ∃ l, rank_capability all tie t e = Ok l ∧
    (tie = true → StronglySorted (not_after load_lt) l) ∧
    ∀ r, r ∈ l ↔
      dget t.(agents) r.(agent_id) = Some r ∧ r.(healthy) = true ∧
      if all then ∀ c, c ∈ raw → c ∈ r.(capabilities)
      else ∃ c, c ∈ raw ∧ c ∈ r.(capabilities).
Proof.
  intros Ht Hp Hne.
  assert (Hreq : required_capabilities e = Ok (list_to_set raw, false)).
  { unfold required_capabilities. rewrite Hp.
    assert (forallb hashable (JStr <$> raw) = true) as ->.
    { clear. by induction raw. }
    assert (existsb (λ j, negb (is_str j)) (JStr <$> raw) = false) as ->.
    { clear. by induction raw. }
    do 3 f_equal. clear. unfold strings_of. induction raw as [|s raw IH]; csimpl; congruence. }
  pose proof (rank_capability_sound all tie t e) as Hsound.
  unfold rank_capability in *. rewrite Hreq in *.
  assert (bool_decide ((list_to_set raw : gset string) = ∅) = false) as Hb.
  { apply bool_decide_eq_false. destruct raw as [|s raw]; [done|]. simpl. set_solver. }
  rewrite Hb, andb_false_l, andb_false_r in *. eexists; split; [done|]. split.
  - intros ->. eapply py_sort_sorted; [apply load_weak_order|].
    specialize (Hsound _ Ht eq_refl). eapply (sound_load_num t); [done|].
    eapply sound_perm; [|exact Hsound]. symmetry. apply py_sort_perm.
  - intros r. transitivity (r ∈ find_by_capabilities t (list_to_set raw) (Some true) all).
    { destruct tie; [apply elem_py_sort|done]. }
    unfold find_by_capabilities. destruct all;
      rewrite list_elem_of_filter, elem_list_agents, elem_dvalues by done; simpl.
    + unfold matches_capabilities. rewrite bool_decide_spec. set_solver.
    + assert ((list_to_set raw : gset string) ∩ capabilities r ≠ ∅ ↔
        ∃ c, c ∈ raw ∧ c ∈ capabilities r) as ->; [|naive_solver].
      split; [intros [c Hc]%set_choose_L; exists c; set_solver|set_solver].
Qed.

(** Under a budget, the cost-aware ranking is exactly the healthy agents
    whose estimated cost fits the budget less its safety margin, cheapest
    first, ties in registration order. *)
Theorem rank_cost_spec margin t e budget tokens :
  table_ok t → e.(cost_budget_usd) = Some budget → estimated_tokens e = Ok tokens →
  (∀ r, r ∈ healthy_agents t → fnum r.(cost_per_token) = true) →
  ∃ l, rank_cost margin t e = Ok l ∧
    StronglySorted (not_after cost_lt) l ∧
    (∀ r, r ∈ l ↔ r ∈ healthy_agents t ∧
       fleb (fmul r.(cost_per_token) (fofZ tokens)) (fmul budget (fsub f1 margin)) = true) ∧
    (∀ k, k ∈ l → filter (λ r, ties cost_lt k r) l =
       filter (λ r, ties cost_lt k r)
         (filter (λ r, within_budget tokens (fmul budget (fsub f1 margin)) r)
            (healthy_agents t))).
Proof.
  intros Ht Hb Htok Hnum. unfold rank_cost. rewrite Hb, Htok.
  set (P r := fnum (cost_per_token r) = true) in *.
  set (cs := filter _ (healthy_agents t)).
  assert (Hcs : Forall P cs).
  { apply Forall_forall. intros r [_ Hr]%list_elem_of_filter. by apply Hnum. }
  assert (match healthy_agents t with [] => Ok [] | _ => Ok (py_sort cost_lt cs) end
          = (Ok (py_sort cost_lt cs) : result RouteError _)) as ->.
  { unfold cs. by destruct (healthy_agents t). }
  eexists; split; [done|]. split_and!.
  - eapply py_sort_sorted; [apply cost_weak_order|done].
  - intros r. unfold cs. rewrite elem_py_sort, list_elem_of_filter, Is_true_true.
    unfold within_budget. naive_solver.
  - intros k Hk. eapply (py_sort_stable _ P); [apply cost_weak_order| |done].
    rewrite Forall_forall in Hcs. apply Hcs. by apply elem_py_sort in Hk.
Qed.
End ranking_facts.

(** ** The composite ranking, in exact arithmetic *)
Section composite.
#[local] Existing Instance QF.
Implicit Types (t : RoutingTable) (r : AgentRecord).

(** Score entries stay non-negative, and become positive exactly for the
    ids in [hit]. *)
Definition lifts (hit : string → Prop) (scores scores' : dict float) : Prop :=
  ∀ id v, dget scores id = Some v → (0 <= v)%Q →
    ∃ v' : Q, dget scores' id = Some v' ∧ (0 <= v')%Q ∧ ((0 < v')%Q ↔ (0 < v)%Q ∨ hit id).

Lemma lifts_trans h1 h2 a b c :
  lifts h1 a b → lifts h2 b c → lifts (λ id, h1 id ∨ h2 id) a c.
Proof.
  intros H1 H2 id v Hv Hpos. destruct (H1 id v Hv Hpos) as (v' & Hv' & Hpos' & Hiff).
  destruct (H2 id v' Hv' Hpos') as (v'' & Hv'' & Hpos'' & Hiff').
  exists v''. split_and!; [done..|]. rewrite Hiff', Hiff. tauto.
Qed.

Lemma lifts_iff h h' a b : (∀ id, h id ↔ h' id) → lifts h a b → lifts h' a b.
Proof.
  intros Hh H id v Hv Hp. destruct (H id v Hv Hp) as (v' & ? & ? & ?).
  exists v'. split_and!; [done..|]. by rewrite <-Hh.
Qed.

Lemma gain_pos (i total : Z) (w : Q) :
  (0 <= i < total)%Z → (0 < w)%Q ↔ (0 < inject_Z (total - i) / inject_Z total * w)%Q.
Proof.
  intros Hi.
  assert (Hg : (0 < inject_Z (total - i) / inject_Z total)%Q).
  { apply Qlt_shift_div_l; rewrite ?Qmult_0_l; change 0%Q with (inject_Z 0);
      rewrite <-Zlt_Qlt; lia. }
  split; intros H.
  - by apply Qmult_lt_0_compat.
  - rewrite <-(Qmult_0_r (inject_Z (total - i) / inject_Z total)) in H.
    by apply Qmult_lt_l in H.
Qed.

Lemma gain_nonneg (i total : Z) (w : Q) :
  (0 <= i < total)%Z → (0 <= w)%Q → (0 <= inject_Z (total - i) / inject_Z total * w)%Q.
Proof.
  intros Hi Hw. apply Qmult_le_0_compat; [|done].
  apply Qle_shift_div_l; rewrite ?Qmult_0_l; change 0%Q with (inject_Z 0);
    rewrite <-?Zlt_Qlt, <-?Zle_Qle; lia.
Qed.

Lemma add_scores_lifts ranked scores (i total : Z) (w : Q) :
  (0 <= i)%Z → (i + Z.of_nat (length ranked) <= total)%Z → (0 <= w)%Q →
  lifts (λ id, (0 < w)%Q ∧ id ∈ agent_id <$> ranked) scores
    (add_scores scores ranked i total w).
Proof.
  revert scores i. induction ranked as [|r ranked IH]; intros scores i Hi Hl Hw.
  { intros id v Hv Hp. exists v. split_and!; [done..|].
    split; [by left|]. intros [?|[_ Hin]]; [done|]. by apply elem_of_nil in Hin. }
  simpl length in Hl. cbn [add_scores].
  apply (lifts_iff (λ id, ((0 < w)%Q ∧ id = agent_id r) ∨
    ((0 < w)%Q ∧ id ∈ agent_id <$> ranked))).
  { intros id. csimpl. rewrite elem_of_cons. tauto. }
  eapply (lifts_trans (λ id, (0 < w)%Q ∧ id = agent_id r)); [|apply IH; [lia..|done]].
  intros id v Hv Hp.
  destruct (dget scores (agent_id r)) as [s|] eqn:Hs.
  - destruct (decide (id = agent_id r)) as [->|Hne].
    + simplify_eq. rewrite dget_set_eq. eexists; split; [done|]. simpl.
      pose proof (gain_nonneg i total w ltac:(lia) Hw).
      pose proof (gain_pos i total w ltac:(lia)) as Hg.
      set (g := (inject_Z (total - i) / inject_Z total * w)%Q) in *.
      split; [lra|]. rewrite Hg. split.
      * intros. destruct (Qlt_le_dec 0 v); [by left|right; split; [lra|done]].
      * intros [?|[? _]]; lra.
    + rewrite dget_set_ne by done. exists v. split_and!; [done..|]. naive_solver.
  - exists v. split_and!; [done..|]. naive_solver.
Qed.

Definition ranked_by (rank : strategy → rank_result) (ss : list (strategy * Q))
    (id : string) : Prop :=
  ∃ s1 w l, (s1, w) ∈ ss ∧ (0 < w)%Q ∧ (rank s1).1 = Ok l ∧ id ∈ agent_id <$> l.

Lemma composite_go_lifts rank (ss : list (strategy * Q)) scores scores' ss' :
  Forall (λ sw, (0 <= sw.2)%Q) ss →
  composite_go rank ss scores = (Ok scores', ss') →
  lifts (ranked_by rank ss) scores scores'.
Proof.
  revert scores ss'. induction ss as [|[s1 w] ss IH]; intros scores ss' Hw Hgo; simpl in Hgo.
  { simplify_eq. intros id v Hv Hp. exists v. split_and!; [done..|].
    split; [by left|]. intros [?|(?&?&?&Hin&_)]; [done|]. by apply elem_of_nil in Hin. }
  apply Forall_cons in Hw as [Hw1 Hw]. simpl in Hw1.
  destruct (rank s1) as [[ranked|err] s1'] eqn:Hr; [|done].
  destruct (composite_go rank ss _) as [r' rest'] eqn:Hrest.
  simplify_eq. specialize (IH _ _ Hw Hrest).
  eapply lifts_iff; [|eapply lifts_trans; [|exact IH]; apply add_scores_lifts; [lia..|done]].
  intros id. unfold ranked_by. split.
  - intros [[? ?]|(s2 & w2 & l2 & ? & ?)].
    + exists s1, w, ranked. rewrite Hr. split_and!; [left|done..].
    + exists s2, w2, l2. split; [by right|done].
  - intros (s2 & w2 & l2 & Hin & Hpos & Hl2 & Hid).
    apply elem_of_cons in Hin as [[= -> ->]|Hin].
    + left. rewrite Hr in Hl2. simpl in Hl2. by simplify_eq.
    + right. exists s2, w2, l2. done.
Qed.

Lemma init_scores_get t r :
  table_ok t → r ∈ healthy_agents t →
  dget (init_scores (healthy_agents t)) r.(agent_id) = Some (0 : Q).
Proof.
  intros Ht Hr. unfold init_scores.
  rewrite (fold_dset_fresh agent_id (λ _, f0)); [|by apply healthy_agents_ids|].
  - rewrite app_nil_l. apply elem_dget.
    + unfold dwf, dkeys. rewrite <-list_fmap_compose. by apply healthy_agents_ids.
    + apply list_elem_of_fmap. by exists r.
  - intros ? _ Hx. by apply elem_of_nil in Hx.
Qed.

(** A composite of strategies with non-negative weights ranks exactly the
    healthy agents that some strategy of positive weight ranks (exact
    arithmetic). *)
Theorem composite_ranks_union t e ss l :
  table_ok t → Forall (λ sw, (0 <= sw.2)%Q) ss →
  (rank_candidates (CompositeRouter ss) t e).1 = Ok l →
  ∀ r, r ∈ l ↔ ∃ s1 w l1,
    (s1, w) ∈ ss ∧ (0 < w)%Q ∧ (rank_candidates s1 t e).1 = Ok l1 ∧ r ∈ l1.
Proof.
  intros Ht Hw Hl r. simpl in Hl.
  assert (Hreg : ∀ s1 l1, (rank_candidates s1 t e).1 = Ok l1 → ∀ r1, r1 ∈ l1 →
    r1 ∈ healthy_agents t ∧ dget (agents t) (agent_id r1) = Some r1).
  { intros s1 l1 Hs1 r1 Hr1. split; [apply elem_healthy; [done|]|];
      by eapply rank_sound. }
  destruct (decide (healthy_agents t = [])) as [E|Hne].
  { rewrite E in Hl. simplify_eq/=. split; [by intros ?%elem_of_nil|].
    intros (s1 & w & l1 & _ & _ & Hs1 & Hr). destruct (Hreg _ _ Hs1 _ Hr) as [Hin _].
    by rewrite E in Hin. }
  pose proof (by_id_values t Ht) as Hv.
  destruct (composite_go (λ s1, rank_candidates s1 t e) ss
    (init_scores (healthy_agents t))) as [[scores|err] ss'] eqn:G;
    destruct (healthy_agents t) as [|r0 l0] eqn:E; try done; rewrite <-E in *; clear E;
    rewrite G in Hl; [|done].
  simpl in Hl. injection Hl as <-. pose proof (composite_go_lifts _ _ _ _ _ Hw G) as Hlift.
  unfold rank_by_score.
  rewrite list_elem_of_filter, elem_py_sort, Hv, Is_true_true.
  split.
  - intros [Hpos Hr]. destruct (Hlift (agent_id r) 0%Q) as (v & Hgv & _ & Hiff);
      [by apply init_scores_get|lra|].
    unfold score_of in Hpos. rewrite Hgv in Hpos. simpl in Hpos. q_simpl.
    apply Hiff in Hpos as [?|(s1 & w & l1 & Hin & Hwp & Hs1 & Hid)]; [lra|].
    exists s1, w, l1. split_and!; [done..|].
    apply list_elem_of_fmap in Hid as (r1 & Hid & Hr1).
    destruct (Hreg _ _ Hs1 _ Hr1) as [_ Hr1d].
    apply elem_healthy in Hr as [Hrd _]; [|done]. rewrite Hid, Hr1d in Hrd. congruence.
  - intros (s1 & w & l1 & Hin & Hwp & Hs1 & Hr1).
    destruct (Hreg _ _ Hs1 _ Hr1) as [Hr _]. split; [|done].
    destruct (Hlift (agent_id r) 0%Q) as (v & Hgv & _ & Hiff);
      [by apply init_scores_get|lra|].
    unfold score_of. rewrite Hgv. simpl. q_simpl. apply Hiff. right.
    exists s1, w, l1. split_and!; [done..|]. by apply list_elem_of_fmap_2.
Qed.
End composite.

(** ** Witnesses *)
Section witnesses.
#[local] Existing Instance B64.

Definition ex_message : MessageEnvelope :=
  mkEnvelope "u" "b"
    [("required_capabilities", JList [JStr "chat"]); ("estimated_tokens", JInt 10)]
    TASK NORMAL None "t" None "m" f0 None (Some (flit 1 2)) [].

Lemma rank_candidates_sound_witness :
  NoDup (agent_id <$> [ex_agent]) ∧
  ∀ r, r ∈ [ex_agent] → dget ex_table.(agents) r.(agent_id) = Some r ∧ r.(healthy) = true.
Proof.
  apply (rank_candidates_sound (RoundRobinRouter 3) ex_table ex_message [ex_agent] ex_table_ok).
  reflexivity.
Defined.

Lemma rank_capability_spec_witness :
  ∃ l, rank_capability true true ex_table ex_message = Ok l ∧
    (true = true → StronglySorted (not_after load_lt) l) ∧
    ∀ r, r ∈ l ↔
      dget ex_table.(agents) r.(agent_id) = Some r ∧ r.(healthy) = true ∧
      ∀ c, c ∈ ["chat"] → c ∈ r.(capabilities).
Proof.
  apply (rank_capability_spec true true ex_table ex_message ["chat"] ex_table_ok);
    [reflexivity|done].
Defined.

Lemma rank_cost_spec_witness :
  ∃ l, rank_cost f0 ex_table ex_message = Ok l ∧
    StronglySorted (not_after cost_lt) l ∧
    (∀ r, r ∈ l ↔ r ∈ healthy_agents ex_table ∧
       fleb (fmul r.(cost_per_token) (fofZ 10)) (fmul (flit 1 2) (fsub f1 f0)) = true) ∧
    (∀ k, k ∈ l → filter (λ r, ties cost_lt k r) l =
       filter (λ r, ties cost_lt k r)
         (filter (λ r, within_budget 10 (fmul (flit 1 2) (fsub f1 f0)) r)
            (healthy_agents ex_table))).
Proof.
  apply (rank_cost_spec f0 ex_table ex_message (flit 1 2) 10 ex_table_ok);
    [reflexivity..|].
  intros r Hr. apply elem_healthy in Hr as [Hr _]; [|exact ex_table_ok].
  revert Hr. simpl. case_decide; [|done]. intros [= <-]. vm_compute. reflexivity.
Defined.
End witnesses.

Section composite_witness.
#[local] Existing Instance QF.

Definition exq_agent : AgentRecord :=
  mkAgentRecord "a" {["chat"]} (1 # 100)%Q (1 # 4)%Q true 0%Q 0%Q [] [].
Definition exq_table : RoutingTable := mkTable true [("a", exq_agent)].
Definition exq_message : MessageEnvelope :=
  mkEnvelope "u" "b" [] TASK NORMAL None "t" None "m" 0%Q None None [].

Lemma exq_table_ok : table_ok exq_table.
Proof.
  split; [apply NoDup_singleton|].
  apply Forall_singleton. split; [reflexivity|split; vm_compute; reflexivity].
Qed.

Definition exq_strategies : list (strategy * float) :=
  [(RoundRobinRouter 0, f1); (LeastLoadedRouter f1, fofZ 2)].

Lemma composite_ranks_union_witness :
  ∀ r, r ∈ [exq_agent] ↔ ∃ s1 w l1,
    (s1, w) ∈ exq_strategies ∧ (0 < w)%Q ∧
    (rank_candidates s1 exq_table exq_message).1 = Ok l1 ∧ r ∈ l1.
Proof.
  apply (composite_ranks_union exq_table exq_message exq_strategies [exq_agent] exq_table_ok).
  - repeat constructor; vm_compute; discriminate.
  - vm_compute. reflexivity.
Defined.
End composite_witness.
