(* ===== verification/Resolver.v ===== *)
(** * The route resolver ([routing/resolver.py])

    [RouteResolver] is written against the [RoutingStrategy] interface; here
    the interface is a type class with its promise as a second class, so the
    resolver's theorems hold for any strategy that keeps the promise, and
    [Strategy]'s instance discharges it for the five classes of the code. *)
From stdpp Require Import base gmap sets list strings.
From Stdlib Require Import ZArith Lia.
From S2P Require Import Prelude PyDict PyFloat PySort Envelope Table Strategy.

(** The abstract base class: [rank_candidates] (which may advance the
    strategy's state) and the class name. *)
Class RoutingStrategy {F : PyFloat} (S : Type) : Type := {
  rank : S → RoutingTable → MessageEnvelope → result RouteError (list AgentRecord) * S;
  class_name : S → string;
}.

(** The promise: whatever a strategy ranks is registered, healthy and distinct. *)
Class RoutingStrategySound {F : PyFloat} (S : Type) `{!RoutingStrategy S} : Prop := {
  rank_promise s t e l : table_ok t → (rank s t e).1 = Ok l → sound_ranking t l;
}.

#[export] Instance strategy_routing {F : PyFloat} : RoutingStrategy strategy := {|
  rank := rank_candidates;
  class_name := strategy_name;
|}.

#[export] Instance strategy_sound {F : PyFloat} : RoutingStrategySound strategy.
Proof. constructor. apply rank_sound. Qed.

Record RoutingResult : Type := mkResult {
  primary_agent_id : option string;
  fallback_agent_ids : list string;
  result_strategy : string;
  candidates_evaluated : nat;
  routed : bool;
}.

Definition all_candidates (r : RoutingResult) : list string :=
  match r.(primary_agent_id) with
  | None => r.(fallback_agent_ids)
  | Some p => p :: r.(fallback_agent_ids)
  end.

Section resolver.
Context {F : PyFloat} {St : Type} `{!RoutingStrategy St}.

Record RouteResolver : Type := mkResolver {
  res_table : RoutingTable;
  res_strategy : St;
  max_fallbacks : Z;
}.

Definition with_strategy (r : RouteResolver) (s : St) : RouteResolver :=
  mkResolver r.(res_table) s r.(max_fallbacks).

(** The fast path: the receiver is named and its agent is healthy. *)
Definition direct_target (t : RoutingTable) (e : MessageEnvelope) : bool :=
  bool_decide (e.(receiver) ≠ "") && bool_decide (e.(receiver) ≠ "*") &&
  match dget t.(agents) e.(receiver) with Some r => r.(healthy) | None => false end.

Definition resolve (r : RouteResolver) (e : MessageEnvelope)
    : result RouteError RoutingResult * RouteResolver :=
  let name := class_name r.(res_strategy) in
  if direct_target r.(res_table) e then
    (Ok (mkResult (Some e.(receiver)) [] ("direct:" +:+ name) 1 true), r)
  else
    match rank r.(res_strategy) r.(res_table) e with
    | (Raise err, s') => (Raise err, with_strategy r s')
    | (Ok [], s') => (Ok (mkResult None [] name 0 false), with_strategy r s')
    | (Ok ((primary :: _) as ranked), s') =>
        let fallbacks := agent_id <$> py_slice ranked 1 (1 + r.(max_fallbacks)) in
        (Ok (mkResult (Some primary.(agent_id)) fallbacks name (length ranked) true),
         with_strategy r s')
    end.

Definition resolve_or_raise (r : RouteResolver) (e : MessageEnvelope)
    : result RouteError RoutingResult * RouteResolver :=
  match resolve r e with
  | (Ok res, r') =>
      if negb res.(routed)
      then (Raise (NoRouteFoundError (class_name r'.(res_strategy))), r')
      else (Ok res, r')
  | (Raise err, r') => (Raise err, r')
  end.
End resolver.
Arguments RouteResolver {F} St.

Section resolver_facts.
Context {F : PyFloat} {St : Type} `{!RoutingStrategy St} `{!RoutingStrategySound St}.
Implicit Types (r : RouteResolver St) (e : MessageEnvelope) (res : RoutingResult).

Definition available (t : RoutingTable) (id : string) : Prop :=
  ∃ a, dget t.(agents) id = Some a ∧ a.(healthy) = true.

Lemma slice_tail {A} (x : A) l n : (0 ≤ n)%Z →
  py_slice (x :: l) 1 (1 + n) = take (Z.to_nat n) l.
Proof.
  intros Hn. unfold py_slice, py_bound. cbn [length].
  destruct (Z.ltb_spec 1 0); [lia|]. destruct (Z.ltb_spec (1 + n) 0); [lia|].
  rewrite (Z.min_l 1) by lia. change (Z.to_nat 1) with 1%nat. simpl drop.
  destruct (Z.le_gt_cases n (Z.of_nat (length l))).
  - f_equal. f_equal. lia.
  - rewrite drop_0, !firstn_all2 by lia. done.
Qed.

Lemma ranked_ids_available t l id :
  sound_ranking t l → id ∈ agent_id <$> l → available t id.
Proof.
  intros [_ Hl] Hid. apply list_elem_of_fmap in Hid as (a & -> & Ha).
  destruct (Hl a Ha). by exists a.
Qed.

Lemma resolve_candidates r e res r' :
  table_ok r.(res_table) → (0 ≤ r.(max_fallbacks))%Z → resolve r e = (Ok res, r') →
  NoDup (all_candidates res) ∧ (∀ id, id ∈ all_candidates res → available r.(res_table) id) ∧
  length res.(fallback_agent_ids) ≤ Z.to_nat r.(max_fallbacks).
Proof.
  intros Ht Hmf. unfold resolve. destruct (direct_target _ _) eqn:Hd.
  { intros [= <- <-]; simpl. split_and!; [apply NoDup_singleton| |lia].
    intros id ->%list_elem_of_singleton. unfold direct_target in Hd. bool_simpl.
    destruct (dget _ _) as [a|] eqn:E; [|done]. by exists a. }
  destruct (rank _ _ _) as [[[|p l]|err] s'] eqn:Hr; [| |done]; intros [= <- <-].
  { split_and!; [constructor|by intros ? ?%elem_of_nil|simpl; lia]. }
  assert (Hs : sound_ranking (res_table r) (p :: l))
    by (eapply rank_promise; [done|by rewrite Hr]).
  cbn [all_candidates primary_agent_id fallback_agent_ids].
  change (agent_id p :: (agent_id <$> py_slice (p :: l) 1 (1 + max_fallbacks r)))
    with (agent_id <$> (p :: py_slice (p :: l) 1 (1 + max_fallbacks r))).
  rewrite slice_tail by done.
  assert (Hsub : sound_ranking (res_table r) (p :: take (Z.to_nat (max_fallbacks r)) l)).
  { eapply sound_sublist; [|exact Hs]. by apply sublist_skip, sublist_take. }
  split_and!; [apply Hsub|by intros id; apply ranked_ids_available|].
  rewrite length_fmap, length_take. lia.
Qed.

(** A resolved route only names registered, healthy agents, without
    repetition, with at most [max_fallbacks] fallbacks; it is marked routed
    exactly when it names a primary agent. *)
Theorem resolve_sound r e res r' :
  table_ok r.(res_table) → (0 ≤ r.(max_fallbacks))%Z → resolve r e = (Ok res, r') →
  NoDup (all_candidates res) ∧
  (∀ id, id ∈ all_candidates res → available r.(res_table) id) ∧
  length res.(fallback_agent_ids) ≤ Z.to_nat r.(max_fallbacks) ∧
  (res.(routed) = true ↔ is_Some res.(primary_agent_id)).
Proof.
  intros Ht Hmf Hres. destruct (resolve_candidates _ _ _ _ Ht Hmf Hres) as (?&?&?).
  split_and!; [done..|]. revert Hres. unfold resolve.
  destruct (direct_target _ _); [by intros [= <- _]|].
  destruct (rank _ _ _) as [[[|p l]|err] s']; intros [= <- _]; simpl; [|done].
  by split; [|intros [? ?]].
Qed.

(** When [resolve_or_raise] finds a named receiver available it is the
    primary agent and the strategy is not consulted; otherwise the primary
    agent is the first of the strategy's ranking, and [NoRouteFoundError] is
    raised exactly when that ranking is empty. *)
Theorem resolve_or_raise_spec r e :
  resolve_or_raise r e =
    if direct_target r.(res_table) e then
      (Ok (mkResult (Some e.(receiver)) []
             ("direct:" +:+ class_name r.(res_strategy)) 1 true), r)
    else let '(ranking, s') := rank r.(res_strategy) r.(res_table) e in
      (match ranking with
       | Raise err => Raise err
       | Ok [] => Raise (NoRouteFoundError (class_name s'))
       | Ok (p :: l) =>
           Ok (mkResult (Some p.(agent_id))
                 (agent_id <$> py_slice (p :: l) 1 (1 + r.(max_fallbacks)))
                 (class_name r.(res_strategy)) (S (length l)) true)
       end, with_strategy r s').
Proof.
  unfold resolve_or_raise, resolve. destruct (direct_target _ _); [done|].
  by destruct (rank _ _ _) as [[[|p l]|err] s'].
Qed.
End resolver_facts.

Section witnesses.
#[local] Existing Instance B64.

Lemma resolve_sound_witness :
  let r := mkResolver ex_table (RoundRobinRouter 0) 3 in
  let res := mkResult (Some "a") [] "RoundRobinRouter" 1 true in
  NoDup (all_candidates res) ∧
  (∀ id, id ∈ all_candidates res → available ex_table id) ∧
  length res.(fallback_agent_ids) ≤ Z.to_nat 3 ∧
  (res.(routed) = true ↔ is_Some res.(primary_agent_id)).
Proof.
  intros r res. apply (resolve_sound r ex_message res (with_strategy r (RoundRobinRouter 1))).
  - exact ex_table_ok.
  - done.
  - reflexivity.
Defined.
End witnesses.
