(* ===== verification/Deadlock.v ===== *)
(** * Deadlock detection ([deadlock/detector.py])

    [DeadlockDetector] keeps a wait-for graph and enumerates its simple cycles
    by an iterative depth-first search.  The search is modelled twice: [dfs_loop]
    is the code's [while stack] loop, with fuel; [dfs] is the same search by
    recursion on the depth left, and is the reference [dfs_loop] is proved equal
    to.  [pops] counts the loop's iterations, so the fuel [detect] gives it is
    exactly enough. *)
From stdpp Require Import base gmap sets list strings relations.
From Stdlib Require Import ZArith Lia.
From S2P Require Import Prelude PyDict PySort.

Record WaitEdge : Type := mkEdge {
  waiter : string;
  holder : string;
  resource_id : string;
}.

Record DeadlockDetector : Type := mkDetector {
  max_cycle_length : Z;
  graph : dict (gset string);
  edges : list WaitEdge;
}.

Record DeadlockResult : Type := mkDeadlockResult {
  cycles : list (list string);
  node_count : nat;
  edge_count : nat;
}.

Definition has_deadlock (r : DeadlockResult) : bool := bool_decide (0 < length r.(cycles)).
Definition cycle_count (r : DeadlockResult) : nat := length r.(cycles).

Inductive DetectorError : Type :=
  | BadMaxLength          (* ValueError of the constructor *)
  | SelfLoop (agent : string).

Definition new_detector (max_len : Z) : result DetectorError DeadlockDetector :=
  if (max_len <? 2)%Z then Raise BadMaxLength else Ok (mkDetector max_len [] []).

(** ** Graph construction *)

(** [if a not in graph: graph[a] = set()] *)
Definition ensure_node (g : dict (gset string)) (a : string) : dict (gset string) :=
  if dmem g a then g else dset g a ∅.

(** [graph[a]] for a node that is present. *)
Definition neighbors (g : dict (gset string)) (a : string) : gset string :=
  default ∅ (dget g a).

Definition add_wait (w h res : string) (d : DeadlockDetector)
    : result DetectorError unit * DeadlockDetector :=
  if bool_decide (w = h) then (Raise (SelfLoop w), d)
  else
    let g := ensure_node (ensure_node d.(graph) w) h in
    let g := dset g w ({[h]} ∪ neighbors g w) in
    (Ok tt, mkDetector d.(max_cycle_length) g (d.(edges) ++ [mkEdge w h res])).

Definition remove_wait (w h : string) (d : DeadlockDetector) : bool * DeadlockDetector :=
  if negb (dmem d.(graph) w) then (false, d)
  else if negb (bool_decide (h ∈ neighbors d.(graph) w)) then (false, d)
  else
    (true, mkDetector d.(max_cycle_length)
             (dset d.(graph) w (neighbors d.(graph) w ∖ {[h]}))
             (filter (λ e, ¬ (e.(waiter) = w ∧ e.(holder) = h)) d.(edges))).

Definition clear_agent (a : string) (d : DeadlockDetector) : DeadlockDetector :=
  mkDetector d.(max_cycle_length)
    (dmap (λ ns, ns ∖ {[a]}) (ddel d.(graph) a))
    (filter (λ e, e.(waiter) ≠ a ∧ e.(holder) ≠ a) d.(edges)).

Definition clear (d : DeadlockDetector) : DeadlockDetector :=
  mkDetector d.(max_cycle_length) [] [].

Definition det_agents (d : DeadlockDetector) : list string :=
  py_sort str_ltb (dkeys d.(graph)).

(** ** Detection *)

(** A stack entry: current node, path so far, nodes on the path. *)
Record entry : Type := mkEntry {
  current : string;
  path : list string;
  visited : gset string;
}.

Section search.
Context (g : dict (list string)) (max_len : Z) (start : string).

(** One pop: the cycles it yields and the entries it pushes, in push order. *)
Definition yields (e : entry) (ns : list string) : list (list string) :=
  (λ _, e.(path) ++ [start]) <$> filter (λ n, n = start ∧ 2 ≤ length e.(path)) ns.

Definition pushes (e : entry) (ns : list string) : list entry :=
  (λ n, mkEntry n (e.(path) ++ [n]) (e.(visited) ∪ {[n]})) <$>
    filter (λ n, ¬ (n = start ∧ 2 ≤ length e.(path)) ∧
                 (n ∉ e.(visited)) ∧ str_ltb start n = true) ns.

Definition visit (e : entry) : list (list string) * list entry :=
  if (max_len <? Z.of_nat (length e.(path)))%Z then ([], [])
  else let ns := default [] (dget g e.(current)) in (yields e ns, pushes e ns).

(** The [while stack] loop: the list's head is the top of the stack, so the
    entries pushed last are popped first. *)
Fixpoint dfs_loop (fuel : nat) (stack : list entry) (found : list (list string))
    : option (list (list string)) :=
  match fuel with
  | O => None
  | S fuel' =>
      match stack with
      | [] => Some found
      | e :: stack' =>
          let '(cs, ps) := visit e in
          dfs_loop fuel' (reverse ps ++ stack') (found ++ cs)
      end
  end.

(** The same search by recursion, [depth] levels below an entry. *)
Fixpoint dfs (depth : nat) (e : entry) : list (list string) :=
  match depth with
  | O => []
  | S depth' =>
      let '(cs, ps) := visit e in cs ++ mjoin (dfs depth' <$> reverse ps)
  end.

(** How many pops the search below an entry takes. *)
Fixpoint pops (depth : nat) (e : entry) : nat :=
  match depth with
  | O => 1
  | S depth' => S (sum_list (pops depth' <$> reverse (visit e).2))
  end.

Definition initial : entry := mkEntry start [start] {[start]}.
Definition depth0 : nat := S (Z.to_nat max_len).
End search.

Definition find_from (g : dict (list string)) (max_len : Z) (start : string)
    : list (list string) :=
  default [] (dfs_loop g max_len start
    (S (pops g max_len start (depth0 max_len) (initial start))) [initial start] []).

Definition _find_all_cycles (g : dict (list string)) (max_len : Z) : list (list string) :=
  mjoin (find_from g max_len <$> dkeys g).

(** [path.index(x)] for an [x] that occurs. *)
Definition index_of (x : string) (l : list string) : nat :=
  default 0 (fst <$> list_find (λ y, y = x) l).

Definition _canonical_cycle (c : list string) : list string :=
  match removelast c with
  | [] => c
  | x :: p' =>
      let min_idx := index_of (py_min_from str_ltb x p') (x :: p') in
      let rotated := drop min_idx (x :: p') ++ take min_idx (x :: p') in
      rotated ++ take 1 rotated
  end.

(** The loop over [cycles] with its [seen] set and [result] list. *)
Definition _deduplicate_cycles (cs : list (list string)) : list (list string) :=
  (fold_left (λ (acc : gset (list string) * list (list string)) c,
     let canonical := _canonical_cycle c in
     if bool_decide (canonical ∈ acc.1) then acc
     else ({[canonical]} ∪ acc.1, acc.2 ++ [canonical])) cs (∅, [])).2.

Definition graph_snapshot (d : DeadlockDetector) : dict (list string) :=
  dmap (λ ns : gset string, py_sort str_ltb (elements ns)) d.(graph).

Definition detect (d : DeadlockDetector) : DeadlockResult :=
  let snap := graph_snapshot d in
  mkDeadlockResult
    (_deduplicate_cycles (_find_all_cycles snap d.(max_cycle_length)))
    (length snap)
    (sum_list (length <$> dvalues snap)).

(** ** Walks and elementary cycles, the specification *)
Section walks.
Context {A : Type} (E : A → A → Prop).

(** From [x] along [l], every step an edge. *)
Fixpoint walk (x : A) (l : list A) : Prop :=
  match l with
  | [] => True
  | y :: l' => E x y ∧ walk y l'
  end.

(** [x :: p] is an elementary cycle: at least two nodes, no node twice, every
    node waits for the next and the last for the first. *)
Definition elementary (x : A) (p : list A) : Prop :=
  p ≠ [] ∧ NoDup (x :: p) ∧ walk x (p ++ [x]).
End walks.

(** [a] waits for [b]. *)
Definition waits (g : dict (gset string)) (a b : string) : Prop := b ∈ neighbors g a.

(** Every state-changing method, as a command. *)
Inductive det_op : Type :=
  | OpAdd (w h res : string)
  | OpRemove (w h : string)
  | OpClearAgent (a : string)
  | OpClear.

Definition run_det_op (o : det_op) (d : DeadlockDetector) : DeadlockDetector :=
  match o with
  | OpAdd w h res => (add_wait w h res d).2
  | OpRemove w h => (remove_wait w h d).2
  | OpClearAgent a => clear_agent a d
  | OpClear => clear d
  end.

(** The adjacency sets and the edge list describe the same graph, both ends
    of an edge are nodes, and no agent waits for itself. *)
Definition detector_ok (d : DeadlockDetector) : Prop :=
  dwf d.(graph) ∧ (2 ≤ d.(max_cycle_length))%Z ∧
  (∀ a b, waits d.(graph) a b ↔ ∃ e, e ∈ d.(edges) ∧ e.(waiter) = a ∧ e.(holder) = b) ∧
  (∀ a b, waits d.(graph) a b → a ∈ dkeys d.(graph) ∧ b ∈ dkeys d.(graph) ∧ a ≠ b).

(** ** The loop terminates and equals the recursive search *)
Section loop.
Context (g : dict (list string)) (max_len : Z) (start : string).
Implicit Types (e : entry).

(** [n] levels are enough below [e]: its path cannot grow past the bound. *)
Definition deep_enough (n : nat) (e : entry) : Prop :=
  (max_len < Z.of_nat (length e.(path)) + Z.of_nat n)%Z.

Lemma pushes_deeper n e :
  deep_enough (S n) e → Forall (deep_enough n) (reverse (visit g max_len start e).2).
Proof.
  intros Hd. rewrite Forall_reverse. unfold visit. case_match; [constructor|]. simpl.
  apply Forall_forall. intros e' He'. unfold pushes in He'.
  apply list_elem_of_fmap in He' as (n' & -> & _).
  unfold deep_enough in *; simpl. rewrite length_app. simpl. lia.
Qed.

Lemma visit_too_long e :
  (max_len < Z.of_nat (length e.(path)))%Z → visit g max_len start e = ([], []).
Proof. intros H. unfold visit. by rewrite (proj2 (Z.ltb_lt _ _) H). Qed.

Lemma dfs_loop_run n e rest found fuel :
  deep_enough n e →
  dfs_loop g max_len start (pops g max_len start n e + fuel) (e :: rest) found =
    dfs_loop g max_len start fuel rest (found ++ dfs g max_len start n e).
Proof.
  revert e rest found fuel. induction n as [|n IH]; intros e rest found fuel Hd.
  { simpl. rewrite visit_too_long by (unfold deep_enough in Hd; lia).
    simpl. done. }
  cbn [pops dfs]. rewrite Nat.add_succ_l. cbn [dfs_loop].
  pose proof (pushes_deeper _ _ Hd) as Hps.
  destruct (visit g max_len start e) as [cs ps]. simpl in Hps |- *.
  rewrite (app_assoc found). generalize (found ++ cs). clear found cs Hd.
  induction Hps as [|e' ps' He' _ IHps]; intros found; simpl.
  { by rewrite app_nil_r. }
  rewrite <-Nat.add_assoc, IH by done. rewrite IHps. by rewrite <-app_assoc.
Qed.

(** The fuel [find_from] computes is enough, and no larger amount changes the result. *)
Lemma dfs_loop_initial extra :
  dfs_loop g max_len start
    (S (pops g max_len start (depth0 max_len) (initial start)) + extra) [initial start] []
  = Some (dfs g max_len start (depth0 max_len) (initial start)).
Proof.
  rewrite Nat.add_succ_l, <-Nat.add_succ_r, dfs_loop_run; [done|].
  unfold deep_enough, depth0. simpl. lia.
Qed.

Lemma find_from_dfs :
  find_from g max_len start = dfs g max_len start (depth0 max_len) (initial start).
Proof.
  unfold find_from. pose proof (dfs_loop_initial 0) as H. rewrite Nat.add_0_r in H.
  by rewrite H.
Qed.
End loop.

(** C37. The search loop terminates: for any graph, any bound and any start node
    there is a number of iterations after which the stack is empty, and running
    it with more fuel gives the same cycles. *)
Theorem dfs_loop_terminates g max_len start :
  ∃ fuel cs, ∀ extra,
    dfs_loop g max_len start (fuel + extra) [initial start] [] = Some cs.
Proof. eexists _, _. intros extra. apply dfs_loop_initial. Qed.

(** ** Walks *)
Section walk_facts.
Context {A : Type} (E : A → A → Prop).

Lemma walk_app x l1 y l2 :
  walk E x (l1 ++ y :: l2) ↔ walk E x (l1 ++ [y]) ∧ walk E y l2.
Proof. revert x. induction l1 as [|z l1 IH]; intros x; simpl; [tauto|]. rewrite IH. tauto. Qed.

Lemma walk_snoc x l y :
  walk E x (l ++ [y]) ↔ walk E x l ∧ E (default x (last l)) y.
Proof.
  revert x. induction l as [|z l IH]; intros x; simpl; [tauto|].
  rewrite IH, last_cons. destruct (last l); simpl; tauto.
Qed.

Lemma walk_tc x l y : walk E x (l ++ [y]) → tc E x y.
Proof.
  revert x. induction l as [|z l IH]; intros x; simpl; intros [Hxy Hw].
  - by apply tc_once.
  - eapply tc_l; eauto.
Qed.

Lemma tc_walk x y : tc E x y → ∃ l, walk E x (l ++ [y]).
Proof.
  induction 1 as [x y Hxy|x y z Hxy _ [l Hl]].
  - by exists [].
  - by exists (y :: l).
Qed.

(** A closed walk contains an elementary cycle, when nothing waits for itself. *)
Lemma closed_walk_elementary {EqA : EqDecision A} x p :
  (∀ a, ¬ E a a) → walk E x (p ++ [x]) → ∃ y q, elementary E y q.
Proof.
  intros Hirr. remember (length p) as n eqn:Hn. revert x p Hn.
  induction (lt_wf n) as [n _ IH]. intros x p -> Hw.
  destruct (decide (NoDup (x :: p))) as [Hnd|Hdup].
  { exists x, p. split; [|done]. intros ->. simpl in Hw. by destruct Hw as [?%Hirr _]. }
  assert (∃ l1 y l2 l3, x :: p = l1 ++ y :: l2 ++ y :: l3) as (l1 & y & l2 & l3 & Heq).
  { clear -Hdup EqA. induction (x :: p) as [|z l IHl]; [destruct Hdup; constructor|].
    destruct (decide (z ∈ l)) as [Hz|Hz].
    - apply list_elem_of_split in Hz as (l2 & l3 & ->). by exists [], z, l2, l3.
    - destruct IHl as (l1 & y & l2 & l3 & ->).
      { intros Hnd. apply Hdup. by constructor. }
      by exists (z :: l1), y, l2, l3. }
  assert (Hy : walk E y (l2 ++ [y])).
  { destruct l1 as [|z l1]; simplify_eq/=.
    - rewrite <-app_assoc in Hw. simpl in Hw. by apply walk_app in Hw as [? _].
    - rewrite <-app_assoc in Hw. simpl in Hw. apply walk_app in Hw as [_ Hw].
      rewrite <-app_assoc in Hw. simpl in Hw. by apply walk_app in Hw as [? _]. }
  refine (IH (length l2) _ y l2 eq_refl Hy).
  apply (f_equal length) in Heq. simpl in Heq. rewrite !length_app in Heq. simpl in Heq.
  rewrite length_app in Heq. simpl in Heq. lia.
Qed.

(** Any node of an elementary cycle can be made its first. *)
Lemma elementary_rotate x p1 y p2 :
  elementary E x (p1 ++ y :: p2) → elementary E y (p2 ++ x :: p1).
Proof.
  intros (_ & Hnd & Hw). split_and!; [by destruct p2| |].
  - eapply NoDup_Permutation_proper; [|exact Hnd]. simpl.
    rewrite <-Permutation_middle, (Permutation_app_comm p2). rewrite <-Permutation_middle.
    apply Permutation_swap.
  - rewrite <-app_assoc in Hw |- *. simpl in *.
    apply walk_app in Hw as [??]. by apply walk_app.
Qed.
End walk_facts.

(** ** The search finds exactly the elementary cycles through larger nodes *)
Section search_spec.
Context (g : dict (list string)) (max_len : Z) (start : string).

Definition succ (a b : string) : Prop := b ∈ default [] (dget g a).

(** The cycles the search from [start] is after: [start :: q], every other
    node larger than [start], at most [max_len] nodes. *)
Definition ring (q : list string) : Prop :=
  elementary succ start q ∧ Forall (λ y, str_ltb start y = true) q ∧
  (Z.of_nat (S (length q)) ≤ max_len)%Z.

Definition entry_of (q : list string) : entry :=
  mkEntry (default start (last q)) (start :: q) (list_to_set (start :: q)).

Definition partial (q : list string) : Prop :=
  NoDup (start :: q) ∧ walk succ start q ∧ Forall (λ y, str_ltb start y = true) q.

Lemma entry_of_snoc q n :
  mkEntry n (path (entry_of q) ++ [n]) (visited (entry_of q) ∪ {[n]}) = entry_of (q ++ [n]).
Proof.
  unfold entry_of. simpl. rewrite last_snoc. f_equal.
  apply set_eq. intros z. set_solver.
Qed.

Lemma ring_partial q q' : ring (q ++ q') → partial q.
Proof.
  intros ((_ & Hnd & Hw) & Hs & _). split_and!.
  - rewrite app_comm_cons in Hnd. by apply NoDup_app in Hnd as [? _].
  - rewrite <-app_assoc in Hw. destruct (q' ++ [start]) as [|y l] eqn:E.
    + by destruct q'.
    + apply walk_app in Hw as [Hw _]. by apply walk_snoc in Hw as [? _].
  - by apply Forall_app in Hs as [? _].
Qed.

(** The nodes the loop pushes from [q] are the legal one-node extensions. *)
Lemma pushes_spec q e' :
  e' ∈ pushes start (entry_of q) (default [] (dget g (current (entry_of q)))) ↔
  ∃ n, e' = entry_of (q ++ [n]) ∧ succ (default start (last q)) n ∧
       (n ∉ start :: q) ∧ str_ltb start n = true.
Proof.
  unfold pushes. rewrite list_elem_of_fmap. split.
  - intros (n & -> & Hn). apply list_elem_of_filter in Hn as [(_ & Hv & Hlt) Hn].
    exists n. rewrite entry_of_snoc. split_and!; [done|exact Hn| |done].
    revert Hv. simpl. set_solver.
  - intros (n & -> & Hn & Hv & Hlt). exists n. rewrite entry_of_snoc. split; [done|].
    apply list_elem_of_filter. split_and!; [|simpl; set_solver|done|exact Hn].
    intros [-> _]. by rewrite str_ltb_irrefl in Hlt.
Qed.

Lemma yields_spec q c :
  c ∈ yields start (entry_of q) (default [] (dget g (current (entry_of q)))) ↔
  c = start :: q ++ [start] ∧ succ (default start (last q)) start ∧ q ≠ [].
Proof.
  unfold yields. rewrite list_elem_of_fmap. split.
  - intros (n & -> & Hn). apply list_elem_of_filter in Hn as [[-> Hl] Hn].
    split_and!; [done|exact Hn|]. intros ->. simpl in Hl. lia.
  - intros (-> & Hs & Hq). exists start. split; [done|].
    apply list_elem_of_filter. split; [|exact Hs].
    split; [done|]. simpl. destruct q; [done|simpl; lia].
Qed.

Lemma partial_snoc q n :
  partial q → succ (default start (last q)) n → n ∉ start :: q →
  str_ltb start n = true → partial (q ++ [n]).
Proof.
  intros (Hnd & Hw & Hs) Hn Hv Hlt. split_and!.
  - rewrite app_comm_cons. apply NoDup_app. split_and!; [done| |apply NoDup_singleton].
    intros z Hz ->%list_elem_of_singleton. done.
  - by apply walk_snoc.
  - apply Forall_app. split; [done|]. by apply Forall_singleton.
Qed.

Lemma ring_nil q : (Z.of_nat (S (length q)) ≤ max_len)%Z → partial q →
  ring q ↔ succ (default start (last q)) start ∧ q ≠ [].
Proof.
  intros Hl (Hnd & Hw & Hs). unfold ring, elementary. rewrite walk_snoc. tauto.
Qed.

Lemma elem_dfs_S n q c :
  (Z.of_nat (S (length q)) ≤ max_len)%Z →
  c ∈ dfs g max_len start (S n) (entry_of q) ↔
    (c = start :: q ++ [start] ∧ succ (default start (last q)) start ∧ q ≠ []) ∨
    ∃ m, succ (default start (last q)) m ∧ (m ∉ start :: q) ∧ str_ltb start m = true ∧
         c ∈ dfs g max_len start n (entry_of (q ++ [m])).
Proof.
  intros Hl. cbn [dfs]. unfold visit.
  destruct (Z.ltb_spec max_len (Z.of_nat (length (path (entry_of q))))) as [Hlt|_];
    [simpl in Hlt; lia|].
  rewrite elem_of_app, yields_spec, list_elem_of_join. f_equiv. split.
  - intros (l & Hc & Hl'). apply list_elem_of_fmap in Hl' as (e' & -> & He').
    rewrite elem_of_reverse in He'. apply pushes_spec in He' as (m & -> & ? & ? & ?).
    by exists m.
  - intros (m & ? & ? & ? & Hc). eexists; split; [exact Hc|].
    apply list_elem_of_fmap_2. rewrite elem_of_reverse. apply pushes_spec. by exists m.
Qed.

Lemma dfs_spec n q c :
  deep_enough max_len n (entry_of q) → partial q →
  c ∈ dfs g max_len start n (entry_of q) ↔
    ∃ q', c = start :: (q ++ q') ++ [start] ∧ ring (q ++ q').
Proof.
  revert q. induction n as [|n IH]; intros q Hd Hp.
  { split; [by intros ?%elem_of_nil|]. intros (q' & _ & _ & _ & Hl). exfalso.
    unfold deep_enough in Hd. simpl in Hd. rewrite length_app in Hl. lia. }
  destruct (Z.le_gt_cases (Z.of_nat (S (length q))) max_len) as [Hl|Hl].
  2:{ cbn [dfs]. rewrite visit_too_long by (simpl; lia). simpl.
      split; [by intros ?%elem_of_nil|]. intros (q' & _ & _ & _ & Hl'). exfalso.
      rewrite length_app in Hl'. lia. }
  rewrite elem_dfs_S by done. split.
  - intros [[-> Hr]|(m & Hm & Hv & Hlt & Hc)].
    + exists []. rewrite app_nil_r. split; [done|]. by apply ring_nil.
    + apply IH in Hc as (q' & -> & Hr); [|unfold deep_enough in *; simpl in *;
        rewrite length_app; simpl; lia|by apply partial_snoc].
      exists (m :: q'). rewrite <-!app_assoc in *. done.
  - intros ([|m q'] & -> & Hr).
    + left. rewrite app_nil_r in *. split; [done|]. by apply ring_nil.
    + right. exists m. assert (Hpm : partial (q ++ [m])).
      { apply (ring_partial _ q'). by rewrite <-app_assoc. }
      destruct Hpm as (Hnd & Hw & Hs). split_and!.
      * by apply walk_snoc in Hw as [_ ?].
      * rewrite app_comm_cons in Hnd. apply NoDup_app in Hnd as (_ & Hnd & _).
        intros Hin. apply (Hnd m Hin). left.
      * apply Forall_app in Hs as [_ Hs]. exact (proj1 (Forall_singleton _ _) Hs).
      * apply IH; [unfold deep_enough in *; simpl in *; rewrite length_app; simpl; lia|done|].
        exists q'. rewrite <-!app_assoc. done.
Qed.

Lemma find_from_spec c :
  c ∈ find_from g max_len start ↔ ∃ q, c = start :: q ++ [start] ∧ ring q.
Proof.
  rewrite find_from_dfs.
  assert (initial start = entry_of []) as ->.
  { unfold initial, entry_of. simpl. f_equal. by rewrite union_empty_r_L. }
  rewrite dfs_spec; [done| |].
  - unfold deep_enough, depth0. simpl. lia.
  - split_and!; [apply NoDup_singleton|done|constructor].
Qed.
End search_spec.

Lemma find_all_spec g max_len c :
  c ∈ _find_all_cycles g max_len ↔
    ∃ start q, start ∈ dkeys g ∧ c = start :: q ++ [start] ∧ ring g max_len start q.
Proof.
  unfold _find_all_cycles. rewrite list_elem_of_join. split.
  - intros (l & Hc & Hl). apply list_elem_of_fmap in Hl as (s & -> & Hs).
    apply find_from_spec in Hc as (q & -> & Hq). by exists s, q.
  - intros (s & q & Hs & -> & Hq). eexists; split; [|by apply list_elem_of_fmap_2].
    apply find_from_spec. by exists q.
Qed.

(** ** Canonical form and duplicates *)
Lemma py_min_smallest x l :
  Forall (λ y, str_ltb x y = true) l → py_min_from str_ltb x l = x.
Proof.
  unfold py_min_from. induction 1 as [|y l Hy _ IH]; simpl; [done|].
  destruct (str_ltb y x) eqn:E; [|done].
  pose proof (str_ltb_trans _ _ _ Hy E) as H. by rewrite str_ltb_irrefl in H.
Qed.

Lemma canonical_split x p i m :
  list_find (λ y, y = m) (x :: p) = Some (i, m) →
  m = py_min_from str_ltb x p →
  _canonical_cycle (x :: p ++ [x]) = (drop i (x :: p) ++ take i (x :: p)) ++ [m].
Proof.
  intros Hf Hm. unfold _canonical_cycle. rewrite app_comm_cons, removelast_last.
  unfold index_of. rewrite <-Hm, Hf. cbn [fmap option_fmap option_map fst from_option id].
  apply list_find_Some in Hf as (Hi & _ & _). by rewrite (drop_S _ _ _ Hi).
Qed.

Lemma canonical_id x p :
  Forall (λ y, str_ltb x y = true) p → _canonical_cycle (x :: p ++ [x]) = x :: p ++ [x].
Proof.
  intros Hx. erewrite (canonical_split x p 0 x).
  - by rewrite app_nil_r.
  - simpl. by rewrite decide_True.
  - by rewrite py_min_smallest.
Qed.

(** The canonical form of an elementary cycle is the same cycle from its
    smallest node. *)
Lemma canonical_elementary (E : string → string → Prop) x p :
  elementary E x p →
  ∃ y q, _canonical_cycle (x :: p ++ [x]) = y :: q ++ [y] ∧ elementary E y q ∧
         Forall (λ z, str_ltb y z = true) q ∧ length q = length p.
Proof.
  intros Hel. pose proof Hel as (_ & Hnd & _).
  destruct (py_min_from_spec str_ltb (λ _, True) str_weak_order x p I) as [Hin Hmin];
    [by apply Forall_true|].
  remember (py_min_from str_ltb x p) as m eqn:Hm.
  destruct (list_find_elem_of (λ y, y = m) (x :: p) m Hin eq_refl) as [[i m'] Hf].
  pose proof Hf as Hf'. apply list_find_Some in Hf' as (Hi & -> & _).
  rewrite (canonical_split x p i m Hf Hm).
  pose proof (take_drop_middle _ _ _ Hi) as Hsplit. rewrite (drop_S _ _ _ Hi).
  assert (Hlt : ∀ z, z ∈ x :: p → z ≠ m → str_ltb m z = true).
  { intros z Hz Hne. destruct (str_ltb_total m z) as [?|[?|H]]; [done|congruence|].
    by rewrite Hmin in H. }
  exists m, (drop (S i) (x :: p) ++ take i (x :: p)). split; [done|].
  clear Hf Hm Hmin. revert Hsplit. generalize (drop (S i) (x :: p)) as l2, (take i (x :: p)) as l1.
  intros l2 l1 Hsplit. rewrite <-Hsplit in Hnd, Hlt.
  assert (Hlen : length (l2 ++ l1) = length p).
  { apply (f_equal length) in Hsplit. rewrite length_app in *. simpl in Hsplit. lia. }
  split_and!; [| |done].
  - destruct l1 as [|x' l1]; simpl in Hsplit; injection Hsplit as -> Hp; subst p; [by rewrite app_nil_r|].
    by apply elementary_rotate.
  - apply NoDup_app in Hnd as (_ & Hd & Hnd2). apply NoDup_cons in Hnd2 as [Hm2 _].
    apply Forall_forall. intros z Hz. apply Hlt.
    + apply elem_of_app in Hz. rewrite elem_of_app, elem_of_cons. tauto.
    + intros ->. apply elem_of_app in Hz as [?|Hz]; [done|]. apply (Hd m Hz). left.
Qed.

Lemma dedup_fold cs acc :
  NoDup acc.2 → acc.1 = list_to_set acc.2 →
  let acc' := fold_left (λ (acc : gset (list string) * list (list string)) c,
     let canonical := _canonical_cycle c in
     if bool_decide (canonical ∈ acc.1) then acc
     else ({[canonical]} ∪ acc.1, acc.2 ++ [canonical])) cs acc in
  NoDup acc'.2 ∧ ∀ c, c ∈ acc'.2 ↔ c ∈ acc.2 ∨ c ∈ _canonical_cycle <$> cs.
Proof.
  revert acc. induction cs as [|c0 cs IH]; intros [seen res] Hnd Hseen; csimpl in *.
  { split; [done|]. intros c. rewrite elem_of_nil. tauto. }
  case_bool_decide as Hin.
  - destruct (IH (seen, res) Hnd Hseen) as [? Hc]. split; [done|]. intros c.
    rewrite Hc, elem_of_cons. simpl. rewrite Hseen, elem_of_list_to_set in Hin. naive_solver.
  - edestruct (IH ({[_canonical_cycle c0]} ∪ seen, res ++ [_canonical_cycle c0])) as [? Hc].
    + simpl. apply NoDup_app. split_and!; [done| |apply NoDup_singleton].
      intros z Hz ->%list_elem_of_singleton. apply Hin. rewrite Hseen. set_solver.
    + simpl. rewrite Hseen. set_solver.
    + split; [done|]. intros c. rewrite Hc. simpl.
      rewrite elem_of_app, list_elem_of_singleton, elem_of_cons. tauto.
Qed.

Lemma dedup_spec cs :
  NoDup (_deduplicate_cycles cs) ∧
  ∀ c, c ∈ _deduplicate_cycles cs ↔ c ∈ _canonical_cycle <$> cs.
Proof.
  destruct (dedup_fold cs (∅, [])) as [Hnd Hc]; [constructor|done|].
  split; [exact Hnd|]. intros c. unfold _deduplicate_cycles. rewrite Hc, elem_of_nil. tauto.
Qed.

(** ** The detector *)
Lemma succ_snapshot d a b : succ (graph_snapshot d) a b ↔ waits d.(graph) a b.
Proof.
  unfold succ, waits, neighbors, graph_snapshot. rewrite dget_map.
  destruct (dget (graph d) a) as [ns|]; simpl; [|set_solver].
  by rewrite elem_py_sort, elem_of_elements.
Qed.

Lemma walk_iff {A} (E E' : A → A → Prop) x l :
  (∀ a b, E a b ↔ E' a b) → walk E x l ↔ walk E' x l.
Proof. intros H. revert x. induction l as [|y l IH]; intros x; simpl; [done|]. by rewrite H, IH. Qed.

Lemma elementary_snapshot d x p :
  elementary (succ (graph_snapshot d)) x p ↔ elementary (waits d.(graph)) x p.
Proof. unfold elementary. by rewrite (walk_iff _ _ _ _ (succ_snapshot d)). Qed.

Lemma waits_key d a b : waits d.(graph) a b → a ∈ dkeys d.(graph).
Proof.
  unfold waits, neighbors. rewrite <-dget_is_Some.
  destruct (dget (graph d) a); simpl; [done|set_solver].
Qed.

Lemma detect_cycles d c :
  c ∈ (detect d).(cycles) ↔
    ∃ x p, c = x :: p ++ [x] ∧ elementary (waits d.(graph)) x p ∧
      Forall (λ y, str_ltb x y = true) p ∧ (Z.of_nat (S (length p)) ≤ d.(max_cycle_length))%Z.
Proof.
  unfold detect. cbn [cycles]. rewrite (proj2 (dedup_spec _)), list_elem_of_fmap. split.
  - intros (c' & -> & Hc'). apply find_all_spec in Hc' as (x & p & _ & -> & Hel & Hx & Hl).
    exists x, p. rewrite canonical_id by done. by rewrite <-elementary_snapshot.
  - intros (x & p & -> & Hel & Hx & Hl). exists (x :: p ++ [x]).
    rewrite canonical_id by done. split; [done|]. apply find_all_spec. exists x, p.
    split_and!; [|done|split_and!; [by apply elementary_snapshot|done..]].
    unfold graph_snapshot. rewrite dkeys_map. destruct Hel as (Hne & _ & Hw).
    destruct p as [|y p]; [done|]. destruct Hw as [Hw _]. by eapply waits_key.
Qed.

(** C1. [detect] is sound and complete: it reports, each once, exactly the
    elementary cycles of the wait-for graph of at most [max_cycle_length]
    nodes, each from its smallest agent, closed by repeating it. *)
Theorem detect_spec d :
  NoDup (detect d).(cycles) ∧
  (∀ c, c ∈ (detect d).(cycles) →
     ∃ x p, c = x :: p ++ [x] ∧ elementary (waits d.(graph)) x p ∧
       Forall (λ y, str_ltb x y = true) p ∧
       (Z.of_nat (S (length p)) ≤ d.(max_cycle_length))%Z) ∧
  (∀ x p, elementary (waits d.(graph)) x p →
     (Z.of_nat (S (length p)) ≤ d.(max_cycle_length))%Z →
     _canonical_cycle (x :: p ++ [x]) ∈ (detect d).(cycles)).
Proof.
  split_and!.
  - apply dedup_spec.
  - intros c. by rewrite detect_cycles.
  - intros x p Hel Hl. destruct (canonical_elementary _ _ _ Hel) as (y & q & -> & Hy & Hq & Hlq).
    apply detect_cycles. exists y, q. by rewrite Hlq.
Qed.

Lemma has_deadlock_true r : has_deadlock r = true ↔ ∃ c, c ∈ r.(cycles).
Proof.
  unfold has_deadlock. rewrite bool_decide_eq_true. destruct (cycles r) as [|c l]; simpl.
  - split; [lia|]. by intros [c ?%elem_of_nil].
  - split; [|lia]. intros _. exists c. left.
Qed.

(** C29. When the length bound is at least the number of agents, [has_deadlock]
    holds exactly when some agent waits, through any chain of agents, for itself. *)
Theorem has_deadlock_iff_cycle d :
  detector_ok d → (Z.of_nat (length d.(graph)) ≤ d.(max_cycle_length))%Z →
  has_deadlock (detect d) = true ↔ ∃ a, tc (waits d.(graph)) a a.
Proof.
  intros (Hwf & _ & _ & Hends) Hmax. rewrite has_deadlock_true. split.
  - intros [c Hc]. apply detect_cycles in Hc as (x & p & _ & (_ & _ & Hw) & _).
    exists x. by eapply walk_tc.
  - intros [a Ha]. apply tc_walk in Ha as [l Hl].
    assert (Hirr : ∀ b, ¬ waits (graph d) b b) by (intros b Hb; by apply Hends in Hb as (_ & _ & ?)).
    destruct (closed_walk_elementary (waits (graph d)) a l Hirr Hl) as (x & p & Hel).
    destruct (canonical_elementary _ _ _ Hel) as (y & q & _ & Hy & Hq & _).
    exists (y :: q ++ [y]). apply detect_cycles. exists y, q. split_and!; [done..|].
    enough (S (length q) ≤ length (graph d)) by lia.
    destruct Hy as (_ & Hnd & Hw).
    assert (Hkeys : y :: q ⊆ dkeys (graph d)).
    { assert (Hall : ∀ z l, walk (waits (graph d)) z l → ∀ b, b ∈ l → b ∈ dkeys (graph d)).
      { intros z l'. revert z. induction l' as [|b l' IHl]; intros z; simpl.
        - by intros _ b ?%elem_of_nil.
        - intros [Hzb Hwl] b' [->|Hb']%elem_of_cons; [by apply Hends in Hzb as (_ & ? & _)|].
          by eapply IHl. }
      intros b Hb. apply (Hall y (q ++ [y])); [done|].
      apply elem_of_cons in Hb as [->|?]; set_solver. }
    pose proof (submseteq_length _ _ (NoDup_submseteq _ _ Hnd Hkeys)) as Hlen.
    unfold dkeys in Hlen. rewrite length_fmap in Hlen. done.
Qed.

(** ** The graph's invariant *)
Lemma neighbors_set g a s b :
  neighbors (dset g a s) b = if decide (b = a) then s else neighbors g b.
Proof. unfold neighbors. rewrite dget_set. by case_decide. Qed.

Lemma neighbors_ensure g a b : neighbors (ensure_node g a) b = neighbors g b.
Proof.
  unfold ensure_node. destruct (dmem g a) eqn:E; [done|].
  rewrite neighbors_set. case_decide; [subst|done].
  apply dmem_false in E. unfold neighbors. by rewrite E.
Qed.

Lemma dkeys_ensure g a b : b ∈ dkeys (ensure_node g a) ↔ b = a ∨ b ∈ dkeys g.
Proof.
  unfold ensure_node. destruct (dmem g a) eqn:E; [|by rewrite elem_dkeys_set].
  apply dmem_true in E. naive_solver.
Qed.

Lemma dwf_ensure g a : dwf g → dwf (ensure_node g a).
Proof. unfold ensure_node. case_match; auto using dwf_set. Qed.

Lemma add_wait_ok w h res d : detector_ok d → detector_ok (add_wait w h res d).2.
Proof.
  intros (Hwf & Hm & Hed & Hends). unfold add_wait. case_bool_decide as Hwh; [done|]. simpl.
  assert (Hw : ∀ a b, waits (dset (ensure_node (ensure_node (graph d) w) h) w
      ({[h]} ∪ neighbors (ensure_node (ensure_node (graph d) w) h) w)) a b ↔
      waits (graph d) a b ∨ a = w ∧ b = h).
  { intros a b. unfold waits. rewrite neighbors_set, !neighbors_ensure.
    case_decide; [subst; set_solver|naive_solver]. }
  split_and!; simpl; [by apply dwf_set, dwf_ensure, dwf_ensure|done| |].
  - intros a b. rewrite Hw, Hed. split.
    + intros [(e & ? & ? & ?)|[-> ->]].
      * exists e. rewrite elem_of_app. tauto.
      * exists (mkEdge w h res). rewrite elem_of_app, list_elem_of_singleton. tauto.
    + intros (e & He & <- & <-). apply elem_of_app in He as [He|He%list_elem_of_singleton].
      * left. by exists e.
      * subst e. by right.
  - intros a b. rewrite Hw, !elem_dkeys_set, !dkeys_ensure. intros [Hab|[-> ->]]; [|tauto].
    apply Hends in Hab. tauto.
Qed.

Lemma remove_wait_ok w h d : detector_ok d → detector_ok (remove_wait w h d).2.
Proof.
  intros (Hwf & Hm & Hed & Hends). unfold remove_wait.
  destruct (negb (dmem _ w)); [done|]. destruct (negb (bool_decide _)); [done|]. simpl.
  assert (Hw : ∀ a b, waits (dset (graph d) w (neighbors (graph d) w ∖ {[h]})) a b ↔
      waits (graph d) a b ∧ ¬ (a = w ∧ b = h)).
  { intros a b. unfold waits. rewrite neighbors_set.
    case_decide; [subst; set_solver|naive_solver]. }
  split_and!; simpl; [by apply dwf_set|done| |].
  - intros a b. rewrite Hw, Hed. split.
    + intros [(e & ? & <- & <-) ?]. exists e. by rewrite list_elem_of_filter.
    + intros (e & He & <- & <-). apply list_elem_of_filter in He as [? ?].
      split; [by exists e|done].
  - intros a b. rewrite Hw, !elem_dkeys_set. intros [Hab _]. apply Hends in Hab. tauto.
Qed.

Lemma clear_agent_ok a d : detector_ok d → detector_ok (clear_agent a d).
Proof.
  intros (Hwf & Hm & Hed & Hends).
  assert (Hw : ∀ b c, waits (dmap (λ ns, ns ∖ {[a]}) (ddel (graph d) a)) b c ↔
      waits (graph d) b c ∧ b ≠ a ∧ c ≠ a).
  { intros b c. unfold waits, neighbors. rewrite dget_map, dget_del by done.
    case_decide; simpl; [set_solver|]. destruct (dget (graph d) b); simpl; set_solver. }
  unfold clear_agent. split_and!; simpl; [by apply dwf_map, dwf_del|done| |].
  - intros b c. rewrite Hw, Hed. split.
    + intros ((e & ? & <- & <-) & ? & ?). exists e. by rewrite list_elem_of_filter.
    + intros (e & He & <- & <-). apply list_elem_of_filter in He as [[? ?] ?].
      split_and!; [by exists e|done..].
  - intros b c. rewrite Hw, dkeys_map, !elem_dkeys_del by done.
    intros (Hbc & ? & ?). apply Hends in Hbc. tauto.
Qed.

Lemma empty_detector_ok max_len : (2 ≤ max_len)%Z → detector_ok (mkDetector max_len [] []).
Proof.
  intros Hm. split_and!; simpl; [constructor|done| |].
  - intros a b. unfold waits, neighbors; simpl. split; [set_solver|].
    by intros (e & ?%elem_of_nil & _).
  - intros a b. unfold waits, neighbors; simpl. set_solver.
Qed.

Lemma clear_wait_ok d : detector_ok d → detector_ok (clear d).
Proof. intros (_ & Hm & _). by apply empty_detector_ok. Qed.

Lemma run_det_op_ok o d : detector_ok d → detector_ok (run_det_op o d).
Proof. destruct o; simpl; auto using add_wait_ok, remove_wait_ok, clear_agent_ok, clear_wait_ok. Qed.

(** Whatever calls a detector receives, its adjacency sets and its edge list
    describe the same relation, both ends of an edge are nodes of the graph, and
    no agent waits for itself. *)
Theorem detector_reachable_ok max_len d0 ops :
  new_detector max_len = Ok d0 →
  detector_ok (fold_left (λ d o, run_det_op o d) ops d0).
Proof.
  unfold new_detector. destruct (Z.ltb_spec max_len 2) as [|Hm]; [done|]. intros [= <-].
  pose proof (empty_detector_ok max_len Hm) as H.
  revert H. generalize (mkDetector max_len [] []).
  induction ops as [|o ops IH]; intros d Hd; simpl; [done|]. by apply IH, run_det_op_ok.
Qed.

(** ** Witnesses *)
Definition ex_detector : DeadlockDetector :=
  (add_wait "c" "a" "" (add_wait "b" "c" "" (add_wait "a" "b" "" (mkDetector 50 [] [])).2).2).2.

(** The documentation's example: three agents waiting in a ring. *)
Example ex_detect : (detect ex_detector).(cycles) = [["a"; "b"; "c"; "a"]].
Proof. vm_compute. reflexivity. Qed.

Lemma ex_detector_ok : detector_ok ex_detector.
Proof.
  repeat apply add_wait_ok. by apply empty_detector_ok.
Qed.

Lemma has_deadlock_iff_cycle_witness :
  has_deadlock (detect ex_detector) = true ↔ ∃ a, tc (waits ex_detector.(graph)) a a.
Proof.
  apply (has_deadlock_iff_cycle ex_detector ex_detector_ok). vm_compute. discriminate.
Defined.

Lemma detector_reachable_ok_witness :
  detector_ok (fold_left (λ d o, run_det_op o d)
    [OpAdd "a" "b" ""; OpAdd "b" "a" "r"; OpRemove "a" "b"] (mkDetector 2 [] [])).
Proof. apply (detector_reachable_ok 2 (mkDetector 2 [] [])). reflexivity. Defined.
