(* ===== verification/Quota.v ===== *)
(** * Resource quotas ([quotas/resource_quota.py])

    [QuotaEnforcer] holds a quota and the usage so far of each agent, over the
    four dimensions tokens, memory, CPU seconds and API calls.  The code's
    per-dimension dictionaries always hold these four keys; they are the record
    [dims].  Calls and accounts are over any arithmetic; that usage stays within the limits
    needs sums that are not rounded, and fails in binary64. *)
From stdpp Require Import base gmap sets list strings.
From Stdlib Require Import ZArith QArith Lqa Lia.
From S2P Require Import Prelude PyDict PyFloat.
#[local] Close Scope Q_scope.

Record dims (A : Type) : Type := mkDims {
  tokens : A;
  memory_mb : A;
  cpu_seconds : A;
  api_calls : A;
}.
Arguments mkDims {A}.
Arguments tokens {A}.
Arguments memory_mb {A}.
Arguments cpu_seconds {A}.
Arguments api_calls {A}.

Definition dims_map2 {A B C} (f : A → B → C) (a : dims A) (b : dims B) : dims C :=
  mkDims (f a.(tokens) b.(tokens)) (f a.(memory_mb) b.(memory_mb))
    (f a.(cpu_seconds) b.(cpu_seconds)) (f a.(api_calls) b.(api_calls)).

(** The dimensions in the code's iteration order, with their names. *)
Definition dims_items {A} (a : dims A) : list (string * A) :=
  [("tokens", a.(tokens)); ("memory_mb", a.(memory_mb));
   ("cpu_seconds", a.(cpu_seconds)); ("api_calls", a.(api_calls))].

Definition dims_forall {A} (P : A → Prop) (a : dims A) : Prop :=
  P a.(tokens) ∧ P a.(memory_mb) ∧ P a.(cpu_seconds) ∧ P a.(api_calls).

Section quota.
Context {F : PyFloat}.

Record ResourceQuota : Type := mkQuota {
  quota_agent : string;
  limits : dims (option float);
  label : string;
}.

Inductive QuotaError : Type :=
  | NotRegistered (agent_id : string)        (* KeyError *)
  | UsageMissing (agent_id : string)         (* KeyError of self._usage[agent_id] *)
  | NegativeAmount (name : string)           (* ValueError *)
  | QuotaViolation (agent_id dimension : string) (requested remaining limit : float)
  | EmptyAgentId                             (* ValueError *)
  | NegativeLimit (name : string).           (* ValueError *)

(** [ResourceQuota.__post_init__] *)
Definition new_quota (agent : string) (ls : dims (option float)) (lb : string)
    : result QuotaError ResourceQuota :=
  if is_blank agent then Raise EmptyAgentId
  else match List.find (λ kv, match kv.2 with Some v => fltb v f0 | None => false end)
               (dims_items ls) with
       | Some (name, _) => Raise (NegativeLimit name)
       | None => Ok (mkQuota agent ls lb)
       end.

Record QuotaEnforcer : Type := mkEnforcer {
  quotas : dict ResourceQuota;
  usages : dict (dims float);
}.

Abbreviation Q A := (M QuotaEnforcer QuotaError A).

Definition _zero_usage : dims float := mkDims f0 f0 f0 f0.

Definition add_usage (u r : dims float) : dims float := dims_map2 fadd u r.

Definition register (q : ResourceQuota) (s : QuotaEnforcer) : QuotaEnforcer :=
  mkEnforcer (dset s.(quotas) q.(quota_agent) q)
    (if dmem s.(usages) q.(quota_agent) then s.(usages)
     else dset s.(usages) q.(quota_agent) _zero_usage).

Definition unregister (id : string) (s : QuotaEnforcer) : bool * QuotaEnforcer :=
  if negb (dmem s.(quotas) id) then (false, s)
  else (true, mkEnforcer (ddel s.(quotas) id) (ddel s.(usages) id)).

(** [self._quotas[agent_id]] behind its guard, then [self._usage[agent_id]]. *)
Definition lookup_quota (id : string) : Q ResourceQuota := λ s,
  match dget s.(quotas) id with
  | Some q => (Ok q, s)
  | None => (Raise (NotRegistered id), s)
  end.

Definition lookup_usage (id : string) : Q (dims float) := λ s,
  match dget s.(usages) id with
  | Some u => (Ok u, s)
  | None => (Raise (UsageMissing id), s)
  end.

Definition remaining (limit used : float) : float := fmax f0 (fsub limit used).

(** One iteration of the loop over the dimensions: the violation it finds. *)
Definition violates (id : string) (limit : option float) (used : float)
    (name : string) (requested : float) : option QuotaError :=
  if fleb requested f0 then None
  else match limit with
       | None => None
       | Some l =>
           if fltb (remaining l used) requested
           then Some (QuotaViolation id name requested (remaining l used) l)
           else None
       end.

(** The first violated dimension, in order. *)
Definition first_violation (id : string) (ls : dims (option float)) (used req : dims float)
    : option QuotaError :=
  match violates id ls.(tokens) used.(tokens) "tokens" req.(tokens) with
  | Some v => Some v
  | None =>
  match violates id ls.(memory_mb) used.(memory_mb) "memory_mb" req.(memory_mb) with
  | Some v => Some v
  | None =>
  match violates id ls.(cpu_seconds) used.(cpu_seconds) "cpu_seconds" req.(cpu_seconds) with
  | Some v => Some v
  | None => violates id ls.(api_calls) used.(api_calls) "api_calls" req.(api_calls)
  end end end.

Definition check (id : string) (req : dims float) (raise_on_violation : bool) : Q bool :=
  let! q := lookup_quota id in
  let! u := lookup_usage id in
  match first_violation id q.(limits) u req with
  | Some v => if raise_on_violation then raiseS v else retS false
  | None => retS true
  end.

Definition set_usage (id : string) (u : dims float) (s : QuotaEnforcer) : QuotaEnforcer :=
  mkEnforcer s.(quotas) (dset s.(usages) id u).

(** The validation loop of [record]. *)
Definition first_negative (req : dims float) : option string :=
  fst <$> List.find (λ kv, fltb kv.2 f0) (dims_items req).

Definition record (id : string) (req : dims float) : Q unit :=
  match first_negative req with
  | Some name => raiseS (NegativeAmount name)
  | None =>
      let! _ := lookup_quota id in
      let! u := lookup_usage id in
      modS (set_usage id (add_usage u req))
  end.

Definition check_and_record (id : string) (req : dims float) (raise_on_violation : bool)
    : Q bool :=
  let! q := lookup_quota id in
  let! u := lookup_usage id in
  match first_violation id q.(limits) u req with
  | Some v => if raise_on_violation then raiseS v else retS false
  | None =>
      let! _ := modS (set_usage id (add_usage u req)) in
      retS true
  end.

Definition reset (id : string) : Q unit :=
  let! _ := lookup_quota id in
  modS (set_usage id _zero_usage).

Definition reset_all (s : QuotaEnforcer) : QuotaEnforcer :=
  mkEnforcer s.(quotas) (dmap (λ _, _zero_usage) s.(usages)).

Definition usage (id : string) : Q (dims float) :=
  let! _ := lookup_quota id in lookup_usage id.

Definition quota (id : string) : Q ResourceQuota := lookup_quota id.

(** Every state-changing method, as a command. *)
Inductive quota_op : Type :=
  | OpRegister (q : ResourceQuota)
  | OpUnregister (id : string)
  | OpRecord (id : string) (req : dims float)
  | OpCheckRecord (id : string) (req : dims float) (raise_on_violation : bool)
  | OpReset (id : string)
  | OpResetAll.

Definition run_quota_op (o : quota_op) (s : QuotaEnforcer) : QuotaEnforcer :=
  match o with
  | OpRegister q => register q s
  | OpUnregister id => (unregister id s).2
  | OpRecord id req => (record id req s).2
  | OpCheckRecord id req r => (check_and_record id req r s).2
  | OpReset id => (reset id s).2
  | OpResetAll => reset_all s
  end.

(** Usage is tracked for exactly the registered agents. *)
Definition enforcer_ok (s : QuotaEnforcer) : Prop :=
  dwf s.(quotas) ∧ dwf s.(usages) ∧ ∀ id, id ∈ dkeys s.(usages) ↔ id ∈ dkeys s.(quotas).

Definition nonneg (req : dims float) : Prop := dims_forall (λ x, fltb x f0 = false) req.
End quota.

(** ** The invariant *)
Section invariant.
Context {F : PyFloat}.
Implicit Types (s : QuotaEnforcer).

Lemma set_usage_ok id u s :
  id ∈ dkeys s.(quotas) → enforcer_ok s → enforcer_ok (set_usage id u s).
Proof.
  intros Hid (Hq & Hu & Hk). split_and!; simpl; [done|by apply dwf_set|].
  intros id'. rewrite elem_dkeys_set, Hk. naive_solver.
Qed.

Lemma lookup_quota_key id s q s' : lookup_quota id s = (Ok q, s') → id ∈ dkeys s.(quotas) ∧ s' = s.
Proof.
  unfold lookup_quota. destruct (dget (quotas s) id) eqn:E; [|done]. intros [= _ <-].
  split; [|done]. apply dget_is_Some. by rewrite E.
Qed.

(** An operation that looks up the quota and may then replace the usage. *)
Lemma preserves_after_lookup {A} id (k : ResourceQuota → M QuotaEnforcer QuotaError A) :
  (∀ q s, id ∈ dkeys s.(quotas) → enforcer_ok s → enforcer_ok (k q s).2) →
  preserves enforcer_ok (bindS (lookup_quota id) k).
Proof.
  intros Hk s Hs. unfold bindS. destruct (lookup_quota id s) as [[q|e] s'] eqn:E.
  - apply lookup_quota_key in E as [? ->]. by apply Hk.
  - revert E. unfold lookup_quota. case_match; intros [= _ <-]; done.
Qed.

Lemma usage_then id (k : dims float → M QuotaEnforcer QuotaError unit) s :
  enforcer_ok s → id ∈ dkeys s.(quotas) →
  ∃ u, dget s.(usages) id = Some u ∧ lookup_usage id s = (Ok u, s).
Proof.
  intros (_ & _ & Hk) Hid. apply Hk, dget_is_Some in Hid as [u Hu].
  exists u. unfold lookup_usage. by rewrite Hu.
Qed.

Lemma run_quota_op_ok o s : enforcer_ok s → enforcer_ok (run_quota_op o s).
Proof.
  intros Hs. destruct o as [q|id|id req|id req r|id|]; simpl.
  - destruct Hs as (Hq & Hu & Hk). unfold register. destruct (dmem _ _) eqn:E.
    + apply dmem_true in E. split_and!; simpl; [by apply dwf_set|done|].
      intros id. rewrite elem_dkeys_set, Hk. apply Hk in E. naive_solver.
    + split_and!; simpl; [by apply dwf_set..|].
      intros id. by rewrite !elem_dkeys_set, Hk.
  - unfold unregister. destruct (negb _); [done|]. destruct Hs as (Hq & Hu & Hk).
    split_and!; simpl; [by apply dwf_del..|]. intros id'. by rewrite !elem_dkeys_del, Hk.
  - unfold record. destruct (first_negative req); [done|].
    apply preserves_after_lookup; [|done]. intros q s' Hid Hs'.
    destruct (usage_then id (λ _, retS tt) s' Hs' Hid) as (u & _ & Hu).
    unfold bindS. rewrite Hu. by apply set_usage_ok.
  - unfold check_and_record. apply preserves_after_lookup; [|done]. intros q s' Hid Hs'.
    destruct (usage_then id (λ _, retS tt) s' Hs' Hid) as (u & _ & Hu).
    unfold bindS. rewrite Hu. destruct (first_violation _ _ _ _); [by destruct r|].
    by apply set_usage_ok.
  - unfold reset. apply preserves_after_lookup; [|done]. intros q s' Hid Hs'.
    by apply set_usage_ok.
  - destruct Hs as (Hq & Hu & Hk). split_and!; simpl; [done|by apply dwf_map|].
    intros id. by rewrite dkeys_map.
Qed.

Definition empty_enforcer : QuotaEnforcer := mkEnforcer [] [].

Definition quota_run (ops : list quota_op) : QuotaEnforcer :=
  fold_left (λ s o, run_quota_op o s) ops empty_enforcer.

Lemma quota_run_ok ops : enforcer_ok (quota_run ops).
Proof.
  unfold quota_run. assert (H : enforcer_ok empty_enforcer) by (split_and!; [constructor..|done]).
  revert H. generalize empty_enforcer. induction ops as [|o ops IH]; intros s Hs; [done|].
  by apply IH, run_quota_op_ok.
Qed.

(** After any sequence of calls, usage is tracked for exactly the registered
    agents, so asking for the usage of an agent succeeds exactly when it is
    registered and the code's inner usage lookup never fails. *)
Theorem usage_defined ops id :
  (is_ok (usage id (quota_run ops)).1 = true ↔ id ∈ dkeys (quota_run ops).(quotas)) ∧
  (usage id (quota_run ops)).1 ≠ Raise (UsageMissing id).
Proof.
  pose proof (quota_run_ok ops) as (_ & _ & Hk). unfold usage, bindS, lookup_quota.
  rewrite <-dget_is_Some. destruct (dget (quotas _) id) as [q|] eqn:E; simpl.
  - unfold lookup_usage. assert (Hid : id ∈ dkeys (usages (quota_run ops))).
    { apply Hk, dget_is_Some. by rewrite E. }
    apply dget_is_Some in Hid as [u ->]. done.
  - split; [|done]. split; [done|]. by intros [? ?].
Qed.
End invariant.

(** ** Functional behaviour *)
Section behaviour.
Context {F : PyFloat}.
Implicit Types (s : QuotaEnforcer).

Lemma first_negative_None (req : dims float) : first_negative req = None ↔ nonneg req.
Proof.
  destruct req as [a b c d]. unfold first_negative, nonneg, dims_forall, dims_items; simpl.
  destruct (fltb a f0), (fltb b f0), (fltb c f0), (fltb d f0); naive_solver.
Qed.

(** [check_and_record] is the atomic composition of [check] and [record]: for
    amounts that are not negative it answers and raises what [check] does, and
    it records exactly when [check] answers [True]. *)
Theorem check_and_record_is_check_then_record id req raise_on s :
  nonneg req →
  check_and_record id req raise_on s =
    bindS (check id req raise_on)
      (λ ok, if ok then let! _ := record id req in retS true else retS false) s.
Proof.
  intros Hreq%first_negative_None. unfold check_and_record, check, record. rewrite Hreq.
  unfold bindS, lookup_quota, lookup_usage, raiseS, retS, modS.
  destruct (dget (quotas s) id) as [q|] eqn:Hq; [|done].
  destruct (dget (usages s) id) as [u|] eqn:Hu; [|done].
  destruct (first_violation _ _ _ _); [by destruct raise_on|].
  by rewrite Hq, Hu.
Qed.

(** A refused request changes nothing, and a granted one adds the amounts to
    the agent's usage and to no other agent's. *)
Theorem check_and_record_effect id req raise_on s :
  match check_and_record id req raise_on s with
  | (Ok true, s') =>
      s'.(quotas) = s.(quotas) ∧
      ∃ u, dget s.(usages) id = Some u ∧
        ∀ id', dget s'.(usages) id' =
          if decide (id' = id) then Some (add_usage u req) else dget s.(usages) id'
  | (_, s') => s' = s
  end.
Proof.
  unfold check_and_record, bindS, lookup_quota, lookup_usage.
  destruct (dget (quotas s) id) as [q|] eqn:Hq; [|done].
  destruct (dget (usages s) id) as [u|] eqn:Hu; [|done].
  destruct (first_violation _ _ _ _); [by destruct raise_on|]. simpl.
  split; [done|]. exists u. split; [done|]. intros id'. by rewrite dget_set.
Qed.

Lemma violates_nonpos id l u name x : fleb x f0 = true → violates id l u name x = None.
Proof. unfold violates. by intros ->. Qed.

(** [check_and_record] does not validate its amounts as [record] does: a
    registered agent's request whose amounts are all negative or zero is always
    granted and added to the usage, which it can lower, while [record] raises
    [ValueError] on the same amounts. *)
Theorem check_and_record_accepts_negative id req raise_on s q u :
  dget s.(quotas) id = Some q → dget s.(usages) id = Some u →
  dims_forall (λ x, fleb x f0 = true) req → ¬ nonneg req →
  check_and_record id req raise_on s = (Ok true, set_usage id (add_usage u req) s) ∧
  ∃ name, record id req s = (Raise (NegativeAmount name), s).
Proof.
  intros Hq Hu (H1 & H2 & H3 & H4) Hneg. split.
  - unfold check_and_record, bindS, lookup_quota, lookup_usage. rewrite Hq, Hu.
    unfold first_violation. by rewrite !violates_nonpos.
  - unfold record. destruct (first_negative req) as [name|] eqn:E; [by exists name|].
    by apply first_negative_None in E.
Qed.
End behaviour.

(** ** Every agent has its own account *)
Section accounts.
Context {F : PyFloat}.
Implicit Types (s : QuotaEnforcer) (ls : dims (option float)) (u req : dims float).

(** What is specified of an agent: its limits and its usage, if it is registered. *)
Abbreviation Account := (option (dims (option float) * dims float)).

(** An amount fits when it is not positive, or not more than what remains. *)
Definition fits (limit : option float) (used amount : float) : bool :=
  fleb amount f0 ||
  match limit with Some l => negb (fltb (fmax f0 (fsub l used)) amount) | None => true end.

Definition fits_all ls u req : bool :=
  fits ls.(tokens) u.(tokens) req.(tokens) && fits ls.(memory_mb) u.(memory_mb) req.(memory_mb) &&
  fits ls.(cpu_seconds) u.(cpu_seconds) req.(cpu_seconds) &&
  fits ls.(api_calls) u.(api_calls) req.(api_calls).

Definition account_step (id : string) (acc : Account) (o : quota_op) : Account :=
  match o with
  | OpRegister q =>
      if decide (q.(quota_agent) = id) then Some (q.(limits), default _zero_usage (snd <$> acc)) else acc
  | OpUnregister i => if decide (i = id) then None else acc
  | OpRecord i req =>
      if decide (i = id) then
        '(ls, u) ← acc; Some (ls, match first_negative req with Some _ => u | None => add_usage u req end)
      else acc
  | OpCheckRecord i req _ =>
      if decide (i = id) then
        '(ls, u) ← acc; Some (ls, if fits_all ls u req then add_usage u req else u)
      else acc
  | OpReset i => if decide (i = id) then '(ls, _) ← acc; Some (ls, _zero_usage) else acc
  | OpResetAll => '(ls, _) ← acc; Some (ls, _zero_usage)
  end.

Definition account_of (id : string) s : Account :=
  match dget s.(quotas) id, dget s.(usages) id with
  | Some q, Some u => Some (q.(limits), u)
  | _, _ => None
  end.

Lemma fits_violates id limit used name amount :
  fits limit used amount = true ↔ violates id limit used name amount = None.
Proof.
  unfold fits, violates, remaining. destruct (fleb amount f0); [done|].
  destruct limit as [l|]; [|done]. by destruct (fltb (fmax f0 (fsub l used)) amount).
Qed.

Lemma fits_all_None id ls u req : fits_all ls u req = true ↔ first_violation id ls u req = None.
Proof.
  unfold fits_all, first_violation. rewrite !andb_true_iff.
  rewrite (fits_violates id _ _ "tokens"), (fits_violates id _ _ "memory_mb"),
    (fits_violates id _ _ "cpu_seconds"), (fits_violates id _ _ "api_calls").
  repeat case_match; naive_solver.
Qed.

(** The state of an agent in an enforcer in order. *)
Lemma account_cases id s :
  enforcer_ok s →
  (∃ q u, dget s.(quotas) id = Some q ∧ dget s.(usages) id = Some u ∧ account_of id s = Some (q.(limits), u)) ∨
  (dget s.(quotas) id = None ∧ dget s.(usages) id = None ∧ account_of id s = None).
Proof.
  intros (_ & _ & Hk). specialize (Hk id). rewrite <-!dget_is_Some in Hk. unfold account_of.
  destruct (dget (quotas s) id) as [q|], (dget (usages s) id) as [u|].
  - left. by exists q, u.
  - destruct (proj2 Hk) as [? ?]; done.
  - destruct (proj1 Hk) as [? ?]; done.
  - by right.
Qed.

Lemma account_set_usage id i u s :
  account_of id (set_usage i u s) =
    if decide (i = id) then q ← dget s.(quotas) id; Some (q.(limits), u) else account_of id s.
Proof.
  unfold account_of, set_usage. cbn [quotas usages]. rewrite dget_set.
  destruct (decide (i = id)) as [->|Hne]; [rewrite decide_True by done|by rewrite decide_False by congruence].
  by destruct (dget (quotas s) id).
Qed.

(** The answer of [check_and_record], and what it leaves. *)
Lemma check_and_record_account id req raise_on s :
  enforcer_ok s →
  (check_and_record id req raise_on s).1 = (check id req raise_on s).1 ∧
  match account_of id s with
  | None => check_and_record id req raise_on s = (Raise (NotRegistered id), s)
  | Some (ls, u) =>
      if fits_all ls u req
      then check_and_record id req raise_on s = (Ok true, set_usage id (add_usage u req) s)
      else check_and_record id req raise_on s = (if raise_on then Raise
             (default (NotRegistered id) (first_violation id ls u req)) else Ok false, s)
  end.
Proof.
  intros Hs. unfold check_and_record, check, bindS, lookup_quota, lookup_usage.
  destruct (account_cases id s Hs) as [(q & u & Hq & Hu & ->)|(Hq & _ & ->)]; rewrite Hq; [|done].
  rewrite Hu. pose proof (fits_all_None id q.(limits) u req) as Hf.
  destruct (first_violation id (limits q) u req) as [v|].
  - destruct (fits_all (limits q) u req); [by specialize (proj1 Hf eq_refl)|]. by destruct raise_on.
  - rewrite (proj2 Hf) by done. done.
Qed.

Lemma account_run_op id o s :
  enforcer_ok s → account_of id (run_quota_op o s) = account_step id (account_of id s) o.
Proof.
  intros Hs. destruct o as [q|i|i req|i req r|i|]; cbn [run_quota_op account_step].
  - destruct Hs as (Hq & Hu & Hk). unfold register, account_of. cbn [quotas usages].
    specialize (Hk q.(quota_agent)). rewrite <-!dget_is_Some in Hk. rewrite dget_set.
    destruct (decide (quota_agent q = id)) as [<-|Hne]; [rewrite decide_True by done|rewrite decide_False by congruence].
    + destruct (dmem (usages s) (quota_agent q)) eqn:E.
      * apply dmem_true, dget_is_Some in E as [u Hu']. rewrite Hu'.
        destruct (proj1 Hk) as [q' ->]; [by eexists|]. done.
      * rewrite dget_set_eq. apply dmem_false in E. rewrite E. by destruct (dget (quotas s) _).
    + destruct (dmem _ _); [done|]. by rewrite dget_set_ne by congruence.
  - unfold unregister. destruct Hs as (Hq & Hu & Hk). unfold account_of.
    destruct (dmem (quotas s) i) eqn:E; cbn [negb snd quotas usages].
    + rewrite !dget_del by done. destruct (decide (i = id)) as [->|Hne];
        [by rewrite !decide_True by done|by rewrite !decide_False by congruence].
    + apply dmem_false in E. case_decide; [subst i|done]. by rewrite E.
  - unfold record. destruct (first_negative req) as [name|].
    { unfold raiseS. cbn [snd]. case_decide; [|done]. by destruct (account_of id s) as [[ls u]|]. }
    unfold bindS, lookup_quota, lookup_usage, modS.
    destruct (account_cases i s Hs) as [(q & u & Hq & Hu & Ha)|(Hq & Hu & Ha)]; rewrite Hq, ?Hu.
    + cbn [snd]. rewrite account_set_usage. case_decide; [subst i|done]. rewrite Ha, Hq. done.
    + cbn [snd]. case_decide; [subst i|done]. by rewrite Ha.
  - destruct (check_and_record_account i req r s Hs) as [_ Hc].
    destruct (account_of i s) as [[ls u]|] eqn:Ha.
    + destruct (fits_all ls u req) eqn:Hf; rewrite Hc; cbn [snd].
      * rewrite account_set_usage. case_decide; [subst i|done]. rewrite Ha. simpl. rewrite Hf.
        unfold account_of in Ha. destruct (dget (quotas s) id); [|done]. simpl.
        destruct (dget (usages s) id); [|done]. by injection Ha as <- _.
      * case_decide; [subst i|done]. rewrite Ha. simpl. by rewrite Hf.
    + rewrite Hc. cbn [snd]. case_decide; [subst i|done]. by rewrite Ha.
  - unfold reset, bindS, lookup_quota, modS.
    destruct (account_cases i s Hs) as [(q & u & Hq & Hu & Ha)|(Hq & Hu & Ha)]; rewrite Hq.
    + cbn [snd]. rewrite account_set_usage. case_decide; [subst i|done]. rewrite Ha, Hq. done.
    + cbn [snd]. case_decide; [subst i|done]. by rewrite Ha.
  - unfold reset_all, account_of. cbn [quotas usages]. rewrite dget_map.
    destruct (dget (quotas s) id), (dget (usages s) id); done.
Qed.

Definition account_run (id : string) (os : list quota_op) : Account :=
  fold_left (account_step id) os None.

Lemma account_quota_run id os : account_of id (quota_run os) = account_run id os.
Proof.
  unfold quota_run, account_run. assert (Hok : enforcer_ok empty_enforcer) by apply (quota_run_ok []).
  change None with (account_of id empty_enforcer) at 1. revert Hok. generalize empty_enforcer.
  induction os as [|o os IH]; intros s Hs; [done|]. cbn [fold_left].
  rewrite IH by (by apply run_quota_op_ok). by rewrite account_run_op.
Qed.

(** *** Within the limits *)
Definition within (limit : option float) (used : float) : Prop :=
  match limit with Some l => fleb used l = true | None => True end.

Definition within_all ls u : Prop :=
  within ls.(tokens) u.(tokens) ∧ within ls.(memory_mb) u.(memory_mb) ∧
  within ls.(cpu_seconds) u.(cpu_seconds) ∧ within ls.(api_calls) u.(api_calls).

(** Sums that are not rounded beyond a limit they were tested against. *)
Definition exact_sums : Prop := ∀ l u x : float, fleb u l = true →
  fleb x f0 = true ∨ fltb (fmax f0 (fsub l u)) x = false → fleb (fadd u x) l = true.

(** An operation that respects the limits of [id]: its usage grows by
    [check_and_record] alone, and no quota is set below it. *)
Definition respects (id : string) (acc : Account) (o : quota_op) : Prop :=
  match o with
  | OpRegister q => q.(quota_agent) = id → within_all q.(limits) (default _zero_usage (snd <$> acc))
  | OpRecord i _ => i ≠ id
  | OpReset i => i = id → match acc with Some (ls, _) => within_all ls _zero_usage | None => True end
  | OpResetAll => match acc with Some (ls, _) => within_all ls _zero_usage | None => True end
  | OpUnregister _ | OpCheckRecord _ _ _ => True
  end.

Fixpoint respectful (id : string) (acc : Account) (os : list quota_op) : Prop :=
  match os with
  | [] => True
  | o :: os => respects id acc o ∧ respectful id (account_step id acc o) os
  end.

Lemma fits_within limit used amount :
  exact_sums → within limit used → fits limit used amount = true → within limit (fadd used amount).
Proof.
  unfold within, fits. intros Hx. destruct limit as [l|]; [|done]. intros Hu Hf. apply Hx; [done|].
  apply orb_true_iff in Hf as [Hf|Hf]; [by left|right]. by apply negb_true_iff in Hf.
Qed.

Definition account_within (acc : Account) : Prop :=
  match acc with Some (ls, u) => within_all ls u | None => True end.

Lemma account_step_within id acc o :
  exact_sums → account_within acc → respects id acc o → account_within (account_step id acc o).
Proof.
  intros Hx Ha. destruct o as [q|i|i req|i req r|i|]; cbn [account_step respects]; intros Hr.
  - case_decide; [by apply Hr|done].
  - by case_decide.
  - by rewrite decide_False.
  - case_decide; [|done]. destruct acc as [[ls u]|]; [|done]. simpl.
    destruct (fits_all ls u req) eqn:Hf; [|done]. unfold fits_all in Hf. rewrite !andb_true_iff in Hf.
    destruct Ha as (?&?&?&?), Hf as [[[? ?] ?] ?]. by repeat split; apply fits_within.
  - case_decide; [|done]. destruct acc as [[ls u]|]; [|done]. by apply Hr.
  - by destruct acc as [[ls u]|].
Qed.

(** C32. Quotas over any history: after any sequence of operations each agent's limits and
    usage are those of its own account, whatever is done for other agents, and
    [check_and_record] answers as [check] does, from that account: it grants, and
    adds the amounts, exactly when each is not positive or not more than what the
    arithmetic says remains, and otherwise refuses and changes nothing.  When sums are not
    rounded, as in exact arithmetic but not in binary64, an agent whose usage grows by
    [check_and_record] alone and whose quota is never set below it is always within its
    limits. *)
Theorem quota_follows_history os id req raise_on :
  let s := quota_run os in
  account_of id s = account_run id os ∧
  (check_and_record id req raise_on s).1 = (check id req raise_on s).1 ∧
  match account_run id os with
  | None => check_and_record id req raise_on s = (Raise (NotRegistered id), s)
  | Some (ls, u) =>
      if fits_all ls u req
      then check_and_record id req raise_on s = (Ok true, set_usage id (add_usage u req) s)
      else ∃ v, check_and_record id req raise_on s = (if raise_on then Raise v else Ok false, s)
  end ∧
  (exact_sums → respectful id None os →
     match account_run id os with Some (ls, u) => within_all ls u | None => True end).
Proof.
  intros s. pose proof (quota_run_ok os) as Hok. fold s in Hok.
  pose proof (account_quota_run id os) as Ha. fold s in Ha.
  destruct (check_and_record_account id req raise_on s Hok) as [Hc Hm]. rewrite Ha in Hm.
  split; [done|]. split; [done|]. split.
  - destruct (account_run id os) as [[ls u]|]; [|done]. destruct (fits_all ls u req); [done|].
    by eexists.
  - intros Hx. change (match account_run id os with Some (ls, u) => within_all ls u | None => True end)
      with (account_within (account_run id os)).
    unfold account_run. assert (H0 : account_within None) by done. revert H0.
    generalize (None : Account). clear -Hx. induction os as [|o os IH]; intros acc Hacc; [done|].
    intros [Hr Hrs]. cbn [fold_left]. apply IH; [by apply account_step_within|done].
Qed.
End accounts.

(** Rationals are not rounded. *)
Section exact.
#[local] Existing Instance QF.

Lemma exact_rationals : exact_sums.
Proof.
  intros l u x Hu Hx. unfold fmax, f0 in Hx.
  destruct (fltb (fofZ 0) (fsub l u)) eqn:Hpos; destruct Hx as [Hx|Hx]; q_simpl;
    unfold inject_Z in *; lra.
Qed.
End exact.

Section binary64.
#[local] Existing Instance B64.

(** In binary64 the quota can be exceeded by rounding: with a limit of 0.9
    and 0.3 used, a request of [0.9 - 0.3] is granted by [check_and_record] and
    leaves a usage strictly above the limit. *)
Theorem check_and_record_rounding :
  let l := flit 9 10 in
  let q := mkQuota "a" (mkDims (Some l) None None None) "" in
  let s := mkEnforcer [("a", q)] [("a", mkDims (flit 3 10) f0 f0 f0)] in
  let r := check_and_record "a" (mkDims (fsub l (flit 3 10)) f0 f0 f0) true s in
  is_ok r.1 = true ∧
  match dget r.2.(usages) "a" with Some u => fltb l u.(tokens) = true | None => False end.
Proof. split; vm_compute; reflexivity. Qed.
End binary64.

(** ** Witnesses *)
Section witnesses.
#[local] Existing Instance QF.

Definition ex_quota : ResourceQuota :=
  mkQuota "a" (mkDims (Some (fofZ 100)) None None None) "".
Definition ex_enforcer : QuotaEnforcer :=
  mkEnforcer [("a", ex_quota)] [("a", mkDims (fofZ 40) f0 f0 f0)].
Definition ex_request : dims float := mkDims (fofZ 50) f0 f0 f0.

Lemma check_and_record_is_check_then_record_witness :
  check_and_record "a" ex_request true ex_enforcer =
    bindS (check "a" ex_request true)
      (λ ok, if ok then let! _ := record "a" ex_request in retS true else retS false)
      ex_enforcer.
Proof.
  apply (check_and_record_is_check_then_record "a" ex_request true ex_enforcer).
  repeat split.
Defined.

Lemma check_and_record_accepts_negative_witness :
  check_and_record "a" (mkDims (fofZ (-50)) f0 f0 f0) true ex_enforcer =
    (Ok true, set_usage "a" (add_usage (mkDims (fofZ 40) f0 f0 f0)
                              (mkDims (fofZ (-50)) f0 f0 f0)) ex_enforcer) ∧
  ∃ name, record "a" (mkDims (fofZ (-50)) f0 f0 f0) ex_enforcer
            = (Raise (NegativeAmount name), ex_enforcer).
Proof.
  apply (check_and_record_accepts_negative _ _ _ ex_enforcer ex_quota); [reflexivity..| |].
  - repeat split.
  - intros [H _]. vm_compute in H. discriminate.
Defined.

(** Two requests, of which the second does not fit; another agent's usage; a reset. *)
Definition ex_history : list quota_op :=
  [OpRegister ex_quota; OpCheckRecord "a" ex_request true; OpCheckRecord "a" (mkDims (fofZ 60) f0 f0 f0) true;
   OpCheckRecord "b" ex_request true; OpCheckRecord "a" ex_request false].

Lemma quota_follows_history_witness :
  match account_run "a" ex_history with
  | Some (ls, u) => within_all ls u ∧ fleb (fofZ 100) u.(tokens) = true
  | None => False
  end.
Proof.
  destruct (quota_follows_history ex_history "a" ex_request true) as (_ & _ & _ & H).
  assert (Hr : respectful "a" None ex_history) by (repeat split; intros ?; repeat split).
  specialize (H exact_rationals Hr).
  destruct (account_run "a" ex_history) as [[ls u]|] eqn:E; [|discriminate E].
  split; [exact H|]. injection E as <- <-. reflexivity.
Defined.
End witnesses.
