(* ===== verification/CircuitBreaker.v ===== *)
(** * The circuit breaker ([resilience/circuit_breaker.py])

    Every public method takes the lock, so a run of the breaker, whatever the
    threads do, is a sequence of the lock-protected steps below; [execute] is
    two of them, admission and the recording of the outcome, around an unlocked
    call of the wrapped function.  Each step takes the [time.monotonic()]
    reading it may use. *)
From stdpp Require Import base list strings.
From Stdlib Require Import ZArith Lia.
From S2P Require Import Prelude PyFloat.
#[local] Open Scope Z_scope.

Inductive CircuitState : Type := CLOSED | OPEN | HALF_OPEN.

#[export] Instance CircuitState_eq_dec : EqDecision CircuitState.
Proof. solve_decision. Defined.

Section breaker.
Context {F : PyFloat}.

Record CircuitBreakerConfig : Type := mkConfig {
  failure_threshold : Z;
  recovery_timeout_seconds : float;
  half_open_max_calls : Z;
  success_threshold : Z;
}.

Inductive ConfigError : Type :=
  | BadFailureThreshold | BadRecoveryTimeout | BadHalfOpenMax | BadSuccessThreshold
  | ThresholdAboveMax.

(** [CircuitBreakerConfig.__post_init__] *)
Definition new_config (ft : Z) (rt : float) (hm st : Z)
    : result ConfigError CircuitBreakerConfig :=
  if ft <? 1 then Raise BadFailureThreshold
  else if fleb rt f0 then Raise BadRecoveryTimeout
  else if hm <? 1 then Raise BadHalfOpenMax
  else if st <? 1 then Raise BadSuccessThreshold
  else if hm <? st then Raise ThresholdAboveMax
  else Ok (mkConfig ft rt hm st).

Record CircuitBreaker : Type := mkBreaker {
  cb_state : CircuitState;
  failure_count : Z;
  success_count : Z;
  half_open_call_count : Z;
  opened_at : option float;
  total_calls : Z;
  total_successes : Z;
  total_failures : Z;
  total_rejected : Z;
}.

Definition new_breaker : CircuitBreaker := mkBreaker CLOSED 0 0 0 None 0 0 0 0.

Context (cfg : CircuitBreakerConfig).
Implicit Types (s : CircuitBreaker) (now : float).

(** [_transition_to] *)
Definition _transition_to (new_state : CircuitState) (now : float) s : CircuitBreaker :=
  match new_state with
  | OPEN => mkBreaker OPEN 0 0 0 (Some now)
      s.(total_calls) s.(total_successes) s.(total_failures) s.(total_rejected)
  | HALF_OPEN => mkBreaker HALF_OPEN s.(failure_count) 0 0 s.(opened_at)
      s.(total_calls) s.(total_successes) s.(total_failures) s.(total_rejected)
  | CLOSED => mkBreaker CLOSED 0 0 0 None
      s.(total_calls) s.(total_successes) s.(total_failures) s.(total_rejected)
  end.

(** The recovery timeout has elapsed at [now]. *)
Definition timed_out now s : bool :=
  match s.(opened_at) with
  | Some t => fleb cfg.(recovery_timeout_seconds) (fsub now t)
  | None => false
  end.

Definition _maybe_transition_to_half_open now s : CircuitBreaker :=
  if bool_decide (s.(cb_state) = OPEN) && timed_out now s
  then _transition_to HALF_OPEN now s else s.

(** The [state] property. *)
Definition state now s : CircuitState * CircuitBreaker :=
  let s := _maybe_transition_to_half_open now s in (s.(cb_state), s).

Definition reject s : CircuitBreaker :=
  mkBreaker s.(cb_state) s.(failure_count) s.(success_count) s.(half_open_call_count)
    s.(opened_at) s.(total_calls) s.(total_successes) s.(total_failures)
    (s.(total_rejected) + 1).

Definition count_call (half : Z) s : CircuitBreaker :=
  mkBreaker s.(cb_state) s.(failure_count) s.(success_count)
    (s.(half_open_call_count) + half) s.(opened_at) (s.(total_calls) + 1)
    s.(total_successes) s.(total_failures) s.(total_rejected).

(** The locked first part of [execute]: [false] is [CircuitBreakerOpenError]. *)
Definition grant_call now s : bool * CircuitBreaker :=
  let s := _maybe_transition_to_half_open now s in
  match s.(cb_state) with
  | OPEN => (false, reject s)
  | HALF_OPEN =>
      if cfg.(half_open_max_calls) <=? s.(half_open_call_count) then (false, reject s)
      else (true, count_call 1 s)
  | CLOSED => (true, count_call 0 s)
  end.

Definition record_success now s : CircuitBreaker :=
  let s1 := mkBreaker s.(cb_state) s.(failure_count) s.(success_count)
    s.(half_open_call_count) s.(opened_at) s.(total_calls) (s.(total_successes) + 1)
    s.(total_failures) s.(total_rejected) in
  match s1.(cb_state) with
  | CLOSED => mkBreaker CLOSED 0 s1.(success_count) s1.(half_open_call_count)
      s1.(opened_at) s1.(total_calls) s1.(total_successes) s1.(total_failures)
      s1.(total_rejected)
  | HALF_OPEN =>
      let s2 := mkBreaker HALF_OPEN s1.(failure_count) (s1.(success_count) + 1)
        s1.(half_open_call_count) s1.(opened_at) s1.(total_calls) s1.(total_successes)
        s1.(total_failures) s1.(total_rejected) in
      if cfg.(success_threshold) <=? s2.(success_count) then _transition_to CLOSED now s2
      else s2
  | OPEN => s1
  end.

Definition record_failure now s : CircuitBreaker :=
  let s1 := mkBreaker s.(cb_state) s.(failure_count) s.(success_count)
    s.(half_open_call_count) s.(opened_at) s.(total_calls) s.(total_successes)
    (s.(total_failures) + 1) s.(total_rejected) in
  match s1.(cb_state) with
  | CLOSED =>
      let s2 := mkBreaker CLOSED (s1.(failure_count) + 1) s1.(success_count)
        s1.(half_open_call_count) s1.(opened_at) s1.(total_calls) s1.(total_successes)
        s1.(total_failures) s1.(total_rejected) in
      if cfg.(failure_threshold) <=? s2.(failure_count) then _transition_to OPEN now s2
      else s2
  | HALF_OPEN => _transition_to OPEN now s1
  | OPEN => s1
  end.

Definition reset now s : CircuitBreaker := _transition_to CLOSED now s.

(** What the wrapped function does: return, raise an [Exception], or raise a
    [BaseException] that is not one ([KeyboardInterrupt], [SystemExit],
    [asyncio.CancelledError]), which [except Exception] does not catch. *)
Inductive outcome : Type := Returned | RaisedException | RaisedBase.

(** What [execute] does: the function's own outcome, or the rejection. *)
Inductive exec_result : Type := Rejected | Called (o : outcome).

(** A whole [execute] by one caller: [now] is read at admission, [now'] when
    the outcome is recorded; [fn] is the outcome of the call, which is only
    made when admitted. *)
Definition execute (fn : outcome) now now' s : exec_result * CircuitBreaker :=
  let '(ok, s1) := grant_call now s in
  if ok then
    (Called fn, match fn with
                | Returned => record_success now' s1
                | RaisedException => record_failure now' s1
                | RaisedBase => s1
                end)
  else (Rejected, s1).

(** The lock-protected steps, as any interleaving of threads makes them. *)
Inductive event : Type :=
  | Admit (now : float)
  | Success (now : float)
  | Failure (now : float)
  | Peek (now : float)
  | Reset (now : float).

Definition step (e : event) s : CircuitBreaker :=
  match e with
  | Admit now => (grant_call now s).2
  | Success now => record_success now s
  | Failure now => record_failure now s
  | Peek now => (state now s).2
  | Reset now => reset now s
  end.

Definition run (es : list event) s : CircuitBreaker := fold_left (λ s e, step e s) es s.

Definition config_ok : Prop :=
  1 ≤ cfg.(failure_threshold) ∧ 1 ≤ cfg.(success_threshold) ≤ cfg.(half_open_max_calls).

(** The state invariant, per circuit state. *)
Definition breaker_ok s : Prop :=
  match s.(cb_state) with
  | CLOSED => 0 ≤ s.(failure_count) < cfg.(failure_threshold) ∧ s.(success_count) = 0 ∧
      s.(half_open_call_count) = 0 ∧ s.(opened_at) = None
  | OPEN => s.(failure_count) = 0 ∧ s.(success_count) = 0 ∧ s.(half_open_call_count) = 0 ∧
      is_Some s.(opened_at)
  | HALF_OPEN => s.(failure_count) = 0 ∧ 0 ≤ s.(success_count) < cfg.(success_threshold) ∧
      0 ≤ s.(half_open_call_count) ≤ cfg.(half_open_max_calls) ∧ is_Some s.(opened_at)
  end.

(** The edges of the documented state machine. *)
Definition edge (a b : CircuitState) : Prop :=
  match a, b with
  | CLOSED, OPEN | OPEN, HALF_OPEN | HALF_OPEN, CLOSED | HALF_OPEN, OPEN => True
  | _, _ => a = b
  end.

(** [n] calls by one caller with the same kind of outcome, at the given times. *)
Fixpoint executes (fns : list (outcome * float * float)) s
    : list exec_result * CircuitBreaker :=
  match fns with
  | [] => ([], s)
  | (fn, now, now') :: rest =>
      let '(r, s1) := execute fn now now' s in
      let '(rs, s2) := executes rest s1 in
      (r :: rs, s2)
  end.

(** How many of the [Admit] steps of a run were let through, and whether the
    circuit was HALF_OPEN before, between and after all of its steps. *)
Fixpoint admitted (es : list event) s : Z :=
  match es with
  | [] => 0
  | e :: es' =>
      match e with Admit now => if (grant_call now s).1 then 1 else 0 | _ => 0 end
        + admitted es' (step e s)
  end.

Fixpoint stays_half_open (es : list event) s : bool :=
  bool_decide (s.(cb_state) = HALF_OPEN) &&
  match es with [] => true | e :: es' => stays_half_open es' (step e s) end.

(** The calls [ts], each with its admission and recording time, all with outcome [o]. *)
Definition calls (o : outcome) (ts : list (float * float)) : list (outcome * float * float) :=
  (λ t, (o, t.1, t.2)) <$> ts.
End breaker.

(** ** Invariant and state machine *)
Section invariant.
Context {F : PyFloat} (cfg : CircuitBreakerConfig) (Hcfg : config_ok cfg).
Implicit Types (s : CircuitBreaker) (now : float).

Ltac breaker :=
  unfold breaker_ok, _maybe_transition_to_half_open, grant_call, record_success, record_failure,
    state, reset, reject, count_call, _transition_to in *; simpl in *.

Lemma maybe_half_open_ok now s :
  breaker_ok cfg s → breaker_ok cfg (_maybe_transition_to_half_open cfg now s).
Proof.
  destruct Hcfg as [? ?]. intros Hs. unfold _maybe_transition_to_half_open.
  destruct (_ && _) eqn:E; [|done]. bool_simpl. breaker. rewrite H1 in Hs.
  destruct Hs as (-> & _ & _ & ?). split_and!; done || lia.
Qed.

Lemma step_ok e s : breaker_ok cfg s → breaker_ok cfg (step cfg e s).
Proof.
  intros Hs. destruct Hcfg as [? ?]. destruct e as [now|now|now|now|now]; simpl.
  - pose proof (maybe_half_open_ok now s Hs) as Hs1. unfold grant_call.
    destruct (_maybe_transition_to_half_open cfg now s) as [[| |] fc sc hc oa tc ts tf tr];
      breaker; [destruct Hs1 as (?&?&?&?); split_and!; done || lia|done|].
    destruct (Z.leb_spec (half_open_max_calls cfg) hc); simpl; [done|].
    destruct Hs1 as (?&?&?&?). split_and!; done || lia.
  - destruct s as [[| |] fc sc hc oa tc ts tf tr]; breaker; [split_and!; try tauto; lia|done|].
    destruct (Z.leb_spec (success_threshold cfg) (sc + 1)); simpl; [split_and!; done || lia|].
    destruct Hs as (?&?&?&?). split_and!; done || lia.
  - destruct s as [[| |] fc sc hc oa tc ts tf tr]; breaker; [|done|by split_and!].
    destruct (Z.leb_spec (failure_threshold cfg) (fc + 1)); simpl; [by split_and!|].
    destruct Hs as (?&?&?&?). split_and!; done || lia.
  - by apply maybe_half_open_ok.
  - breaker. split_and!; done || lia.
Qed.

Lemma new_breaker_ok : breaker_ok cfg new_breaker.
Proof. destruct Hcfg as [? ?]. breaker. split_and!; done || lia. Qed.

Lemma run_ok es s : breaker_ok cfg s → breaker_ok cfg (run cfg es s).
Proof. unfold run. revert s. induction es as [|e es IH]; intros s Hs; simpl; auto using step_ok. Qed.

Lemma half_open_target now s :
  (_maybe_transition_to_half_open cfg now s).(cb_state) = s.(cb_state) ∨
  s.(cb_state) = OPEN ∧ (_maybe_transition_to_half_open cfg now s).(cb_state) = HALF_OPEN.
Proof. unfold _maybe_transition_to_half_open. case_match; [bool_simpl; auto|auto]. Qed.

Lemma admit_state now s :
  (grant_call cfg now s).2.(cb_state) = (_maybe_transition_to_half_open cfg now s).(cb_state).
Proof.
  unfold grant_call. destruct (_maybe_transition_to_half_open cfg now s) as [[| |] ????????];
    simpl; [done|done|]. by destruct (_ <=? _).
Qed.

(** Under any interleaving of callers, the breaker only moves along the
    edges of the documented state machine, [reset] aside. *)
Theorem step_edge e s :
  match e with Reset _ => True | _ => edge s.(cb_state) (step cfg e s).(cb_state) end.
Proof.
  destruct e as [now|now|now|now|now]; simpl; [| | | |done].
  - rewrite admit_state. destruct (half_open_target now s) as [->|[-> ->]]; [|done].
    by destruct (cb_state s).
  - destruct s as [[| |] fc sc hc oa tc ts tf tr]; breaker; try done. by destruct (_ <=? _).
  - destruct s as [[| |] fc sc hc oa tc ts tf tr]; breaker; try done. by destruct (_ <=? _).
  - destruct (half_open_target now s) as [->|[-> ->]]; [|done]. by destruct (cb_state s).
Qed.
End invariant.

(** C3. Whatever the threads do, a breaker built from a valid configuration keeps
    its invariant: the failure count stays below its threshold while CLOSED, the
    opening time is known while OPEN, and while HALF_OPEN at most
    [half_open_max_calls] calls are admitted and fewer than
    [success_threshold] successes are counted. *)
Theorem breaker_reachable_ok {F : PyFloat} ft rt hm st cfg es :
  new_config ft rt hm st = Ok cfg → breaker_ok cfg (run cfg es new_breaker).
Proof.
  unfold new_config. intros H.
  assert (Hcfg : config_ok cfg).
  { repeat (case_match; [done|]). simplify_eq. unfold config_ok; simpl. bool_simpl. lia. }
  by apply run_ok, new_breaker_ok.
Qed.

(** ** Behaviour of a run of calls *)
Section behaviour.
Context {F : PyFloat} (cfg : CircuitBreakerConfig).
Implicit Types (s : CircuitBreaker) (now : float).

(** While the circuit is open and the recovery timeout has not elapsed, a
    call is rejected without calling the function: only the rejection count
    changes.  Once it has elapsed, the call is admitted as the first probe. *)
Theorem execute_open fn now now' s :
  config_ok cfg → s.(cb_state) = OPEN →
  if timed_out cfg now s
  then (grant_call cfg now s).1 = true ∧ (grant_call cfg now s).2.(cb_state) = HALF_OPEN ∧
       (grant_call cfg now s).2.(half_open_call_count) = 1 ∧
       (execute cfg fn now now' s).1 = Called fn
  else execute cfg fn now now' s = (Rejected, reject s).
Proof.
  intros [? ?] Hs. unfold execute, grant_call, _maybe_transition_to_half_open. rewrite Hs.
  destruct (timed_out cfg now s) eqn:Ht; simpl.
  - destruct (Z.leb_spec (half_open_max_calls cfg) 0); [lia|]. done.
  - by rewrite Hs.
Qed.

Lemma execute_closed_fail now now' s :
  s.(cb_state) = CLOSED →
  ∃ s', execute cfg RaisedException now now' s = (Called RaisedException, s') ∧
    if failure_threshold cfg <=? s.(failure_count) + 1
    then s'.(cb_state) = OPEN ∧ s'.(opened_at) = Some now'
    else s'.(cb_state) = CLOSED ∧ s'.(failure_count) = s.(failure_count) + 1.
Proof.
  intros Hs. unfold execute, grant_call, _maybe_transition_to_half_open. rewrite Hs. simpl.
  rewrite Hs. eexists; split; [done|]. unfold record_failure. simpl. rewrite Hs. simpl.
  by destruct (failure_threshold cfg <=? _).
Qed.

(** The circuit opens at the [failure_threshold]-th consecutive failure and
    not before: from a closed circuit with no failure counted, every one of the
    failing calls up to that one reaches the function, the circuit stays closed
    after fewer of them, and is open from the time of the last after all. *)
Theorem opens_at_threshold ts s :
  config_ok cfg → s.(cb_state) = CLOSED → s.(failure_count) = 0 →
  Z.of_nat (length ts) ≤ cfg.(failure_threshold) →
  let '(rs, s') := executes cfg (calls RaisedException ts) s in
  rs = (λ _, Called RaisedException) <$> ts ∧
  if decide (Z.of_nat (length ts) = cfg.(failure_threshold))
  then s'.(cb_state) = OPEN ∧ s'.(opened_at) = snd <$> last ts
  else s'.(cb_state) = CLOSED ∧ s'.(failure_count) = Z.of_nat (length ts).
Proof.
  intros [Hft _] Hs Hfc Hl.
  enough (H : ∀ ts s, s.(cb_state) = CLOSED →
    s.(failure_count) < cfg.(failure_threshold) →
    s.(failure_count) + Z.of_nat (length ts) ≤ cfg.(failure_threshold) →
    let '(rs, s') := executes cfg (calls RaisedException ts) s in
    rs = (λ _, Called RaisedException) <$> ts ∧
    if decide (s.(failure_count) + Z.of_nat (length ts) = cfg.(failure_threshold))
    then s'.(cb_state) = OPEN ∧ s'.(opened_at) = snd <$> last ts
    else s'.(cb_state) = CLOSED ∧ s'.(failure_count) = s.(failure_count) + Z.of_nat (length ts)).
  { specialize (H ts s Hs ltac:(lia) ltac:(lia)). rewrite Hfc in H. by rewrite Z.add_0_l in H. }
  clear. intros ts. induction ts as [|[t t'] ts IH]; intros s Hs Hlt Hl; simpl in *.
  { rewrite Z.add_0_r. split; [done|]. rewrite decide_False by lia. done. }
  destruct (execute_closed_fail t t' s Hs) as (s1 & -> & Hs1).
  destruct (Z.leb_spec (failure_threshold cfg) (failure_count s + 1)).
  - destruct ts; [|simpl in *; lia]. simpl. split; [done|]. by rewrite decide_True by lia.
  - destruct Hs1 as [Hc Hf]. specialize (IH s1 Hc ltac:(lia) ltac:(lia)).
    fold (calls RaisedException ts). destruct (executes cfg (calls RaisedException ts) s1) as [rs s'].
    destruct IH as [-> IH]. split; [done|]. rewrite Hf in IH.
    replace (failure_count s + Z.of_nat (S (length ts)))
      with (failure_count s + 1 + Z.of_nat (length ts)) by lia.
    case_decide; [|done]. rewrite last_cons. destruct IH as [? ->]. split; [done|].
    destruct ts; [simpl in *; lia|]. by destruct (last _) eqn:E; [|apply last_None in E].
Qed.

Lemma half_open_step e s :
  s.(cb_state) = HALF_OPEN → (step cfg e s).(cb_state) = HALF_OPEN →
  (step cfg e s).(half_open_call_count) = s.(half_open_call_count) +
    match e with Admit now => if (grant_call cfg now s).1 then 1 else 0 | _ => 0 end ∧
  (s.(half_open_call_count) ≤ cfg.(half_open_max_calls) →
   (step cfg e s).(half_open_call_count) ≤ cfg.(half_open_max_calls)).
Proof.
  destruct s as [st fc sc hc oa tc ts tf tr]. simpl. intros ->.
  destruct e as [now|now|now|now|now];
    unfold step, grant_call, state, record_success, record_failure; simpl; intros H; try discriminate; try (split; lia).
  - destruct (Z.leb_spec (half_open_max_calls cfg) hc); simpl in *; split; lia.
  - destruct (_ <=? _); simpl in *; [discriminate|split; lia].
Qed.

(** While the circuit stays HALF_OPEN, however the callers interleave, at most
    [half_open_max_calls] probes in all are admitted. *)
Theorem half_open_bound es s :
  s.(half_open_call_count) ≤ cfg.(half_open_max_calls) →
  stays_half_open cfg es s = true →
  s.(half_open_call_count) + admitted cfg es s ≤ cfg.(half_open_max_calls).
Proof.
  revert s. induction es as [|e es IH]; intros s Hle; simpl; [lia|].
  intros [Hs Hst]%andb_true_iff. apply bool_decide_eq_true in Hs.
  assert (Hs' : (step cfg e s).(cb_state) = HALF_OPEN).
  { destruct es; simpl in Hst; apply andb_true_iff in Hst as [H _];
      by apply bool_decide_eq_true in H. }
  destruct (half_open_step e s Hs Hs') as [Hc Hb].
  specialize (IH _ (Hb Hle) Hst). lia.
Qed.

Lemma execute_half_open fn now now' s :
  s.(cb_state) = HALF_OPEN → s.(half_open_call_count) < cfg.(half_open_max_calls) →
  execute cfg fn now now' s = (Called fn,
    match fn with
    | Returned => record_success cfg now' (count_call 1 s)
    | RaisedException => record_failure cfg now' (count_call 1 s)
    | RaisedBase => count_call 1 s
    end).
Proof.
  intros Hs Hlt. unfold execute, grant_call, _maybe_transition_to_half_open. rewrite Hs. simpl.
  rewrite Hs. by destruct (Z.leb_spec (half_open_max_calls cfg) (half_open_call_count s)); [lia|].
Qed.

Lemma execute_half_open_full fn now now' s :
  s.(cb_state) = HALF_OPEN → cfg.(half_open_max_calls) ≤ s.(half_open_call_count) →
  execute cfg fn now now' s = (Rejected, reject s).
Proof.
  intros Hs Hlt. unfold execute, grant_call, _maybe_transition_to_half_open. rewrite Hs. simpl.
  rewrite Hs. by destruct (Z.leb_spec (half_open_max_calls cfg) (half_open_call_count s)); [|lia].
Qed.

(** The first call after the timeout is the first probe of a HALF_OPEN circuit. *)
Lemma execute_timed_out fn now now' s :
  s.(cb_state) = OPEN → timed_out cfg now s = true →
  execute cfg fn now now' s = execute cfg fn now now' (_transition_to HALF_OPEN now s).
Proof.
  intros Hs Ht. unfold execute, grant_call, _maybe_transition_to_half_open. by rewrite Hs, Ht.
Qed.

Lemma executes_half_open_returned ts s :
  s.(cb_state) = HALF_OPEN → s.(success_count) = s.(half_open_call_count) →
  s.(success_count) < cfg.(success_threshold) ≤ cfg.(half_open_max_calls) →
  s.(success_count) + Z.of_nat (length ts) ≤ cfg.(success_threshold) →
  let '(rs, s') := executes cfg (calls Returned ts) s in
  rs = (λ _, Called Returned) <$> ts ∧
  if decide (s.(success_count) + Z.of_nat (length ts) = cfg.(success_threshold))
  then s'.(cb_state) = CLOSED ∧ s'.(failure_count) = 0 ∧ s'.(opened_at) = None
  else s'.(cb_state) = HALF_OPEN ∧
       s'.(success_count) = s.(success_count) + Z.of_nat (length ts).
Proof.
  revert s. induction ts as [|[t t'] ts IH]; intros s Hs Heq Hlt Hl; simpl in *.
  { rewrite decide_False by lia. rewrite Z.add_0_r. done. }
  rewrite execute_half_open by (done || lia). unfold record_success. simpl. rewrite Hs. simpl.
  destruct (Z.leb_spec (success_threshold cfg) (success_count s + 1)).
  - destruct ts; [|simpl in *; lia]. simpl. split; [done|]. by rewrite decide_True by lia.
  - specialize (IH (mkBreaker HALF_OPEN s.(failure_count) (s.(success_count) + 1)
      (s.(half_open_call_count) + 1) s.(opened_at) (s.(total_calls) + 1)
      (s.(total_successes) + 1) s.(total_failures) s.(total_rejected))).
    simpl in IH. specialize (IH eq_refl ltac:(lia) ltac:(lia) ltac:(lia)).
    fold (calls Returned ts). destruct (executes _ _ _) as [rs s']. destruct IH as [-> IH].
    split; [done|].
    replace (success_count s + Z.of_nat (S (length ts)))
      with (success_count s + 1 + Z.of_nat (length ts)) by lia. done.
Qed.

(** Recovery: once the timeout has elapsed, [success_threshold] successful
    calls in a row, all of them let through, close the circuit and clear its
    failures; after fewer of them it is still HALF_OPEN. *)
Theorem recovers t t' ts s :
  config_ok cfg → s.(cb_state) = OPEN → timed_out cfg t s = true →
  Z.of_nat (length ((t, t') :: ts)) ≤ cfg.(success_threshold) →
  let '(rs, s') := executes cfg (calls Returned ((t, t') :: ts)) s in
  rs = (λ _, Called Returned) <$> ((t, t') :: ts) ∧
  if decide (Z.of_nat (length ((t, t') :: ts)) = cfg.(success_threshold))
  then s'.(cb_state) = CLOSED ∧ s'.(failure_count) = 0 ∧ s'.(opened_at) = None
  else s'.(cb_state) = HALF_OPEN ∧ s'.(success_count) = Z.of_nat (length ((t, t') :: ts)).
Proof.
  intros [_ Hst] Hs Ht Hl.
  pose proof (executes_half_open_returned ((t, t') :: ts) (_transition_to HALF_OPEN t s)
    eq_refl eq_refl ltac:(simpl; lia) Hl) as H.
  simpl executes in *. by rewrite execute_timed_out.
Qed.

(** A failing probe reopens the circuit at once, whatever had succeeded, and
    restarts the recovery timeout. *)
Theorem probe_failure_reopens now now' s :
  s.(cb_state) = HALF_OPEN → s.(half_open_call_count) < cfg.(half_open_max_calls) →
  let '(r, s') := execute cfg RaisedException now now' s in
  r = Called RaisedException ∧ s'.(cb_state) = OPEN ∧ s'.(opened_at) = Some now' ∧
  s'.(success_count) = 0 ∧ s'.(half_open_call_count) = 0.
Proof.
  intros Hs Hlt. rewrite execute_half_open by done. unfold record_failure. simpl. by rewrite Hs.
Qed.

Lemma executes_half_open_leak ts s :
  s.(cb_state) = HALF_OPEN →
  s.(half_open_call_count) + Z.of_nat (length ts) = cfg.(half_open_max_calls) →
  (executes cfg (calls RaisedBase ts) s).2.(cb_state) = HALF_OPEN ∧
  (executes cfg (calls RaisedBase ts) s).2.(half_open_call_count) = cfg.(half_open_max_calls).
Proof.
  revert s. induction ts as [|[t t'] ts IH]; intros s Hs Heq; simpl in *; [split; [done|lia]|].
  rewrite execute_half_open by (done || lia). fold (calls RaisedBase ts).
  specialize (IH (count_call 1 s) Hs ltac:(simpl; lia)).
  by destruct (executes _ _ _).
Qed.

Lemma executes_full fns s :
  s.(cb_state) = HALF_OPEN → cfg.(half_open_max_calls) ≤ s.(half_open_call_count) →
  (executes cfg fns s).1 = (λ _, Rejected) <$> fns ∧
  (executes cfg fns s).2.(cb_state) = HALF_OPEN.
Proof.
  revert s. induction fns as [|[[fn t] t'] fns IH]; intros s Hs Hle; [done|]. simpl.
  rewrite execute_half_open_full by done. specialize (IH (reject s) Hs Hle).
  destruct (executes _ _ _) as [rs s']. simpl in *. destruct IH as [-> ?]. done.
Qed.

(** C40. A probe that ends in a [BaseException] is never recorded and its slot never
    given back: after [half_open_max_calls] of them the circuit is HALF_OPEN
    for good, and rejects every later call, however long one waits. *)
Theorem leaked_probes_block t t' ts fns s :
  s.(cb_state) = OPEN → timed_out cfg t s = true →
  Z.of_nat (length ((t, t') :: ts)) = cfg.(half_open_max_calls) →
  let s1 := (executes cfg (calls RaisedBase ((t, t') :: ts)) s).2 in
  (executes cfg fns s1).1 = (λ _, Rejected) <$> fns ∧
  (executes cfg fns s1).2.(cb_state) = HALF_OPEN.
Proof.
  intros Hs Ht Hl s1.
  destruct (executes_half_open_leak ((t, t') :: ts) (_transition_to HALF_OPEN t s) eq_refl Hl)
    as [H1 H2].
  assert (E : executes cfg (calls RaisedBase ((t, t') :: ts)) s =
    executes cfg (calls RaisedBase ((t, t') :: ts)) (_transition_to HALF_OPEN t s)).
  { simpl. by rewrite execute_timed_out. }
  rewrite <-E in H1, H2. apply executes_full; [done|]. unfold s1. lia.
Qed.
End behaviour.

(** ** Witnesses, on binary64 times *)
Section witnesses.
#[local] Existing Instance B64.

Definition ex_config : CircuitBreakerConfig := mkConfig 2 (fofZ 30) 2 2.
Definition ex_open : CircuitBreaker := mkBreaker OPEN 0 0 0 (Some (fofZ 10)) 2 0 2 0.
Definition ex_half : CircuitBreaker := mkBreaker HALF_OPEN 0 1 1 (Some (fofZ 10)) 3 1 2 0.

Lemma ex_config_ok : config_ok ex_config.
Proof. unfold config_ok. simpl. lia. Qed.

Lemma breaker_reachable_ok_witness :
  breaker_ok ex_config (run ex_config [Admit (fofZ 1); Failure (fofZ 2); Failure (fofZ 3);
    Admit (fofZ 40)] new_breaker).
Proof. exact (breaker_reachable_ok 2 (fofZ 30) 2 2 ex_config _ eq_refl). Defined.

Lemma execute_open_witness :
  execute ex_config Returned (fofZ 39) (fofZ 39) ex_open = (Rejected, reject ex_open) ∧
  (execute ex_config Returned (fofZ 40) (fofZ 41) ex_open).1 = Called Returned.
Proof.
  split.
  - exact (execute_open ex_config Returned (fofZ 39) (fofZ 39) ex_open ex_config_ok eq_refl).
  - exact (proj2 (proj2 (proj2 (execute_open ex_config Returned (fofZ 40) (fofZ 41) ex_open
      ex_config_ok eq_refl)))).
Defined.

Lemma opens_at_threshold_witness :
  (executes ex_config (calls RaisedException [(fofZ 1, fofZ 2); (fofZ 3, fofZ 4)])
    new_breaker).2.(opened_at) = Some (fofZ 4).
Proof.
  exact (proj2 (proj2 (opens_at_threshold ex_config [(fofZ 1, fofZ 2); (fofZ 3, fofZ 4)]
    new_breaker ex_config_ok eq_refl eq_refl ltac:(simpl; lia)))).
Defined.

Lemma half_open_bound_witness :
  1 + admitted ex_config [Admit (fofZ 41); Admit (fofZ 42); Peek (fofZ 43)] ex_half ≤ 2.
Proof. apply (half_open_bound ex_config _ ex_half); [simpl; lia|reflexivity]. Defined.

Lemma recovers_witness :
  (executes ex_config (calls Returned [(fofZ 40, fofZ 41); (fofZ 42, fofZ 43)]) ex_open).2
    .(cb_state) = CLOSED.
Proof.
  exact (proj1 (proj2 (recovers ex_config (fofZ 40) (fofZ 41) [(fofZ 42, fofZ 43)] ex_open
    ex_config_ok eq_refl eq_refl ltac:(simpl; lia)))).
Defined.

Lemma probe_failure_reopens_witness :
  (execute ex_config RaisedException (fofZ 42) (fofZ 43) ex_half).2.(opened_at) =
    Some (fofZ 43).
Proof.
  exact (proj1 (proj2 (proj2 (probe_failure_reopens ex_config (fofZ 42) (fofZ 43) ex_half
    eq_refl eq_refl)))).
Defined.

Lemma leaked_probes_block_witness :
  let s1 := (executes ex_config (calls RaisedBase [(fofZ 40, fofZ 41); (fofZ 42, fofZ 43)])
    ex_open).2 in
  (executes ex_config (calls Returned [(fofZ 1000000, fofZ 1000001)]) s1).1 = [Rejected].
Proof.
  exact (proj1 (leaked_probes_block ex_config (fofZ 40) (fofZ 41) [(fofZ 42, fofZ 43)]
    (calls Returned [(fofZ 1000000, fofZ 1000001)]) ex_open eq_refl eq_refl eq_refl)).
Defined.
End witnesses.
