(* ===== verification/Monitor.v ===== *)
(** * Queue pressure ([backpressure/monitor.py])

    A monitor is a dictionary of queue metrics and two thresholds.  Every method
    takes the monitor's lock, so a concurrent history is a sequence of calls.
    The pressure score is stated over any floats, its bounds over exact
    rationals. *)
From stdpp Require Import base list strings.
From Stdlib Require Import ZArith QArith Lqa Lia.
From S2P Require Import Prelude PyDict PyFloat.
#[local] Close Scope Q_scope.
#[local] Open Scope Z_scope.

Section monitor.
Context {F : PyFloat}.

Record QueueMetrics : Type := mkQueueMetrics {
  name : string;
  current_depth : Z;
  max_depth : Z;
  weight : float;
}.

(** [current_depth / max_depth] is the rounded quotient of the rounded integers,
    exactly CPython's for depths below [2^53]. *)
Definition utilization (q : QueueMetrics) : float :=
  if q.(max_depth) <=? 0 then f0
  else fmin f1 (fdiv (fofZ q.(current_depth)) (fofZ q.(max_depth))).

Record BackpressureMonitor : Type := mkMonitor {
  warn_threshold : float;
  critical_threshold : float;
  queues : dict QueueMetrics;
}.

Inductive MonitorError : Type :=
  | BadThresholds | NegativeWeight | NegativeMaxDepth | NegativeDepth
  | QueueNotRegistered.

Implicit Types (m : BackpressureMonitor) (nm : string).

Definition with_queues m (qs : dict QueueMetrics) : BackpressureMonitor :=
  mkMonitor m.(warn_threshold) m.(critical_threshold) qs.

(** [BackpressureMonitor.__init__] *)
Definition new_monitor (warn critical : float) : result MonitorError BackpressureMonitor :=
  if fleb f0 warn && fltb warn critical && fleb critical f1
  then Ok (mkMonitor warn critical []) else Raise BadThresholds.

Definition register_queue nm (md : Z) (w : float) : M BackpressureMonitor MonitorError unit :=
  let! _ := guardS (fltb w f0) NegativeWeight in
  let! _ := guardS (md <? 0) NegativeMaxDepth in
  modS (λ m, with_queues m (dset m.(queues) nm (mkQueueMetrics nm 0 md w))).

Definition deregister_queue nm m : BackpressureMonitor :=
  with_queues m (ddel m.(queues) nm).

Definition set_depth (q : QueueMetrics) (depth : Z) : QueueMetrics :=
  mkQueueMetrics q.(name) depth q.(max_depth) q.(weight).

Definition update_depth nm (depth : Z) : M BackpressureMonitor MonitorError unit :=
  let! _ := guardS (depth <? 0) NegativeDepth in
  λ m, match dget m.(queues) nm with
       | None => (Raise QueueNotRegistered, m)
       | Some q => (Ok tt, with_queues m (dset m.(queues) nm (set_depth q depth)))
       end.

(** Names that are not registered are skipped and depths clamped at zero. *)
Definition update_depths (depths : dict Z) m : BackpressureMonitor :=
  fold_left (λ m nd,
    match dget m.(queues) nd.1 with
    | Some q => with_queues m (dset m.(queues) nd.1 (set_depth q (Z.max 0 nd.2)))
    | None => m
    end) depths m.

Definition pressure_score m : float :=
  let qs := dvalues m.(queues) in
  match qs with
  | [] => f0
  | _ =>
      let total_weight := fsum (weight <$> qs) in
      if feqb total_weight f0 then f0
      else fdiv (fsum ((λ q, fmul (utilization q) q.(weight)) <$> qs)) total_weight
  end.

Definition is_warn m : bool := fleb m.(warn_threshold) (pressure_score m).
Definition is_critical m : bool := fleb m.(critical_threshold) (pressure_score m).

(** [queue_metrics] and [all_metrics] return copies. *)
Definition queue_metrics nm m : result MonitorError QueueMetrics :=
  match dget m.(queues) nm with Some q => Ok q | None => Raise QueueNotRegistered end.

Definition all_metrics m : list QueueMetrics := dvalues m.(queues).

(** A call of any of the monitor's state-changing methods, raising or not. *)
Inductive monitor_op : Type :=
  | Register (nm : string) (md : Z) (w : float)
  | Deregister (nm : string)
  | UpdateDepth (nm : string) (d : Z)
  | UpdateDepths (ds : dict Z).

Definition monitor_step (o : monitor_op) m : BackpressureMonitor :=
  match o with
  | Register nm md w => (register_queue nm md w m).2
  | Deregister nm => deregister_queue nm m
  | UpdateDepth nm d => (update_depth nm d m).2
  | UpdateDepths ds => update_depths ds m
  end.

Definition monitor_run (os : list monitor_op) m : BackpressureMonitor :=
  fold_left (λ m o, monitor_step o m) os m.

(** Names are distinct keys, depths and bounds are not negative, and no weight
    is negative (a NaN weight passes the constructor's guard). *)
Definition metrics_ok (kq : string * QueueMetrics) : Prop :=
  kq.2.(name) = kq.1 ∧ 0 ≤ kq.2.(current_depth) ∧ 0 ≤ kq.2.(max_depth) ∧
  fltb kq.2.(weight) f0 = false.

Definition monitor_ok m : Prop :=
  fbetween f0 m.(warn_threshold) f1 = true ∧
  fltb m.(warn_threshold) m.(critical_threshold) = true ∧
  fleb m.(critical_threshold) f1 = true ∧
  dwf m.(queues) ∧ Forall metrics_ok m.(queues).
End monitor.

Section invariant.
Context {F : PyFloat} {HF : FloatOrder F}.
Implicit Types (m : BackpressureMonitor) (nm : string).

Lemma metrics_ok_get m nm q :
  Forall metrics_ok m.(queues) → dget m.(queues) nm = Some q → metrics_ok (nm, q).
Proof. intros H ?%dget_Some_elem. by eapply Forall_forall in H. Qed.

Lemma set_depth_ok m nm q d :
  monitor_ok m → dget m.(queues) nm = Some q → 0 ≤ d →
  monitor_ok (with_queues m (dset m.(queues) nm (set_depth q d))).
Proof.
  intros (?&?&?&?&Hm) Hq ?. pose proof (metrics_ok_get m nm q Hm Hq) as (?&?&?&?).
  split_and!; simpl; [done..|auto with py|]. apply Forall_dset; [done|]. by split_and!.
Qed.

Lemma update_depths_ok ds m : monitor_ok m → monitor_ok (update_depths ds m).
Proof.
  unfold update_depths. revert m. induction ds as [|[nm d] ds IH]; simpl; [done|].
  intros m Hm. apply IH. destruct (dget _ nm) as [q|] eqn:E; [|done].
  apply set_depth_ok; [done..|lia].
Qed.

Lemma monitor_step_ok o m : monitor_ok m → monitor_ok (monitor_step o m).
Proof.
  intros Hm. destruct o as [nm md w|nm|nm d|ds]; simpl.
  - unfold register_queue. run_m; try done. destruct Hm as (?&?&?&?&?).
    bool_simpl. split_and!; simpl; [done..|auto with py|]. apply Forall_dset; [done|]. by split_and!.
  - destruct Hm as (?&?&?&?&?). split_and!; simpl; auto with py.
  - unfold update_depth. run_m; try done. bool_simpl.
    destruct (dget _ nm) as [q|] eqn:E; simpl; [|done]. by apply set_depth_ok.
  - by apply update_depths_ok.
Qed.

Lemma monitor_run_ok os m : monitor_ok m → monitor_ok (monitor_run os m).
Proof.
  unfold monitor_run. revert m. induction os; simpl; auto using monitor_step_ok.
Qed.

Lemma new_monitor_ok warn critical m : new_monitor warn critical = Ok m → monitor_ok m.
Proof.
  unfold new_monitor. destruct (_ && _) eqn:E; [|done]. intros [= <-]. bool_simpl.
  split_and!; simpl; [|done|done|apply dwf_nil|constructor].
  unfold fbetween. apply andb_true_iff. split; [done|].
  apply (fleb_trans _ critical); auto with py.
Qed.

(** After any sequence of calls, raising or not, on a monitor the constructor
    accepted, queue names are distinct keys, every depth and capacity is not
    negative and no weight is negative. *)
Theorem monitor_reachable_ok warn critical m os :
  new_monitor warn critical = Ok m → monitor_ok (monitor_run os m).
Proof. intros. eauto using monitor_run_ok, new_monitor_ok. Qed.

(** A critical monitor is also in the warning band. *)
Theorem critical_is_warn m :
  monitor_ok m → is_critical m = true → is_warn m = true.
Proof.
  unfold is_critical, is_warn. intros (_&H&_&_&_). apply fleb_trans. auto with py.
Qed.

Lemma update_depth_registered nm d m q :
  0 ≤ d → dget m.(queues) nm = Some q →
  update_depth nm d m = (Ok tt, with_queues m (dset m.(queues) nm (set_depth q d))).
Proof.
  intros Hd Hq. unfold update_depth. rewrite bindS_guard.
  destruct (Z.ltb_spec d 0); [lia|]. by rewrite Hq.
Qed.

Lemma update_depth_unregistered nm d m :
  0 ≤ d → dget m.(queues) nm = None → update_depth nm d m = (Raise QueueNotRegistered, m).
Proof.
  intros Hd Hq. unfold update_depth. rewrite bindS_guard.
  destruct (Z.ltb_spec d 0); [lia|]. by rewrite Hq.
Qed.
End invariant.

(** ** The score, over exact rationals *)
Section score.
#[local] Existing Instance QF.
#[local] Open Scope Q_scope.

Lemma utilization_bounds (q : QueueMetrics) :
  (0 <= current_depth q)%Z → 0 <= utilization q <= 1.
Proof.
  intros Hd. unfold utilization. destruct (Z.leb_spec (max_depth q) 0); [qf; lra|].
  pose proof (fdiv_nonneg _ _ Hd H) as H1.
  destruct (fmin_q f1 (fdiv (fofZ (current_depth q)) (fofZ (max_depth q))))
    as (H2 & _ & [E|E]); split; [rewrite E|..|rewrite E|]; done.
Qed.

Lemma weighted_sum_bounds (qs : list QueueMetrics) :
  Forall (λ q, (0 <= current_depth q)%Z ∧ 0 <= weight q) qs →
  0 <= fsum ((λ q, fmul (utilization q) (weight q)) <$> qs) <= fsum (weight <$> qs).
Proof.
  induction 1 as [|q qs [Hd Hw] _ IH]; [unfold fsum; simpl; qf; lra|].
  rewrite !fmap_cons, !fsum_cons. pose proof (utilization_bounds q Hd). simpl in *. nra.
Qed.

Lemma metrics_nonneg (m : BackpressureMonitor) :
  monitor_ok m →
  Forall (λ q, (0 <= current_depth q)%Z ∧ 0 <= weight q) (dvalues (queues m)).
Proof.
  intros (_&_&_&_&Hm). unfold dvalues. apply Forall_fmap.
  eapply Forall_impl; [exact Hm|]. intros [k q] (_&?&_&Hw). split; [done|].
  by apply Qltb_ge in Hw.
Qed.

Lemma pressure_score_nonneg_den (m : BackpressureMonitor) :
  monitor_ok m → 0 <= fsum (weight <$> dvalues (queues m)).
Proof.
  intros Hm. destruct (weighted_sum_bounds _ (metrics_nonneg m Hm)).
  by eapply Qle_trans.
Qed.

(** The pressure of every reachable monitor lies between 0 and 1. *)
Theorem pressure_score_bounds (m : BackpressureMonitor) :
  monitor_ok m → 0 <= pressure_score m <= 1.
Proof.
  intros Hm. pose proof (metrics_nonneg m Hm) as Hqs. unfold pressure_score.
  destruct (dvalues (queues m)) as [|q qs] eqn:E; [qf; lra|]. rewrite <-E in *.
  clear E. destruct (feqb _ f0) eqn:Ew; [qf; lra|].
  pose proof (weighted_sum_bounds _ Hqs) as [H1 H2].
  assert (Hpos : 0 < fsum (weight <$> dvalues (queues m))).
  { assert (0 <= fsum (weight <$> dvalues (queues m))) as H0 by by eapply Qle_trans.
    apply Qle_lt_or_eq in H0 as [?|H0]; [done|].
    rewrite <-not_true_iff_false in Ew. exfalso. apply Ew. apply Qeq_bool_iff. by symmetry. }
  split; simpl.
  - apply Qle_shift_div_l; [done|]. by rewrite Qmult_0_l.
  - apply Qle_shift_div_r; [done|]. by rewrite Qmult_1_l.
Qed.

Lemma utilization_mono (q : QueueMetrics) (d : Z) :
  (current_depth q <= d)%Z → utilization q <= utilization (set_depth q d).
Proof.
  intros Hd. unfold utilization. simpl. destruct (Z.leb_spec (max_depth q) 0); [apply Qle_refl|].
  apply fmin_mono. by apply fdiv_mono.
Qed.

Lemma weights_set_depth (qs : dict QueueMetrics) nm q d :
  dget qs nm = Some q → weight <$> dvalues (dset qs nm (set_depth q d)) = weight <$> dvalues qs.
Proof.
  induction qs as [|[k v] qs IH]; simpl; [done|]. case_decide; csimpl.
  - by intros [= ->].
  - intros H1. f_equal. by apply IH.
Qed.

Lemma weighted_sum_mono (qs : dict QueueMetrics) nm q d :
  dget qs nm = Some q → (current_depth q <= d)%Z → 0 <= weight q →
  fsum ((λ q, fmul (utilization q) (weight q)) <$> dvalues qs) <=
  fsum ((λ q, fmul (utilization q) (weight q)) <$> dvalues (dset qs nm (set_depth q d))).
Proof.
  intros Hq Hd Hw. induction qs as [|[k v] qs IH]; simpl in *; [done|].
  case_decide; csimpl; rewrite !fsum_cons; apply Qplus_le_compat.
  - injection Hq as ->. apply Qmult_le_compat_r; [by apply utilization_mono|done].
  - apply Qle_refl.
  - apply Qle_refl.
  - by apply IH.
Qed.

Lemma dvalues_set_nonempty {V} (d : dict V) k v : dvalues (dset d k v) ≠ [].
Proof. destruct d as [|[k0 v0] d]; simpl; [done|]. by case_decide. Qed.

(** Backpressure responds in the right direction: growing one queue's depth
    never lowers the pressure score. *)
Theorem pressure_monotone (m : BackpressureMonitor) nm q d :
  monitor_ok m → dget m.(queues) nm = Some q → (current_depth q <= d)%Z →
  pressure_score m <= pressure_score (update_depth nm d m).2.
Proof.
  intros Hok Hq Hd. pose proof Hok as (_&_&_&_&Hm).
  pose proof (metrics_ok_get m nm q Hm Hq) as (_&Hc&_&Hw). apply Qltb_ge in Hw.
  assert (0 <= d)%Z by (etrans; [exact Hc|done]).
  rewrite (update_depth_registered _ _ _ q) by done. cbn [snd].
  pose proof (pressure_score_nonneg_den m Hok) as Hden.
  unfold pressure_score. cbn [queues with_queues].
  destruct (dvalues (queues m)) as [|v vs] eqn:E1.
  { destruct (queues m); simpl in *; discriminate. }
  destruct (dvalues (dset _ _ _)) as [|v' vs'] eqn:E2; [by apply dvalues_set_nonempty in E2|].
  rewrite <-E1, <-E2, weights_set_depth by done. rewrite <-E1 in Hden.
  destruct (feqb (fsum (weight <$> dvalues (queues m))) f0) eqn:Ew.
  { apply Qle_refl. }
  pose proof (weighted_sum_mono _ nm q d Hq Hd Hw).
  unfold fdiv; simpl. unfold Qdiv. apply Qmult_le_compat_r; [done|].
  by apply Qinv_le_0_compat.
Qed.
End score.

(** ** Witnesses *)
Section witnesses.
#[local] Existing Instance B64.

Definition ex_monitor : BackpressureMonitor := mkMonitor (flit 7 10) (flit 9 10) [].

Lemma monitor_reachable_ok_witness :
  monitor_ok (monitor_run [Register "q" 10 f1; UpdateDepth "q" 9; UpdateDepth "x" 1] ex_monitor).
Proof. exact (monitor_reachable_ok (flit 7 10) (flit 9 10) ex_monitor _ eq_refl). Defined.

Definition ex_full : BackpressureMonitor :=
  mkMonitor (flit 7 10) (flit 9 10) [("q", mkQueueMetrics "q" 10 10 f1)].

Lemma ex_full_ok : monitor_ok ex_full.
Proof. split_and!; try reflexivity; [apply NoDup_singleton|by repeat constructor]. Qed.

Lemma critical_is_warn_witness : is_warn ex_full = true.
Proof. exact (critical_is_warn ex_full ex_full_ok eq_refl). Defined.
End witnesses.

Section score_witnesses.
#[local] Existing Instance QF.

Definition ex_queues : BackpressureMonitor :=
  mkMonitor (flit 7 10) (flit 9 10)
    [("a", mkQueueMetrics "a" 5 10 f1); ("b", mkQueueMetrics "b" 30 10 (fofZ 2))].

Lemma ex_queues_ok : monitor_ok ex_queues.
Proof.
  split_and!; try reflexivity; [|by repeat constructor].
  apply NoDup_cons; split; [|apply NoDup_singleton].
  by rewrite list_elem_of_singleton.
Qed.

Lemma pressure_score_bounds_witness : (pressure_score ex_queues <= 1)%Q.
Proof. exact (proj2 (pressure_score_bounds ex_queues ex_queues_ok)). Defined.

Lemma pressure_monotone_witness :
  (pressure_score ex_queues <= pressure_score (update_depth "a" 7 ex_queues).2)%Q.
Proof.
  apply (pressure_monotone ex_queues "a" (mkQueueMetrics "a" 5 10 f1) 7 ex_queues_ok eq_refl).
  by vm_compute.
Defined.
End score_witnesses.
