(* ===== verification/TaskQueue.v ===== *)
(** * The bounded task queue ([backpressure/task_queue.py])

    [BackpressureQueue] wraps a [queue.Queue] and, under its own lock, counters,
    a pressure flag with two watermarks, and the depth reported to a monitor.
    [enqueue], [dequeue] and [drain] are composed of the atomic sections of the code, the
    call on the standard queue and the locked bookkeeping, which [TaskThreads] interleaves
    for several threads. *)
From stdpp Require Import base list strings relations.
From Stdlib Require Import ZArith QArith Lia.
From S2P Require Import Prelude PyDict PyFloat Monitor.
#[local] Close Scope Q_scope.
#[local] Open Scope Z_scope.

Section task_queue.
Context {F : PyFloat} {T : Type} (callable : T → bool).

(** [WouldBlock]: the call waits until another thread makes room (or puts a
    task); the other constructors are exceptions. *)
Inductive TQError : Type :=
  | BadMaxSize | BadHighWatermark | BadLowWatermark
  | NotCallable | QueueFullError | QueueEmptyError | BadTimeout
  | MonitorRaised (e : MonitorError) | WouldBlock.

Record BackpressureQueue : Type := mkTQ {
  max_size : Z;
  high_watermark : float;
  low_watermark : float;
  queue_name : string;
  _q : list T;
  enqueued_total : Z;
  dequeued_total : Z;
  dropped_total : Z;
  under_pressure : bool;
  monitor : BackpressureMonitor;
}.

Implicit Types (s : BackpressureQueue) (t : T).

(** [BackpressureQueue.__init__], on the monitor given or a fresh one with the
    default thresholds 0.7 and 0.9. *)
Definition new_queue (ms : Z) (mon : BackpressureMonitor) (qn : string) (high low : float)
    : result TQError BackpressureQueue :=
  if ms <? 1 then Raise BadMaxSize
  else if negb (fltb f0 high && fleb high f1) then Raise BadHighWatermark
  else if negb (fleb f0 low && fltb low high) then Raise BadLowWatermark
  else match register_queue qn ms f1 mon with
       | (Ok _, mon') => Ok (mkTQ ms high low qn [] 0 0 0 false mon')
       | (Raise e, _) => Raise (MonitorRaised e)
       end.

(** [qsize], the [size], [fill_ratio], [is_empty] and [is_full] properties. *)
Definition size s : Z := Z.of_nat (length s.(_q)).
Definition fill_ratio s : float := fdiv (fofZ (size s)) (fofZ s.(max_size)).
Definition is_empty s : bool := size s =? 0.
Definition is_full s : bool := s.(max_size) <=? size s.

(** [queue.Queue.put] and [get], as far as one caller sees: a timeout that is not
    given waits for another thread, a negative one is a [ValueError], another one
    runs out. *)
Definition waiting (block : bool) (timeout : option float) (blocked : bool) (out : TQError)
    : result TQError unit :=
  if block then
    match timeout with
    | None => if blocked then Raise WouldBlock else Ok tt
    | Some d => if fltb d f0 then Raise BadTimeout
                else if blocked then Raise out else Ok tt
    end
  else if blocked then Raise out else Ok tt.

Definition set_q s (q : list T) : BackpressureQueue :=
  mkTQ s.(max_size) s.(high_watermark) s.(low_watermark) s.(queue_name) q
    s.(enqueued_total) s.(dequeued_total) s.(dropped_total) s.(under_pressure) s.(monitor).

Definition count s (enq deq drop : Z) (up : bool) : BackpressureQueue :=
  mkTQ s.(max_size) s.(high_watermark) s.(low_watermark) s.(queue_name) s.(_q)
    (s.(enqueued_total) + enq) (s.(dequeued_total) + deq) (s.(dropped_total) + drop)
    up s.(monitor).

(** [self._monitor.update_depth(self._queue_name, depth)]: the monitor may be
    shared and may raise. *)
Definition report (depth : Z) : M BackpressureQueue TQError unit := λ s,
  let '(r, mon') := update_depth s.(queue_name) depth s.(monitor) in
  let s' := mkTQ s.(max_size) s.(high_watermark) s.(low_watermark) s.(queue_name) s.(_q)
    s.(enqueued_total) s.(dequeued_total) s.(dropped_total) s.(under_pressure) mon' in
  match r with Ok _ => (Ok tt, s') | Raise e => (Raise (MonitorRaised e), s') end.

(** [self._q.put(task, block, timeout)] *)
Definition q_put t (block : bool) (timeout : option float) : M BackpressureQueue TQError unit := λ s,
  match waiting block timeout (is_full s) QueueFullError with
  | Raise e => (Raise e, s)
  | Ok _ => (Ok tt, set_q s (s.(_q) ++ [t]))
  end.

(** [self._q.get(block, timeout)] *)
Definition q_get (block : bool) (timeout : option float) : M BackpressureQueue TQError T := λ s,
  match waiting block timeout (is_empty s) QueueEmptyError, s.(_q) with
  | Raise e, _ => (Raise e, s)
  | Ok _, t :: q => (Ok t, set_q s q)
  | Ok _, [] => (Raise QueueEmptyError, s)
  end.

(** The locked part of [enqueue] when there was no room. *)
Definition count_dropped : M BackpressureQueue TQError unit :=
  modS (λ s, count s 0 0 1 s.(under_pressure)).

(** The locked part of [enqueue]. *)
Definition count_enqueued : M BackpressureQueue TQError unit :=
  let! _ := modS (λ s, count s 1 0 0
    (if fleb s.(high_watermark) (fill_ratio s) && negb s.(under_pressure) then true
     else s.(under_pressure))) in
  λ s, report (size s) s.

(** The locked part of [dequeue]. *)
Definition count_dequeued : M BackpressureQueue TQError unit :=
  let! _ := modS (λ s, count s 0 1 0
    (if fltb (fill_ratio s) s.(low_watermark) && s.(under_pressure) then false
     else s.(under_pressure))) in
  λ s, report (size s) s.

(** The locked part of [drain], after [n] tasks were taken. *)
Definition count_drained (n : Z) : M BackpressureQueue TQError unit := λ s,
  let '(r, s') := report 0 (count s 0 n 0 s.(under_pressure)) in
  match r with
  | Ok _ => (Ok tt, count s' 0 0 0 false)
  | Raise e => (Raise e, s')
  end.

Definition enqueue t (block : bool) (timeout : option float)
    : M BackpressureQueue TQError unit :=
  let! _ := guardS (negb (callable t)) NotCallable in
  λ s, match q_put t block timeout s with
       | (Raise QueueFullError, s) => (let! _ := count_dropped in raiseS QueueFullError) s
       | (Raise e, s) => (Raise e, s)
       | (Ok _, s) => count_enqueued s
       end.

Definition enqueue_nowait t : M BackpressureQueue TQError unit := enqueue t false None.

Definition dequeue (block : bool) (timeout : option float) : M BackpressureQueue TQError T :=
  let! t := q_get block timeout in
  let! _ := count_dequeued in
  retS t.

Definition dequeue_nowait : M BackpressureQueue TQError T := dequeue false None.

(** The loop of [drain]: [get_nowait] until it raises [queue.Empty]; alone, it takes as
    many turns as there are tasks, and one. *)
Fixpoint drain_loop (fuel : nat) (tasks : list T) : M BackpressureQueue TQError (list T) := λ s,
  match fuel with
  | O => (Ok tasks, s)
  | S fuel' =>
      match q_get false None s with
      | (Ok t, s) => drain_loop fuel' (tasks ++ [t]) s
      | (Raise QueueEmptyError, s) => (Ok tasks, s)
      | (Raise e, s) => (Raise e, s)
      end
  end.

Definition drain : M BackpressureQueue TQError (list T) := λ s,
  (let! tasks := drain_loop (S (length s.(_q))) [] in
   let! _ := count_drained (Z.of_nat (length tasks)) in
   retS tasks) s.

Record QueueStats : Type := mkStats {
  st_size : Z; st_max_size : Z; st_fill_ratio : float; st_is_under_pressure : bool;
  st_enqueued_total : Z; st_dequeued_total : Z; st_dropped_total : Z;
}.

Definition stats s : QueueStats :=
  mkStats (size s) s.(max_size) (fill_ratio s) s.(under_pressure)
    s.(enqueued_total) s.(dequeued_total) s.(dropped_total).

(** A call of any of the queue's methods, whatever it returns. *)
Inductive tq_op : Type :=
  | Enqueue (t : T) (block : bool) (timeout : option float)
  | Dequeue (block : bool) (timeout : option float)
  | Drain.

(** The tasks a call puts and the tasks it hands out. *)
Definition tq_step (o : tq_op) s : (list T * list T) * BackpressureQueue :=
  match o with
  | Enqueue t b d =>
      match enqueue t b d s with
      | (Ok _, s') => ([t], [], s') | (Raise _, s') => ([], [], s') end
  | Dequeue b d =>
      match dequeue b d s with
      | (Ok t, s') => ([], [t], s') | (Raise _, s') => ([], [], s') end
  | Drain =>
      match drain s with
      | (Ok ts, s') => ([], ts, s') | (Raise _, s') => ([], [], s') end
  end.

Fixpoint tq_run (os : list tq_op) s : (list T * list T) * BackpressureQueue :=
  match os with
  | [] => ([], [], s)
  | o :: os' =>
      let '(i1, o1, s1) := tq_step o s in
      let '(i2, o2, s2) := tq_run os' s1 in
      (i1 ++ i2, o1 ++ o2, s2)
  end.

(** What holds between calls: the queue is bounded, the counters account for
    every task, and the monitor knows the depth. *)
Definition tq_ok s : Prop :=
  1 ≤ s.(max_size) ∧ size s ≤ s.(max_size) ∧
  s.(enqueued_total) - s.(dequeued_total) = size s ∧
  0 ≤ s.(dequeued_total) ∧ 0 ≤ s.(dropped_total) ∧
  current_depth <$> dget s.(monitor).(queues) s.(queue_name) = Some (size s).
End task_queue.
Arguments tq_op F T : clear implicits.

(** ** One caller *)
Section sequential.
Context {F : PyFloat} {T : Type} (callable : T → bool).
Implicit Types (s : BackpressureQueue (T:=T)).

(** The constructor's parameters, which no call changes. *)
Definition same_config s s' : Prop :=
  s'.(max_size) = s.(max_size) ∧ s'.(high_watermark) = s.(high_watermark) ∧
  s'.(low_watermark) = s.(low_watermark).

Definition registered s : bool := dmem s.(monitor).(queues) s.(queue_name).

(** The bookkeeping when the queue is known to the monitor. *)
Lemma report_spec d s :
  0 ≤ d → registered s = true →
  ∃ s', report d s = (Ok tt, s') ∧ s'.(_q) = s.(_q) ∧ s'.(max_size) = s.(max_size) ∧
    s'.(high_watermark) = s.(high_watermark) ∧ s'.(low_watermark) = s.(low_watermark) ∧
    s'.(queue_name) = s.(queue_name) ∧ s'.(enqueued_total) = s.(enqueued_total) ∧
    s'.(dequeued_total) = s.(dequeued_total) ∧ s'.(dropped_total) = s.(dropped_total) ∧
    s'.(under_pressure) = s.(under_pressure) ∧
    current_depth <$> dget s'.(monitor).(queues) s'.(queue_name) = Some d.
Proof.
  unfold registered, dmem. intros Hd Hr. destruct (dget _ _) as [q|] eqn:Hq; [|done].
  unfold report. rewrite (update_depth_registered _ _ _ q) by done.
  eexists. split; [done|]. simpl. rewrite dget_set_eq. done.
Qed.

Lemma report_unregistered d s :
  0 ≤ d → registered s = false →
  report d s = (Raise (MonitorRaised QueueNotRegistered), s).
Proof.
  unfold registered. rewrite dmem_false. intros Hd Hq.
  unfold report. rewrite update_depth_unregistered by done. by destruct s.
Qed.

Lemma tq_ok_registered s : tq_ok s → registered s = true.
Proof.
  intros (_&_&_&_&_&H). unfold registered, dmem.
  by destruct (dget (queues (monitor s)) (queue_name s)).
Qed.

(** Bookkeeping after a change of the queue establishes the invariant again. *)
Lemma count_report_ok s enq deq drop up :
  registered s = true → 1 ≤ s.(max_size) → size s ≤ s.(max_size) →
  s.(enqueued_total) + enq - (s.(dequeued_total) + deq) = size s →
  0 ≤ s.(dequeued_total) + deq → 0 ≤ s.(dropped_total) + drop →
  ∃ s', report (size s) (count s enq deq drop up) = (Ok tt, s') ∧ tq_ok s' ∧
    s'.(_q) = s.(_q) ∧ s'.(max_size) = s.(max_size) ∧
    s'.(dropped_total) = s.(dropped_total) + drop ∧ s'.(under_pressure) = up ∧
    s'.(enqueued_total) = s.(enqueued_total) + enq ∧
    s'.(dequeued_total) = s.(dequeued_total) + deq ∧
    s'.(high_watermark) = s.(high_watermark) ∧ s'.(low_watermark) = s.(low_watermark).
Proof.
  intros Hr ?????. assert (0 ≤ size s) by (unfold size; lia).
  destruct (report_spec (size s) (count s enq deq drop up)) as
    (s' & -> & Hq & Hm & Hh & Hl & Hn & He & Hd & Hdr & Hu & Hdep); [done|exact Hr|].
  exists s'. split; [done|]. unfold tq_ok, size in *. rewrite Hq, Hm, He, Hd, Hdr, Hdep. simpl.
  split_and!; done || lia.
Qed.
Lemma waiting_cases block d blocked out :
  (waiting block d blocked out = Ok tt ∧ blocked = false) ∨
  (∃ e, waiting block d blocked out = Raise e ∧ (e = out ∧ blocked = true ∨
     e = BadTimeout ∨ e = WouldBlock ∧ block = true ∧ d = None ∧ blocked = true)).
Proof. unfold waiting. destruct block, d, blocked; simpl; try case_match; naive_solver. Qed.

Lemma enqueue_put t block d s :
  tq_ok s → callable t = true → waiting block d (is_full s) QueueFullError = Ok tt →
  ∃ s', enqueue callable t block d s = (Ok tt, s') ∧ tq_ok s' ∧
    s'.(_q) = s.(_q) ++ [t] ∧ same_config s s' ∧
    s'.(dropped_total) = s.(dropped_total) ∧
    s'.(under_pressure) = s.(under_pressure) || fleb s'.(high_watermark) (fill_ratio s').
Proof.
  intros Hok Hc Hw. pose proof (tq_ok_registered s Hok) as Hr.
  destruct Hok as (Hm&Hsz&Hcnt&Hd&Hdr&_).
  destruct (waiting_cases block d (is_full s) QueueFullError) as [[_ Hf]|(e&?&_)];
    [|congruence].
  unfold is_full in Hf. bool_simpl.
  unfold enqueue, q_put. rewrite bindS_guard, Hc. simpl. rewrite Hw. unfold count_enqueued.
  set (s1 := set_q s (_q s ++ [t])).
  assert (Hs1 : size s1 = size s + 1).
  { unfold size, s1. simpl. rewrite length_app. simpl. lia. }
  change (bindS _ _ s1) with (report (size s1) (count s1 1 0 0
    (if fleb (high_watermark s1) (fill_ratio s1) && negb (under_pressure s1) then true
     else under_pressure s1))).
  destruct (count_report_ok s1 1 0 0 (if fleb (high_watermark s1) (fill_ratio s1) &&
      negb (under_pressure s1) then true else under_pressure s1)) as
    (s' & -> & Hok' & Hq & Hm' & Hdr' & Hu & _ & _ & Hh & Hl); simpl in *; try done; try lia.
  exists s'. assert (Hfill : fill_ratio s' = fill_ratio s1)
    by (unfold fill_ratio, size; by rewrite Hq, Hm').
  unfold same_config. split_and!; try done; [lia|]. rewrite Hfill, Hu, Hh. simpl.
  by destruct (under_pressure s), (fleb (high_watermark s) (fill_ratio s1)).
Qed.

(** Every branch of [enqueue] on a queue in order: a task that is not callable
    changes nothing; without room it is dropped and counted (or the call waits,
    or its timeout is rejected); with room it becomes the last task, the counter
    and the monitor follow, and the pressure flag is set from the high watermark
    up and otherwise kept. *)
Lemma enqueue_spec t block d s :
  tq_ok s →
  match enqueue callable t block d s with
  | (Ok _, s') => tq_ok s' ∧ callable t = true ∧ size s < s.(max_size) ∧
      s'.(_q) = s.(_q) ++ [t] ∧ same_config s s' ∧ s'.(dropped_total) = s.(dropped_total) ∧
      s'.(under_pressure) = s.(under_pressure) || fleb s'.(high_watermark) (fill_ratio s')
  | (Raise QueueFullError, s') => callable t = true ∧ size s = s.(max_size) ∧
      s' = count s 0 0 1 s.(under_pressure)
  | (Raise NotCallable, s') => callable t = false ∧ s' = s
  | (Raise e, s') => s' = s ∧ block = true ∧ (e = BadTimeout ∨ e = WouldBlock)
  end.
Proof.
  intros Hok. destruct (callable t) eqn:Hc.
  2: { unfold enqueue. rewrite bindS_guard, Hc. simpl. done. }
  destruct (waiting block d (is_full s) QueueFullError) as [[]|e] eqn:Hw.
  - destruct (enqueue_put t block d s Hok Hc Hw) as (s' & -> & Hok' & Hq & Hm & Hd & Hu).
    split_and!; try done. destruct Hok' as (_&Hsz&_). destruct Hm as [Hm _]. unfold size in *.
    rewrite Hq, length_app, Hm in Hsz. simpl in Hsz. lia.
  - unfold enqueue, q_put. rewrite bindS_guard, Hc. simpl. rewrite Hw.
    unfold count_dropped, bindS, modS, raiseS. destruct Hok as (_&Hsz&_). unfold waiting in Hw.
    assert (Hfull : is_full s = true → size s = max_size s)
      by (unfold is_full; intros; bool_simpl; lia).
    destruct block, d; repeat case_match; simplify_eq; split_and!; auto.
Qed.

Lemma dequeue_got t q block d s :
  tq_ok s → s.(_q) = t :: q → waiting block d (is_empty s) QueueEmptyError = Ok tt →
  ∃ s', dequeue block d s = (Ok t, s') ∧ tq_ok s' ∧ s'.(_q) = q ∧
    same_config s s' ∧ s'.(dropped_total) = s.(dropped_total) ∧
    s'.(under_pressure) = s.(under_pressure) && negb (fltb (fill_ratio s') s'.(low_watermark)).
Proof.
  intros Hok Hq0 Hw. pose proof (tq_ok_registered s Hok) as Hr.
  destruct Hok as (Hm&Hsz&Hcnt&Hd&Hdr&_).
  unfold dequeue, q_get. unfold bindS at 1. rewrite Hw, Hq0. unfold count_dequeued.
  set (s1 := set_q s q).
  assert (Hs1 : size s1 + 1 = size s).
  { unfold size, s1. rewrite Hq0. simpl. lia. }
  set (up := if fltb (fill_ratio s1) (low_watermark s1) && under_pressure s1 then false
     else under_pressure s1).
  change (bindS _ _ s1) with
    (bindS (report (size s1)) (λ _, retS t) (count s1 0 1 0 up)).
  destruct (count_report_ok s1 0 1 0 up) as
    (s' & Hrep & Hok' & Hq & Hm' & Hdr' & Hu & _ & _ & Hh & Hl); simpl in *; try done; try lia.
  unfold bindS. rewrite Hrep.
  exists s'. assert (Hfill : fill_ratio s' = fill_ratio s1)
    by (unfold fill_ratio, size; by rewrite Hq, Hm').
  unfold same_config. split_and!; try done; [lia|]. rewrite Hfill, Hu, Hl. unfold up. simpl.
  by destruct (under_pressure s), (fltb (fill_ratio s1) (low_watermark s)).
Qed.

(** Every branch of [dequeue]: the oldest task is handed out, the counter and
    the monitor follow, and the pressure flag is cleared below the low watermark
    and otherwise kept; nothing changes on an empty queue. *)
Lemma dequeue_spec block d s :
  tq_ok s →
  match dequeue block d s with
  | (Ok t, s') => tq_ok s' ∧ s.(_q) = t :: s'.(_q) ∧ same_config s s' ∧
      s'.(dropped_total) = s.(dropped_total) ∧
      s'.(under_pressure) =
        s.(under_pressure) && negb (fltb (fill_ratio s') s'.(low_watermark))
  | (Raise QueueEmptyError, s') => s.(_q) = [] ∧ s' = s
  | (Raise e, s') => s' = s ∧ block = true ∧ (e = BadTimeout ∨ e = WouldBlock)
  end.
Proof.
  intros Hok. destruct (waiting block d (is_empty s) QueueEmptyError) as [[]|e] eqn:Hw.
  - destruct (s.(_q)) as [|t q] eqn:Hq.
    { unfold dequeue, q_get, bindS at 1. rewrite Hw, Hq. done. }
    destruct (dequeue_got t q block d s Hok Hq Hw) as (s' & -> & Hok' & Hq' & Hm & Hd & Hu).
    split_and!; try done. by rewrite Hq'.
  - unfold dequeue, q_get, bindS at 1. rewrite Hw. unfold waiting in Hw.
    assert (Hemp : is_empty s = true → s.(_q) = []).
    { unfold is_empty, size. intros. bool_simpl. destruct (_q s); [done|simpl in *; lia]. }
    destruct block, d; repeat case_match; simplify_eq; split_and!; auto.
Qed.

(** Alone, the loop takes every task. *)
Lemma drain_loop_all n (tasks : list T) s :
  (length s.(_q) < n)%nat →
  drain_loop n tasks s = (Ok (tasks ++ s.(_q)), set_q s []).
Proof.
  revert tasks s. induction n as [|n IH]; intros tasks s Hn; [lia|]. cbn [drain_loop].
  unfold q_get, waiting, is_empty, size. destruct s as [ms h l nm q et dt drt up mon]. simpl in *.
  destruct q as [|t q]; simpl in *; [by rewrite app_nil_r|].
  rewrite IH by (simpl; lia). by rewrite <-app_assoc.
Qed.

(** [drain] hands out every task in order, leaves the queue empty, its counters
    in balance and its pressure flag clear. *)
Lemma drain_spec s :
  tq_ok s →
  ∃ s', drain s = (Ok s.(_q), s') ∧ tq_ok s' ∧ s'.(_q) = [] ∧ s'.(under_pressure) = false ∧
    same_config s s' ∧ s'.(dropped_total) = s.(dropped_total) ∧
    s'.(dequeued_total) = s.(dequeued_total) + size s.
Proof.
  intros Hok. pose proof (tq_ok_registered s Hok) as Hr.
  destruct Hok as (Hm&Hsz&Hcnt&Hd&Hdr&_).
  unfold drain. unfold bindS at 1. rewrite drain_loop_all by lia. set (s1 := set_q s []).
  cbn [app]. assert (0 ≤ size s) by (unfold size; lia).
  unfold bindS, count_drained. change (Z.of_nat (length (_q s))) with (size s).
  destruct (count_report_ok s1 0 (size s) 0 (under_pressure s1)) as
    (s' & Hrep & Hok' & Hq & Hm' & Hdr' & Hu & He & Hde & Hh & Hl); simpl in *;
    try done; try (unfold size in *; simpl; lia).
  change (size s1) with 0 in Hrep. rewrite Hrep.
  destruct Hok' as (H1&H2&H3&H4&H5&H6). eexists. split; [done|].
  unfold same_config, tq_ok, size in *. simpl. split_and!; try done; lia.
Qed.

(** Every call keeps the invariant, appends what it puts and takes what it hands
    out from the front. *)
Lemma tq_step_fifo (o : tq_op F T) s :
  tq_ok s →
  let '(ins, outs, s') := tq_step callable o s in
  tq_ok s' ∧ s.(_q) ++ ins = outs ++ s'.(_q).
Proof.
  intros Hok. destruct o as [t b d|b d|]; simpl.
  - pose proof (enqueue_spec t b d s Hok) as H.
    destruct (enqueue callable t b d s) as [[[]|e] s'].
    + destruct H as (?&_&_&->&_). done.
    + assert (s' = s ∨ s' = count s 0 0 1 (under_pressure s)) as [-> | ->]
        by (destruct e; naive_solver); (split; [|by rewrite app_nil_r]); [done|].
      destruct Hok as (?&?&?&?&?&?). unfold tq_ok, size in *. simpl. split_and!; try done; lia.
  - pose proof (dequeue_spec b d s Hok) as H. destruct (dequeue b d s) as [[t|e] s'].
    + destruct H as (?&->&_). by rewrite app_nil_r.
    + assert (s' = s) as -> by (destruct e; naive_solver). by rewrite app_nil_r.
  - destruct (drain_spec s Hok) as (s' & -> & ? & -> & _). by rewrite !app_nil_r.
Qed.

Lemma new_queue_ok ms mon qn high low s :
  new_queue ms mon qn high low = Ok s →
  tq_ok s ∧ s.(_q) = [] ∧ s.(enqueued_total) = 0 ∧ s.(dequeued_total) = 0.
Proof.
  unfold new_queue. intros H. repeat (case_match; [done|]). bool_simpl.
  destruct (register_queue _ _ _ _) as [[[]|e] mon'] eqn:Hreg; [|done].
  injection H as <-. unfold register_queue in Hreg. rewrite !bindS_guard in Hreg.
  do 2 (case_match; [done|]). injection Hreg as <-. split; [|done].
  unfold tq_ok, size. simpl. rewrite dget_set_eq. split_and!; done || lia.
Qed.

(** First in, first out, bounded, nothing lost: in any run of calls on a new
    queue, the tasks accepted are, in order, the tasks handed out and then the
    tasks still queued; the queue never holds more than [max_size], its counters
    differ by its size, and the monitor knows its depth. *)
Theorem queue_fifo ms mon qn high low s os :
  new_queue ms mon qn high low = Ok s →
  let '(ins, outs, s') := tq_run callable os s in
  ins = outs ++ s'.(_q) ∧ tq_ok s'.
Proof.
  intros Hnew. apply new_queue_ok in Hnew as (Hok & Hq & _).
  enough (H : ∀ s, tq_ok s →
    let '(ins, outs, s') := tq_run callable os s in
    s.(_q) ++ ins = outs ++ s'.(_q) ∧ tq_ok s').
  { specialize (H s Hok). rewrite Hq in H. by destruct (tq_run callable os s) as [[??]?]. }
  clear. induction os as [|o os IH]; intros s Hok; simpl; [by rewrite app_nil_r|].
  pose proof (tq_step_fifo o s Hok) as H.
  destruct (tq_step callable o s) as [[i1 o1] s1]. destruct H as [Hok1 H1].
  specialize (IH s1 Hok1). destruct (tq_run callable os s1) as [[i2 o2] s2].
  destruct IH as [H2 ?]. split; [|done]. by rewrite app_assoc, H1, <-!app_assoc, H2.
Qed.

(** A queue whose name was deregistered from its (shared) monitor still takes
    the task, and counts it, before [enqueue] raises [KeyError]: a caller that
    retries puts the task twice. *)
Theorem enqueue_unregistered t block d s :
  registered s = false → callable t = true →
  waiting block d (is_full s) QueueFullError = Ok tt →
  let '(r, s') := enqueue callable t block d s in
  r = Raise (MonitorRaised QueueNotRegistered) ∧ s'.(_q) = s.(_q) ++ [t] ∧
  s'.(enqueued_total) = s.(enqueued_total) + 1.
Proof.
  intros Hr Hc Hw. unfold enqueue, q_put. rewrite bindS_guard, Hc. simpl. rewrite Hw.
  unfold count_enqueued, bindS, modS.
  rewrite report_unregistered; [done|unfold size; lia|exact Hr].
Qed.

End sequential.

(** ** The pressure band, over exact rationals *)
Section band.
#[local] Existing Instance QF.
Context {T : Type} (callable : T → bool).
Implicit Types (s : BackpressureQueue (T:=T)).

(** At or above the high watermark the flag is set, below the low one it is clear;
    in between it remembers which of the two was crossed last. *)
Definition band_ok s : Prop :=
  (0 <= s.(low_watermark) ∧ s.(low_watermark) < s.(high_watermark))%Q ∧
  (fleb s.(high_watermark) (fill_ratio s) = true → s.(under_pressure) = true) ∧
  (fltb (fill_ratio s) s.(low_watermark) = true → s.(under_pressure) = false).

Lemma fill_mono s s' :
  1 ≤ s.(max_size) → s'.(max_size) = s.(max_size) → size s ≤ size s' →
  (fill_ratio s <= fill_ratio s')%Q.
Proof. intros Hm Heq Hle. unfold fill_ratio. rewrite Heq. apply fdiv_mono; lia. Qed.

Lemma band_step (o : tq_op QF T) s :
  tq_ok s → band_ok s → band_ok (tq_step callable o s).2.
Proof.
  intros Hok ([Hl0 Hlh] & Hhi & Hlo). pose proof Hok as (Hm&_).
  assert (Hdrop : band_ok (count s 0 0 1 (under_pressure s))) by done.
  destruct o as [t b d|b d|]; simpl.
  - pose proof (enqueue_spec callable t b d s Hok) as H.
    destruct (enqueue callable t b d s) as [[[]|e] s'].
    2: { assert (s' = s ∨ s' = count s 0 0 1 (under_pressure s)) as [-> | ->]
           by (destruct e; naive_solver); done. }
    destruct H as (_&_&_&Hq&(Hmx&Hh&Hl)&_&Hu). unfold band_ok. cbn [snd]. rewrite Hu, Hh, Hl.
    split_and!; [done|done|by intros ->; rewrite orb_true_r|]. intros Hlt.
    assert (fill_ratio s <= fill_ratio s')%Q as Hmono.
    { apply fill_mono; [done..|]. unfold size. rewrite Hq, length_app. lia. }
    apply Qltb_lt in Hlt. rewrite Hlo by (apply Qltb_lt; by eapply Qle_lt_trans).
    apply (proj2 (Qle_bool_false _ _)). eapply Qlt_trans; [exact Hlt|exact Hlh].
  - pose proof (dequeue_spec b d s Hok) as H. destruct (dequeue b d s) as [[t|e] s'].
    2: { assert (s' = s) as -> by (destruct e; naive_solver); done. }
    destruct H as (_&Hq&(Hmx&Hh&Hl)&_&Hu). unfold band_ok. cbn [snd]. rewrite Hu, Hh, Hl.
    split_and!; [done|done| |by intros ->; rewrite andb_false_r]. intros Hge.
    assert (fill_ratio s' <= fill_ratio s)%Q as Hmono.
    { apply fill_mono; [by rewrite Hmx|done|]. unfold size. rewrite Hq. simpl. lia. }
    apply Qle_bool_iff in Hge. rewrite Hhi by (apply Qle_bool_iff; by eapply Qle_trans).
    apply negb_true_iff, (proj2 (Qltb_ge _ _)), Qlt_le_weak.
    eapply Qlt_le_trans; [exact Hlh|exact Hge].
  - destruct (drain_spec s Hok) as (s' & -> & (Hm'&_) & Hq & Hu & (Hmx&Hh&Hl) & _).
    unfold band_ok. cbn [snd]. rewrite Hh, Hl, Hu. split_and!; [done|done| |done]. intros Hge.
    apply Qle_bool_iff in Hge. exfalso. unfold fill_ratio, size in Hge. rewrite Hq in Hge.
    apply (Qlt_not_le _ _ Hlh). eapply Qle_trans; [exact Hge|].
    eapply Qle_trans; [|exact Hl0]. simpl. unfold Qdiv. rewrite Qmult_0_l. apply Qle_refl.
Qed.

(** Hysteresis: in any run of calls on a new queue the pressure flag is set
    whenever the fill ratio is at or above the high watermark and clear whenever
    it is below the low one. *)
Theorem pressure_band ms mon qn high low s os :
  new_queue ms mon qn high low = Ok s → band_ok (tq_run callable os s).2.
Proof.
  intros Hnew. pose proof (new_queue_ok _ _ _ _ _ _ Hnew) as (Hok & _).
  assert (Hb : band_ok s).
  { unfold new_queue in Hnew. destruct (ms <? 1); [done|].
    destruct (negb (fltb f0 high && _)) eqn:E1; [done|].
    destruct (negb (fleb f0 low && _)) eqn:E2; [done|].
    destruct (register_queue _ _ _ _) as [[[]|e] mon']; [|done]. injection Hnew as <-.
    apply negb_false_iff in E1, E2. apply andb_true_iff in E1 as [E1 _], E2 as [E2 E3].
    apply Qltb_lt in E1, E3. apply Qle_bool_iff in E2.
    unfold band_ok. cbn [low_watermark high_watermark under_pressure].
    split_and!; [done|done| |done]. intros Hge. apply Qle_bool_iff in Hge. exfalso.
    apply (Qlt_not_le _ _ E1). eapply Qle_trans; [exact Hge|].
    unfold fill_ratio, size. simpl. unfold Qdiv. rewrite Qmult_0_l. apply Qle_refl. }
  clear Hnew. revert s Hok Hb. induction os as [|o os IH]; intros s Hok Hb; simpl; [done|].
  pose proof (tq_step_fifo callable o s Hok) as H. pose proof (band_step o s Hok Hb) as Hb1.
  destruct (tq_step callable o s) as [[i1 o1] s1]. destruct H as [Hok1 _].
  specialize (IH s1 Hok1 Hb1). by destruct (tq_run callable os s1) as [[??]?].
Qed.

(** A low watermark of zero passes the constructor's check, but then no
    [dequeue] ever relieves the pressure, not even the one that empties the
    queue: no fill ratio is below zero. *)
Theorem zero_low_never_relieves block d s :
  tq_ok s → (s.(low_watermark) == 0)%Q → s.(under_pressure) = true →
  (dequeue block d s).2.(under_pressure) = true.
Proof.
  intros Hok Hl0 Hup. pose proof (dequeue_spec block d s Hok) as H.
  destruct (dequeue block d s) as [[t|e] s']; cbn [snd].
  - destruct H as ((Hm&_)&_&(_&_&Hl)&_&->). rewrite Hup, Hl. simpl.
    apply negb_true_iff, (proj2 (Qltb_ge _ _)). rewrite Hl0.
    apply fdiv_nonneg; [unfold size|]; lia.
  - assert (s' = s) as -> by (destruct e; naive_solver). done.
Qed.
End band.

(** ** Witnesses *)
Section witnesses.
#[local] Existing Instance B64.

Definition ex_monitor : BackpressureMonitor := mkMonitor (flit 7 10) (flit 9 10) [].
Definition ex_registered : BackpressureMonitor :=
  mkMonitor (flit 7 10) (flit 9 10) [("q", mkQueueMetrics "q" 0 2 f1)].
Definition ex_tq : BackpressureQueue :=
  mkTQ (T:=nat) 2 (flit 8 10) (flit 5 10) "q" [] 0 0 0 false ex_registered.

Lemma ex_new : new_queue (T:=nat) 2 ex_monitor "q" (flit 8 10) (flit 5 10) = Ok ex_tq.
Proof. reflexivity. Qed.

Lemma queue_fifo_witness :
  let '(ins, outs, s') := tq_run (λ _, true) [Enqueue 1%nat false None; Drain] ex_tq in
  ins = outs ++ s'.(_q) ∧ tq_ok s'.
Proof.
  exact (queue_fifo (λ _, true) 2 ex_monitor "q" (flit 8 10) (flit 5 10) ex_tq
    [Enqueue 1%nat false None; Drain] ex_new).
Defined.

Lemma enqueue_unregistered_witness :
  (enqueue (λ _, true) 7%nat false None
    (mkTQ 2 (flit 8 10) (flit 5 10) "gone" [] 0 0 0 false ex_registered)).2.(_q) = [7%nat].
Proof.
  exact (proj1 (proj2 (enqueue_unregistered (λ _, true) 7%nat false None
    (mkTQ 2 (flit 8 10) (flit 5 10) "gone" [] 0 0 0 false ex_registered)
    eq_refl eq_refl eq_refl))).
Defined.

End witnesses.

Section band_witnesses.
#[local] Existing Instance QF.

Definition ex_band_monitor : BackpressureMonitor := mkMonitor (flit 7 10) (flit 9 10) [].
Definition ex_band_tq : BackpressureQueue :=
  mkTQ (T:=nat) 2 (flit 8 10) f0 "q" [] 0 0 0 false
    (mkMonitor (flit 7 10) (flit 9 10) [("q", mkQueueMetrics "q" 0 2 f1)]).

Lemma pressure_band_witness :
  band_ok (tq_run (λ _, true) [Enqueue 1%nat false None; Enqueue 2%nat false None]
    ex_band_tq).2.
Proof.
  exact (pressure_band (λ _, true) 2 ex_band_monitor "q" (flit 8 10) f0 ex_band_tq _ eq_refl).
Defined.

Lemma zero_low_never_relieves_witness :
  (dequeue false None (mkTQ 1 (flit 8 10) f0 "q" [1%nat] 1 0 0 true
    (mkMonitor (flit 7 10) (flit 9 10) [("q", mkQueueMetrics "q" 1 1 f1)]))).2
    .(under_pressure) = true.
Proof.
  apply zero_low_never_relieves; [|reflexivity..].
  unfold tq_ok, size. simpl. split_and!; reflexivity || lia.
Defined.
End band_witnesses.
