(* ===== verification/TaskThreads.v ===== *)
(** * The task queue under several threads ([backpressure/task_queue.py])

    The methods of [BackpressureQueue] hold no lock across the call on the standard queue
    and the bookkeeping after it.  Here a call in progress is a point of its method's body,
    between two atomic sections; threads run their calls in order, and their sections
    interleave with one another and with what others do to the shared monitor. *)
From stdpp Require Import base list strings relations.
From Stdlib Require Import ZArith QArith Lia.
From S2P Require Import Prelude PyDict PyFloat Monitor TaskQueue.
#[local] Close Scope Q_scope.
#[local] Open Scope Z_scope.

Section calls.
Context {F : PyFloat} {T : Type} (callable : T → bool).
Abbreviation Queue := (BackpressureQueue (F:=F) (T:=T)).
Abbreviation op := (tq_op F T).
Implicit Types (s : Queue) (o : op) (t : T).

(** Where a call is: before its call on the standard queue, between that and its locked
    section (with what it took), or at its end.  The result of a call is the tasks it
    hands out. *)
Inductive point : Type :=
  | Putting (t : T) (block : bool) (timeout : option float)
  | Stored (t : T)
  | Refused
  | Getting (block : bool) (timeout : option float)
  | Taken (t : T)
  | Draining (tasks : list T)
  | Drained (tasks : list T)
  | Done (r : result TQError (list T)).

Definition enter o : point :=
  match o with
  | Enqueue t block timeout => Putting t block timeout
  | Dequeue block timeout => Getting block timeout
  | Drain => Draining []
  end.

(** What a section returns, as the end of the call. *)
Definition ending {A} (ts : A → list T) (m : M Queue TQError A) s : option (point * Queue) :=
  let '(r, s') := m s in
  Some (Done (match r with Ok a => Ok (ts a) | Raise e => Raise e end), s').

(** The next atomic section of a call; [None] when it waits, or has ended. *)
Definition section (p : point) s : option (point * Queue) :=
  match p with
  | Putting t block timeout =>
      if negb (callable t) then Some (Done (Raise NotCallable), s)
      else match q_put t block timeout s with
           | (Ok _, s') => Some (Stored t, s')
           | (Raise WouldBlock, _) => None
           | (Raise QueueFullError, s') => Some (Refused, s')
           | (Raise e, s') => Some (Done (Raise e), s')
           end
  | Stored t => ending (λ _, []) count_enqueued s
  | Refused => ending (λ _, []) (let! _ := count_dropped in raiseS (A:=unit) QueueFullError) s
  | Getting block timeout =>
      match q_get block timeout s with
      | (Ok t, s') => Some (Taken t, s')
      | (Raise WouldBlock, _) => None
      | (Raise e, s') => Some (Done (Raise e), s')
      end
  | Taken t => ending (λ _, [t]) count_dequeued s
  | Draining tasks =>
      match q_get false None s with
      | (Ok t, s') => Some (Draining (tasks ++ [t]), s')
      | (Raise QueueEmptyError, s') => Some (Drained tasks, s')
      | (Raise e, s') => Some (Done (Raise e), s')
      end
  | Drained tasks => ending (λ _, tasks) (count_drained (Z.of_nat (length tasks))) s
  | Done _ => None
  end.

(** A call of the method, whole. *)
Definition call o s : result TQError (list T) * Queue :=
  match o with
  | Enqueue t block timeout =>
      let '(r, s') := enqueue callable t block timeout s in
      (match r with Ok _ => Ok [] | Raise e => Raise e end, s')
  | Dequeue block timeout =>
      let '(r, s') := dequeue block timeout s in
      (match r with Ok t => Ok [t] | Raise e => Raise e end, s')
  | Drain => drain s
  end.

Definition section_step (x y : point * Queue) : Prop := section x.1 x.2 = Some y.

Lemma drain_sections n tasks s :
  (length s.(_q) < n)%nat →
  rtc section_step (Draining tasks, s) (Drained (tasks ++ s.(_q)), set_q s []).
Proof.
  revert tasks s. induction n as [|n IH]; intros tasks s Hn; [lia|].
  destruct s as [ms h l nm q et dt drt up mon]. simpl in *. destruct q as [|t q].
  - rewrite app_nil_r. by apply rtc_once.
  - eapply rtc_l; [reflexivity|]. specialize (IH (tasks ++ [t])
      (mkTQ ms h l nm q et dt drt up mon)). simpl in *. rewrite <-app_assoc in IH. apply IH. lia.
Qed.

(** Run without interruption, the sections of a call are the method. *)
Lemma sections_alone o s :
  (call o s).1 ≠ Raise WouldBlock →
  rtc section_step (enter o, s) (Done (call o s).1, (call o s).2).
Proof.
  destruct o as [t block timeout|block timeout|]; unfold call.
  - unfold enqueue. rewrite bindS_guard. intros Hne.
    eapply rtc_l with (y := match section (Putting t block timeout) s with
      | Some y => y | None => (Refused, s) end).
    + unfold section_step, section. cbn [fst snd enter] in *. destruct (negb (callable t)); [done|].
      destruct (q_put t block timeout s) as [[[]|[]] s']; first [done|by destruct Hne].
    + unfold section in *. destruct (negb (callable t)); [apply rtc_refl|].
      destruct (q_put t block timeout s) as [[[]|[]] s']; try apply rtc_refl; try done;
        (eapply rtc_l; [|apply rtc_refl]); unfold section_step, section, ending; cbn [fst snd].
      * by destruct (count_enqueued s') as [[[]|] ?].
      * by destruct ((let! _ := count_dropped in raiseS QueueFullError) s') as [[[]|] ?].
  - unfold dequeue, bindS. intros Hne.
    destruct (q_get block timeout s) as [[t|e] s'] eqn:Hg.
    + eapply rtc_l; [unfold section_step, section; cbn [fst snd enter]; by rewrite Hg|].
      apply rtc_once. unfold section_step, section, ending. cbn [fst snd].
      by destruct (count_dequeued s') as [[[]|] ?].
    + apply rtc_once. unfold section_step, section. cbn [fst snd enter]. rewrite Hg.
      by destruct e.
  - intros _. unfold drain, bindS. rewrite drain_loop_all by lia. cbn [app].
    eapply rtc_r; [apply (drain_sections (S (length s.(_q)))); simpl; lia|].
    unfold section_step, section, ending. cbn [fst snd app].
    by destruct (count_drained _ _) as [[[]|] ?].
Qed.

(** ** One section *)

(** The bound and the monitor's registration, which every section keeps. *)
Variable ms : Z.
Definition queue_ok s : Prop := s.(max_size) = ms ∧ size s ≤ ms ∧ registered s = true.

(** What a call in progress has put and taken, and how much of it is not counted yet. *)
Definition put_by o (p : point) : list T :=
  match p, o with
  | Stored t, _ => [t]
  | Done (Ok _), Enqueue t _ _ => [t]
  | _, _ => []
  end.
Definition taken_by o (p : point) : list T :=
  match p, o with
  | Taken t, _ => [t]
  | (Draining ts | Drained ts), _ => ts
  | Done (Ok ts), (Dequeue _ _ | Drain) => ts
  | _, _ => []
  end.
Definition uncounted_put (p : point) : Z := match p with Stored _ => 1 | _ => 0 end.
Definition uncounted_taken (p : point) : Z :=
  match p with
  | Taken _ => 1
  | Draining ts | Drained ts => Z.of_nat (length ts)
  | _ => 0
  end.
Definition refusals (p : point) : Z :=
  match p with Done (Raise QueueFullError) => 1 | _ => 0 end.

(** The points of a method. *)
Definition inside o (p : point) : Prop :=
  match p, o with
  | Putting t b d, _ => o = Enqueue t b d
  | Stored t, Enqueue t' _ _ => t = t'
  | Refused, Enqueue _ _ _ => True
  | Getting b d, _ => o = Dequeue b d
  | Taken _, Dequeue _ _ => True
  | (Draining _ | Drained _), Drain => True
  | Done _, _ => True
  | _, _ => False
  end.

(** What a section does to the queue and to the account of its call. *)
Definition effect o (p p' : point) s s' (ps gs : list T) : Prop :=
  queue_ok s' ∧ inside o p' ∧ s.(_q) ++ ps = gs ++ s'.(_q) ∧
  put_by o p' = put_by o p ++ ps ∧ taken_by o p' = taken_by o p ++ gs ∧
  s'.(enqueued_total) + uncounted_put p' =
    s.(enqueued_total) + uncounted_put p + Z.of_nat (length ps) ∧
  s'.(dequeued_total) + uncounted_taken p' =
    s.(dequeued_total) + uncounted_taken p + Z.of_nat (length gs) ∧
  s'.(dropped_total) = s.(dropped_total) + refusals p'.

(** Bookkeeping: it returns, and changes nothing but the counters. *)
Lemma report_counted d s a b c up :
  0 ≤ d → queue_ok s →
  ∃ s', report d (count s a b c up) = (Ok tt, s') ∧ queue_ok s' ∧ s'.(_q) = s.(_q) ∧
    s'.(enqueued_total) = s.(enqueued_total) + a ∧ s'.(dequeued_total) = s.(dequeued_total) + b ∧
    s'.(dropped_total) = s.(dropped_total) + c.
Proof.
  intros Hd (Hms & Hs & Hr). destruct (report_spec d (count s a b c up) Hd Hr)
    as (s' & -> & Hq & Hm & _ & _ & Hn & He & Hdq & Hdr & _ & Hdep).
  exists s'. split; [done|]. unfold queue_ok, size in *. rewrite Hq, Hm. split; [|done]. split; [done|]. split; [done|].
  unfold registered, dmem. by destruct (dget (queues (monitor s')) (queue_name s')).
Qed.

Lemma counted_enqueue s :
  queue_ok s → ∃ s', count_enqueued s = (Ok tt, s') ∧ queue_ok s' ∧ s'.(_q) = s.(_q) ∧
    s'.(enqueued_total) = s.(enqueued_total) + 1 ∧ s'.(dequeued_total) = s.(dequeued_total) + 0 ∧
    s'.(dropped_total) = s.(dropped_total) + 0.
Proof. intros Hs. apply report_counted; [unfold size; lia|done]. Qed.

Lemma counted_dequeue s :
  queue_ok s → ∃ s', count_dequeued s = (Ok tt, s') ∧ queue_ok s' ∧ s'.(_q) = s.(_q) ∧
    s'.(enqueued_total) = s.(enqueued_total) + 0 ∧ s'.(dequeued_total) = s.(dequeued_total) + 1 ∧
    s'.(dropped_total) = s.(dropped_total) + 0.
Proof. intros Hs. apply report_counted; [unfold size; lia|done]. Qed.

Lemma counted_drain n s :
  queue_ok s → ∃ s', count_drained n s = (Ok tt, s') ∧ queue_ok s' ∧ s'.(_q) = s.(_q) ∧
    s'.(enqueued_total) = s.(enqueued_total) ∧ s'.(dequeued_total) = s.(dequeued_total) + n ∧
    s'.(dropped_total) = s.(dropped_total).
Proof.
  intros Hs. unfold count_drained.
  destruct (report_counted 0 s 0 n 0 s.(under_pressure) ltac:(lia) Hs)
    as (s' & -> & Hok & Hq & He & Hd & Hr).
  eexists. split; [done|]. split; [exact Hok|]. simpl. split_and!; done || lia.
Qed.

Lemma q_put_cases t b d s :
  q_put t b d s = (Ok tt, set_q s (s.(_q) ++ [t])) ∧ is_full s = false ∨
  ∃ e, q_put t b d s = (Raise e, s).
Proof.
  unfold q_put. destruct (waiting_cases b d (is_full s) QueueFullError) as [[-> ?]|(e & -> & _)];
    [by left|right; by exists e].
Qed.

Lemma q_get_cases b d s :
  (∃ t q, q_get b d s = (Ok t, set_q s q) ∧ s.(_q) = t :: q) ∨ ∃ e, q_get b d s = (Raise e, s) ∧
    e ≠ QueueFullError ∧ (b = false → e = QueueEmptyError).
Proof.
  unfold q_get. assert (Hw : waiting b d (is_empty s) QueueEmptyError = Ok tt ∨ ∃ e,
    waiting b d (is_empty s) QueueEmptyError = Raise e ∧ e ≠ QueueFullError ∧
    (b = false → e = QueueEmptyError)).
  { unfold waiting. destruct b, d, (is_empty s); try case_match; naive_solver. }
  destruct Hw as [->|(e & -> & He)]; [|right; by exists e].
  destruct (_q s) as [|t q]; [right; by eexists|left; by eexists _, _].
Qed.

Lemma queue_ok_take s t q : queue_ok s → s.(_q) = t :: q → queue_ok (set_q s q).
Proof.
  intros (Hms & Hs & Hr) Hq. split; [done|]. split; [|done]. unfold size in *. rewrite Hq in Hs. simpl in *. lia.
Qed.

Ltac effect_solver :=
  unfold effect, refusals; cbn [put_by taken_by uncounted_put uncounted_taken inside _q set_q
    enqueued_total dequeued_total dropped_total length app];
  rewrite ?app_nil_r; split_and!; try done; try lia.

Lemma section_effect o p s p' s' :
  queue_ok s → inside o p → section p s = Some (p', s') → ∃ ps gs, effect o p p' s s' ps gs.
Proof.
  intros Hok Hin. destruct p as [t b d|t| |b d|t|ts|ts|r]; cbn [section inside] in *.
  - subst o. destruct (negb (callable t)); [intros [= <- <-]; exists [], []; by effect_solver|].
    destruct (q_put_cases t b d s) as [[-> Hf]|[e ->]].
    + intros [= <- <-]. exists [t], []. effect_solver. destruct Hok as (Hms & Hs & Hr).
      split; [done|]. split; [|done]. unfold is_full, size in *. bool_simpl. simpl. rewrite length_app. simpl. lia.
    + destruct e; intros [= <- <-]; exists [], []; by effect_solver.
  - destruct o as [t' b d| |]; [subst t'|done..]. unfold ending.
    destruct (counted_enqueue s Hok) as (s1 & -> & Hok1 & Hq & He & Hd & Hr).
    intros [= <- <-]. exists [], []. by effect_solver.
  - destruct o as [t' b d| |]; [|done..]. intros [= <- <-]. exists [], []. by effect_solver.
  - subst o. destruct (q_get_cases b d s) as [(t & q & -> & Hq)|(e & -> & Hf & He)].
    + intros [= <- <-]. exists [], [t]. effect_solver. by eapply queue_ok_take.
    + destruct e; intros [= <- <-]; try (by destruct Hf); exists [], []; by effect_solver.
  - destruct o as [|b d|]; [done| |done]. unfold ending.
    destruct (counted_dequeue s Hok) as (s1 & -> & Hok1 & Hq & He & Hd & Hr).
    intros [= <- <-]. exists [], []. by effect_solver.
  - destruct o as [| |]; [done..|]. destruct (q_get_cases false None s) as [(t & q & -> & Hq)|(e & -> & Hf & He)].
    + intros [= <- <-]. exists [], [t]. effect_solver; [by eapply queue_ok_take|].
      rewrite length_app. simpl. lia.
    + rewrite (He eq_refl). intros [= <- <-]. exists [], []. by effect_solver.
  - destruct o as [| |]; [done..|]. unfold ending.
    destruct (counted_drain (Z.of_nat (length ts)) s Hok) as (s1 & -> & Hok1 & Hq & He & Hd & Hr).
    intros [= <- <-]. exists [], []. by effect_solver.
  - done.
Qed.
End calls.
Arguments point F T : clear implicits.

(** ** Threads *)
Section threads.
Context {F : PyFloat} {T : Type} (callable : T → bool).
Abbreviation Queue := (BackpressureQueue (F:=F) (T:=T)).
Abbreviation op := (tq_op F T).
Implicit Types (s : Queue) (o : op).

(** A thread: the calls it has still to make, the one in progress, and the results of
    those that ended. *)
Record thread : Type := mkThread {
  todo : list op;
  current : option (op * point F T);
  results : list (op * result TQError (list T));
}.
Implicit Types (th : thread).

Definition idle (os : list op) : thread := mkThread os None [].

(** The thread enters its next call, runs a section of its call, or leaves it. *)
Definition advance th s : option (thread * Queue) :=
  match th.(current) with
  | None =>
      match th.(todo) with
      | [] => None
      | o :: os => Some (mkThread os (Some (o, enter o)) th.(results), s)
      end
  | Some (o, Done r) => Some (mkThread th.(todo) None (th.(results) ++ [(o, r)]), s)
  | Some (o, p) =>
      '(p', s') ← section callable p s; Some (mkThread th.(todo) (Some (o, p')) th.(results), s')
  end.

Definition set_monitor (mon : BackpressureMonitor) s : Queue :=
  mkTQ s.(max_size) s.(high_watermark) s.(low_watermark) s.(queue_name) s.(_q)
    s.(enqueued_total) s.(dequeued_total) s.(dropped_total) s.(under_pressure) mon.

Record world : Type := mkWorld { shared : Queue; threads : list thread }.

(** The other users of the monitor may change it, short of deregistering the queue. *)
Inductive tstep : world → world → Prop :=
  | step_thread i th th' s' w :
      w.(threads) !! i = Some th → advance th w.(shared) = Some (th', s') →
      tstep w (mkWorld s' (<[i := th']> w.(threads)))
  | step_monitor mon w :
      registered (set_monitor mon w.(shared)) = true →
      tstep w (mkWorld (set_monitor mon w.(shared)) w.(threads)).

(** What the calls that ended have stored, handed out and refused. *)
Definition accepted (rs : list (op * result TQError (list T))) : list T :=
  omap (λ x, match x with (Enqueue t _ _, Ok _) => Some t | _ => None end) rs.
Definition received (rs : list (op * result TQError (list T))) : list T :=
  rs ≫= λ x, match x with ((Dequeue _ _ | Drain), Ok ts) => ts | _ => [] end.
Definition was_refused (x : op * result TQError (list T)) : bool :=
  match x.2 with Raise QueueFullError => true | _ => false end.
Definition refused (rs : list (op * result TQError (list T))) : nat :=
  length (filter (λ x, was_refused x = true) rs).

(** *** The account of a thread *)
Variable ms : Z.
Definition of_current {A} (f : op → point F T → A) (dflt : A) th : A :=
  match th.(current) with Some (o, p) => f o p | None => dflt end.

Definition th_puts th : list T := accepted th.(results) ++ of_current put_by [] th.
Definition th_gets th : list T := received th.(results) ++ of_current taken_by [] th.
Definition th_uncounted_put th : Z := of_current (λ _, uncounted_put) 0 th.
Definition th_uncounted_taken th : Z := of_current (λ _, uncounted_taken) 0 th.
Definition th_refusals th : Z :=
  Z.of_nat (refused th.(results)) + of_current (λ _, refusals) 0 th.
Definition th_ok th : Prop := of_current inside True th.

(** What an advance does to the queue and to the account of its thread. *)
Definition th_effect th th' s s' (ps gs : list T) : Prop :=
  queue_ok ms s' ∧ th_ok th' ∧ s.(_q) ++ ps = gs ++ s'.(_q) ∧
  th_puts th' = th_puts th ++ ps ∧ th_gets th' = th_gets th ++ gs ∧
  s'.(enqueued_total) + th_uncounted_put th' =
    s.(enqueued_total) + th_uncounted_put th + Z.of_nat (length ps) ∧
  s'.(dequeued_total) + th_uncounted_taken th' =
    s.(dequeued_total) + th_uncounted_taken th + Z.of_nat (length gs) ∧
  s'.(dropped_total) + th_refusals th = s.(dropped_total) + th_refusals th'.

Ltac th_unfold :=
  unfold th_effect, th_puts, th_gets, th_uncounted_put, th_uncounted_taken, th_refusals, th_ok,
    of_current in *; cbn [todo current results] in *.

Lemma section_th_effect os o p p' rs s s' :
  queue_ok ms s → inside o p → section callable p s = Some (p', s') →
  ∃ ps gs, th_effect (mkThread os (Some (o, p)) rs) (mkThread os (Some (o, p')) rs) s s' ps gs.
Proof.
  intros Hok Hin Hs. destruct (section_effect callable ms o p s p' s' Hok Hin Hs)
    as (ps & gs & ? & ? & ? & Hp & Hg & ? & ? & ?).
  assert (Hr : refusals p = 0) by by destruct p.
  exists ps, gs. th_unfold. rewrite Hp, Hg, <-!(assoc_L (++)), Hr. split_and!; done || lia.
Qed.

Lemma advance_effect th s th' s' :
  queue_ok ms s → th_ok th → advance th s = Some (th', s') → ∃ ps gs, th_effect th th' s s' ps gs.
Proof.
  intros Hok Hth. destruct th as [os [[o p]|] rs]; unfold advance; cbn [todo current results].
  - assert (Hrun : ('(p', s') ← section callable p s; Some (mkThread os (Some (o, p')) rs, s')) = Some (th', s') →
      ∃ ps gs, th_effect (mkThread os (Some (o, p)) rs) th' s s' ps gs).
    { destruct (section callable p s) as [[p' s1]|] eqn:E; [|done]. intros [= <- <-].
      by apply section_th_effect. }
    destruct p as [t b d|t| |b d|t|ts|ts|r]; try (by apply Hrun). clear Hrun.
    intros [= <- <-]. exists [], []. th_unfold. cbn [uncounted_put uncounted_taken length].
    rewrite !app_nil_r. split_and!; try done; try lia.
    + unfold accepted. rewrite omap_app. f_equal. by destruct o, r.
    + unfold received. rewrite bind_app. f_equal. destruct o, r; simpl; by rewrite ?app_nil_r.
    + unfold refused. rewrite filter_app, length_app.
      destruct r as [|[]]; simpl; lia.
  - destruct os as [|o os]; [done|]. intros [= <- <-]. exists [], []. th_unfold.
    destruct o; simpl; rewrite ?app_nil_r; split_and!; done || lia.
Qed.

(** *** All the threads *)
Definition total (f : thread → Z) (ths : list thread) : Z := foldr (λ th n, f th + n) 0 ths.

Lemma total_replace f i th th' ths :
  ths !! i = Some th → total f (<[i := th']> ths) + f th = total f ths + f th'.
Proof.
  revert i. induction ths as [|x ths IH]; intros [|i] H; simplify_eq/=; [lia|].
  specialize (IH i H). unfold total in *. lia.
Qed.

(** The tasks of thread [i] in a list of tasks with their threads. *)
Definition of_thread (i : nat) (l : list (nat * T)) : list T := (filter (λ x, x.1 = i) l).*2.

Lemma of_thread_app i l1 l2 : of_thread i (l1 ++ l2) = of_thread i l1 ++ of_thread i l2.
Proof. unfold of_thread. by rewrite filter_app, fmap_app. Qed.

Lemma of_thread_tag i j (l : list T) : of_thread i (pair j <$> l) = if decide (j = i) then l else [].
Proof.
  unfold of_thread. induction l as [|x l IH]; csimpl; [by case_decide|].
  rewrite filter_cons. cbn [fst]. case_decide; csimpl; by rewrite IH.
Qed.

(** The tasks put, and those taken, with their threads, in the order this happened. *)
Definition world_ok w : Prop :=
  queue_ok ms w.(shared) ∧ Forall th_ok w.(threads) ∧ ∃ puts gets : list (nat * T),
    puts.*2 = gets.*2 ++ w.(shared).(_q) ∧
    (∀ i th, w.(threads) !! i = Some th → of_thread i puts = th_puts th ∧ of_thread i gets = th_gets th) ∧
    w.(shared).(enqueued_total) + total th_uncounted_put w.(threads) = Z.of_nat (length puts) ∧
    w.(shared).(dequeued_total) + total th_uncounted_taken w.(threads) = Z.of_nat (length gets) ∧
    w.(shared).(dropped_total) = total th_refusals w.(threads).

Lemma tstep_ok w w' : world_ok w → tstep w w' → world_ok w'.
Proof.
  intros (Hq & Hths & puts & gets & Hfifo & Hof & He & Hd & Hr) Hst.
  destruct Hst as [i th th' s' w Hi Ha|mon w Hreg].
  2: { destruct Hq as (? & ? & _). split; [split_and!; [done..|exact Hreg]|]. split; [done|]. by exists puts, gets. }
  assert (Hth : th_ok th) by (rewrite Forall_forall in Hths; apply Hths; by eapply list_elem_of_lookup_2).
  destruct (advance_effect th w.(shared) th' s' Hq Hth Ha)
    as (ps & gs & Hq' & Hth' & Hfifo' & Hp & Hg & He' & Hd' & Hr').
  split; [done|]. cbn [shared threads]. split; [by apply Forall_insert|].
  exists (puts ++ (pair i <$> ps)), (gets ++ (pair i <$> gs)).
  rewrite !length_app, !length_fmap.
  pose proof (total_replace th_uncounted_put i th th' _ Hi).
  pose proof (total_replace th_uncounted_taken i th th' _ Hi).
  pose proof (total_replace th_refusals i th th' _ Hi). split_and!; try lia.
  - rewrite !fmap_app, <-!list_fmap_compose.
    change ((snd ∘ pair i) <$> ps) with (id <$> ps). change ((snd ∘ pair i) <$> gs) with (id <$> gs).
    rewrite !list_fmap_id, Hfifo, <-!(assoc_L (++)). by rewrite Hfifo'.
  - intros j tj Hj. rewrite !of_thread_app, !of_thread_tag.
    destruct (decide (i = j)) as [<-|Hne].
    + rewrite list_lookup_insert_eq in Hj by (by eapply lookup_lt_Some). injection Hj as <-.
      destruct (Hof i th Hi) as [-> ->]. by rewrite Hp, Hg.
    + rewrite list_lookup_insert_ne in Hj by done. rewrite !app_nil_r. by apply Hof.
Qed.

Lemma idle_ok s (programs : list (list op)) :
  queue_ok ms s → s.(_q) = [] → s.(enqueued_total) = 0 → s.(dequeued_total) = 0 →
  s.(dropped_total) = 0 → world_ok (mkWorld s (idle <$> programs)).
Proof.
  intros Hok Hq He Hd Hr. split; [done|]. cbn [shared threads]. split; [by apply Forall_fmap, Forall_true|].
  exists [], []. cbn [shared threads]. rewrite Hq, He, Hd, Hr. split; [done|].
  split; [intros i th Hi; apply list_lookup_fmap_Some in Hi as (os & -> & _); done|].
  assert (H0 : ∀ f, (∀ os, f (idle os) = 0) → total f (idle <$> programs) = 0).
  { intros f Hf. unfold total. induction programs as [|os l IH]; csimpl; [done|]. rewrite Hf. lia. }
  by rewrite !H0.
Qed.

Lemma reachable_ok s programs w :
  world_ok (mkWorld s (idle <$> programs)) → rtc tstep (mkWorld s (idle <$> programs)) w → world_ok w.
Proof.
  intros Hok Hr. eapply (rtc_ind_r world_ok); [exact Hok| |exact Hr].
  intros x y _ Hst Hx. by eapply tstep_ok.
Qed.

Lemma total_idle (f : thread → Z) (g : list (op * result TQError (list T)) → Z) ths :
  (∀ th, th ∈ ths → f th = g th.(results)) → total f ths = foldr (λ th n, g th.(results) + n) 0 ths.
Proof.
  unfold total. induction ths as [|th ths IH]; intros H; [done|]. simpl.
  rewrite H, IH; [done| |by left]. intros th' Hth'. apply H. by right.
Qed.
End threads.

Section fifo.
Context {F : PyFloat} {T : Type} (callable : T → bool).

(** C30. The task queue is first in, first out under threads.  Each method is the sequence
    of its sections; however the sections of any threads interleave, and whatever the
    other users of the monitor do short of deregistering the queue, the queue never holds
    more than [max_size] tasks, and once no call is in progress there is one order of the
    tasks accepted from all threads and one of the tasks handed out, which agree with each
    thread's own order of results, such that the tasks accepted are, in order, those
    handed out and then those queued; the counters count them, and the refusals. *)
Theorem concurrent_fifo ms mon qn high low s (programs : list (list (tq_op F T))) w :
  new_queue ms mon qn high low = Ok s →
  rtc (tstep callable) (mkWorld s (idle <$> programs)) w →
  (∀ o s, (call callable o s).1 ≠ Raise WouldBlock →
     rtc (section_step callable) (enter o, s) (Done (call callable o s).1, (call callable o s).2)) ∧
  size w.(shared) ≤ ms ∧
  ((∀ th, th ∈ w.(threads) → th.(current) = None) → ∃ puts gets : list (nat * T),
     (∀ i th, w.(threads) !! i = Some th →
        of_thread i puts = accepted th.(results) ∧ of_thread i gets = received th.(results)) ∧
     puts.*2 = gets.*2 ++ w.(shared).(_q) ∧
     w.(shared).(enqueued_total) = Z.of_nat (length puts) ∧
     w.(shared).(dequeued_total) = Z.of_nat (length gets) ∧
     w.(shared).(dropped_total) =
       foldr (λ th n, Z.of_nat (refused th.(results)) + n) 0 w.(threads)).
Proof.
  intros Hnew Hr. split; [intros; by apply sections_alone|].
  assert (Hw : world_ok ms w).
  { apply (reachable_ok callable ms s programs); [|done]. pose proof Hnew as Hms.
    apply new_queue_ok in Hnew as (Hok & Hq & He & Hd).
    unfold new_queue in Hms. repeat (case_match; [done|]).
    destruct (register_queue _ _ _ _) as [[[]|e] mon']; [|done]. injection Hms as <-.
    apply idle_ok; try done. split_and!; [done|by apply Hok|by apply tq_ok_registered]. }
  destruct Hw as ((_ & Hs & _) & _ & puts & gets & Hf & Hof & He & Hd & Hdr).
  split; [done|]. intros Hidle. exists puts, gets.
  assert (Hc : ∀ {A} f (dflt : A) th, th ∈ w.(threads) → of_current f dflt th = dflt)
    by (intros A f dflt th Hth; unfold of_current; by rewrite Hidle).
  assert (H0 : ∀ f : point F T → Z, total (of_current (λ _, f) 0) w.(threads) = 0).
  { intros f. rewrite (total_idle _ (λ _, 0)) by auto.
    generalize (threads w). intros ths. by induction ths. }
  unfold th_uncounted_put, th_uncounted_taken in *. rewrite H0 in He, Hd.
  split; [|split; [done|]]; [|split_and!; [lia..|]].
  - intros i th Hi. destruct (Hof i th Hi) as [-> ->]. unfold th_puts, th_gets.
    rewrite !Hc, !app_nil_r by (by eapply list_elem_of_lookup_2). done.
  - rewrite Hdr. apply (total_idle _ (λ rs, Z.of_nat (refused rs))). intros th Hth. unfold th_refusals. rewrite Hc by done. lia.
Qed.
End fifo.

(** ** Witness, and a race *)
Section witnesses.
#[local] Existing Instance B64.

(** A producer of two tasks and a consumer of one, one section at a time: the second task
    is stored before the first is counted. *)
Definition ex_programs : list (list (tq_op B64 nat)) :=
  [[Enqueue 1%nat false None]; [Enqueue 2%nat false None]; [Dequeue false None]].

(** The threads advance in the order given; a thread that waits or has ended does not. *)
Fixpoint schedule (order : list nat) (w : world (T:=nat)) : world :=
  match order with
  | [] => w
  | i :: order =>
      match w.(threads) !! i with
      | Some th =>
          match advance (λ _, true) th w.(shared) with
          | Some (th', s') => schedule order (mkWorld s' (<[i := th']> w.(threads)))
          | None => schedule order w
          end
      | None => schedule order w
      end
  end.

Lemma schedule_steps order w : rtc (tstep (λ _, true)) w (schedule order w).
Proof.
  revert w. induction order as [|i order IH]; intros w; [apply rtc_refl|]. cbn [schedule].
  destruct (threads w !! i) as [th|] eqn:Hi; [|done].
  destruct (advance _ th (shared w)) as [[th' s']|] eqn:Ha; [|done].
  eapply rtc_l; [by eapply step_thread|apply IH].
Qed.

Definition ex_end : world := schedule [0; 0; 1; 1; 1; 0; 2; 2; 2; 2; 1; 0]%nat
  (mkWorld ex_tq (idle <$> ex_programs)).

Lemma concurrent_fifo_witness :
  (results <$> ex_end.(threads)) =
    [[(Enqueue 1%nat false None, Ok [])]; [(Enqueue 2%nat false None, Ok [])];
     [(Dequeue false None, Ok [1%nat])]] ∧
  ∃ puts gets : list (nat * nat), puts.*2 = gets.*2 ++ [2%nat] ∧ of_thread 2 gets = [1%nat].
Proof.
  split; [reflexivity|].
  destruct (concurrent_fifo (λ _, true) 2 ex_monitor "q" (flit 8 10) (flit 5 10) ex_tq ex_programs
    ex_end ex_new (schedule_steps _ _)) as (_ & _ & H).
  destruct H as (puts & gets & Hof & Hf & _).
  { intros th Hth. change (threads ex_end) with
      [mkThread [] None [(Enqueue 1%nat false None, Ok [])];
       mkThread [] None [(Enqueue 2%nat false None, Ok [])];
       mkThread [] None [(Dequeue (F:=B64) false None, Ok [1%nat])]] in Hth.
    repeat (apply elem_of_cons in Hth as [->|Hth]; [reflexivity|]). by apply elem_of_nil in Hth. }
  exists puts, gets. split; [exact Hf|].
  exact (proj2 (Hof 2%nat (mkThread [] None [(Dequeue (F:=B64) false None, Ok [1%nat])]) eq_refl)).
Defined.

(** [drain] reports a depth of zero and clears the pressure flag whatever was stored since
    its last [get_nowait]: here a task is put and counted between the two, the queue is
    full, and the monitor is told that it is empty. *)
Theorem drain_forgets_new_task :
  let small := mkTQ (T:=nat) 1 (flit 8 10) (flit 5 10) "q" [] 0 0 0 false ex_registered in
  let w := schedule [0; 0; 1; 1; 1; 0; 1; 0]%nat
    (mkWorld small (idle <$> [[Drain]; [Enqueue 1%nat false None]])) in
  forallb (λ th, match th.(current) with None => true | _ => false end) w.(threads) = true ∧
  w.(shared).(_q) = [1%nat] ∧ is_full w.(shared) = true ∧ w.(shared).(under_pressure) = false ∧
  current_depth <$> dget w.(shared).(monitor).(queues) "q" = Some 0.
Proof. cbv zeta. refine (conj _ (conj _ (conj _ (conj _ _)))); vm_compute; reflexivity. Qed.
End witnesses.
