(* ===== verification/Throttle.v ===== *)
(** * The adaptive token bucket ([backpressure/throttle.py])

    Each operation takes the [time.monotonic()] reading it makes and the monitor
    as it is at that moment (if there is one).  Bounds on rates and on the tokens
    handed out are over exact rationals. *)
From stdpp Require Import base list strings.
From Stdlib Require Import ZArith QArith Lqa Lia.
From S2P Require Import Prelude PyDict PyFloat Monitor.
#[local] Close Scope Q_scope.
#[local] Open Scope Z_scope.

Section throttle.
Context {F : PyFloat}.

Inductive ThrottleError : Type :=
  | BadBaseRate | BadCapacity | BadMinRateFraction | ZeroDivisionError.

Record AdaptiveThrottle : Type := mkThrottle {
  base_rate : float;
  bucket_capacity : float;
  min_rate_fraction : float;
  th_warn : float;
  th_critical : float;
  tokens : float;
  last_refill : float;
  total_acquired : Z;
  total_rejected : Z;
}.

Implicit Types (s : AdaptiveThrottle) (now : float) (mon : option BackpressureMonitor).

(** [AdaptiveThrottle.__init__]: the bucket starts full. *)
Definition new_throttle (base : float) (capacity : Z) (frac warn critical now : float)
    : result ThrottleError AdaptiveThrottle :=
  if fleb base f0 then Raise BadBaseRate
  else if capacity <=? 0 then Raise BadCapacity
  else if negb (fltb f0 frac && fleb frac f1) then Raise BadMinRateFraction
  else Ok (mkThrottle base (fofZ capacity) frac warn critical (fofZ capacity) now 0 0).

(** [_compute_rate] *)
Definition compute_rate s (pressure : float) : result ThrottleError float :=
  if fleb s.(th_critical) pressure then Ok (fmul s.(base_rate) s.(min_rate_fraction))
  else if fleb s.(th_warn) pressure then
    let range_size := fsub s.(th_critical) s.(th_warn) in
    if feqb range_size f0 then Raise ZeroDivisionError
    else
      let t := fdiv (fsub pressure s.(th_warn)) range_size in
      let fraction := fsub f1 (fmul t (fsub f1 s.(min_rate_fraction))) in
      Ok (fmul s.(base_rate) fraction)
  else Ok s.(base_rate).

Definition pressure_of mon : float :=
  match mon with Some m => pressure_score m | None => f0 end.

Definition effective_rate mon s : result ThrottleError float :=
  match mon with None => Ok s.(base_rate) | Some m => compute_rate s (pressure_score m) end.

Definition set_bucket s (tk lr : float) (acq rej : Z) : AdaptiveThrottle :=
  mkThrottle s.(base_rate) s.(bucket_capacity) s.(min_rate_fraction) s.(th_warn)
    s.(th_critical) tk lr (s.(total_acquired) + acq) (s.(total_rejected) + rej).

(** [_refill] *)
Definition refill now mon : M AdaptiveThrottle ThrottleError unit := λ s,
  let elapsed := fsub now s.(last_refill) in
  let s1 := set_bucket s s.(tokens) now 0 0 in
  match compute_rate s1 (pressure_of mon) with
  | Raise e => (Raise e, s1)
  | Ok rate =>
      let new_tokens := fmul elapsed rate in
      (Ok tt, set_bucket s1 (fmin s1.(bucket_capacity) (fadd s1.(tokens) new_tokens)) now 0 0)
  end.

Definition try_acquire (n now : float) mon : M AdaptiveThrottle ThrottleError bool :=
  let! _ := refill now mon in
  λ s, if fleb n s.(tokens)
       then (Ok true, set_bucket s (fsub s.(tokens) n) s.(last_refill) 1 0)
       else (Ok false, set_bucket s s.(tokens) s.(last_refill) 0 1).

Definition available_tokens now mon : M AdaptiveThrottle ThrottleError float :=
  let! _ := refill now mon in λ s, (Ok s.(tokens), s).

(** The loop of [acquire_async]: one element of [ticks] per round, with the clock
    and the monitor at the attempt and the clock at the deadline check.  [None] is
    a call still waiting after the rounds given. *)
Fixpoint acquire_loop (n : float) (deadline : option float)
    (ticks : list (float * option BackpressureMonitor * float))
    : M AdaptiveThrottle ThrottleError (option bool) :=
  match ticks with
  | [] => retS None
  | (now, mon, now') :: rest =>
      let! ok := try_acquire n now mon in
      if ok then retS (Some true)
      else if match deadline with Some d => fleb d now' | None => false end
      then retS (Some false)
      else acquire_loop n deadline rest
  end.

(** [start] is the clock read for the deadline. *)
Definition acquire_async (n : float) (timeout : option float) (start : float)
    (ticks : list (float * option BackpressureMonitor * float))
    : M AdaptiveThrottle ThrottleError (option bool) :=
  acquire_loop n (fadd start <$> timeout) ticks.

(** A history of [try_acquire] calls, and the tokens it handed out. *)
Definition request : Type := float * float * option BackpressureMonitor.

Fixpoint acquire_all (rs : list request) s : list (result ThrottleError bool) * AdaptiveThrottle :=
  match rs with
  | [] => ([], s)
  | (n, now, mon) :: rest =>
      let '(r, s1) := try_acquire n now mon s in
      let '(rs', s2) := acquire_all rest s1 in
      (r :: rs', s2)
  end.

(** The tokens that positive requests were granted, and those that negative ones, which
    are granted too, added to the bucket. *)
Definition granted (part : float → float) (rs : list request)
    (out : list (result ThrottleError bool)) : float :=
  fsum (zip_with (λ r o, match o with Ok true => part r.1.1 | _ => f0 end) rs out).
Definition plus (n : float) : float := if fltb f0 n then n else f0.
Definition minus (n : float) : float := if fltb n f0 then fsub f0 n else f0.
Definition handed_out := granted plus.
Definition put_back := granted minus.

Definition params_eq s s' : Prop :=
  s'.(base_rate) = s.(base_rate) ∧ s'.(bucket_capacity) = s.(bucket_capacity) ∧
  s'.(min_rate_fraction) = s.(min_rate_fraction) ∧ s'.(th_warn) = s.(th_warn) ∧
  s'.(th_critical) = s.(th_critical).
End throttle.

(** ** Over exact rationals *)
Section rational.
#[local] Existing Instance QF.
#[local] Open Scope Q_scope.
Implicit Types (s : AdaptiveThrottle) (now : float) (mon : option BackpressureMonitor).

Definition throttle_ok s : Prop :=
  0 < base_rate s ∧ 0 < min_rate_fraction s ∧ min_rate_fraction s <= 1 ∧
  0 <= tokens s ∧ tokens s <= bucket_capacity s.

(** What holds whatever is requested. *)
Definition throttle_live s : Prop :=
  0 < base_rate s ∧ 0 < min_rate_fraction s ∧ min_rate_fraction s <= 1 ∧
  0 <= tokens s ∧ 0 <= bucket_capacity s.

Lemma ok_live s : throttle_ok s → throttle_live s.
Proof.
  intros (?&?&?&?&?). split_and!; try done. by eapply Qle_trans.
Qed.

Lemma interpolation_bounds (p w c : Q) :
  w <= p → p < c → 0 <= (p - w) / (c - w) ∧ (p - w) / (c - w) <= 1.
Proof.
  intros H1 H2. assert (0 < c - w) by lra. split.
  - apply Qle_shift_div_l; [done|]. lra.
  - apply Qle_shift_div_r; [done|]. lra.
Qed.

Lemma compute_rate_cases s (p : float) :
  (th_critical s <= p ∧ compute_rate s p = Ok (base_rate s * min_rate_fraction s)) ∨
  (p < th_critical s ∧ th_warn s <= p ∧
   compute_rate s p = Ok (base_rate s * (1 -
     (p - th_warn s) / (th_critical s - th_warn s) * (1 - min_rate_fraction s)))) ∨
  (p < th_critical s ∧ p < th_warn s ∧ compute_rate s p = Ok (base_rate s)).
Proof.
  unfold compute_rate. destruct (fleb (th_critical s) p) eqn:E1.
  { left. apply Qle_bool_iff in E1. done. }
  apply (proj1 (Qle_bool_false _ _)) in E1. right.
  destruct (fleb (th_warn s) p) eqn:E2.
  - left. apply Qle_bool_iff in E2. split_and!; [done..|].
    destruct (feqb _ f0) eqn:E3; [|done]. exfalso. apply Qeq_bool_iff in E3.
    qf. lra.
  - right. apply (proj1 (Qle_bool_false _ _)) in E2. done.
Qed.

Lemma rate_bounds s p :
  throttle_live s →
  ∃ r, compute_rate s p = Ok r ∧ base_rate s * min_rate_fraction s <= r ∧ r <= base_rate s.
Proof.
  intros (Hb&Hf&Hf1&_). qf.
  destruct (compute_rate_cases s p) as [(?&->)|[(Hc&Hw&->)|(?&?&->)]]; eexists; (split; [done|]).
  - nra.
  - destruct (interpolation_bounds p _ _ Hw Hc) as [H0 H1]. qf.
    set (t := (p - th_warn s) / (th_critical s - th_warn s)) in *.
    assert (0 <= t * (1 - min_rate_fraction s)) by nra.
    assert (t * (1 - min_rate_fraction s) <= 1 - min_rate_fraction s) by nra. nra.
  - nra.
Qed.

(** The refill rate always exists (no division by zero, whatever the
    thresholds), stays between [min_rate_fraction] of the base rate and the base
    rate, and never rises with the pressure. *)
Theorem rate_antitone s (p p' : float) :
  throttle_ok s → p <= p' →
  ∃ r r', compute_rate s p = Ok r ∧ compute_rate s p' = Ok r' ∧
    r' <= r ∧ base_rate s * min_rate_fraction s <= r' ∧ r <= base_rate s.
Proof.
  intros Hok Hp. destruct (rate_bounds s p (ok_live s Hok)) as (r & Hr & Hr1 & Hr2).
  destruct (rate_bounds s p' (ok_live s Hok)) as (r' & Hr' & Hr1' & Hr2').
  exists r, r'. split_and!; try done. destruct Hok as (Hb&Hf&Hf1&_). qf.
  destruct (compute_rate_cases s p) as [(Hc&E)|[(Hc&Hw&E)|(Hc&Hw&E)]];
    destruct (compute_rate_cases s p') as [(Hc'&E')|[(Hc'&Hw'&E')|(Hc'&Hw'&E')]];
    rewrite Hr in E; rewrite Hr' in E'; injection E as ->; injection E' as ->;
    qf; try lra; try nra; try done.
  assert (0 < th_critical s - th_warn s) by lra.
  set (d := th_critical s - th_warn s) in *.
  assert ((p - th_warn s) / d <= (p' - th_warn s) / d) as Ht.
  { apply Qle_shift_div_r; [done|]. unfold Qdiv. rewrite <-Qmult_assoc, (Qmult_comm (/ d)),
      Qmult_inv_r; lra. }
  set (t := (p - th_warn s) / d) in *. set (t' := (p' - th_warn s) / d) in *.
  assert (t * (1 - min_rate_fraction s) <= t' * (1 - min_rate_fraction s)) by nra. nra.
Qed.

Lemma set_bucket_params s tk lr a r : params_eq s (set_bucket s tk lr a r).
Proof. done. Qed.

(** One refill: time passes, at most [base_rate] tokens per unit of it come in,
    and the bucket never overflows. *)
Lemma refill_spec now mon s :
  throttle_ok s → last_refill s <= now →
  ∃ s', refill now mon s = (Ok tt, s') ∧ throttle_ok s' ∧ params_eq s s' ∧
    last_refill s' = now ∧ tokens s <= tokens s' ∧
    tokens s' <= tokens s + base_rate s * (now - last_refill s).
Proof.
  intros Hok Hnow. unfold refill. set (s1 := set_bucket s (tokens s) now 0 0).
  destruct (rate_bounds s1 (pressure_of mon)) as (r & Hr & Hr1 & Hr2); [by apply (ok_live s)|].
  rewrite Hr. eexists. split; [done|]. pose proof Hok as (Hb&Hf&Hf1&Ht&Hc).
  unfold throttle_ok. simpl in *.
  pose proof (fmin_q (bucket_capacity s) (fadd (tokens s) (fmul (fsub now (last_refill s)) r)))
    as (H1 & H2 & H3).
  set (m := fmin _ _) in *. clearbody m. qf.
  assert (0 < r) by nra.
  assert (0 <= (now - last_refill s) * r) by nra.
  assert ((now - last_refill s) * r <= base_rate s * (now - last_refill s)) by nra.
  assert (tokens s <= m) by (destruct H3 as [-> | ->]; lra).
  split_and!; try done; try lra.
Qed.

Lemma try_acquire_spec (n : float) now mon s :
  throttle_ok s → last_refill s <= now → 0 <= n →
  ∃ ok s', try_acquire n now mon s = (Ok ok, s') ∧ throttle_ok s' ∧ params_eq s s' ∧
    last_refill s' = now ∧
    (if ok then n else 0) + tokens s' <= tokens s + base_rate s * (now - last_refill s) ∧
    total_acquired s' = (total_acquired s + if ok then 1 else 0)%Z.
Proof.
  intros Hok Hnow Hn. unfold try_acquire, bindS.
  destruct (refill_spec now mon s Hok Hnow) as (s1 & Hs1 & Hok1 & Hp & Hl & Ht1 & Ht2).
  assert (Hacq : total_acquired s1 = total_acquired s).
  { unfold refill in Hs1. destruct (compute_rate _ _); [|done]. injection Hs1 as <-.
    simpl. lia. }
  rewrite Hs1. destruct Hok1 as (Hb&Hf&Hf1&Ht&Hc). unfold throttle_ok.
  destruct (fleb n (tokens s1)) eqn:E; eexists _, _; (split; [done|]); simpl;
    rewrite Hacq; (split; [|split; [done|split; [done|split; [|lia]]]]).
  - apply Qle_bool_iff in E. qf. split_and!; try done; lra.
  - qf. clear E. lra.
  - done.
  - qf. clear E. lra.
Qed.

(** Requests of amounts that are not negative, at times that do not go back. *)
Fixpoint timely (t : float) (rs : list request) : Prop :=
  match rs with
  | [] => True
  | (n, now, _) :: rest => 0 <= n ∧ t <= now ∧ timely now rest
  end.

(** Any requests, at times that do not go back. *)
Fixpoint forward (t : float) (rs : list request) : Prop :=
  match rs with
  | [] => True
  | (_, now, _) :: rest => t <= now ∧ forward now rest
  end.

Fixpoint end_time (t : float) (rs : list request) : float :=
  match rs with [] => t | (_, now, _) :: rest => end_time now rest end.

(** A refill whatever the bucket holds: it never leaves more than the capacity. *)
Lemma refill_live now mon s :
  throttle_live s → last_refill s <= now →
  ∃ s', refill now mon s = (Ok tt, s') ∧ throttle_live s' ∧ params_eq s s' ∧
    last_refill s' = now ∧ tokens s' <= bucket_capacity s ∧
    tokens s' <= tokens s + base_rate s * (now - last_refill s).
Proof.
  intros Hok Hnow. unfold refill. set (s1 := set_bucket s (tokens s) now 0 0).
  destruct (rate_bounds s1 (pressure_of mon)) as (r & Hr & Hr1 & Hr2); [exact Hok|].
  rewrite Hr. eexists. split; [done|]. pose proof Hok as (Hb&Hf&Hf1&Ht&Hc).
  unfold throttle_live. simpl in *.
  pose proof (fmin_q (bucket_capacity s) (fadd (tokens s) (fmul (fsub now (last_refill s)) r)))
    as (H1 & H2 & H3).
  set (m := fmin _ _) in *. clearbody m. qf.
  assert (0 < r) by nra.
  assert (0 <= (now - last_refill s) * r) by nra.
  assert ((now - last_refill s) * r <= base_rate s * (now - last_refill s)) by nra.
  assert (0 <= m) by (destruct H3 as [-> | ->]; lra).
  split_and!; try done; lra.
Qed.

Lemma granted_nil part out : granted part [] out == 0.
Proof. apply fsum_nil. Qed.

Lemma granted_cons part n now mon rs ok out :
  granted part ((n, now, mon) :: rs) (Ok ok :: out) == (if ok then part n else 0) + granted part rs out.
Proof. unfold granted. simpl zip_with. rewrite fsum_cons. destruct ok; qf; ring. Qed.

(** The parts of an amount. *)
Lemma parts (n : float) : plus n - minus n == n ∧ 0 <= minus n ∧ (0 <= n → minus n == 0).
Proof.
  unfold plus, minus, f0.
  destruct (fltb (fofZ 0) n) eqn:E1, (fltb n (fofZ 0)) eqn:E2; q_simpl;
    unfold inject_Z in *; split_and!; intros; lra.
Qed.

Lemma try_acquire_live (n : float) now mon s :
  throttle_live s → last_refill s <= now →
  ∃ ok s', try_acquire n now mon s = (Ok ok, s') ∧ throttle_live s' ∧ params_eq s s' ∧
    last_refill s' = now ∧ (0 <= n → tokens s' <= bucket_capacity s) ∧
    (if ok then plus n else 0) + tokens s' <=
      tokens s + base_rate s * (now - last_refill s) + (if ok then minus n else 0).
Proof.
  intros Hok Hnow. unfold try_acquire, bindS.
  destruct (refill_live now mon s Hok Hnow) as (s1 & Hs1 & Hok1 & Hp & Hl & Hcap & Ht2).
  rewrite Hs1. destruct Hok1 as (Hb&Hf&Hf1&Ht&Hc). unfold throttle_live.
  pose proof (parts n) as (Hn & _).
  destruct (fleb n (tokens s1)) eqn:E; eexists _, _; (split; [done|]); simpl;
    (split; [|split; [done|split; [done|]]]).
  - apply Qle_bool_iff in E. qf. split_and!; try done; lra.
  - qf. clear E. split; [intros; lra|lra].
  - done.
  - qf. clear E. split; [done|lra].
Qed.

Lemma acquire_all_live rs s :
  throttle_live s → forward (last_refill s) rs →
  let '(out, s') := acquire_all rs s in
  Forall is_ok out ∧ throttle_live s' ∧ params_eq s s' ∧
  (Forall (λ r, 0 <= r.1.1) rs → put_back rs out == 0 ∧
    (tokens s <= bucket_capacity s → tokens s' <= bucket_capacity s)) ∧
  handed_out rs out + tokens s' <=
    tokens s + base_rate s * (end_time (last_refill s) rs - last_refill s) + put_back rs out.
Proof.
  revert s. induction rs as [|[[n now] mon] rs IH]; intros s Hok Ht.
  { simpl. split; [done|]. split; [done|]. split; [done|].
    split; [by intros _|]. unfold handed_out, put_back. rewrite !granted_nil. qf. lra. }
  simpl in Ht. destruct Ht as (Hnow & Ht).
  destruct (try_acquire_live n now mon s Hok Hnow) as (ok & s1 & E & Hok1 & Hp & Hl & Hcap & Hb).
  simpl acquire_all. rewrite E. rewrite <-Hl in Ht. specialize (IH s1 Hok1 Ht).
  destruct (acquire_all rs s1) as [out s2]. destruct IH as (Hout & Hok2 & Hp2 & Hnn & IH).
  pose proof Hp as (Hbr & Hbc & _). rewrite Hl, Hbr in IH. rewrite Hbc in Hnn.
  pose proof (parts n) as (_ & _ & Hm).
  split_and!; [by constructor|done| | |].
  - destruct Hp as (?&?&?&?&?), Hp2 as (?&?&?&?&?). by split_and!; etrans.
  - intros Hall. apply Forall_cons in Hall as [Hn Hall]. simpl in Hn.
    destruct (Hnn Hall) as [Hpb Htok]. specialize (Hcap Hn). specialize (Hm Hn). split.
    + unfold put_back in *. rewrite granted_cons, Hpb. destruct ok; qf; lra.
    + intros _. by apply Htok.
  - unfold handed_out, put_back in *. rewrite !granted_cons. simpl end_time. clear Hout.
    destruct ok; qf; lra.
Qed.

(** C31. The rate limit, in exact arithmetic: over any history of [try_acquire] calls on a
    new throttle, of any amounts, at any pressures, with a clock that does not go back,
    every call returns, and the tokens handed out and those left are together at most the
    bucket's capacity, the base rate times the time elapsed, and what requests of negative
    amounts put back.  Without such requests nothing is put back, and the bucket never
    holds more than its capacity. *)
Theorem token_rate_limit base capacity frac warn critical now s rs :
  new_throttle base capacity frac warn critical now = Ok s → forward now rs →
  let '(out, s') := acquire_all rs s in
  Forall is_ok out ∧ 0 <= tokens s' ∧
  handed_out rs out + tokens s' <=
    inject_Z capacity + base * (end_time now rs - now) + put_back rs out ∧
  (Forall (λ r, 0 <= r.1.1) rs → put_back rs out == 0 ∧ tokens s' <= inject_Z capacity).
Proof.
  unfold new_throttle. destruct (fleb base f0) eqn:E1; [done|].
  destruct (Z.leb_spec capacity 0); [done|].
  destruct (negb _) eqn:E2; [done|]. intros [= <-] Ht.
  apply (proj1 (Qle_bool_false _ _)) in E1.
  apply negb_false_iff, andb_true_iff in E2 as [E2 E3].
  apply Qltb_lt in E2. apply Qle_bool_iff in E3.
  set (s := mkThrottle _ _ _ _ _ _ _ _ _) in *.
  assert (Hc : 0 <= inject_Z capacity) by (rewrite (Zlt_Qlt 0) in H; by apply Qlt_le_weak).
  pose proof (acquire_all_live rs s ltac:(by split_and!) Ht) as Hall.
  destruct (acquire_all rs s) as [out s'].
  destruct Hall as (Hout & (_&_&_&Ht0&_) & _ & Hnn & Hb).
  unfold s in Hb, Hnn. simpl in *. split_and!; [done..|intros Hn; destruct (Hnn Hn) as [? Hcap]].
  split; [done|]. apply Hcap. apply Qle_refl.
Qed.

(** A request for a negative amount is granted however empty the bucket, and
    fills it, beyond its capacity if need be. *)
Theorem negative_request_granted (n : float) now mon s :
  throttle_ok s → last_refill s <= now → n < 0 →
  ∃ s', try_acquire n now mon s = (Ok true, s') ∧ tokens s - n <= tokens s'.
Proof.
  intros Hok Hnow Hn. unfold try_acquire, bindS.
  destruct (refill_spec now mon s Hok Hnow) as (s1 & -> & (_&_&_&Ht&_) & _ & _ & Ht1 & _).
  assert (E : fleb n (tokens s1) = true).
  { apply Qle_bool_iff. apply Qlt_le_weak. by eapply Qlt_le_trans. }
  rewrite E. eexists. split; [done|]. simpl. qf. clear E. lra.
Qed.

(** [acquire_async] stops by its deadline: once a round's deadline check reads a
    time at or past it, the call has returned, [True] when it took the tokens (one
    acquisition) and [False] when it took none. *)
Theorem acquire_async_stops (n timeout start : float) ticks s :
  throttle_ok s → 0 <= n →
  timely (last_refill s) ((λ t, (n, t.1.1, t.1.2)) <$> ticks) →
  (∃ t, t ∈ ticks ∧ fleb (fadd start timeout) t.2 = true) →
  ∃ ok s', acquire_async n (Some timeout) start ticks s = (Ok (Some ok), s') ∧
    total_acquired s' = (total_acquired s + if ok then 1 else 0)%Z.
Proof.
  unfold acquire_async. simpl. intros Hok Hn.
  revert s Hok. induction ticks as [|[[now mon] now'] ticks IH]; intros s Hok Ht (t & Hin & Hd).
  { by apply elem_of_nil in Hin. }
  simpl in Ht. destruct Ht as (_ & Hnow & Ht).
  destruct (try_acquire_spec n now mon s Hok Hnow Hn) as (ok & s1 & E & Hok1 & _ & Hl & _ & Ha).
  simpl acquire_loop. unfold bindS. rewrite E. destruct ok; [by exists true, s1|].
  destruct (Qle_bool (start + timeout) now') eqn:Ed; [by exists false, s1|]. rewrite <-Hl in Ht.
  destruct (IH s1 Hok1 Ht) as (ok & s2 & E2 & Ha2).
  { exists t. split; [|done]. apply elem_of_cons in Hin as [->|]; [|done].
    simpl in Hd. by rewrite Ed in Hd. }
  exists ok, s2. split; [exact E2|]. rewrite Ha2, Ha. lia.
Qed.
End rational.

(** ** Witnesses *)
Section witnesses.
#[local] Existing Instance QF.

Definition ex_throttle : AdaptiveThrottle :=
  mkThrottle (fofZ 100) (fofZ 5) (flit 1 10) (flit 7 10) (flit 9 10) (fofZ 5) (fofZ 0) 0 0.

Lemma ex_throttle_ok : throttle_ok ex_throttle.
Proof. unfold throttle_ok. simpl. by split_and!; vm_compute. Qed.

Lemma rate_antitone_witness :
  ∃ r r', compute_rate ex_throttle (flit 8 10) = Ok r ∧ compute_rate ex_throttle f1 = Ok r' ∧
    (r' <= r ∧ fofZ 100 * flit 1 10 <= r' ∧ r <= fofZ 100)%Q.
Proof. by apply (rate_antitone ex_throttle (flit 8 10) f1 ex_throttle_ok). Defined.

Definition ex_requests : list request :=
  [(fofZ 4, fofZ 0, None); (fofZ 4, fofZ 0, None); (fofZ (-3), fofZ 0, None); (fofZ 4, fofZ 1, None)].

Lemma token_rate_limit_witness :
  let '(out, s') := acquire_all ex_requests ex_throttle in
  out = [Ok true; Ok false; Ok true; Ok true] ∧ (0 <= tokens s' ∧
    handed_out ex_requests out + tokens s' <=
      inject_Z 5 + fofZ 100 * (end_time (fofZ 0) ex_requests - fofZ 0) + put_back ex_requests out)%Q.
Proof.
  pose proof (token_rate_limit (fofZ 100) 5 (flit 1 10) (flit 7 10) (flit 9 10)
    (fofZ 0) ex_throttle ex_requests eq_refl) as H.
  assert (Hf : forward (fofZ 0) ex_requests)
    by (split; [discriminate|]; split; [discriminate|]; split; [discriminate|]; split; [discriminate|exact I]).
  specialize (H Hf). assert (Ho : (acquire_all ex_requests ex_throttle).1 = [Ok true; Ok false; Ok true; Ok true])
    by reflexivity.
  destruct (acquire_all ex_requests ex_throttle) as [out s'].
  destruct H as (_ & Ht & Hh & _). split; [exact Ho|]. split; [exact Ht|exact Hh].
Defined.

Lemma negative_request_granted_witness :
  ∃ s', try_acquire (fofZ (-7)) (fofZ 0) None ex_throttle = (Ok true, s') ∧
    (fofZ 5 - fofZ (-7) <= tokens s')%Q.
Proof. by apply (negative_request_granted (fofZ (-7)) (fofZ 0) None ex_throttle ex_throttle_ok). Defined.

Lemma acquire_async_stops_witness :
  ∃ ok s', acquire_async (fofZ 9) (Some f1) f0 [(fofZ 0, None, fofZ 2)] ex_throttle =
    (Ok (Some ok), s') ∧ total_acquired s' = (0 + if ok then 1 else 0)%Z.
Proof.
  apply (acquire_async_stops (fofZ 9) f1 f0 [(fofZ 0, None, fofZ 2)] ex_throttle
    ex_throttle_ok); [done|by simpl|].
  exists (fofZ 0, None, fofZ 2). split; [left|reflexivity].
Defined.
End witnesses.
