(* ===== verification/PriorityQueue.v ===== *)
(** * The broker's priority queue ([broker/queue.py])

    [asyncio.PriorityQueue] hands out its smallest item; items compare by
    [(priority_value, sequence)] ([dataclass(order=True)], the other fields
    excluded).  The model keeps the items in insertion order and takes the
    smallest; the heap's layout is not observable.  The specification is one
    FIFO per priority, served in the order of urgency; the refinement theorem
    relates the two. *)
From stdpp Require Import base list sorting strings.
From Stdlib Require Import ZArith Lia.
From S2P Require Import Prelude PyDict PyFloat PySort Envelope.
#[local] Open Scope Z_scope.

Section priority_queue.
Context {F : PyFloat}.

(** [_QueueItem] *)
Record QueueItem : Type := mkItem {
  priority_key : Z;
  sequence : Z;
  enqueued_at : float;
  envelope : MessageEnvelope;
}.

(** The generated [__lt__]: tuples of the compared fields. *)
Definition item_lt (x y : QueueItem) : bool :=
  (x.(priority_key) <? y.(priority_key)) ||
  ((x.(priority_key) =? y.(priority_key)) && (x.(sequence) <? y.(sequence))).

(** [WouldBlock]: the awaiting call is suspended until another task makes room
    (or puts a message). *)
Inductive PQError : Type := QueueFullError | QueueEmpty | TaskDoneTooOften | WouldBlock.

Record PriorityMessageQueue : Type := mkPQ {
  maxsize : Z;
  discard_expired : bool;
  items : list QueueItem;
  unfinished : Z;
  next_sequence : Z;
  total_enqueued : Z;
  total_dequeued : Z;
  total_discarded : Z;
}.

Implicit Types (q : PriorityMessageQueue) (x y : QueueItem) (e : MessageEnvelope).

Definition new_pq (ms : Z) (discard : bool) : PriorityMessageQueue :=
  mkPQ ms discard [] 0 0 0 0 0.

Definition qsize q : Z := Z.of_nat (length q.(items)).
Definition empty q : bool := qsize q =? 0.
(** A [maxsize] of zero or less is no bound. *)
Definition full q : bool := (0 <? q.(maxsize)) && (q.(maxsize) <=? qsize q).

(** [_make_item], which uses up a sequence number. *)
Definition _make_item e (now : float) q : QueueItem * PriorityMessageQueue :=
  (mkItem (priority_value e.(priority)) q.(next_sequence) now e,
   mkPQ q.(maxsize) q.(discard_expired) q.(items) q.(unfinished) (q.(next_sequence) + 1)
     q.(total_enqueued) q.(total_dequeued) q.(total_discarded)).

(** A successful put on the asyncio queue, and the count after it. *)
Definition insert_item x q : PriorityMessageQueue :=
  mkPQ q.(maxsize) q.(discard_expired) (q.(items) ++ [x]) (q.(unfinished) + 1)
    q.(next_sequence) (q.(total_enqueued) + 1) q.(total_dequeued) q.(total_discarded).

(** [put]: on a full queue it waits, with its item made; [insert_item] is its
    continuation. *)
Definition put e (now : float) : M PriorityMessageQueue PQError unit := λ q,
  let '(x, q1) := _make_item e now q in
  if full q1 then (Raise WouldBlock, q1) else (Ok tt, insert_item x q1).

Definition put_nowait e (now : float) : M PriorityMessageQueue PQError unit := λ q,
  let '(x, q1) := _make_item e now q in
  if full q1 then (Raise QueueFullError, q1) else (Ok tt, insert_item x q1).

(** Take the smallest item off the asyncio queue. *)
Definition take_min (l : list QueueItem) : option (QueueItem * list QueueItem) :=
  match py_min item_lt l with
  | Some x => Some (x, filter (λ y, y.(sequence) ≠ x.(sequence)) l)
  | None => None
  end.

(** [asyncio.Queue.task_done] *)
Definition task_done : M PriorityMessageQueue PQError unit := λ q,
  if q.(unfinished) <=? 0 then (Raise TaskDoneTooOften, q)
  else (Ok tt, mkPQ q.(maxsize) q.(discard_expired) q.(items) (q.(unfinished) - 1)
    q.(next_sequence) q.(total_enqueued) q.(total_dequeued) q.(total_discarded)).

Definition dequeued (l : list QueueItem) (discarded : Z) q : PriorityMessageQueue :=
  mkPQ q.(maxsize) q.(discard_expired) l q.(unfinished) q.(next_sequence)
    q.(total_enqueued) (q.(total_dequeued) + 1) (q.(total_discarded) + discarded).

(** The loop of [get]; [clock i] is what [is_expired] reads in round [i].  Every
    round takes an item, so as many rounds as there are items reach the end. *)
Fixpoint get_loop (fuel : nat) (clock : nat → float) (i : nat)
    : M PriorityMessageQueue PQError MessageEnvelope := λ q,
  match take_min q.(items), fuel with
  | None, _ | _, O => (Raise WouldBlock, q)
  | Some (x, rest), S fuel' =>
      if q.(discard_expired) && is_expired x.(envelope) (clock i) then
        (let! _ := task_done in get_loop fuel' clock (S i)) (dequeued rest 1 q)
      else (Ok x.(envelope), dequeued rest 0 q)
  end.

Definition get (clock : nat → float) : M PriorityMessageQueue PQError MessageEnvelope :=
  λ q, get_loop (length q.(items)) clock 0 q.

(** [get_nowait] returns the first message, expired or not. *)
Definition get_nowait : M PriorityMessageQueue PQError MessageEnvelope := λ q,
  match take_min q.(items) with
  | None => (Raise QueueEmpty, q)
  | Some (x, rest) => (Ok x.(envelope), dequeued rest 0 q)
  end.

(** What holds between calls.  [in_flight] messages were handed out and not yet
    marked done. *)
Definition pq_ok (in_flight : Z) q : Prop :=
  StronglySorted (λ x y, x.(sequence) < y.(sequence)) q.(items) ∧
  Forall (λ x, x.(sequence) < q.(next_sequence) ∧
    x.(priority_key) = priority_value x.(envelope).(priority)) q.(items) ∧
  (0 < q.(maxsize) → qsize q ≤ q.(maxsize)) ∧
  q.(total_enqueued) - q.(total_dequeued) = qsize q ∧
  q.(unfinished) = qsize q + in_flight.

(** ** The specification: one FIFO per priority *)
Definition levels : Type := Priority → list MessageEnvelope.

Definition push_level (e : MessageEnvelope) (L : levels) : levels := λ p,
  if decide (p = e.(priority)) then L p ++ [e] else L p.

(** The first message of the most urgent level that has one. *)
Fixpoint pop_level (ps : list Priority) (L : levels) : option (MessageEnvelope * levels) :=
  match ps with
  | [] => None
  | p :: ps' =>
      match L p with
      | [] => pop_level ps' L
      | e :: es => Some (e, λ p', if decide (p' = p) then es else L p')
      end
  end.

(** The abstraction: the items of each priority, in insertion order. *)
Definition level (l : list QueueItem) : levels := λ p,
  envelope <$> filter (λ x, x.(envelope).(priority) = p) l.
End priority_queue.

Section lemmas.
Context {F : PyFloat}.
Implicit Types (q : PriorityMessageQueue) (x y : QueueItem) (e : MessageEnvelope).

Lemma item_weak_order : weak_order item_lt (λ _, True).
Proof.
  split; intros *; unfold item_lt; intros; rewrite ?orb_true_iff, ?orb_false_iff,
    ?andb_true_iff, ?andb_false_iff, ?Z.ltb_lt, ?Z.ltb_ge, ?Z.eqb_eq, ?Z.eqb_neq in *; lia.
Qed.

Definition seq_sorted (l : list QueueItem) : Prop :=
  StronglySorted (λ x y, x.(sequence) < y.(sequence)) l.

Definition keyed (l : list QueueItem) : Prop :=
  Forall (λ x, x.(priority_key) = priority_value x.(envelope).(priority)) l.

Lemma seq_sorted_app l x :
  seq_sorted l → Forall (λ y, y.(sequence) < x.(sequence)) l → seq_sorted (l ++ [x]).
Proof.
  induction 1 as [|y l Hl IH Hy]; intros Hx; simpl; [repeat constructor|].
  apply Forall_cons in Hx as [Hyx Hx]. constructor; [by apply IH|].
  apply Forall_app. split; [done|]. by repeat constructor.
Qed.

Lemma seq_sorted_filter (P : QueueItem → Prop) `{∀ x, Decision (P x)} l :
  seq_sorted l → seq_sorted (filter P l).
Proof.
  induction 1 as [|y l Hl IH Hy]; [constructor|]. rewrite filter_cons. case_decide; [|done].
  constructor; [done|]. rewrite Forall_forall in *. intros z [_ ?]%list_elem_of_filter. auto.
Qed.

Lemma seq_inj l x y : seq_sorted l → x ∈ l → y ∈ l → x.(sequence) = y.(sequence) → x = y.
Proof.
  induction 1 as [|z l Hl IH Hz]; intros Hx Hy E; [by apply elem_of_nil in Hx|].
  rewrite Forall_forall in Hz. apply elem_of_cons in Hx as [->|Hx], Hy as [->|Hy]; auto.
  - specialize (Hz y Hy). lia.
  - specialize (Hz x Hx). lia.
Qed.

(** What [take_min] takes: the least key, and what is left is the rest, in order. *)
Lemma take_min_spec l x rest :
  take_min l = Some (x, rest) →
  x ∈ l ∧ (∀ y, y ∈ l → item_lt y x = false) ∧
  rest = filter (λ y, y.(sequence) ≠ x.(sequence)) l.
Proof.
  unfold take_min, py_min. destruct l as [|z l]; [done|]. intros [= <- <-].
  destruct (py_min_from_spec item_lt (λ _, True) item_weak_order z l) as [Hin Hmin];
    [done|by apply Forall_true|done].
Qed.

Lemma take_min_None l : take_min l = None ↔ l = [].
Proof. unfold take_min, py_min. by destruct l. Qed.

(** Removing by sequence number removes exactly the item. *)
Lemma remove_seq_split l x :
  seq_sorted l → x ∈ l →
  ∃ l1 l2, l = l1 ++ x :: l2 ∧ filter (λ y, y.(sequence) ≠ x.(sequence)) l = l1 ++ l2 ∧
    Forall (λ y, y.(sequence) < x.(sequence)) l1.
Proof.
  intros Hs. induction Hs as [|z l Hl IH Hz]; intros Hx; [by apply elem_of_nil in Hx|].
  rewrite Forall_forall in Hz. rewrite filter_cons. apply elem_of_cons in Hx as [->|Hx].
  - exists [], l. rewrite decide_False by tauto. split_and!; [done| |constructor].
    apply filter_all. intros y Hy. specialize (Hz y Hy). simpl in Hz. lia.
  - destruct (IH Hx) as (l1 & l2 & -> & Hf & Hl1). exists (z :: l1), l2.
    assert (sequence z < sequence x) by (by apply Hz).
    rewrite decide_True by lia. split_and!; [done|by rewrite Hf|by constructor].
Qed.

Lemma level_app l1 l2 p : level (l1 ++ l2) p = level l1 p ++ level l2 p.
Proof. unfold level. by rewrite filter_app, fmap_app. Qed.

Lemma level_nil l p :
  (∀ y, y ∈ l → y.(envelope).(priority) ≠ p) → level l p = [].
Proof. intros H. unfold level. by rewrite filter_none. Qed.

Lemma priority_value_inj p p' : priority_value p = priority_value p' → p = p'.
Proof. by destruct p, p'. Qed.

(** The smallest item is the head of the most urgent non-empty level. *)
Lemma take_min_level l x rest :
  seq_sorted l → keyed l → take_min l = Some (x, rest) →
  let p := x.(envelope).(priority) in
  level l p = x.(envelope) :: level rest p ∧
  (∀ p', p' ≠ p → level rest p' = level l p') ∧
  (∀ p', priority_value p' < priority_value p → level l p' = []).
Proof.
  intros Hs Hk Hm p. destruct (take_min_spec l x rest Hm) as (Hx & Hmin & ->).
  unfold keyed in Hk. rewrite Forall_forall in Hk.
  destruct (remove_seq_split l x Hs Hx) as (l1 & l2 & El & -> & Hl1).
  rewrite Forall_forall in Hl1.
  assert (Hle : ∀ y, y ∈ l → priority_value p ≤ priority_value y.(envelope).(priority)).
  { intros y Hy. specialize (Hmin y Hy). unfold item_lt in Hmin.
    apply orb_false_iff in Hmin as [H1 _]. apply Z.ltb_ge in H1.
    by rewrite !Hk in H1 by done. }
  assert (Hl1p : level l1 p = []).
  { apply level_nil. intros y Hy E.
    assert (Hyl : y ∈ l) by (rewrite El; apply elem_of_app; by left).
    specialize (Hmin y Hyl). specialize (Hl1 y Hy). unfold item_lt in Hmin.
    rewrite !Hk in Hmin by done. unfold p in E. rewrite E in Hmin.
    rewrite Z.ltb_irrefl, Z.eqb_refl in Hmin. simpl in Hmin. apply Z.ltb_ge in Hmin. lia. }
  split_and!.
  - rewrite El, !level_app, Hl1p. simpl. unfold level at 1. by rewrite filter_cons_True.
  - intros p' Hp'. rewrite El, !level_app. f_equal. unfold level at 2.
    by rewrite filter_cons_False by (unfold p in Hp'; congruence).
  - intros p' Hp'. apply level_nil. intros y Hy <-. specialize (Hle y Hy). lia.
Qed.
End lemmas.

(** ** Refinement *)
Section refinement.
Context {F : PyFloat}.
Implicit Types (q : PriorityMessageQueue) (x : QueueItem) (e : MessageEnvelope) (L : levels).

#[export] Instance levels_equiv : Equiv levels := λ L L', ∀ p, L p = L' p.

#[export] Instance levels_equivalence : Equivalence (≡@{levels}).
Proof.
  split; [by intros L p|by intros L L' H p|]. intros L1 L2 L3 H1 H2 p. by rewrite (H1 p).
Qed.

#[export] Instance push_level_proper e : Proper ((≡) ==> (≡)) (push_level e).
Proof. intros L L' H p. unfold push_level. case_decide; by rewrite (H p). Qed.

(** Two pops with the same message and the same levels left. *)
Inductive same_pop : option (MessageEnvelope * levels) → option (MessageEnvelope * levels) → Prop :=
  | same_none : same_pop None None
  | same_some e L L' : L ≡ L' → same_pop (Some (e, L)) (Some (e, L')).

#[export] Instance pop_level_proper ps : Proper ((≡) ==> same_pop) (pop_level ps).
Proof.
  intros L L' H. induction ps as [|p ps IH]; simpl; [constructor|].
  rewrite (H p). destruct (L' p); [done|]. constructor. intros p'. case_decide; [done|apply H].
Qed.

(** A specification of [get] in terms of levels. *)
Fixpoint spec_get (discard : bool) (fuel : nat) (clock : nat → float) (i : nat) L
    : option (MessageEnvelope * levels) :=
  match pop_level priorities L, fuel with
  | None, _ | _, O => None
  | Some (e, L'), S fuel' =>
      if discard && is_expired e (clock i) then spec_get discard fuel' clock (S i) L'
      else Some (e, L')
  end.

#[export] Instance spec_get_proper d fuel clock i : Proper ((≡) ==> same_pop) (spec_get d fuel clock i).
Proof.
  revert i. induction fuel as [|fuel IH]; intros i L L' H; cbn [spec_get];
    destruct (pop_level_proper priorities L L' H) as [|e M M' HM]; try constructor.
  destruct (d && _); [by apply IH|by constructor].
Qed.

Lemma level_push l x e :
  x.(envelope) = e → level (l ++ [x]) ≡ push_level e (level l).
Proof.
  intros <- p. rewrite level_app. unfold push_level, level at 2. rewrite filter_cons.
  case_decide; case_decide; try congruence; [done|]. by rewrite app_nil_r.
Qed.

Lemma pop_level_first L p e es :
  L p = e :: es → (∀ p', priority_value p' < priority_value p → L p' = []) →
  pop_level priorities L = Some (e, λ p', if decide (p' = p) then es else L p').
Proof.
  intros Hp Hlt. unfold priorities. simpl.
  destruct p; try rewrite (Hlt CRITICAL) by done; try rewrite (Hlt HIGH) by done;
    try rewrite (Hlt NORMAL) by done; try rewrite (Hlt LOW) by done; by rewrite Hp.
Qed.

#[local] Arguments pop_level : simpl never.

(** Taking the smallest item is popping the most urgent level. *)
Lemma take_min_refines l :
  seq_sorted l → keyed l →
  same_pop ((λ xr, (xr.1.(envelope), level xr.2)) <$> take_min l)
    (pop_level priorities (level l)).
Proof.
  intros Hs Hk. destruct (take_min l) as [[x rest]|] eqn:Hm; simpl.
  - destruct (take_min_level l x rest Hs Hk Hm) as (Hp & Hne & Hlt).
    rewrite (pop_level_first _ _ _ _ Hp Hlt). constructor. intros p. case_decide as E.
    + by rewrite E.
    + by apply Hne.
  - apply take_min_None in Hm as ->. constructor.
Qed.

Lemma pq_ok_sorted k q : pq_ok k q → seq_sorted q.(items) ∧ keyed q.(items).
Proof. intros (Hs&Hf&_). split; [exact Hs|]. eapply Forall_impl; [exact Hf|]. by intros x [_ ?]. Qed.

(** Taking an item keeps the queue in order: it is then in flight. *)
Lemma dequeued_ok k d q x rest :
  0 ≤ k → pq_ok k q → take_min q.(items) = Some (x, rest) → pq_ok (k + 1) (dequeued rest d q).
Proof.
  intros Hk (Hs&Hf&Hm&Ht&Hu) Htm. destruct (take_min_spec _ _ _ Htm) as (Hx & _ & ->).
  destruct (remove_seq_split _ x Hs Hx) as (l1 & l2 & El & Hfil & _).
  assert (Hlen : length q.(items) = S (length (filter (λ y, y.(sequence) ≠ x.(sequence)) q.(items)))).
  { rewrite Hfil, El, !length_app. simpl. lia. }
  unfold pq_ok, qsize in *. simpl. split_and!; try lia.
  - by apply seq_sorted_filter.
  - rewrite Forall_forall in *. intros y [_ ?]%list_elem_of_filter. auto.
Qed.

Lemma task_done_ok k q :
  0 ≤ k → pq_ok (k + 1) q →
  ∃ q', task_done q = (Ok tt, q') ∧ pq_ok k q' ∧ q'.(items) = q.(items) ∧
    q'.(discard_expired) = q.(discard_expired).
Proof.
  intros Hk (Hs&Hf&Hm&Ht&Hu). unfold task_done, qsize in *.
  destruct (Z.leb_spec q.(unfinished) 0); [lia|]. eexists. split; [done|].
  unfold pq_ok, qsize. simpl. split_and!; done || lia.
Qed.

Lemma get_loop_refines fuel clock i k q :
  0 ≤ k → pq_ok k q → (length q.(items) ≤ fuel)%nat →
  match get_loop fuel clock i q with
  | (Ok e, q') => pq_ok (k + 1) q' ∧
      same_pop (Some (e, level q'.(items)))
        (spec_get q.(discard_expired) fuel clock i (level q.(items)))
  | (Raise e, q') => e = WouldBlock ∧ pq_ok k q' ∧ q'.(items) = [] ∧
      spec_get q.(discard_expired) fuel clock i (level q.(items)) = None
  end.
Proof.
  intros Hk. revert i q. induction fuel as [|fuel IH]; intros i q Hok Hlen; cbn [get_loop spec_get].
  { assert (Hi : q.(items) = []) by (destruct q.(items); simpl in *; [done|lia]).
    rewrite Hi. cbn [take_min py_min]. split_and!; done. }
  destruct (pq_ok_sorted k q Hok) as [Hs Hkeyed].
  pose proof (take_min_refines _ Hs Hkeyed) as Hpop.
  destruct (take_min q.(items)) as [[x rest]|] eqn:Htm; simpl in Hpop.
  2: { inversion Hpop. apply take_min_None in Htm. split_and!; [done..|]. done. }
  inversion Hpop as [|e L L' HL E1 E2]; subst e L.
  pose proof (dequeued_ok k 1 q x rest Hk Hok Htm) as Hok1.
  destruct (q.(discard_expired) && is_expired x.(envelope) (clock i)) eqn:Hexp.
  - unfold bindS.
    destruct (task_done_ok k _ Hk Hok1) as (q2 & -> & Hok2 & Hi2 & Hd2). simpl in Hi2, Hd2.
    assert (Hlen2 : (length q2.(items) ≤ fuel)%nat).
    { rewrite Hi2. destruct (take_min_spec _ _ _ Htm) as (Hx & _ & ->).
      destruct (remove_seq_split _ x Hs Hx) as (l1 & l2 & El & -> & _).
      rewrite El, length_app in Hlen. rewrite length_app. simpl in Hlen. lia. }
    specialize (IH (S i) q2 Hok2 Hlen2). rewrite Hi2, Hd2 in IH.
    pose proof (spec_get_proper q.(discard_expired) fuel clock (S i) _ _ HL) as Hsp.
    destruct (get_loop fuel clock (S i) q2) as [[e|e] q'].
    + destruct IH as [? IH]. split; [done|]. inversion IH as [|e' M M' HM E3 E4]; subst.
      rewrite <-E4 in Hsp. inversion Hsp as [|e' N N' HN E5 E6]; subst.
      constructor. by rewrite HM.
    + destruct IH as (?&?&?&IH). split_and!; [done..|]. rewrite IH in Hsp. by inversion Hsp.
  - split; [|by constructor]. by apply (dequeued_ok k 0 q x rest).
Qed.
End refinement.

(** ** Runs *)
Section runs.
Context {F : PyFloat}.
Implicit Types (q : PriorityMessageQueue) (e : MessageEnvelope) (L : levels).
#[local] Arguments pop_level : simpl never.

Inductive pq_op : Type :=
  | Put (e : MessageEnvelope) (now : float)
  | PutNowait (e : MessageEnvelope) (now : float)
  | Get (clock : nat → float)
  | GetNowait.

(** What a caller observes. *)
Inductive pq_out : Type :=
  | Accepted | Full | Waits | NoMessage | Delivered (e : MessageEnvelope).

Definition out_of {A} (ok : A → pq_out) (r : result PQError A) : pq_out :=
  match r with
  | Ok a => ok a
  | Raise QueueFullError => Full
  | Raise QueueEmpty => NoMessage
  | Raise _ => Waits
  end.

Definition pq_step (o : pq_op) q : pq_out * PriorityMessageQueue :=
  match o with
  | Put e now => prod_map (out_of (λ _, Accepted)) id (put e now q)
  | PutNowait e now => prod_map (out_of (λ _, Accepted)) id (put_nowait e now q)
  | Get clock => prod_map (out_of Delivered) id (get clock q)
  | GetNowait => prod_map (out_of Delivered) id (get_nowait q)
  end.

Fixpoint pq_run (os : list pq_op) q : list pq_out * PriorityMessageQueue :=
  match os with
  | [] => ([], q)
  | o :: os' =>
      let '(r, q1) := pq_step o q in
      let '(rs, q2) := pq_run os' q1 in
      (r :: rs, q2)
  end.

Definition levels_size L : nat := sum_list ((λ p, length (L p)) <$> priorities).

(** The same calls on the levels of a queue of bound [ms]. *)
Definition spec_step (ms : Z) (discard : bool) (o : pq_op) L : pq_out * levels :=
  let full := (0 <? ms) && (ms <=? Z.of_nat (levels_size L)) in
  match o with
  | Put e _ => if full then (Waits, L) else (Accepted, push_level e L)
  | PutNowait e _ => if full then (Full, L) else (Accepted, push_level e L)
  | Get clock =>
      match spec_get discard (levels_size L) clock 0 L with
      | Some (e, L') => (Delivered e, L')
      | None => (Waits, λ _, [])
      end
  | GetNowait =>
      match pop_level priorities L with
      | Some (e, L') => (Delivered e, L')
      | None => (NoMessage, L)
      end
  end.

Fixpoint spec_run (ms : Z) (discard : bool) (os : list pq_op) L : list pq_out * levels :=
  match os with
  | [] => ([], L)
  | o :: os' =>
      let '(r, L1) := spec_step ms discard o L in
      let '(rs, L2) := spec_run ms discard os' L1 in
      (r :: rs, L2)
  end.

Lemma levels_size_level (l : list QueueItem) : levels_size (level l) = length l.
Proof.
  unfold levels_size, level, priorities. induction l as [|x l IH]; [done|].
  simpl in *. rewrite !filter_cons.
  destruct (priority (envelope x)) eqn:E; repeat case_decide; simplify_eq;
    rewrite ?fmap_cons, !length_fmap in *; simpl; rewrite ?length_fmap; lia.
Qed.

#[export] Instance levels_size_proper : Proper ((≡) ==> (=)) levels_size.
Proof. intros L L' H. unfold levels_size, priorities. simpl. by rewrite !H. Qed.

(** A queue and levels that it implements. *)
Definition implements (ms : Z) (discard : bool) q L : Prop :=
  (∃ k, 0 ≤ k ∧ pq_ok k q) ∧ level q.(items) ≡ L ∧
  q.(maxsize) = ms ∧ q.(discard_expired) = discard.

Lemma put_ok k q e now :
  0 ≤ k → pq_ok k q →
  let '(x, q1) := _make_item e now q in
  pq_ok k q1 ∧ (full q1 = false → pq_ok k (insert_item x q1)) ∧
  level (insert_item x q1).(items) ≡ push_level e (level q.(items)).
Proof.
  intros Hk (Hs&Hf&Hm&Ht&Hu). simpl. unfold pq_ok, full, qsize in *. simpl.
  assert (Hf' : Forall (λ x, x.(sequence) < q.(next_sequence) + 1 ∧
    x.(priority_key) = priority_value x.(envelope).(priority)) q.(items)).
  { eapply Forall_impl; [exact Hf|]. intros x [? ?]. split; [lia|done]. }
  split_and!; try done; try lia; [|by apply level_push].
  intros Hfull. rewrite length_app. simpl. split_and!; try lia.
  - apply seq_sorted_app; [done|]. eapply Forall_impl; [exact Hf|]. by intros x [? _].
  - apply Forall_app. split; [done|]. repeat constructor; simpl; lia.
Qed.

Lemma get_loop_config fuel clock i q :
  (get_loop fuel clock i q).2.(maxsize) = q.(maxsize) ∧
  (get_loop fuel clock i q).2.(discard_expired) = q.(discard_expired).
Proof.
  revert i q. induction fuel as [|fuel IH]; intros i q; cbn [get_loop].
  - by destruct (take_min (items q)) as [[x rest]|].
  - destruct (take_min (items q)) as [[x rest]|]; [|done].
    destruct (_ && _); [|done]. unfold bindS, task_done.
    destruct (_ <=? 0); [done|].
    match goal with |- context [get_loop fuel clock (S i) ?q'] => exact (IH (S i) q') end.
Qed.

Lemma pq_step_refines ms discard o q L :
  implements ms discard q L →
  let '(r, q') := pq_step o q in
  let '(r', L') := spec_step ms discard o L in
  r = r' ∧ implements ms discard q' L'.
Proof.
  intros [(k & Hk & Hok) (HL & Hms & Hd)].
  assert (Hfull : (0 <? ms) && (ms <=? Z.of_nat (levels_size L)) = full q).
  { unfold full, qsize. by rewrite <-HL, levels_size_level, Hms. }
  unfold implements. destruct o as [e now|e now|clock|]; cbn [pq_step spec_step].
  - pose proof (put_ok k q e now Hk Hok) as (H1 & H2 & H3). rewrite Hfull. unfold put. simpl.
    change (full (mkPQ _ _ _ _ _ _ _ _)) with (full q) in *.
    destruct (full q); simpl; split_and!; eauto. by rewrite H3, HL.
  - pose proof (put_ok k q e now Hk Hok) as (H1 & H2 & H3). rewrite Hfull. unfold put_nowait. simpl.
    change (full (mkPQ _ _ _ _ _ _ _ _)) with (full q) in *.
    destruct (full q); simpl; split_and!; eauto. by rewrite H3, HL.
  - unfold get. rewrite <-(levels_size_proper _ _ HL), levels_size_level.
    pose proof (get_loop_refines (length q.(items)) clock 0 k q Hk Hok ltac:(done)) as H.
    pose proof (get_loop_config (length q.(items)) clock 0 q) as [Hc1 Hc2].
    pose proof (spec_get_proper q.(discard_expired) (length q.(items)) clock 0 _ _ HL) as Hsp.
    destruct (get_loop _ clock 0%nat q) as [[e|e] q']; simpl in Hc1, Hc2.
    + destruct H as [Hok' H]. inversion H as [|e' M M' HM E1 E2]; subst.
      rewrite <-E2 in Hsp. inversion Hsp as [|e' N N' HN E3 E4]; subst. simpl.
      split_and!; [done|exists (k + 1); split; [lia|done]|by rewrite HM|done..].
    + destruct H as (-> & Hok' & Hi & H). rewrite H in Hsp. inversion Hsp as [E1 E2|]; subst.
      rewrite <-E2. simpl. rewrite Hi.
      split_and!; [done|by exists k|done..].
  - unfold get_nowait. destruct (pq_ok_sorted k q Hok) as [Hs Hkeyed].
    pose proof (take_min_refines _ Hs Hkeyed) as Hpop.
    pose proof (pop_level_proper priorities _ _ HL) as Hpr.
    destruct (take_min q.(items)) as [[x rest]|] eqn:Htm; simpl in Hpop.
    + inversion Hpop as [|e' M M' HM E1 E2]; subst. rewrite <-E2 in Hpr.
      inversion Hpr as [|e' N N' HN E3 E4]; subst. simpl.
      split_and!; [done| |by rewrite HM|done..].
      exists (k + 1). split; [lia|]. by apply (dequeued_ok k 0 q x rest).
    + inversion Hpop as [E0 E1|]. rewrite <-E1 in Hpr. inversion Hpr as [E2 E3|]. simpl.
      split_and!; [done|by exists k|done..].
Qed.

(** C2. The priority queue is, to any sequence of callers, one FIFO per priority
    served in the order of urgency: the outcomes of any run of puts and gets
    (acceptance, fullness, waiting, the message handed out, expired messages
    skipped when they are discarded) are those of the specification, and the
    levels left are the same. *)
Theorem pq_refines ms discard os :
  let '(rs, q) := pq_run os (new_pq ms discard) in
  let '(rs', L) := spec_run ms discard os (λ _, []) in
  rs = rs' ∧ level q.(items) ≡ L ∧
  (0 < ms → qsize q ≤ ms) ∧ q.(total_enqueued) - q.(total_dequeued) = qsize q.
Proof.
  enough (H : ∀ q L, implements ms discard q L →
    let '(rs, q') := pq_run os q in
    let '(rs', L') := spec_run ms discard os L in
    rs = rs' ∧ implements ms discard q' L').
  { specialize (H (new_pq ms discard) (λ _, [])).
    destruct (pq_run os (new_pq ms discard)) as [rs q].
    destruct (spec_run ms discard os (λ _, [])) as [rs' L].
    destruct H as (-> & (k & Hk & (_&_&?&?&_)) & HL & Hms & _).
    - split; [|done]. exists 0. split; [done|].
      split_and!; [constructor|constructor|unfold qsize; simpl; lia|done|done].
    - by rewrite <-Hms. }
  induction os as [|o os IH]; intros q L Hi; simpl; [done|].
  pose proof (pq_step_refines ms discard o q L Hi) as Hstep.
  destruct (pq_step o q) as [r q1], (spec_step ms discard o L) as [r' L1].
  destruct Hstep as [-> Hi1]. specialize (IH q1 L1 Hi1).
  destruct (pq_run os q1) as [rs q2], (spec_run ms discard os L1) as [rs' L2].
  destruct IH as [-> ?]. done.
Qed.

End runs.
