(* ===== verification/DeadLetter.v ===== *)
(** * The dead-letter queue ([broker/dead_letter.py])

    A bounded [deque], oldest entry first.  Every method takes the lock. *)
From stdpp Require Import base list strings.
From Stdlib Require Import ZArith Lia.
From S2P Require Import Prelude PyDict PyFloat Envelope.
#[local] Open Scope Z_scope.

Section dead_letter.
Context {F : PyFloat}.

Record DeadLetterEntry : Type := mkEntry {
  dl_envelope : MessageEnvelope;
  dl_reason : string;
  error_detail : string;
  dead_lettered_at : float;
  attempt_count : Z;
}.

Record DeadLetterQueue : Type := mkDLQ {
  dlq_maxsize : Z;
  entries : list DeadLetterEntry;
  total_received : Z;
}.

Inductive DLQError : Type := BadMaxsize.

Implicit Types (d : DeadLetterQueue) (x : DeadLetterEntry).

Definition new_dlq (ms : Z) : result DLQError DeadLetterQueue :=
  if ms <=? 0 then Raise BadMaxsize else Ok (mkDLQ ms [] 0).

(** [push], of the entry it builds: the oldest entry makes room. *)
Definition push x d : DeadLetterQueue :=
  mkDLQ d.(dlq_maxsize)
    ((if d.(dlq_maxsize) <=? Z.of_nat (length d.(entries)) then tail d.(entries)
      else d.(entries)) ++ [x])
    (d.(total_received) + 1).

Definition pop d : option DeadLetterEntry * DeadLetterQueue :=
  (head d.(entries), mkDLQ d.(dlq_maxsize) (tail d.(entries)) d.(total_received)).

Definition list_entries (reason_filter : option string) (limit : option Z) d
    : list DeadLetterEntry :=
  let es := match reason_filter with
            | Some r => filter (λ x, x.(dl_reason) = r) d.(entries)
            | None => d.(entries)
            end in
  match limit with Some n => py_slice_from es (- n) | None => es end.

Definition clear d : Z * DeadLetterQueue :=
  (Z.of_nat (length d.(entries)), mkDLQ d.(dlq_maxsize) [] d.(total_received)).

Definition dlq_len d : Z := Z.of_nat (length d.(entries)).
Definition dlq_is_empty d : bool := dlq_len d =? 0.

Definition dlq_ok d : Prop :=
  0 < d.(dlq_maxsize) ∧ dlq_len d ≤ d.(dlq_maxsize) ∧ dlq_len d ≤ d.(total_received).

Inductive dlq_op : Type := Push (x : DeadLetterEntry) | Pop | Clear.

Definition dlq_step (o : dlq_op) d : DeadLetterQueue :=
  match o with Push x => push x d | Pop => (pop d).2 | Clear => (clear d).2 end.

(** The last [n] elements of a list. *)
Definition lastn {A} (n : nat) (l : list A) : list A := drop (length l - n) l.
End dead_letter.

Section lemmas.
Context {F : PyFloat}.
Implicit Types (d : DeadLetterQueue) (x : DeadLetterEntry).

Lemma new_dlq_ok ms d : new_dlq ms = Ok d → dlq_ok d.
Proof.
  unfold new_dlq. destruct (Z.leb_spec ms 0); [done|]. intros [= <-].
  unfold dlq_ok, dlq_len. simpl. lia.
Qed.

Lemma length_tail {A} (l : list A) : length (tail l) = (length l - 1)%nat.
Proof. destruct l; simpl; lia. Qed.

Lemma push_ok x d : dlq_ok d → dlq_ok (push x d).
Proof.
  unfold dlq_ok, dlq_len, push. simpl. intros (?&?&?). rewrite length_app.
  destruct (Z.leb_spec (dlq_maxsize d) (Z.of_nat (length (entries d)))); simpl;
    rewrite ?length_tail; lia.
Qed.

Lemma dlq_step_ok o d : dlq_ok d → dlq_ok (dlq_step o d).
Proof.
  destruct o as [x| |]; [apply push_ok|..]; unfold dlq_ok, dlq_len; simpl;
    rewrite ?length_tail; lia.
Qed.

(** The dead-letter queue is bounded and counts everything it ever received. *)
Theorem dlq_reachable_ok ms d os :
  new_dlq ms = Ok d → dlq_ok (fold_left (λ d o, dlq_step o d) os d).
Proof.
  intros H%new_dlq_ok. revert d H. induction os; simpl; auto using dlq_step_ok.
Qed.

Lemma drop_S_tail {A} k (l : list A) : drop (S k) l = tail (drop k l).
Proof. revert k. induction l as [|y l IH]; intros [|k]; try done. apply IH. Qed.

Lemma lastn_snoc {A} (n : nat) (l : list A) (x : A) :
  (0 < n)%nat → lastn n (l ++ [x]) = (if decide (n ≤ length (lastn n l))%nat
    then tail (lastn n l) else lastn n l) ++ [x].
Proof.
  intros Hn. unfold lastn. rewrite length_app, length_drop. simpl.
  case_decide.
  - rewrite drop_app_le by lia. f_equal.
    replace (length l + 1 - n)%nat with (S (length l - n)) by lia. apply drop_S_tail.
  - rewrite drop_app_le by lia.
    replace (length l + 1 - n)%nat with 0%nat by lia.
    by replace (length l - n)%nat with 0%nat by lia.
Qed.

Lemma pushes_lastn xs d :
  0 < d.(dlq_maxsize) →
  d.(entries) = lastn (Z.to_nat d.(dlq_maxsize)) d.(entries) →
  (fold_left (λ d x, push x d) xs d).(entries) =
    lastn (Z.to_nat d.(dlq_maxsize)) (d.(entries) ++ xs) ∧
  (fold_left (λ d x, push x d) xs d).(total_received) =
    d.(total_received) + Z.of_nat (length xs).
Proof.
  intros Hpos. revert d Hpos. induction xs as [|x xs IH] using rev_ind; intros d Hpos Hd.
  { rewrite app_nil_r. simpl. split; [done|lia]. }
  rewrite fold_left_app. simpl. destruct (IH d Hpos Hd) as [IH1 IH2].
  assert (Hms : (fold_left (λ d x, push x d) xs d).(dlq_maxsize) = d.(dlq_maxsize)).
  { clear. revert d. induction xs as [|y ys IH]; intros d; simpl; [done|]. by rewrite IH. }
  rewrite IH1, IH2, Hms, length_app, app_assoc, lastn_snoc by lia. split; [|simpl; lia].
  f_equal. destruct (Z.leb_spec (dlq_maxsize d)
    (Z.of_nat (length (lastn (Z.to_nat (dlq_maxsize d)) (entries d ++ xs)))));
    case_decide; done || lia.
Qed.

(** Eviction is oldest first: after any pushes on an empty queue it holds
    exactly the newest [maxsize] of them, in order, and has counted them all. *)
Theorem dlq_keeps_newest ms d xs :
  new_dlq ms = Ok d →
  let d' := fold_left (λ d x, push x d) xs d in
  d'.(entries) = lastn (Z.to_nat ms) xs ∧ d'.(total_received) = Z.of_nat (length xs).
Proof.
  unfold new_dlq. destruct (Z.leb_spec ms 0); [done|]. intros [= <-].
  apply (pushes_lastn xs (mkDLQ ms [] 0)); done.
Qed.

(** [list_entries]: a positive limit gives the newest matching entries, oldest
    first; a limit of zero gives all of them, since [entries[-0:]] is the whole
    list. *)
Theorem list_entries_limit r n d :
  0 ≤ n →
  list_entries r (Some n) d =
    if n =? 0 then list_entries r None d else lastn (Z.to_nat n) (list_entries r None d).
Proof.
  intros Hn. unfold list_entries.
  set (es := match r with Some _ => _ | None => _ end). clearbody es.
  unfold py_slice_from, py_bound, lastn. destruct (Z.eqb_spec n 0) as [->|].
  { change (- 0 <? 0) with false. cbn iota. by rewrite Z.min_l by lia. }
  destruct (Z.ltb_spec (- n) 0); [|lia]. f_equal. lia.
Qed.
End lemmas.

Section witnesses.
#[local] Existing Instance B64.

Definition ex_entry (r : string) : DeadLetterEntry :=
  mkEntry (mkEnvelope "a" "b" [] TASK NORMAL None "t" None "m" f0 None None []) r "" f0 1.

Lemma dlq_reachable_ok_witness :
  dlq_ok (fold_left (λ d o, dlq_step o d) [Push (ex_entry "x"); Pop; Clear] (mkDLQ 2 [] 0)).
Proof. exact (dlq_reachable_ok 2 _ _ eq_refl). Defined.

Lemma dlq_keeps_newest_witness :
  (fold_left (λ d x, push x d) [ex_entry "1"; ex_entry "2"; ex_entry "3"] (mkDLQ 2 [] 0))
    .(entries) = [ex_entry "2"; ex_entry "3"].
Proof.
  exact (proj1 (dlq_keeps_newest 2 (mkDLQ 2 [] 0)
    [ex_entry "1"; ex_entry "2"; ex_entry "3"] eq_refl)).
Defined.

Lemma list_entries_limit_witness :
  list_entries None (Some 0) (mkDLQ 2 [ex_entry "1"; ex_entry "2"] 2) =
    [ex_entry "1"; ex_entry "2"].
Proof. exact (list_entries_limit None 0 (mkDLQ 2 [ex_entry "1"; ex_entry "2"] 2) ltac:(lia)). Defined.
End witnesses.
