(* ===== verification/Broker.v ===== *)
(** * The message broker ([broker/message_broker.py])

    One worker of [AsyncMessageBroker]: its dispatch loop takes a message off the
    priority queue, finds its targets and delivers to each with retries, dead
    letters going to the bounded queue of [DeadLetter].

    A handler is arbitrary code of type [H].  [call h e b] is what calling (and
    awaiting) it does: whether it returns, raises an [Exception] or is cancelled, the
    envelope as it leaves it, and the broker afterwards, with all that the handler and the
    other tasks of the event loop did until the worker goes on; [world] is the state
    outside the broker.  A cancellation ends the dispatch, and the worker.  The envelope of
    a dispatch is one object: every attempt and every target gets it as the calls before
    have left it.  A dead letter is recorded as it is when
    it is pushed.
    [order] is the iteration order of a Python set, which is not specified. *)
From stdpp Require Import base gmap sets list sorting strings.
From Stdlib Require Import ZArith Lia.
From S2P Require Import Prelude PyDict PyFloat PySort Envelope PriorityQueue DeadLetter.
#[local] Open Scope Z_scope.

Section broker.
Context {F : PyFloat} {H W : Type}.

Record AsyncMessageBroker : Type := mkBroker {
  _queue : PriorityMessageQueue;
  _dlq : DeadLetterQueue;
  max_delivery_attempts : Z;
  agent_handlers : dict H;
  topic_subscribers : dict (gset string);
  running : bool;
  world : W;
}.

Implicit Types (b : AsyncMessageBroker) (e : MessageEnvelope) (a t : string) (now : float).

Definition set_queue b (q : PriorityMessageQueue) : AsyncMessageBroker :=
  mkBroker q b.(_dlq) b.(max_delivery_attempts) b.(agent_handlers)
    b.(topic_subscribers) b.(running) b.(world).
Definition set_dlq b (d : DeadLetterQueue) : AsyncMessageBroker :=
  mkBroker b.(_queue) d b.(max_delivery_attempts) b.(agent_handlers)
    b.(topic_subscribers) b.(running) b.(world).
Definition set_subs b (hs : dict H) (ts : dict (gset string)) : AsyncMessageBroker :=
  mkBroker b.(_queue) b.(_dlq) b.(max_delivery_attempts) hs ts b.(running) b.(world).
Definition set_running b (r : bool) : AsyncMessageBroker :=
  mkBroker b.(_queue) b.(_dlq) b.(max_delivery_attempts) b.(agent_handlers)
    b.(topic_subscribers) r b.(world).

Definition new_broker (queue_max dlq_max attempts : Z) (discard : bool) (w : W)
    : result DLQError AsyncMessageBroker :=
  match new_dlq dlq_max with
  | Ok d => Ok (mkBroker (new_pq queue_max discard) d attempts [] [] false w)
  | Raise x => Raise x
  end.

Definition subscribe a (h : H) b : AsyncMessageBroker :=
  set_subs b (dset b.(agent_handlers) a h) b.(topic_subscribers).

Definition unsubscribe a b : AsyncMessageBroker :=
  set_subs b (ddel b.(agent_handlers) a) (dmap (λ s, s ∖ {[a]}) b.(topic_subscribers)).

(** [_topic_subscribers] is a [defaultdict(set)]: reading a new topic adds it. *)
Definition topic_set b t : gset string := default ∅ (dget b.(topic_subscribers) t).

Definition subscribe_topic a t b : AsyncMessageBroker :=
  set_subs b b.(agent_handlers) (dset b.(topic_subscribers) t (topic_set b t ∪ {[a]})).

Definition unsubscribe_topic a t b : AsyncMessageBroker :=
  set_subs b b.(agent_handlers) (dset b.(topic_subscribers) t (topic_set b t ∖ {[a]})).

Definition subscriber_count b : Z := Z.of_nat (length b.(agent_handlers)).
Definition topic_subscriber_count t b : Z := Z.of_nat (size (topic_set b t)).

Definition dead_letter e (why detail : string) (attempt : Z) now b : AsyncMessageBroker :=
  set_dlq b (push (mkEntry e why detail now attempt) b.(_dlq)).

Definition publish_nowait e now : M AsyncMessageBroker PQError unit := λ b,
  if is_expired e now then (Ok tt, dead_letter e "ttl_expired_at_publish" "" 1 now b)
  else let '(r, q) := put_nowait e now b.(_queue) in (r, set_queue b q).

Definition publish e now : M AsyncMessageBroker PQError unit := λ b,
  if is_expired e now then (Ok tt, dead_letter e "ttl_expired_at_publish" "" 1 now b)
  else let '(r, q) := put e now b.(_queue) in (r, set_queue b q).

(** [_resolve_targets], as the set it builds. *)
Definition _resolve_targets e b : gset string :=
  (if decide (e.(receiver) = "*") then list_to_set (dkeys b.(agent_handlers))
   else if dmem b.(agent_handlers) e.(receiver) then {[e.(receiver)]} else ∅)
  ∪ match e.(topic) with
    | Some t =>
        if negb (bool_decide (t = "")) && dmem b.(topic_subscribers) t
        then filter (λ s, dmem b.(agent_handlers) s = true) (topic_set b t)
        else ∅
    | None => ∅
    end.

(** How the call of a handler ends: [Raises] an [Exception] of that text, [Cancels] with
    [asyncio.CancelledError], which [except Exception] lets pass. *)
Inductive outcome : Type := Returns | Raises (text : string) | Cancels.

(** What became of one target. *)
Inductive delivery : Type :=
  | Delivered (attempt : Z)
  | DeadLettered (why : string) (attempt : Z)
  | Abandoned (attempt : Z).

Context (call : H → MessageEnvelope → AsyncMessageBroker →
  outcome * (MessageEnvelope * AsyncMessageBroker)).
Context (order : gset string → list string).

(** [_deliver_to]; [clock n] is read when attempt [n] dead-letters.  [None] is
    running out of fuel. *)
Fixpoint _deliver_to (fuel : nat) e a (attempt : Z) (clock : Z → float) b
    : option (delivery * (MessageEnvelope * AsyncMessageBroker)) :=
  match dget b.(agent_handlers) a with
  | None => Some (DeadLettered "handler_disappeared" attempt,
      (e, dead_letter e "handler_disappeared" "" attempt (clock attempt) b))
  | Some h =>
      let '(out, (e1, b1)) := call h e b in
      match out with
      | Returns => Some (Delivered attempt, (e1, b1))
      | Cancels => Some (Abandoned attempt, (e1, b1))
      | Raises msg =>
          if attempt <? b1.(max_delivery_attempts) then
            match fuel with
            | O => None
            | S fuel' => _deliver_to fuel' e1 a (attempt + 1) clock b1
            end
          else Some (DeadLettered "handler_error" attempt,
            (e1, dead_letter e1 "handler_error" msg attempt (clock attempt) b1))
      end
  end.

(** Enough fuel for all the attempts the broker allows. *)
Definition deliver_to e a (clock : Z → float) b
    : option (delivery * (MessageEnvelope * AsyncMessageBroker)) :=
  _deliver_to (Z.to_nat (b.(max_delivery_attempts) - 1)) e a 1 clock b.

(** The loop over the targets, which a cancellation leaves; [clock a] is read in the
    delivery to [a]. *)
Fixpoint deliver_all e (targets : list string) (clock : string → Z → float) b
    : option (list (string * delivery) * (MessageEnvelope * AsyncMessageBroker)) :=
  match targets with
  | [] => Some ([], (e, b))
  | a :: rest =>
      match deliver_to e a (clock a) b with
      | None => None
      | Some (Abandoned k, s1) => Some ([(a, Abandoned k)], s1)
      | Some (d, (e1, b1)) =>
          match deliver_all e1 rest clock b1 with
          | None => None
          | Some (ds, s2) => Some ((a, d) :: ds, s2)
          end
      end
  end.

(** [_dispatch]: the deliveries made; [now] is read by [is_expired]. *)
Definition _dispatch e now (clock : string → Z → float) b
    : option (list (string * delivery) * (MessageEnvelope * AsyncMessageBroker)) :=
  if is_expired e now then Some ([], (e, dead_letter e "ttl_expired_at_dispatch" "" 1 now b))
  else
    let targets := _resolve_targets e b in
    if decide (targets = ∅) then Some ([], (e, dead_letter e "no_subscriber" "" 1 now b))
    else deliver_all e (order targets) clock b.

(** The clock readings of one round of a worker. *)
Record ticks : Type := mkTicks {
  get_clock : nat → float;
  dispatch_now : float;
  push_clock : string → Z → float;
}.

Inductive round_out : Type :=
  | Idle                                   (* the get timed out *)
  | Handled (e : MessageEnvelope) (ds : list (string * delivery))
  | Cancelled (ds : list (string * delivery))
  | Diverges.

(** Whether the dispatch was left by a cancellation. *)
Definition cancelled (ds : list (string * delivery)) : bool :=
  match last ds with Some (_, Abandoned _) => true | _ => false end.

(** One round of [_dispatch_loop] while it runs. *)
Definition worker_round (k : ticks) b : round_out * AsyncMessageBroker :=
  match get k.(get_clock) b.(_queue) with
  | (Raise _, q) => (Idle, set_queue b q)
  | (Ok e, q) =>
      match _dispatch e k.(dispatch_now) k.(push_clock) (set_queue b q) with
      | None => (Diverges, set_queue b q)
      | Some (ds, (e1, b1)) =>
          if cancelled ds then (Cancelled ds, b1)
          else (Handled e1 ds, set_queue b1 (task_done b1.(_queue)).2)
      end
  end.

(** [while self._running], as many rounds as [ks] gives. *)
Fixpoint _dispatch_loop (ks : list ticks) b : list round_out * AsyncMessageBroker :=
  match ks with
  | [] => ([], b)
  | k :: ks' =>
      if running b then
        let '(r, b1) := worker_round k b in
        match r with
        | Cancelled _ => ([r], b1)
        | _ => let '(rs, b2) := _dispatch_loop ks' b1 in (r :: rs, b2)
        end
      else ([], b)
  end.

Definition start b : AsyncMessageBroker := set_running b true.

(** [stop]: the flag is cleared, the workers go on for as long as [join] waits,
    and are cancelled. *)
Definition stop (ks : list ticks) b : list round_out * AsyncMessageBroker :=
  if running b then _dispatch_loop ks (set_running b false) else ([], b).

(** The envelope and the broker [n] calls of [h] later. *)
Definition after (h : H) e (n : nat) b : MessageEnvelope * AsyncMessageBroker :=
  Nat.iter n (λ s, (call h s.1 s.2).2) (e, b).

(** What happens to the envelope and the broker: a handler is called, is found to be
    missing, or a dead letter is pushed, of the envelope as it then is. *)
Inductive event : Type :=
  | Called (a : string) (out : outcome)
  | Gone (a : string)
  | Pushed (why detail : string) (attempt : Z) (at_ : float).

Inductive happens : list event → MessageEnvelope * AsyncMessageBroker →
    MessageEnvelope * AsyncMessageBroker → Prop :=
  | happens_nil s : happens [] s s
  | happens_call a h out e b s1 evs s2 :
      dget b.(agent_handlers) a = Some h → call h e b = (out, s1) →
      happens evs s1 s2 → happens (Called a out :: evs) (e, b) s2
  | happens_gone a e b evs s2 :
      dget b.(agent_handlers) a = None →
      happens evs (e, b) s2 → happens (Gone a :: evs) (e, b) s2
  | happens_push why detail k now e b evs s2 :
      happens evs (e, dead_letter e why detail k now b) s2 →
      happens (Pushed why detail k now :: evs) (e, b) s2.

(** The events of a delivery to [a] from attempt [n] on, [clock] being read for its dead
    letter: the attempts before the last one raise. *)
Definition failing (a : string) (texts : list string) : list event := Called a ∘ Raises <$> texts.

Definition delivery_events (clock : Z → float) (limit n : Z) (a : string) (d : delivery)
    (evs : list event) : Prop :=
  match d with
  | Delivered k => n ≤ k ≤ Z.max n limit ∧ ∃ texts, Z.of_nat (length texts) = k - n ∧
      evs = failing a texts ++ [Called a Returns]
  | Abandoned k => n ≤ k ≤ Z.max n limit ∧ ∃ texts, Z.of_nat (length texts) = k - n ∧
      evs = failing a texts ++ [Called a Cancels]
  | DeadLettered why k => n ≤ k ≤ Z.max n limit ∧ ∃ texts, Z.of_nat (length texts) = k - n ∧
      (why = "handler_disappeared" ∧
         evs = failing a texts ++ [Gone a; Pushed why "" k (clock k)] ∨
       why = "handler_error" ∧ k = Z.max n limit ∧ ∃ text,
         evs = failing a texts ++ [Called a (Raises text); Pushed why text k (clock k)])
  end.
End broker.
Arguments AsyncMessageBroker F H W : clear implicits.

(** ** Subscriptions and targets *)
Section targets.
Context {F : PyFloat} {H W : Type}.
Implicit Types (b : AsyncMessageBroker F H W) (e : MessageEnvelope) (a t : string).

(** The targets of a message are exactly the agents that have a handler now and
    that it is meant for: everyone for the receiver ["*"], the receiver itself
    otherwise, and besides them the subscribers of its topic if it names one. *)
Theorem resolve_targets_spec e b a :
  a ∈ _resolve_targets e b ↔
    is_Some (dget b.(agent_handlers) a) ∧
    (e.(receiver) = "*" ∨ e.(receiver) = a ∨
     ∃ t, e.(topic) = Some t ∧ t ≠ "" ∧ a ∈ topic_set b t).
Proof.
  unfold _resolve_targets. rewrite elem_of_union.
  assert (Hmem : ∀ x, dmem b.(agent_handlers) x = true ↔ is_Some (dget b.(agent_handlers) x)).
  { intros x. by rewrite dmem_true, dget_is_Some. }
  assert (Htop : a ∈ match e.(topic) with
    | Some t => if negb (bool_decide (t = "")) && dmem b.(topic_subscribers) t
        then filter (λ s, dmem b.(agent_handlers) s = true) (topic_set b t) else ∅
    | None => ∅ end ↔ is_Some (dget b.(agent_handlers) a) ∧
      ∃ t, e.(topic) = Some t ∧ t ≠ "" ∧ a ∈ topic_set b t).
  { destruct e.(topic) as [t|]; [|split; [set_solver|naive_solver]].
    destruct (decide (t = "")) as [->|Ht]; simpl.
    { split; [set_solver|naive_solver]. }
    rewrite bool_decide_eq_false_2 by done. simpl.
    destruct (dmem (topic_subscribers b) t) eqn:Hm.
    - rewrite elem_of_filter, Hmem. naive_solver.
    - split; [set_solver|]. apply dmem_false in Hm. intros (_ & t' & [= <-] & _ & Hin).
      unfold topic_set in Hin. rewrite Hm in Hin. set_solver. }
  rewrite Htop. clear Htop. case_decide as Hr.
  - rewrite elem_of_list_to_set, <-dget_is_Some. naive_solver.
  - destruct (dmem _ _) eqn:Hm.
    + rewrite elem_of_singleton. rewrite Hmem in Hm. naive_solver.
    + assert (¬ is_Some (dget (agent_handlers b) (receiver e))) by (rewrite <-Hmem; congruence).
      split; [set_solver|]. naive_solver.
Qed.

(** After [unsubscribe] an agent is a target of no message. *)
Theorem unsubscribed_not_target e b a :
  dwf b.(agent_handlers) → a ∉ _resolve_targets e (unsubscribe a b).
Proof.
  intros Hwf Hin.
  assert (Hdel : dget (agent_handlers (unsubscribe a b)) a = None).
  { simpl. rewrite dget_del by done. by case_decide. }
  assert (Hk : dmem (agent_handlers (unsubscribe a b)) a = false) by by apply dmem_false.
  revert Hin. unfold _resolve_targets. rewrite elem_of_union. intros [Hin|Hin].
  - revert Hin. case_decide.
    + rewrite elem_of_list_to_set, <-dmem_true. congruence.
    + destruct (dmem _ (receiver e)) eqn:E; [|set_solver].
      rewrite elem_of_singleton. intros ->. congruence.
  - destruct (topic e); [|set_solver]. destruct (_ && _); [|set_solver].
    apply elem_of_filter in Hin as [Hin _]. congruence.
Qed.
End targets.

(** ** Delivery *)
Section delivery.
Context {F : PyFloat} {H W : Type}.
Context (call : H → MessageEnvelope → AsyncMessageBroker F H W →
  outcome * (MessageEnvelope * AsyncMessageBroker F H W)).
Context (order : gset string → list string).
Implicit Types (b : AsyncMessageBroker F H W) (e : MessageEnvelope) (a : string).

(** Handlers do not change the retry limit, which nothing assigns after the
    constructor. *)
Definition keeps_limit : Prop := ∀ h e b,
  (call h e b).2.2.(max_delivery_attempts) = b.(max_delivery_attempts).

Lemma deliver_to_total fuel e a n clock b :
  keeps_limit → (Z.to_nat (b.(max_delivery_attempts) - n) ≤ fuel)%nat →
  is_Some (_deliver_to call fuel e a n clock b).
Proof.
  intros Hk. revert e n b. induction fuel as [|fuel IH]; intros e n b Hf; simpl;
    (destruct (dget _ a) as [h|]; [|done]);
    pose proof (Hk h e b) as Hm; destruct (call h e b) as [[|msg|] [e1 b1]]; simpl in Hm; try done;
    rewrite Hm; destruct (Z.ltb_spec n (max_delivery_attempts b)); try done; [lia|].
  apply IH. rewrite Hm. lia.
Qed.

Lemma happens_app evs1 evs2 s1 s2 s3 :
  happens call evs1 s1 s2 → happens call evs2 s2 s3 → happens call (evs1 ++ evs2) s1 s3.
Proof. induction 1; simpl; [done|..]; intros; econstructor; eauto. Qed.

(** A failed attempt in front of a delivery. *)
Lemma delivery_events_cons clock limit n a d evs text :
  n < limit → delivery_events clock limit (n + 1) a d evs →
  delivery_events clock limit n a d (Called a (Raises text) :: evs).
Proof.
  intros Hn. destruct d as [k|why k|k]; intros (Hk & texts & Hl & Hevs); (split; [lia|]);
    exists (text :: texts); (split; [simpl length; lia|]).
  - by subst.
  - destruct Hevs as [[-> ->]|(-> & Hkk & t & ->)]; [by left|]. right. split; [done|]. split; [lia|].
    by exists t.
  - by subst.
Qed.

(** Everything a delivery does. *)
Lemma deliver_events fuel e a n clock b d s1 :
  keeps_limit → _deliver_to call fuel e a n clock b = Some (d, s1) →
  s1.2.(max_delivery_attempts) = b.(max_delivery_attempts) ∧
  ∃ evs, happens call evs (e, b) s1 ∧ delivery_events clock b.(max_delivery_attempts) n a d evs.
Proof.
  intros Hk. revert e n b. induction fuel as [|fuel IH]; intros e n b; cbn [_deliver_to];
    (destruct (dget b.(agent_handlers) a) as [h|] eqn:Ha;
      [|intros [= <- <-]; split; [done|]; exists [Gone a; Pushed "handler_disappeared" "" n (clock n)];
        split; [by repeat constructor|split; [lia|]]; exists []; split; [simpl; lia|by left]]);
    pose proof (Hk h e b) as Hm; destruct (call h e b) as [[|text|] [e1 b1]] eqn:Hc;
    cbn [fst snd] in Hm.
  all: try (intros [= <- <-]; split; [done|]; eexists [Called a _];
    split; [by econstructor; [done..|constructor]|split; [lia|]]; exists []; split; [simpl; lia|done]).
  all: rewrite Hm; destruct (Z.ltb_spec n (max_delivery_attempts b)).
  all: try (intros [= <- <-]; split; [done|];
    exists [Called a (Raises text); Pushed "handler_error" text n (clock n)];
    split; [by econstructor; [done..|repeat constructor]|split; [lia|]]; exists []; split; [simpl; lia|];
    right; split; [done|]; split; [lia|]; by exists text).
  - done.
  - intros Hd. destruct (IH _ _ _ Hd) as (Hl & evs & Hh & Hev). rewrite Hm in Hl, Hev.
    split; [done|]. exists (Called a (Raises text) :: evs). split; [by econstructor|].
    by apply delivery_events_cons.
Qed.

(** The targets a dispatch reached: all of them, or those up to a cancelled one. *)
Definition reached (targets : list string) (ds : list (string * delivery)) : Prop :=
  ds.*1 `prefix_of` targets ∧ (cancelled ds = false → ds.*1 = targets) ∧
  ∀ i a k, ds !! i = Some (a, Abandoned k) → S i = length ds.

Lemma reached_cons a d ts ds :
  (∀ k, d ≠ Abandoned k) → reached ts ds → reached (a :: ts) ((a, d) :: ds).
Proof.
  intros Hd (Hp & Hc & Ha). split_and!.
  - csimpl. by apply prefix_cons.
  - intros Hl. csimpl. f_equal. apply Hc. unfold cancelled in *. simpl in Hl.
    by destruct ds as [|x ds].
  - intros [|i] a' k Hi; simpl in *; [naive_solver|]. f_equal. by eapply Ha.
Qed.

Lemma deliver_all_events e targets clock b :
  keeps_limit →
  ∃ ds s1 evss, deliver_all call e targets clock b = Some (ds, s1) ∧ reached targets ds ∧
    happens call (concat evss) (e, b) s1 ∧
    Forall2 (λ ad evs, delivery_events (clock ad.1) b.(max_delivery_attempts) 1 ad.1 ad.2 evs) ds evss.
Proof.
  intros Hk. revert e b. induction targets as [|a ts IH]; intros e b; cbn [deliver_all].
  { exists [], (e, b), []. split_and!; [done| |constructor|constructor].
    split_and!; [done|done|]. by intros [|i]. }
  unfold deliver_to. destruct (deliver_to_total
    (Z.to_nat (max_delivery_attempts b - 1)) e a 1 (clock a) b Hk ltac:(done)) as [[d s1] Hd].
  rewrite Hd. destruct (deliver_events _ _ _ _ _ _ _ _ Hk Hd) as (Hl & evs & Hh & Hev).
  assert (Hgo : (∀ k, d ≠ Abandoned k) → ∃ ds s2 evss,
    match deliver_all call s1.1 ts clock s1.2 with
    | Some (ds, s2) => Some ((a, d) :: ds, s2) | None => None end = Some (ds, s2) ∧
    reached (a :: ts) ds ∧ happens call (concat evss) (e, b) s2 ∧
    Forall2 (λ ad evs, delivery_events (clock ad.1) b.(max_delivery_attempts) 1 ad.1 ad.2 evs) ds evss).
  { intros Hne. destruct (IH s1.1 s1.2) as (ds & s2 & evss & -> & Hr & Hh2 & Hall).
    rewrite <-surjective_pairing in Hh2. rewrite Hl in Hall.
    exists ((a, d) :: ds), s2, (evs :: evss). split; [done|]. split; [by apply reached_cons|].
    split; [exact (happens_app _ _ _ _ _ Hh Hh2)|by constructor]. }
  destruct s1 as [e1 b1]. destruct d as [k|why k|k].
  - destruct Hgo as (ds & s2 & evss & E & H1); [done|]. exists ds, s2, evss. by split.
  - destruct Hgo as (ds & s2 & evss & E & H1); [done|]. exists ds, s2, evss. by split.
  - exists [(a, Abandoned k)], (e1, b1), [evs]. split; [done|]. split.
    + split_and!; [by exists ts|done|]. by intros [|[|i]].
    + split; [simpl; by rewrite app_nil_r|by constructor; [|constructor]].
Qed.

(** Handlers that are never cancelled leave no target out. *)
Lemma not_cancelled fuel e a n clock b d s1 :
  (∀ h e b, (call h e b).1 ≠ Cancels) →
  _deliver_to call fuel e a n clock b = Some (d, s1) → ∀ k, d ≠ Abandoned k.
Proof.
  intros Hc. revert e n b. induction fuel as [|fuel IH]; intros e n b; cbn [_deliver_to];
    (destruct (dget _ a) as [h|]; [|naive_solver]);
    pose proof (Hc h e b) as Hh; destruct (call h e b) as [[|text|] [e1 b1]]; simpl in Hh; try done;
    try naive_solver; case_match; try naive_solver; apply IH.
Qed.

Lemma deliver_all_uncancelled e targets clock b :
  keeps_limit → (∀ h e b, (call h e b).1 ≠ Cancels) →
  ∃ ds s1, deliver_all call e targets clock b = Some (ds, s1) ∧ ds.*1 = targets.
Proof.
  intros Hk Hc. revert e b. induction targets as [|a ts IH]; intros e b; cbn [deliver_all].
  { by eexists [], _. }
  unfold deliver_to. destruct (deliver_to_total
    (Z.to_nat (max_delivery_attempts b - 1)) e a 1 (clock a) b Hk ltac:(done)) as [[d [e1 b1]] Hd].
  rewrite Hd. pose proof (not_cancelled _ _ _ _ _ _ _ _ Hc Hd) as Hne.
  destruct (IH e1 b1) as (ds & s2 & -> & Hts).
  destruct d as [k|why k|k]; [| |by destruct (Hne k)]; (eexists _, _; split; [done|]);
    csimpl; by rewrite Hts.
Qed.

(** C5. No message is lost in dispatch.  Whatever the handlers do (to the envelope, the
    broker, the world), as long as they leave its retry limit alone, a dispatch ends, and
    what it does is this: an expired message, or one without targets, is dead-lettered
    once.  Any other is delivered to each target in turn, up to one whose handler is
    cancelled.  A delivery calls the handler that is then subscribed, again after each
    call that raises; it ends with a call that returns, and then dead-letters nothing, or
    with one dead letter, after [max 1 max_delivery_attempts] calls that all raised (with
    the text of the last), or when there is no handler any more.  A dead letter holds the
    envelope as the calls before have left it, and nothing else touches the broker. *)
Theorem dispatch_accounts e now clock b :
  keeps_limit → (∀ X, order X ≡ₚ elements X) →
  let targets := _resolve_targets e b in
  ∃ ds s1, _dispatch call order e now clock b = Some (ds, s1) ∧
    if is_expired e now then ds = [] ∧ happens call [Pushed "ttl_expired_at_dispatch" "" 1 now] (e, b) s1
    else if decide (targets = ∅) then ds = [] ∧ happens call [Pushed "no_subscriber" "" 1 now] (e, b) s1
    else reached (order targets) ds ∧ NoDup ds.*1 ∧ ∃ evss,
      happens call (concat evss) (e, b) s1 ∧
      Forall2 (λ ad evs,
        delivery_events (clock ad.1) b.(max_delivery_attempts) 1 ad.1 ad.2 evs) ds evss.
Proof.
  intros Hk Ho targets. unfold _dispatch. destruct (is_expired e now).
  { eexists _, _. split; [done|]. split; [done|]. by repeat constructor. }
  fold targets. case_decide as Ht.
  - eexists _, _. split; [done|]. split; [done|]. by repeat constructor.
  - destruct (deliver_all_events e (order targets) clock b Hk) as (ds & s1 & evss & -> & Hr & Hh & Hall).
    exists ds, s1. split; [done|]. split; [done|]. split; [|by exists evss].
    destruct Hr as ([rest Hp] & _). assert (Hnd : NoDup (order targets)) by (rewrite Ho; apply NoDup_elements).
    rewrite Hp in Hnd. by apply NoDup_app in Hnd as [? _].
Qed.

(** [stop] does not drain the queue: its workers leave their loop as soon as
    the flag is cleared, so whatever [join] waits for, no message is handled and
    all of them stay queued. *)
Theorem stop_does_not_drain ks b :
  (stop call order ks b).1 = [] ∧
  (stop call order ks b).2.(_queue) = b.(_queue) ∧
  (stop call order ks b).2.(_dlq) = b.(_dlq).
Proof.
  unfold stop. destruct (running b); [|done].
  destruct ks as [|k ks]; done.
Qed.
End delivery.

(** ** Messages that expire in the queue *)
Section expiry.
Context {F : PyFloat} {H W : Type}.
Context (call : H → MessageEnvelope → AsyncMessageBroker F H W →
  outcome * (MessageEnvelope * AsyncMessageBroker F H W)).
Context (order : gset string → list string).

Lemma get_loop_all_expired fuel clock i k q :
  0 ≤ k → pq_ok k q → q.(discard_expired) = true → (length q.(items) ≤ fuel)%nat →
  (∀ x j, x ∈ q.(items) → is_expired x.(envelope) (clock j) = true) →
  ∃ q', get_loop fuel clock i q = (Raise WouldBlock, q') ∧ q'.(items) = [].
Proof.
  intros Hk. revert i q. induction fuel as [|fuel IH]; intros i q Hok Hd Hlen Hexp; cbn [get_loop].
  { assert (Hi : q.(items) = []) by (destruct q.(items); simpl in *; [done|lia]).
    rewrite Hi. by exists q. }
  destruct (take_min q.(items)) as [[x rest]|] eqn:Htm.
  2: { apply take_min_None in Htm. by exists q. }
  destruct (take_min_spec _ _ _ Htm) as (Hx & _ & Hrest).
  pose proof (dequeued_ok k 1 q x rest Hk Hok Htm) as Hok1.
  rewrite Hd, (Hexp x i Hx). cbn [andb]. unfold bindS.
  destruct (task_done_ok k _ Hk Hok1) as (q2 & -> & Hok2 & Hi2 & Hd2). simpl in Hi2, Hd2.
  apply IH; [done|congruence|..]; rewrite Hi2, Hrest.
  - destruct (pq_ok_sorted k q Hok) as [Hs _].
    destruct (remove_seq_split _ x Hs Hx) as (l1 & l2 & El & -> & _).
    rewrite El, length_app in Hlen. rewrite length_app. simpl in Hlen. lia.
  - intros y j [_ Hy]%list_elem_of_filter. by apply Hexp.
Qed.

(** With [discard_expired] set, messages that expire while queued are not
    dead-lettered: a round that finds only such messages empties the queue, hands
    nothing to any handler, and leaves the dead letters as they were. *)
Theorem expired_in_queue_lost ks k (b : AsyncMessageBroker F H W) :
  0 ≤ k → pq_ok k b.(_queue) → b.(_queue).(discard_expired) = true →
  (∀ x j, x ∈ b.(_queue).(items) → is_expired x.(envelope) (ks.(get_clock) j) = true) →
  let '(r, b1) := worker_round call order ks b in
  r = Idle ∧ b1.(_queue).(items) = [] ∧ b1.(_dlq) = b.(_dlq).
Proof.
  intros Hk Hok Hd Hexp. unfold worker_round, get.
  destruct (get_loop_all_expired (length b.(_queue).(items)) (get_clock ks) 0 k b.(_queue)
    Hk Hok Hd ltac:(done) Hexp) as (q' & -> & Hq'). done.
Qed.
End expiry.

(** ** Witnesses: two handlers, one of which always raises *)
Section witnesses.
#[local] Existing Instance B64.

Definition ex_call (h : bool) (e : MessageEnvelope) (b : AsyncMessageBroker B64 bool unit)
    : outcome * (MessageEnvelope * AsyncMessageBroker B64 bool unit) :=
  (if h then Raises "boom" else Returns, (e, b)).

Definition ex_env : MessageEnvelope :=
  mkEnvelope "a" "*" [] TASK NORMAL None "t" None "m" f0 (Some f1) None [].

Definition ex_queue : PriorityMessageQueue :=
  mkPQ 0 true [mkItem 2 0 f0 ex_env] 1 1 1 0 0.

Definition ex_broker : AsyncMessageBroker B64 bool unit :=
  mkBroker ex_queue (mkDLQ 10 [] 0) 3 [("bad", true); ("good", false)] [] true tt.

Lemma ex_call_limit : keeps_limit ex_call.
Proof. done. Qed.

Lemma unsubscribed_not_target_witness : "bad" ∉ _resolve_targets ex_env (unsubscribe "bad" ex_broker).
Proof.
  apply unsubscribed_not_target. apply NoDup_cons; split; [|apply NoDup_singleton].
  by rewrite list_elem_of_singleton.
Defined.

Lemma dispatch_accounts_witness :
  ∃ ds s1, _dispatch ex_call elements ex_env f0 (λ _ _, f0) ex_broker = Some (ds, s1) ∧
    reached (elements (_resolve_targets ex_env ex_broker)) ds.
Proof.
  destruct (dispatch_accounts ex_call elements ex_env f0 (λ _ _, f0) ex_broker ex_call_limit
    (λ X, reflexivity _)) as (ds & s1 & Hd & Hr).
  exists ds, s1. split; [exact Hd|]. exact (proj1 Hr).
Defined.

Lemma expired_in_queue_lost_witness :
  let '(r, b1) := worker_round ex_call elements (mkTicks (λ _, fofZ 5) (fofZ 5) (λ _ _, fofZ 5))
    ex_broker in
  r = Idle ∧ b1.(_queue).(items) = [] ∧ b1.(_dlq) = ex_broker.(_dlq).
Proof.
  apply (expired_in_queue_lost ex_call elements _ 0); [done| |reflexivity|].
  - split_and!; [repeat constructor|repeat constructor|unfold qsize; simpl; lia|done|done].
  - intros x j Hx. apply list_elem_of_singleton in Hx as ->. reflexivity.
Defined.
End witnesses.
