(* ===== verification/Glob.v ===== *)
(** * Shell patterns: [fnmatch.fnmatchcase]

    The patterns of the topic manager.  [parse] follows CPython's
    [fnmatch.translate] ([*], [?], [[seq]] and [[!seq]] with ranges, an unclosed
    bracket being literal) and [glob] decides the match; [Matches] is what a
    pattern means, and the two agree.  Strings are lists of 8-bit characters. *)
From stdpp Require Import base list strings.
From Stdlib Require Import Ascii Lia.
From S2P Require Import Prelude.

Definition code (c : ascii) : nat := nat_of_ascii c.

Inductive set_item : Type :=
  | One (c : ascii)
  | Range (lo hi : ascii).

Inductive token : Type :=
  | Star
  | AnyChar
  | Lit (c : ascii)
  | CharSet (negated : bool) (items : list set_item).

#[export] Instance set_item_eq_dec : EqDecision set_item.
Proof. solve_decision. Defined.
#[export] Instance token_eq_dec : EqDecision token.
Proof. solve_decision. Defined.

(** The body of a bracket, left to right: [lo-hi] is a range, anything else stands
    for itself.  Ranges that are empty are dropped. *)
Fixpoint set_items (fuel : nat) (s : list ascii) : list set_item :=
  match fuel, s with
  | S fuel', lo :: d :: hi :: s' =>
      if decide (d = "-"%char) then
        if bool_decide (code lo ≤ code hi) then Range lo hi :: set_items fuel' s'
        else set_items fuel' s'
      else One lo :: set_items fuel' (d :: hi :: s')
  | S fuel', c :: s' => One c :: set_items fuel' s'
  | _, _ => []
  end.

(** A bracket is negated by a leading [!], also by one that only became the first
    character because the ranges before it were empty. *)
Definition negate_late (items : list set_item) : token :=
  match items with
  | One c :: items' => if decide (c = "!"%char) then CharSet true items' else CharSet false items
  | Range c hi :: items' =>
      if decide (c = "!"%char) then CharSet true (One "-"%char :: One hi :: items')
      else CharSet false items
  | [] => CharSet false []
  end.

Definition char_set (body : list ascii) : token :=
  match body with
  | c :: s => if decide (c = "!"%char) then CharSet true (set_items (length s) s)
              else negate_late (set_items (length body) body)
  | [] => CharSet false []
  end.

(** The characters up to the next [']'] and those after it. *)
Fixpoint until_close (s : list ascii) : option (list ascii * list ascii) :=
  match s with
  | [] => None
  | c :: s' =>
      if decide (c = "]"%char) then Some ([], s') else prod_map (cons c) id <$> until_close s'
  end.

(** A [']'] in first place belongs to the set. *)
Definition until_close_first (s : list ascii) : option (list ascii * list ascii) :=
  match s with
  | c :: s' =>
      if decide (c = "]"%char) then prod_map (cons c) id <$> until_close s' else until_close s
  | [] => None
  end.

(** What follows a ['[']: an optional [!], then the set. *)
Definition bracket (s : list ascii) : option (list ascii * list ascii) :=
  match s with
  | c :: s' =>
      if decide (c = "!"%char) then prod_map (cons c) id <$> until_close_first s'
      else until_close_first s
  | [] => None
  end.

Fixpoint parse (fuel : nat) (s : list ascii) : list token :=
  match fuel, s with
  | S fuel', c :: s' =>
      if decide (c = "*"%char) then Star :: parse fuel' s'
      else if decide (c = "?"%char) then AnyChar :: parse fuel' s'
      else if decide (c = "["%char) then
        match bracket s' with
        | Some (body, rest) => char_set body :: parse fuel' rest
        | None => Lit c :: parse fuel' s'
        end
      else Lit c :: parse fuel' s'
  | _, _ => []
  end.

Definition item_has (i : set_item) (c : ascii) : bool :=
  match i with
  | One d => bool_decide (c = d)
  | Range lo hi => bool_decide (code lo ≤ code c ≤ code hi)
  end.

(** The single-character tokens. *)
Definition token_has (t : token) (c : ascii) : bool :=
  match t with
  | Star => false
  | AnyChar => true
  | Lit d => bool_decide (c = d)
  | CharSet negated items => xorb negated (existsb (λ i, item_has i c) items)
  end.

Fixpoint glob (p : list token) : list ascii → bool :=
  match p with
  | [] => λ s, match s with [] => true | _ => false end
  | Star :: p' =>
      fix star s := glob p' s || match s with [] => false | _ :: s' => star s' end
  | t :: p' => λ s,
      match s with [] => false | c :: s' => token_has t c && glob p' s' end
  end.

(** [fnmatch.fnmatchcase(name, pat)] *)
Definition fnmatchcase (name pat : string) : bool :=
  let s := String.list_ascii_of_string pat in
  glob (parse (length s) s) (String.list_ascii_of_string name).

(** What a pattern means. *)
Inductive Matches : list token → list ascii → Prop :=
  | m_end : Matches [] []
  | m_star p s1 s2 : Matches p s2 → Matches (Star :: p) (s1 ++ s2)
  | m_one t p c s : t ≠ Star → token_has t c = true → Matches p s → Matches (t :: p) (c :: s).

Lemma glob_star p s :
  glob (Star :: p) s = true ↔ ∃ s1 s2, s = s1 ++ s2 ∧ glob p s2 = true.
Proof.
  induction s as [|c s IH]; simpl; rewrite orb_true_iff.
  - split; [intros [H|H]; [by exists [], []|done]|].
    intros (s1 & s2 & E & H). symmetry in E. apply app_eq_nil in E as [-> ->]. by left.
  - simpl in IH. rewrite IH. split.
    + intros [H|(s1 & s2 & -> & H)]; [by exists [], (c :: s)|by exists (c :: s1), s2].
    + intros ([|c' s1] & s2 & E & H); simplify_eq/=; [by left|right; eauto].
Qed.

Lemma glob_matches p s : glob p s = true ↔ Matches p s.
Proof.
  split.
  - revert s. induction p as [|t p IH]; intros s Hg.
    { destruct s; [constructor|done]. }
    destruct (decide (t = Star)) as [->|Ht].
    + apply glob_star in Hg as (s1 & s2 & -> & Hg). constructor. auto.
    + destruct s as [|c s]; [by destruct t|].
      assert (token_has t c = true ∧ glob p s = true) as [H1 H2].
      { destruct t; simpl in Hg; try done; by apply andb_true_iff in Hg. }
      constructor; auto.
  - induction 1 as [|p s1 s2 _ IH|t p c s Ht Hc _ IH]; [done| |].
    + apply glob_star. eauto.
    + destruct t; simpl; rewrite ?Hc, ?IH in *; try done; by apply andb_true_iff.
Qed.

Example fnmatch_examples :
  fnmatchcase "events.error" "events.*" = true ∧ fnmatchcase "events" "events.*" = false ∧
  fnmatchcase "b" "[a-c]" = true ∧ fnmatchcase "b" "[!a-c]" = false ∧
  fnmatchcase "]" "[]]" = true ∧ fnmatchcase "[" "[" = true ∧
  fnmatchcase "x" "[z-a]" = false ∧ fnmatchcase "x" "[!z-a]" = true ∧
  fnmatchcase "-" "[a-]" = true ∧ fnmatchcase "ab" "a?" = true.
Proof. by vm_compute. Qed.

(** Every token uses up a character, so the pattern's length is enough fuel. *)
Lemma until_close_length s b r : until_close s = Some (b, r) → (length r < length s)%nat.
Proof.
  revert b r. induction s as [|c s IH]; intros b r; simpl; [done|].
  case_decide; [intros [= <- <-]; lia|].
  destruct (until_close s) as [[b' r']|]; simpl; [|done].
  intros [= <- <-]. specialize (IH _ _ eq_refl). lia.
Qed.

Lemma until_close_first_length s b r :
  until_close_first s = Some (b, r) → (length r < length s)%nat.
Proof.
  destruct s as [|c s]; cbn [until_close_first]; [done|]. case_decide; [|apply until_close_length].
  destruct (until_close s) as [[b' r']|] eqn:E; simpl; [|done].
  intros [= <- <-]. apply until_close_length in E. lia.
Qed.

Lemma bracket_length s b r : bracket s = Some (b, r) → (length r < length s)%nat.
Proof.
  destruct s as [|c s]; cbn [bracket]; [done|]. case_decide; [|apply until_close_first_length].
  destruct (until_close_first s) as [[b' r']|] eqn:E; simpl; [|done].
  intros [= <- <-]. apply until_close_first_length in E. lia.
Qed.

Lemma parse_fuel n s : (length s ≤ n)%nat → parse n s = parse (length s) s.
Proof.
  enough (H : ∀ k s, (length s ≤ k)%nat → ∀ n m, (length s ≤ n)%nat → (length s ≤ m)%nat →
    parse n s = parse m s) by (intros; by eapply (H n)).
  clear. induction k as [|k IH]; intros s Hk n m Hn Hm.
  { destruct s; [|simpl in *; lia]. by destruct n, m. }
  destruct s as [|c s]; [by destruct n, m|].
  destruct n as [|n], m as [|m]; simpl in *; try lia.
  assert (Hs : parse n s = parse m s) by (apply IH; lia). rewrite !Hs.
  destruct (bracket s) as [[b r]|] eqn:E; [|done].
  apply bracket_length in E. by rewrite (IH r ltac:(lia) n m ltac:(lia) ltac:(lia)).
Qed.
