(* ===== verification/PubSub.v ===== *)
(** * Topic subscriptions ([broker/pubsub.py])

    [TopicManager] keeps the subscriptions twice: agents by pattern and patterns
    by agent.  Both are [defaultdict(set)]; every method holds the lock while it
    changes them. *)
From stdpp Require Import base gmap sets list sorting strings.
From Stdlib Require Import ZArith Lia.
From S2P Require Import Prelude PyDict PySort Glob.
#[local] Open Scope Z_scope.

Record TopicManager : Type := mkTM {
  case_sensitive : bool;
  _subscriptions : dict (gset string);
  _agent_patterns : dict (gset string);
  publish_count : Z;
  total_deliveries : Z;
}.

Inductive TopicError : Type := EmptyAgentId | EmptyPattern.

Implicit Types (m : TopicManager) (a p t : string).

Definition new_tm (cs : bool) : TopicManager := mkTM cs [] [] 0 0.

Definition _normalize m (s : string) : string := if m.(case_sensitive) then s else lower s.

Definition set_index m (subs pats : dict (gset string)) : TopicManager :=
  mkTM m.(case_sensitive) subs pats m.(publish_count) m.(total_deliveries).

(** [d.get(k, set())], and what reading a [defaultdict(set)] gives. *)
Definition gets (d : dict (gset string)) (k : string) : gset string := default ∅ (dget d k).

(** [d[k].add(v)] *)
Definition add_to (d : dict (gset string)) (k v : string) : dict (gset string) :=
  dset d k (gets d k ∪ {[v]}).

(** [d[k].discard(v)], and [del d[k]] if nothing is left. *)
Definition discard_from (d : dict (gset string)) (k v : string) : dict (gset string) :=
  let s := gets d k ∖ {[v]} in
  let d1 := dset d k s in
  if decide (s = ∅) then ddel d1 k else d1.

Definition subscribe a p : M TopicManager TopicError unit :=
  let! _ := guardS (is_blank a) EmptyAgentId in
  let! _ := guardS (is_blank p) EmptyPattern in
  modS (λ m, let p := _normalize m p in
    set_index m (add_to m.(_subscriptions) p a) (add_to m.(_agent_patterns) a p)).

Definition unsubscribe a p m : TopicManager :=
  let p := _normalize m p in
  set_index m (discard_from m.(_subscriptions) p a) (discard_from m.(_agent_patterns) a p).

(** [order] is the iteration order of the set of patterns. *)
Definition unsubscribe_all (order : gset string → list string) a m : Z * TopicManager :=
  let patterns := gets m.(_agent_patterns) a in
  (Z.of_nat (size patterns),
   set_index m (fold_left (λ d p, discard_from d p a) (order patterns) m.(_subscriptions))
     (ddel m.(_agent_patterns) a)).

(** The patterns are listed once, then each looked up again. *)
Definition publish t m : gset string * TopicManager :=
  let t := _normalize m t in
  let matched := fold_left (λ acc p, if fnmatchcase t p then acc ∪ gets m.(_subscriptions) p
    else acc) (dkeys m.(_subscriptions)) ∅ in
  (matched, mkTM m.(case_sensitive) m.(_subscriptions) m.(_agent_patterns)
    (m.(publish_count) + 1) (m.(total_deliveries) + Z.of_nat (size matched))).

Definition list_topics m : list string := py_sort str_ltb (dkeys m.(_subscriptions)).

Definition list_subscribers p m : gset string := gets m.(_subscriptions) (_normalize m p).

Definition list_agent_patterns a m : gset string := gets m.(_agent_patterns) a.

Definition resolve_subscribers t m : gset string :=
  let t := _normalize m t in
  fold_left (λ acc ps, if fnmatchcase t ps.1 then acc ∪ ps.2 else acc) m.(_subscriptions) ∅.

Definition subscriber_count (pattern : option string) m : Z :=
  match pattern with
  | Some p => Z.of_nat (size (gets m.(_subscriptions) (_normalize m p)))
  | None => Z.of_nat (size (⋃ dvalues m.(_subscriptions)))
  end.

Definition topic_count m : Z := Z.of_nat (length m.(_subscriptions)).

(** The two indices are inverse and hold no empty set. *)
Definition tm_ok m : Prop :=
  dwf m.(_subscriptions) ∧ dwf m.(_agent_patterns) ∧
  Forall (λ kv, kv.2 ≠ ∅) m.(_subscriptions) ∧ Forall (λ kv, kv.2 ≠ ∅) m.(_agent_patterns) ∧
  ∀ a p, a ∈ gets m.(_subscriptions) p ↔ p ∈ gets m.(_agent_patterns) a.

Inductive tm_op : Type :=
  | Subscribe (a p : string) | Unsubscribe (a p : string) | UnsubscribeAll (a : string)
  | Publish (t : string).

Definition tm_step (order : gset string → list string) (o : tm_op) m : TopicManager :=
  match o with
  | Subscribe a p => (subscribe a p m).2
  | Unsubscribe a p => unsubscribe a p m
  | UnsubscribeAll a => (unsubscribe_all order a m).2
  | Publish t => (publish t m).2
  end.

(** ** Lemmas *)
Lemma gets_add d k v k' : gets (add_to d k v) k' = if decide (k' = k) then gets d k ∪ {[v]} else gets d k'.
Proof. unfold gets, add_to. rewrite dget_set. by case_decide. Qed.

Lemma dwf_discard d k v : dwf d → dwf (discard_from d k v).
Proof. intros. unfold discard_from. case_decide; auto with py. Qed.

Lemma gets_discard d k v k' :
  dwf d → gets (discard_from d k v) k' = if decide (k' = k) then gets d k ∖ {[v]} else gets d k'.
Proof.
  intros Hd. unfold discard_from. case_decide as E.
  - unfold gets at 1. rewrite dget_del by auto with py. rewrite dget_set.
    case_decide; [by rewrite E|done].
  - unfold gets at 1. rewrite dget_set. by case_decide.
Qed.

Lemma gets_del d k k' :
  dwf d → gets (ddel d k) k' = if decide (k' = k) then ∅ else gets d k'.
Proof. intros. unfold gets. rewrite dget_del by done. by case_decide. Qed.

Lemma Forall_discard d k v :
  Forall (λ kv, kv.2 ≠ ∅) d → dwf d → Forall (λ kv, kv.2 ≠ ∅) (discard_from d k v).
Proof.
  intros Hf Hd. unfold discard_from. case_decide as E; [|by apply Forall_dset].
  apply Forall_forall. intros [k' s] Hin.
  assert (Hwf : dwf (ddel (dset d k (gets d k ∖ {[v]})) k)) by auto with py.
  apply elem_dget_iff in Hin; [|done]. rewrite dget_del, dget_set in Hin by auto with py.
  case_decide; [done|]. apply dget_Some_elem in Hin.
  rewrite Forall_forall in Hf. by apply (Hf (k', s)).
Qed.

Lemma Forall_add d k v : Forall (λ kv, kv.2 ≠ ∅) d → Forall (λ kv, kv.2 ≠ ∅) (add_to d k v).
Proof. intros. apply Forall_dset; [done|]. simpl. set_solver. Qed.

Lemma gets_discards (ps : list string) d a p :
  dwf d →
  dwf (fold_left (λ d p, discard_from d p a) ps d) ∧
  gets (fold_left (λ d p, discard_from d p a) ps d) p =
    (if decide (p ∈ ps) then gets d p ∖ {[a]} else gets d p).
Proof.
  revert d. induction ps as [|q ps IH]; intros d Hd; cbn [fold_left].
  { split; [done|]. rewrite decide_False; [done|]. apply not_elem_of_nil. }
  destruct (IH (discard_from d q a)) as [H1 H2]; [by apply dwf_discard|].
  split; [done|]. rewrite H2, gets_discard by done.
  destruct (decide (p ∈ q :: ps)) as [Hin|Hin]; rewrite elem_of_cons in Hin;
    repeat case_decide; subst; try tauto; set_solver.
Qed.

Lemma Forall_discards ps d a :
  Forall (λ kv, kv.2 ≠ ∅) d → dwf d →
  Forall (λ kv, kv.2 ≠ ∅) (fold_left (λ d p, discard_from d p a) ps d).
Proof.
  revert d. induction ps as [|q ps IH]; intros d Hf Hd; simpl; [done|].
  apply IH; [by apply Forall_discard|by apply dwf_discard].
Qed.

Lemma new_tm_ok cs : tm_ok (new_tm cs).
Proof. split_and!; try constructor; set_solver. Qed.

Lemma tm_step_ok order o m :
  (∀ X, order X ≡ₚ elements X) → tm_ok m → tm_ok (tm_step order o m).
Proof.
  intros Ho (Hs&Hp&Hfs&Hfp&Hinv). destruct o as [a p|a p|a|t]; simpl.
  - unfold subscribe. run_m; [done..|].
    split_and!; simpl; [by apply dwf_set|by apply dwf_set|by apply Forall_add|by apply Forall_add|].
    intros a' p'. rewrite !gets_add. specialize (Hinv a' p'). repeat case_decide; set_solver.
  - split_and!; simpl; [by apply dwf_discard|by apply dwf_discard|by apply Forall_discard|by apply Forall_discard|].
    intros a' p'. rewrite !gets_discard by done. specialize (Hinv a' p').
    repeat case_decide; set_solver.
  - destruct (gets_discards (order (gets m.(_agent_patterns) a)) m.(_subscriptions) a "" Hs)
      as [H1 _].
    split_and!; simpl; [done|by apply dwf_del|by apply Forall_discards|by apply Forall_ddel|].
    intros a' p'. destruct (gets_discards (order (gets m.(_agent_patterns) a))
      m.(_subscriptions) a p' Hs) as [_ ->].
    rewrite gets_del by done. specialize (Hinv a' p').
    assert (Hdec : p' ∈ order (gets (_agent_patterns m) a) ↔ p' ∈ gets m.(_agent_patterns) a).
    { by rewrite Ho, elem_of_elements. }
    destruct (decide (a' = a)) as [->|Hne].
    + case_decide as Hd; [set_solver|]. rewrite Hinv. rewrite Hdec in Hd. simpl. set_solver.
    + case_decide; set_solver.
  - done.
Qed.

(** Whatever the calls, raising or not, the two indices of the topic manager
    stay inverse to each other and hold no empty entry. *)
Theorem tm_reachable_ok order cs os :
  (∀ X, order X ≡ₚ elements X) →
  tm_ok (fold_left (λ m o, tm_step order o m) os (new_tm cs)).
Proof.
  intros Ho. generalize (new_tm_ok cs). generalize (new_tm cs).
  induction os as [|o os IH]; intros m Hm; simpl; [done|]. apply IH. by apply tm_step_ok.
Qed.

Lemma elem_fold_union (f : string → bool) (g : string → gset string) (ks : list string) acc a :
  a ∈ fold_left (λ acc p, if f p then acc ∪ g p else acc) ks acc ↔
    a ∈ acc ∨ ∃ p, p ∈ ks ∧ f p = true ∧ a ∈ g p.
Proof.
  revert acc. induction ks as [|k ks IH]; intros acc; simpl.
  { split; [by left|]. intros [?|(p & Hp & _)]; [done|by apply elem_of_nil in Hp]. }
  rewrite IH. split.
  - intros [Ha|(p & Hp & Hf & Ha)]; [|right; exists p; by rewrite elem_of_cons; auto].
    destruct (f k) eqn:E; [|by left]. apply elem_of_union in Ha as [?|?]; [by left|].
    right. exists k. rewrite elem_of_cons. auto.
  - intros [Ha|(p & Hp & Hf & Ha)].
    + left. destruct (f k); [by apply elem_of_union_l|done].
    + apply elem_of_cons in Hp as [->|Hp]; [|right; by exists p].
      left. rewrite Hf. by apply elem_of_union_r.
Qed.

Lemma fold_pairs (f : string → bool) (d l : dict (gset string)) acc :
  (∀ kv, kv ∈ l → gets d kv.1 = kv.2) →
  fold_left (λ acc ps, if f ps.1 then acc ∪ ps.2 else acc) l acc =
  fold_left (λ acc p, if f p then acc ∪ gets d p else acc) (dkeys l) acc.
Proof.
  revert acc. induction l as [|[k v] l IH]; intros acc Hin; csimpl; [done|].
  pose proof (Hin (k, v) ltac:(left)) as E. simpl in E. rewrite E. apply IH. intros kv ?. apply Hin. by right.
Qed.

Lemma resolve_as_publish t m :
  dwf m.(_subscriptions) → resolve_subscribers t m = (publish t m).1.
Proof.
  intros Hwf. unfold resolve_subscribers, publish. simpl.
  apply (fold_pairs (fnmatchcase (_normalize m t))).
  intros [k v] Hkv. unfold gets. simpl. by rewrite (elem_dget _ k v Hwf Hkv).
Qed.

(** C33. Publishing reaches exactly the agents with a subscribed pattern that the
    topic matches, as [resolve_subscribers] tells, and counts them. *)
Theorem publish_spec t m :
  tm_ok m →
  let '(matched, m') := publish t m in
  (∀ a, a ∈ matched ↔ ∃ p, p ∈ list_agent_patterns a m ∧
     fnmatchcase (_normalize m t) p = true) ∧
  matched = resolve_subscribers t m ∧
  m'.(total_deliveries) = m.(total_deliveries) + Z.of_nat (size matched) ∧
  m'.(publish_count) = m.(publish_count) + 1 ∧
  m'.(_subscriptions) = m.(_subscriptions) ∧ m'.(_agent_patterns) = m.(_agent_patterns).
Proof.
  intros (Hs&Hp&Hfs&Hfp&Hinv). pose proof (resolve_as_publish t m Hs) as Hres.
  unfold publish in *. simpl in *. split_and!; [|by rewrite Hres|done..].
  intros a. rewrite elem_fold_union. unfold list_agent_patterns. split.
  - intros [?|(p & _ & Hm & Ha)]; [set_solver|]. exists p. by rewrite <-Hinv.
  - intros (p & Ha & Hm). right. apply Hinv in Ha. exists p. split_and!; [|done..].
    apply dget_is_Some. unfold gets in Ha. destruct (dget _ p); [done|set_solver].
Qed.

(** [unsubscribe_all] reports how many patterns the agent had, after it no topic
    reaches the agent, and other agents are reached by the same topics. *)
Theorem unsubscribe_all_spec order a m t :
  (∀ X, order X ≡ₚ elements X) → tm_ok m →
  let '(n, m') := unsubscribe_all order a m in
  n = Z.of_nat (size (list_agent_patterns a m)) ∧ (a ∉ (publish t m').1) ∧
  ∀ a', a' ≠ a → (a' ∈ (publish t m').1 ↔ a' ∈ (publish t m).1).
Proof.
  intros Ho Hok. pose proof (tm_step_ok order (UnsubscribeAll a) m Ho Hok) as Hok'.
  simpl in Hok'. unfold unsubscribe_all in *. simpl in *.
  destruct Hok as (Hs&Hp&Hfs&Hfp&Hinv), Hok' as (Hs'&_&_&_&Hinv'). simpl in *.
  split; [done|]. rewrite !elem_fold_union. split.
  - intros [?|(p & _ & _ & Ha)]; [set_solver|]. apply Hinv' in Ha.
    rewrite gets_del, decide_True in Ha by done. set_solver.
  - intros a' Hne. rewrite !elem_fold_union. change (_normalize (set_index m _ _) t) with (_normalize m t).
    assert (Hiff : ∀ p, a' ∈ gets (fold_left (λ d p, discard_from d p a)
      (order (gets (_agent_patterns m) a)) (_subscriptions m)) p ↔ a' ∈ gets m.(_subscriptions) p).
    { intros p. by rewrite Hinv', Hinv, gets_del, decide_False by done. }
    assert (Hkey : ∀ d p, a' ∈ gets d p → p ∈ dkeys d).
    { intros d p Ha. apply dget_is_Some. unfold gets in Ha. destruct (dget d p); [done|set_solver]. }
    split; (intros [?|(p & _ & Hf & Ha)]; [set_solver|right; exists p]); split_and!; try done;
      try (by apply Hiff); apply Hkey; by apply Hiff.
Qed.

(** A pattern's [*] is not confined to one dot-separated segment: ["agent.*"]
    also reaches subscribers for ["agent.a.b"]. *)
Theorem star_crosses_segments a :
  is_blank a = false →
  a ∈ (publish "agent.a.b" (subscribe a "agent.*" (new_tm true)).2).1.
Proof.
  intros Ha. unfold subscribe. rewrite !bindS_guard, Ha.
  replace (is_blank "agent.*") with false by by vm_compute.
  assert (fnmatchcase "agent.a.b" "agent.*" = true) as Hm by by vm_compute.
  unfold publish. cbn -[fnmatchcase gets]. rewrite Hm. unfold gets. simpl. set_solver.
Qed.

(** ** Witnesses *)
Definition ex_topics : TopicManager :=
  mkTM true [("e.*", {["a"; "b"]}); ("e.x", {["b"]})]
    [("a", {["e.*"]}); ("b", {["e.*"; "e.x"]})] 0 0.

Lemma ex_topics_ok : tm_ok ex_topics.
Proof.
  assert (H : ex_topics = fold_left (λ m o, tm_step elements o m)
    [Subscribe "a" "e.*"; Subscribe "b" "e.*"; Subscribe "b" "e.x"] (new_tm true))
    by by vm_compute.
  rewrite H. do 3 (apply tm_step_ok; [done|]). apply new_tm_ok.
Qed.

Lemma tm_reachable_ok_witness :
  tm_ok (fold_left (λ m o, tm_step elements o m) [Subscribe "a" "e.*"; UnsubscribeAll "a"]
    (new_tm true)).
Proof. exact (tm_reachable_ok elements true _ (λ X, reflexivity _)). Defined.

Lemma publish_spec_witness :
  (publish "e.x" ex_topics).1 = resolve_subscribers "e.x" ex_topics.
Proof. exact (proj1 (proj2 (publish_spec "e.x" ex_topics ex_topics_ok))). Defined.

Lemma unsubscribe_all_spec_witness :
  "b" ∉ (publish "e.x" (unsubscribe_all elements "b" ex_topics).2).1.
Proof.
  exact (proj1 (proj2 (unsubscribe_all_spec elements "b" ex_topics "e.x"
    (λ X, reflexivity _) ex_topics_ok))).
Defined.

Lemma star_crosses_segments_witness :
  "x" ∈ (publish "agent.a.b" (subscribe "x" "agent.*" (new_tm true)).2).1.
Proof. exact (star_crosses_segments "x" eq_refl). Defined.
