(* ===== verification/Consensus.v ===== *)
(** * Consensus protocols ([consensus/protocol.py])

    The three protocols are functions of the votes (their locks guard no state).
    [decided_at] is the clock reading in the result.  [Counter] and the weight map
    are dictionaries in order of first vote.  Confidence weighting is specified with its
    sums as they are rounded, and with the fallback to counts when they are all zero. *)
From stdpp Require Import base list sorting strings.
From Stdlib Require Import ZArith QArith Lia.
From S2P Require Import Prelude PyDict PyFloat PySort Envelope.
#[local] Close Scope Q_scope.
#[local] Open Scope Z_scope.

Section consensus.
Context {F : PyFloat}.

Record VoteRecord : Type := mkVote {
  agent_id : string;
  option_ : string;
  confidence : float;
  vote_metadata : dict json;
}.

Inductive VoteError : Type := EmptyAgentId | EmptyOption | BadConfidence | BadRatio | EmptyAuthority.

(** [VoteRecord.__post_init__] *)
Definition new_vote (a o : string) (c : float) (md : dict json) : result VoteError VoteRecord :=
  if is_blank a then Raise EmptyAgentId
  else if is_blank o then Raise EmptyOption
  else if negb (fbetween f0 c f1) then Raise BadConfidence
  else Ok (mkVote a o c md).

Record ConsensusResult : Type := mkResult {
  winning_option : string;
  vote_counts : dict Z;
  total_votes : Z;
  agreement_ratio : float;
  reached_consensus : bool;
  protocol_name : string;
  decided_at : float;
  res_metadata : dict json;
}.

Implicit Types (votes : list VoteRecord) (now : float).

Definition _no_consensus_result (name : string) now : ConsensusResult :=
  mkResult "" [] 0 f0 false name now [].

(** [min(options)]: it raises on an empty list, which no caller passes. *)
Definition _tiebreak (options : list string) : option string := py_min str_ltb options.

(** [Counter(v.option for v in votes)] *)
Definition count_option (c : dict Z) (o : string) : dict Z := dset c o (default 0 (dget c o) + 1).
Definition counter votes : dict Z := fold_left (λ c v, count_option c v.(option_)) votes [].

(** [max(d.values())] over counts. *)
Definition max_count (c : dict Z) : Z := default 0 (py_max Z.ltb (dvalues c)).
Definition top_counts (c : dict Z) : list string :=
  (filter (λ kv, kv.2 = max_count c) c).*1.

(** [MajorityVote.resolve] *)
Definition resolve_majority (require_majority : bool) votes now : ConsensusResult :=
  match votes with
  | [] => _no_consensus_result "majority_vote" now
  | _ =>
      let counts := counter votes in
      let total := Z.of_nat (length votes) in
      let ratio := fdiv (fofZ (max_count counts)) (fofZ total) in
      let reached := negb (require_majority && fleb ratio (flit 1 2) && (1 <? total)) in
      mkResult (default "" (_tiebreak (top_counts counts))) counts total ratio reached
        "majority_vote" now []
  end.

(** The loop of [ConfidenceWeighted.resolve]. *)
Definition weight_map votes : dict float :=
  fold_left (λ w v, dset w v.(option_) (fadd (default f0 (dget w v.(option_))) v.(confidence)))
    votes [].

Definition max_weight (w : dict float) : float := default f0 (py_max fltb (dvalues w)).
Definition top_weights (w : dict float) : list string :=
  (filter (λ kv, feqb kv.2 (max_weight w)) w).*1.

Definition new_weighted (min_ratio : float) : result VoteError float :=
  if fbetween f0 min_ratio f1 then Ok min_ratio else Raise BadRatio.

Definition resolve_weighted (min_ratio : float) votes now : ConsensusResult :=
  match votes with
  | [] => _no_consensus_result "confidence_weighted" now
  | _ =>
      let wm := weight_map votes in
      let counts := counter votes in
      let total_weight := fsum (dvalues wm) in
      let '(wm, total_weight) :=
        if feqb total_weight f0 then (dmap fofZ counts, fofZ (Z.of_nat (length votes)))
        else (wm, total_weight) in
      let mw := max_weight wm in
      let ratio := if fltb f0 total_weight then fdiv mw total_weight else f0 in
      mkResult (default "" (_tiebreak (top_weights wm))) counts (Z.of_nat (length votes)) ratio
        (fleb min_ratio ratio) "confidence_weighted" now
        [("total_weight", JFloat total_weight); ("winning_weight", JFloat mw)]
  end.

Definition new_hierarchical (authority : string) : result VoteError string :=
  if is_blank authority then Raise EmptyAuthority else Ok authority.

(** [Hierarchical.resolve]; [counts[winning_option]] is 0 on a key a [Counter] has
    not. *)
Definition resolve_hierarchical (authority : string) votes now : ConsensusResult :=
  match votes with
  | [] => _no_consensus_result "hierarchical" now
  | _ =>
      let counts := counter votes in
      let total := Z.of_nat (length votes) in
      match last (filter (λ v, v.(agent_id) = authority) votes) with
      | Some v =>
          mkResult v.(option_) counts total
            (fdiv (fofZ (default 0 (dget counts v.(option_)))) (fofZ total)) true "hierarchical"
            now [("authority_overrode", JBool true); ("authority_id", JStr authority)]
      | None =>
          let r := resolve_majority false votes now in
          mkResult r.(winning_option) r.(vote_counts) r.(total_votes) r.(agreement_ratio)
            r.(reached_consensus) "hierarchical" r.(decided_at)
            [("authority_overrode", JBool false); ("authority_id", JStr authority)]
      end
  end.

(** How many votes an option has. *)
Definition votes_for (o : string) votes : Z :=
  Z.of_nat (length (filter (λ v, v.(option_) = o) votes)).
End consensus.

(** ** Counting *)
Section counting.
Context {F : PyFloat}.
Implicit Types (votes : list VoteRecord) (now : float).

Lemma counter_spec_acc votes (c : dict Z) :
  dwf c →
  let c' := fold_left (λ c v, count_option c v.(option_)) votes c in
  dwf c' ∧ ∀ o, dget c' o =
    if decide (votes_for o votes = 0) then dget c o
    else Some (default 0 (dget c o) + votes_for o votes).
Proof.
  revert c. induction votes as [|v votes IH]; intros c Hc; simpl; [done|].
  destruct (IH (count_option c v.(option_))) as [H1 H2]; [by apply dwf_set|].
  split; [done|]. intros o. rewrite H2. unfold count_option, votes_for.
  rewrite dget_set, filter_cons. repeat case_decide; simplify_eq/=; try done; try lia; f_equal; lia.
Qed.

Lemma counter_spec votes :
  dwf (counter votes) ∧ ∀ o, dget (counter votes) o =
    if decide (votes_for o votes = 0) then None else Some (votes_for o votes).
Proof.
  destruct (counter_spec_acc votes [] dwf_nil) as [H1 H2]. split; [done|].
  intros o. unfold counter. rewrite H2. by case_decide.
Qed.

Lemma votes_for_nonneg o votes : 0 ≤ votes_for o votes.
Proof. unfold votes_for. lia. Qed.

Lemma votes_for_le o votes : votes_for o votes ≤ Z.of_nat (length votes).
Proof. unfold votes_for. pose proof (length_filter (λ v, v.(option_) = o) votes). lia. Qed.

Lemma votes_for_elem v votes : v ∈ votes → 0 < votes_for v.(option_) votes.
Proof.
  intros Hv. unfold votes_for.
  destruct (filter (λ v', option_ v' = option_ v) votes) eqn:E; [|simpl; lia].
  assert (v ∈ filter (λ v', option_ v' = option_ v) votes) as H by by apply list_elem_of_filter.
  rewrite E in H. by apply elem_of_nil in H.
Qed.

Lemma Zlt_weak_order : weak_order Z.ltb (λ _, True).
Proof. split; intros *; rewrite ?Z.ltb_lt, ?Z.ltb_ge; lia. Qed.

(** The largest count. *)
Lemma max_count_spec votes :
  votes ≠ [] →
  (∀ o, votes_for o votes ≤ max_count (counter votes)) ∧
  ∃ o, max_count (counter votes) = votes_for o votes ∧ 0 < votes_for o votes.
Proof.
  intros Hne. destruct (counter_spec votes) as [Hwf Hc].
  assert (Hpos : ∀ o, 0 < votes_for o votes → dget (counter votes) o = Some (votes_for o votes)).
  { intros o Ho. rewrite Hc. rewrite decide_False by lia. done. }
  assert (Hval : ∀ n, n ∈ dvalues (counter votes) → ∃ o, n = votes_for o votes ∧ 0 < n).
  { intros n Hn. unfold dvalues in Hn. apply list_elem_of_fmap in Hn as ([o m] & -> & Hin).
    apply elem_dget_iff in Hin; [|done]. rewrite Hc in Hin. case_decide; [done|].
    injection Hin as <-. exists o. pose proof (votes_for_nonneg o votes). simpl. lia. }
  assert (Hin : ∀ o, 0 < votes_for o votes → votes_for o votes ∈ dvalues (counter votes)).
  { intros o Ho. apply Hpos, dget_Some_elem in Ho.
    unfold dvalues. apply list_elem_of_fmap. by eexists (_, _). }
  destruct votes as [|v votes']; [done|]. set (votes := v :: votes') in *.
  pose proof (votes_for_elem v votes ltac:(left)) as Hv.
  unfold max_count, py_max. destruct (dvalues (counter votes)) as [|n ns] eqn:E.
  { specialize (Hin _ Hv). by apply elem_of_nil in Hin. }
  simpl. rewrite py_max_from_min.
  destruct (py_min_from_spec (flip Z.ltb) (λ _, True) (weak_order_flip _ _ Zlt_weak_order) n ns)
    as [Hmin Hle]; [done|by apply Forall_true|].
  split.
  - intros o. destruct (decide (votes_for o votes = 0)) as [->|Ho].
    + destruct (Hval _ Hmin) as (? & ? & ?). lia.
    + pose proof (votes_for_nonneg o votes). specialize (Hle _ (Hin o ltac:(lia))).
      simpl in Hle. apply Z.ltb_ge in Hle. lia.
  - destruct (Hval _ Hmin) as (o & E1 & E2). exists o. split; [done|]. lia.
Qed.

Lemma top_counts_spec votes o :
  votes ≠ [] →
  o ∈ top_counts (counter votes) ↔ ∀ o', votes_for o' votes ≤ votes_for o votes.
Proof.
  intros Hne. destruct (max_count_spec votes Hne) as (Hmax & o0 & Ho0 & Hpos).
  destruct (counter_spec votes) as [Hwf Hc].
  unfold top_counts. rewrite list_elem_of_fmap. split.
  - intros ([o1 n] & -> & Hin). apply list_elem_of_filter in Hin as [Hn Hin]. simpl in *.
    apply elem_dget_iff in Hin; [|done]. rewrite Hc in Hin. case_decide; [done|].
    injection Hin as Hin. intros o'. rewrite Hin, Hn. apply Hmax.
  - intros Hle. exists (o, votes_for o votes). split; [done|]. apply list_elem_of_filter.
    assert (votes_for o votes = max_count (counter votes)) as E.
    { pose proof (Hle o0). pose proof (Hmax o). lia. }
    split; [done|]. apply elem_dget_iff; [done|]. rewrite Hc, decide_False; [done|lia].
Qed.

Lemma tiebreak_spec (l : list string) :
  l ≠ [] → ∃ w, _tiebreak l = Some w ∧ w ∈ l ∧ ∀ o, o ∈ l → String.le w o.
Proof.
  intros Hl. destruct l as [|x l]; [done|]. eexists. split; [done|].
  destruct (py_min_from_spec str_ltb (λ _, True) str_weak_order x l) as [Hin Hmin];
    [done|by apply Forall_true|].
  split; [done|]. intros o Ho. specialize (Hmin o Ho).
  destruct (decide (py_min_from str_ltb x l = o)) as [<-|Hne]; [done|].
  destruct (str_ltb_total (py_min_from str_ltb x l) o) as [Hlt|[?|?]]; [|done|congruence].
  by apply str_ltb_lt in Hlt as [? _].
Qed.

(** The winner: most votes, and the first in the alphabet of those. *)
Definition majority_winner votes (w : string) : Prop :=
  (∀ o, votes_for o votes ≤ votes_for w votes) ∧
  ∀ o, (∀ o', votes_for o' votes ≤ votes_for o votes) → String.le w o.

Lemma majority_winner_unique votes w w' :
  majority_winner votes w → majority_winner votes w' → w = w'.
Proof. intros [H1 H2] [H3 H4]. apply (anti_symm String.le); auto. Qed.

Lemma resolve_majority_winner req votes now :
  votes ≠ [] →
  let r := resolve_majority req votes now in
  majority_winner votes r.(winning_option) ∧
  r.(total_votes) = Z.of_nat (length votes) ∧
  r.(agreement_ratio) =
    fdiv (fofZ (votes_for r.(winning_option) votes)) (fofZ (Z.of_nat (length votes))) ∧
  r.(reached_consensus) = negb (req && fleb r.(agreement_ratio) (flit 1 2) &&
    (1 <? r.(total_votes))) ∧
  (∀ o, default 0 (dget r.(vote_counts) o) = votes_for o votes).
Proof.
  intros Hne r. destruct (max_count_spec votes Hne) as (Hmax & o0 & Ho0 & Hpos).
  destruct (tiebreak_spec (top_counts (counter votes))) as (w & Hw & Hin & Hle).
  { intros E. assert (o0 ∈ top_counts (counter votes)) as Hin0.
    { apply top_counts_spec; [done|]. intros o'. rewrite <-Ho0. apply Hmax. }
    rewrite E in Hin0. by apply elem_of_nil in Hin0. }
  assert (Hr : r = mkResult w (counter votes) (Z.of_nat (length votes))
    (fdiv (fofZ (max_count (counter votes))) (fofZ (Z.of_nat (length votes))))
    (negb (req && fleb (fdiv (fofZ (max_count (counter votes)))
      (fofZ (Z.of_nat (length votes)))) (flit 1 2) && (1 <? Z.of_nat (length votes))))
    "majority_vote" now []).
  { unfold r, resolve_majority. destruct votes; [done|]. by rewrite Hw. }
  rewrite Hr. simpl. pose proof (proj1 (top_counts_spec votes w Hne) Hin) as Hwin. clear Hin.
  assert (Hmw : max_count (counter votes) = votes_for w votes).
  { specialize (Hwin o0). specialize (Hmax w). lia. }
  split; [split; [exact Hwin|]|split_and!; [done|by rewrite Hmw|done|]].
  - intros o Ho. apply Hle. by apply top_counts_spec.
  - intros o. destruct (counter_spec votes) as [_ ->]. case_decide; simpl; lia.
Qed.
End counting.

(** ** The protocols *)
Section protocols.
Context {F : PyFloat}.
Implicit Types (votes : list VoteRecord) (now : float).

(** Majority vote: with at least one vote, the counts are exact and the winner
    is the option with the most votes, the first in the alphabet among equals; no
    vote gives no consensus. *)
Theorem majority_spec req votes now :
  match votes with
  | [] => (resolve_majority req votes now).(reached_consensus) = false ∧
      (resolve_majority req votes now).(vote_counts) = []
  | _ =>
      let r := resolve_majority req votes now in
      majority_winner votes r.(winning_option) ∧ r.(total_votes) = Z.of_nat (length votes) ∧
      (∀ o, default 0 (dget r.(vote_counts) o) = votes_for o votes)
  end.
Proof.
  destruct votes as [|v votes]; [done|].
  destruct (resolve_majority_winner req (v :: votes) now) as (?&?&_&_&?); [done|].
  by split_and!.
Qed.

Lemma votes_for_perm votes votes' o : votes ≡ₚ votes' → votes_for o votes = votes_for o votes'.
Proof. intros H. unfold votes_for. by rewrite H. Qed.

(** The order in which votes arrive does not matter to majority vote: winner,
    total, agreement ratio, decision and the count of every option are the same. *)
Theorem majority_order_independent req votes votes' now :
  votes ≡ₚ votes' →
  let r := resolve_majority req votes now in
  let r' := resolve_majority req votes' now in
  r.(winning_option) = r'.(winning_option) ∧ r.(total_votes) = r'.(total_votes) ∧
  r.(agreement_ratio) = r'.(agreement_ratio) ∧ r.(reached_consensus) = r'.(reached_consensus) ∧
  ∀ o, default 0 (dget r.(vote_counts) o) = default 0 (dget r'.(vote_counts) o).
Proof.
  intros Hp r r'. destruct (decide (votes = [])) as [->|Hne].
  { apply Permutation_nil_l in Hp as <-. done. }
  assert (Hne' : votes' ≠ []).
  { intros ->. apply Hne. by apply Permutation_nil_r. }
  destruct (resolve_majority_winner req votes now Hne) as (Hw & Ht & Ha & Hr & Hc).
  destruct (resolve_majority_winner req votes' now Hne') as (Hw' & Ht' & Ha' & Hr' & Hc').
  fold r in Hw, Ht, Ha, Hr, Hc. fold r' in Hw', Ht', Ha', Hr', Hc'.
  assert (Hv : ∀ o, votes_for o votes = votes_for o votes') by (intros; by apply votes_for_perm).
  assert (Hwin : r.(winning_option) = r'.(winning_option)).
  { apply (majority_winner_unique votes); [done|]. destruct Hw' as [H1 H2]. split.
    - intros o. by rewrite !Hv.
    - intros o Ho. apply H2. intros o'. rewrite <-!Hv. done. }
  assert (Htot : r.(total_votes) = r'.(total_votes)) by by rewrite Ht, Ht', Hp.
  assert (Hrat : r.(agreement_ratio) = r'.(agreement_ratio)) by by rewrite Ha, Ha', Hwin, Hv, Hp.
  split_and!; [done..|by rewrite Hr, Hr', Hrat, Htot|]. intros o. by rewrite Hc, Hc', Hv.
Qed.

(** The authority decides: if it voted, its last vote wins, whatever the others
    voted, and consensus is reached; if it did not, the outcome is that of a vote
    by simple plurality. *)
Theorem hierarchical_spec authority votes now :
  votes ≠ [] →
  let r := resolve_hierarchical authority votes now in
  r.(reached_consensus) = true ∧ r.(total_votes) = Z.of_nat (length votes) ∧
  (∀ o, default 0 (dget r.(vote_counts) o) = votes_for o votes) ∧
  r.(agreement_ratio) =
    fdiv (fofZ (votes_for r.(winning_option) votes)) (fofZ (Z.of_nat (length votes))) ∧
  match last (filter (λ v, v.(agent_id) = authority) votes) with
  | Some v => r.(winning_option) = v.(option_)
  | None => majority_winner votes r.(winning_option)
  end.
Proof.
  intros Hne r. destruct (counter_spec votes) as [_ Hc].
  assert (Hcnt : ∀ o, default 0 (dget (counter votes) o) = votes_for o votes).
  { intros o. rewrite Hc. case_decide; simpl; lia. }
  assert (Hr : r = match last (filter (λ v, v.(agent_id) = authority) votes) with
    | Some v => mkResult v.(option_) (counter votes) (Z.of_nat (length votes))
        (fdiv (fofZ (default 0 (dget (counter votes) v.(option_)))) (fofZ (Z.of_nat (length votes))))
        true "hierarchical" now
        [("authority_overrode", JBool true); ("authority_id", JStr authority)]
    | None => let r := resolve_majority false votes now in
        mkResult r.(winning_option) r.(vote_counts) r.(total_votes) r.(agreement_ratio)
          r.(reached_consensus) "hierarchical" r.(decided_at)
          [("authority_overrode", JBool false); ("authority_id", JStr authority)]
    end) by (unfold r, resolve_hierarchical; by destruct votes).
  rewrite Hr. destruct (last _) as [v|].
  - simpl. by rewrite Hcnt.
  - destruct (resolve_majority_winner false votes now Hne) as (?&?&?&?&?). by split_and!.
Qed.
End protocols.

(** ** Over exact rationals *)
Section rational.
#[local] Existing Instance QF.
Implicit Types (votes : list VoteRecord) (now : float).

(** With [require_majority], consensus means an absolute majority: it is reached
    exactly when more than half of the votes are for the winner, or there is only
    one vote. *)
Theorem majority_reached_iff votes now :
  votes ≠ [] →
  let r := resolve_majority true votes now in
  r.(reached_consensus) = true ↔
    Z.of_nat (length votes) = 1 ∨
    Z.of_nat (length votes) < 2 * votes_for r.(winning_option) votes.
Proof.
  intros Hne r. destruct (resolve_majority_winner true votes now Hne) as (_ & Ht & Ha & Hr & _).
  fold r in Ht, Ha, Hr. rewrite Hr, negb_true_iff, Ht, Ha. cbn [andb].
  set (n := Z.of_nat (length votes)). set (k := votes_for _ votes).
  assert (Hn : 1 ≤ n) by (unfold n; destruct votes; [done|simpl; lia]).
  assert (Hfle : fleb (fdiv (fofZ k) (fofZ n)) (flit 1 2) = true ↔ 2 * k ≤ n).
  { unfold flit. cbn [fleb fdiv fofZ QF]. rewrite Qle_bool_iff. unfold Qle, Qdiv, Qinv, inject_Z.
    destruct n as [|m|m]; simpl; lia. }
  rewrite andb_false_iff, Z.ltb_ge, <-not_true_iff_false, Hfle. lia.
Qed.

End rational.

(** ** Confidence weights, in binary64 as in exact arithmetic *)
Section weights.
Context {F : PyFloat} {HF : FloatOrder F} {HN : FloatNonneg F}.
Implicit Types (votes : list VoteRecord) (now : float).
#[local] Set Default Proof Using "Type*".

Definition confident votes : Prop := Forall (λ v, fbetween f0 v.(confidence) f1 = true) votes.

(** The sum of the confidences of an option's votes, in the order of the votes. *)
Definition weight_of (o : string) votes : float :=
  fsum (confidence <$> filter (λ v, v.(option_) = o) votes).

(** The options voted for, in the order of their first votes. *)
Definition options_of votes : list string :=
  fold_left (λ os v, if decide (v.(option_) ∈ os) then os else os ++ [v.(option_)]) votes [].

Definition no_weight votes : bool :=
  feqb (fsum ((λ o, weight_of o votes) <$> options_of votes)) f0.

(** What counts for an option: its weight, or the number of its votes when no vote
    carries weight. *)
Definition weigh votes (o : string) : float :=
  if no_weight votes then fofZ (votes_for o votes) else weight_of o votes.

Lemma float_order : weak_order (@fltb F) (λ x, fnum x = true).
Proof.
  split; intros; [apply fltb_irrefl|by eapply fltb_trans|by eapply (fltb_negtrans _ y)].
Qed.

(** An option none outweighs. *)
Definition heaviest (w : dict float) (o : string) : Prop :=
  ∃ x, dget w o = Some x ∧ ∀ o' x', dget w o' = Some x' → fltb x x' = false.

Definition all_num (w : dict float) : Prop := Forall (λ x, fnum x = true) (dvalues w).

Lemma all_num_get (w : dict float) o x : all_num w → dget w o = Some x → fnum x = true.
Proof.
  unfold all_num. rewrite Forall_forall. intros H Hx. apply H. unfold dvalues.
  apply list_elem_of_fmap. exists (o, x). split; [done|]. by apply dget_Some_elem.
Qed.

Lemma max_weight_spec (w : dict float) :
  w ≠ [] → all_num w →
  max_weight w ∈ dvalues w ∧ ∀ x, x ∈ dvalues w → fltb (max_weight w) x = false.
Proof.
  unfold all_num, max_weight, py_max. intros Hne Hnum.
  destruct (dvalues w) as [|x xs] eqn:E; [by destruct w|].
  simpl. rewrite py_max_from_min. apply Forall_cons in Hnum as [Hx Hxs].
  by apply (py_min_from_spec (flip (@fltb F)) _ (weak_order_flip _ _ float_order)).
Qed.

Lemma top_weights_spec (w : dict float) o :
  dwf w → w ≠ [] → all_num w → o ∈ top_weights w ↔ heaviest w o.
Proof.
  intros Hwf Hne Hnum. destruct (max_weight_spec w Hne Hnum) as [Hin Hmax].
  assert (Hval : ∀ o x, dget w o = Some x → x ∈ dvalues w).
  { intros o' x H%dget_Some_elem. unfold dvalues. apply list_elem_of_fmap. by eexists (_, _). }
  assert (Hmn : fnum (max_weight w) = true) by (unfold all_num in Hnum; rewrite Forall_forall in Hnum; auto).
  assert (Heq : ∀ x, fnum x = true → feqb x (max_weight w) = true ↔
    fltb (max_weight w) x = false ∧ fltb x (max_weight w) = false).
  { intros x Hx. rewrite feqb_leb, andb_true_iff, !fleb_ltb, !negb_true_iff by done. done. }
  unfold top_weights. rewrite list_elem_of_fmap. split.
  - intros ([o1 x] & -> & Hf). apply list_elem_of_filter in Hf as [Hx Hf]. simpl in *.
    apply elem_dget in Hf; [|done]. apply Is_true_true, Heq in Hx as [_ Hx]; [|by eapply all_num_get].
    exists x. split; [done|]. intros o' x' Hx'. apply (fltb_negtrans _ (max_weight w)); [done..|].
    by eapply Hmax, Hval.
  - intros (x & Hx & Hle). exists (o, x). split; [done|]. apply list_elem_of_filter.
    split; [|by apply dget_Some_elem]. simpl. apply Is_true_true, Heq; [by eapply all_num_get|].
    split; [by eapply Hmax, Hval|]. unfold dvalues in Hin.
    apply list_elem_of_fmap in Hin as ([o' x'] & -> & Hin). by eapply Hle, elem_dget.
Qed.

(** The weight map holds the weight of every option voted for. *)
Lemma weight_map_snoc votes v :
  weight_map (votes ++ [v]) = dset (weight_map votes) v.(option_)
    (fadd (default f0 (dget (weight_map votes) v.(option_))) v.(confidence)).
Proof. unfold weight_map. by rewrite fold_left_app. Qed.

Lemma votes_for_snoc o votes v :
  votes_for o (votes ++ [v]) = votes_for o votes + (if decide (v.(option_) = o) then 1 else 0).
Proof.
  unfold votes_for. rewrite filter_app, length_app, filter_cons, filter_nil. case_decide; simpl; lia.
Qed.

Lemma weight_of_snoc o votes v :
  weight_of o (votes ++ [v]) =
    if decide (v.(option_) = o) then fadd (weight_of o votes) v.(confidence) else weight_of o votes.
Proof.
  unfold weight_of, fsum. rewrite filter_app, fmap_app, fold_left_app, filter_cons, filter_nil.
  by case_decide.
Qed.

Lemma no_votes o votes : votes_for o votes = 0 → weight_of o votes = f0.
Proof.
  unfold votes_for, weight_of. intros H. by destruct (filter _ votes).
Qed.

Lemma weight_map_spec votes :
  dwf (weight_map votes) ∧ dkeys (weight_map votes) = options_of votes ∧
  ∀ o, dget (weight_map votes) o =
    if decide (votes_for o votes = 0) then None else Some (weight_of o votes).
Proof.
  induction votes as [|v votes (Hwf & Hk & IH)] using rev_ind; [split; [apply dwf_nil|done]|].
  rewrite weight_map_snoc. split; [by apply dwf_set|]. split.
  - unfold options_of in *. rewrite fold_left_app, dkeys_set. simpl. rewrite <-Hk.
    destruct (dmem _ _) eqn:E; [apply dmem_true in E|apply dmem_false, dget_None in E];
      by rewrite ?decide_True, ?decide_False by done.
  - intros o. rewrite dget_set, votes_for_snoc, weight_of_snoc.
    destruct (decide (option_ v = o)) as [<-|Hne];
      [|by rewrite decide_False, Z.add_0_r by congruence].
    rewrite (decide_True (P := option_ v = option_ v)) by done.
    pose proof (votes_for_nonneg (option_ v) votes).
    rewrite (decide_False (P := _ = 0)) by lia. rewrite IH. case_decide as H0; [|done].
    by rewrite (no_votes _ _ H0).
Qed.

Lemma dvalues_keys (w : dict float) : dwf w → dvalues w = (λ o, default f0 (dget w o)) <$> dkeys w.
Proof.
  intros Hwf. unfold dvalues, dkeys. rewrite <-list_fmap_compose. apply list_fmap_ext.
  intros i [o x] Hi. simpl. apply list_elem_of_lookup_2 in Hi. by rewrite (elem_dget _ _ _ Hwf Hi).
Qed.

Lemma total_weight votes :
  fsum (dvalues (weight_map votes)) = fsum ((λ o, weight_of o votes) <$> options_of votes).
Proof.
  destruct (weight_map_spec votes) as (Hwf & Hk & Hget). rewrite dvalues_keys, Hk by done. f_equal.
  apply list_fmap_ext. intros i o _. rewrite Hget. case_decide as H0; [|done].
  by rewrite (no_votes _ _ H0).
Qed.

(** The map the winner is read off. *)
Definition final_map votes : dict float :=
  if no_weight votes then dmap fofZ (counter votes) else weight_map votes.

Lemma final_map_spec votes :
  dwf (final_map votes) ∧ ∀ o, dget (final_map votes) o =
    if decide (votes_for o votes = 0) then None else Some (weigh votes o).
Proof.
  destruct (weight_map_spec votes) as (Hwf & _ & Hget). destruct (counter_spec votes) as [Hcwf Hc].
  unfold final_map, weigh. destruct (no_weight votes); [|done]. split; [by apply dwf_map|].
  intros o. rewrite dget_map, Hc. by case_decide.
Qed.

Lemma weigh_nonneg votes o : confident votes → fleb f0 (weigh votes o) = true.
Proof.
  intros Hv. unfold weigh. destruct (no_weight votes); [apply fofZ_nonneg, votes_for_nonneg|].
  apply fsum_nonneg, Forall_fmap, Forall_forall. intros v [_ Hin]%list_elem_of_filter.
  unfold confident in Hv. rewrite Forall_forall in Hv. specialize (Hv v Hin). simpl.
  unfold fbetween in Hv. by apply andb_prop in Hv as [-> _].
Qed.

Lemma final_map_num votes : confident votes → all_num (final_map votes).
Proof.
  intros Hv. destruct (final_map_spec votes) as [Hwf Hget]. unfold all_num. rewrite dvalues_keys by done.
  apply Forall_fmap, Forall_forall. intros o _. simpl. rewrite Hget. case_decide; simpl; [apply fnum_0|].
  apply (fleb_num _ _ (weigh_nonneg votes o Hv)).
Qed.

End weights.

(** ** Witnesses *)
Section witnesses.
#[local] Existing Instance B64.

Definition ex_votes : list VoteRecord :=
  [mkVote "a" "y" (flit 9 10) []; mkVote "b" "x" (flit 2 10) []; mkVote "c" "x" (flit 3 10) []].

Lemma majority_order_independent_witness :
  (resolve_majority true ex_votes f0).(winning_option) =
  (resolve_majority true (reverse ex_votes) f0).(winning_option).
Proof.
  exact (proj1 (majority_order_independent true ex_votes (reverse ex_votes) f0
    (symmetry (reverse_Permutation ex_votes)))).
Defined.

(** No vote of [ex_silent] carries weight: the number of votes decides. *)
Definition ex_silent : list VoteRecord :=
  [mkVote "a" "y" f0 []; mkVote "b" "x" f0 []; mkVote "c" "y" f0 []].


Lemma hierarchical_spec_witness :
  (resolve_hierarchical "a" ex_votes f0).(winning_option) = "y".
Proof.
  exact (proj2 (proj2 (proj2 (proj2 (hierarchical_spec "a" ex_votes f0 ltac:(done)))))).
Defined.
End witnesses.

Section rational_witnesses.
#[local] Existing Instance QF.

Definition ex_ballot : list VoteRecord :=
  [mkVote "a" "y" (flit 9 10) []; mkVote "b" "x" (flit 2 10) []; mkVote "c" "x" (flit 3 10) []].

Lemma majority_reached_iff_witness :
  (resolve_majority true ex_ballot f0).(reached_consensus) = true.
Proof. apply (majority_reached_iff ex_ballot f0); [done|]. right. reflexivity. Defined.

End rational_witnesses.
