(* ===== verification/TaskLifecycle.v ===== *)
(** * A2A task lifecycle ([a2a/models.py], [a2a/task_lifecycle.py])

    [TaskManager] stores tasks by id and moves them along the state machine of the
    A2A protocol.  A fresh UUID and the clock reading of a new status are
    arguments.  The manager hands out references to the stored tasks; the model is
    of what its own methods do to them. *)
From stdpp Require Import base list strings.
From Stdlib Require Import ZArith Lia.
From S2P Require Import Prelude PyDict PyFloat Envelope.

Inductive TaskState : Type :=
  | SUBMITTED | WORKING | INPUT_REQUIRED | COMPLETED | FAILED | CANCELED.

#[export] Instance TaskState_eq_dec : EqDecision TaskState.
Proof. solve_decision. Defined.

Definition state_value (s : TaskState) : string :=
  match s with
  | SUBMITTED => "submitted" | WORKING => "working" | INPUT_REQUIRED => "input-required"
  | COMPLETED => "completed" | FAILED => "failed" | CANCELED => "canceled"
  end.

(** [_VALID_TRANSITIONS] and [_TERMINAL_STATES] *)
Definition valid_transitions (s : TaskState) : list TaskState :=
  match s with
  | SUBMITTED => [WORKING; CANCELED]
  | WORKING => [COMPLETED; FAILED; INPUT_REQUIRED; CANCELED]
  | INPUT_REQUIRED => [WORKING; CANCELED]
  | COMPLETED | FAILED | CANCELED => []
  end.

Definition terminal_states : list TaskState := [COMPLETED; FAILED; CANCELED].

Section lifecycle.
Context {F : PyFloat}.

Record MessagePart : Type := mkPart { part_type : string; text : string }.

Record A2AMessage : Type := mkMessage {
  role : string;
  parts : list MessagePart;
  msg_metadata : dict json;
}.

Record Artifact : Type := mkArtifact {
  art_name : string;
  art_description : string;
  art_parts : list MessagePart;
  art_index : Z;
}.

Record TaskStatus : Type := mkStatus {
  state : TaskState;
  message : option A2AMessage;
  timestamp : float;
}.

Record A2ATask : Type := mkTask {
  id_ : string;
  status : TaskStatus;
  artifacts : list Artifact;
  history : list TaskStatus;
  task_metadata : dict json;
}.

Record TaskManager : Type := mkManager {
  _tasks : dict A2ATask;
  _track_history : bool;
}.

Inductive TaskError : Type :=
  | TaskNotFoundError (task_id : string)
  | InvalidTaskTransitionError (task_id : string) (current requested : TaskState).

Implicit Types (m : TaskManager) (t : A2ATask) (tid : string) (now : float).

Definition new_manager (track : bool) : TaskManager := mkManager [] track.

Definition store tid t m : TaskManager := mkManager (dset m.(_tasks) tid t) m.(_track_history).

Definition create_task (msg : A2AMessage) tid now m : A2ATask * TaskManager :=
  let t := mkTask tid (mkStatus SUBMITTED (Some msg) now) [] [] [] in
  (t, store tid t m).

Definition _get_or_raise tid : M TaskManager TaskError A2ATask := λ m,
  match dget m.(_tasks) tid with
  | Some t => (Ok t, m)
  | None => (Raise (TaskNotFoundError tid), m)
  end.

Definition transition tid (new_state : TaskState) (msg : option A2AMessage) now
    : M TaskManager TaskError A2ATask :=
  let! t := _get_or_raise tid in
  let current := t.(status).(state) in
  let! _ := guardS (bool_decide (new_state ∉ valid_transitions current))
    (InvalidTaskTransitionError tid current new_state) in
  λ m,
    let t' := mkTask t.(id_) (mkStatus new_state msg now) t.(artifacts)
      (if m.(_track_history) then t.(history) ++ [t.(status)] else t.(history))
      t.(task_metadata) in
    (Ok t', store tid t' m).

Definition add_artifact tid (a : Artifact) : M TaskManager TaskError A2ATask :=
  let! t := _get_or_raise tid in
  λ m, let t' := mkTask t.(id_) t.(status) (t.(artifacts) ++ [a]) t.(history) t.(task_metadata) in
    (Ok t', store tid t' m).

Definition get_task tid : M TaskManager TaskError A2ATask := _get_or_raise tid.

Definition cancel_task tid now : M TaskManager TaskError A2ATask :=
  transition tid CANCELED None now.

Definition list_tasks m : list A2ATask := dvalues m.(_tasks).

Definition is_terminal tid : M TaskManager TaskError bool :=
  let! t := _get_or_raise tid in
  retS (bool_decide (t.(status).(state) ∈ terminal_states)).

Inductive task_op : Type :=
  | Create (msg : A2AMessage) (tid : string) (now : float)
  | Transition (tid : string) (s : TaskState) (msg : option A2AMessage) (now : float)
  | AddArtifact (tid : string) (a : Artifact)
  | Cancel (tid : string) (now : float).

Definition task_step (o : task_op) m : TaskManager :=
  match o with
  | Create msg tid now => (create_task msg tid now m).2
  | Transition tid s msg now => (transition tid s msg now m).2
  | AddArtifact tid a => (add_artifact tid a m).2
  | Cancel tid now => (cancel_task tid now m).2
  end.

Definition task_run (os : list task_op) m : TaskManager :=
  fold_left (λ m o, task_step o m) os m.

(** A path of the state machine, from [s] through the states listed. *)
Fixpoint path (s : TaskState) (l : list TaskState) : Prop :=
  match l with
  | [] => True
  | s' :: l' => s' ∈ valid_transitions s ∧ path s' l'
  end.

(** The recorded states of a task, oldest first, are a run of the state machine. *)
Definition task_ok m (kt : string * A2ATask) : Prop :=
  let t := kt.2 in
  t.(id_) = kt.1 ∧
  if m.(_track_history)
  then ∃ l, state <$> (t.(history) ++ [t.(status)]) = SUBMITTED :: l ∧ path SUBMITTED l
  else t.(history) = [].

Definition manager_ok m : Prop := dwf m.(_tasks) ∧ Forall (task_ok m) m.(_tasks).
End lifecycle.

Section lemmas.
Context {F : PyFloat}.
Implicit Types (m : TaskManager) (t : A2ATask) (tid : string) (now : float).

Lemma terminal_no_transition s : valid_transitions s = [] ↔ s ∈ terminal_states.
Proof.
  unfold terminal_states. rewrite !elem_of_cons.
  destruct s; simpl; split; intros H; try done; auto; by destruct H as [?|[?|[?|?%elem_of_nil]]].
Qed.

Lemma path_snoc s l s' :
  path s (l ++ [s']) ↔ path s l ∧ s' ∈ valid_transitions (default s (last l)).
Proof.
  revert s. induction l as [|x l IH]; intros s; simpl; [tauto|]. rewrite IH, last_cons.
  destruct (last l); simpl; tauto.
Qed.

(** One transition, on every branch. *)
Lemma transition_cases tid s msg now m :
  match dget m.(_tasks) tid with
  | None => transition tid s msg now m = (Raise (TaskNotFoundError tid), m)
  | Some t =>
      if decide (s ∈ valid_transitions t.(status).(state)) then
        ∃ t', transition tid s msg now m = (Ok t', store tid t' m) ∧
          t'.(status) = mkStatus s msg now ∧ t'.(id_) = t.(id_) ∧
          t'.(artifacts) = t.(artifacts) ∧
          t'.(history) = if m.(_track_history) then t.(history) ++ [t.(status)] else t.(history)
      else transition tid s msg now m =
        (Raise (InvalidTaskTransitionError tid t.(status).(state) s), m)
  end.
Proof.
  assert (Hget : ∀ k : A2ATask → M TaskManager TaskError A2ATask,
    bindS (_get_or_raise tid) k m = match dget m.(_tasks) tid with
      | Some t => k t m | None => (Raise (TaskNotFoundError tid), m) end).
  { intros k. unfold _get_or_raise, bindS. by destruct (dget (_tasks m) tid). }
  unfold transition. rewrite !Hget. destruct (dget (_tasks m) tid) as [t|]; [|done].
  rewrite !bindS_guard.
  case_decide; [rewrite bool_decide_eq_false_2 by tauto|by rewrite bool_decide_eq_true_2].
  by eexists.
Qed.

Lemma store_ok tid t m : manager_ok m → task_ok m (tid, t) → manager_ok (store tid t m).
Proof.
  intros [Hwf Hf] Ht. split; simpl; [by apply dwf_set|]. by apply Forall_dset.
Qed.

Lemma get_ok tid t m : manager_ok m → dget m.(_tasks) tid = Some t → task_ok m (tid, t).
Proof. intros [_ Hf] ?%dget_Some_elem. by eapply Forall_forall in Hf. Qed.

Lemma transition_ok tid s msg now m :
  manager_ok m → manager_ok (transition tid s msg now m).2.
Proof.
  intros Hm. pose proof (transition_cases tid s msg now m) as H.
  destruct (dget m.(_tasks) tid) as [t|] eqn:Ht; [|by rewrite H].
  case_decide as Hs; [|by rewrite H].
  destruct H as (t' & -> & Hst & Hid & _ & Hh). simpl. apply store_ok; [done|].
  destruct (get_ok tid t m Hm Ht) as [Hid0 Hh0]. simpl in *. split; simpl; [congruence|].
  destruct (_track_history m); [|by rewrite Hh].
  destruct Hh0 as (l & El & Hp). exists (l ++ [s]). rewrite Hh, Hst.
  split; [by rewrite fmap_app, El|].
  apply path_snoc. split; [done|].
  rewrite fmap_app in El. simpl in El.
  assert (Hlast : last (SUBMITTED :: l) = Some (state (status t))) by by rewrite <-El, last_snoc.
  rewrite last_cons in Hlast.
  by replace (default SUBMITTED (last l)) with (state (status t))
    by (destruct (last l); by injection Hlast).
Qed.

Lemma task_step_ok o m : manager_ok m → manager_ok (task_step o m).
Proof.
  intros Hm. destruct o as [msg tid now|tid s msg now|tid a|tid now]; simpl.
  - apply store_ok; [done|]. split; simpl; [done|].
    destruct (_track_history m); [|done]. by exists [].
  - by apply transition_ok.
  - unfold add_artifact, _get_or_raise, bindS.
    destruct (dget (_tasks m) tid) as [t|] eqn:Ht; simpl; [|done].
    apply store_ok; [done|]. exact (get_ok tid t m Hm Ht).
  - by apply transition_ok.
Qed.

(** C4. Every task of every reachable manager has only ever moved along the
    protocol's state machine: its recorded states, from the oldest to the current
    one, are a path from SUBMITTED. *)
Theorem lifecycle_reachable_ok track os : manager_ok (task_run os (new_manager track)).
Proof.
  unfold task_run.
  assert (H : manager_ok (new_manager track)) by (split; constructor).
  revert H. generalize (new_manager track).
  induction os as [|o os IH]; intros m Hm; simpl; [done|]. by apply IH, task_step_ok.
Qed.

(** [transition], on every branch: an unknown task and a move the state machine
    has not change nothing and raise; a valid move gives the task its new status,
    puts the old one at the end of the history when history is tracked, and leaves
    its artifacts and every other task alone. *)
Theorem transition_spec tid s msg now m :
  match transition tid s msg now m with
  | (Raise (TaskNotFoundError i), m') => i = tid ∧ dget m.(_tasks) tid = None ∧ m' = m
  | (Raise (InvalidTaskTransitionError i c r), m') =>
      ∃ t, dget m.(_tasks) tid = Some t ∧ i = tid ∧ c = t.(status).(state) ∧ r = s ∧
        (s ∉ valid_transitions c) ∧ m' = m
  | (Ok t', m') =>
      ∃ t, dget m.(_tasks) tid = Some t ∧ s ∈ valid_transitions t.(status).(state) ∧
        t'.(status) = mkStatus s msg now ∧ t'.(artifacts) = t.(artifacts) ∧
        t'.(history) = (if m.(_track_history) then t.(history) ++ [t.(status)] else t.(history)) ∧
        ∀ tid', dget m'.(_tasks) tid' = if decide (tid' = tid) then Some t' else dget m.(_tasks) tid'
  end.
Proof.
  pose proof (transition_cases tid s msg now m) as H.
  destruct (dget m.(_tasks) tid) as [t|] eqn:Ht; [|by rewrite H].
  case_decide as Hs.
  - destruct H as (t' & -> & ? & _ & ? & ?). exists t. split_and!; try done.
    intros tid'. simpl. by rewrite dget_set.
  - rewrite H. by exists t.
Qed.

(** An operation that does not create a task under the id. *)
Definition not_create tid (o : task_op) : bool :=
  match o with Create _ tid' _ => negb (bool_decide (tid' = tid)) | _ => true end.

Lemma terminal_step tid t o m :
  dget m.(_tasks) tid = Some t → t.(status).(state) ∈ terminal_states →
  not_create tid o = true →
  ∃ t', dget (task_step o m).(_tasks) tid = Some t' ∧ t'.(status) = t.(status) ∧
    t'.(history) = t.(history).
Proof.
  intros Ht Hterm Ho. apply terminal_no_transition in Hterm.
  assert (Htr : ∀ tid' s msg now,
    ∃ t', dget (transition tid' s msg now m).2.(_tasks) tid = Some t' ∧
      t'.(status) = t.(status) ∧ t'.(history) = t.(history)).
  { intros tid' s msg now. pose proof (transition_cases tid' s msg now m) as H.
    destruct (dget (_tasks m) tid') as [t0|] eqn:Ht0; [|rewrite H; by exists t].
    case_decide as Hs; [|rewrite H; by exists t].
    destruct H as (t' & -> & _). simpl. rewrite dget_set. case_decide; [|by exists t].
    subst. simplify_eq. rewrite Hterm in Hs. by apply elem_of_nil in Hs. }
  destruct o as [msg tid' now|tid' s msg now|tid' a|tid' now]; simpl in *; auto.
  - rewrite dget_set. bool_simpl. rewrite decide_False by congruence. by exists t.
  - unfold add_artifact, _get_or_raise, bindS.
    destruct (dget (_tasks m) tid') as [t0|] eqn:Ht0; simpl; [|by exists t].
    rewrite dget_set. case_decide; [|by exists t]. subst. simplify_eq. eexists. by split.
  - apply Htr.
Qed.

(** The terminal states absorb: once a task is completed, failed or canceled, no
    sequence of calls that leaves its id alone changes its status or history. *)
Theorem terminal_absorbing tid t os m :
  dget m.(_tasks) tid = Some t → t.(status).(state) ∈ terminal_states →
  forallb (not_create tid) os = true →
  ∃ t', dget (task_run os m).(_tasks) tid = Some t' ∧ t'.(status) = t.(status) ∧
    t'.(history) = t.(history).
Proof.
  unfold task_run. revert m t. induction os as [|o os IH]; intros m t Ht Hterm Hos; simpl in *.
  { by exists t. }
  apply andb_true_iff in Hos as [Ho Hos].
  destruct (terminal_step tid t o m Ht Hterm Ho) as (t1 & Ht1 & Hst & Hh).
  destruct (IH (task_step o m) t1 Ht1) as (t2 & ? & ? & ?); [by rewrite Hst|done|].
  exists t2. split_and!; congruence.
Qed.

(** A task can be canceled exactly while it is not terminal. *)
Theorem cancel_iff_not_terminal tid t now m :
  dget m.(_tasks) tid = Some t →
  (is_ok (cancel_task tid now m).1 = true ↔ t.(status).(state) ∉ terminal_states) ∧
  (is_terminal tid m).1 = Ok (bool_decide (t.(status).(state) ∈ terminal_states)).
Proof.
  intros Ht. split.
  - unfold cancel_task. pose proof (transition_cases tid CANCELED None now m) as H.
    rewrite Ht in H. rewrite <-terminal_no_transition. case_decide as Hs.
    + destruct H as (t' & -> & _). simpl. split; [|done]. intros _ E. rewrite E in Hs.
      by apply elem_of_nil in Hs.
    + rewrite H. simpl. split; [done|]. intros Hne. exfalso. apply Hs.
      destruct (state (status t)); simpl in *; rewrite ?elem_of_cons; tauto.
  - unfold is_terminal, _get_or_raise, bindS. by rewrite Ht.
Qed.
End lemmas.

Section witnesses.
#[local] Existing Instance B64.

Definition ex_message : A2AMessage := mkMessage "user" [mkPart "text" "hi"] [].
Definition ex_done : A2ATask := mkTask "t" (mkStatus COMPLETED None f1) [] [] [].
Definition ex_manager : TaskManager := mkManager [("t", ex_done)] true.

Lemma ex_terminal : COMPLETED ∈ terminal_states.
Proof. left. Qed.

Lemma terminal_absorbing_witness :
  ∃ t', dget (task_run [Transition "t" WORKING None f1; Cancel "t" f1; Create ex_message "u" f1]
    ex_manager).(_tasks) "t" = Some t' ∧ t'.(status) = ex_done.(status) ∧ t'.(history) = [].
Proof.
  exact (terminal_absorbing "t" ex_done [Transition "t" WORKING None f1; Cancel "t" f1;
    Create ex_message "u" f1] ex_manager eq_refl ex_terminal eq_refl).
Defined.

Lemma cancel_iff_not_terminal_witness :
  (is_terminal "t" ex_manager).1 = Ok true.
Proof. exact (proj2 (cancel_iff_not_terminal "t" ex_done f1 ex_manager eq_refl)). Defined.
End witnesses.
