(* ===== verification/ServiceBalancer.v ===== *)
(** * Endpoint selection ([resilience/load_balancer.py])

    The balancer keeps endpoints, health flags, connection counts, the round-robin
    counter and the accumulators of the smooth weighted round robin.  Every method
    holds the lock.  [randbelow n] is the draw [random.choice] makes. *)
From stdpp Require Import base list sorting strings.
From Stdlib Require Import ZArith QArith Lqa Lia.
From S2P Require Import Prelude PyDict PyFloat PySort.
#[local] Close Scope Q_scope.
#[local] Open Scope Z_scope.

Inductive LoadBalancerStrategy : Type :=
  | ROUND_ROBIN | WEIGHTED_ROUND_ROBIN | LEAST_CONNECTIONS | RANDOM.

Section balancer.
Context {F : PyFloat}.

Record ServiceEndpoint : Type := mkEndpoint {
  name : string;
  host : string;
  port : Z;
  weight : float;
  healthy : bool;
}.

Inductive EndpointError : Type := BadWeight | BadPort.

(** [ServiceEndpoint.__post_init__] *)
Definition new_endpoint (n h : string) (p : Z) (w : float) (ok : bool)
    : result EndpointError ServiceEndpoint :=
  if fleb w f0 then Raise BadWeight
  else if negb ((0 <? p) && (p <=? 65535)) then Raise BadPort
  else Ok (mkEndpoint n h p w ok).

Record LoadBalancer : Type := mkLB {
  _endpoints : dict ServiceEndpoint;
  _health : dict bool;
  _connections : dict Z;
  _rr_counter : Z;
  _wrr_current_weights : dict float;
}.

Inductive LBError : Type := NotRegistered | NoHealthyEndpointError | AssertionError | IndexError.

Implicit Types (l : LoadBalancer) (e : ServiceEndpoint) (n : string).

Definition new_lb : LoadBalancer := mkLB [] [] [] 0 [].

(** Adding a name again keeps its connection count. *)
Definition add_endpoint e l : LoadBalancer :=
  let existing := default 0 (dget l.(_connections) e.(name)) in
  mkLB (dset l.(_endpoints) e.(name) e) (dset l.(_health) e.(name) e.(healthy))
    (dset l.(_connections) e.(name) existing) l.(_rr_counter)
    (dset l.(_wrr_current_weights) e.(name) f0).

Definition remove_endpoint n l : LoadBalancer :=
  mkLB (ddel l.(_endpoints) n) (ddel l.(_health) n) (ddel l.(_connections) n)
    l.(_rr_counter) (ddel l.(_wrr_current_weights) n).

Definition mark (ok : bool) n : M LoadBalancer LBError unit := λ l,
  if dmem l.(_endpoints) n then
    (Ok tt, mkLB l.(_endpoints) (dset l.(_health) n ok) l.(_connections) l.(_rr_counter)
      l.(_wrr_current_weights))
  else (Raise NotRegistered, l).

Definition mark_unhealthy n : M LoadBalancer LBError unit := mark false n.
Definition mark_healthy n : M LoadBalancer LBError unit := mark true n.

Definition change_connections (f : Z → Z) n : M LoadBalancer LBError unit := λ l,
  match dget l.(_connections) n with
  | Some c => (Ok tt, mkLB l.(_endpoints) l.(_health) (dset l.(_connections) n (f c))
      l.(_rr_counter) l.(_wrr_current_weights))
  | None => (Raise NotRegistered, l)
  end.

Definition record_connection_open n := change_connections (λ c, c + 1) n.
Definition record_connection_close n := change_connections (λ c, Z.max 0 (c - 1)) n.

Definition _healthy_list l : list ServiceEndpoint :=
  dvalues (filter (λ ne, default false (dget l.(_health) ne.1) = true) l.(_endpoints)).

Definition _round_robin (hs : list ServiceEndpoint) : M LoadBalancer LBError ServiceEndpoint := λ l,
  let index := l.(_rr_counter) mod Z.of_nat (length hs) in
  let l' := mkLB l.(_endpoints) l.(_health) l.(_connections) (l.(_rr_counter) + 1)
    l.(_wrr_current_weights) in
  match hs !! Z.to_nat index with Some e => (Ok e, l') | None => (Raise IndexError, l') end.

(** The loop of [_weighted_round_robin]: the accumulators and the best endpoint so
    far; no best yet stands for [best_weight = float("-inf")]. *)
Fixpoint wrr_loop (hs : list ServiceEndpoint) (cw : dict float)
    (best : option (ServiceEndpoint * float)) : dict float * option (ServiceEndpoint * float) :=
  match hs with
  | [] => (cw, best)
  | e :: hs' =>
      let x := fadd (default f0 (dget cw e.(name))) e.(weight) in
      let better := match best with Some (_, bw) => fltb bw x | None => fninf_ltb x end in
      wrr_loop hs' (dset cw e.(name) x) (if better then Some (e, x) else best)
  end.

Definition _weighted_round_robin (hs : list ServiceEndpoint)
    : M LoadBalancer LBError ServiceEndpoint := λ l,
  let total_weight := fsum (weight <$> hs) in
  let '(cw, best) := wrr_loop hs l.(_wrr_current_weights) None in
  match best with
  | None => (Raise AssertionError,
      mkLB l.(_endpoints) l.(_health) l.(_connections) l.(_rr_counter) cw)
  | Some (b, _) =>
      let cw' := dset cw b.(name) (fsub (default f0 (dget cw b.(name))) total_weight) in
      (Ok b, mkLB l.(_endpoints) l.(_health) l.(_connections) l.(_rr_counter) cw')
  end.

Definition conn_lt l (x y : ServiceEndpoint) : bool :=
  default 0 (dget l.(_connections) x.(name)) <? default 0 (dget l.(_connections) y.(name)).

Definition _least_connections (hs : list ServiceEndpoint)
    : M LoadBalancer LBError ServiceEndpoint := λ l,
  match py_min (conn_lt l) hs with Some e => (Ok e, l) | None => (Raise IndexError, l) end.

Definition _random (randbelow : Z → Z) (hs : list ServiceEndpoint)
    : M LoadBalancer LBError ServiceEndpoint := λ l,
  match hs !! Z.to_nat (randbelow (Z.of_nat (length hs))) with
  | Some e => (Ok e, l)
  | None => (Raise IndexError, l)
  end.

Definition select (s : LoadBalancerStrategy) (randbelow : Z → Z)
    : M LoadBalancer LBError ServiceEndpoint := λ l,
  let hs := _healthy_list l in
  match hs with
  | [] => (Raise NoHealthyEndpointError, l)
  | _ =>
      match s with
      | ROUND_ROBIN => _round_robin hs l
      | WEIGHTED_ROUND_ROBIN => _weighted_round_robin hs l
      | LEAST_CONNECTIONS => _least_connections hs l
      | RANDOM => _random randbelow hs l
      end
  end.

Inductive lb_op : Type :=
  | Add (e : ServiceEndpoint) | Remove (n : string) | Mark (ok : bool) (n : string)
  | Open (n : string) | Close (n : string)
  | Select (s : LoadBalancerStrategy) (randbelow : Z → Z).

Definition lb_step (o : lb_op) l : LoadBalancer :=
  match o with
  | Add e => add_endpoint e l
  | Remove n => remove_endpoint n l
  | Mark ok n => (mark ok n l).2
  | Open n => (record_connection_open n l).2
  | Close n => (record_connection_close n l).2
  | Select s r => (select s r l).2
  end.

(** The four dictionaries have the same names, each endpoint is under its own, and
    counts are not negative. *)
Definition lb_ok l : Prop :=
  dwf l.(_endpoints) ∧ dwf l.(_health) ∧ dwf l.(_connections) ∧ dwf l.(_wrr_current_weights) ∧
  (∀ n, n ∈ dkeys l.(_health) ↔ n ∈ dkeys l.(_endpoints)) ∧
  (∀ n, n ∈ dkeys l.(_connections) ↔ n ∈ dkeys l.(_endpoints)) ∧
  (∀ n, n ∈ dkeys l.(_wrr_current_weights) ↔ n ∈ dkeys l.(_endpoints)) ∧
  Forall (λ ne, ne.2.(name) = ne.1) l.(_endpoints) ∧
  Forall (λ nc, 0 ≤ nc.2) l.(_connections) ∧ 0 ≤ l.(_rr_counter).

(** [k] selections in a row. *)
Fixpoint selections (s : LoadBalancerStrategy) (r : Z → Z) (k : nat) l
    : list (result LBError ServiceEndpoint) * LoadBalancer :=
  match k with
  | O => ([], l)
  | S k' =>
      let '(x, l1) := select s r l in
      let '(xs, l2) := selections s r k' l1 in (x :: xs, l2)
  end.
End balancer.

(** ** Lemmas *)
Section lemmas.
Context {F : PyFloat}.
Implicit Types (l : LoadBalancer) (e : ServiceEndpoint) (n : string).

Lemma dvalues_filter_elem {V} (P : string * V → Prop) `{∀ x, Decision (P x)} (d : dict V) v :
  v ∈ dvalues (filter P d) ↔ ∃ k, P (k, v) ∧ (k, v) ∈ d.
Proof.
  unfold dvalues. rewrite list_elem_of_fmap. split.
  - intros ([k v'] & -> & [??]%list_elem_of_filter). by exists k.
  - intros (k & ? & ?). exists (k, v). split; [done|]. by apply list_elem_of_filter.
Qed.

(** A healthy endpoint is a registered one whose flag is set. *)
Lemma elem_healthy_list l e :
  lb_ok l → e ∈ _healthy_list l ↔
    dget l.(_endpoints) e.(name) = Some e ∧ dget l.(_health) e.(name) = Some true.
Proof.
  intros (Hwf&_&_&_&_&_&_&Hn&_). unfold _healthy_list. rewrite dvalues_filter_elem.
  rewrite Forall_forall in Hn. split.
  - intros (k & Hh & Hin). simpl in *. specialize (Hn _ Hin). simpl in Hn. subst k.
    split; [by apply elem_dget|]. by destruct (dget _ _) as [[]|].
  - intros [He Hh]. exists e.(name). simpl. rewrite Hh. split; [done|]. by apply dget_Some_elem.
Qed.

Lemma wrr_loop_keys hs (cw : dict float) best n :
  dwf cw → let '(cw', _) := wrr_loop hs cw best in
  dwf cw' ∧ (n ∈ dkeys cw' ↔ n ∈ dkeys cw ∨ n ∈ name <$> hs).
Proof.
  revert cw best. induction hs as [|e hs IH]; intros cw best Hwf; simpl.
  { split; [done|]. split; [by left|]. by intros [?|?%elem_of_nil]. }
  match goal with |- context [wrr_loop hs ?c ?b] =>
    specialize (IH c b ltac:(by apply dwf_set)); destruct (wrr_loop hs c b) as [cw' b'] end.
  destruct IH as [? IH]. split; [done|].
  rewrite IH, elem_dkeys_set, elem_of_cons. tauto.
Qed.

Lemma wrr_loop_best hs (cw : dict float) best :
  match (wrr_loop hs cw best).2 with
  | Some (b, _) => b ∈ hs ∨ fst <$> best = Some b
  | None => True
  end.
Proof.
  revert cw best. induction hs as [|e hs IH]; intros cw best; simpl.
  { destruct best as [[b x]|]; [by right|done]. }
  match goal with |- context [wrr_loop hs ?c ?b] => specialize (IH c b) end.
  destruct (wrr_loop hs _ _).2 as [[b x]|]; [|done].
  destruct IH as [?|IH]; [left; by right|].
  case_match; [|by right]. simpl in IH. injection IH as ->. left. left.
Qed.

Lemma healthy_names l n : lb_ok l → n ∈ name <$> _healthy_list l → n ∈ dkeys l.(_endpoints).
Proof.
  intros Hok. rewrite list_elem_of_fmap. intros (e & -> & He).
  apply elem_healthy_list in He as [He _]; [|done]. apply dget_is_Some. by eexists.
Qed.

Lemma select_ok s r l : lb_ok l → lb_ok (select s r l).2.
Proof.
  intros Hok. pose proof (healthy_names l) as Hnm. unfold select.
  destruct (_healthy_list l) as [|e0 hs0] eqn:Eh; [done|]. rewrite <-Eh in *.
  destruct Hok as (H1&H2&H3&H4&H5&H6&H7&H8&H9&H10) eqn:Eok. destruct s.
  - unfold _round_robin. destruct (_ !! _); split_and!; simpl; done || lia.
  - unfold _weighted_round_robin.
    pose proof (λ n, wrr_loop_keys (_healthy_list l) l.(_wrr_current_weights) None n H4) as Hk.
    pose proof (wrr_loop_best (_healthy_list l) l.(_wrr_current_weights) None) as Hb.
    destruct (wrr_loop _ _ None) as [cw [[b x]|]]; simpl in Hb.
    + destruct Hb as [Hb|Hb]; [|done]. destruct (Hk "") as [Hwf _].
      split_and!; simpl; try done; [by apply dwf_set|]. intros n. rewrite elem_dkeys_set.
      destruct (Hk n) as [_ ->]. rewrite H7. split; [|by auto].
      intros [->|[?|Hn]]; [|done|by apply Hnm].
      apply Hnm; [done|]. apply list_elem_of_fmap. by exists b.
    + destruct (Hk "") as [Hwf _]. split_and!; simpl; try done. intros n.
      destruct (Hk n) as [_ ->]. rewrite H7. split; [|by auto].
      intros [?|Hn]; [done|by apply Hnm].
  - unfold _least_connections. by destruct (py_min _ _).
  - unfold _random. by destruct (_ !! _).
Qed.

Lemma lb_step_ok o l : lb_ok l → lb_ok (lb_step o l).
Proof.
  intros Hok. destruct o as [e|n|ok n|n|n|s r]; simpl; [| | | | |by apply select_ok].
  all: destruct Hok as (H1&H2&H3&H4&H5&H6&H7&H8&H9&H10).
  - split_and!; simpl; try (by apply dwf_set); try done;
      try (intros n; rewrite !elem_dkeys_set, ?H5, ?H6, ?H7; tauto).
    + by apply Forall_dset.
    + apply Forall_dset; [done|]. simpl. destruct (dget _ _) as [c|] eqn:Ec; simpl; [|lia].
      apply dget_Some_elem in Ec. rewrite Forall_forall in H9. by apply (H9 (name e, c)).
  - split_and!; simpl; try (by apply dwf_del); try (by apply Forall_ddel); try done;
      intros k; rewrite !elem_dkeys_del, ?H5, ?H6, ?H7 by done; tauto.
  - unfold mark. destruct (dmem _ n) eqn:Em; simpl; [|by split_and!].
    apply dmem_true in Em. split_and!; simpl; try done; [by apply dwf_set|].
    intros k. rewrite elem_dkeys_set, H5. naive_solver.
  - unfold record_connection_open, change_connections.
    destruct (dget _ n) as [c|] eqn:Ec; simpl; [|by split_and!].
    pose proof (dget_Some_elem _ _ _ Ec) as Hin. rewrite Forall_forall in H9.
    pose proof (H9 _ Hin) as Hc. simpl in Hc.
    split_and!; simpl; try done; [by apply dwf_set| |].
    + intros k. rewrite elem_dkeys_set, H6. split; [|by auto]. intros [->|?]; [|done].
      apply H6, dget_is_Some. by eexists.
    + apply Forall_dset; [by apply Forall_forall|]. simpl. lia.
  - unfold record_connection_close, change_connections.
    destruct (dget _ n) as [c|] eqn:Ec; simpl; [|by split_and!].
    split_and!; simpl; try done; [by apply dwf_set| |].
    + intros k. rewrite elem_dkeys_set, H6. split; [|by auto]. intros [->|?]; [|done].
      apply H6, dget_is_Some. by eexists.
    + apply Forall_dset; [done|]. simpl. lia.
Qed.

Lemma new_lb_ok : lb_ok new_lb.
Proof. split_and!; try constructor; try done; by intros. Qed.

(** Whatever the calls, raising or not, endpoints, health flags, connection
    counts and accumulators stay over the same names, and counts never go
    negative. *)
Theorem lb_reachable_ok os : lb_ok (fold_left (λ l o, lb_step o l) os new_lb).
Proof.
  generalize new_lb_ok. generalize new_lb.
  induction os as [|o os IH]; intros l Hl; simpl; [done|]. by apply IH, lb_step_ok.
Qed.
End lemmas.

(** ** What is selected *)
Section selection.
Context {F : PyFloat}.
Implicit Types (l : LoadBalancer) (e : ServiceEndpoint) (n : string).

Lemma conn_weak_order l : weak_order (conn_lt l) (λ _, True).
Proof. split; intros *; unfold conn_lt; rewrite ?Z.ltb_lt, ?Z.ltb_ge; lia. Qed.

(** [select] only ever returns a registered endpoint whose health flag is set;
    it raises [NoHealthyEndpointError], changing nothing, exactly when there is none;
    the only other outcome is the assertion of the weighted strategy, for weights
    that are not ordinary numbers.  The least-connections strategy returns an
    endpoint with no more open connections than any healthy one. *)
Theorem select_sound s r l :
  lb_ok l → (∀ k : Z, 0 < k → 0 ≤ r k < k) →
  match select s r l with
  | (Ok e, l') =>
      dget l.(_endpoints) e.(name) = Some e ∧ dget l.(_health) e.(name) = Some true ∧
      l'.(_endpoints) = l.(_endpoints) ∧ l'.(_health) = l.(_health) ∧
      l'.(_connections) = l.(_connections) ∧
      (s = LEAST_CONNECTIONS → ∀ e', e' ∈ _healthy_list l → conn_lt l e' e = false)
  | (Raise NoHealthyEndpointError, l') => _healthy_list l = [] ∧ l' = l
  | (Raise AssertionError, _) => s = WEIGHTED_ROUND_ROBIN
  | (Raise _, _) => False
  end.
Proof.
  intros Hok Hr. pose proof (λ e, proj1 (elem_healthy_list l e Hok)) as Hel. unfold select.
  destruct (_healthy_list l) as [|e0 hs0] eqn:Eh; [done|]. rewrite <-Eh in *.
  assert (Hpos : 0 < Z.of_nat (length (_healthy_list l))) by (rewrite Eh; simpl; lia).
  destruct s.
  - unfold _round_robin. pose proof (Z.mod_pos_bound l.(_rr_counter) _ Hpos).
    destruct (_ !! _) as [e|] eqn:E.
    + apply list_elem_of_lookup_2, Hel in E as [??]. by split_and!.
    + apply lookup_ge_None in E. lia.
  - unfold _weighted_round_robin.
    pose proof (wrr_loop_best (_healthy_list l) l.(_wrr_current_weights) None) as Hb.
    destruct (wrr_loop _ _ None) as [cw [[b x]|]]; simpl in Hb; [|done].
    destruct Hb as [Hb|?]; [|done]. apply Hel in Hb as [??]. by split_and!.
  - unfold _least_connections, py_min. rewrite Eh.
    destruct (py_min_from_spec (conn_lt l) (λ _, True) (conn_weak_order l) e0 hs0) as [Hin Hmin];
      [done|by apply Forall_true|].
    rewrite <-Eh in *. pose proof (Hel _ Hin) as [??]. by split_and!.
  - unfold _random. specialize (Hr _ Hpos). destruct (_ !! _) as [e|] eqn:E.
    + apply list_elem_of_lookup_2, Hel in E as [??]. by split_and!.
    + apply lookup_ge_None in E. lia.
Qed.

Lemma select_rr_healthy r l : _healthy_list (select ROUND_ROBIN r l).2 = _healthy_list l.
Proof. unfold select. destruct (_healthy_list l) eqn:E; [done|]. unfold _round_robin. by destruct (_ !! _). Qed.

Lemma selections_rr r k l j :
  (j < k)%nat → _healthy_list l ≠ [] →
  (selections ROUND_ROBIN r k l).1 !! j =
    Ok <$> _healthy_list l !! Z.to_nat ((l.(_rr_counter) + Z.of_nat j)
      mod Z.of_nat (length (_healthy_list l))).
Proof.
  revert l j. induction k as [|k IH]; intros l j Hj Hne; [lia|]. cbn [selections].
  assert (Hpos : 0 < Z.of_nat (length (_healthy_list l))) by (destruct (_healthy_list l); [done|simpl; lia]).
  assert (Hsel : ∃ e, _healthy_list l !! Z.to_nat (l.(_rr_counter)
      mod Z.of_nat (length (_healthy_list l))) = Some e ∧
    select ROUND_ROBIN r l = (Ok e, mkLB l.(_endpoints) l.(_health) l.(_connections)
      (l.(_rr_counter) + 1) l.(_wrr_current_weights))).
  { pose proof (Z.mod_pos_bound l.(_rr_counter) _ Hpos).
    destruct (lookup_lt_is_Some_2 (_healthy_list l) (Z.to_nat (l.(_rr_counter)
      mod Z.of_nat (length (_healthy_list l))))) as [e He]; [lia|].
    exists e. split; [done|]. unfold select. destruct (_healthy_list l) eqn:E; [done|].
    rewrite <-E in *. unfold _round_robin. by rewrite He. }
  destruct Hsel as (e & He & Hsel). rewrite Hsel.
  set (l1 := mkLB _ _ _ _ _). assert (Hh : _healthy_list l1 = _healthy_list l) by done.
  destruct j as [|j].
  - rewrite Z.add_0_r, He. by destruct (selections ROUND_ROBIN r k l1).
  - specialize (IH l1 j ltac:(lia)). rewrite Hh in IH. specialize (IH Hne).
    destruct (selections ROUND_ROBIN r k l1) as [xs l2]. simpl in *. rewrite IH.
    by replace (_rr_counter l + 1 + Z.of_nat j) with (_rr_counter l + Z.of_nat (S j)) by lia.
Qed.

Lemma length_selections s r k l : length (selections s r k l).1 = k.
Proof.
  revert l. induction k as [|k IH]; intros l; cbn [selections]; [done|].
  destruct (select s r l) as [x l1]. specialize (IH l1).
  destruct (selections s r k l1) as [xs l2]. simpl in *. by rewrite IH.
Qed.

(** Round robin is fair: from any counter, as many selections as there are
    healthy endpoints return each of them exactly once. *)
Theorem rr_fair r l :
  (selections ROUND_ROBIN r (length (_healthy_list l)) l).1 ≡ₚ Ok <$> _healthy_list l.
Proof.
  destruct (decide (_healthy_list l = [])) as [E|Hne]; [by rewrite E|].
  apply (cyclic_perm l.(_rr_counter)).
  - by rewrite length_selections, length_fmap.
  - intros j Hj. rewrite length_fmap in *. rewrite selections_rr by done.
    by rewrite list_lookup_fmap.
Qed.
End selection.

(** ** Smooth weighted round robin, over exact rationals *)
Section wrr.
#[local] Existing Instance QF.
#[local] Open Scope Q_scope.
Implicit Types (l : LoadBalancer) (e b : ServiceEndpoint) (n : string) (hs : list ServiceEndpoint).

Definition cur_of (cw : dict float) n : float := default f0 (dget cw n).
Definition cur l n : float := cur_of l.(_wrr_current_weights) n.

(** The loop adds every weight to its accumulator and finds the largest sum. *)
Lemma wrr_loop_spec hs (cw : dict float) best :
  NoDup (name <$> hs) →
  let '(cw', best') := wrr_loop hs cw best in
  (∀ e, e ∈ hs → cur_of cw' (name e) = fadd (cur_of cw (name e)) (weight e)) ∧
  (∀ n, n ∉ name <$> hs → cur_of cw' n = cur_of cw n) ∧
  (∀ e, e ∈ hs → ∃ b x, best' = Some (b, x) ∧ fadd (cur_of cw (name e)) (weight e) <= x) ∧
  (∀ b0 x0, best = Some (b0, x0) → ∃ b x, best' = Some (b, x) ∧ x0 <= x) ∧
  match best' with
  | Some (b, x) => best = best' ∨ b ∈ hs ∧ x = fadd (cur_of cw (name b)) (weight b)
  | None => hs = []
  end.
Proof.
  revert cw best. induction hs as [|e hs IH]; intros cw best Hnd; cbn [wrr_loop].
  { split_and!; try done; try (intros ? ?%elem_of_nil; done); try naive_solver.
    - intros b0 x0 ->. exists b0, x0. split; [done|apply Qle_refl].
    - destruct best as [[??]|]; [by left|done]. }
  rewrite fmap_cons in Hnd. apply NoDup_cons in Hnd as [Hne Hnd].
  change (default f0 (dget cw (name e))) with (cur_of cw (name e)).
  set (x := fadd (cur_of cw (name e)) (weight e)).
  match goal with |- context [wrr_loop hs _ ?b] => set (best1 := b) end.
  assert (Hcur1 : ∀ n, cur_of (dset cw (name e) x) n =
    if decide (n = name e) then x else cur_of cw n).
  { intros n. unfold cur_of. rewrite dget_set. by case_decide. }
  assert (Hne' : ∀ e', e' ∈ hs → cur_of (dset cw (name e) x) (name e') = cur_of cw (name e')).
  { intros e' He'. rewrite Hcur1, decide_False; [done|]. intros E. apply Hne. rewrite <-E.
    apply list_elem_of_fmap. by exists e'. }
  assert (Hb1 : ∃ b1 x1, best1 = Some (b1, x1) ∧ x <= x1 ∧
    (∀ b0 x0, best = Some (b0, x0) → x0 <= x1) ∧ (best1 = best ∨ b1 = e ∧ x1 = x)).
  { unfold best1. destruct best as [[b0 x0]|].
    - destruct (fltb x0 x) eqn:Ex.
      + apply Qltb_lt in Ex. exists e, x. split_and!; [done|apply Qle_refl| |by right].
        intros ? ? [= <- <-]. by apply Qlt_le_weak.
      + apply Qltb_ge in Ex. exists b0, x0. split_and!; [done|done| |by left].
        intros ? ? [= <- <-]. apply Qle_refl.
    - exists e, x. split_and!; [done|apply Qle_refl|done|by right]. }
  clearbody best1. destruct Hb1 as (b1 & x1 & Hb1 & Hx1 & Hold & Hor). specialize (IH (dset cw (name e) x) best1 Hnd).
  destruct (wrr_loop hs (dset cw (name e) x) best1) as [cw' best'].
  destruct IH as (I1 & I2 & I3 & I4 & I5). destruct (I4 b1 x1 Hb1) as (b & y & -> & Hy).
  split_and!.
  - intros e' He'. apply elem_of_cons in He' as [->|He'].
    + rewrite I2 by done. rewrite Hcur1. by rewrite decide_True.
    + rewrite I1 by done. by rewrite Hne'.
  - intros n Hn. rewrite fmap_cons in Hn. apply not_elem_of_cons in Hn as [Hn1 Hn2].
    rewrite I2 by done. by rewrite Hcur1, decide_False.
  - intros e' He'. apply elem_of_cons in He' as [->|He'].
    + exists b, y. split; [done|]. by eapply Qle_trans.
    + rewrite <-Hne' by done. by apply I3.
  - intros b0 x0 Hb0. exists b, y. split; [done|]. eapply Qle_trans; [by eapply Hold|done].
  - destruct I5 as [E|[Hin E]].
    + rewrite Hb1 in E. injection E as -> ->. destruct Hor as [<-|[-> ->]]; [by left|].
      right. split; [left|done].
    + right. split; [by right|]. by rewrite E, Hne'.
Qed.

Lemma names_inj hs e b :
  NoDup (name <$> hs) → e ∈ hs → b ∈ hs → name e = name b → e = b.
Proof.
  intros Hnd He Hb E. apply list_elem_of_lookup in He as [i Hi], Hb as [j Hj].
  assert (i = j) as ->; [|congruence].
  apply (NoDup_lookup _ i j (name e) Hnd); rewrite list_lookup_fmap.
  - by rewrite Hi.
  - rewrite Hj. simpl. by rewrite E.
Qed.

(** The total weight of the endpoints to choose from. *)
Definition total hs : float := fsum (weight <$> hs).

(** One selection. *)
Definition advances hs l b l' : Prop :=
  b ∈ hs ∧ _healthy_list l' = hs ∧
  (∀ e, e ∈ hs → cur l' (name e) == cur l (name e) + weight e -
    (if decide (name e = name b) then total hs else 0)) ∧
  ∀ e, e ∈ hs → cur l (name e) + weight e <= cur l (name b) + weight b.

Lemma select_wrr r l hs :
  hs ≠ [] → _healthy_list l = hs → NoDup (name <$> hs) →
  ∃ b l', select WEIGHTED_ROUND_ROBIN r l = (Ok b, l') ∧ advances hs l b l'.
Proof.
  intros Hne Hh Hnd. unfold select. rewrite Hh. destruct hs as [|e0 hs0]; [done|].
  set (hs := e0 :: hs0) in *. unfold _weighted_round_robin.
  pose proof (wrr_loop_spec hs l.(_wrr_current_weights) None Hnd) as H.
  destruct (wrr_loop hs _ None) as [cw best]. destruct H as (I1 & _ & I3 & _ & I5).
  destruct best as [[b x]|]; [|done]. destruct I5 as [?|[Hb Hx]]; [done|].
  eexists b, _. split; [done|]. split_and!; [done|done| |].
  - intros e He.
    assert (Hc : ∀ y, cur_of (dset cw (name b) y) (name e) =
      if decide (name e = name b) then y else cur_of cw (name e)).
    { intros y. unfold cur_of. rewrite dget_set. by case_decide. }
    unfold cur at 1. cbn [_wrr_current_weights]. rewrite Hc.
    change (default f0 (dget cw (name b))) with (cur_of cw (name b)). rewrite !I1 by done.
    fold (total hs). case_decide as E; unfold cur; [|qf; lra].
    rewrite (names_inj hs e b Hnd He Hb E). qf. lra.
  - intros e He. destruct (I3 e He) as (b' & x' & [= <- <-] & Hle). by rewrite Hx in Hle.
Qed.

Lemma fsum_le (f g : ServiceEndpoint → float) hs :
  (∀ e, e ∈ hs → f e <= g e) → fsum (f <$> hs) <= fsum (g <$> hs).
Proof.
  induction hs as [|e hs IH]; intros H; [apply Qle_refl|].
  rewrite !fmap_cons, !fsum_cons. apply Qplus_le_compat; [apply H; left|].
  apply IH. intros; apply H; by right.
Qed.

Lemma fsum_ext (f g : ServiceEndpoint → float) hs :
  (∀ e, e ∈ hs → f e == g e) → fsum (f <$> hs) == fsum (g <$> hs).
Proof.
  intros H. apply Qle_antisym; apply fsum_le; intros e He; rewrite (H e He); apply Qle_refl.
Qed.

Lemma fsum_plus (f g : ServiceEndpoint → float) hs :
  fsum ((λ e, fadd (f e) (g e)) <$> hs) == fsum (f <$> hs) + fsum (g <$> hs).
Proof.
  induction hs as [|e hs IH]; [by vm_compute|].
  rewrite !fmap_cons, !fsum_cons, IH. simpl. qf. ring.
Qed.

Lemma fsum_zero hs : fsum ((λ _ : ServiceEndpoint, f0) <$> hs) == 0.
Proof. induction hs as [|x hs IH]; [done|]. rewrite fmap_cons, fsum_cons, IH. done. Qed.

Lemma fsum_one (W : float) hs b :
  NoDup (name <$> hs) → b ∈ hs →
  fsum ((λ e, if decide (name e = name b) then W else f0) <$> hs) == W.
Proof.
  intros Hnd Hb. induction hs as [|e hs IH]; [by apply elem_of_nil in Hb|].
  rewrite fmap_cons in *. apply NoDup_cons in Hnd as [Hne Hnd]. rewrite fsum_cons.
  apply elem_of_cons in Hb as [->|Hb].
  - rewrite decide_True by done.
    rewrite (fsum_ext _ (λ _, f0)); [|intros e' He'; rewrite decide_False; [reflexivity|]].
    + rewrite fsum_zero. qf. lra.
    + intros E. apply Hne. rewrite <-E. apply list_elem_of_fmap. by exists e'.
  - rewrite decide_False; [rewrite (IH Hnd Hb); qf; lra|].
    intros E. apply Hne. rewrite E. apply list_elem_of_fmap. by exists b.
Qed.

(** The accumulators between selections: they sum to zero, and none is as low as
    minus the total weight. *)
Definition balanced hs l : Prop :=
  fsum ((λ e, cur l (name e)) <$> hs) == 0 ∧
  ∀ e, e ∈ hs → - total hs < cur l (name e).

Lemma total_positive hs : hs ≠ [] → (∀ e, e ∈ hs → 0 < weight e) → 0 < total hs.
Proof.
  intros Hne Hw. destruct hs as [|e hs]; [done|]. unfold total. rewrite fmap_cons, fsum_cons.
  assert (0 <= fsum (weight <$> hs)).
  { rewrite <-(fsum_zero hs). apply fsum_le. intros e' He'. apply Qlt_le_weak, Hw. by right. }
  specialize (Hw e ltac:(left)). eapply Qlt_le_trans; [exact Hw|].
  rewrite <-(Qplus_0_r (weight e)) at 1. apply Qplus_le_compat; [apply Qle_refl|done].
Qed.

Lemma advances_balanced hs l b l' :
  NoDup (name <$> hs) → (∀ e, e ∈ hs → 0 < weight e) → hs ≠ [] →
  balanced hs l → advances hs l b l' → balanced hs l'.
Proof.
  intros Hnd Hw Hne [Hsum Hlow] (Hb & _ & Hcur & Hmax).
  pose proof (total_positive hs Hne Hw) as HW. set (W := total hs) in *.
  assert (Hval : fsum ((λ e, fadd (cur l (name e)) (weight e)) <$> hs) == W).
  { rewrite fsum_plus, Hsum. fold (total hs). fold W. qf. lra. }
  split.
  - assert (Hz : fsum ((λ e, cur l' (name e)) <$> hs) +
      fsum ((λ e, if decide (name e = name b) then W else f0) <$> hs) == W).
    { rewrite <-fsum_plus, <-Hval. apply fsum_ext. intros e He. simpl. rewrite (Hcur e He).
      case_decide; qf; ring. }
    rewrite (fsum_one W hs b Hnd Hb) in Hz. apply (Qplus_inj_r _ _ W). rewrite Hz. lra.
  - assert (Hpos : 0 < cur l (name b) + weight b).
    { apply Qnot_le_lt. intros Hle. apply (Qlt_not_le _ _ HW). rewrite <-Hval.
      rewrite <-(fsum_zero hs). apply fsum_le. intros e He. eapply Qle_trans; [by apply Hmax|exact Hle]. }
    intros e He. rewrite (Hcur e He). case_decide as E.
    + assert (Hle : cur l (name b) + weight b == cur l (name e) + weight e).
      { apply Qle_antisym; [|by apply Hmax].
        rewrite (names_inj hs e b Hnd He Hb E). apply Qle_refl. }
      fold W. clearbody W. qf. lra.
    + specialize (Hlow e He). specialize (Hw e He). fold W. clearbody W. qf. lra.
Qed.

Definition picked n (bs : list ServiceEndpoint) : Z :=
  Z.of_nat (length (filter (λ b, name b = n) bs)).

Lemma selections_wrr r k l hs :
  hs ≠ [] → _healthy_list l = hs → NoDup (name <$> hs) → (∀ e, e ∈ hs → 0 < weight e) →
  balanced hs l →
  ∃ bs, (selections WEIGHTED_ROUND_ROBIN r k l).1 = Ok <$> bs ∧ length bs = k ∧
    (∀ b, b ∈ bs → b ∈ hs) ∧ balanced hs (selections WEIGHTED_ROUND_ROBIN r k l).2 ∧
    ∀ e, e ∈ hs → cur (selections WEIGHTED_ROUND_ROBIN r k l).2 (name e) ==
      cur l (name e) + inject_Z (Z.of_nat k) * weight e -
      inject_Z (picked (name e) bs) * total hs.
Proof.
  intros Hne Hh Hnd Hw. revert l Hh. induction k as [|k IH]; intros l Hh Hb; cbn [selections].
  { exists []. split_and!; [done|done|by intros ? ?%elem_of_nil|done|].
    intros e _. cbn [snd]. change (Z.of_nat 0) with 0%Z. change (picked (name e) []) with 0%Z. qf. lra. }
  destruct (select_wrr r l hs Hne Hh Hnd) as (b & l1 & -> & Hadv).
  pose proof (advances_balanced hs l b l1 Hnd Hw Hne Hb Hadv) as Hb1.
  destruct Hadv as (Hbin & Hh1 & Hcur & _).
  destruct (IH l1 Hh1 Hb1) as (bs & Hbs & Hlen & Hin & Hbal & Hc).
  destruct (selections WEIGHTED_ROUND_ROBIN r k l1) as [xs l2]. simpl in Hbs, Hbal, Hc.
  exists (b :: bs). split_and!; [by rewrite Hbs|simpl; congruence| |done|].
  - intros b' Hb'. apply elem_of_cons in Hb' as [->|?]; [done|by apply Hin].
  - intros e He. cbn [snd]. rewrite (Hc e He), (Hcur e He).
    set (W := total hs). clearbody W.
    assert (Hk : inject_Z (Z.of_nat (S k)) == inject_Z (Z.of_nat k) + 1).
    { rewrite Nat2Z.inj_succ, <-Z.add_1_r, inject_Z_plus. reflexivity. }
    assert (Hp : inject_Z (picked (name e) (b :: bs)) ==
      (if decide (name e = name b) then 1 else 0) + inject_Z (picked (name e) bs)).
    { unfold picked. rewrite filter_cons. case_decide as E1; case_decide as E2; try congruence.
      - simpl length. rewrite Nat2Z.inj_succ, <-Z.add_1_l, inject_Z_plus. reflexivity.
      - rewrite Qplus_0_l. reflexivity. }
    rewrite Hk, Hp. clear. revert W.
    generalize (inject_Z (Z.of_nat k)) (inject_Z (picked (name e) bs)) (cur l (name e)) (weight e).
    qf. intros. case_decide; ring.
Qed.

Lemma healthy_NoDup l : lb_ok l → NoDup (name <$> _healthy_list l).
Proof.
  intros (Hwf&_&_&_&_&_&_&Hn&_). unfold _healthy_list, dvalues.
  rewrite <-list_fmap_compose.
  assert (Heq : (name ∘ snd) <$> filter (λ ne, default false (dget l.(_health) ne.1) = true)
    l.(_endpoints) = fst <$> filter (λ ne, default false (dget l.(_health) ne.1) = true)
    l.(_endpoints)).
  { apply list_fmap_ext. intros i [k e] Hi. apply list_elem_of_lookup_2 in Hi.
    apply list_elem_of_filter in Hi as [_ Hi]. rewrite Forall_forall in Hn. exact (Hn _ Hi). }
  rewrite Heq. eapply sublist_NoDup; [exact Hwf|].
  apply fmap_sublist, sublist_filter.
Qed.

(** The accumulators of the healthy endpoints are all zero, as after adding them. *)
Definition rested l : Prop := ∀ e, e ∈ _healthy_list l → cur l (name e) == 0.

Lemma rested_balanced l :
  _healthy_list l ≠ [] → (∀ e, e ∈ _healthy_list l → 0 < weight e) → rested l →
  balanced (_healthy_list l) l.
Proof.
  intros Hne Hw Hr. split.
  - rewrite (fsum_ext _ (λ _, f0)); [by rewrite fsum_zero|]. intros e He. by rewrite (Hr e He).
  - intros e He. rewrite (Hr e He). pose proof (total_positive _ Hne Hw). qf. lra.
Qed.

Lemma wrr_quota r k l :
  lb_ok l → _healthy_list l ≠ [] → (∀ e, e ∈ _healthy_list l → 0 < weight e) → rested l →
  ∃ bs, (selections WEIGHTED_ROUND_ROBIN r k l).1 = Ok <$> bs ∧ length bs = k ∧
    (∀ b, b ∈ bs → b ∈ _healthy_list l) ∧
    ∀ e, e ∈ _healthy_list l →
      inject_Z (picked (name e) bs) * total (_healthy_list l) <
      inject_Z (Z.of_nat k) * weight e + total (_healthy_list l).
Proof.
  intros Hok Hne Hw Hr.
  destruct (selections_wrr r k l _ Hne eq_refl (healthy_NoDup l Hok) Hw
    (rested_balanced l Hne Hw Hr)) as (bs & Hbs & Hlen & Hin & [_ Hlow] & Hc).
  exists bs. split_and!; [done..|]. intros e He. specialize (Hlow e He).
  rewrite (Hc e He), (Hr e He) in Hlow.
  set (W := total _) in *. clearbody W. clear -Hlow. qf. lra.
Qed.

(** No endpoint runs ahead of its share: after any number [k] of weighted
    selections from rest, each healthy endpoint was selected fewer than
    [k * weight / total + 1] times. *)
Theorem wrr_share r k l :
  lb_ok l → _healthy_list l ≠ [] → (∀ e, e ∈ _healthy_list l → 0 < weight e) → rested l →
  ∃ bs, (selections WEIGHTED_ROUND_ROBIN r k l).1 = Ok <$> bs ∧ length bs = k ∧
    ∀ e, e ∈ _healthy_list l →
      inject_Z (picked (name e) bs) <
      inject_Z (Z.of_nat k) * weight e / total (_healthy_list l) + 1.
Proof.
  intros Hok Hne Hw Hr. destruct (wrr_quota r k l Hok Hne Hw Hr) as (bs & ? & ? & _ & Hq).
  exists bs. split_and!; [done..|]. intros e He. specialize (Hq e He).
  pose proof (total_positive _ Hne Hw) as HW. set (W := total _) in *. clearbody W.
  apply Qmult_lt_r with W; [exact HW|].
  assert (E : (inject_Z (Z.of_nat k) * weight e / W + 1) * W ==
    inject_Z (Z.of_nat k) * weight e + W).
  { qf. field. intros E. rewrite E in HW. by apply Qlt_irrefl in HW. }
  by rewrite E.
Qed.

Lemma sum_picked hs bs :
  NoDup (name <$> hs) → (∀ b, b ∈ bs → b ∈ hs) →
  foldr Z.add 0%Z ((λ e, picked (name e) bs) <$> hs) = Z.of_nat (length bs).
Proof.
  intros Hnd. induction bs as [|b bs IH]; intros Hin.
  { clear. induction hs as [|e hs IH]; [done|]. csimpl. by rewrite IH. }
  cbn [length]. rewrite Nat2Z.inj_succ, <-IH by (intros; apply Hin; by right).
  assert (Hb : b ∈ hs) by (apply Hin; left). clear IH Hin.
  induction hs as [|e hs IH]; [by apply elem_of_nil in Hb|].
  rewrite fmap_cons in *. apply NoDup_cons in Hnd as [Hne Hnd]. csimpl.
  assert (Hp : ∀ n, picked n (b :: bs) = ((if decide (n = name b) then 1 else 0) + picked n bs)%Z).
  { intros n. unfold picked. rewrite filter_cons. repeat case_decide; try congruence; simpl; lia. }
  apply elem_of_cons in Hb as [->|Hb].
  - rewrite Hp, decide_True by done.
    assert (E : (λ e0, picked (name e0) (e :: bs)) <$> hs = (λ e0, picked (name e0) bs) <$> hs).
    { apply list_fmap_ext. intros i e' He'. rewrite Hp, decide_False; [done|].
      intros E. apply Hne. rewrite <-E. apply list_elem_of_fmap.
      exists e'. split; [done|]. by eapply list_elem_of_lookup_2. }
    rewrite E. lia.
  - rewrite IH by done. rewrite Hp, decide_False; [lia|].
    intros E. apply Hne. rewrite E. apply list_elem_of_fmap. by exists b.
Qed.

Lemma sum_tight hs (p w : ServiceEndpoint → Z) :
  (∀ e, e ∈ hs → (p e <= w e)%Z) →
  foldr Z.add 0%Z (p <$> hs) = foldr Z.add 0%Z (w <$> hs) → ∀ e, e ∈ hs → p e = w e.
Proof.
  induction hs as [|e hs IH]; intros Hle Hs e' He'; [by apply elem_of_nil in He'|].
  csimpl in Hs.
  assert (Hrest : (foldr Z.add 0 (p <$> hs) <= foldr Z.add 0 (w <$> hs))%Z).
  { assert (Hle' : ∀ e, e ∈ hs → (p e <= w e)%Z) by (intros; apply Hle; by right).
    clear -Hle'. induction hs as [|x hs IH]; [done|]. csimpl.
    pose proof (Hle' x ltac:(left)). specialize (IH ltac:(intros; apply Hle'; by right)). lia. }
  pose proof (Hle e ltac:(left)).
  apply elem_of_cons in He' as [->|He']; [lia|].
  apply IH; [intros; apply Hle; by right|lia|done].
Qed.

(** C6. Exact proportions: when the weights are whole numbers, every cycle of as
    many weighted selections as their total, from rest, selects each healthy
    endpoint exactly as many times as its weight. *)
Theorem wrr_exact r l (wz : ServiceEndpoint → Z) :
  lb_ok l → _healthy_list l ≠ [] → rested l →
  (∀ e, e ∈ _healthy_list l → weight e = inject_Z (wz e) ∧ (0 < wz e)%Z) →
  let cycle := foldr Z.add 0%Z (wz <$> _healthy_list l) in
  ∃ bs, (selections WEIGHTED_ROUND_ROBIN r (Z.to_nat cycle) l).1 = Ok <$> bs ∧
    ∀ e, e ∈ _healthy_list l → picked (name e) bs = wz e.
Proof.
  intros Hok Hne Hr Hwz cycle.
  assert (Hw : ∀ e, e ∈ _healthy_list l → 0 < weight e).
  { intros e He. destruct (Hwz e He) as [-> Hp]. by rewrite (Zlt_Qlt 0) in Hp. }
  destruct (wrr_quota r (Z.to_nat cycle) l Hok Hne Hw Hr) as (bs & Hbs & Hlen & Hin & Hq).
  exists bs. split; [done|].
  assert (HW : total (_healthy_list l) == inject_Z cycle).
  { unfold total, cycle. clear -Hwz. induction (_healthy_list l) as [|e hs IH]; [done|].
    rewrite !fmap_cons, fsum_cons. simpl. rewrite inject_Z_plus, IH by (intros; apply Hwz; by right).
    by destruct (Hwz e ltac:(left)) as [-> _]. }
  pose proof (total_positive _ Hne Hw) as Hpos. rewrite HW in Hpos.
  change 0 with (inject_Z 0) in Hpos. rewrite <-Zlt_Qlt in Hpos.
  apply (sum_tight (_healthy_list l) (λ e, picked (name e) bs)).
  - intros e He. specialize (Hq e He). destruct (Hwz e He) as [Hwe _].
    rewrite Hwe, HW in Hq. rewrite Z2Nat.id in Hq by lia.
    rewrite <-!inject_Z_mult, <-inject_Z_plus, <-Zlt_Qlt in Hq. nia.
  - rewrite (sum_picked _ _ (healthy_NoDup l Hok) Hin), Hlen. fold cycle. lia.
Qed.
End wrr.

(** ** Witnesses *)
Section witnesses.
#[local] Existing Instance QF.

Definition ex_a : ServiceEndpoint := mkEndpoint "a" "h" 80 (fofZ 2) true.
Definition ex_b : ServiceEndpoint := mkEndpoint "b" "h" 81 (fofZ 1) true.
Definition ex_lb : LoadBalancer := add_endpoint ex_b (add_endpoint ex_a new_lb).

Lemma ex_lb_ok : lb_ok ex_lb.
Proof. apply (lb_step_ok (Add ex_b)), (lb_step_ok (Add ex_a)), new_lb_ok. Qed.

Lemma ex_healthy : _healthy_list ex_lb = [ex_a; ex_b].
Proof. reflexivity. Qed.

Lemma ex_rested : rested ex_lb.
Proof.
  intros e. rewrite ex_healthy. intros He.
  apply elem_of_cons in He as [->|He]; [reflexivity|].
  apply list_elem_of_singleton in He as ->. reflexivity.
Qed.

Definition ex_whole (e : ServiceEndpoint) : Z := if decide (name e = "a") then 2 else 1.

Lemma select_sound_witness :
  dget ex_lb.(_endpoints) "a" = Some ex_a.
Proof.
  exact (proj1 (select_sound ROUND_ROBIN (λ _, 0) ex_lb ex_lb_ok
    (λ k Hk, conj (Z.le_refl 0) Hk))).
Defined.

Lemma ex_weights e : e ∈ _healthy_list ex_lb → weight e = inject_Z (ex_whole e) ∧ 0 < ex_whole e.
Proof.
  rewrite ex_healthy. intros He. apply elem_of_cons in He as [->|He]; [done|].
  by apply list_elem_of_singleton in He as ->.
Qed.

Lemma wrr_exact_witness :
  ∃ bs, (selections WEIGHTED_ROUND_ROBIN (λ _, 0) 3 ex_lb).1 = Ok <$> bs ∧
    ∀ e, e ∈ _healthy_list ex_lb → picked (name e) bs = ex_whole e.
Proof. exact (wrr_exact (λ _, 0) ex_lb ex_whole ex_lb_ok ltac:(done) ex_rested ex_weights). Defined.

Lemma ex_positive e : e ∈ _healthy_list ex_lb → (0 < weight e)%Q.
Proof. intros He. destruct (ex_weights e He) as [-> H]. by rewrite (Zlt_Qlt 0) in H. Qed.

Lemma wrr_share_witness :
  ∃ bs, (selections WEIGHTED_ROUND_ROBIN (λ _, 0) 5 ex_lb).1 = Ok <$> bs ∧ length bs = 5%nat.
Proof.
  destruct (wrr_share (λ _, 0) 5 ex_lb ex_lb_ok ltac:(done) ex_positive ex_rested)
    as (bs & H1 & H2 & _). exists bs. by split.
Defined.
End witnesses.
