(* ===== verification/HealthCheck.v ===== *)
(** * Health probes ([resilience/health_check.py])

    The checker keeps, per endpoint name, a bounded history of results and two
    counters of consecutive outcomes.  A probe is what it does: nothing, or an
    exception with its type and text; the clock readings are arguments. *)
From stdpp Require Import base list strings.
From Stdlib Require Import ZArith Lia.
From S2P Require Import Prelude PyDict PyFloat ServiceBalancer.
#[local] Open Scope Z_scope.

Inductive HealthStatus : Type := HEALTHY | UNHEALTHY | DEGRADED | UNKNOWN.

#[export] Instance HealthStatus_eq_dec : EqDecision HealthStatus.
Proof. solve_decision. Defined.

Section health.
Context {F : PyFloat}.

Record HealthCheckConfig : Type := mkHConfig {
  interval_seconds : float;
  timeout_seconds : float;
  healthy_threshold : Z;
  unhealthy_threshold : Z;
  max_history : Z;
}.

Inductive HConfigError : Type :=
  | BadInterval | BadTimeout | BadHealthy | BadUnhealthy | BadHistory.

(** [HealthCheckConfig.__post_init__] *)
Definition new_hconfig (i t : float) (h u m : Z) : result HConfigError HealthCheckConfig :=
  if fleb i f0 then Raise BadInterval
  else if fleb t f0 then Raise BadTimeout
  else if h <? 1 then Raise BadHealthy
  else if u <? 1 then Raise BadUnhealthy
  else if m <? 1 then Raise BadHistory
  else Ok (mkHConfig i t h u m).

(** [error_details]: empty, the probe's exception, or the timeout, whose message
    is a rendering of the two numbers. *)
Inductive details : Type :=
  | NoDetails
  | ProbeError (error_type error_message : string)
  | TimedOut (limit_ms took_ms : float).

Record HealthCheckResult : Type := mkHResult {
  endpoint_name : string;
  status : HealthStatus;
  latency_ms : float;
  checked_at : float;
  res_details : details;
}.

Record HealthChecker : Type := mkChecker {
  _history : dict (list HealthCheckResult);
  _consecutive_successes : dict Z;
  _consecutive_failures : dict Z;
}.

Context (cfg : HealthCheckConfig).
Implicit Types (c : HealthChecker) (n : string).

Definition new_checker : HealthChecker := mkChecker [] [] [].

Definition _last_status n c : HealthStatus :=
  match dget c.(_history) n with
  | None => UNKNOWN
  | Some h => match last h with Some r => r.(status) | None => UNKNOWN end
  end.

Definition bump n (success : bool) c : HealthChecker :=
  if success then
    mkChecker c.(_history)
      (dset c.(_consecutive_successes) n (get0 c.(_consecutive_successes) n + 1))
      (dset c.(_consecutive_failures) n 0)
  else
    mkChecker c.(_history) (dset c.(_consecutive_successes) n 0)
      (dset c.(_consecutive_failures) n (get0 c.(_consecutive_failures) n + 1)).

Definition _compute_status n (success : bool) c : HealthStatus * HealthChecker :=
  let c := bump n success c in
  let consec_failures := get0 c.(_consecutive_failures) n in
  let consec_successes := get0 c.(_consecutive_successes) n in
  (match _last_status n c with
   | UNKNOWN => if success then HEALTHY else UNHEALTHY
   | HEALTHY | DEGRADED =>
       if negb success && (cfg.(unhealthy_threshold) <=? consec_failures) then UNHEALTHY
       else if negb success then DEGRADED
       else HEALTHY
   | UNHEALTHY =>
       if success && (cfg.(healthy_threshold) <=? consec_successes) then HEALTHY
       else if success then DEGRADED
       else UNHEALTHY
   end, c).

(** [deque(maxlen=m).append] *)
Definition bounded_append {A} (m : Z) (l : list A) (x : A) : list A :=
  drop (length (l ++ [x]) - Z.to_nat m) (l ++ [x]).

Definition _record n (r : HealthCheckResult) c : HealthChecker :=
  mkChecker
    (dset c.(_history) n (bounded_append cfg.(max_history) (default [] (dget c.(_history) n)) r))
    c.(_consecutive_successes) c.(_consecutive_failures).

(** One probe: the exception it raised, if any, the monotonic clock before and
    after it, and the wall clock. *)
Record probe_run : Type := mkProbe {
  raised : option (string * string);
  started : float;
  finished : float;
  wall : float;
}.

Definition ms1000 : float := fofZ 1000.

Definition check (ep : ServiceEndpoint) (p : probe_run) c : HealthCheckResult * HealthChecker :=
  let elapsed_ms := fmul (fsub p.(finished) p.(started)) ms1000 in
  let '(failed, det) :=
    match p.(raised) with
    | Some (ty, msg) => (true, ProbeError ty msg)
    | None =>
        let limit := fmul cfg.(timeout_seconds) ms1000 in
        if fltb limit elapsed_ms then (true, TimedOut limit elapsed_ms) else (false, NoDetails)
    end in
  let '(st, c1) := _compute_status ep.(name) (negb failed) c in
  let r := mkHResult ep.(name) st elapsed_ms p.(wall) det in
  (r, _record ep.(name) r c1).

Definition check_all (eps : list (ServiceEndpoint * probe_run)) c
    : list HealthCheckResult * HealthChecker :=
  fold_left (λ rc ep, let '(r, c') := check ep.1 ep.2 rc.2 in (rc.1 ++ [r], c')) eps ([], c).

Definition history n c : list HealthCheckResult := default [] (dget c.(_history) n).

Definition clear_history (on : option string) c : HealthChecker :=
  match on with
  | Some n => mkChecker (ddel c.(_history) n) (ddel c.(_consecutive_successes) n)
      (ddel c.(_consecutive_failures) n)
  | None => new_checker
  end.

Inductive health_op : Type :=
  | Check (ep : ServiceEndpoint) (p : probe_run)
  | Clear (on : option string).

Definition health_step (o : health_op) c : HealthChecker :=
  match o with Check ep p => (check ep p c).2 | Clear on => clear_history on c end.

Definition hconfig_ok : Prop :=
  1 ≤ cfg.(healthy_threshold) ∧ 1 ≤ cfg.(unhealthy_threshold) ∧ 1 ≤ cfg.(max_history).

(** Histories are bounded and never empty, and at most one of an endpoint's
    counters is running. *)
Definition checker_ok c : Prop :=
  dwf c.(_history) ∧ dwf c.(_consecutive_successes) ∧ dwf c.(_consecutive_failures) ∧
  ∀ n, Z.of_nat (length (history n c)) ≤ cfg.(max_history) ∧
    0 ≤ get0 c.(_consecutive_successes) n ∧ 0 ≤ get0 c.(_consecutive_failures) n ∧
    (get0 c.(_consecutive_successes) n = 0 ∨ get0 c.(_consecutive_failures) n = 0) ∧
    dget c.(_history) n ≠ Some [].

(** Probing an endpoint with the given outcomes, oldest first: the statuses. *)
Fixpoint probes (ep : ServiceEndpoint) (ps : list probe_run) c
    : list HealthStatus * HealthChecker :=
  match ps with
  | [] => ([], c)
  | p :: ps' =>
      let '(r, c1) := check ep p c in
      let '(rs, c2) := probes ep ps' c1 in (r.(status) :: rs, c2)
  end.

(** The probe neither raised nor took too long. *)
Definition succeeded (p : probe_run) : bool :=
  match p.(raised) with
  | Some _ => false
  | None => negb (fltb (fmul cfg.(timeout_seconds) ms1000)
      (fmul (fsub p.(finished) p.(started)) ms1000))
  end.
End health.

Section lemmas.
Context {F : PyFloat} (cfg : HealthCheckConfig).
Implicit Types (c : HealthChecker) (n : string).

Lemma length_bounded_append {A} m (l : list A) x :
  1 ≤ m → Z.of_nat (length (bounded_append m l x)) ≤ m ∧ last (bounded_append m l x) = Some x.
Proof.
  intros Hm. unfold bounded_append. rewrite length_drop, length_app. simpl. split; [lia|].
  rewrite drop_app_le by lia. by rewrite last_snoc.
Qed.

(** What a check does, in terms of its outcome. *)
Lemma check_spec ep p c :
  hconfig_ok cfg →
  let '(r, c') := check cfg ep p c in
  r.(status) = (_compute_status cfg ep.(name) (succeeded cfg p) c).1 ∧
  _last_status ep.(name) c' = r.(status) ∧
  (∀ n, get0 c'.(_consecutive_successes) n = if decide (n = ep.(name))
     then (if succeeded cfg p then get0 c.(_consecutive_successes) n + 1 else 0)
     else get0 c.(_consecutive_successes) n) ∧
  (∀ n, get0 c'.(_consecutive_failures) n = if decide (n = ep.(name))
     then (if succeeded cfg p then 0 else get0 c.(_consecutive_failures) n + 1)
     else get0 c.(_consecutive_failures) n) ∧
  c'.(_history) = dset c.(_history) ep.(name)
    (bounded_append cfg.(max_history) (history ep.(name) c) r) ∧
  (dwf c.(_consecutive_successes) → dwf c'.(_consecutive_successes)) ∧
  (dwf c.(_consecutive_failures) → dwf c'.(_consecutive_failures)).
Proof.
  intros (_&_&Hm). unfold check.
  set (fd := match p.(raised) with Some (ty, msg) => (true, ProbeError ty msg) | None =>
    if fltb (fmul (timeout_seconds cfg) ms1000) (fmul (fsub (finished p) (started p)) ms1000)
    then (true, TimedOut (fmul (timeout_seconds cfg) ms1000)
      (fmul (fsub (finished p) (started p)) ms1000)) else (false, NoDetails) end).
  assert (Hfd : negb fd.1 = succeeded cfg p).
  { unfold fd, succeeded. destruct (raised p) as [[??]|]; [done|]. by destruct (fltb _ _). }
  clearbody fd. destruct fd as [failed det]. simpl in Hfd. rewrite Hfd. clear Hfd.
  unfold _compute_status. cbn [fst snd].
  destruct (length_bounded_append (max_history cfg) (history (name ep) c)
    (mkHResult (name ep) (match _last_status (name ep) (bump (name ep) (succeeded cfg p) c) with
      | UNKNOWN => if succeeded cfg p then HEALTHY else UNHEALTHY
      | HEALTHY | DEGRADED => if negb (succeeded cfg p) && (unhealthy_threshold cfg <=?
          get0 (_consecutive_failures (bump (name ep) (succeeded cfg p) c)) (name ep))
          then UNHEALTHY else if negb (succeeded cfg p) then DEGRADED else HEALTHY
      | UNHEALTHY => if succeeded cfg p && (healthy_threshold cfg <=?
          get0 (_consecutive_successes (bump (name ep) (succeeded cfg p) c)) (name ep))
          then HEALTHY else if succeeded cfg p then DEGRADED else UNHEALTHY
      end) (fmul (fsub (finished p) (started p)) ms1000) (wall p) det) Hm) as [_ Hlast].
  assert (Hh : (bump (name ep) (succeeded cfg p) c).(_history) = c.(_history))
    by by destruct (succeeded cfg p).
  split_and!; simpl.
  - done.
  - unfold _last_status at 1. simpl. rewrite dget_set_eq, Hh. fold (history (name ep) c).
    by rewrite Hlast.
  - intros n. destruct (succeeded cfg p); simpl; rewrite get0_set; by case_decide; subst.
  - intros n. destruct (succeeded cfg p); simpl; rewrite get0_set; by case_decide; subst.
  - by rewrite Hh.
  - intros. destruct (succeeded cfg p); simpl; auto with py.
  - intros. destruct (succeeded cfg p); simpl; auto with py.
Qed.

Lemma check_ok ep p c : hconfig_ok cfg → checker_ok cfg c → checker_ok cfg (check cfg ep p c).2.
Proof.
  intros Hcfg (Hh & Hs & Hf & Hn). pose proof (check_spec ep p c Hcfg) as H.
  destruct (check cfg ep p c) as [r c']. destruct H as (_ & _ & Hsc & Hfc & Hhist & Hsw & Hfw).
  destruct Hcfg as (_&_&Hm). simpl.
  split_and!; [rewrite Hhist; auto with py|by apply Hsw|by apply Hfw|].
  intros n. destruct (Hn n) as (H1 & H2 & H3 & H4 & H5). rewrite Hsc, Hfc. unfold history.
  rewrite Hhist, dget_set.
  destruct (length_bounded_append (max_history cfg) (history (name ep) c) r Hm) as [Hlen Hlast].
  case_decide as E; [subst n|by split_and!].
  split_and!; simpl; [done|destruct (succeeded cfg p); lia|destruct (succeeded cfg p); lia| |].
  - destruct (succeeded cfg p); [by right|by left].
  - intros [= E]. by rewrite E in Hlast.
Qed.

Lemma new_checker_ok : 1 ≤ cfg.(max_history) → checker_ok cfg new_checker.
Proof.
  intros Hm. split_and!; simpl; auto with py. intros n. unfold history, get0. simpl.
  split_and!; try lia; done.
Qed.

Lemma clear_history_ok on c : 1 ≤ cfg.(max_history) → checker_ok cfg c → checker_ok cfg (clear_history on c).
Proof.
  intros Hm (Hh & Hs & Hf & Hn). destruct on as [k|]; simpl.
  - split_and!; simpl; auto with py. intros n. destruct (Hn n) as (H1 & H2 & H3 & H4 & H5).
    unfold history, get0 in *. simpl. rewrite !dget_del by done.
    case_decide; [simpl; split_and!; try lia; done|done].
  - by apply new_checker_ok.
Qed.
End lemmas.

(** Whatever the probes, a checker built from a valid configuration keeps at most
    [max_history] results per endpoint, its counters are not negative, and an
    endpoint never has both a running success and a running failure count. *)
Theorem checker_reachable_ok {F : PyFloat} i t h u m cfg os :
  new_hconfig i t h u m = Ok cfg →
  checker_ok cfg (fold_left (λ c o, health_step cfg o c) os new_checker).
Proof.
  unfold new_hconfig. intros H.
  assert (Hcfg : hconfig_ok cfg).
  { repeat (case_match; [done|]). simplify_eq. unfold hconfig_ok; simpl. bool_simpl. lia. }
  pose proof (new_checker_ok cfg (proj2 (proj2 Hcfg))) as H0. revert H0. generalize (new_checker (F:=F)).
  induction os as [|o os IH]; intros c Hc; simpl; [done|]. apply IH.
  destruct o; [by apply check_ok|]. apply clear_history_ok; [apply Hcfg|done].
Qed.

(** ** Status changes *)
Section behaviour.
Context {F : PyFloat} (cfg : HealthCheckConfig) (Hcfg : hconfig_ok cfg).
Implicit Types (c : HealthChecker) (n : string).

(** The failing probes before and after the threshold. *)
Lemma failing_run ep ps c f :
  Forall (λ p, succeeded cfg p = false) ps →
  get0 c.(_consecutive_failures) ep.(name) = f →
  (_last_status ep.(name) c = HEALTHY ∨ _last_status ep.(name) c = DEGRADED ∨
   _last_status ep.(name) c = UNHEALTHY ∧ cfg.(unhealthy_threshold) ≤ f) →
  (probes cfg ep ps c).1 = (λ i, if cfg.(unhealthy_threshold) <=? f + Z.of_nat i + 1
    then UNHEALTHY else DEGRADED) <$> seq 0 (length ps).
Proof.
  intros Hps. revert c f. induction Hps as [|p ps Hp _ IH]; intros c f Hf Hst; [done|].
  cbn [probes]. pose proof (check_spec cfg ep p c Hcfg) as H.
  destruct (check cfg ep p c) as [r c1]. destruct H as (Hr & Hlast & _ & Hfc & _).
  rewrite Hp in Hr. specialize (Hfc ep.(name)). rewrite decide_True, Hp, Hf in Hfc by done.
  assert (Hres : r.(status) = if cfg.(unhealthy_threshold) <=? f + 1 then UNHEALTHY else DEGRADED).
  { rewrite Hr. unfold _compute_status. cbn [fst bump].
    change (_last_status (name ep) (mkChecker (_history c) _ _)) with (_last_status (name ep) c).
    cbn [_consecutive_failures]. rewrite get0_set, decide_True, Hf by done. simpl.
    destruct Hst as [->|[->|[-> Hge]]]; [by destruct (_ <=? _)..|].
    by destruct (Z.leb_spec (unhealthy_threshold cfg) (f + 1)); [|lia]. }
  specialize (IH c1 (f + 1) Hfc). destruct (probes cfg ep ps c1) as [rs c2]. cbn [fst] in *.
  rewrite IH.
  - cbn [length seq fmap list_fmap]. rewrite <-fmap_S_seq, <-list_fmap_compose. f_equal.
    + by rewrite Hres, Z.add_0_r.
    + apply list_fmap_ext. intros i x _. simpl.
      by replace (f + 1 + Z.of_nat x + 1) with (f + Z.of_nat (S x) + 1) by lia.
  - rewrite Hlast, Hres. destruct (Z.leb_spec (unhealthy_threshold cfg) (f + 1)); auto.
Qed.

(** An endpoint that was healthy is reported DEGRADED for each failing probe
    before the [unhealthy_threshold]-th in a row, and UNHEALTHY from that one on. *)
Theorem degrades_then_unhealthy ep ps c :
  Forall (λ p, succeeded cfg p = false) ps →
  _last_status ep.(name) c = HEALTHY → get0 c.(_consecutive_failures) ep.(name) = 0 →
  (probes cfg ep ps c).1 = (λ i, if cfg.(unhealthy_threshold) <=? Z.of_nat i + 1
    then UNHEALTHY else DEGRADED) <$> seq 0 (length ps).
Proof. intros Hps Hst Hf. rewrite (failing_run ep ps c 0 Hps Hf); auto. Qed.

(** The way back ignores the threshold: whatever [healthy_threshold] above one, an
    UNHEALTHY endpoint is DEGRADED after one success and HEALTHY after the second,
    because a DEGRADED endpoint needs only one. *)
Theorem recovery_ignores_threshold ep p1 p2 c :
  2 ≤ cfg.(healthy_threshold) →
  _last_status ep.(name) c = UNHEALTHY → get0 c.(_consecutive_successes) ep.(name) = 0 →
  succeeded cfg p1 = true → succeeded cfg p2 = true →
  (probes cfg ep [p1; p2] c).1 = [DEGRADED; HEALTHY].
Proof.
  intros Ht Hst Hs H1 H2. cbn [probes].
  pose proof (check_spec cfg ep p1 c Hcfg) as C1. destruct (check cfg ep p1 c) as [r1 c1].
  destruct C1 as (Hr1 & Hl1 & _). rewrite H1 in Hr1.
  assert (E1 : r1.(status) = DEGRADED).
  { rewrite Hr1. unfold _compute_status. cbn [fst bump].
    change (_last_status (name ep) (mkChecker (_history c) _ _)) with (_last_status (name ep) c).
    rewrite Hst. cbn [_consecutive_successes]. rewrite get0_set, decide_True, Hs by done. simpl.
    by destruct (Z.leb_spec (healthy_threshold cfg) (0 + 1)); [lia|]. }
  pose proof (check_spec cfg ep p2 c1 Hcfg) as C2. destruct (check cfg ep p2 c1) as [r2 c2].
  destruct C2 as (Hr2 & _). rewrite H2 in Hr2.
  assert (E2 : r2.(status) = HEALTHY).
  { rewrite Hr2. unfold _compute_status. cbn [fst bump].
    change (_last_status (name ep) (mkChecker (_history c1) _ _)) with (_last_status (name ep) c1).
    by rewrite Hl1, E1. }
  cbn [fst]. by rewrite E1, E2.
Qed.
End behaviour.

Section witnesses.
#[local] Existing Instance B64.

Definition ex_hconfig : HealthCheckConfig := mkHConfig (fofZ 30) (fofZ 5) 5 3 100.

Lemma ex_hconfig_ok : hconfig_ok ex_hconfig.
Proof. unfold hconfig_ok. simpl. lia. Qed.

Definition ex_ep : ServiceEndpoint := mkEndpoint "api" "h" 80 f1 true.
Definition ex_good : probe_run := mkProbe None f0 f1 f0.
Definition ex_bad : probe_run := mkProbe (Some ("E", "down")) f0 f1 f0.
Definition ex_slow : probe_run := mkProbe None f0 (fofZ 6) f0.

Definition ex_checker (s : HealthStatus) : HealthChecker :=
  mkChecker [("api", [mkHResult "api" s f0 f0 NoDetails])] [] [].

Lemma checker_reachable_ok_witness :
  checker_ok ex_hconfig (fold_left (λ c o, health_step ex_hconfig o c)
    [Check ex_ep ex_good; Check ex_ep ex_slow; Clear (Some "api")] new_checker).
Proof. exact (checker_reachable_ok (fofZ 30) (fofZ 5) 5 3 100 ex_hconfig _ eq_refl). Defined.

Lemma ex_failing : Forall (λ p, succeeded ex_hconfig p = false) [ex_bad; ex_slow; ex_bad].
Proof. repeat constructor. Qed.

Lemma degrades_then_unhealthy_witness :
  (probes ex_hconfig ex_ep [ex_bad; ex_slow; ex_bad] (ex_checker HEALTHY)).1 =
    [DEGRADED; DEGRADED; UNHEALTHY].
Proof.
  exact (degrades_then_unhealthy ex_hconfig ex_hconfig_ok ex_ep [ex_bad; ex_slow; ex_bad]
    (ex_checker HEALTHY) ex_failing eq_refl eq_refl).
Defined.

Lemma recovery_ignores_threshold_witness :
  (probes ex_hconfig ex_ep [ex_good; ex_good] (ex_checker UNHEALTHY)).1 = [DEGRADED; HEALTHY].
Proof.
  exact (recovery_ignores_threshold ex_hconfig ex_hconfig_ok ex_ep ex_good ex_good
    (ex_checker UNHEALTHY) ltac:(simpl; lia) eq_refl eq_refl eq_refl eq_refl).
Defined.
End witnesses.
