(* ===== verification/Retry.v ===== *)
(** * Retries and recovery probes ([resilience/retry.py],
      [resilience/recovery_tester.py])

    A callable is a transformer of a world [W] that returns, raises an [Exception]
    or raises another [BaseException].  [fpow] is Python's [x ** n], that is C's
    [pow], [None] standing for its [OverflowError]; [rnd i] is the i-th draw of
    [random.random()]. *)
From stdpp Require Import base list sorting strings.
From Stdlib Require Import ZArith QArith Qpower SpecFloat Lqa Lia.
From S2P Require Import Prelude PyDict PyFloat PySort.
#[local] Close Scope Q_scope.
#[local] Open Scope Z_scope.

(** What a call does; [E] is the type of exceptions. *)
Inductive called (T E : Type) : Type :=
  | Returns (t : T)
  | Raises (e : E)
  | RaisesBase (e : E).
Arguments Returns {T E} t.
Arguments Raises {T E} e.
Arguments RaisesBase {T E} e.

Section retry.
Context {F : PyFloat} {T E W : Type}.

Record RetryConfig : Type := mkRetry {
  max_retries : Z;
  base_delay_seconds : float;
  max_delay_seconds : float;
  exponential_base : float;
  jitter : bool;
}.

Inductive RetryConfigError : Type := BadRetries | BadBaseDelay | BadMaxDelay | BadExponent.

(** [RetryConfig.__post_init__] *)
Definition new_retry (mr : Z) (bd md eb : float) (j : bool)
    : result RetryConfigError RetryConfig :=
  if mr <? 0 then Raise BadRetries
  else if fltb bd f0 then Raise BadBaseDelay
  else if fltb md bd then Raise BadMaxDelay
  else if fltb eb f1 then Raise BadExponent
  else Ok (mkRetry mr bd md eb j).

Context (cfg : RetryConfig) (fpow : float → Z → option float).

(** [random.uniform(a, b)] for the draw [r]. *)
Definition uniform (a b r : float) : float := fadd a (fmul (fsub b a) r).

(** [_compute_delay]; [None] is the [OverflowError] of the power. *)
Definition _compute_delay (attempt : Z) (r : float) : option float :=
  match fpow cfg.(exponential_base) attempt with
  | None => None
  | Some p =>
      let raw := fmin (fmul cfg.(base_delay_seconds) p) cfg.(max_delay_seconds) in
      Some (if cfg.(jitter) then uniform f0 raw r else raw)
  end.

Inductive retry_result : Type :=
  | Value (t : T)
  | RetryExhaustedError (attempts : Z) (last_error : E)
  | Propagated (e : E)          (* a BaseException of the callable *)
  | DelayOverflow.              (* the OverflowError of the delay *)

Context (fn : W → called T E * W).

(** The loop of [execute] and [execute_async], from [attempt]: the result, the
    delays slept, and the world. *)
Fixpoint retry_loop (fuel : nat) (rnd : Z → float) (attempt : Z) (w : W)
    : option (retry_result * list float * W) :=
  match fuel with
  | O => None
  | S fuel' =>
      let total_attempts := cfg.(max_retries) + 1 in
      match fn w with
      | (Returns t, w1) => Some (Value t, [], w1)
      | (RaisesBase e, w1) => Some (Propagated e, [], w1)
      | (Raises e, w1) =>
          let remaining := total_attempts - attempt - 1 in
          if 0 <? remaining then
            match _compute_delay attempt (rnd attempt) with
            | None => Some (DelayOverflow, [], w1)
            | Some d =>
                match retry_loop fuel' rnd (attempt + 1) w1 with
                | Some (r, ds, w2) => Some (r, d :: ds, w2)
                | None => None
                end
            end
          else Some (RetryExhaustedError total_attempts e, [], w1)
      end
  end.

(** One round per element of [range(total_attempts)]. *)
Definition execute (rnd : Z → float) (w : W) : option (retry_result * list float * W) :=
  retry_loop (Z.to_nat (cfg.(max_retries) + 1)) rnd 0 w.

Definition execute_async (rnd : Z → float) (w : W) : option (retry_result * list float * W) :=
  retry_loop (Z.to_nat (cfg.(max_retries) + 1)) rnd 0 w.

(** The world after [n] calls. *)
Definition after_calls (n : nat) (w : W) : W := Nat.iter n (λ w, (fn w).2) w.

(** The first [n] calls raise an [Exception]. *)
Definition raises_first (n : nat) (w : W) : Prop :=
  ∀ i, (i < n)%nat → ∃ e, (fn (after_calls i w)).1 = Raises e.

Lemma retry_loop_spec n fuel rnd attempt w :
  Z.of_nat fuel = cfg.(max_retries) + 1 - attempt → Z.of_nat n < Z.of_nat fuel →
  raises_first n w → (∀ k, fpow cfg.(exponential_base) k ≠ None) →
  let delays := omap (λ i, _compute_delay (attempt + Z.of_nat i) (rnd (attempt + Z.of_nat i)))
    (seq 0 n) in
  match (fn (after_calls n w)).1 with
  | Returns t =>
      retry_loop fuel rnd attempt w = Some (Value t, delays, after_calls (S n) w)
  | RaisesBase e =>
      retry_loop fuel rnd attempt w = Some (Propagated e, delays, after_calls (S n) w)
  | Raises e => Z.of_nat n + 1 = Z.of_nat fuel →
      retry_loop fuel rnd attempt w =
        Some (RetryExhaustedError (cfg.(max_retries) + 1) e, delays, after_calls (S n) w)
  end.
Proof.
  intros Hf Hn Hr Hpow. revert n attempt w Hf Hn Hr.
  induction fuel as [|fuel IH]; intros n attempt w Hf Hn Hr; [lia|].
  destruct n as [|n].
  - cbn [after_calls Nat.iter retry_loop omap list_omap seq]. unfold after_calls. simpl.
    destruct (fn w) as [[t|e|e] w1]; simpl; try done.
    intros Hfu. destruct (Z.ltb_spec 0 (max_retries cfg + 1 - attempt - 1)); [lia|done].
  - destruct (Hr 0%nat ltac:(lia)) as [e0 He0]. change (after_calls 0 w) with w in He0.
    assert (Hsh : ∀ i, after_calls (S i) w = after_calls i (fn w).2).
    { intros i. unfold after_calls. by rewrite Nat.iter_succ_r. }
    specialize (IH n (attempt + 1) (fn w).2 ltac:(lia) ltac:(lia)).
    assert (Hr' : raises_first n (fn w).2).
    { intros i Hi. rewrite <-Hsh. apply Hr. lia. }
    specialize (IH Hr'). cbn [retry_loop]. rewrite !Hsh.
    destruct (fn w) as [o w1] eqn:Hfw. simpl in He0. subst o. cbn [snd] in *.
    destruct (Z.ltb_spec 0 (max_retries cfg + 1 - attempt - 1)); [|lia].
    assert (Hd : ∃ d, _compute_delay attempt (rnd attempt) = Some d).
    { unfold _compute_delay. destruct (fpow _ attempt) eqn:Ep; [by eexists|by apply Hpow in Ep]. }
    destruct Hd as [d Hd]. rewrite Hd.
    assert (Hom : omap (λ i, _compute_delay (attempt + Z.of_nat i) (rnd (attempt + Z.of_nat i)))
      (seq 0 (S n)) = d :: omap (λ i, _compute_delay (attempt + 1 + Z.of_nat i)
        (rnd (attempt + 1 + Z.of_nat i))) (seq 0 n)).
    { cbn [seq omap list_omap]. rewrite Z.add_0_r, Hd. f_equal.
      rewrite <-fmap_S_seq. clear. generalize (seq 0 n). intros l.
      induction l as [|x l IH]; [done|]. csimpl.
      replace (attempt + Z.of_nat (S x)) with (attempt + 1 + Z.of_nat x) by lia.
      destruct (_compute_delay _ _); by rewrite IH. }
    rewrite Hom. destruct ((fn (after_calls n w1)).1); [by rewrite IH| |by rewrite IH].
    intros Hfu. by rewrite IH by lia.
Qed.

(** Retrying: as long as powers do not overflow, the callable is called until it
    returns, or raises something that is not an [Exception], or has been called
    [max_retries + 1] times; between calls it sleeps the delay of each attempt;
    and when every call raised, [RetryExhaustedError] carries their number and the
    last exception. *)
Theorem execute_spec n rnd w :
  0 ≤ cfg.(max_retries) → Z.of_nat n ≤ cfg.(max_retries) →
  raises_first n w → (∀ k, fpow cfg.(exponential_base) k ≠ None) →
  let delays := omap (λ i, _compute_delay (Z.of_nat i) (rnd (Z.of_nat i))) (seq 0 n) in
  match (fn (after_calls n w)).1 with
  | Returns t => execute rnd w = Some (Value t, delays, after_calls (S n) w)
  | RaisesBase e => execute rnd w = Some (Propagated e, delays, after_calls (S n) w)
  | Raises e => Z.of_nat n = cfg.(max_retries) →
      execute rnd w =
        Some (RetryExhaustedError (cfg.(max_retries) + 1) e, delays, after_calls (S n) w)
  end.
Proof.
  intros H0 Hn Hr Hpow. unfold execute.
  pose proof (retry_loop_spec n (Z.to_nat (cfg.(max_retries) + 1)) rnd 0 w
    ltac:(lia) ltac:(lia) Hr Hpow) as H. cbv zeta in *.
  destruct ((fn (after_calls n w)).1); [done| |done]. intros Hmax. apply H. lia.
Qed.
End retry.

(** ** Delays over the rationals *)
Section delays.
#[local] Existing Instance QF.

(** The backoff is bounded: for a configuration the constructor accepts, when
    powers of a base of at least 1 are not negative and do not decrease with the
    exponent, every delay lies between 0 and [max_delay_seconds]; and without
    jitter, delays never decrease from one attempt to the next. *)
Theorem delay_bounds (mr : Z) (bd md eb : float) (j : bool) (cfg : RetryConfig)
    (fpow : float → Z → option float) (n : Z) (r d : float) :
  new_retry mr bd md eb j = Ok cfg → (0 ≤ n)%Z →
  (∀ (b p q : float) (k l : Z), 1 <= b → (0 ≤ k ≤ l)%Z →
    fpow b k = Some p → fpow b l = Some q → 0 <= p ∧ p <= q)%Q →
  (0 <= r ∧ r <= 1)%Q →
  _compute_delay cfg fpow n r = Some d →
  (0 <= d ∧ d <= md)%Q ∧
  (j = false → ∀ (m : Z) (r' d' : float), (n ≤ m)%Z →
    _compute_delay cfg fpow m r' = Some d' → (d <= d')%Q).
Proof.
  intros Hc Hn Hpow [Hr0 Hr1] Hd. unfold new_retry in Hc.
  repeat (case_match; [done|]). injection Hc as <-. q_simpl.
  unfold _compute_delay in *. cbn [exponential_base base_delay_seconds max_delay_seconds jitter] in *.
  destruct (fpow eb n) as [p|] eqn:Ep; [|done]. injection Hd as <-.
  destruct (Hpow eb p p n n ltac:(done) ltac:(lia) Ep Ep) as [Hp _].
  destruct (fmin_q (@fmul QF bd p) md) as (_ & Hmd & Hor). split.
  - assert (0 <= @fmin QF (@fmul QF bd p) md)%Q as H0m.
    { destruct Hor as [-> | ->]; qf; [by apply Qmult_le_0_compat|lra]. }
    unfold uniform. qf. set (x := @fmin QF (bd * p)%Q md) in *. clearbody x. clear Hor.
    destruct j; split; try done; try nra.
  - intros -> m r' d' Hm Hd'. destruct (fpow eb m) as [q|] eqn:Eq; [|done].
    injection Hd' as <-. destruct (Hpow eb p q n m ltac:(done) ltac:(lia) Ep Eq) as [_ Hpq].
    destruct (fmin_q (@fmul QF bd q) md) as (_ & _ & Hor').
    destruct (fmin_q (@fmul QF bd p) md) as (Hl & _ & _).
    qf. destruct Hor' as [E|E]; rewrite E; [nra|done].
Qed.

Lemma delay_bounds_witness :
  let cfg := mkRetry (F:=QF) 5 (1 # 2)%Q 10%Q 2%Q false in
  let pow : Q → Z → option Q := λ b n, Some (Qpower b n) in
  (0 <= (8 # 2) ∧ (8 # 2) <= 10)%Q ∧
  (false = false → ∀ (m : Z) (r' d' : Q), (3 ≤ m)%Z →
    _compute_delay (F:=QF) cfg pow m r' = Some d' → ((8 # 2) <= d')%Q).
Proof.
  apply (delay_bounds 5 (1 # 2)%Q 10%Q 2%Q false (mkRetry (F:=QF) 5 (1 # 2)%Q 10%Q 2%Q false)
    (λ b n, Some (Qpower b n)) 3 0%Q (8 # 2)%Q); [reflexivity|lia| | |reflexivity].
  - intros b p q k l Hb Hk Hp Hq. injection Hp as <-. injection Hq as <-. split.
    + apply Qpower_0_le. apply (Qle_trans _ 1); [discriminate|exact Hb].
    + apply Qpower_le_compat_l; [lia|exact Hb].
  - split; discriminate.
Defined.
End delays.

(** ** Recovery probes *)
Section recovery.
Context {F : PyFloat} {T E W : Type}.

Record RecoveryTestResult : Type := mkRecovery {
  total_attempts : Z;
  successes : Z;
  failures : Z;
  should_close : bool;
  latency_ms : float;
}.

Inductive RecoveryError : Type :=
  | BadMaxRequests | BadSuccessThreshold | ThresholdTooLarge
  | NegativeAttempts | NegativeSuccesses | NegativeFailures | CountMismatch | NegativeLatency.

(** [RecoveryTestResult.__post_init__] *)
Definition new_recovery_result (t s f : Z) (c : bool) (l : float)
    : result RecoveryError RecoveryTestResult :=
  if t <? 0 then Raise NegativeAttempts
  else if s <? 0 then Raise NegativeSuccesses
  else if f <? 0 then Raise NegativeFailures
  else if t <? s + f then Raise CountMismatch
  else if fltb l f0 then Raise NegativeLatency
  else Ok (mkRecovery t s f c l).

Definition success_rate (r : RecoveryTestResult) : float :=
  if r.(total_attempts) =? 0 then f0 else fdiv (fofZ r.(successes)) (fofZ r.(total_attempts)).

Record RecoveryTester : Type := mkTester {
  max_test_requests : Z;
  success_threshold : Z;
  stop_on_first_failure : bool;
}.

Definition new_tester (m s : Z) (stop : bool) : result RecoveryError RecoveryTester :=
  if m <? 1 then Raise BadMaxRequests
  else if s <? 1 then Raise BadSuccessThreshold
  else if m <? s then Raise ThresholdTooLarge
  else Ok (mkTester m s stop).

Context (t : RecoveryTester) (service_fn : W → called T E * W).

(** The loop of [test_recovery]: successes, failures, whether a [BaseException]
    left it, and the world. *)
Fixpoint recovery_loop (n : nat) (s f : Z) (w : W) : Z * Z * option E * W :=
  match n with
  | O => (s, f, None, w)
  | S n' =>
      match service_fn w with
      | (Returns _, w1) =>
          if t.(success_threshold) <=? s + 1 then (s + 1, f, None, w1)
          else recovery_loop n' (s + 1) f w1
      | (Raises _, w1) =>
          if t.(stop_on_first_failure) then (s, f + 1, None, w1)
          else recovery_loop n' s (f + 1) w1
      | (RaisesBase e, w1) => (s, f, Some e, w1)
      end
  end.

(** The outer result: a [BaseException] of the service propagates. *)
Inductive recovery_out : Type :=
  | Tested (r : result RecoveryError RecoveryTestResult)
  | Left_by (e : E).

Definition test_recovery (start stop : float) (w : W) : recovery_out * W :=
  match recovery_loop (Z.to_nat t.(max_test_requests)) 0 0 w with
  | (s, f, None, w1) =>
      (Tested (new_recovery_result (s + f) s f (t.(success_threshold) <=? s)
        (fmul (fsub stop start) (fofZ 1000))), w1)
  | (_, _, Some e, w1) => (Left_by e, w1)
  end.

Lemma recovery_loop_spec n s f w :
  s < t.(success_threshold) →
  let '(s', f', e, _) := recovery_loop n s f w in
  s ≤ s' ≤ t.(success_threshold) ∧ f ≤ f' ∧ s' + f' ≤ s + f + Z.of_nat n ∧
  (t.(stop_on_first_failure) = true → f' ≤ f + 1 ∧
    (s' = t.(success_threshold) → f' = f)) ∧
  (e = None → s' + f' = s + f + Z.of_nat n ∨ s' = t.(success_threshold) ∨
    t.(stop_on_first_failure) = true ∧ f' = f + 1).
Proof.
  revert s f w. induction n as [|n IH]; intros s f w Hs; cbn [recovery_loop].
  { split_and!; intros; lia. }
  destruct (service_fn w) as [[v|e|e] w1].
  - destruct (Z.leb_spec (success_threshold t) (s + 1)).
    { split_and!; intros; lia. }
    specialize (IH (s + 1) f w1 ltac:(lia)).
    destruct (recovery_loop n (s + 1) f w1) as [[[s' f'] e'] w2].
    destruct IH as ([??]&?&?&?&He). split_and!; intros; try lia; [tauto..|].
    destruct (He ltac:(done)) as [?|[?|?]]; [left; lia|by right; left|by right; right].
  - destruct (stop_on_first_failure t) eqn:Est.
    { split_and!; intros; try lia. }
    specialize (IH s (f + 1) w1 ltac:(lia)).
    destruct (recovery_loop n s (f + 1) w1) as [[[s' f'] e'] w2].
    destruct IH as ([??]&?&?&?&He). split_and!; intros; try lia; try done.
    destruct (He ltac:(done)) as [?|[?|[? ?]]]; [left; lia|by right; left|done].
  - split_and!; intros; done || lia.
Qed.

(** A recovery test makes at most [max_test_requests] calls and its verdict is
    exact: [should_close] holds just when the threshold of successes was reached.
    When it stops on the first failure, a closing verdict means no call failed; a
    verdict against closing means all requests were used, or one failed and
    stopped it. *)
Theorem recovery_verdict m s stop w r start fin w1 :
  new_tester m s stop = Ok t →
  test_recovery start fin w = (Tested (Ok r), w1) →
  r.(total_attempts) = r.(successes) + r.(failures) ∧
  r.(total_attempts) ≤ t.(max_test_requests) ∧
  (r.(should_close) = true ↔ r.(successes) = t.(success_threshold)) ∧
  (t.(stop_on_first_failure) = true → r.(should_close) = true → r.(failures) = 0) ∧
  (r.(should_close) = false → r.(total_attempts) = t.(max_test_requests) ∨
    t.(stop_on_first_failure) = true ∧ r.(failures) = 1).
Proof.
  intros Ht Hr. assert (Hok : 1 ≤ t.(max_test_requests) ∧ 1 ≤ t.(success_threshold)).
  { unfold new_tester in Ht. repeat (case_match; [done|]). injection Ht as Ht.
    rewrite <-Ht. simpl. bool_simpl. lia. }
  unfold test_recovery in Hr.
  pose proof (recovery_loop_spec (Z.to_nat t.(max_test_requests)) 0 0 w ltac:(lia)) as H.
  destruct (recovery_loop _ 0 0 w) as [[[s' f'] [e|]] w2]; [done|].
  injection Hr as Hr <-. unfold new_recovery_result in Hr.
  repeat (case_match; [done|]). injection Hr as <-. simpl.
  destruct H as (Hs & Hf & Hsum & Hstop & He).
  destruct (Z.leb_spec (success_threshold t) s'); split_and!; try done; try lia.
  { intros Hst _. apply (Hstop Hst). lia. }
  intros _. destruct (He eq_refl) as [?|[?|[? ?]]]; lia || (right; split; [done|lia]) || (left; lia).
Qed.
End recovery.

(** A callable that fails twice and then returns, called under two retries. *)
Lemma execute_spec_witness :
  let cfg := mkRetry (F:=B64) 2 (@f1 B64) (@fofZ B64 10) (@fofZ B64 2) false in
  let pow : spec_float → Z → option spec_float := λ b n, Some (@fofZ B64 (2 ^ n)) in
  let fn : nat → called Z string * nat :=
    λ w, (if decide (w < 2)%nat then Raises "down"%string else Returns 7, S w) in
  ∃ delays, execute cfg pow fn (λ _, @f0 B64) 0%nat = Some (Value 7, delays, 3%nat).
Proof.
  eexists. refine (execute_spec (F:=B64) (T:=Z) (E:=string) (W:=nat)
    (mkRetry (F:=B64) 2 (@f1 B64) (@fofZ B64 10) (@fofZ B64 2) false)
    (λ b n, Some (@fofZ B64 (2 ^ n)))
    (λ w, (if decide (w < 2)%nat then Raises "down"%string else Returns 7, S w))
    2%nat (λ _, @f0 B64) 0%nat _ _ _ _); [simpl; lia|simpl; lia| |discriminate].
  intros [|[|i]] Hi; [by eexists|by eexists|lia].
Defined.

(** A service that fails once: with five requests and a threshold of two, the
    third call closes the breaker. *)
Lemma recovery_verdict_witness :
  let t := mkTester 5 2 false in
  let fn : nat → called Z string * nat :=
    λ w, (if decide (w = 0)%nat then Raises "down"%string else Returns 7, S w) in
  let r := mkRecovery (F:=B64) 3 2 1 true (@f0 B64) in
  test_recovery t fn (@f0 B64) (@f0 B64) 0%nat = (Tested (Ok r), 3%nat) ∧
  r.(successes) = t.(success_threshold).
Proof.
  split; [reflexivity|].
  destruct (recovery_verdict (F:=B64) (T:=Z) (E:=string) (W:=nat) (mkTester 5 2 false)
    (λ w, (if decide (w = 0)%nat then Raises "down"%string else Returns 7, S w)) 5 2 false 0%nat
    (mkRecovery (F:=B64) 3 2 1 true (@f0 B64)) (@f0 B64) (@f0 B64) 3%nat eq_refl)
    as (_ & _ & [H _] & _); [reflexivity|apply H; reflexivity].
Defined.
