(* ===== verification/Fallback.v ===== *)
(** * Fallback handlers and their registry ([resilience/fallback_registry.py])

    A handler is an object the registry keeps by reference: a cache handler that
    serves several services is one cache, so caches live in a store of their own
    and a [CacheFallbackHandler] is a reference into it.  Handlers that a client
    writes are the parameter [custom]. *)
From stdpp Require Import base list gmap strings sorting.
From Stdlib Require Import Lia.
From S2P Require Import Prelude PyDict PySort.
#[local] Open Scope string_scope.

Section fallback.
Context {V E C : Type}.

(** What [handle] raises, and what the registry raises. *)
Inductive FallbackError : Type :=
  | EmptyServiceName            (* ValueError of register *)
  | NoCachedValue (s : string)  (* KeyError of CacheFallbackHandler.handle *)
  | NoHandler (s : string)      (* KeyError of execute_fallback *)
  | NotRegistered (s : string)  (* KeyError of unregister *)
  | HandlerError (e : E).       (* raised by a client's handler *)

Inductive FallbackHandler : Type :=
  | StaticFallbackHandler (default_value : V)
  | CacheFallbackHandler (ref : nat)
  | CustomHandler (id : nat).

Record FallbackRegistry : Type := mkFallbacks {
  handlers : dict FallbackHandler;
  caches : nat → dict V;          (* [_cache] of the handler at a reference *)
}.

(** A client's [handle]; [C] is the context dictionary, [empty_context] is [{}]. *)
Context (custom : nat → string → E → C → V + E) (empty_context : C).

Definition new_fallbacks : FallbackRegistry := mkFallbacks [] (λ _, []).

Definition update_cache (r : nat) (s : string) (v : V) (f : FallbackRegistry)
    : FallbackRegistry :=
  mkFallbacks f.(handlers)
    (λ r', if decide (r' = r) then dset (f.(caches) r) s v else f.(caches) r').

Definition has_cached_value (r : nat) (s : string) (f : FallbackRegistry) : bool :=
  dmem (f.(caches) r) s.

(** [handle] of the three kinds of handler. *)
Definition handle (h : FallbackHandler) (s : string) (error : E) (context : C)
    (f : FallbackRegistry) : result FallbackError V :=
  match h with
  | StaticFallbackHandler v => Ok v
  | CacheFallbackHandler r =>
      match dget (f.(caches) r) s with
      | None => Raise (NoCachedValue s)
      | Some v => Ok v
      end
  | CustomHandler i =>
      match custom i s error context with
      | inl v => Ok v
      | inr e => Raise (HandlerError e)
      end
  end.

Definition register (s : string) (h : FallbackHandler) : M FallbackRegistry FallbackError unit :=
  let! _ := guardS (String.eqb s "") EmptyServiceName in
  modS (λ f, mkFallbacks (dset f.(handlers) s h) f.(caches)).

Definition get_handler (s : string) (f : FallbackRegistry) : option FallbackHandler :=
  dget f.(handlers) s.

Definition has_fallback (s : string) (f : FallbackRegistry) : bool := dmem f.(handlers) s.

Definition execute_fallback (s : string) (error : E) (context : option C)
    (f : FallbackRegistry) : result FallbackError V :=
  match dget f.(handlers) s with
  | None => Raise (NoHandler s)
  | Some h => handle h s error (default empty_context context) f
  end.

Definition unregister (s : string) : M FallbackRegistry FallbackError unit :=
  let! f := getS in
  let! _ := guardS (negb (dmem f.(handlers) s)) (NotRegistered s) in
  modS (λ f, mkFallbacks (ddel f.(handlers) s) f.(caches)).

Definition registered_services (f : FallbackRegistry) : list string :=
  py_sort str_ltb (dkeys f.(handlers)).

(** ** Histories *)
Inductive fallback_op : Type :=
  | OpRegister (s : string) (h : FallbackHandler)
  | OpUnregister (s : string)
  | OpUpdateCache (r : nat) (s : string) (v : V).

Definition run_op (o : fallback_op) (f : FallbackRegistry) : FallbackRegistry :=
  match o with
  | OpRegister s h => (register s h f).2
  | OpUnregister s => (unregister s f).2
  | OpUpdateCache r s v => update_cache r s v f
  end.

Definition run_ops (os : list fallback_op) (f : FallbackRegistry) : FallbackRegistry :=
  fold_left (λ f o, run_op o f) os f.

(** The contract, read off the history alone (latest call first). *)
Fixpoint current_handler (s : string) (rev_history : list fallback_op)
    : option FallbackHandler :=
  match rev_history with
  | [] => None
  | OpRegister s' h :: os =>
      if decide (s' = s ∧ s ≠ "") then Some h else current_handler s os
  | OpUnregister s' :: os => if decide (s' = s) then None else current_handler s os
  | OpUpdateCache _ _ _ :: os => current_handler s os
  end.

Fixpoint last_cached (r : nat) (s : string) (rev_history : list fallback_op) : option V :=
  match rev_history with
  | [] => None
  | OpUpdateCache r' s' v :: os =>
      if decide (r' = r ∧ s' = s) then Some v else last_cached r s os
  | _ :: os => last_cached r s os
  end.

Lemma run_op_dwf o f : dwf f.(handlers) → dwf (run_op o f).(handlers).
Proof.
  intros Hf. destruct o as [s h|s|r s v]; [| |done].
  - simpl. unfold register, bindS, guardS, modS. destruct (String.eqb _ ""); simpl; [done|by apply dwf_set].
  - simpl. unfold unregister, bindS, getS, guardS, modS. destruct (dmem _ _); simpl; [by apply dwf_del|done].
Qed.

Lemma run_op_handler s o f os :
  dwf f.(handlers) → dget f.(handlers) s = current_handler s os →
  dget (run_op o f).(handlers) s = current_handler s (o :: os).
Proof.
  intros Hf H. destruct o as [s' h|s'|r s' v]; [| |done]; simpl.
  - unfold register, bindS, guardS, modS. destruct (String.eqb_spec s' ""); simpl.
    + rewrite decide_False; [done|]. naive_solver.
    + rewrite dget_set. destruct (decide (s = s')) as [->|].
      * by rewrite decide_True.
      * rewrite decide_False; [done|]. naive_solver.
  - unfold unregister, bindS, getS, guardS, modS. destruct (dmem (handlers f) s') eqn:Em; simpl.
    + rewrite dget_del by done. destruct (decide (s = s')) as [->|]; [by rewrite decide_True|].
      by rewrite decide_False.
    + destruct (decide (s' = s)) as [->|]; [by apply dmem_false|done].
Qed.

Lemma run_op_cache r s o f os :
  dget (f.(caches) r) s = last_cached r s os →
  dget ((run_op o f).(caches) r) s = last_cached r s (o :: os).
Proof.
  intros H. destruct o as [s' h|s'|r' s' v]; simpl.
  - unfold register, bindS, guardS, modS. by destruct (String.eqb _ "").
  - unfold unregister, bindS, getS, guardS, modS. by destruct (dmem _ _).
  - destruct (decide (r = r')) as [->|].
    + rewrite dget_set. destruct (decide (s = s')) as [->|]; [by rewrite decide_True|].
      rewrite decide_False; [done|naive_solver].
    + rewrite decide_False; [done|naive_solver].
Qed.

Lemma run_ops_spec os :
  let f := run_ops os new_fallbacks in
  dwf f.(handlers) ∧ (∀ s, dget f.(handlers) s = current_handler s (rev os)) ∧
  (∀ r s, dget (f.(caches) r) s = last_cached r s (rev os)).
Proof.
  cbv zeta. induction os as [|o os IH] using rev_ind; [split_and!; [apply dwf_nil|done..]|].
  unfold run_ops in *. rewrite fold_left_app, rev_app_distr. simpl.
  destruct IH as (H1 & H2 & H3). split_and!; [by apply run_op_dwf| |].
  - intros s. by apply run_op_handler.
  - intros r s. by apply run_op_cache.
Qed.

(** C39. The registry does what its history says: after any sequence of calls, raising
    ones included, the fallback of a service is the handler last registered for it
    and not unregistered since, a static handler gives its value, a cache handler
    the value last cached for that service through any reference to it, and
    anything missing is the documented [KeyError]; the services are listed in
    order, once each. *)
Theorem fallback_follows_history os s e c :
  let f := run_ops os new_fallbacks in
  execute_fallback s e c f =
    match current_handler s (rev os) with
    | None => Raise (NoHandler s)
    | Some (StaticFallbackHandler v) => Ok v
    | Some (CacheFallbackHandler r) =>
        match last_cached r s (rev os) with None => Raise (NoCachedValue s) | Some v => Ok v end
    | Some (CustomHandler i) =>
        match custom i s e (default empty_context c) with
        | inl v => Ok v | inr x => Raise (HandlerError x) end
    end ∧
  NoDup (registered_services f) ∧
  StronglySorted (not_after str_ltb) (registered_services f) ∧
  (s ∈ registered_services f ↔ is_Some (current_handler s (rev os))).
Proof.
  cbv zeta. destruct (run_ops_spec os) as (Hwf & Hh & Hc). split_and!.
  - unfold execute_fallback. rewrite Hh. destruct (current_handler s (rev os)) as [[v|r|i]|]; try done.
    unfold handle. by rewrite Hc.
  - unfold registered_services. by rewrite py_sort_perm.
  - apply str_sort_sorted.
  - unfold registered_services. rewrite elem_py_sort, <-dget_is_Some. by rewrite Hh.
Qed.
End fallback.
