(* ===== verification/Workflow.v ===== *)
(** * Workflow steps, results and the sequential executor ([workflows/base.py],
      [workflows/sequential.py])

    Agents are the environment: what a call to the agent executor did, with the
    clock before and after it, is a [step_run].  The shared helper [_run_step] of
    the five executors turns it into a [StepResult].  [V] is the type of the
    objects in parameters and outputs; the random [workflow_id], which nothing
    reads, is left out. *)
From stdpp Require Import base list sets strings.
From Stdlib Require Import ZArith QArith Lia.
From S2P Require Import Prelude PyDict PyFloat.
#[local] Close Scope Q_scope.

Inductive WorkflowStatus : Type := SUCCESS | PARTIAL | FAILED | CANCELLED.

#[export] Instance WorkflowStatus_eq_dec : EqDecision WorkflowStatus.
Proof. solve_decision. Defined.

(** [ValueError]s of the executors and their constructors. *)
Inductive WorkflowError : Type :=
  | UnknownDependency (step dep : string)
  | CircularDependency
  | BadQuorumFraction.

Section workflow.
Context {F : PyFloat} {V : Type}.

Record WorkflowStep : Type := mkStep {
  agent_id : string;
  action : string;
  params : dict V;
  step_id : string;
  timeout_seconds : option float;
  depends_on : list string;
}.

(** The text of [StepResult.error]; [TimedOutAfter t] is
    [f"Step timed out after {t}s."]. *)
Inductive step_error : Type :=
  | TimedOutAfter (t : option float)
  | ErrorText (s : string).

Record StepResult : Type := mkResult {
  res_id : string;
  success : bool;
  output : option (dict V);
  duration_ms : float;
  error : option step_error;
}.

Record WorkflowResult : Type := mkWorkflow {
  step_results : list StepResult;
  status : WorkflowStatus;
  total_ms : float;
}.

Definition successful_steps (r : WorkflowResult) : list StepResult :=
  filter (λ x, x.(success) = true) r.(step_results).

Definition failed_steps (r : WorkflowResult) : list StepResult :=
  filter (λ x, x.(success) = false) r.(step_results).

Definition is_success (r : WorkflowResult) : bool := bool_decide (r.(status) = SUCCESS).

(** [(b - a) * 1000.0] *)
Definition elapsed_ms (a b : float) : float := fmul (fsub b a) (fofZ 1000).

Definition all_success (rs : list StepResult) : bool := forallb success rs.
Definition any_success (rs : list StepResult) : bool := existsb success rs.

(** The status of the executors that accept partial success. *)
Definition overall (rs : list StepResult) : WorkflowStatus :=
  if all_success rs then SUCCESS else if any_success rs then PARTIAL else FAILED.

(** [_make_result]; [now] is read when it starts. *)
Definition _make_result (rs : list StepResult) (started_at now : float) : WorkflowResult :=
  mkWorkflow rs (overall rs) (elapsed_ms started_at now).

(** What awaiting the agent did: [TimesOut] is [asyncio.TimeoutError], from
    [wait_for] or from the agent; [Raises] another [Exception]; [Cancels]
    [CancelledError]; [Escapes] any other [BaseException]. *)
Inductive outcome : Type :=
  | Outputs (d : dict V)
  | TimesOut
  | Raises (msg : string)
  | Cancels
  | Escapes.

Record step_run : Type := mkRun {
  what : outcome;
  began : float;
  ended : float;
}.

(** [_run_step]; [catch_cancel] tells the executors that turn cancellation into a
    result (competitive and consensus).  [None]: the exception leaves. *)
Definition _run_step (catch_cancel : bool) (s : WorkflowStep) (r : step_run)
    : option StepResult :=
  let d := elapsed_ms r.(began) r.(ended) in
  match r.(what) with
  | Outputs o => Some (mkResult s.(step_id) true (Some o) d None)
  | TimesOut =>
      Some (mkResult s.(step_id) false None d (Some (TimedOutAfter s.(timeout_seconds))))
  | Raises m => Some (mkResult s.(step_id) false None d (Some (ErrorText m)))
  | Cancels =>
      if catch_cancel
      then Some (mkResult s.(step_id) false None d (Some (ErrorText "cancelled")))
      else None
  | Escapes => None
  end.

Lemma run_step_id b s r x : _run_step b s r = Some x → x.(res_id) = s.(step_id).
Proof. unfold _run_step. intros. by repeat (case_match; simplify_eq/=). Qed.

(** How [execute] ends. *)
Inductive execution : Type :=
  | Finished (r : WorkflowResult)
  | Invalid (e : WorkflowError)
  | Interrupted.          (* a BaseException of an agent *)

(** The result for no steps at all. *)
Definition nothing_done : WorkflowResult := mkWorkflow [] SUCCESS f0.

(** ** The sequential executor *)
Section sequential.
Context {W : Type} (agent_executor : WorkflowStep → W → step_run * W).

(** The loop of [execute]: the results, whether an exception left it, and the
    world. *)
Fixpoint sequential_loop (steps : list WorkflowStep) (w : W) : list StepResult * bool * W :=
  match steps with
  | [] => ([], false, w)
  | s :: rest =>
      let '(run, w1) := agent_executor s w in
      match _run_step false s run with
      | None => ([], true, w1)
      | Some r =>
          if r.(success) then
            let '(rs, out, w2) := sequential_loop rest w1 in (r :: rs, out, w2)
          else ([r], false, w1)
      end
  end.

Definition execute_sequential (steps : list WorkflowStep) (t0 t1 : float) (w : W)
    : execution * W :=
  match steps with
  | [] => (Finished nothing_done, w)
  | _ =>
      match sequential_loop steps w with
      | (_, true, w1) => (Interrupted, w1)
      | (rs, false, w1) =>
          (Finished (mkWorkflow rs (if all_success rs then SUCCESS else FAILED)
            (elapsed_ms t0 t1)), w1)
      end
  end.

(** The world after calling the agents of [steps] in turn. *)
Definition called (steps : list WorkflowStep) (w : W) : W :=
  fold_left (λ w s, (agent_executor s w).2) steps w.

Lemma sequential_loop_spec steps w :
  let '(rs, out, w') := sequential_loop steps w in
  ∃ k, w' = called (take k steps) w ∧ (k ≤ length steps)%nat ∧
    if out then ∃ s, steps !! (k - 1)%nat = Some s ∧ (0 < k)%nat ∧
      _run_step false s (agent_executor s (called (take (k - 1) steps) w)).1 = None
    else res_id <$> rs = step_id <$> take k steps ∧
      (all_success rs = true → k = length steps) ∧
      (∀ i r, rs !! i = Some r → (S i < k)%nat → r.(success) = true) ∧
      (k < length steps → ∃ r, last rs = Some r ∧ r.(success) = false)%nat.
Proof.
  revert w. induction steps as [|s steps IH]; intros w; cbn [sequential_loop].
  { exists 0%nat. simpl. split_and!; try done; simpl; lia. }
  destruct (agent_executor s w) as [run w1] eqn:Er.
  destruct (_run_step false s run) as [r|] eqn:Es; cycle 1.
  { exists 1%nat. split; [by simpl; rewrite Er|]. split; [simpl; lia|]. exists s.
    split_and!; [done|lia|]. simpl. by rewrite Er. }
  pose proof (run_step_id _ _ _ _ Es) as Hid.
  destruct (success r) eqn:Esu; cycle 1.
  { exists 1%nat. split; [by simpl; rewrite Er|]. split; [simpl; lia|]. simpl.
    unfold all_success. simpl. rewrite Esu. split_and!; [by rewrite <-Hid|done| |].
    - intros [|i] x Hx; [lia|done].
    - intros _. by exists r. }
  specialize (IH w1). destruct (sequential_loop steps w1) as [[rs out] w2].
  destruct IH as (k & -> & Hk & H). exists (S k).
  split; [by simpl; rewrite Er|]. split; [simpl; lia|].
  destruct out.
  - destruct H as (s' & Hs' & Hk0 & Hn). exists s'. destruct k as [|k]; [lia|].
    replace (S (S k) - 1)%nat with (S k) by lia. replace (S k - 1)%nat with k in * by lia.
    split_and!; [done|lia|]. simpl. by rewrite Er.
  - destruct H as (H1 & H2 & H3 & H4). split_and!; [csimpl; congruence| | |].
    + unfold all_success. simpl. rewrite Esu. intros H. simpl in H. rewrite H2 by done. done.
    + intros [|i] x Hx Hi; simplify_eq/=; [done|]. eapply H3; [done|lia].
    + simpl. intros Hl. destruct H4 as (x & Hx & Hf); [lia|]. exists x. split; [|done].
      destruct rs; [done|]. by rewrite last_cons_cons.
Qed.

(** A sequential workflow calls its agents in order and stops at the first step that
    fails: it made [k] calls and no more, it has the results of the first [k] steps
    in order, all but the last of them successes; when it stopped early the last
    one failed; and it succeeds exactly when every step was run and succeeded. *)
Theorem sequential_stops_at_failure steps t0 t1 w r w' :
  execute_sequential steps t0 t1 w = (Finished r, w') →
  ∃ k, w' = called (take k steps) w ∧ (k ≤ length steps)%nat ∧
    res_id <$> r.(step_results) = step_id <$> take k steps ∧
    (∀ i x, r.(step_results) !! i = Some x → (S i < k)%nat → x.(success) = true) ∧
    (k < length steps → ∃ x, last r.(step_results) = Some x ∧ x.(success) = false)%nat ∧
    (r.(status) = SUCCESS ↔
      k = length steps ∧ ∀ x, x ∈ r.(step_results) → x.(success) = true).
Proof.
  unfold execute_sequential. intros H. destruct steps as [|s steps]; simplify_eq.
  { exists 0%nat. simpl. split_and!; try done; try lia. set_solver. }
  pose proof (sequential_loop_spec (s :: steps) w) as Hl.
  destruct (sequential_loop (s :: steps) w) as [[rs [|]] w1]; simplify_eq.
  destruct Hl as (k & -> & Hk & Hids & Hall & Hsuc & Hlast). exists k.
  cbn [step_results status]. split_and!; try done.
  assert (Ha : all_success rs = true ↔ ∀ x, x ∈ rs → x.(success) = true).
  { unfold all_success. rewrite forallb_forall. by setoid_rewrite list_elem_of_In. }
  destruct (all_success rs) eqn:E.
  - split; [|done]. intros _. split; [by apply Hall|by apply Ha].
  - split; [done|]. intros [_ Hx]. apply Ha in Hx. done.
Qed.
End sequential.
End workflow.

Arguments mkStep {F V}.
Arguments execution {F} V.
Arguments WorkflowStep {F} V.
Arguments StepResult {F} V.
Arguments WorkflowResult {F} V.
Arguments step_run {F} V.
Arguments outcome V : clear implicits.

(** Two steps, the first of which raises: the second agent is never called. *)
Lemma sequential_stops_at_failure_witness :
  let s1 := mkStep (F:=QF) (V:=Z) "a" "x" [] "1" None [] in
  let s2 := mkStep (F:=QF) (V:=Z) "b" "x" [] "2" None [] in
  let agents := λ (s : WorkflowStep Z) (n : nat),
    (mkRun (F:=QF) (if decide (s.(step_id) = "1") then Raises "down" else Outputs []) 0%Q 1%Q, S n) in
  let r := mkResult (F:=QF) (V:=Z) "1" false None (1000%Q) (Some (ErrorText "down")) in
  execute_sequential agents [s1; s2] 0%Q 1%Q 0%nat
    = (Finished (mkWorkflow [r] FAILED 1000%Q), 1%nat) ∧
  ∃ k, 1%nat = called agents (take k [s1; s2]) 0%nat ∧ (k ≤ 2)%nat.
Proof.
  split; [reflexivity|].
  destruct (sequential_stops_at_failure (F:=QF) (V:=Z)
    (λ (s : WorkflowStep Z) (n : nat),
      (mkRun (F:=QF) (if decide (s.(step_id) = "1") then Raises "down" else Outputs []) 0%Q 1%Q, S n))
    [mkStep (F:=QF) "a" "x" [] "1" None []; mkStep (F:=QF) "b" "x" [] "2" None []]
    0%Q 1%Q 0%nat
    (mkWorkflow [mkResult (F:=QF) (V:=Z) "1" false None (1000%Q) (Some (ErrorText "down"))]
      FAILED 1000%Q) 1%nat) as (k & H1 & H2 & _);
    [reflexivity|].
  exists k. split; [exact H1|exact H2].
Defined.
