(* ===== verification/Dag.v ===== *)
(** * Dependency graphs of workflow steps ([workflows/parallel.py],
      [workflows/hierarchical.py]: the validations and the levels)

    The parallel executor rejects cyclic dependencies with Kahn's algorithm, the
    hierarchical one with a depth-first search; both are modelled as they are
    written and proved to decide acyclicity.  [depends] is the relation they are
    about. *)
From stdpp Require Import base list sets relations strings.
From Stdlib Require Import ZArith Lia.
From S2P Require Import Prelude PyDict PyFloat Workflow.
#[local] Open Scope Z_scope.

Section dag.
Context {F : PyFloat} {V : Type}.
Implicit Types (steps : list (WorkflowStep V)) (s : WorkflowStep V).

Definition ids steps : list string := step_id <$> steps.

(** [{s.step_id: s for s in steps}] *)
Definition step_map steps : dict (WorkflowStep V) :=
  fold_left (λ d s, dset d s.(step_id) s) steps [].

(** The first check of both validations: every dependency is a step. *)
Definition unknown_dependency steps : option WorkflowError :=
  head (mjoin ((λ s, UnknownDependency s.(step_id) <$>
    filter (λ d, dmem (step_map steps) d = false) s.(depends_on)) <$> steps)).

(** [dependents[node]], the reverse edges with their multiplicity. *)
Definition dependents steps (node : string) : list string :=
  mjoin ((λ s, (λ _, s.(step_id)) <$> filter (λ d, d = node) s.(depends_on)) <$> steps).

(** ** Kahn's algorithm *)

Definition count_dependencies (d : dict Z) s : dict Z :=
  let d := if dmem d s.(step_id) then d else dset d s.(step_id) 0 in
  fold_left (λ d _, dset d s.(step_id) (get0 d s.(step_id) + 1)) s.(depends_on) d.

Definition in_degree steps : dict Z := fold_left count_dependencies steps [].

(** The loop over the dependents of a node. *)
Fixpoint relax (ds : list string) (deg : dict Z) (queue : list string)
    : dict Z * list string :=
  match ds with
  | [] => (deg, queue)
  | d :: ds' =>
      let deg' := dset deg d (get0 deg d - 1) in
      relax ds' deg' (if get0 deg' d =? 0 then queue ++ [d] else queue)
  end.

(** The [while queue] loop: [visited_count]. *)
Fixpoint kahn_loop (fuel : nat) steps (queue : list string) (deg : dict Z) (visited : nat)
    : option nat :=
  match fuel with
  | O => None
  | S fuel' =>
      match queue with
      | [] => Some visited
      | node :: queue' =>
          let '(deg', queue'') := relax (dependents steps node) deg queue' in
          kahn_loop fuel' steps queue'' deg' (S visited)
      end
  end.

Definition initial_queue steps : list string :=
  filter (λ x, get0 (in_degree steps) x = 0) (ids steps).

Definition kahn steps : option nat :=
  kahn_loop (S (length steps)) steps (initial_queue steps) (in_degree steps) 0.

(** [ParallelWorkflow._validate_dependencies] *)
Definition _validate_dependencies steps : option (result WorkflowError unit) :=
  match unknown_dependency steps with
  | Some e => Some (Raise e)
  | None =>
      match kahn steps with
      | None => None
      | Some visited =>
          Some (if decide (visited = length steps) then Ok tt else Raise CircularDependency)
      end
  end.

(** ** Depth-first search *)
Inductive colour : Type := White | Gray | Black.

(** [dfs(node)] and its loop over the neighbours. *)
Fixpoint dfs (fuel : nat) steps (color : dict colour) (node : string)
    : option (result WorkflowError (dict colour)) :=
  match fuel with
  | O => None
  | S fuel' =>
      let fix neighbours (ns : list string) (color : dict colour) :=
        match ns with
        | [] => Some (Ok color)
        | n :: ns' =>
            match dget color n with
            | Some Gray => Some (Raise CircularDependency)
            | Some White =>
                match dfs fuel' steps color n with
                | Some (Ok color') => neighbours ns' color'
                | out => out
                end
            | _ => neighbours ns' color
            end
        end in
      match neighbours (dependents steps node) (dset color node Gray) with
      | Some (Ok color') => Some (Ok (dset color' node Black))
      | out => out
      end
  end.

(** The loop over the steps. *)
Fixpoint dfs_all (fuel : nat) steps (todo : list string) (color : dict colour)
    : option (result WorkflowError (dict colour)) :=
  match todo with
  | [] => Some (Ok color)
  | x :: todo' =>
      match dget color x with
      | Some White =>
          match dfs fuel steps color x with
          | Some (Ok color') => dfs_all fuel steps todo' color'
          | out => out
          end
      | _ => dfs_all fuel steps todo' color
      end
  end.

Definition all_white steps : dict colour :=
  fold_left (λ d s, dset d s.(step_id) White) steps [].

(** [HierarchicalWorkflow._validate] *)
Definition _validate steps : option (result WorkflowError unit) :=
  match unknown_dependency steps with
  | Some e => Some (Raise e)
  | None =>
      match dfs_all (S (length steps)) steps (ids steps) (all_white steps) with
      | None => None
      | Some (Ok _) => Some (Ok tt)
      | Some (Raise e) => Some (Raise e)
      end
  end.

(** ** Depths and levels *)

(** [max(get_depth(d) for d in ds)], at least [acc]. *)
Fixpoint deepest (rec : dict nat → string → option (nat * dict nat)) (ds : list string)
    (depth : dict nat) (acc : nat) : option (nat * dict nat) :=
  match ds with
  | [] => Some (acc, depth)
  | d :: ds' =>
      match rec depth d with
      | None => None
      | Some (n, depth') => deepest rec ds' depth' (acc `max` n)%nat
      end
  end.

(** [get_depth]; [None] is running out of fuel or a [KeyError], neither of which a
    validated list of steps causes. *)
Fixpoint get_depth (fuel : nat) steps (depth : dict nat) (x : string)
    : option (nat * dict nat) :=
  match fuel with
  | O => None
  | S fuel' =>
      match dget depth x with
      | Some n => Some (n, depth)
      | None =>
          match dget (step_map steps) x with
          | None => None
          | Some s =>
              match s.(depends_on) with
              | [] => Some (0%nat, dset depth x 0%nat)
              | ds =>
                  match deepest (get_depth fuel' steps) ds depth 0%nat with
                  | None => None
                  | Some (n, depth') => Some (S n, dset depth' x (S n))
                  end
              end
          end
      end
  end.

Fixpoint depths (fuel : nat) steps (todo : list string) (depth : dict nat) : option (dict nat) :=
  match todo with
  | [] => Some depth
  | x :: todo' =>
      match get_depth fuel steps depth x with
      | None => None
      | Some (_, depth') => depths fuel steps todo' depth'
      end
  end.

(** [_compute_levels] *)
Definition _compute_levels steps : option (list (list (WorkflowStep V))) :=
  match depths (S (length steps)) steps (ids steps) [] with
  | None => None
  | Some depth =>
      let at_depth s := default 0%nat (dget depth s.(step_id)) in
      let max_depth := foldr max 0%nat (dvalues depth) in
      Some ((λ n, filter (λ s, at_depth s = n) steps) <$> seq 0 (S max_depth))
  end.

(** ** The relation *)

(** [x] is a dependency of (a step called) [y]. *)
Definition depends steps (x y : string) : Prop :=
  ∃ s, s ∈ steps ∧ s.(step_id) = y ∧ x ∈ s.(depends_on).

Definition known steps : Prop := ∀ x y, depends steps x y → x ∈ ids steps.

Definition acyclic steps : Prop := ∀ x, ¬ tc (depends steps) x x.

(** An order in which every node comes after its predecessors. *)
Definition ordered (E : relation string) (L : list string) : Prop :=
  ∀ L1 y L2, L = L1 ++ y :: L2 → ∀ x, E x y → x ∈ L1.

(** ** Generic facts *)
Lemma elem_ids steps x : x ∈ ids steps ↔ ∃ s, s ∈ steps ∧ s.(step_id) = x.
Proof. unfold ids. rewrite list_elem_of_fmap. naive_solver. Qed.

Lemma elem_dependents steps x y : y ∈ dependents steps x ↔ depends steps x y.
Proof.
  unfold dependents, depends. rewrite list_elem_of_join. setoid_rewrite list_elem_of_fmap.
  split.
  - intros (l & Hy & s & -> & Hs). apply list_elem_of_fmap in Hy as (d & -> & Hd).
    apply list_elem_of_filter in Hd as [-> Hd]. eauto.
  - intros (s & Hs & <- & Hx). eexists. split; [|by exists s].
    apply list_elem_of_fmap. exists x. split; [done|]. by apply list_elem_of_filter.
Qed.

Lemma depends_ids steps x y : depends steps x y → y ∈ ids steps.
Proof. intros (s & Hs & <- & _). apply elem_ids. eauto. Qed.

Lemma ordered_snoc E L y : ordered E L → (∀ x, E x y → x ∈ L) → ordered E (L ++ [y]).
Proof.
  intros HL Hy L1 z L2 Heq x Hx.
  destruct L2 as [|z' L2 _] using rev_ind.
  - apply app_inj_tail in Heq as [<- <-]. by apply Hy.
  - rewrite app_comm_cons, app_assoc in Heq. apply app_inj_tail in Heq as [-> _].
    by eapply HL.
Qed.

(** An ordered list ranks the relation below its elements. *)
Lemma ordered_rank E L x y :
  ordered E L → NoDup L → y ∈ L → E x y →
  ∃ i j, L !! i = Some x ∧ L !! j = Some y ∧ (i < j)%nat.
Proof.
  intros HL Hnd Hy Hxy. apply list_elem_of_split in Hy as (L1 & L2 & ->).
  pose proof (HL L1 y L2 eq_refl x Hxy) as Hx. apply list_elem_of_lookup in Hx as [i Hi].
  pose proof (lookup_lt_Some _ _ _ Hi). exists i, (length L1). split_and!; [|by apply list_lookup_middle|done].
  by apply lookup_app_l_Some.
Qed.

Lemma ordered_irreflexive E L x : ordered E L → NoDup L → x ∈ L → ¬ tc E x x.
Proof.
  intros HL Hnd Hx Hxx.
  assert (H : ∀ a b, tc E a b → b ∈ L → ∃ i j, L !! i = Some a ∧ L !! j = Some b ∧ (i < j)%nat).
  { intros a b Hab. induction Hab as [a b Hab|a c b Hac Hcb IH]; intros Hb.
    - by apply ordered_rank with (E := E).
    - destruct (IH Hb) as (i & j & Hi & Hj & Hij).
      destruct (ordered_rank E L a c) as (i' & j' & Hi' & Hj' & ?); try done.
      { by eapply list_elem_of_lookup_2. }
      assert (j' = i) as -> by (eapply NoDup_lookup; eauto). exists i', j. split_and!; [done..|lia]. }
  destruct (H x x Hxx Hx) as (i & j & Hi & Hj & ?).
  assert (i = j) by (eapply NoDup_lookup; eauto). lia.
Qed.

(** ** Kahn's algorithm: the inner loop *)
Definition occurrences (x : string) (l : list string) : Z :=
  Z.of_nat (length (filter (λ y, y = x) l)).

Lemma occurrences_cons x y l :
  occurrences x (y :: l) = (if decide (y = x) then 1 else 0) + occurrences x l.
Proof. unfold occurrences. rewrite filter_cons. case_decide; simpl; lia. Qed.

Lemma occurrences_nonneg x l : 0 ≤ occurrences x l.
Proof. unfold occurrences. lia. Qed.

Lemma relax_spec ds deg queue :
  let '(deg', queue') := relax ds deg queue in
  ∃ new, queue' = queue ++ new ∧ NoDup new ∧
    (∀ x, get0 deg' x = get0 deg x - occurrences x ds) ∧
    (∀ x, x ∈ new ↔ 0 < get0 deg x ≤ occurrences x ds).
Proof.
  revert deg queue. induction ds as [|d ds IH]; intros deg queue; cbn [relax].
  { exists []. rewrite app_nil_r. split_and!; [done|apply NoDup_nil_2|intros; unfold occurrences; simpl; lia|].
    intros x. unfold occurrences. simpl. rewrite elem_of_nil. lia. }
  set (deg1 := dset deg d (get0 deg d - 1)).
  assert (H1 : ∀ x, get0 deg1 x = get0 deg x - (if decide (d = x) then 1 else 0)).
  { intros x. unfold deg1. rewrite get0_set. repeat case_decide; subst; done || lia. }
  specialize (IH deg1 (if get0 deg1 d =? 0 then queue ++ [d] else queue)).
  destruct (relax ds deg1 _) as [deg' queue'].
  destruct IH as (new & -> & Hnd & Hdeg & Hnew).
  exists ((if get0 deg1 d =? 0 then [d] else []) ++ new). split_and!.
  - destruct (_ =? _); [by rewrite <-app_assoc|done].
  - destruct (Z.eqb_spec (get0 deg1 d) 0) as [E|]; [|done].
    apply NoDup_cons_2; [|done]. rewrite Hnew. lia.
  - intros x. rewrite Hdeg, H1, occurrences_cons. lia.
  - intros x. rewrite elem_of_app, Hnew, (H1 x), occurrences_cons.
    pose proof (occurrences_nonneg x ds). pose proof (H1 d) as Hd. rewrite decide_True in Hd by done.
    destruct (Z.eqb_spec (get0 deg1 d) 0); [rewrite list_elem_of_singleton|rewrite elem_of_nil; case_decide; subst; lia].
    destruct (decide (d = x)) as [<-|Hne]; split; try lia.
    + by left.
    + intros [?|?]; [congruence|lia].
Qed.

Lemma step_map_key steps x : dmem (step_map steps) x = true ↔ x ∈ ids steps.
Proof.
  rewrite dmem_true. unfold step_map. rewrite (elem_fold_dset step_id (λ s, s)).
  split; [intros [H|H]; [by apply elem_of_nil in H|done]|by right].
Qed.

Lemma step_map_step steps x s :
  dget (step_map steps) x = Some s → s ∈ steps ∧ s.(step_id) = x.
Proof.
  intros H. apply (fold_dset_elem step_id (λ s, s)) in H as [H|(s' & Hs & <- & <-)]; done.
Qed.

Lemma step_map_get steps s :
  NoDup (ids steps) → s ∈ steps → dget (step_map steps) s.(step_id) = Some s.
Proof.
  intros Hnd Hs. unfold step_map. rewrite (fold_dset_fresh step_id (λ s, s)); [|done|].
  - rewrite app_nil_l. apply elem_dget; [|apply list_elem_of_fmap; by exists s].
    unfold dwf, dkeys. by rewrite <-list_fmap_compose.
  - intros ? _ H. by apply elem_of_nil in H.
Qed.

(** The first check finds an unknown dependency exactly when there is one. *)
Lemma unknown_dependency_spec steps :
  match unknown_dependency steps with
  | None => known steps
  | Some e => ∃ y x, e = UnknownDependency y x ∧ depends steps x y ∧ x ∉ ids steps
  end.
Proof.
  unfold unknown_dependency.
  set (l := mjoin _). assert (Hl : ∀ e, e ∈ l ↔
    ∃ s x, s ∈ steps ∧ x ∈ s.(depends_on) ∧ (x ∉ ids steps) ∧ e = UnknownDependency s.(step_id) x).
  { intros e. unfold l. rewrite list_elem_of_join. split.
    - intros (l' & He & Hl'). apply list_elem_of_fmap in Hl' as (s & -> & Hs).
      apply list_elem_of_fmap in He as (x & -> & Hx).
      apply list_elem_of_filter in Hx as [Hx Hin]. exists s, x.
      rewrite <-step_map_key, Hx. done.
    - intros (s & x & Hs & Hx & Hn & ->).
      eexists. split; [|apply list_elem_of_fmap; by exists s].
      apply list_elem_of_fmap. exists x. split; [done|]. apply list_elem_of_filter.
      split; [|done]. apply not_true_iff_false. by rewrite step_map_key. }
  clearbody l. destruct l as [|e l]; simpl.
  - intros x y (s & Hs & <- & Hx). destruct (decide (x ∈ ids steps)) as [|Hn]; [done|].
    exfalso. eapply not_elem_of_nil, Hl. eauto 10.
  - destruct (proj1 (Hl e) ltac:(left)) as (s & x & Hs & Hx & Hn & ->).
    exists s.(step_id), x. split_and!; [done|by exists s|done].
Qed.

(** ** Kahn's algorithm terminates *)

(** How many counters are positive. *)
Definition positives (deg : dict Z) : nat := length (filter (λ kv, 0 < kv.2) deg).

Lemma positives_decrement deg d :
  (positives (dset deg d (get0 deg d - 1)%Z) + (if decide (get0 deg d = 1)%Z then 1 else 0)
    = positives deg)%nat.
Proof.
  unfold positives, get0. induction deg as [|[k v] deg IH]; [done|].
  cbn [dget dset]. destruct (decide (d = k)) as [->|]; simpl.
  - rewrite !filter_cons. simpl. repeat case_decide; simpl; lia.
  - rewrite !filter_cons. simpl. repeat case_decide; simpl; lia.
Qed.

Lemma relax_potential ds deg queue :
  let '(deg', queue') := relax ds deg queue in
  (length queue' + positives deg' = length queue + positives deg)%nat.
Proof.
  revert deg queue. induction ds as [|d ds IH]; intros deg queue; cbn [relax]; [done|].
  set (deg1 := dset _ _ _). pose proof (positives_decrement deg d) as Hp. fold deg1 in Hp.
  specialize (IH deg1 (if get0 deg1 d =? 0 then queue ++ [d] else queue)).
  destruct (relax _ _ _) as [deg' queue']. rewrite IH.
  assert (Hd : get0 deg1 d = get0 deg d - 1) by (unfold deg1; by rewrite get0_set, decide_True).
  destruct (Z.eqb_spec (get0 deg1 d) 0); case_decide; rewrite ?length_app; simpl; lia.
Qed.

Lemma kahn_loop_total fuel steps queue deg visited :
  (length queue + positives deg < fuel)%nat → kahn_loop fuel steps queue deg visited ≠ None.
Proof.
  revert queue deg visited. induction fuel as [|fuel IH]; intros queue deg visited Hf; [lia|].
  cbn [kahn_loop]. destruct queue as [|node queue]; [done|].
  pose proof (relax_potential (dependents steps node) deg queue) as Hp.
  destruct (relax _ _ _) as [deg' queue']. apply IH. simpl in Hf. lia.
Qed.

Lemma count_dependencies_keys d s x :
  x ∈ dkeys (count_dependencies d s) → x = s.(step_id) ∨ x ∈ dkeys d.
Proof.
  unfold count_dependencies. set (d1 := if dmem d _ then d else _).
  assert (H1 : x ∈ dkeys d1 → x = s.(step_id) ∨ x ∈ dkeys d).
  { unfold d1. case_match; [by right|]. by rewrite elem_dkeys_set. }
  intros Hx. apply H1. clear H1. destruct (decide (x = s.(step_id))) as [->|Hne].
  - clear Hx. unfold d1. destruct (dmem d _) eqn:E; [by apply dmem_true|].
    apply elem_dkeys_set. by left.
  - clearbody d1. revert d1 Hx. induction s.(depends_on) as [|y l IH]; intros d1; simpl; [done|].
    intros Hx. apply IH in Hx. apply elem_dkeys_set in Hx as [?|?]; done.
Qed.

Lemma count_dependencies_dwf d s : dwf d → dwf (count_dependencies d s).
Proof.
  intros Hd. unfold count_dependencies. set (d1 := if dmem d _ then d else _).
  assert (H1 : dwf d1) by (unfold d1; case_match; [done|by apply dwf_set]). clearbody d1.
  revert d1 H1. induction s.(depends_on) as [|y l IH]; intros d1 H1; simpl; [done|].
  by apply IH, dwf_set.
Qed.

Lemma in_degree_dict steps :
  dwf (in_degree steps) ∧ ∀ x, x ∈ dkeys (in_degree steps) → x ∈ ids steps.
Proof.
  unfold in_degree. induction steps as [|s steps IH] using rev_ind; simpl.
  { split; [apply dwf_nil|]. intros x Hx. by apply elem_of_nil in Hx. }
  rewrite fold_left_app. simpl. destruct IH as [IH1 IH2]. split; [by apply count_dependencies_dwf|].
  intros x [->|Hx]%count_dependencies_keys; unfold ids; rewrite fmap_app, elem_of_app; [right; left|left].
  by apply IH2.
Qed.

(** The initial queue and the positive counters are different steps. *)
Lemma initial_potential steps :
  (length (initial_queue steps) + positives (in_degree steps) ≤ length steps)%nat.
Proof.
  destruct (in_degree_dict steps) as [Hwf Hkeys].
  set (deg := in_degree steps) in *. unfold initial_queue. fold deg.
  assert (Hp : (positives deg ≤ length (filter (λ x, ¬ get0 deg x = 0%Z) (ids steps)))%nat).
  { unfold positives. rewrite <-(length_fmap fst).
    apply submseteq_length, NoDup_submseteq.
    - eapply sublist_NoDup; [exact Hwf|]. apply fmap_sublist, sublist_filter.
    - intros x Hx. apply list_elem_of_fmap in Hx as ([k v] & -> & Hkv).
      apply list_elem_of_filter in Hkv as [Hv Hin]. simpl in *. apply list_elem_of_filter.
      unfold get0. rewrite (elem_dget _ _ _ Hwf Hin). split; [simpl; lia|].
      apply Hkeys. unfold dkeys. apply list_elem_of_fmap. by exists (k, v). }
  pose proof (length_filter_complement (λ x, get0 deg x = 0) (ids steps)) as Hc.
  unfold ids in *. rewrite length_fmap in Hc. lia.
Qed.

(** ** Kahn's algorithm decides acyclicity *)

(** Everything the steps called [x] depend on. *)
Definition deps steps (x : string) : list string :=
  mjoin (depends_on <$> filter (λ s, s.(step_id) = x) steps).

Lemma elem_deps steps x y : x ∈ deps steps y ↔ depends steps x y.
Proof.
  unfold deps, depends. rewrite list_elem_of_join. split.
  - intros (l & Hx & Hl). apply list_elem_of_fmap in Hl as (s & -> & Hs).
    apply list_elem_of_filter in Hs as [<- Hs]. eauto.
  - intros (s & Hs & <- & Hx). exists s.(depends_on). split; [done|].
    apply list_elem_of_fmap. exists s. split; [done|]. by apply list_elem_of_filter.
Qed.

Lemma deps_snoc steps s x :
  deps (steps ++ [s]) x = deps steps x ++ (if decide (s.(step_id) = x) then s.(depends_on) else []).
Proof.
  unfold deps. rewrite filter_app, fmap_app, join_app. f_equal.
  rewrite filter_cons, filter_nil. case_decide; simpl; by rewrite ?app_nil_r.
Qed.

Lemma in_degree_deps steps x : get0 (in_degree steps) x = Z.of_nat (length (deps steps x)).
Proof.
  unfold in_degree. induction steps as [|s steps IH] using rev_ind; [done|].
  rewrite fold_left_app, deps_snoc, length_app. cbn [fold_left].
  set (d := fold_left count_dependencies steps []) in *. unfold count_dependencies.
  set (d1 := if dmem d _ then d else _).
  assert (H1 : get0 d1 x = get0 d x).
  { unfold d1. destruct (dmem d _) eqn:E; [done|]. rewrite get0_set. case_decide as Hx; [|done].
    subst x. unfold get0. by rewrite (proj1 (dmem_false d _) E). }
  assert (H2 : ∀ (l : list string) d', get0 (fold_left (λ d _, dset d s.(step_id) (get0 d s.(step_id) + 1)) l d') x
    = get0 d' x + (if decide (s.(step_id) = x) then Z.of_nat (length l) else 0)).
  { clear. induction l as [|y l IH]; intros d'; simpl; [case_decide; lia|].
    rewrite IH, get0_set. repeat case_decide; subst; done || lia. }
  rewrite H2, H1, IH. case_decide; simpl; lia.
Qed.

Lemma occurrences_app x l1 l2 : occurrences x (l1 ++ l2) = occurrences x l1 + occurrences x l2.
Proof. unfold occurrences. rewrite filter_app, length_app. lia. Qed.

Lemma occurrences_dependents steps x node :
  occurrences x (dependents steps node) = occurrences node (deps steps x).
Proof.
  induction steps as [|s steps IH] using rev_ind; [done|].
  rewrite deps_snoc. unfold dependents in *. rewrite fmap_app, join_app, !occurrences_app, IH.
  f_equal. simpl. rewrite app_nil_r. clear.
  induction s.(depends_on) as [|d l IH]; [simpl; by case_decide|].
  rewrite filter_cons. destruct (decide (s.(step_id) = x)) as [E|E]; case_decide; csimpl;
    rewrite ?occurrences_cons, ?decide_True, ?decide_False by done; rewrite IH;
    unfold occurrences; simpl; done || lia.
Qed.

(** Removing a fresh node from what is still missing. *)
Lemma missing_snoc (L l : list string) (node : string) :
  node ∉ L →
  Z.of_nat (length (filter (λ d, d ∉ L ++ [node]) l))
    = Z.of_nat (length (filter (λ d, d ∉ L) l)) - occurrences node l.
Proof.
  intros Hn. induction l as [|d l IH]; [done|]. rewrite !filter_cons, occurrences_cons.
  assert (Hd : d ∉ L ++ [node] ↔ (d ∉ L) ∧ d ≠ node).
  { rewrite elem_of_app, list_elem_of_singleton. naive_solver. }
  repeat case_decide; simpl; subst; tauto || lia.
Qed.

(** What the loop keeps: [L] has been visited. *)
Record kahn_ok steps (L queue : list string) (deg : dict Z) : Prop := {
  ko_nodup : NoDup (L ++ queue);
  ko_ids : ∀ x, x ∈ L ++ queue → x ∈ ids steps;
  ko_deg : ∀ x, get0 deg x = Z.of_nat (length (filter (λ d, d ∉ L) (deps steps x)));
  ko_zero : ∀ x, x ∈ ids steps → (x ∈ L ++ queue ↔ get0 deg x = 0);
  ko_order : ordered (depends steps) L;
}.

Lemma none_missing steps (L : list string) x :
  Z.of_nat (length (filter (λ d, d ∉ L) (deps steps x))) = 0 ↔ ∀ y, depends steps y x → y ∈ L.
Proof.
  split.
  - intros H y Hy. apply elem_deps in Hy. destruct (decide (y ∈ L)) as [|Hn]; [done|].
    assert (H0 : filter (λ d, d ∉ L) (deps steps x) = []) by (apply length_zero_iff_nil; lia).
    exfalso. eapply (not_elem_of_nil y). rewrite <-H0. by apply list_elem_of_filter.
  - intros H. rewrite filter_none; [done|]. intros y Hy Hn. by apply Hn, H, elem_deps.
Qed.

Lemma kahn_ok_initial steps :
  NoDup (ids steps) → kahn_ok steps [] (initial_queue steps) (in_degree steps).
Proof.
  intros Hnd. unfold initial_queue. split; simpl.
  - by apply NoDup_filter.
  - intros x Hx. by apply list_elem_of_filter in Hx as [_ ?].
  - intros x. rewrite in_degree_deps. by rewrite filter_all; [|intros ? _; apply not_elem_of_nil].
  - intros x Hx. rewrite list_elem_of_filter. tauto.
  - intros L1 y L2 H. by destruct L1.
Qed.

Lemma kahn_ok_step steps L node queue deg deg' queue' :
  kahn_ok steps L (node :: queue) deg →
  relax (dependents steps node) deg queue = (deg', queue') →
  kahn_ok steps (L ++ [node]) queue' deg'.
Proof.
  intros [Hnd Hids Hdeg Hzero Hord] Hr.
  pose proof (relax_spec (dependents steps node) deg queue) as Hs. rewrite Hr in Hs.
  destruct Hs as (new & -> & Hnew & Hdeg' & Hin).
  assert (HnL : node ∉ L).
  { apply NoDup_app in Hnd as (_ & Hd & _). intros H. apply (Hd _ H). left. }
  assert (Hd' : ∀ x, get0 deg' x = Z.of_nat (length (filter (λ d, d ∉ L ++ [node]) (deps steps x)))).
  { intros x. by rewrite Hdeg', Hdeg, occurrences_dependents, missing_snoc. }
  assert (Hnew0 : ∀ x, x ∈ new ↔ 0 < get0 deg x ∧ get0 deg' x = 0).
  { intros x. rewrite Hin, Hdeg'. pose proof (Hd' x). pose proof (Hdeg' x). lia. }
  assert (Hpos : ∀ x, x ∈ new → x ∈ ids steps).
  { intros x Hx. apply Hin in Hx as [H0 H1]. rewrite occurrences_dependents in H1.
    destruct (deps steps x) as [|d l] eqn:E; [unfold occurrences in H1; simpl in H1; lia|].
    apply (depends_ids steps d), elem_deps. rewrite E. left. }
  assert (Happ : ∀ x, x ∈ (L ++ [node]) ++ queue ++ new ↔ x ∈ L ++ node :: queue ∨ x ∈ new).
  { intros x. rewrite !elem_of_app, list_elem_of_singleton, elem_of_cons. tauto. }
  split.
  - rewrite <-app_assoc. simpl. rewrite app_comm_cons, app_assoc. apply NoDup_app. split_and!; [done| |done].
    intros x Hx Hn. apply Hnew0 in Hn as [Hn _]. apply (Hzero x (Hids x Hx)) in Hx. lia.
  - intros x [Hx|Hx]%Happ; [by apply Hids|by apply Hpos].
  - done.
  - intros x Hx. rewrite Happ, (Hzero x Hx), Hnew0. pose proof (Hd' x). pose proof (Hdeg' x).
    pose proof (occurrences_nonneg x (dependents steps node)). pose proof (Hdeg x). lia.
  - apply ordered_snoc; [done|]. apply none_missing. rewrite <-Hdeg. apply Hzero.
    + apply Hids. rewrite elem_of_app. right. left.
    + rewrite elem_of_app. right. left.
Qed.

Lemma kahn_loop_spec fuel steps L queue deg n :
  kahn_ok steps L queue deg → kahn_loop fuel steps queue deg (length L) = Some n →
  ∃ L' deg', n = length L' ∧ kahn_ok steps L' [] deg'.
Proof.
  revert L queue deg. induction fuel as [|fuel IH]; intros L queue deg Hok; cbn [kahn_loop]; [done|].
  destruct queue as [|node queue].
  - intros [= <-]. eauto.
  - destruct (relax _ _ _) as [deg' queue'] eqn:Er. pose proof (kahn_ok_step _ _ _ _ _ _ _ Hok Er) as Hok'.
    intros H. apply (IH _ _ _ Hok'). by rewrite length_app, Nat.add_comm.
Qed.
(** ** The depth-first search decides acyclicity *)
Definition is_white (k : colour) : bool := match k with White => true | _ => false end.

Definition whites (c : dict colour) : nat := length (filter (λ kv, is_white kv.2 = true) c).

Lemma whites_set c x k k' :
  dget c x = Some k →
  (whites (dset c x k') + (if is_white k then 1 else 0)
    = whites c + (if is_white k' then 1 else 0))%nat.
Proof.
  unfold whites. induction c as [|[y v] c IH]; [done|]. cbn [dget dset].
  destruct (decide (x = y)) as [->|]; intros H; simplify_eq.
  - rewrite !filter_cons. simpl. destruct k, k'; simpl; lia.
  - specialize (IH H). rewrite !filter_cons. simpl. destruct v; simpl; lia.
Qed.

(** What the search keeps: [L] lists the finished nodes, every node that depends on
    one of them before it. *)
Record dfs_ok steps (L : list string) (c : dict colour) : Prop := {
  do_nodup : NoDup L;
  do_keys : ∀ x, x ∈ ids steps → is_Some (dget c x);
  do_black : ∀ x, dget c x = Some Black ↔ x ∈ L;
  do_order : ordered (λ x y, depends steps y x) L;
}.

(** The search from a node: it ends, finishes the node, leaves the nodes on the
    path as they were, and raises only on a cycle. *)
Definition dfs_result steps (L : list string) (c : dict colour) (goal : list string)
    (out : option (result WorkflowError (dict colour))) : Prop :=
  match out with
  | None => False
  | Some (Ok c') => ∃ L', dfs_ok steps L' c' ∧ L ⊆ L' ∧ goal ⊆ L' ∧
      (∀ x, dget c' x = Some Gray ↔ dget c x = Some Gray) ∧ (whites c' ≤ whites c)%nat
  | Some (Raise e) => e = CircularDependency ∧ ∃ x, tc (depends steps) x x
  end.

Lemma dfs_result_weaken steps L L0 c c0 g g0 out :
  dfs_result steps L c g out → L0 ⊆ L → (∀ L', L ⊆ L' → g ⊆ L' → g0 ⊆ L') →
  (∀ x, dget c x = Some Gray ↔ dget c0 x = Some Gray) → (whites c ≤ whites c0)%nat →
  dfs_result steps L0 c0 g0 out.
Proof.
  destruct out as [[c'|e]|]; simpl; [|done|done].
  intros (L' & H1 & H2 & H3 & H4 & H5) HL Hg Hgray Hw. exists L'. split_and!; try done.
  - set_solver.
  - by apply Hg.
  - intros x. by rewrite H4, Hgray.
  - lia.
Qed.

Lemma dfs_ok_gray steps L c x :
  dfs_ok steps L c → dget c x = Some White → dfs_ok steps L (dset c x Gray).
Proof.
  intros [H1 H2 H3 H4] Hx. split; [done| | |done].
  - intros y Hy. rewrite dget_set. case_decide; [by eexists|by apply H2].
  - intros y. rewrite dget_set. case_decide; [subst|done]. rewrite <-H3. split; congruence.
Qed.

Lemma dfs_ok_black steps L c x :
  dfs_ok steps L c → dget c x = Some Gray → dependents steps x ⊆ L →
  dfs_ok steps (L ++ [x]) (dset c x Black).
Proof.
  intros [H1 H2 H3 H4] Hx Hd. split.
  - apply NoDup_app. split_and!; [done| |apply NoDup_singleton].
    intros y Hy ->%list_elem_of_singleton. apply H3 in Hy. congruence.
  - intros y Hy. rewrite dget_set. case_decide; [by eexists|by apply H2].
  - intros y. rewrite dget_set, elem_of_app, list_elem_of_singleton, <-H3. case_decide; naive_solver.
  - apply ordered_snoc; [done|]. intros y Hy. by apply Hd, elem_dependents.
Qed.

Lemma dag_dfs_spec steps fuel : ∀ L c node,
  (whites c < fuel)%nat → dfs_ok steps L c → dget c node = Some White →
  (∀ g, dget c g = Some Gray → tc (depends steps) g node) →
  dfs_result steps L c [node] (dfs fuel steps c node).
Proof.
  induction fuel as [|fuel IH]; intros L c node Hw Hok Hnode Hgray; [lia|].
  cbn [dfs].
  match goal with |- context [match ?f (dependents steps node) ?c0 with _ => _ end] =>
    set (go := f); set (c1 := c0) end.
  assert (Hgo : ∀ ns L2 c2, ns ⊆ dependents steps node → dfs_ok steps L2 c2 →
    (whites c2 < fuel)%nat → (∀ x, dget c2 x = Some Gray ↔ dget c1 x = Some Gray) →
    dfs_result steps L2 c2 ns (go ns c2)).
  { intros ns. induction ns as [|n ns IHns]; intros L2 c2 Hns Hok2 Hw2 Hg2.
    { simpl. exists L2. split_and!; try done; set_solver. }
    assert (Hn : depends steps node n) by (apply elem_dependents, Hns; left).
    assert (Hns' : ns ⊆ dependents steps node) by set_solver.
    destruct (do_keys _ _ _ Hok2 n (depends_ids _ _ _ Hn)) as [k Hk].
    change (go (n :: ns) c2) with (match dget c2 n with
      | Some Gray => Some (Raise CircularDependency)
      | Some White => match dfs fuel steps c2 n with
                      | Some (Ok color') => go ns color'
                      | out => out end
      | _ => go ns c2 end).
    rewrite Hk. destruct k.
    - assert (Hr : dfs_result steps L2 c2 [n] (dfs fuel steps c2 n)).
      { apply IH; [done..|]. intros g Hg. apply Hg2 in Hg. unfold c1 in Hg. rewrite dget_set in Hg.
        case_decide; subst; [by apply tc_once|]. eapply tc_r; [by apply Hgray|done]. }
      destruct (dfs fuel steps c2 n) as [[c3|e]|]; simpl in Hr; [|done|done].
      destruct Hr as (L3 & Hok3 & HL3 & Hn3 & Hg3 & Hw3).
      eapply dfs_result_weaken; [apply (IHns L3 c3)|done| |done|done]; try done.
      + lia.
      + intros x. by rewrite Hg3, Hg2.
      + intros L' HL' Hns3. set_solver.
    - simpl. split; [done|]. apply Hg2 in Hk. unfold c1 in Hk. rewrite dget_set in Hk.
      case_decide as Heq; [subst; exists node; by apply tc_once|].
      exists n. eapply tc_r; [by apply Hgray|done].
    - eapply dfs_result_weaken; [by apply (IHns L2 c2)|done| |done|done].
      intros L' HL' Hns2. apply (do_black _ _ _ Hok2) in Hk. set_solver. }
  pose proof (whites_set c node White Gray Hnode) as Hwn. simpl in Hwn. fold c1 in Hwn.
  assert (Hr : dfs_result steps L c1 (dependents steps node) (go (dependents steps node) c1)).
  { apply Hgo; [done|by apply dfs_ok_gray|lia|done]. }
  clearbody go. destruct (go _ c1) as [[c2|e]|]; simpl in Hr |- *; [|done|done].
  destruct Hr as (L2 & Hok2 & HL2 & Hd2 & Hg2 & Hw2). exists (L2 ++ [node]).
  assert (Hn2 : dget c2 node = Some Gray) by (apply Hg2; unfold c1; by rewrite dget_set, decide_True).
  split_and!; [by apply dfs_ok_black|set_solver|set_solver| |].
  - intros x. rewrite dget_set. case_decide as Hx; [subst; split; congruence|].
    rewrite Hg2. unfold c1. by rewrite dget_set, decide_False.
  - pose proof (whites_set c2 node Gray Black Hn2) as H. simpl in H. lia.
Qed.

Lemma dfs_all_spec steps fuel todo L c :
  (whites c < fuel)%nat → dfs_ok steps L c → (∀ x, dget c x ≠ Some Gray) → todo ⊆ ids steps →
  dfs_result steps L c todo (dfs_all fuel steps todo c).
Proof.
  revert L c. induction todo as [|x todo IH]; intros L c Hw Hok Hg Ht; cbn [dfs_all].
  { simpl. exists L. split_and!; try done; set_solver. }
  destruct (do_keys _ _ _ Hok x) as [k Hk]; [apply Ht; left|]. rewrite Hk.
  assert (Ht' : todo ⊆ ids steps) by set_solver.
  destruct k; [|by apply Hg in Hk|].
  - assert (Hr : dfs_result steps L c [x] (dfs fuel steps c x)).
    { apply dag_dfs_spec; [done..|]. intros g Hgg. by apply Hg in Hgg. }
    destruct (dfs fuel steps c x) as [[c1|e]|]; simpl in Hr; [|done|done].
    destruct Hr as (L1 & Hok1 & HL1 & Hx1 & Hg1 & Hw1).
    eapply dfs_result_weaken; [apply (IH L1 c1)|done| |done|done]; try done; [lia| |].
    + intros y. rewrite Hg1. apply Hg.
    + set_solver.
  - eapply dfs_result_weaken; [by apply (IH L c)|done| |done|done].
    intros L' HL' Hl. apply (do_black _ _ _ Hok) in Hk. set_solver.
Qed.
Lemma all_white_get steps x : dget (all_white steps) x = if decide (x ∈ ids steps) then Some White else None.
Proof.
  unfold all_white. case_decide as H.
  - destruct (dget _ x) as [k|] eqn:E.
    + apply (fold_dset_elem step_id (λ _, White)) in E as [E|(s & _ & _ & <-)]; done.
    + apply dget_None in E. destruct E. apply (elem_fold_dset step_id (λ _, White)). by right.
  - apply dget_None. rewrite (elem_fold_dset step_id (λ _, White)). intros [E|E]; [|done].
    by apply elem_of_nil in E.
Qed.

Lemma all_white_size steps : (whites (all_white steps) ≤ length steps)%nat.
Proof.
  assert (H : ∀ l (d : dict colour), (length (fold_left (λ d (s : WorkflowStep V), dset d s.(step_id) White) l d)
    ≤ length d + length l)%nat).
  { induction l as [|s l IH]; intros d; simpl; [lia|]. rewrite IH.
    assert (length (dset d s.(step_id) White) ≤ S (length d))%nat; [|lia].
    clear. induction d as [|[k v] d IH]; simpl; [lia|]. case_decide; simpl; lia. }
  unfold whites. rewrite length_filter. apply (H steps []).
Qed.

(** The depth-first validation, exactly. *)
Lemma validate_spec steps :
  ∃ out, _validate steps = Some out ∧
    match out with
    | Ok _ => known steps ∧ ∃ L, NoDup L ∧ ids steps ⊆ L ∧ ordered (λ x y, depends steps y x) L
    | Raise (UnknownDependency y x) => (x ∉ ids steps) ∧ depends steps x y
    | Raise CircularDependency => known steps ∧ ∃ x, tc (depends steps) x x
    | Raise BadQuorumFraction => False
    end.
Proof.
  unfold _validate. pose proof (unknown_dependency_spec steps) as Hu.
  destruct (unknown_dependency steps) as [e|].
  { destruct Hu as (y & x & -> & Hd & Hn). eexists. by split_and!. }
  assert (Hr : dfs_result steps [] (all_white steps) (ids steps)
    (dfs_all (S (length steps)) steps (ids steps) (all_white steps))).
  { apply dfs_all_spec; [|split| |done].
    - pose proof (all_white_size steps). lia.
    - apply NoDup_nil_2.
    - intros x Hx. rewrite all_white_get, decide_True by done. by eexists.
    - intros x. rewrite all_white_get. case_decide; split; intros H0; try done; by apply elem_of_nil in H0.
    - intros L1 y L2 H. by destruct L1.
    - intros x. rewrite all_white_get. by case_decide. }
  destruct (dfs_all _ _ _ _) as [[c|e]|]; simpl in Hr; [| |done].
  - destruct Hr as (L & [H1 H2 H3 H4] & _ & HL & _). eexists. split; [done|]. simpl. eauto 10.
  - destruct Hr as [-> Hc]. eexists. by split.
Qed.

Lemma tc_flip {A} (R : relation A) x y : tc R x y → tc (λ a b, R b a) y x.
Proof. induction 1 as [x y H|x y z H _ IH]; [by apply tc_once|]. eapply tc_r; [done|]. exact H. Qed.

Lemma tc_ids steps x y : tc (depends steps) x y → y ∈ ids steps.
Proof. induction 1; [by eapply depends_ids|done]. Qed.

Lemma validate_ok_iff steps : _validate steps = Some (Ok tt) ↔ known steps ∧ acyclic steps.
Proof.
  destruct (validate_spec steps) as (out & -> & H). split.
  - intros [= ->]. destruct H as (Hk & L & Hnd & Hids & Hord). split; [done|].
    intros x Hx. apply (ordered_irreflexive (λ x y, depends steps y x) L x); [done..| |].
    + apply Hids. by eapply tc_ids.
    + by apply tc_flip in Hx.
  - intros [Hk Hc]. destruct out as [[]|[y x| |]].
    + done.
    + destruct H as [H1 H2]. destruct H1. by apply (Hk x y).
    + destruct H as [_ [x Hx]]. by apply Hc in Hx.
    + done.
Qed.

(** A rank that grows along dependencies, below the number of steps. *)
Lemma acyclic_rank steps :
  known steps → acyclic steps →
  ∃ rank : string → nat, (∀ x, x ∈ ids steps → rank x < length steps)%nat ∧
    ∀ x y, depends steps x y → (rank x < rank y)%nat.
Proof.
  intros Hk Hc. destruct (validate_spec steps) as (out & Hv & H).
  rewrite (proj2 (validate_ok_iff steps) (conj Hk Hc)) in Hv. injection Hv as <-.
  destruct H as (_ & L & Hnd & Hids & Hord).
  set (pos x := default 0%nat (fst <$> list_find (λ y, y = x) L)).
  assert (Hpos : ∀ x, x ∈ L → L !! pos x = Some x).
  { intros x Hx. unfold pos. destruct (list_find (λ y, y = x) L) as [[i y]|] eqn:E; simpl.
    - by apply list_find_Some in E as (? & -> & _).
    - exfalso. apply list_find_None in E. rewrite Forall_forall in E. by apply (E x Hx). }
  assert (Hlt : ∀ x y, depends steps x y → (pos y < pos x)%nat).
  { intros x y Hxy. assert (Hx : x ∈ L) by (by eapply Hids, Hk).
    assert (Hy : y ∈ L) by (by eapply Hids, depends_ids).
    destruct (ordered_rank _ L y x Hord Hnd Hx Hxy) as (i & j & Hi & Hj & Hij).
    rewrite (NoDup_lookup L (pos y) i y), (NoDup_lookup L (pos x) j x); auto. }
  exists (λ x, length (filter (λ y, (pos x < pos y)%nat) (remove_dups (ids steps)))). split.
  - intros x Hx. apply (Nat.lt_le_trans _ (length (remove_dups (ids steps)))).
    + eapply length_filter_lt; [by apply elem_of_remove_dups|]. simpl. lia.
    + rewrite <-(length_fmap step_id steps). apply submseteq_length, NoDup_submseteq.
      * apply NoDup_remove_dups.
      * intros y Hy. exact (proj1 (elem_of_remove_dups _ _) Hy).
  - intros x y Hxy. apply Hlt in Hxy as Hlt'. apply length_filter_strict with (x := x).
    + intros z. lia.
    + by eapply elem_of_remove_dups, Hk.
    + done.
    + simpl. lia.
Qed.

(** Kahn's validation ends, whatever the steps. *)
Lemma validate_dependencies_total steps : is_Some (_validate_dependencies steps).
Proof.
  unfold _validate_dependencies. destruct (unknown_dependency steps); [by eexists|].
  destruct (kahn steps) as [n|] eqn:Hn; [by eexists|].
  exfalso. revert Hn. apply kahn_loop_total. pose proof (initial_potential steps). lia.
Qed.

(** Kahn's validation, exactly, for steps with names of their own. *)
Lemma validate_dependencies_ok_iff steps :
  NoDup (ids steps) → _validate_dependencies steps = Some (Ok tt) ↔ known steps ∧ acyclic steps.
Proof.
  intros Hnd. unfold _validate_dependencies. pose proof (unknown_dependency_spec steps) as Hu.
  destruct (unknown_dependency steps) as [e|].
  { destruct Hu as (y & x & -> & Hd & Hn). split; [done|]. intros [Hk _]. by apply Hk in Hd. }
  destruct (kahn steps) as [n|] eqn:Hn; cycle 1.
  { exfalso. revert Hn. apply kahn_loop_total. pose proof (initial_potential steps). lia. }
  apply (kahn_loop_spec _ _ []) in Hn as (L & deg & -> & [H1 H2 H3 H4 H5]); [|by apply kahn_ok_initial].
  rewrite app_nil_r in *. assert (Hlen : (length L = length steps ↔ ids steps ⊆ L)).
  { assert (L ⊆+ ids steps) by (by apply NoDup_submseteq). unfold ids in *. split.
    - intros Hl. assert (L ≡ₚ step_id <$> steps) as ->; [|done].
      apply submseteq_length_Permutation; [done|]. rewrite length_fmap. lia.
    - intros Hi. apply Nat.le_antisymm.
      + rewrite <-(length_fmap step_id steps). by apply submseteq_length.
      + rewrite <-(length_fmap step_id steps). by apply submseteq_length, NoDup_submseteq. }
  case_decide as Hd.
  - split; [|done]. intros _. split; [done|]. intros x Hx.
    apply (ordered_irreflexive (depends steps) L x); [done..| |done].
    apply Hlen; [done|]. by eapply tc_ids.
  - split; [done|]. intros [Hk Hc]. destruct Hd. apply Hlen.
    destruct (acyclic_rank steps Hk Hc) as (rank & _ & Hrank).
    assert (H : ∀ m x, (rank x < m)%nat → x ∈ ids steps → x ∈ L).
    { induction m as [|m IH]; intros x Hm Hx; [lia|]. apply H4; [done|]. rewrite H3.
      apply none_missing. intros y Hy. apply IH; [|by apply (Hk y x)].
      apply Hrank in Hy. lia. }
    intros x Hx. apply (H (S (rank x))); [lia|done].
Qed.

(** C21. The two validations decide the same thing: for steps with distinct ids, Kahn's
    algorithm and the depth-first search both end, give the same verdict (the same
    unknown dependency, or a cycle), and accept exactly when every dependency is a
    step and no step depends, through any chain, on itself. *)
Theorem validations_agree steps :
  NoDup (ids steps) →
  ∃ out, _validate_dependencies steps = Some out ∧ _validate steps = Some out ∧
    (out = Ok tt ↔ known steps ∧ acyclic steps).
Proof.
  intros Hnd. pose proof (validate_dependencies_ok_iff steps Hnd) as Hp.
  pose proof (validate_ok_iff steps) as Hv.
  destruct (validate_spec steps) as (out & Eout & Hout). rewrite Eout in Hv.
  exists out. split_and!; [|done|rewrite <-Hv; naive_solver].
  unfold _validate_dependencies, _validate in *. pose proof (unknown_dependency_spec steps) as Hu.
  destruct (unknown_dependency steps) as [e|]; [done|].
  destruct (kahn steps) as [n|] eqn:Hn; cycle 1.
  { exfalso. revert Hn. apply kahn_loop_total. pose proof (initial_potential steps). lia. }
  destruct (dfs_all _ _ _ _) as [[c|e]|]; simplify_eq; case_decide; try done.
  - by rewrite (proj2 Hp (proj1 Hv eq_refl)).
  - destruct e; [naive_solver| |done]. by rewrite (proj2 Hv (proj1 Hp eq_refl)) in *.
  - destruct e; [naive_solver|done|done].
Qed.
(** ** Depths *)

(** A memo table in which every depth is one more than the deepest dependency's. *)
Definition consistent steps (depth : dict nat) : Prop :=
  ∀ x n, dget depth x = Some n → ∃ s, dget (step_map steps) x = Some s ∧
    (∀ d, d ∈ s.(depends_on) → ∃ m, dget depth d = Some m ∧ (m < n)%nat) ∧
    (n = 0%nat ∨ ∃ d, d ∈ s.(depends_on) ∧ dget depth d = Some (pred n) ∧ n ≠ 0%nat).

Definition extends (d1 d2 : dict nat) : Prop := ∀ x n, dget d1 x = Some n → dget d2 x = Some n.

Lemma consistent_set steps depth x s n :
  consistent steps depth → dget depth x = None → dget (step_map steps) x = Some s →
  (x ∉ s.(depends_on)) →
  (∀ d, d ∈ s.(depends_on) → ∃ m, dget depth d = Some m ∧ (m < n)%nat) →
  (n = 0%nat ∨ ∃ d, d ∈ s.(depends_on) ∧ dget depth d = Some (pred n) ∧ n ≠ 0%nat) →
  consistent steps (dset depth x n) ∧ extends depth (dset depth x n).
Proof.
  intros Hc Hx Hs Hns Hd Hn.
  assert (He : extends depth (dset depth x n)).
  { intros y m Hy. rewrite dget_set. case_decide; [congruence|done]. }
  split; [|done]. intros y m. rewrite dget_set. case_decide as Hyx; intros Hy; simplify_eq.
  - exists s. split_and!; [done| |].
    + intros d Hin. destruct (Hd d Hin) as (k & Hk & ?). exists k. split; [by apply He|done].
    + destruct Hn as [?|(d & Hin & Hk & ?)]; [by left|]. right. exists d. split_and!; [done|by apply He|done].
  - destruct (Hc y m Hy) as (s' & Hs' & H1 & H2). exists s'. split_and!; [done| |].
    + intros d Hin. destruct (H1 d Hin) as (k & Hk & ?). exists k. split; [by apply He|done].
    + destruct H2 as [?|(d & Hin & Hm & ?)]; [by left|]. right. exists d. split_and!; [done|by apply He|done].
Qed.

Section levels.
Context (steps : list (WorkflowStep V)) (rank : string → nat).
Context (Hknown : known steps) (Hrank : ∀ x y, depends steps x y → (rank x < rank y)%nat).

(** What a call for [x] does to the table: only ranks up to [b] are added. *)
Definition depth_result (b : nat) (depth depth' : dict nat) : Prop :=
  consistent steps depth' ∧ extends depth depth' ∧
  ∀ y, dget depth y = None → is_Some (dget depth' y) → (rank y < b)%nat.

Lemma depth_result_refl b d : consistent steps d → depth_result b d d.
Proof. intros Hc. split_and!; [done|by intros x n|]. intros y H1 [? H2]. congruence. Qed.

Lemma depth_result_trans b d1 d2 d3 :
  depth_result b d1 d2 → depth_result b d2 d3 → depth_result b d1 d3.
Proof.
  intros (H1 & H2 & H3) (H4 & H5 & H6). split_and!; [done| |].
  - intros x n Hx. by apply H5, H2.
  - intros y Hy Hsome. destruct (dget d2 y) eqn:E; [apply H3; [done|by rewrite E]|by apply H6].
Qed.

Lemma depth_result_le b b' d1 d2 :
  (b ≤ b')%nat → depth_result b d1 d2 → depth_result b' d1 d2.
Proof. intros Hb (H1 & H2 & H3). split_and!; [done..|]. intros y Hy Hs. specialize (H3 y Hy Hs). lia. Qed.

Lemma get_depth_spec fuel : ∀ depth x,
  (rank x < fuel)%nat → x ∈ ids steps → consistent steps depth →
  ∃ n depth', get_depth fuel steps depth x = Some (n, depth') ∧
    depth_result (S (rank x)) depth depth' ∧ dget depth' x = Some n.
Proof.
  induction fuel as [|fuel IH]; intros depth x Hf Hx Hc; [lia|]. cbn [get_depth].
  destruct (dget depth x) as [n|] eqn:E.
  { exists n, depth. split; [done|]. split; [by apply depth_result_refl|done]. }
  destruct (dget (step_map steps) x) as [s|] eqn:Es; cycle 1.
  { apply step_map_key in Hx. apply dmem_false in Es. congruence. }
  destruct (step_map_step _ _ _ Es) as [Hs Hid].
  assert (Hdep : ∀ d, d ∈ s.(depends_on) → depends steps d x) by (intros d Hd; by exists s).
  assert (Hself : x ∉ s.(depends_on)).
  { intros H. apply Hdep, Hrank in H. lia. }
  assert (Hdeep : ∀ ds depth0 acc, ds ⊆ s.(depends_on) → consistent steps depth0 →
    ∃ n depth1, deepest (get_depth fuel steps) ds depth0 acc = Some (n, depth1) ∧ depth_result (rank x) depth0 depth1 ∧
      (acc ≤ n)%nat ∧ (∀ d, d ∈ ds → ∃ m, dget depth1 d = Some m ∧ (m ≤ n)%nat) ∧
      (n = acc ∨ ∃ d, d ∈ ds ∧ dget depth1 d = Some n)).
  { induction ds as [|d ds IHds]; intros depth0 acc Hds Hc0.
    { exists acc, depth0. split; [done|]. split; [by apply depth_result_refl|].
      split_and!; [done|set_solver|by left]. }
    assert (Hd : depends steps d x) by (apply Hdep, Hds; left).
    pose proof (Hrank _ _ Hd) as Hlt.
    destruct (IH depth0 d) as (m & depth2 & Hg & Hr & Hm); [lia|by apply (Hknown d x)|done|].
    cbn [deepest]. rewrite Hg. destruct (IHds depth2 (acc `max` m)%nat) as (n & depth1 & Hg1 & Hr1 & Hacc & Hall & Hmax);
      [set_solver|apply Hr|].
    exists n, depth1. split_and!; [done| |lia| |].
    - eapply depth_result_trans; [|done]. eapply depth_result_le; [|done]. lia.
    - intros d' [->|Hd']%elem_of_cons; [|by apply Hall]. eexists. split; [by apply Hr1|lia].
    - destruct Hmax as [->|(d' & Hd' & Hn)]; [|right; exists d'; split; [by right|done]].
      destruct (Nat.max_spec acc m) as [[_ ->]|[_ ->]]; [|by left].
      right. exists d. split; [left|]. by apply Hr1. }
  destruct s.(depends_on) as [|d0 ds0] eqn:Eds.
  { exists 0%nat, (dset depth x 0%nat). split_and!; [done| |by rewrite dget_set, decide_True].
    destruct (consistent_set steps depth x s 0%nat) as [H1 H2]; try done.
    - rewrite Eds. set_solver.
    - rewrite Eds. set_solver.
    - by left.
    - split_and!; [done..|]. intros y Hy. rewrite dget_set. case_decide; [subst; lia|].
      rewrite Hy. by intros [? ?]. }
  destruct (Hdeep (d0 :: ds0) depth 0%nat) as (n & depth1 & -> & Hr & _ & Hall & Hmax); [done..|].
  exists (S n), (dset depth1 x (S n)). split_and!; [done| |by rewrite dget_set, decide_True].
  assert (Hx1 : dget depth1 x = None).
  { destruct (dget depth1 x) eqn:E1; [|done]. destruct Hr as (_ & _ & Hr).
    specialize (Hr x E ltac:(by rewrite E1)). lia. }
  destruct (consistent_set steps depth1 x s (S n)) as [H1 H2]; [apply Hr|done|done| | | |].
  - by rewrite Eds.
  - rewrite Eds. intros d Hd. destruct (Hall d Hd) as (m & Hm & ?). exists m. split; [done|lia].
  - right. rewrite Eds. simpl. destruct Hmax as [->|(d & Hd & Hm)]; [|by exists d].
    destruct (Hall d0 ltac:(left)) as (m & Hm & ?). exists d0. split_and!; [left| |done].
    rewrite Hm. f_equal. lia.
  - split_and!; [done| |].
    + intros y m Hy. apply H2. by apply Hr.
    + intros y Hy. rewrite dget_set. case_decide; [subst; lia|]. intros Hsome.
      destruct Hr as (_ & _ & Hr). specialize (Hr y Hy Hsome). lia.
Qed.

Lemma depths_spec fuel todo depth :
  (∀ x, x ∈ ids steps → rank x < fuel)%nat → todo ⊆ ids steps → consistent steps depth →
  ∃ depth', depths fuel steps todo depth = Some depth' ∧ consistent steps depth' ∧
    extends depth depth' ∧ ∀ x, x ∈ todo → is_Some (dget depth' x).
Proof.
  intros Hf. revert depth. induction todo as [|x todo IH]; intros depth Ht Hc; cbn [depths].
  { exists depth. split; [done|]. split; [done|]. split; [by intros y n|set_solver]. }
  assert (Hx : x ∈ ids steps) by (apply Ht; left).
  edestruct (get_depth_spec fuel depth x) as (n & d1 & -> & (H1 & H2 & _) & Hn); [by apply Hf|done..|].
  destruct (IH d1) as (d2 & -> & H3 & H4 & H5); [set_solver|done|].
  exists d2. split_and!; try done.
  - intros y m Hy. by apply H4, H2.
  - intros y [->|Hy]%elem_of_cons; [|by apply H5]. eexists. by apply H4.
Qed.
End levels.

(** The levels of validated steps: step [s] is in level [depth s], deeper than all
    it depends on; roots are in level 0. *)
Lemma compute_levels_spec steps :
  NoDup (ids steps) → known steps → acyclic steps →
  ∃ depth top, _compute_levels steps =
      Some ((λ n, filter (λ s, depth s.(step_id) = n) steps) <$> seq 0 (S top)) ∧
    (∀ s, s ∈ steps → (depth s.(step_id) ≤ top)%nat) ∧
    (∀ x y, depends steps x y → (depth x < depth y)%nat) ∧
    (∀ s, s ∈ steps → s.(depends_on) = [] → depth s.(step_id) = 0%nat).
Proof.
  intros Hnd Hk Hc. destruct (acyclic_rank steps Hk Hc) as (rank & Hr1 & Hr2).
  destruct (depths_spec steps rank Hk Hr2 (S (length steps)) (ids steps) []) as (d & Ed & Hd & _ & Hall).
  { intros x Hx. specialize (Hr1 x Hx). lia. }
  { done. }
  { intros x n H. done. }
  exists (λ x, default 0%nat (dget d x)), (foldr max 0%nat (dvalues d)).
  unfold _compute_levels. rewrite Ed. split_and!; [done| | |].
  - intros s Hs. destruct (dget d (step_id s)) as [n|] eqn:E; simpl; [|lia].
    apply dget_Some_elem in E. assert (Hn : n ∈ dvalues d) by (apply list_elem_of_fmap; by exists (step_id s, n)).
    revert Hn. generalize (dvalues d). clear. induction l as [|m l IH]; simpl; [set_solver|].
    intros [->|Hn]%elem_of_cons; [lia|]. specialize (IH Hn). lia.
  - intros x y (s & Hs & <- & Hx). assert (Hi : s.(step_id) ∈ ids steps) by (apply elem_ids; eauto).
    destruct (Hall _ Hi) as [n Hn]. destruct (Hd _ _ Hn) as (s' & Hs' & H1 & _).
    rewrite (step_map_get _ _ Hnd Hs) in Hs'. injection Hs' as <-.
    destruct (H1 x Hx) as (m & -> & ?). by rewrite Hn.
  - intros s Hs Hnil. assert (Hi : s.(step_id) ∈ ids steps) by (apply elem_ids; eauto).
    destruct (Hall _ Hi) as [n Hn]. destruct (Hd _ _ Hn) as (s' & Hs' & _ & H2).
    rewrite (step_map_get _ _ Hnd Hs) in Hs'. injection Hs' as <-. rewrite Hn. simpl.
    destruct H2 as [->|(d0 & Hd0 & _)]; [done|]. rewrite Hnil in Hd0. by apply elem_of_nil in Hd0.
Qed.
(** Two steps with the same id and a dependency are called a cycle by Kahn's
    validation, whose visits are compared with the number of steps, though no step
    depends on itself; the depth-first validation accepts them. *)
Theorem duplicate_ids_called_circular :
  let step i d := mkStep (F:=F) (V:=V) "agent" "act" [] i None d in
  let steps := [step "a" []; step "b" ["a"]; step "b" ["a"]] in
  _validate_dependencies steps = Some (Raise CircularDependency) ∧
  _validate steps = Some (Ok tt) ∧ acyclic steps.
Proof.
  intros step steps. assert (Hv : _validate steps = Some (Ok tt)) by reflexivity.
  split_and!; [reflexivity|done|]. by apply validate_ok_iff in Hv as [_ ?].
Qed.
End dag.

(** A diamond: both validations accept it. *)
Lemma validations_agree_witness :
  let step i d := mkStep (F:=QF) (V:=Z) "agent" "act" [] i None d in
  let steps := [step "plan" []; step "a" ["plan"]; step "b" ["plan"]; step "merge" ["a"; "b"]] in
  NoDup (ids steps) ∧ ∃ out, _validate_dependencies steps = Some out ∧ _validate steps = Some out ∧
    (out = Ok tt ↔ known steps ∧ acyclic steps).
Proof.
  assert (Hnd : NoDup (ids (F:=QF) (V:=Z) [mkStep "agent" "act" [] "plan" None [];
      mkStep "agent" "act" [] "a" None ["plan"]; mkStep "agent" "act" [] "b" None ["plan"];
      mkStep "agent" "act" [] "merge" None ["a"; "b"]])).
  { apply NoDup_ListNoDup. repeat constructor; simpl; intuition discriminate. }
  split; [exact Hnd|]. exact (validations_agree _ Hnd).
Defined.
