(* ===== verification/DagExec.v ===== *)
(** * Executing dependency graphs ([workflows/parallel.py],
      [workflows/hierarchical.py]: [execute])

    Agents started together run concurrently, in any interleaving: [run_of w i s]
    is what the [i]-th step [s] of a wave started in the world [w] did, and
    [after_wave w ss] the world when the wave [ss] has been gathered.  Both
    executors are proved to implement one specification, [settles]. *)
From stdpp Require Import base list sets relations strings.
From Stdlib Require Import ZArith QArith Lia.
From S2P Require Import Prelude PyDict PyFloat Workflow Dag.
#[local] Close Scope Q_scope.

Section exec.
Context {F : PyFloat} {V W : Type}.
Context (run_of : W → nat → WorkflowStep V → step_run V).
Context (after_wave : W → list (WorkflowStep V) → W).
Implicit Types (steps : list (WorkflowStep V)) (s : WorkflowStep V) (w : W).
Implicit Types (results : dict (StepResult V)) (waves : list (list (WorkflowStep V))).

(** [asyncio.gather] of [self._run_step(s)] for [s] in the wave, zipped with the wave;
    [None]: an exception leaves [gather]. *)
Definition gather (wave : list (WorkflowStep V)) w
    : option (list (WorkflowStep V * StepResult V)) * W :=
  (mapM (λ p : nat * WorkflowStep V, pair p.2 <$> _run_step false p.2 (run_of w p.1 p.2))
     (imap pair wave), after_wave w wave).

(** [results[step.step_id] = result] for each pair. *)
Definition store results (srs : list (WorkflowStep V * StepResult V)) : dict (StepResult V) :=
  fold_left (λ d sr, dset d sr.1.(step_id) sr.2) srs results.

(** The result of a step that is not run because of a dependency. *)
Definition skipped (msg : string) s : StepResult V :=
  mkResult s.(step_id) false None f0 (Some (ErrorText msg)).

(** [[results[s.step_id] for s in steps if s.step_id in results]] *)
Definition in_order results steps : list (StepResult V) :=
  omap (λ s, dget results s.(step_id)) steps.

Definition finish results steps (t0 t1 : float) : execution V :=
  Finished (mkWorkflow (in_order results steps) (overall (in_order results steps))
    (elapsed_ms t0 t1)).

(** ** The parallel executor *)
Inductive readiness : Type := Waits | Skips | Starts.

#[global] Instance readiness_eq_dec : EqDecision readiness.
Proof. solve_decision. Defined.

Definition readiness_of results s : readiness :=
  let dep_results := (λ d, dget results d) <$> s.(depends_on) in
  if negb (forallb (λ r, match r with Some _ => true | None => false end) dep_results) then Waits
  else if existsb (λ r, match r with Some r => negb r.(success) | None => false end) dep_results
  then Skips else Starts.

(** The [while remaining] loop: the results, and the waves started (the code's
    [launched]); an inner [None] is an exception of an agent.  Every step of
    [ready] and [skip_now] is removed from [remaining]; [list.remove] drops the first
    equal step, which has the same dependencies and is in the same list. *)
Fixpoint parallel_loop (fuel : nat) results (remaining : list (WorkflowStep V)) w
    : option (option (dict (StepResult V) * list (list (WorkflowStep V))) * W) :=
  match fuel with
  | O => None
  | S fuel' =>
      match remaining with
      | [] => Some (Some (results, []), w)
      | _ =>
          let ready := filter (λ s, readiness_of results s = Starts) remaining in
          let skip_now := filter (λ s, readiness_of results s = Skips) remaining in
          let waiting := filter (λ s, readiness_of results s = Waits) remaining in
          let results1 := store results ((λ s, (s, skipped "dependency_failed" s)) <$> skip_now) in
          match ready, skip_now with
          | [], [] => Some (Some (results, []), w)
          | [], _ => parallel_loop fuel' results1 waiting w
          | _, _ =>
              match gather ready w with
              | (None, w1) => Some (None, w1)
              | (Some srs, w1) =>
                  match parallel_loop fuel' (store results1 srs) waiting w1 with
                  | Some (Some (results', waves), w2) => Some (Some (results', ready :: waves), w2)
                  | out => out
                  end
              end
          end
      end
  end.

(** [ParallelWorkflow.execute]: the result, the waves, and the world. *)
Definition execute_parallel steps (t0 t1 : float) w
    : option (execution V * list (list (WorkflowStep V)) * W) :=
  match steps with
  | [] => Some (Finished nothing_done, [], w)
  | _ =>
      match _validate_dependencies steps with
      | None => None
      | Some (Raise e) => Some (Invalid e, [], w)
      | Some (Ok _) =>
          match parallel_loop (S (length steps)) [] steps w with
          | None => None
          | Some (None, w1) => Some (Interrupted, [], w1)
          | Some (Some (results, waves), w1) => Some (finish results steps t0 t1, waves, w1)
          end
      end
  end.

(** ** The hierarchical executor *)

Definition failed_parent results s : bool :=
  existsb (λ d, match dget results d with Some r => negb r.(success) | None => false end)
    s.(depends_on).

(** The loop over the levels. *)
Fixpoint level_loop (levels : list (list (WorkflowStep V))) results w
    : option (dict (StepResult V) * list (list (WorkflowStep V))) * W :=
  match levels with
  | [] => (Some (results, []), w)
  | level :: rest =>
      let to_skip := filter (λ s, failed_parent results s = true) level in
      let to_run := filter (λ s, failed_parent results s = false) level in
      let results1 := store results ((λ s, (s, skipped "parent_step_failed" s)) <$> to_skip) in
      match to_run with
      | [] => level_loop rest results1 w
      | _ =>
          match gather to_run w with
          | (None, w1) => (None, w1)
          | (Some srs, w1) =>
              match level_loop rest (store results1 srs) w1 with
              | (Some (results', waves), w2) => (Some (results', to_run :: waves), w2)
              | out => out
              end
          end
      end
  end.

(** [HierarchicalWorkflow.execute] *)
Definition execute_hierarchical steps (t0 t1 : float) w
    : option (execution V * list (list (WorkflowStep V)) * W) :=
  match steps with
  | [] => Some (Finished nothing_done, [], w)
  | _ =>
      match _validate steps with
      | None => None
      | Some (Raise e) => Some (Invalid e, [], w)
      | Some (Ok _) =>
          match _compute_levels steps with
          | None => None
          | Some levels =>
              match level_loop levels [] w with
              | (None, w1) => Some (Interrupted, [], w1)
              | (Some (results, waves), w1) => Some (finish results steps t0 t1, waves, w1)
              end
          end
      end
  end.

(** ** The specification *)

(** What becomes of a step: when everything it depends on succeeded, the result of
    running its agent once; when a dependency failed, it is skipped. *)
Inductive settles (msg : string) steps : WorkflowStep V → StepResult V → Prop :=
  | settles_run s w i r :
      s ∈ steps →
      (∀ d, d ∈ s.(depends_on) → ∃ s' r',
        s'.(step_id) = d ∧ settles msg steps s' r' ∧ r'.(success) = true) →
      _run_step false s (run_of w i s) = Some r →
      settles msg steps s r
  | settles_skip s s' r' :
      s ∈ steps → s'.(step_id) ∈ s.(depends_on) →
      settles msg steps s' r' → r'.(success) = false →
      settles msg steps s (skipped msg s).

(** Waves start no step twice, and a step only after all it depends on. *)
Definition well_started waves : Prop :=
  NoDup (step_id <$> mjoin waves) ∧
  ∀ W1 wave W2, waves = W1 ++ wave :: W2 → ∀ s d, s ∈ wave → d ∈ s.(depends_on) →
    d ∈ step_id <$> mjoin W1.

Definition valid steps : Prop := NoDup (ids steps) ∧ known steps ∧ acyclic steps.

(** An agent left with something that is not an [Exception]. *)
Definition agent_escapes : Prop :=
  ∃ w i s, _run_step false s (run_of w i s) = None.
(** What an executor promises for valid steps. *)
Definition implements (msg : string) steps (out : execution V) waves : Prop :=
  out = Interrupted ∧ agent_escapes ∨
  ∃ r, out = Finished r ∧ Forall2 (settles msg steps) steps r.(step_results) ∧
    r.(status) = overall r.(step_results) ∧ well_started waves.

(** ** One step of either executor *)
Lemma ids_inj steps s s' :
  NoDup (ids steps) → s ∈ steps → s' ∈ steps → s.(step_id) = s'.(step_id) → s = s'.
Proof.
  intros Hnd Hs Hs' E. pose proof (step_map_get _ _ Hnd Hs) as H1.
  pose proof (step_map_get _ _ Hnd Hs') as H2. rewrite E in H1. congruence.
Qed.

Lemma store_notin results srs x :
  x ∉ step_id <$> srs.*1 → dget (store results srs) x = dget results x.
Proof.
  unfold store. revert results. induction srs as [|[s r] srs IH]; intros results; [done|].
  csimpl. rewrite not_elem_of_cons. intros [Hx Hn]. rewrite IH by done. by rewrite dget_set_ne.
Qed.

Lemma store_in results srs s r :
  NoDup (step_id <$> srs.*1) → (s, r) ∈ srs → dget (store results srs) s.(step_id) = Some r.
Proof.
  unfold store. revert results. induction srs as [|[s0 r0] srs IH]; intros results; csimpl.
  { intros _ H. by apply elem_of_nil in H. }
  intros [Hn Hnd]%NoDup_cons [H|H]%elem_of_cons; simplify_eq; [|by apply IH].
  etransitivity; [by apply (store_notin (dset results s0.(step_id) r0) srs)|]. apply dget_set_eq.
Qed.

Lemma gather_spec wave w srs w1 :
  gather wave w = (Some srs, w1) →
  srs.*1 = wave ∧ ∀ s r, (s, r) ∈ srs → ∃ i, _run_step false s (run_of w i s) = Some r.
Proof.
  unfold gather. intros H. injection H as H _. revert srs H.
  assert (Hg : ∀ (l : list (nat * WorkflowStep V)) srs,
    mapM (λ p, pair p.2 <$> _run_step false p.2 (run_of w p.1 p.2)) l = Some srs →
    srs.*1 = l.*2 ∧ ∀ s r, (s, r) ∈ srs → ∃ i, _run_step false s (run_of w i s) = Some r).
  { induction l as [|[i s] l IH]; intros srs; cbn [mapM]; [intros [= <-]|].
    - split; [done|]. intros s r Hs. by apply elem_of_nil in Hs.
    - cbn [fst snd]. destruct (_run_step false s (run_of w i s)) as [r|] eqn:E; simpl; [|done].
      destruct (mapM _ l) as [srs'|] eqn:El; simpl; [|done]. intros [= <-].
      destruct (IH _ eq_refl) as [Eq H2]. split; [csimpl; by rewrite Eq|].
      intros s' r' [Hs|Hs]%elem_of_cons; simplify_eq; [by exists i|by apply H2]. }
  intros srs H. destruct (Hg _ _ H) as [H1 H2]. split; [|done]. rewrite H1.
  apply list_eq. intros i. rewrite list_lookup_fmap, list_lookup_imap. by destruct (wave !! i).
Qed.

(** What the loops keep: [todo] are the steps without a result, [prev] the waves
    started so far. *)
Record exec_inv (msg : string) steps (todo : list (WorkflowStep V)) results
    (prev : list (list (WorkflowStep V))) : Prop := {
  ei_todo : ∀ s, s ∈ steps → (dget results s.(step_id) = None ↔ s ∈ todo);
  ei_settles : ∀ s r, s ∈ steps → dget results s.(step_id) = Some r → settles msg steps s r;
  ei_success : ∀ s r, s ∈ steps → dget results s.(step_id) = Some r → r.(success) = true →
    s.(step_id) ∈ step_id <$> mjoin prev;
  ei_started : ∀ s, s ∈ todo → s.(step_id) ∉ step_id <$> mjoin prev;
  ei_waves : well_started prev;
}.

Section steps.
Context (msg : string) (steps : list (WorkflowStep V)).
Context (Hnd : NoDup (ids steps)) (Hknown : known steps).

Lemma exec_inv_initial : exec_inv msg steps steps [] [].
Proof.
  split; simpl.
  - done.
  - done.
  - done.
  - intros s _ H. by apply elem_of_nil in H.
  - split; [apply NoDup_nil_2|]. intros W1 wave W2 H. by destruct W1.
Qed.

(** Every dependency is a step. *)
Lemma dependency_step s d :
  s ∈ steps → d ∈ s.(depends_on) → ∃ s', s' ∈ steps ∧ s'.(step_id) = d.
Proof. intros Hs Hd. apply elem_ids. apply (Hknown d s.(step_id)). by exists s. Qed.

Lemma NoDup_step_ids l : l ⊆ steps → NoDup l → NoDup (step_id <$> l).
Proof.
  intros Hl Hn. induction Hn as [|s l Hs Hn IH]; csimpl; [apply NoDup_nil_2|].
  apply NoDup_cons_2; [|apply IH; set_solver].
  intros (s' & E & Hs')%list_elem_of_fmap.
  assert (s = s') as <-; [|done]. eapply ids_inj; set_solver.
Qed.

Lemma elem_by_id l s :
  l ⊆ steps → s ∈ steps → (s.(step_id) ∈ step_id <$> l ↔ s ∈ l).
Proof.
  intros Hl Hs. split; [|apply list_elem_of_fmap_2].
  intros (s' & E & Hs')%list_elem_of_fmap. rewrite (ids_inj steps s s'); auto.
Qed.

(** Storing the results of some steps, seen from any step. *)
Lemma store_steps results srs s :
  srs.*1 ⊆ steps → NoDup srs.*1 → s ∈ steps →
  (s ∈ srs.*1 ∧ ∃ r, (s, r) ∈ srs ∧ dget (store results srs) s.(step_id) = Some r) ∨
  ((s ∉ srs.*1) ∧ dget (store results srs) s.(step_id) = dget results s.(step_id)).
Proof.
  intros Hl Hn Hs. destruct (decide (s.(step_id) ∈ step_id <$> srs.*1)) as [H|H].
  - left. rewrite elem_by_id in H by done. split; [done|].
    apply list_elem_of_fmap in H as ([s' r] & -> & Hin). exists r. split; [done|].
    apply store_in; [by apply NoDup_step_ids|done].
  - right. split; [by rewrite elem_by_id in H|by apply store_notin].
Qed.

Lemma exec_inv_store todo results prev prev' srs todo' :
  exec_inv msg steps todo results prev → todo ⊆ steps → NoDup srs.*1 →
  (∀ s, s ∈ todo ↔ s ∈ srs.*1 ∨ s ∈ todo') → (∀ s, s ∈ srs.*1 → s ∉ todo') →
  (∀ s r, (s, r) ∈ srs → settles msg steps s r) →
  (∀ s r, (s, r) ∈ srs → r.(success) = true → s.(step_id) ∈ step_id <$> mjoin prev') →
  (∀ x, x ∈ step_id <$> mjoin prev → x ∈ step_id <$> mjoin prev') →
  (∀ s, s ∈ todo' → s.(step_id) ∉ step_id <$> mjoin prev') → well_started prev' →
  exec_inv msg steps todo' (store results srs) prev'.
Proof.
  intros [H1 H2 H3 H4 H5] Htodo Hn Hsplit Hdisj Hset Hsuc Hsub Hnot Hwell.
  assert (Hsrs : srs.*1 ⊆ steps) by (intros s Hs; apply Htodo, Hsplit; by left).
  split; [..|done|done].
  - intros s Hs. destruct (store_steps results srs s) as [(Hin & r & _ & ->)|[Hin ->]]; [done..| |].
    + split; [done|]. intros H. by destruct (Hdisj s).
    + rewrite (H1 s Hs), Hsplit. tauto.
  - intros s r Hs. destruct (store_steps results srs s) as [(Hin & r' & Hr & ->)|[Hin ->]]; [done..| |].
    + intros [= <-]. by apply Hset.
    + by apply H2.
  - intros s r Hs. destruct (store_steps results srs s) as [(Hin & r' & Hr & ->)|[Hin ->]]; [done..| |].
    + intros [= <-]. by apply Hsuc.
    + intros Hr Hsu. by eapply Hsub, H3.
Qed.

Lemma exec_inv_skip todo results prev skip todo' :
  exec_inv msg steps todo results prev → todo ⊆ steps → NoDup skip →
  (∀ s, s ∈ todo ↔ s ∈ skip ∨ s ∈ todo') → (∀ s, s ∈ skip → s ∉ todo') →
  (∀ s, s ∈ skip → ∃ d r, d ∈ s.(depends_on) ∧ dget results d = Some r ∧ r.(success) = false) →
  exec_inv msg steps todo' (store results ((λ s, (s, skipped msg s)) <$> skip)) prev.
Proof.
  intros Hinv Htodo Hskip Hsplit Hdisj Hfail.
  assert (Hsrs : ((λ s, (s, skipped msg s)) <$> skip).*1 = skip).
  { rewrite <-list_fmap_compose. apply list_fmap_id. }
  eapply exec_inv_store; rewrite ?Hsrs; try done.
  - intros s r (s' & [= -> ->] & Hs)%list_elem_of_fmap.
    assert (Hss : s' ∈ steps) by (apply Htodo, Hsplit; by left).
    destruct (Hfail s' Hs) as (d & r & Hd & Hr & Hf).
    destruct (dependency_step s' d Hss Hd) as (s0 & Hs0 & <-).
    eapply settles_skip; [done..| |done]. by apply (ei_settles _ _ _ _ _ Hinv).
  - by intros s r (s' & [= -> ->] & Hs)%list_elem_of_fmap.
  - intros s Hs. apply (ei_started _ _ _ _ _ Hinv), Hsplit. by right.
  - apply Hinv.
Qed.

Lemma well_started_snoc waves wave :
  well_started waves → NoDup (step_id <$> wave) →
  (∀ s, s ∈ wave → s.(step_id) ∉ step_id <$> mjoin waves) →
  (∀ s d, s ∈ wave → d ∈ s.(depends_on) → d ∈ step_id <$> mjoin waves) →
  well_started (waves ++ [wave]).
Proof.
  intros [H1 H2] Hw Hnew Hdep. split.
  - rewrite join_app, fmap_app. simpl. rewrite app_nil_r. apply NoDup_app. split_and!; [done| |done].
    intros x Hx (s & -> & Hs)%list_elem_of_fmap. by apply (Hnew s).
  - intros W1 wave' W2 E s d Hs Hd. destruct W2 as [|w2 W2 _] using rev_ind.
    + apply app_inj_tail in E as [<- <-]. by eapply Hdep.
    + rewrite app_comm_cons, app_assoc in E. apply app_inj_tail in E as [-> _]. by eapply H2.
Qed.

Lemma exec_inv_run todo results prev run todo' w srs w1 :
  exec_inv msg steps todo results prev → todo ⊆ steps → NoDup run →
  (∀ s, s ∈ todo ↔ s ∈ run ∨ s ∈ todo') → (∀ s, s ∈ run → s ∉ todo') →
  (∀ s d, s ∈ run → d ∈ s.(depends_on) → ∃ r, dget results d = Some r ∧ r.(success) = true) →
  gather run w = (Some srs, w1) →
  exec_inv msg steps todo' (store results srs) (prev ++ [run]).
Proof.
  intros Hinv Htodo Hrun Hsplit Hdisj Hsuc Hg. destruct (gather_spec _ _ _ _ Hg) as [Hsrs Hres].
  assert (Hrs : run ⊆ steps) by (intros s Hs; apply Htodo, Hsplit; by left).
  assert (Hids : ∀ x, x ∈ step_id <$> mjoin (prev ++ [run]) ↔
    x ∈ step_id <$> mjoin prev ∨ x ∈ step_id <$> run).
  { intros x. rewrite join_app, fmap_app, elem_of_app. simpl. by rewrite app_nil_r. }
  assert (Hdep : ∀ s d, s ∈ run → d ∈ s.(depends_on) →
    ∃ s' r', s' ∈ steps ∧ s'.(step_id) = d ∧ dget results d = Some r' ∧ r'.(success) = true).
  { intros s d Hs Hd. destruct (dependency_step s d) as (s' & Hs' & Hid); [by apply Hrs|done|].
    destruct (Hsuc s d Hs Hd) as (r & Hr & Ht). by exists s', r. }
  eapply exec_inv_store; rewrite ?Hsrs; try done.
  - intros s r Hs. assert (Hsr : s ∈ run) by (rewrite <-Hsrs; apply list_elem_of_fmap; by exists (s, r)).
    destruct (Hres s r Hs) as [i Hi]. eapply settles_run; [by apply Hrs| |done].
    intros d Hd. destruct (Hdep s d Hsr Hd) as (s' & r' & H1 & <- & H3 & H4).
    exists s', r'. split_and!; [done| |done]. by apply (ei_settles _ _ _ _ _ Hinv).
  - intros s r Hs _. apply Hids. right. apply list_elem_of_fmap_2. rewrite <-Hsrs.
    apply list_elem_of_fmap. by exists (s, r).
  - intros x Hx. apply Hids. by left.
  - intros s Hs. rewrite Hids. intros [H|H].
    + revert H. apply (ei_started _ _ _ _ _ Hinv), Hsplit. by right.
    + rewrite elem_by_id in H; [by apply (Hdisj s)|done|]. apply Htodo, Hsplit. by right.
  - apply well_started_snoc; [apply Hinv|by apply NoDup_step_ids| |].
    + intros s Hs. apply (ei_started _ _ _ _ _ Hinv), Hsplit. by left.
    + intros s d Hs Hd. destruct (Hdep s d Hs Hd) as (s' & r' & H1 & <- & H3 & H4).
      by eapply (ei_success _ _ _ _ _ Hinv).
Qed.
End steps.
Lemma exec_inv_done msg steps results prev :
  exec_inv msg steps [] results prev →
  Forall2 (settles msg steps) steps (in_order results steps) ∧ well_started prev.
Proof.
  intros [H1 H2 _ _ H5]. split; [|done]. unfold in_order.
  assert (H : ∀ l, l ⊆ steps →
    Forall2 (settles msg steps) l (omap (λ s, dget results s.(step_id)) l)); [|by apply H].
  induction l as [|s l IH]; intros Hl; [constructor|].
  assert (Hs : s ∈ steps) by (apply Hl; left). csimpl.
  destruct (dget results s.(step_id)) as [r|] eqn:E.
  - constructor; [by apply H2|]. apply IH. set_solver.
  - apply H1 in E; [|done]. by apply elem_of_nil in E.
Qed.

Lemma gather_None wave w w1 : gather wave w = (None, w1) → agent_escapes.
Proof.
  unfold gather. intros [= H _]. revert H. generalize (imap pair wave).
  induction l as [|[i s] l IH]; cbn [mapM]; [done|]. cbn [fst snd].
  destruct (_run_step false s (run_of w i s)) as [r|] eqn:E; simpl; [|by exists w, i, s].
  destruct (mapM _ l) eqn:El; simpl; [done|]. intros _. by apply IH.
Qed.

(** ** The parallel executor *)
Lemma readiness_spec results s :
  match readiness_of results s with
  | Waits => ∃ d, d ∈ s.(depends_on) ∧ dget results d = None
  | Skips => ∃ d r, d ∈ s.(depends_on) ∧ dget results d = Some r ∧ r.(success) = false
  | Starts => ∀ d, d ∈ s.(depends_on) → ∃ r, dget results d = Some r ∧ r.(success) = true
  end.
Proof.
  unfold readiness_of. induction s.(depends_on) as [|d l IH]; csimpl.
  { intros d H. by apply elem_of_nil in H. }
  destruct (dget results d) as [r|] eqn:E; simpl; [|exists d; split; [left|done]].
  destruct (negb (forallb _ _)).
  { destruct IH as (x & Hx & ?). exists x. split; [by right|done]. }
  destruct (success r) eqn:Er; simpl.
  - destruct (existsb _ _).
    + destruct IH as (x & y & Hx & ?). exists x, y. split; [by right|done].
    + intros x [->|Hx]%elem_of_cons; [by exists r|by apply IH].
  - exists d, r. split; [left|done].
Qed.

Section parallel.
Context (steps : list (WorkflowStep V)) (Hvalid : valid steps).

(** Some step can always be run or skipped. *)
Lemma parallel_progress results remaining prev :
  exec_inv "dependency_failed" steps remaining results prev → remaining ⊆ steps →
  remaining ≠ [] → ∃ s, s ∈ remaining ∧ readiness_of results s ≠ Waits.
Proof.
  pose proof Hvalid as (Hnd & Hk & Hc). intros Hinv Hsub Hne.
  destruct (acyclic_rank steps Hk Hc) as (rank & _ & Hrank).
  assert (H : ∀ n s, (rank s.(step_id) < n)%nat → s ∈ remaining →
    ∃ s, s ∈ remaining ∧ readiness_of results s ≠ Waits).
  { induction n as [|n IH]; intros s Hn Hs; [lia|].
    pose proof (readiness_spec results s) as Hr.
    destruct (readiness_of results s) eqn:E; [|exists s; split; [done|congruence]..].
    destruct Hr as (d & Hd & Hnone). pose proof (Hsub _ Hs) as Hss.
    destruct (dependency_step steps Hk s d Hss Hd) as (s' & Hs' & <-).
    apply (IH s').
    - assert (Hdep : depends steps s'.(step_id) s.(step_id)) by (by exists s).
      apply Hrank in Hdep. lia.
    - by apply (ei_todo _ _ _ _ _ Hinv). }
  destruct remaining as [|s remaining]; [done|]. apply (H (S (rank s.(step_id))) s); [lia|left].
Qed.

Lemma parallel_loop_spec fuel : ∀ results remaining prev w,
  exec_inv "dependency_failed" steps remaining results prev → remaining ⊆ steps →
  NoDup remaining → (length remaining < fuel)%nat →
  ∃ out w', parallel_loop fuel results remaining w = Some (out, w') ∧
    match out with
    | None => agent_escapes
    | Some (results', waves) => exec_inv "dependency_failed" steps [] results' (prev ++ waves)
    end.
Proof.
  induction fuel as [|fuel IH]; intros results remaining prev w Hinv Hsub Hn Hf; [lia|].
  cbn [parallel_loop]. destruct remaining as [|s0 remaining0] eqn:Erem.
  { exists (Some (results, [])), w. split; [done|]. by rewrite app_nil_r. }
  assert (Hne : remaining ≠ []) by (by rewrite Erem). rewrite <-Erem in *. clear Erem. cbv zeta.
  set (ready := filter (λ s, readiness_of results s = Starts) remaining).
  set (skip := filter (λ s, readiness_of results s = Skips) remaining).
  set (waiting := filter (λ s, readiness_of results s = Waits) remaining).
  assert (Hsplit : ∀ s, s ∈ remaining ↔ s ∈ skip ∨ s ∈ ready ++ waiting).
  { intros s. unfold skip, ready, waiting. rewrite elem_of_app, !list_elem_of_filter.
    destruct (readiness_of results s); naive_solver. }
  assert (Hd1 : ∀ s, s ∈ skip → s ∉ ready ++ waiting).
  { intros s [H1 _]%list_elem_of_filter [H2|H2]%elem_of_app;
      apply list_elem_of_filter in H2 as [H2 _]; congruence. }
  assert (Hd2 : ∀ s, s ∈ ready → s ∉ waiting).
  { intros s [H1 _]%list_elem_of_filter [H2 _]%list_elem_of_filter; congruence. }
  pose proof Hvalid as (Hnd & Hk & Hc).
  set (results1 := store results ((λ s, (s, skipped "dependency_failed" s)) <$> skip)).
  assert (H1 : exec_inv "dependency_failed" steps (ready ++ waiting) results1 prev).
  { eapply exec_inv_skip; try done; [by apply NoDup_filter|].
    intros s Hs. apply list_elem_of_filter in Hs as [Hs _].
    pose proof (readiness_spec results s) as Hr. by rewrite Hs in Hr. }
  destruct (parallel_progress results remaining prev Hinv Hsub Hne) as (s1 & Hs1 & Hw1).
  assert (Hlen : (length waiting < length remaining)%nat) by (by eapply length_filter_lt).
  assert (Hwait : waiting ⊆ steps) by (intros s [_ Hs]%list_elem_of_filter; by apply Hsub).
  assert (Hwn : NoDup waiting) by (by apply NoDup_filter).
  assert (Hs1' : s1 ∈ skip ∨ s1 ∈ ready).
  { unfold skip, ready. rewrite !list_elem_of_filter. destruct (readiness_of results s1); naive_solver. }
  assert (Hrun : ready ≠ [] → ∃ out w',
    match gather ready w with
    | (None, w1) => Some (None, w1)
    | (Some srs, w1) =>
        match parallel_loop fuel (store results1 srs) waiting w1 with
        | Some (Some (results', waves), w2) => Some (Some (results', ready :: waves), w2)
        | out => out
        end
    end = Some (out, w') ∧
    match out with
    | None => agent_escapes
    | Some (results', waves) => exec_inv "dependency_failed" steps [] results' (prev ++ waves)
    end).
  { intros _. destruct (gather ready w) as [[srs|] w1] eqn:Eg; cycle 1.
    { exists None, w1. split; [done|]. by eapply gather_None. }
    destruct (IH (store results1 srs) waiting (prev ++ [ready]) w1) as (out & w' & -> & Hout); try done.
    - eapply exec_inv_run with (w := w); try done.
      + intros s [Hs|Hs]%elem_of_app; [|by apply Hwait].
        apply Hsub. by apply list_elem_of_filter in Hs as [_ ?].
      + by apply NoDup_filter.
      + intros s. apply elem_of_app.
      + intros s d Hs Hd. apply list_elem_of_filter in Hs as [Hs Hsr].
        pose proof (readiness_spec results s) as Hr. rewrite Hs in Hr.
        destruct (Hr d Hd) as (r & Hr1 & Hr2). exists r. split; [|done].
        unfold results1. rewrite store_notin; [done|].
        intros (sk & -> & Hsk)%list_elem_of_fmap.
        apply list_elem_of_fmap in Hsk as ([sk' r'] & -> & Hsk).
        apply list_elem_of_fmap in Hsk as (sk'' & [= -> ->] & Hsk).
        apply list_elem_of_filter in Hsk as [_ Hsk].
        apply (ei_todo _ _ _ _ _ Hinv) in Hsk; [simpl in *; congruence|by apply Hsub].
    - lia.
    - destruct out as [[results' waves]|]; [|by exists None, w'].
      exists (Some (results', ready :: waves)), w'. split; [done|]. by rewrite <-app_assoc in Hout. }
  destruct ready as [|s2 ready'] eqn:Er; [|by apply Hrun].
  destruct skip as [|s3 skip'] eqn:Es.
  - destruct Hs1' as [H|H]; by apply elem_of_nil in H.
  - apply (IH results1 waiting prev w); try done. lia.
Qed.

End parallel.

Lemma parallel_runs steps t0 t1 w :
  valid steps → ∃ out waves w', execute_parallel steps t0 t1 w = Some (out, waves, w') ∧
    implements "dependency_failed" steps out waves.
Proof.
  intros Hvalid. pose proof (exec_inv_initial "dependency_failed" []) as Hw. apply exec_inv_done in Hw as [_ Hw].
  unfold execute_parallel. destruct steps as [|s0 steps0] eqn:Es.
  { eexists _, _, _. split; [done|]. right. eexists. by split_and!. }
  rewrite <-Es in *. clear Es s0 steps0 Hw. pose proof Hvalid as (Hnd & Hk & Hc).
  rewrite (proj2 (validate_dependencies_ok_iff steps Hnd)) by done.
  destruct (parallel_loop_spec steps Hvalid (S (length steps)) [] steps [] w) as (out & w' & -> & Hout).
  { by apply exec_inv_initial. } { done. } { by eapply NoDup_fmap_1. } { lia. }
  destruct out as [[results waves]|]; [|eexists _, _, _; split; [done|]; by left].
  apply exec_inv_done in Hout as [H1 H2]. eexists _, _, _. split; [done|]. right.
  eexists. by split_and!.
Qed.
(** ** The hierarchical executor *)
Lemma failed_parent_true results s :
  failed_parent results s = true →
  ∃ d r, d ∈ s.(depends_on) ∧ dget results d = Some r ∧ r.(success) = false.
Proof.
  unfold failed_parent. intros H. apply existsb_exists in H as (d & Hd & H).
  apply list_elem_of_In in Hd. destruct (dget results d) as [r|] eqn:E; [|done].
  exists d, r. by apply negb_true_iff in H.
Qed.

Lemma failed_parent_false results s d r :
  failed_parent results s = false → d ∈ s.(depends_on) → dget results d = Some r →
  r.(success) = true.
Proof.
  intros H Hd Hr. apply not_true_iff_false in H. destruct (success r) eqn:E; [done|].
  destruct H. apply existsb_exists. exists d. rewrite <-list_elem_of_In, Hr, E. done.
Qed.

Section hierarchical.
Context (steps : list (WorkflowStep V)) (Hnd : NoDup (ids steps)) (Hk : known steps).
Context (depth : string → nat).
Context (Hdepth : ∀ x y, depends steps x y → (depth x < depth y)%nat).

(** The steps from level [k] on. *)
Definition from_level (k : nat) : list (WorkflowStep V) :=
  filter (λ s, (k ≤ depth s.(step_id))%nat) steps.

Definition level (k : nat) : list (WorkflowStep V) :=
  filter (λ s, depth s.(step_id) = k) steps.

Lemma level_loop_spec n : ∀ k results prev w,
  exec_inv "parent_step_failed" steps (from_level k) results prev →
  ∃ out w', level_loop (level <$> seq k n) results w = (out, w') ∧
    match out with
    | None => agent_escapes
    | Some (results', waves) =>
        exec_inv "parent_step_failed" steps (from_level (k + n)) results' (prev ++ waves)
    end.
Proof.
  induction n as [|n IH]; intros k results prev w Hinv; cbn [seq fmap list_fmap level_loop].
  { exists (Some (results, [])), w. split; [done|]. by rewrite app_nil_r, Nat.add_0_r. }
  set (skip := filter (λ s, failed_parent results s = true) (level k)).
  set (run := filter (λ s, failed_parent results s = false) (level k)).
  set (results1 := store results ((λ s, (s, skipped "parent_step_failed" s)) <$> skip)).
  assert (Hn : NoDup steps) by (by eapply NoDup_fmap_1).
  assert (Hlevel : ∀ s, s ∈ level k ↔ s ∈ skip ∨ s ∈ run).
  { intros s. unfold skip, run. rewrite !list_elem_of_filter.
    destruct (failed_parent results s); naive_solver. }
  assert (Hfrom : ∀ s, s ∈ from_level k ↔ s ∈ level k ∨ s ∈ from_level (S k)).
  { intros s. unfold from_level, level. rewrite !list_elem_of_filter.
    destruct (decide (depth (step_id s) = k)); [|assert (k ≤ depth (step_id s) ↔ S k ≤ depth (step_id s))%nat by lia; tauto].
    split; [intros [_ ?]; by left|]. intros [[_ ?]|[? ?]]; split; done || lia. }
  assert (Hsub : ∀ j, from_level j ⊆ steps) by (intros j s [_ ?]%list_elem_of_filter; done).
  assert (Hdisj : ∀ s, s ∈ level k → s ∉ from_level (S k)).
  { intros s [H1 _]%list_elem_of_filter [H2 _]%list_elem_of_filter. lia. }
  assert (H1 : exec_inv "parent_step_failed" steps (run ++ from_level (S k)) results1 prev).
  { eapply exec_inv_skip; try done; [by apply NoDup_filter, NoDup_filter| | |].
    - intros s. rewrite Hfrom, Hlevel, elem_of_app. tauto.
    - intros s Hs [Hr|Hr]%elem_of_app; [|eapply Hdisj; [|done]; apply Hlevel; by left].
      apply list_elem_of_filter in Hs as [? _]. apply list_elem_of_filter in Hr as [? _]. congruence.
    - intros s [Hs _]%list_elem_of_filter. by apply failed_parent_true. }
  assert (Hdone : ∀ s d, s ∈ level k → d ∈ s.(depends_on) → ∃ r, dget results d = Some r).
  { intros s d [Hs Hss]%list_elem_of_filter Hd.
    destruct (dependency_step steps Hk s d Hss Hd) as (s' & Hs' & <-).
    destruct (dget results s'.(step_id)) as [r|] eqn:E; [by exists r|].
    apply (ei_todo _ _ _ _ _ Hinv) in E; [|done]. apply list_elem_of_filter in E as [E _].
    assert (Hlt : (depth s'.(step_id) < depth s.(step_id))%nat) by (apply Hdepth; by exists s). lia. }
  replace (k + S n)%nat with (S k + n)%nat by lia.
  assert (Hrun : ∃ out w',
    match gather run w with
    | (None, w1) => (None, w1)
    | (Some srs, w1) =>
        match level_loop (level <$> seq (S k) n) (store results1 srs) w1 with
        | (Some (results', waves), w2) => (Some (results', run :: waves), w2)
        | out => out
        end
    end = (out, w') ∧
    match out with
    | None => agent_escapes
    | Some (results', waves) =>
        exec_inv "parent_step_failed" steps (from_level (S k + n)) results' (prev ++ waves)
    end).
  { destruct (gather run w) as [[srs|] w1] eqn:Eg; cycle 1.
    { exists None, w1. split; [done|]. by eapply gather_None. }
    destruct (IH (S k) (store results1 srs) (prev ++ [run]) w1) as (out & w' & -> & Hout).
    - eapply exec_inv_run with (w := w); try done.
      + intros s [Hs|Hs]%elem_of_app; [|by eapply Hsub].
        apply list_elem_of_filter in Hs as [_ Hs]. by apply list_elem_of_filter in Hs as [_ ?].
      + by apply NoDup_filter, NoDup_filter.
      + intros s. apply elem_of_app.
      + intros s Hs. apply Hdisj, Hlevel. by right.
      + intros s d Hs Hd. apply list_elem_of_filter in Hs as [Hf Hs].
        destruct (Hdone s d Hs Hd) as [r Hr]. exists r.
        split; [|by eapply failed_parent_false]. unfold results1. rewrite store_notin; [done|].
        intros (sk & -> & Hsk)%list_elem_of_fmap.
        apply list_elem_of_fmap in Hsk as ([sk' r'] & -> & Hsk).
        apply list_elem_of_fmap in Hsk as (sk'' & [= -> ->] & Hsk).
        apply list_elem_of_filter in Hsk as [_ Hsk]. simpl in *.
        assert (Hin : sk'' ∈ from_level k) by (apply Hfrom; by left).
        apply (ei_todo _ _ _ _ _ Hinv) in Hin; [congruence|]. by eapply Hsub, Hfrom; left.
    - destruct out as [[results' waves]|]; [|by exists None, w'].
      exists (Some (results', run :: waves)), w'. split; [done|]. by rewrite <-app_assoc in Hout. }
  destruct run as [|s2 run'] eqn:Er; [|apply Hrun]. by apply (IH (S k) results1 prev w).
Qed.
End hierarchical.

Lemma hierarchical_runs steps t0 t1 w :
  valid steps → ∃ out waves w', execute_hierarchical steps t0 t1 w = Some (out, waves, w') ∧
    implements "parent_step_failed" steps out waves.
Proof.
  intros (Hnd & Hk & Hc).
  pose proof (exec_inv_initial "parent_step_failed" []) as Hw. apply exec_inv_done in Hw as [_ Hw].
  unfold execute_hierarchical. destruct steps as [|s0 steps0] eqn:Es.
  { eexists _, _, _. split; [done|]. right. eexists. by split_and!. }
  rewrite <-Es in *. clear Es s0 steps0 Hw. rewrite (proj2 (validate_ok_iff steps)) by done.
  destruct (compute_levels_spec steps Hnd Hk Hc) as (depth & top & -> & Htop & Hdep & _).
  destruct (level_loop_spec steps Hnd Hk depth Hdep (S top) 0 [] [] w) as (out & w' & E & Hout).
  { unfold from_level. rewrite filter_all by (intros; lia). apply exec_inv_initial. }
  unfold level in E. rewrite E. clear E.
  destruct out as [[results waves]|]; [|eexists _, _, _; split; [done|]; by left].
  unfold from_level in Hout. rewrite filter_none in Hout; cycle 1.
  { intros s Hs. specialize (Htop s Hs). lia. }
  apply exec_inv_done in Hout as [H1 H2]. eexists _, _, _. split; [done|]. right.
  eexists. by split_and!.
Qed.

Lemma steps_nil_or steps : steps = [] ∨ ∃ s l, steps = s :: l.
Proof. destruct steps; eauto. Qed.

(** C8. The parallel executor, for steps with distinct ids: it always ends, never
    stalling.  If the dependencies are known and acyclic it has one result per step, in
    the order of the steps, each as the specification says; every agent is started
    at most once, and only after all that its step depends on; only an exception
    that is not an [Exception] interrupts it.  Otherwise it raises [ValueError] and
    starts nothing. *)
Theorem parallel_implements steps t0 t1 w :
  NoDup (ids steps) →
  ∃ out waves w', execute_parallel steps t0 t1 w = Some (out, waves, w') ∧
    (known steps ∧ acyclic steps → implements "dependency_failed" steps out waves) ∧
    (¬ (known steps ∧ acyclic steps) → ∃ e, out = Invalid e ∧ waves = [] ∧ w' = w).
Proof.
  intros Hnd. pose proof (validate_dependencies_ok_iff steps Hnd) as Hv.
  destruct (validate_dependencies_total steps) as [[[]|e] Ev]; rewrite Ev in Hv.
  - destruct (parallel_runs steps t0 t1 w) as (out & waves & w' & E & H).
    { split; [done|]. by apply Hv. }
    exists out, waves, w'. split_and!; [done..|]. intros Hn. destruct Hn. by apply Hv.
  - unfold execute_parallel. destruct (steps_nil_or steps) as [->|(s & l & ->)].
    { destruct Hv as [_ Hv]. exfalso. discriminate Hv. split.
      - intros x y (s & Hs & _). by apply elem_of_nil in Hs.
      - intros x Hx. apply tc_ids, elem_of_nil in Hx. done. }
    rewrite Ev. eexists _, _, _. split_and!; [done| |eauto].
    intros H. by apply Hv in H.
Qed.

(** The hierarchical executor, for steps with distinct ids: it always ends; for
    known and acyclic dependencies it implements the same specification, level by
    level, and otherwise it raises [ValueError] and starts nothing. *)
Theorem hierarchical_implements steps t0 t1 w :
  NoDup (ids steps) →
  ∃ out waves w', execute_hierarchical steps t0 t1 w = Some (out, waves, w') ∧
    (known steps ∧ acyclic steps → implements "parent_step_failed" steps out waves) ∧
    (¬ (known steps ∧ acyclic steps) → ∃ e, out = Invalid e ∧ waves = [] ∧ w' = w).
Proof.
  intros Hnd. pose proof (validate_ok_iff steps) as Hv.
  destruct (validate_spec steps) as ([[]|e] & Ev & _); rewrite Ev in Hv.
  - destruct (hierarchical_runs steps t0 t1 w) as (out & waves & w' & E & H).
    { split; [done|]. by apply Hv. }
    exists out, waves, w'. split_and!; [done..|]. intros Hn. destruct Hn. by apply Hv.
  - unfold execute_hierarchical. destruct (steps_nil_or steps) as [->|(s & l & ->)].
    { destruct Hv as [_ Hv]. exfalso. discriminate Hv. split.
      - intros x y (s & Hs & _). by apply elem_of_nil in Hs.
      - intros x Hx. apply tc_ids, elem_of_nil in Hx. done. }
    rewrite Ev. eexists _, _, _. split_and!; [done| |eauto].
    intros H. by apply Hv in H.
Qed.
End exec.

(** ** Agreement *)
Section agreement.
Context {F : PyFloat} {V W : Type} (run : WorkflowStep V → step_run V).
Context (after_wave : W → list (WorkflowStep V) → W).
Implicit Types (steps : list (WorkflowStep V)) (s : WorkflowStep V).

(** Two results that differ at most in durations and error texts. *)
Definition same_outcome (r1 r2 : StepResult V) : Prop :=
  r1.(res_id) = r2.(res_id) ∧ r1.(success) = r2.(success) ∧ r1.(output) = r2.(output).

Lemma settles_agree msg1 msg2 steps s r1 r2 :
  valid steps →
  settles (λ (_ : W) _ s, run s) msg1 steps s r1 →
  settles (λ (_ : W) _ s, run s) msg2 steps s r2 → same_outcome r1 r2.
Proof.
  intros (Hnd & Hk & Hc). destruct (acyclic_rank steps Hk Hc) as (rank & _ & Hrank).
  assert (H : ∀ n s r1 r2, (rank s.(step_id) < n)%nat →
    settles (λ (_ : W) _ s, run s) msg1 steps s r1 →
    settles (λ (_ : W) _ s, run s) msg2 steps s r2 → same_outcome r1 r2);
    [|by apply (H (S (rank s.(step_id)))); [lia|..]].
  clear s r1 r2. induction n as [|n IH]; intros s r1 r2 Hn H1 H2; [lia|].
  assert (Hin : ∀ msg s r, settles (λ (_ : W) _ s, run s) msg steps s r → s ∈ steps) by (by destruct 1).
  assert (Hdep : ∀ s' d, s'.(step_id) = d → d ∈ s.(depends_on) → (rank s'.(step_id) < n)%nat).
  { intros s' d <- Hd. assert (depends steps s'.(step_id) s.(step_id)) as Hds.
    { exists s. split_and!; [by eapply Hin|done..]. } apply Hrank in Hds. lia. }
  inversion H1 as [? w1 i1 ? Hs1 Hd1 Hr1|? s1 r1' Hs1 Hd1 Hr1 Hf1]; subst;
    inversion H2 as [? w2 i2 ? Hs2 Hd2 Hr2|? s2 r2' Hs2 Hd2 Hr2 Hf2]; subst.
  - simplify_eq. done.
  - destruct (Hd1 _ Hd2) as (s' & r' & Hid & Hr' & Ht).
    assert (s' = s2) as -> by (eapply ids_inj; [done|by eapply Hin..|done]).
    destruct (IH s2 r' r2') as (_ & E & _); [by eapply Hdep|done..|]. congruence.
  - destruct (Hd2 _ Hd1) as (s' & r' & Hid & Hr' & Ht).
    assert (s' = s1) as -> by (eapply ids_inj; [done|by eapply Hin..|done]).
    destruct (IH s1 r1' r') as (_ & E & _); [by eapply Hdep|done..|]. congruence.
  - done.
Qed.

Lemma settles_all_agree msg1 msg2 steps l rs1 rs2 :
  valid steps →
  Forall2 (settles (λ (_ : W) _ s, run s) msg1 steps) l rs1 →
  Forall2 (settles (λ (_ : W) _ s, run s) msg2 steps) l rs2 → Forall2 same_outcome rs1 rs2.
Proof.
  intros Hv H1. revert rs2. induction H1 as [|s r1 l rs1 Hs _ IH]; intros rs2 H2;
    inversion H2; subst; constructor; [by eapply settles_agree|by apply IH].
Qed.

Lemma overall_agree rs1 rs2 : Forall2 same_outcome rs1 rs2 → overall rs1 = overall rs2.
Proof.
  intros H. assert (E : all_success rs1 = all_success rs2 ∧ any_success rs1 = any_success rs2).
  { unfold all_success, any_success. induction H as [|r1 r2 rs1 rs2 (_ & Hs & _) _ [IH1 IH2]]; [done|].
    simpl. by rewrite Hs, IH1, IH2. }
  unfold overall. by destruct E as [-> ->].
Qed.

(** C7. Parallel and hierarchical execution agree: when what an agent does depends on
    its step alone, both finish valid steps with the same successes, the same
    outputs and the same status, whatever the waves they form. *)
Theorem executors_agree steps t0 t1 t2 t3 w :
  valid steps → (∀ s, _run_step false s (run s) ≠ None) →
  ∃ r1 r2 wv1 wv2 w1 w2,
    execute_parallel (λ _ _ s, run s) after_wave steps t0 t1 w = Some (Finished r1, wv1, w1) ∧
    execute_hierarchical (λ _ _ s, run s) after_wave steps t2 t3 w = Some (Finished r2, wv2, w2) ∧
    Forall2 same_outcome r1.(step_results) r2.(step_results) ∧ r1.(status) = r2.(status).
Proof.
  intros Hv Hrun.
  destruct (parallel_runs (λ _ _ s, run s) after_wave steps t0 t1 w Hv)
    as (o1 & wv1 & w1 & E1 & [[-> (? & ? & s & Hs)]|(r1 & -> & H1 & S1 & _)]); [by apply Hrun in Hs|].
  destruct (hierarchical_runs (λ _ _ s, run s) after_wave steps t2 t3 w Hv)
    as (o2 & wv2 & w2 & E2 & [[-> (? & ? & s & Hs)]|(r2 & -> & H2 & S2 & _)]); [by apply Hrun in Hs|].
  exists r1, r2, wv1, wv2, w1, w2. split_and!; [done..| |].
  - by eapply settles_all_agree.
  - rewrite S1, S2. by eapply overall_agree, settles_all_agree.
Qed.
End agreement.

(** ** A diamond whose left branch fails *)
Section witnesses.
#[local] Existing Instance QF.

Definition ex_step (i : string) (d : list string) : WorkflowStep Z :=
  mkStep "agent" "act" [] i None d.

Definition ex_steps : list (WorkflowStep Z) :=
  [ex_step "merge" ["a"; "b"]; ex_step "plan" []; ex_step "a" ["plan"]; ex_step "b" ["plan"]].

Definition ex_run (s : WorkflowStep Z) : step_run Z :=
  mkRun (if decide (s.(step_id) = "a") then Raises "down" else Outputs []) 0%Q 1%Q.

Definition ex_after (n : nat) (wave : list (WorkflowStep Z)) : nat := (n + length wave)%nat.

Lemma ex_distinct : NoDup (ids ex_steps).
Proof. apply NoDup_ListNoDup. repeat constructor; simpl; intuition discriminate. Qed.

Lemma ex_valid : valid ex_steps.
Proof. split; [exact ex_distinct|]. apply validate_ok_iff. reflexivity. Qed.

(** Three agents are called and the merge is skipped. *)
Lemma parallel_implements_witness :
  ∃ out waves w', execute_parallel (λ _ _ s, ex_run s) ex_after ex_steps 0%Q 1%Q 0%nat
      = Some (out, waves, w') ∧
    implements (λ (_ : nat) _ s, ex_run s) "dependency_failed" ex_steps out waves.
Proof.
  destruct (parallel_implements (λ _ _ s, ex_run s) ex_after ex_steps 0%Q 1%Q 0%nat ex_distinct)
    as (out & waves & w' & E & H & _).
  exists out, waves, w'. split; [exact E|]. apply H. exact (proj2 ex_valid).
Defined.

Lemma hierarchical_implements_witness :
  ∃ out waves w', execute_hierarchical (λ _ _ s, ex_run s) ex_after ex_steps 0%Q 1%Q 0%nat
      = Some (out, waves, w') ∧
    implements (λ (_ : nat) _ s, ex_run s) "parent_step_failed" ex_steps out waves.
Proof.
  destruct (hierarchical_implements (λ _ _ s, ex_run s) ex_after ex_steps 0%Q 1%Q 0%nat ex_distinct)
    as (out & waves & w' & E & H & _).
  exists out, waves, w'. split; [exact E|]. apply H. exact (proj2 ex_valid).
Defined.

Lemma executors_agree_witness :
  ∃ r1 r2 wv1 wv2 w1 w2,
    execute_parallel (λ _ _ s, ex_run s) ex_after ex_steps 0%Q 1%Q 0%nat
      = Some (Finished r1, wv1, w1) ∧
    execute_hierarchical (λ _ _ s, ex_run s) ex_after ex_steps 0%Q 2%Q 0%nat
      = Some (Finished r2, wv2, w2) ∧
    Forall2 same_outcome r1.(step_results) r2.(step_results) ∧ r1.(status) = r2.(status).
Proof.
  apply (executors_agree ex_run ex_after ex_steps 0%Q 1%Q 0%Q 2%Q 0%nat ex_valid).
  intros s. unfold ex_run, _run_step. cbn [what]. destruct (decide _); discriminate.
Defined.

Lemma ex_statuses :
  ∃ waves r, execute_parallel (λ _ _ s, ex_run s) ex_after ex_steps 0%Q 1%Q 0%nat
    = Some (Finished r, waves, 3%nat) ∧ r.(status) = PARTIAL ∧
    success <$> r.(step_results) = [false; true; false; true] ∧
    map (map step_id) waves = [["plan"]; ["a"; "b"]].
Proof. eexists _, _. split; [reflexivity|]. vm_compute. auto. Qed.
End witnesses.
