(* ===== verification/Race.v ===== *)
(** * Racing executors ([workflows/competitive.py], [workflows/consensus.py])

    Both start one task per step and consume the [done] sets of [asyncio.wait] until
    they know enough, then cancel the tasks still pending.  Tasks are named by the
    index of their step.  A [race] is what the event loop did: the successive [done]
    sets in iteration order, what each task did when left alone, and what it did
    when cancelled.  *)
From stdpp Require Import base list sets strings.
From Stdlib Require Import ZArith QArith Qround Lia Lqa.
From S2P Require Import Prelude PyDict PyFloat Workflow.
#[local] Close Scope Q_scope.

Section race.
Context {F : PyFloat} {V : Type}.
Implicit Types (steps : list (WorkflowStep V)) (s : WorkflowStep V) (r x : StepResult V).
Implicit Types (all : dict (StepResult V)) (i j : nat) (pending done arr : list nat).

(** [late i = None]: the task of step [i] ended with an exception when cancelled, for
    instance because it had not begun.  [iter]: the order in which a set of tasks is
    iterated. *)
Record race : Type := mkRace {
  batches : list (list nat);
  run : nat → step_run V;
  late : nat → option (step_run V);
  iter : list nat → list nat;
}.

Section execution.
Context (steps : list (WorkflowStep V)) (e : race).

(** [completed_task.result()] of the [i]-th task; [None]: it raises. *)
Definition own (i : nat) : option (StepResult V) :=
  s ← steps !! i; _run_step true s (e.(run) i).

(** The [StepResult] recorded for a cancelled task. *)
Definition cancelled_result s : StepResult V :=
  mkResult s.(step_id) false None f0 (Some (ErrorText "cancelled")).

Definition late_result i s : StepResult V :=
  default (cancelled_result s) (r ← e.(late) i; _run_step true s r).

(** The loops over [zip(list(pending), cancel_outcomes)]. *)
Definition collect all pending : dict (StepResult V) :=
  fold_left (λ d i, match steps !! i with
    | Some s => dset d s.(step_id) (late_result i s)
    | None => d
    end) (e.(iter) pending) all.

(** [pending] after [asyncio.wait] returned [done]. *)
Definition still_pending done pending : list nat := filter (λ i, i ∉ done) pending.

(** [[all_results[s.step_id] for s in steps if s.step_id in all_results]] *)
Definition ordered all : list (StepResult V) := omap (λ s, dget all s.(step_id)) steps.

(** ** Competitive *)

(** [for completed_task in done]: the winner and [all_results]; [None] is an
    exception that is not an [Exception]. *)
Fixpoint done_loop done pending all : option (option (StepResult V) * dict (StepResult V)) :=
  match done with
  | [] => Some (None, all)
  | i :: rest =>
      match own i with
      | None => None
      | Some r =>
          let all1 := dset all r.(res_id) r in
          if r.(success) then Some (Some r, collect all1 pending)
          else done_loop rest pending all1
      end
  end.

(** [while pending]; the outer [None]: [asyncio.wait] never returns again. *)
Fixpoint race_loop (bs : list (list nat)) pending all
    : option (option (option (StepResult V) * dict (StepResult V))) :=
  match pending with
  | [] => Some (Some (None, all))
  | _ =>
      match bs with
      | [] => None
      | done :: bs' =>
          let pending1 := still_pending done pending in
          match done_loop done pending1 all with
          | None => Some None
          | Some (Some w, all1) => Some (Some (Some w, all1))
          | Some (None, all1) => race_loop bs' pending1 all1
          end
      end
  end.

(** [CompetitiveWorkflow.execute] *)
Definition execute_competitive (include_all_results : bool) (t0 t1 : float)
    : option (execution V) :=
  match steps with
  | [] => Some (Finished nothing_done)
  | [_] =>
      Some match own 0 with
      | None => Interrupted
      | Some r => Finished (mkWorkflow [r] (if r.(success) then SUCCESS else FAILED)
                    (elapsed_ms t0 t1))
      end
  | _ =>
      match race_loop e.(batches) (seq 0 (length steps)) [] with
      | None => None
      | Some None => Some Interrupted
      | Some (Some (Some w, all)) =>
          Some (Finished (mkWorkflow (if include_all_results then ordered all else [w]) SUCCESS
            (elapsed_ms t0 t1)))
      | Some (Some (None, all)) =>
          Some (Finished (mkWorkflow (ordered all) FAILED (elapsed_ms t0 t1)))
      end
  end.

(** ** Consensus *)
Context (of_int : Z → V).

(** [math.ceil(x)]; the argument is finite. *)
Definition ceil (x : float) : Z :=
  let t := default 0%Z (ftrunc x) in if fltb (fofZ t) x then (t + 1)%Z else t.

(** [ConsensusWorkflow.__init__]: the fraction kept. *)
Definition new_consensus (quorum_fraction : float) : result WorkflowError float :=
  if negb (fltb f0 quorum_fraction && fleb quorum_fraction f1) then Raise BadQuorumFraction
  else Ok quorum_fraction.

Definition required_quorum (n : nat) (quorum_fraction : float) : Z :=
  ceil (fmul (fofZ (Z.of_nat n)) quorum_fraction).

Definition merge_outputs (successful_results : list (StepResult V)) : dict V :=
  dset (fold_left (λ d r, match r.(output) with
          | Some ((_ :: _) as o) => dupdate d o
          | _ => d
          end) successful_results [])
    "__quorum_size__" (of_int (Z.of_nat (length successful_results))).

(** [for completed_task in done] *)
Fixpoint tally done all (succ : list (StepResult V))
    : option (dict (StepResult V) * list (StepResult V)) :=
  match done with
  | [] => Some (all, succ)
  | i :: rest =>
      match own i with
      | None => None
      | Some r =>
          tally rest (dset all r.(res_id) r) (if r.(success) then succ ++ [r] else succ)
      end
  end.

(** [while pending]: [quorum_met], [all_results] and [successful_results]. *)
Fixpoint consensus_loop (required : Z) (bs : list (list nat)) pending all
    (succ : list (StepResult V))
    : option (option (bool * dict (StepResult V) * list (StepResult V))) :=
  match pending with
  | [] => Some (Some (false, all, succ))
  | _ =>
      match bs with
      | [] => None
      | done :: bs' =>
          let pending1 := still_pending done pending in
          match tally done all succ with
          | None => Some None
          | Some (all1, succ1) =>
              let remaining_count := Z.of_nat (length pending1) in
              let current_successes := Z.of_nat (length succ1) in
              if (required <=? current_successes)%Z then
                Some (Some (true, collect all1 pending1, succ1))
              else if (current_successes + remaining_count <? required)%Z then
                Some (Some (false, all1, succ1))
              else consensus_loop required bs' pending1 all1 succ1
          end
      end
  end.

(** [ConsensusWorkflow.execute] *)
Definition execute_consensus (quorum_fraction : float) (t0 t1 : float) : option (execution V) :=
  match steps with
  | [] => Some (Finished nothing_done)
  | _ =>
      match consensus_loop (required_quorum (length steps) quorum_fraction) e.(batches)
              (seq 0 (length steps)) [] [] with
      | None => None
      | Some None => Some Interrupted
      | Some (Some (true, all, succ)) =>
          let d := elapsed_ms t0 t1 in
          Some (Finished (mkWorkflow
            (ordered all ++ [mkResult "__consensus__" true (Some (merge_outputs succ)) d None])
            SUCCESS d))
      | Some (Some (false, all, succ)) =>
          Some (Finished (mkWorkflow (ordered all)
            (match succ with [] => FAILED | _ => PARTIAL end) (elapsed_ms t0 t1)))
      end
  end.
(** ** What both loops keep *)

(** The event loop completes every task once, iterates each set in some order, and no
    agent escapes with something that is not an [Exception]. *)
Record fair : Prop := {
  fair_batches : mjoin e.(batches) ≡ₚ seq 0 (length steps);
  fair_iter : ∀ l, e.(iter) l ≡ₚ l;
  fair_own : ∀ i s, steps !! i = Some s → is_Some (_run_step true s (e.(run) i));
}.

Definition wins i : Prop := ∃ r, own i = Some r ∧ r.(success) = true.
Definition loses i : Prop := ∃ r, own i = Some r ∧ r.(success) = false.

#[global] Instance wins_dec i : Decision (wins i).
Proof.
  refine (match own i as o return own i = o → Decision (wins i) with
    | Some r => λ H, match decide (r.(success) = true) with left E => left _ | right E => right _ end
    | None => λ H, right _
    end eq_refl); unfold wins.
  - by exists r.
  - intros (r' & H' & ?). congruence.
  - intros (r' & H' & ?). congruence.
Defined.

(** What [all_results] holds when the tasks [arr] have arrived and [lates] were
    cancelled. *)
Definition recorded arr (lates : list nat) all : Prop :=
  ∀ i s, steps !! i = Some s →
    dget all s.(step_id) =
      if decide (i ∈ arr) then own i
      else if decide (i ∈ lates) then Some (late_result i s) else None.

Section kept.
Context (Hnd : NoDup (step_id <$> steps)).

Lemma step_index i j s s' :
  steps !! i = Some s → steps !! j = Some s' → s.(step_id) = s'.(step_id) → i = j.
Proof.
  intros Hi Hj E. apply (NoDup_lookup _ i j s.(step_id) Hnd); rewrite list_lookup_fmap.
  - by rewrite Hi.
  - by rewrite Hj, E.
Qed.

Lemma own_id i r : own i = Some r → ∃ s, steps !! i = Some s ∧ r.(res_id) = s.(step_id).
Proof.
  unfold own. destruct (steps !! i) as [s|] eqn:E; simpl; [|done].
  intros H. exists s. split; [done|]. by eapply run_step_id.
Qed.

Lemma late_id i s : (late_result i s).(res_id) = s.(step_id).
Proof.
  unfold late_result. destruct (late e i) as [r|]; simpl; [|done].
  destruct (_run_step true s r) eqn:E; simpl; [by eapply run_step_id|done].
Qed.

Lemma recorded_nil : recorded [] [] [].
Proof. intros i s Hs. rewrite !decide_False; [done|by intros ?%elem_of_nil..]. Qed.

Lemma recorded_own arr all i r :
  recorded arr [] all → own i = Some r → recorded (arr ++ [i]) [] (dset all r.(res_id) r).
Proof.
  intros H Ho j s Hs. destruct (own_id i r Ho) as (s' & Hs' & ->).
  destruct (decide (j = i)) as [->|Hne].
  - simplify_eq. rewrite dget_set_eq, decide_True; [done|set_solver].
  - rewrite dget_set_ne by (intros ?; apply Hne; eauto using step_index).
    rewrite (H j s Hs). destruct (decide (j ∈ arr)).
    + rewrite decide_True; [done|set_solver].
    + rewrite !decide_False; [done|set_solver..].
Qed.

Lemma recorded_late arr lates all i s :
  recorded arr lates all → i ∉ arr → steps !! i = Some s →
  recorded arr (lates ++ [i]) (dset all s.(step_id) (late_result i s)).
Proof.
  intros H Hi Hs j s' Hs'. destruct (decide (j = i)) as [->|Hne].
  - simplify_eq. rewrite dget_set_eq, decide_False, decide_True; [done|set_solver..].
  - rewrite dget_set_ne by (intros ?; apply Hne; eauto using step_index).
    rewrite (H j s' Hs'). destruct (decide (j ∈ arr)); [done|].
    destruct (decide (j ∈ lates)).
    + rewrite decide_True; [done|set_solver].
    + rewrite decide_False; [done|set_solver].
Qed.

Lemma recorded_perm arr lates lates' all :
  lates ≡ₚ lates' → recorded arr lates all → recorded arr lates' all.
Proof.
  intros Hp H i s Hs. rewrite (H i s Hs). case_decide; [done|].
  destruct (decide (i ∈ lates)).
  - rewrite decide_True; [done|by rewrite <-Hp].
  - rewrite decide_False; [done|by rewrite <-Hp].
Qed.

Context (He : fair).

Lemma recorded_collect arr pending all :
  recorded arr [] all → (∀ i, i ∈ pending → i ∉ arr) → (∀ i, i ∈ pending → i < length steps)%nat →
  recorded arr pending (collect all pending).
Proof.
  intros H Hd Hlt. apply (recorded_perm _ (iter e pending)); [apply fair_iter, He|].
  assert (Hi : ∀ i, i ∈ iter e pending → (i ∉ arr) ∧ (i < length steps)%nat).
  { intros i. rewrite (fair_iter He pending). auto. }
  unfold collect. change (iter e pending) with ([] ++ iter e pending) at 1.
  clear Hd Hlt. revert H Hi. generalize (@nil nat) as lates. revert all.
  induction (iter e pending) as [|i l IH]; intros all lates H Hi; simpl; [by rewrite app_nil_r|].
  destruct (Hi i) as [Hia Hil]; [set_solver|].
  apply lookup_lt_is_Some in Hil as [s Hs]. rewrite Hs.
  rewrite cons_middle, (assoc (++)). apply IH; [by apply recorded_late|set_solver].
Qed.

Lemma own_fair i : i < length steps → is_Some (own i).
Proof.
  intros [s Hs]%lookup_lt_is_Some. unfold own. rewrite Hs. simpl. by apply (fair_own He).
Qed.

Lemma wins_or_loses i : i < length steps → wins i ∨ loses i.
Proof.
  intros [r Hr]%own_fair. destruct (success r) eqn:E; [left|right]; by exists r.
Qed.

(** [ordered] reads the record in step order. *)
Lemma ordered_recorded arr lates all :
  recorded arr lates all →
  ordered all = omap (λ i, if decide (i ∈ arr) then own i
    else if decide (i ∈ lates) then late_result i <$> steps !! i else None) (seq 0 (length steps)).
Proof.
  intros H. unfold ordered.
  assert (Hx : ∀ k l, drop k steps = l →
    omap (λ s, dget all s.(step_id)) l = omap (λ i, if decide (i ∈ arr) then own i
    else if decide (i ∈ lates) then late_result i <$> steps !! i else None) (seq k (length l))).
  { intros k l. revert k. induction l as [|s l IH]; intros k Hl; [done|].
    assert (Hs : steps !! k = Some s).
    { rewrite <-(Nat.add_0_r k), <-lookup_drop, Hl. done. }
    assert (Hr : drop (S k) steps = l).
    { replace (S k) with (k + 1)%nat by lia. by rewrite <-drop_drop, Hl. }
    specialize (IH (S k) Hr). csimpl. rewrite (H k s Hs), IH, Hs. by repeat case_decide. }
  by apply (Hx 0%nat).
Qed.

Lemma still_pending_seq arr done :
  still_pending done (filter (λ i, i ∉ arr) (seq 0 (length steps)))
  = filter (λ i, i ∉ arr ++ done) (seq 0 (length steps)).
Proof.
  unfold still_pending. rewrite list_filter_filter. apply list_filter_iff. intros i.
  rewrite elem_of_app. tauto.
Qed.
Lemma pending_rest arr rest :
  arr ++ rest ≡ₚ seq 0 (length steps) →
  filter (λ i, i ∉ arr) (seq 0 (length steps)) ≡ₚ rest.
Proof.
  intros Hp. assert (Hn : NoDup (arr ++ rest)) by (rewrite Hp; apply NoDup_seq).
  apply NoDup_app in Hn as (_ & Hd & Hr). rewrite <-Hp, filter_app.
  rewrite filter_none by (intros i Hi Hn; by apply Hn). simpl.
  rewrite filter_all; [done|]. intros i Hi ?. by apply (Hd i).
Qed.

Lemma arrived_lt arr rest i :
  arr ++ rest ≡ₚ seq 0 (length steps) → i ∈ arr ++ rest → (i < length steps)%nat.
Proof. intros ->. rewrite elem_of_seq. lia. Qed.

Lemma done_loop_spec done pending arr all :
  recorded arr [] all → (∀ i, i ∈ done → i < length steps)%nat →
  (∃ d1 i d2 x all', done = d1 ++ i :: d2 ∧ (∀ j, j ∈ d1 → loses j) ∧
    own i = Some x ∧ x.(success) = true ∧ recorded (arr ++ d1 ++ [i]) [] all' ∧
    done_loop done pending all = Some (Some x, collect all' pending)) ∨
  (∃ all', (∀ j, j ∈ done → loses j) ∧ recorded (arr ++ done) [] all' ∧
    done_loop done pending all = Some (None, all')).
Proof.
  revert arr all. induction done as [|i done IH]; intros arr all Hr Hlt; cbn [done_loop].
  { right. exists all. rewrite app_nil_r. split; [|done]. by intros j ?%elem_of_nil. }
  destruct (own_fair i) as [x Hx]; [apply Hlt; set_solver|]. rewrite Hx.
  pose proof (recorded_own _ _ _ _ Hr Hx) as Hr1.
  destruct (success x) eqn:Ex.
  { left. exists [], i, done, x, (dset all x.(res_id) x). split_and!; try done.
    by intros j ?%elem_of_nil. }
  assert (Hi : loses i) by by exists x.
  destruct (IH _ _ Hr1) as [(d1 & k & d2 & y & all' & -> & Hl & Hy & Hs & Hr' & ->)|
    (all' & Hl & Hr' & ->)]; [set_solver| |].
  - left. exists (i :: d1), k, d2, y, all'. split_and!; try done; [set_solver|].
    by rewrite <-(assoc (++)) in Hr'.
  - right. exists all'. split_and!; [set_solver| |done]. by rewrite <-(assoc (++)) in Hr'.
Qed.

Lemma race_loop_spec bs arr all :
  arr ++ mjoin bs ≡ₚ seq 0 (length steps) → recorded arr [] all → (∀ j, j ∈ arr → loses j) →
  let pending := filter (λ i, i ∉ arr) (seq 0 (length steps)) in
  (∃ b1 d1 i d2 b2 x all', bs = b1 ++ (d1 ++ i :: d2) :: b2 ∧
    (∀ j, j ∈ mjoin b1 ++ d1 → loses j) ∧ own i = Some x ∧ x.(success) = true ∧
    race_loop bs pending all = Some (Some (Some x, all')) ∧
    recorded (arr ++ mjoin b1 ++ d1 ++ [i]) (mjoin b2) all') ∨
  (∃ all', (∀ j, j < length steps → loses j)%nat ∧
    race_loop bs pending all = Some (Some (None, all')) ∧
    recorded (seq 0 (length steps)) [] all').
Proof.
  revert arr all. induction bs as [|done bs IH]; intros arr all Hp Hr Hl pending.
  { right. exists all. simpl in Hp. rewrite app_nil_r in Hp.
    assert (Hnil : pending = []) by (apply Permutation_nil; symmetry; apply pending_rest; by rewrite app_nil_r).
    split_and!.
    - intros j Hj. apply Hl. rewrite Hp. apply elem_of_seq. lia.
    - by rewrite Hnil.
    - intros i s Hs. rewrite (Hr i s Hs). destruct (decide (i ∈ arr)) as [Hi|Hi].
      + rewrite decide_True; [done|by rewrite <-Hp].
      + rewrite (decide_False (P:=i ∈ seq _ _)); [done|by rewrite <-Hp]. }
  simpl in Hp. rewrite (assoc (++)) in Hp.
  assert (Hsp : still_pending done pending = filter (λ i, i ∉ arr ++ done) (seq 0 (length steps)))
    by apply still_pending_seq.
  destruct (done_loop_spec done (still_pending done pending) arr all Hr) as
    [(d1 & i & d2 & x & all' & -> & Hd1 & Hx & Hs & Hr' & Hloop)|(all' & Hd & Hr' & Hloop)].
  { intros i Hi. eapply arrived_lt; [exact Hp|set_solver]. }
  - left. exists [], d1, i, d2, bs, x, (collect all' (still_pending (d1 ++ i :: d2) pending)).
    assert (Hrest : still_pending (d1 ++ i :: d2) pending ≡ₚ mjoin bs)
      by (rewrite Hsp; by apply pending_rest).
    split_and!; try done.
    + cbn [race_loop]. rewrite Hloop. destruct pending eqn:E; [|done].
      exfalso. assert (Hin : i ∈ pending); [|rewrite E in Hin; by apply elem_of_nil in Hin].
      unfold pending. rewrite pending_rest by (by rewrite <-(assoc (++)) in Hp). set_solver.
    + simpl. apply (recorded_perm _ _ _ _ Hrest). apply recorded_collect; [done|..].
      * intros j. rewrite Hsp, list_elem_of_filter. set_solver.
      * intros j. rewrite Hsp, list_elem_of_filter, elem_of_seq. lia.
  - assert (Hl' : ∀ j, j ∈ arr ++ done → loses j) by set_solver.
    destruct pending as [|i0 pending'] eqn:E.
    { right. exists all. split_and!.
      - intros j Hj. apply Hl. destruct (decide (j ∈ arr)) as [|Hn]; [done|].
        assert (Hin : j ∈ pending); [|rewrite E in Hin; by apply elem_of_nil in Hin].
        apply list_elem_of_filter. rewrite elem_of_seq. split; [done|lia].
      - done.
      - intros j s Hs. rewrite (Hr j s Hs).
        assert (Hj : j ∈ seq 0 (length steps)).
        { apply elem_of_seq. apply lookup_lt_Some in Hs. lia. }
        rewrite (decide_True (P:=j ∈ seq _ _)) by done. rewrite decide_True; [done|].
        destruct (decide (j ∈ arr)) as [|Hn]; [done|].
        assert (Hin : j ∈ pending) by by apply list_elem_of_filter.
        rewrite E in Hin. by apply elem_of_nil in Hin. }
    cbn [race_loop]. rewrite Hloop, Hsp.
    destruct (IH _ _ Hp Hr' Hl') as [(b1 & d1 & i & d2 & b2 & x & all1 & -> & Hb & Hx & Hs & Hq & Hr1)|
      (all1 & Hb & Hq & Hr1)].
    + left. exists (done :: b1), d1, i, d2, b2, x, all1. split_and!; try done.
      * simpl. set_solver.
      * simpl. by rewrite <-!(assoc (++)) in Hr1 |- *.
    + right. by exists all1.
Qed.
(** The results of a competitive workflow won by [i] with [include_all_results]:
    tasks completed together with the winner but iterated after it ([d2]) are
    missing. *)
Definition all_but (d2 lates : list nat) : list (StepResult V) :=
  omap (λ j, if decide (j ∈ d2) then None
    else if decide (j ∈ lates) then late_result j <$> steps !! j else own j)
    (seq 0 (length steps)).

Lemma ordered_all_but arr d2 lates all :
  arr ++ d2 ++ lates ≡ₚ seq 0 (length steps) → recorded arr lates all →
  ordered all = all_but d2 lates.
Proof.
  intros Hp Hr. rewrite (ordered_recorded _ _ _ Hr). unfold all_but.
  assert (Hn : NoDup (arr ++ d2 ++ lates)) by (rewrite Hp; apply NoDup_seq).
  apply NoDup_app in Hn as (_ & Hd & (_ & Hd2 & _)%NoDup_app).
  assert (Hin : ∀ j, j ∈ seq 0 (length steps) → j ∈ arr ++ d2 ++ lates)
    by (intros j; by rewrite <-Hp).
  induction (seq 0 (length steps)) as [|j l IH] in Hin |- *; [done|]. csimpl.
  rewrite IH by set_solver. assert (Hj : j ∈ arr ++ d2 ++ lates) by (apply Hin; set_solver).
  repeat case_decide; try done; set_solver.
Qed.

(** C11. A competitive workflow ends, whatever the order in which its agents complete:
    either some task [i] is the first of all arrivals that succeeds, the workflow
    succeeds with that result alone (with every result on record when
    [include_all_results]: the others' own, or what they did when cancelled, except
    for the tasks that arrived in the winner's batch behind it), or every agent
    failed and the workflow fails with every step's result, in step order. *)
Theorem competitive_first_success (include_all_results : bool) t0 t1 :
  steps ≠ [] →
  ∃ out, execute_competitive include_all_results t0 t1 = Some (Finished out) ∧
  ((∃ b1 d1 i d2 b2 x, e.(batches) = b1 ++ (d1 ++ i :: d2) :: b2 ∧
      (∀ j, j ∈ mjoin b1 ++ d1 → loses j) ∧ own i = Some x ∧ x.(success) = true ∧
      out.(status) = SUCCESS ∧
      out.(step_results) = if include_all_results then all_but d2 (mjoin b2) else [x]) ∨
   ((∀ j, j < length steps → loses j)%nat ∧ out.(status) = FAILED ∧
    Some <$> out.(step_results) = own <$> seq 0 (length steps))).
Proof.
  intros Hne. pose proof (race_loop_spec e.(batches) [] [] (fair_batches He) recorded_nil)
    as Hloop. cbv zeta in Hloop. rewrite filter_all in Hloop by (intros i _ ?%elem_of_nil; done).
  destruct Hloop as [(b1 & d1 & i & d2 & b2 & x & all & Eb & Hb & Hx & Hs & Hq & Hr)|
    (all & Hb & Hq & Hr)]; [by intros j ?%elem_of_nil| |].
  - pose proof (fair_batches He) as Hp. rewrite Eb in Hp.
    assert (Hp' : ([] ++ mjoin b1 ++ d1 ++ [i]) ++ d2 ++ mjoin b2 ≡ₚ seq 0 (length steps)).
    { rewrite <-Hp, join_app. simpl. by rewrite <-!(assoc (++)). }
    pose proof (ordered_all_but _ _ _ _ Hp' Hr) as Hord.
    unfold execute_competitive. rewrite match_length.
    destruct (length steps) as [|[|m]] eqn:El; [by destruct Hne; apply nil_length_inv| |].
    + assert (i = 0%nat) as ->.
      { assert (i < length steps)%nat; [|lia]. rewrite <-El in Hp'.
        eapply arrived_lt; [exact Hp'|]. set_solver. }
      rewrite Hx. eexists. split; [done|]. left. exists b1, d1, 0%nat, d2, b2, x.
      cbn [status step_results]. rewrite Hs. split_and!; try done.
      destruct include_all_results; [|done].
      assert (Hn : NoDup (([] ++ mjoin b1 ++ d1 ++ [0%nat]) ++ d2 ++ mjoin b2))
        by (rewrite Hp'; apply NoDup_seq).
      apply NoDup_app in Hn as (_ & Hd & _). specialize (Hd 0%nat ltac:(set_solver)).
      unfold all_but. rewrite El. csimpl. rewrite !decide_False by set_solver. by rewrite Hx.
    + rewrite Hq. eexists. split; [done|]. left. exists b1, d1, i, d2, b2, x.
      split_and!; try done. cbn [step_results]. by destruct include_all_results.
  - assert (Hown : ∀ j, j ∈ seq 0 (length steps) → is_Some (own j)).
    { intros j Hj%elem_of_seq. destruct (Hb j) as (y & Hy & _); [lia|by exists y]. }
    assert (Hord : Some <$> ordered all = own <$> seq 0 (length steps)).
    { rewrite (ordered_recorded _ _ _ Hr), <-(omap_fmap_some own) by done. f_equal.
      apply omap_ext_in. intros j Hj. by rewrite decide_True. }
    unfold execute_competitive. rewrite match_length.
    destruct (length steps) as [|[|m]] eqn:El; [by destruct Hne; apply nil_length_inv| |].
    + destruct (Hb 0%nat) as (x & Hx & Hs); [lia|]. rewrite Hx.
      eexists. split; [done|]. right. cbn [status step_results]. rewrite Hs.
      split_and!; try done. simpl. by rewrite Hx.
    + rewrite Hq. eexists. split; [done|]. right. done.
Qed.
(** ** Consensus: stopping early changes nothing *)

(** [successful_results] when the tasks [seen] have arrived. *)
Definition successes (seen : list nat) : list (StepResult V) := omap own (filter wins seen).

Lemma length_successes seen : length (successes seen) = length (filter wins seen).
Proof.
  unfold successes.
  assert (H : Some <$> omap own (filter wins seen) = own <$> filter wins seen).
  { apply omap_fmap_some. intros j [(x & Hx & _) _]%list_elem_of_filter. by exists x. }
  apply (f_equal length) in H. by rewrite !length_fmap in H.
Qed.

Lemma tally_spec done arr all :
  recorded arr [] all → (∀ i, i ∈ done → i < length steps)%nat →
  ∃ all', tally done all (successes arr) = Some (all', successes (arr ++ done)) ∧
    recorded (arr ++ done) [] all'.
Proof.
  revert arr all. induction done as [|i done IH]; intros arr all Hr Hlt; cbn [tally].
  { exists all. by rewrite app_nil_r. }
  destruct (own_fair i) as [x Hx]; [apply Hlt; set_solver|]. rewrite Hx.
  assert (Hsucc : (if success x then successes arr ++ [x] else successes arr)
    = successes (arr ++ [i])).
  { unfold successes. rewrite filter_app, omap_app.
    destruct (success x) eqn:E.
    - rewrite filter_cons_True by by exists x. csimpl. by rewrite Hx.
    - rewrite filter_cons_False by (intros (y & Hy & ?); congruence). by rewrite app_nil_r. }
  rewrite Hsucc. destruct (IH (arr ++ [i]) (dset all x.(res_id) x)) as (all' & Ht & Hr').
  - by apply recorded_own.
  - set_solver.
  - exists all'. rewrite <-(assoc (++)) in Ht, Hr'. done.
Qed.

Lemma consensus_loop_spec required bs arr all :
  arr ++ mjoin bs ≡ₚ seq 0 (length steps) → recorded arr [] all →
  let pending := filter (λ i, i ∉ arr) (seq 0 (length steps)) in
  pending ≠ [] →
  ∃ b1 b2 all' met, bs = b1 ++ b2 ∧
    let seen := arr ++ mjoin b1 in
    consensus_loop required bs pending all (successes arr)
      = Some (Some (met, all', successes seen)) ∧
    if met : bool then (required <= Z.of_nat (length (successes seen)))%Z ∧
      recorded seen (mjoin b2) all'
    else (Z.of_nat (length (successes seen)) + Z.of_nat (length (mjoin b2)) < required)%Z ∧
      recorded seen [] all'.
Proof.
  revert arr all. induction bs as [|done bs IH]; intros arr all Hp Hr pending Hne.
  { destruct Hne. apply Permutation_nil. symmetry. by apply pending_rest. }
  simpl in Hp. rewrite (assoc (++)) in Hp.
  assert (Hsp : still_pending done pending = filter (λ i, i ∉ arr ++ done) (seq 0 (length steps)))
    by apply still_pending_seq.
  assert (Hrest : still_pending done pending ≡ₚ mjoin bs) by (rewrite Hsp; by apply pending_rest).
  destruct (tally_spec done arr all Hr) as (all1 & Ht & Hr1).
  { intros i Hi. eapply arrived_lt; [exact Hp|set_solver]. }
  assert (Hloop : consensus_loop required (done :: bs) pending all (successes arr) =
    if (required <=? Z.of_nat (length (successes (arr ++ done))))%Z
    then Some (Some (true, collect all1 (still_pending done pending), successes (arr ++ done)))
    else if (Z.of_nat (length (successes (arr ++ done))) + Z.of_nat (length (mjoin bs)) <? required)%Z
    then Some (Some (false, all1, successes (arr ++ done)))
    else consensus_loop required bs (still_pending done pending) all1 (successes (arr ++ done))).
  { cbn [consensus_loop]. rewrite Ht, <-(Permutation_length Hrest). by destruct pending. }
  destruct (Z.leb_spec required (Z.of_nat (length (successes (arr ++ done))))) as [Hq|Hq].
  { exists [done], bs, (collect all1 (still_pending done pending)), true.
    rewrite Hloop. simpl. rewrite app_nil_r. split_and!; try done.
    apply (recorded_perm _ _ _ _ Hrest). apply recorded_collect; [done|..].
    - intros j. rewrite Hsp, list_elem_of_filter. tauto.
    - intros j. rewrite Hsp, list_elem_of_filter, elem_of_seq. lia. }
  destruct (Z.ltb_spec (Z.of_nat (length (successes (arr ++ done))) +
    Z.of_nat (length (mjoin bs))) required) as [Hu|Hu].
  { exists [done], bs, all1, false. rewrite Hloop. simpl. by rewrite app_nil_r. }
  rewrite Hsp in Hloop, Hrest.
  destruct (IH (arr ++ done) all1 Hp Hr1) as (b1 & b2 & all' & met & -> & Hl & Hm).
  { intros Hnil. rewrite Hnil in Hrest. apply Permutation_nil in Hrest.
    rewrite Hrest in Hu. simpl in Hu. lia. }
  exists (done :: b1), b2, all', met. rewrite Hloop. simpl.
  by rewrite <-(assoc (++)) in Hl, Hm.
Qed.
(** C10. A consensus workflow's early stop never changes its verdict: it succeeds exactly
    when at least the required number of all its agents would have succeeded, however
    they interleave.  When it does, the merged output of at least a quorum of successes
    is appended to a result for every step; when it does not, it holds the results
    that arrived before the quorum became unreachable, and is partial exactly when one
    of them is a success. *)
Theorem consensus_decides (quorum_fraction : float) t0 t1 :
  steps ≠ [] →
  let required := required_quorum (length steps) quorum_fraction in
  ∃ out seen rest, mjoin e.(batches) = seen ++ rest ∧
    execute_consensus quorum_fraction t0 t1 = Some (Finished out) ∧
    if decide (required <= Z.of_nat (length (filter wins (seq 0 (length steps)))))%Z then
      out.(status) = SUCCESS ∧ (required <= Z.of_nat (length (successes seen)))%Z ∧
      ∃ rs, res_id <$> rs = step_id <$> steps ∧
        out.(step_results) = rs ++ [mkResult "__consensus__" true
          (Some (merge_outputs (successes seen))) (elapsed_ms t0 t1) None]
    else
      out.(status) = (match successes seen with [] => FAILED | _ => PARTIAL end) ∧
      out.(step_results) =
        omap (λ j, if decide (j ∈ seen) then own j else None) (seq 0 (length steps)).
Proof.
  intros Hne required.
  pose proof (consensus_loop_spec required e.(batches) [] [] (fair_batches He) recorded_nil)
    as Hloop. cbv zeta in Hloop.
  rewrite (filter_all (λ i, i ∉ [])) in Hloop by (intros i _ ?%elem_of_nil; done).
  destruct Hloop as (b1 & b2 & all & met & Eb & Hl & Hm).
  { intros H%(f_equal length). rewrite length_seq in H. apply Hne. by apply nil_length_inv. }
  simpl in Hl, Hm. assert (Hp : mjoin b1 ++ mjoin b2 ≡ₚ seq 0 (length steps)).
  { rewrite <-join_app, <-Eb. apply fair_batches, He. }
  assert (Hk : length (filter wins (seq 0 (length steps)))
    = (length (successes (mjoin b1)) + length (filter wins (mjoin b2)))%nat).
  { rewrite length_successes, <-Hp, filter_app, length_app. done. }
  pose proof (length_filter wins (mjoin b2)) as Hle.
  assert (Hex : execute_consensus quorum_fraction t0 t1 =
    let d := elapsed_ms t0 t1 in
    Some (Finished (if met
      then mkWorkflow (ordered all ++ [mkResult "__consensus__" true
             (Some (merge_outputs (successes (mjoin b1)))) d None]) SUCCESS d
      else mkWorkflow (ordered all)
             (match successes (mjoin b1) with [] => FAILED | _ => PARTIAL end) d))).
  { unfold execute_consensus. change (successes []) with (@nil (StepResult V)) in Hl.
    unfold required in Hl. rewrite Hl. by destruct steps, met. }
  rewrite Hex. cbv zeta. eexists _, (mjoin b1), (mjoin b2).
  split; [by rewrite <-join_app, Eb|]. split; [done|].
  destruct met; destruct Hm as [Hm Hr].
  - rewrite decide_True by lia. cbn [status step_results]. split_and!; [done..|].
    exists (ordered all). split; [|done]. unfold ordered.
    assert (Hg : ∀ s, s ∈ steps → ∃ r, dget all s.(step_id) = Some r ∧ r.(res_id) = s.(step_id)).
    { intros s [i Hs]%list_elem_of_lookup. rewrite (Hr i s Hs).
      assert (Hi : (i < length steps)%nat) by (by eapply lookup_lt_Some).
      destruct (own_fair i Hi) as [x Hx]. destruct (own_id i x Hx) as (s' & Hs' & Hid).
      repeat case_decide.
      - exists x. split; [done|]. congruence.
      - eexists. split; [done|]. apply late_id.
      - assert (i ∈ mjoin b1 ++ mjoin b2) by (rewrite Hp; apply elem_of_seq; lia). set_solver. }
    clear -Hg. induction steps as [|s l IH]; [done|]. csimpl.
    destruct (Hg s) as (r & -> & <-); [set_solver|]. csimpl. f_equal. apply IH. set_solver.
  - rewrite decide_False by lia. cbn [status step_results]. split; [done|].
    rewrite (ordered_recorded _ _ _ Hr). apply omap_ext_in. intros j _.
    repeat case_decide; try done. by destruct (not_elem_of_nil j).
Qed.
End kept.
End execution.
End race.

(** ** The quorum *)

(** In exact arithmetic the quorum is the least number of agents that make up the
    fraction, and lies between 1 and all of them. *)
Lemma ceil_spec (x : Q) : (0 <= x)%Q → ceil (F:=QF) x = Qceiling x.
Proof.
  intros H. unfold ceil. cbn -[Qle_bool].
  destruct x as [a b]. unfold Qle in H. simpl in H.
  cbn [Qnum Qden]. rewrite Z.quot_div_nonneg by lia. unfold Qceiling, Qfloor, Qopp, Qltb. simpl.
  pose proof (Z.div_mod a (Z.pos b) ltac:(lia)) as Hdm.
  pose proof (Z.mod_pos_bound a (Z.pos b) ltac:(lia)) as Hb.
  destruct (Z.eq_dec (a mod Z.pos b) 0) as [E|E].
  - rewrite Z.div_opp_l_z by lia.
    assert (Qle_bool (a # b) (inject_Z (a / Z.pos b)) = true) as ->.
    { apply Qle_bool_iff. unfold Qle. simpl. nia. }
    simpl. lia.
  - rewrite Z.div_opp_l_nz by lia.
    assert (Qle_bool (a # b) (inject_Z (a / Z.pos b)) = false) as ->.
    { apply Qle_bool_false. unfold Qlt. simpl. nia. }
    simpl. lia.
Qed.

(** A fraction the constructor accepts demands at least one agent and at most all of
    them, and the quorum is the least head count that makes up the fraction of the
    agents. *)
Theorem quorum_between (q q' : Q) (n : nat) :
  new_consensus (F:=QF) q = Ok q' → (1 ≤ n)%nat →
  (1 <= required_quorum (F:=QF) n q' <= Z.of_nat n)%Z ∧
  ∀ k, (required_quorum (F:=QF) n q' <= k)%Z ↔ (inject_Z (Z.of_nat n) * q' <= inject_Z k)%Q.
Proof.
  unfold new_consensus. case_match eqn:E; [done|]. intros [= <-] Hn.
  apply negb_false_iff, andb_prop in E as [E1 E2].
  apply Qltb_lt in E1. apply Qle_bool_iff in E2.
  assert (Hn' : (1 <= inject_Z (Z.of_nat n))%Q) by (change 1%Q with (inject_Z 1); rewrite <-Zle_Qle; lia).
  change (f0 (F:=QF)) with 0%Q in E1. change (f1 (F:=QF)) with 1%Q in E2.
  change (@float QF) with Q in q.
  assert (Hpos : (0 < inject_Z (Z.of_nat n) * q)%Q) by nra.
  assert (Hle : (inject_Z (Z.of_nat n) * q <= inject_Z (Z.of_nat n))%Q) by nra.
  assert (Hleast : ∀ k, (required_quorum (F:=QF) n q <= k)%Z ↔
    (inject_Z (Z.of_nat n) * q <= inject_Z k)%Q).
  { intros k. unfold required_quorum. rewrite ceil_spec by (apply Qlt_le_weak, Hpos).
    change (fmul (PyFloat:=QF) (fofZ (PyFloat:=QF) (Z.of_nat n)) q) with (inject_Z (Z.of_nat n) * q)%Q. split.
    - intros Hk. rewrite Zle_Qle in Hk. pose proof (Qle_ceiling (inject_Z (Z.of_nat n) * q)). lra.
    - intros Hk. apply Qceiling_resp_le in Hk. by rewrite Qceiling_Z in Hk. }
  split; [|done]. split; [|by apply Hleast].
  destruct (Z.le_gt_cases 1 (required_quorum (F:=QF) n q)) as [|Hlt]; [done|].
  assert (Hz : (required_quorum (F:=QF) n q <= 0)%Z) by lia. apply Hleast in Hz.
  change (inject_Z 0) with 0%Q in Hz. lra.
Qed.

Lemma quorum_between_witness :
  new_consensus (F:=QF) (2 # 3)%Q = Ok (2 # 3)%Q ∧
  (1 <= required_quorum (F:=QF) 4 (2 # 3)%Q <= 4)%Z.
Proof. split; [reflexivity|]. apply (quorum_between (2 # 3)%Q (2 # 3)%Q 4); [reflexivity|lia]. Defined.

Definition default_fraction {F : PyFloat} : float := flit 2 3.

(** With the default fraction binary64 rounding costs nothing: for up to a thousand
    agents the quorum is two thirds of them, rounded up. *)
Theorem default_quorum (n : nat) :
  (n ≤ 1000)%nat →
  required_quorum (F:=B64) n default_fraction = ((2 * Z.of_nat n + 2) / 3)%Z.
Proof.
  intros Hn.
  assert (H : forallb (λ n, (required_quorum (F:=B64) n default_fraction
    =? (2 * Z.of_nat n + 2) / 3)%Z) (seq 0 1001) = true) by (vm_compute; reflexivity).
  rewrite forallb_forall in H. apply Z.eqb_eq, H, in_seq. lia.
Qed.

Lemma default_quorum_witness : required_quorum (F:=B64) 6 default_fraction = 4%Z.
Proof. apply (default_quorum 6). lia. Defined.

(** ** Runs *)

(** Three agents: the first fails alone, the other two complete together, the last one
    iterated first. *)
Definition ex_racers : list (WorkflowStep (F:=QF) Z) :=
  [mkStep (F:=QF) "a" "x" [] "1" None []; mkStep (F:=QF) "b" "x" [] "2" None [];
   mkStep (F:=QF) "c" "x" [] "3" None []].

Definition ex_race : race (F:=QF) (V:=Z) :=
  mkRace (F:=QF) [[0]; [2; 1]]%nat
    (λ i, mkRun (F:=QF) (match i with O => Raises "down" | _ => Outputs [("k", Z.of_nat i)] end)
      0%Q 1%Q)
    (λ _, None) (λ l, l).

Lemma ex_fair : fair ex_racers ex_race.
Proof.
  split; [|done|].
  - simpl. apply perm_skip, perm_swap.
  - intros [|[|[|i]]] s Hs; simplify_eq/=; by eexists.
Qed.

Lemma ex_racers_NoDup : NoDup (step_id <$> ex_racers).
Proof. apply (bool_decide_unpack _). reflexivity. Qed.

(** With [include_all_results] a competitive workflow drops the result of an agent that
    completed, and succeeded, at the same time as the winner, while its outcome would
    have been kept had it still been running. *)
Theorem include_all_drops_arrived :
  ∃ out, execute_competitive ex_racers ex_race true 0%Q 1%Q = Some (Finished out) ∧
    res_id <$> out.(step_results) = ["1"; "3"] ∧ wins ex_racers ex_race 1.
Proof. eexists. split; [reflexivity|]. split; [reflexivity|]. eexists. split; reflexivity. Qed.

Lemma competitive_first_success_witness :
  ex_racers ≠ [] ∧
  ∃ out, execute_competitive ex_racers ex_race false 0%Q 1%Q = Some (Finished out) ∧
  ((∃ b1 d1 i d2 b2 x, ex_race.(batches) = b1 ++ (d1 ++ i :: d2) :: b2 ∧
      (∀ j, j ∈ mjoin b1 ++ d1 → loses ex_racers ex_race j) ∧
      own ex_racers ex_race i = Some x ∧ x.(success) = true ∧
      out.(status) = SUCCESS ∧ out.(step_results) = [x]) ∨
   ((∀ j, j < 3 → loses ex_racers ex_race j)%nat ∧ out.(status) = FAILED ∧
    Some <$> out.(step_results) = own ex_racers ex_race <$> seq 0 3)).
Proof.
  split; [discriminate|].
  apply (competitive_first_success ex_racers ex_race ex_racers_NoDup ex_fair false 0%Q 1%Q).
  discriminate.
Defined.

Lemma consensus_decides_witness :
  ex_racers ≠ [] ∧
  ∃ out seen rest, mjoin ex_race.(batches) = seen ++ rest ∧
    execute_consensus ex_racers ex_race id (2 # 3)%Q 0%Q 1%Q = Some (Finished out) ∧
    out.(status) = SUCCESS.
Proof.
  split; [discriminate|].
  destruct (consensus_decides ex_racers ex_race id ex_racers_NoDup ex_fair (2 # 3)%Q 0%Q 1%Q)
    as (out & seen & rest & H1 & H2 & H3); [discriminate|].
  exists out, seen, rest. split; [exact H1|]. split; [exact H2|].
  rewrite decide_True in H3 by (apply Z.leb_le; reflexivity). apply H3.
Defined.
