(* ===== verification/YamlWorkflow.v ===== *)
(** * Declarative workflows ([workflows/yaml_workflow.py])

    Documents are what PyYAML loads and context values are what callers and handlers
    supply: both are [pyval]s, immutable here (a handler returns values and does not
    mutate the objects it is given).  Handlers, PyYAML, the file system and the
    behaviour of objects of other types ([PObj]) are the environment. *)
From stdpp Require Import base list sets strings pretty.
From Stdlib Require Import ZArith QArith Ascii Lia.
From S2P Require Import Prelude PyDict PyFloat.

#[local] Close Scope Q_scope.

Set Default Proof Using "Type".

Section yaml.
Context {F : PyFloat}.

Inductive pyval : Type :=
  | PNone
  | PBool (b : bool)
  | PInt (z : Z)
  | PFloat (x : float)
  | PStr (s : string)
  | PList (l : list pyval)
  | PDict (kvs : list (pyval * pyval))
  | PObj (o : nat).

(** Objects of other types: their text, truth value, and whether they can be called;
    [repr] is also the text of floats and containers. *)
Context (repr : pyval → string) (obj_truth obj_callable : nat → bool).

(** [str(v)] *)
Definition py_str (v : pyval) : string :=
  match v with
  | PNone => "None"
  | PBool true => "True"
  | PBool false => "False"
  | PInt z => pretty z
  | PStr s => s
  | _ => repr v
  end.

(** [bool(value)] *)
Definition _is_truthy (value : pyval) : bool :=
  match value with
  | PNone => false
  | PBool b => b
  | PInt z => negb (z =? 0)%Z
  | PFloat x => negb (feqb x f0)
  | PStr s => negb (String.eqb s "")
  | PList l => match l with [] => false | _ => true end
  | PDict kvs => match kvs with [] => false | _ => true end
  | PObj o => obj_truth o
  end.

(** ** Data *)

Inductive YAMLWorkflowStep : Type := mkYStep {
  name : string;
  step_type : string;
  agent : pyval;
  inputs : dict string;
  outputs : list string;
  condition : option string;
  if_steps : list YAMLWorkflowStep;
  else_steps : list YAMLWorkflowStep;
  sub_steps : list YAMLWorkflowStep;
}.

(** The error texts of [execute]. *)
Inductive step_failure : Type :=
  | NoAgent
  | AgentNotFound (a : pyval)
  | AgentNotCallable (a : pyval)
  | HandlerRaised (msg : string)
  | NoCondition.

Record YAMLWorkflowResult : Type := mkYResult {
  steps_completed : list string;
  result_outputs : dict pyval;
  duration_seconds : float;
  errors : list (string * step_failure);
}.

Definition success (r : YAMLWorkflowResult) : bool := (length r.(errors) =? 0)%nat.

Definition _VALID_STEP_TYPES : list string := ["task"; "parallel"; "conditional"].

(** ** Parsing *)

(** The [YAMLValidationError]s. *)
Inductive problem : Type :=
  | KeyRequired (key context : string)
  | KeyNotString (key context : string)
  | StepNotMapping (index : nat)
  | UnknownType (name step_type : string)
  | InputsNotMapping (name : string)
  | OutputsNotList (name : string)
  | StepsListRequired (name : string)
  | DocumentNotMapping
  | StepsNotList.

Inductive yaml_error : Type :=
  | NoPyYAML
  | YAMLParseError (msg : string)
  | YAMLValidationError (p : problem)
  | TypeErr                       (* Python's TypeError *)
  | FileNotFound (path : string).

(** [mapping.get(key, default)], and the value seen through [f]. *)
Definition is_key (key : string) (k : pyval) : bool :=
  match k with PStr s => String.eqb s key | _ => false end.

Definition get_with {A} (f : pyval → A) (default : A) (key : string)
    : list (pyval * pyval) → A :=
  fix go kvs := match kvs with
  | [] => default
  | (k, v) :: rest => if is_key key k then f v else go rest
  end.

Definition vget (mapping : list (pyval * pyval)) (key : string) : option pyval :=
  get_with Some None key mapping.

(** The [Except]ion monad of the parser. *)
Definition try {A B} (m : result yaml_error A) (k : A → result yaml_error B)
    : result yaml_error B :=
  match m with Ok a => k a | Raise e => Raise e end.
#[local] Notation "'do?' x := m 'in' k" := (try m (λ x, k))
  (at level 10, x name, m at level 100, k at level 200).
Definition invalid {A} (p : problem) : result yaml_error A := Raise (YAMLValidationError p).

Definition _require_str (mapping : list (pyval * pyval)) (key context : string)
    : result yaml_error string :=
  match vget mapping key with
  | None | Some PNone => invalid (KeyRequired key context)
  | Some (PStr s) => Ok s
  | Some _ => invalid (KeyNotString key context)
  end.

(** [[parse(s, i) for i, s in enumerate(l, i)]] *)
Definition parse_each (parse : pyval → nat → result yaml_error YAMLWorkflowStep)
    : list pyval → nat → result yaml_error (list YAMLWorkflowStep) :=
  fix go l i := match l with
  | [] => Ok []
  | s :: rest => do? x := parse s i in do? xs := go rest (S i) in Ok (x :: xs)
  end.

(** The same over any raw value: strings give their characters and mappings their
    keys, which are no mappings; other objects are not iterable. *)
Definition parse_iterable (parse : pyval → nat → result yaml_error YAMLWorkflowStep)
    (raw : pyval) : result yaml_error (list YAMLWorkflowStep) :=
  match raw with
  | PList l => parse_each parse l 0
  | PStr "" | PDict [] => Ok []
  | PStr _ | PDict _ => invalid (StepNotMapping 0)
  | _ => Raise TypeErr
  end.

(** The [steps] of a parallel step must be a list. *)
Definition parse_sub (parse : pyval → nat → result yaml_error YAMLWorkflowStep)
    (name : string) (raw : pyval) : result yaml_error (list YAMLWorkflowStep) :=
  match raw with
  | PList l => parse_each parse l 0
  | _ => invalid (StepsListRequired name)
  end.

Definition step_context (name : string) : string := ("step '" +:+ name +:+ "'")%string.

(** [{str(k): str(v) for k, v in raw_inputs.items()}] *)
Definition str_items (kvs : list (pyval * pyval)) : dict string :=
  fold_left (λ d kv, dset d (py_str kv.1) (py_str kv.2)) kvs [].

Fixpoint _parse_step (raw_step : pyval) (step_index : nat) {struct raw_step}
    : result yaml_error YAMLWorkflowStep :=
  match raw_step with
  | PDict m =>
      do? name := _require_str m "name" ("step[" +:+ pretty step_index +:+ "]")%string in
      do? step_type := _require_str m "type" (step_context name) in
      if negb (bool_decide (step_type ∈ _VALID_STEP_TYPES)) then invalid (UnknownType name step_type)
      else
        let agent := default PNone (vget m "agent") in
        match default (PDict []) (vget m "inputs"), default (PList []) (vget m "outputs") with
        | PDict raw_inputs, PList raw_outputs =>
            let mk := mkYStep name step_type agent (str_items raw_inputs) (py_str <$> raw_outputs) in
            if String.eqb step_type "conditional" then
              do? condition := _require_str m "condition" (step_context name) in
              do? if_steps := get_with (parse_iterable _parse_step) (Ok []) "if_steps" m in
              do? else_steps := get_with (parse_iterable _parse_step) (Ok []) "else_steps" m in
              Ok (mk (Some condition) if_steps else_steps [])
            else if String.eqb step_type "parallel" then
              do? sub_steps := get_with (parse_sub _parse_step name) (Ok []) "steps" m in
              Ok (mk None [] [] sub_steps)
            else Ok (mk None [] [] [])
        | PDict _, _ => invalid (OutputsNotList name)
        | _, _ => invalid (InputsNotMapping name)
        end
  | _ => invalid (StepNotMapping step_index)
  end.

Definition _parse_workflow_document (document : pyval)
    : result yaml_error (string * list YAMLWorkflowStep) :=
  match document with
  | PDict m =>
      do? name := _require_str m "name" "workflow document" in
      match default (PList []) (vget m "steps") with
      | PList raw_steps => do? steps := parse_each _parse_step raw_steps 0 in Ok (name, steps)
      | _ => invalid StepsNotList
      end
  | _ => invalid DocumentNotMapping
  end.

Record YAMLWorkflow : Type := mkYWorkflow {
  wf_name : string;
  wf_steps : list YAMLWorkflowStep;
}.

Section loading.
(** PyYAML when installed: [yaml.safe_load], which raises or returns a document; and
    the file system: the text of a path that exists. *)
Context (safe_load : option (string → result string pyval)).
Context (read_text : string → option string).

Definition _load_yaml (yaml_str : string) : result yaml_error pyval :=
  match safe_load with
  | None => Raise NoPyYAML
  | Some load =>
      match load yaml_str with
      | Ok document => Ok document
      | Raise msg => Raise (YAMLParseError msg)
      end
  end.

Definition from_yaml (yaml_str : string) : result yaml_error YAMLWorkflow :=
  do? document := _load_yaml yaml_str in
  do? name_steps := _parse_workflow_document document in
  Ok (mkYWorkflow name_steps.1 name_steps.2).

Definition from_file (path : string) : result yaml_error YAMLWorkflow :=
  match read_text path with
  | None => Raise (FileNotFound path)
  | Some yaml_str => from_yaml yaml_str
  end.
End loading.

(** ** Execution *)

(** [path.split(".")] *)
Fixpoint split_dot (path : string) : list string :=
  match path with
  | EmptyString => [""]
  | String c rest =>
      if Ascii.eqb c "."%char then "" :: split_dot rest
      else match split_dot rest with
           | part :: parts => String c part :: parts
           | [] => [String c ""]
           end
  end.

(** A context seen as an object. *)
Definition as_object (context : dict pyval) : pyval := PDict (prod_map PStr id <$> context).

(** The loop of [_resolve_dot_path]. *)
Fixpoint follow (current : pyval) (parts : list string) : pyval :=
  match parts with
  | [] => current
  | part :: rest =>
      match current with
      | PDict m => follow (default PNone (vget m part)) rest
      | _ => PNone
      end
  end.

Definition _resolve_dot_path (context : dict pyval) (path : string) : pyval :=
  follow (as_object context) (split_dot path).

Definition _resolve_inputs (step_inputs : dict string) (context : dict pyval) : dict pyval :=
  fold_left (λ resolved pk, dset resolved pk.1 (default (PStr pk.2) (dget context pk.2)))
    step_inputs [].

(** What calling a handler did: it returned, raised an [Exception], or left with
    another [BaseException]. *)
Inductive call : Type :=
  | Returned (v : pyval)
  | RaisedExc (msg : string)
  | LeftWith.

Section run.
Context {W : Type} (invoke : nat → dict pyval → W → call * W).

(** The variables [context], [steps_completed] and [errors] the helpers share, and the
    world of the handlers. *)
Record yrun : Type := mkYRun {
  ctx : dict pyval;
  completed : list string;
  failures : list (string * step_failure);
  world : W;
}.

(** What leaves [execute]: a [BaseException] of a handler, or the [TypeError] of looking
    up an unhashable agent. *)
Inductive escape : Type := HandlerLeft | UnhashableAgent.

Definition complete (n : string) : M yrun escape unit :=
  modS (λ s, mkYRun s.(ctx) (s.(completed) ++ [n]) s.(failures) s.(world)).
Definition report (n : string) (f : step_failure) : M yrun escape unit :=
  modS (λ s, mkYRun s.(ctx) s.(completed) (s.(failures) ++ [(n, f)]) s.(world)).
Definition set_ctx (f : dict pyval → dict pyval) : M yrun escape unit :=
  modS (λ s, mkYRun (f s.(ctx)) s.(completed) s.(failures) s.(world)).

(** [context.get(step.agent)] *)
Definition lookup_agent (context : dict pyval) (a : pyval) : result escape pyval :=
  match a with
  | PStr s => Ok (default PNone (dget context s))
  | PList _ | PDict _ => Raise UnhashableAgent
  | _ => Ok PNone
  end.

(** The outputs of a handler's result merged into the context. *)
Definition merge_result (declared : list string) (v : pyval) (context : dict pyval) : dict pyval :=
  match v with
  | PDict m =>
      fold_left (λ c k, match vget m k with Some x => dset c k x | None => c end) declared context
  | _ => match declared with k :: _ => dset context k v | [] => context end
  end.

Definition call_handler (o : nat) (args : dict pyval) : M yrun escape call := λ s,
  let '(c, w) := invoke o args s.(world) in
  (Ok c, mkYRun s.(ctx) s.(completed) s.(failures) w).

Definition _execute_task (step : YAMLWorkflowStep) : M yrun escape unit :=
  match step.(agent) with
  | PNone => report step.(name) NoAgent
  | a =>
      let! s := getS in
      match lookup_agent s.(ctx) a with
      | Raise e => raiseS e
      | Ok PNone => report step.(name) (AgentNotFound a)
      | Ok handler =>
          match handler with
          | PObj o =>
              if negb (obj_callable o) then report step.(name) (AgentNotCallable a)
              else
                let! c := call_handler o (_resolve_inputs step.(inputs) s.(ctx)) in
                match c with
                | LeftWith => raiseS HandlerLeft
                | RaisedExc m => report step.(name) (HandlerRaised m)
                | Returned v =>
                    let! _ := set_ctx (merge_result step.(outputs) v) in
                    complete step.(name)
                end
          | _ => report step.(name) (AgentNotCallable a)
          end
      end
  end.

(** [for s in steps: exec(s)] *)
Definition for_each (exec : YAMLWorkflowStep → M yrun escape unit)
    : list YAMLWorkflowStep → M yrun escape unit :=
  fix go steps := match steps with
  | [] => retS tt
  | s :: rest => let! _ := exec s in go rest
  end.

(** [_execute_parallel], given how to run its sub-steps: they fill lists of their
    own. *)
Definition _execute_parallel (n : string) (run_sub : M yrun escape unit) : M yrun escape unit :=
  let! s := getS in
  let! _ := modS (λ s, mkYRun s.(ctx) [] [] s.(world)) in
  let! _ := run_sub in
  let! sub := getS in
  let! _ := putS (mkYRun sub.(ctx) (s.(completed) ++ sub.(completed))
                    (s.(failures) ++ sub.(failures)) sub.(world)) in
  match sub.(failures) with
  | [] => complete n
  | _ => retS tt
  end.

(** [_execute_conditional], given how to run either branch. *)
Definition _execute_conditional (n : string) (cond : option string)
    (run_if run_else : M yrun escape unit) : M yrun escape unit :=
  match cond with
  | None => report n NoCondition
  | Some c =>
      let! s := getS in
      let! _ := (if _is_truthy (_resolve_dot_path s.(ctx) c) then run_if else run_else) in
      complete n
  end.

Fixpoint _execute_step (step : YAMLWorkflowStep) : M yrun escape unit :=
  match step with
  | mkYStep n ty a ins outs cond ifs elses subs =>
      if String.eqb ty "task" then _execute_task step
      else if String.eqb ty "parallel" then _execute_parallel n (for_each _execute_step subs)
      else if String.eqb ty "conditional" then
        _execute_conditional n cond (for_each _execute_step ifs) (for_each _execute_step elses)
      else retS tt
  end.

(** [context[key] != value], dispatched to the types of the two objects. *)
Context (ne : pyval → pyval → bool).

(** The [outputs] of [execute]: new keys, then keys whose value changed. *)
Definition changed_keys (context final : dict pyval) : dict pyval :=
  fold_left (λ outs kv, match dget context kv.1 with
      | Some v => if ne v kv.2 then dset outs kv.1 kv.2 else outs
      | None => outs
      end) final
    (fold_left (λ outs kv, if dmem context kv.1 then outs else dset outs kv.1 kv.2) final []).

(** [YAMLWorkflow.execute]; [start] and [now] are the clock at its two reads. *)
Definition execute (self : YAMLWorkflow) (context : dict pyval) (start now : float) (w : W)
    : result escape YAMLWorkflowResult * W :=
  match for_each _execute_step self.(wf_steps) (mkYRun context [] [] w) with
  | (Raise e, s) => (Raise e, s.(world))
  | (Ok _, s) =>
      (Ok (mkYResult s.(completed) (changed_keys context s.(ctx)) (fsub now start) s.(failures)),
       s.(world))
  end.
End run.
(** ** Induction over nested documents and steps *)
Lemma Forall_all {A} (P : A → Prop) (IH : ∀ x, P x) (l : list A) : Forall P l.
Proof. induction l; constructor; auto. Qed.

Lemma step_nested_ind (P : YAMLWorkflowStep → Prop) :
  (∀ s, Forall P s.(if_steps) → Forall P s.(else_steps) → Forall P s.(sub_steps) → P s) →
  ∀ s, P s.
Proof.
  intros H. fix IH 1. intros [n ty a ins outs c ifs elses subs].
  apply H; cbn [if_steps else_steps sub_steps].
  - induction ifs; constructor; [apply IH|assumption].
  - induction elses; constructor; [apply IH|assumption].
  - induction subs; constructor; [apply IH|assumption].
Qed.

Definition children (v : pyval) : list pyval :=
  match v with PList l => l | PDict kvs => kvs.*2 | _ => [] end.

Lemma pyval_nested_ind (P : pyval → Prop) :
  (∀ v, Forall P (children v) → P v) → ∀ v, P v.
Proof.
  intros H. fix IH 1. intros v. apply H. destruct v as [| | | | |l|kvs|]; cbn [children].
  1-5,8: constructor.
  - induction l; constructor; [apply IH|assumption].
  - induction kvs as [|[k v] kvs IHl]; constructor; [apply IH|assumption].
Qed.

(** ** What the parser accepts *)

(** The steps the parser makes: a known type, a condition exactly on conditionals, and
    sub-steps only where the type has them. *)
Inductive wf_step : YAMLWorkflowStep → Prop :=
  | wf_task n a ins outs :
      dwf ins → wf_step (mkYStep n "task" a ins outs None [] [] [])
  | wf_parallel n a ins outs subs :
      dwf ins → Forall wf_step subs →
      wf_step (mkYStep n "parallel" a ins outs None [] [] subs)
  | wf_conditional n a ins outs c ifs elses :
      dwf ins → Forall wf_step ifs → Forall wf_step elses →
      wf_step (mkYStep n "conditional" a ins outs (Some c) ifs elses []).

Lemma str_items_wf kvs : dwf (str_items kvs).
Proof.
  unfold str_items. assert (H : dwf (V:=string) []) by apply dwf_nil. revert H.
  generalize (@nil (string * string)). induction kvs as [|[k v] kvs IH]; intros d Hd; simpl; [done|].
  apply IH. by apply dwf_set.
Qed.

Lemma get_with_cases {A} (f : pyval → A) (d : A) key m :
  get_with f d key m = d ∨ ∃ v, v ∈ m.*2 ∧ get_with f d key m = f v.
Proof.
  induction m as [|[k v] m IH]; [by left|]. cbn [get_with]. destruct (is_key key k).
  - right. exists v. split; [csimpl; by left|done].
  - destruct IH as [IH|(x & Hx & IH)]; [by left|]. right. exists x. split; [csimpl; by right|done].
Qed.

(** What is known of a value and, when it is a list, of its elements. *)
Definition parses_wf (v : pyval) : Prop := ∀ i s, _parse_step v i = Ok s → wf_step s.

Lemma parse_each_wf l i ss :
  Forall parses_wf l → parse_each _parse_step l i = Ok ss → Forall wf_step ss.
Proof.
  intros Hl. revert i ss. induction Hl as [|v l Hv Hl IH]; intros i ss; cbn [parse_each].
  - by intros [= <-].
  - unfold try. destruct (_parse_step v i) as [s|] eqn:E; [|done].
    fold (parse_each _parse_step). destruct (parse_each _parse_step l (S i)) as [xs|] eqn:El; [|done].
    intros [= <-]. constructor; [by eapply Hv|by eapply IH].
Qed.

Lemma parse_get_wf (f : pyval → result yaml_error (list YAMLWorkflowStep)) key m ss :
  (∀ v xs, f v = Ok xs → xs = [] ∨ ∃ l, v = PList l ∧ parse_each _parse_step l 0 = Ok xs) →
  Forall (λ v, parses_wf v ∧ Forall parses_wf (children v)) m.*2 →
  get_with f (Ok []) key m = Ok ss → Forall wf_step ss.
Proof.
  intros Hf Hm H. destruct (get_with_cases f (Ok []) key m) as [E|(v & Hv & E)]; rewrite E in H.
  - injection H as <-. constructor.
  - destruct (Hf _ _ H) as [->|(l & -> & Hl)]; [constructor|].
    rewrite Forall_forall in Hm. destruct (Hm _ Hv) as [_ Hc]. by eapply parse_each_wf.
Qed.

Lemma parse_iterable_cases v xs :
  parse_iterable _parse_step v = Ok xs →
  xs = [] ∨ ∃ l, v = PList l ∧ parse_each _parse_step l 0 = Ok xs.
Proof.
  destruct v as [| | | |[]|l|[]|]; simpl; try discriminate; try (intros [= <-]; by left).
  intros H. right. by exists l.
Qed.

Lemma parse_sub_cases n v xs :
  parse_sub _parse_step n v = Ok xs →
  xs = [] ∨ ∃ l, v = PList l ∧ parse_each _parse_step l 0 = Ok xs.
Proof. destruct v; try done. intros H. right. by eexists. Qed.

Lemma parse_step_wf v : parses_wf v.
Proof.
  assert (H : parses_wf v ∧ Forall parses_wf (children v)); [|apply H].
  induction v as [v IH] using pyval_nested_ind. split; [|by eapply Forall_impl; [exact IH|intros ? []]].
  intros i s H. destruct v as [| | | | | |m|]; try done. cbn [children] in IH.
  cbn [_parse_step] in H. unfold try at 1 2, invalid in H.
  destruct (_require_str m "name" _) as [n|]; [|done].
  destruct (_require_str m "type" _) as [ty|]; [|done].
  destruct (bool_decide (ty ∈ _VALID_STEP_TYPES)) eqn:Hty; [cbn [negb] in H|done].
  apply bool_decide_eq_true in Hty.
  destruct (default (PDict []) (vget m "inputs")) as [| | | | | |kvs|]; try done.
  destruct (default (PList []) (vget m "outputs")) as [| | | | |outs| |]; try done.
  destruct (String.eqb_spec ty "conditional") as [->|Hc].
  { destruct (_require_str m "condition" _) as [c|]; [cbn [try] in H|done].
    destruct (get_with _ (Ok []) "if_steps" m) as [ifs|] eqn:Ei; [cbn [try] in H|done].
    destruct (get_with _ (Ok []) "else_steps" m) as [elses|] eqn:Ee; [cbn [try] in H|done].
    injection H as <-. constructor; [apply str_items_wf|..];
      eapply parse_get_wf; eauto using parse_iterable_cases. }
  destruct (String.eqb_spec ty "parallel") as [->|Hp].
  { destruct (get_with _ (Ok []) "steps" m) as [subs|] eqn:Es; [cbn [try] in H|done].
    injection H as <-. constructor; [apply str_items_wf|].
    eapply parse_get_wf; eauto using parse_sub_cases. }
  injection H as <-. assert (ty = "task") as -> by (clear -Hty Hc Hp; set_solver).
  constructor. apply str_items_wf.
Qed.
(** ** Writing a workflow back as a document *)
Definition str_pairs (d : dict string) : list (pyval * pyval) :=
  (λ kv, (PStr kv.1, PStr kv.2)) <$> d.

Fixpoint step_document (s : YAMLWorkflowStep) : pyval :=
  match s with
  | mkYStep n ty a ins outs c ifs elses subs =>
      PDict ([(PStr "name", PStr n); (PStr "type", PStr ty); (PStr "agent", a);
              (PStr "inputs", PDict (str_pairs ins)); (PStr "outputs", PList (PStr <$> outs))]
        ++ match c with Some c => [(PStr "condition", PStr c)] | None => [] end
        ++ [(PStr "if_steps", PList (map step_document ifs));
            (PStr "else_steps", PList (map step_document elses));
            (PStr "steps", PList (map step_document subs))])
  end.

Definition workflow_document (n : string) (steps : list YAMLWorkflowStep) : pyval :=
  PDict [(PStr "name", PStr n); (PStr "steps", PList (map step_document steps))].

Lemma str_items_pairs d : dwf d → str_items (str_pairs d) = d.
Proof.
  intros Hd. unfold str_items, str_pairs.
  assert (E : ∀ (l : dict string) d0, fold_left (λ d kv, dset d (py_str kv.1) (py_str kv.2))
    ((λ kv, (PStr kv.1, PStr kv.2)) <$> l) d0 = fold_left (λ d kv, dset d kv.1 kv.2) l d0).
  { induction l as [|[k v] l IH]; intros d0; [done|]. csimpl. by rewrite IH. }
  rewrite E, (fold_dset_fresh fst snd); [|exact Hd|intros x _ H; by apply elem_of_nil in H].
  simpl. clear. induction d as [|[k v] d IH]; [done|]. csimpl. by f_equal.
Qed.

Lemma parse_each_map l i :
  Forall (λ s, ∀ i, _parse_step (step_document s) i = Ok s) l →
  parse_each _parse_step (map step_document l) i = Ok l.
Proof.
  intros Hl. revert i. induction Hl as [|s l Hs Hl IH]; intros i; [done|].
  cbn [map parse_each]. rewrite Hs. cbn [try]. fold (parse_each _parse_step).
  by rewrite IH.
Qed.

Lemma str_outputs (outs : list string) : py_str <$> (PStr <$> outs) = outs.
Proof. induction outs; [done|]. csimpl. by f_equal. Qed.

Lemma parse_step_document s i : wf_step s → _parse_step (step_document s) i = Ok s.
Proof.
  intros Hs. revert i Hs. induction s as [s IHi IHe IHs] using step_nested_ind. intros i Hs.
  assert (Hall : ∀ l, Forall (λ s, ∀ i, wf_step s → _parse_step (step_document s) i = Ok s) l →
    Forall wf_step l → parse_each _parse_step (map step_document l) 0 = Ok l).
  { intros l H1 H2. apply parse_each_map. rewrite Forall_forall in H1, H2 |- *.
    intros x Hx j. by apply H1; [|apply H2]. }
  destruct Hs; cbn [if_steps else_steps sub_steps] in *; cbn -[parse_each bool_decide];
    rewrite ?str_items_pairs, ?str_outputs by done.
  - done.
  - by rewrite Hall.
  - by rewrite !Hall.
Qed.

Lemma parse_document_wf document n steps :
  _parse_workflow_document document = Ok (n, steps) → Forall wf_step steps.
Proof.
  destruct document as [| | | | | |m|]; try done. cbn [_parse_workflow_document].
  unfold try at 1, invalid. destruct (_require_str m "name" _); [|done].
  destruct (default (PList []) (vget m "steps")) as [| | | | |l| |]; try done.
  destruct (parse_each _parse_step l 0) as [ss|] eqn:E; [|done]. intros [= <- <-].
  eapply parse_each_wf; [|exact E]. apply Forall_all, parse_step_wf.
Qed.

(** C22. The well-formed workflows are exactly those that come back from the parser when
    written as a document: every step type, input, output, branch and sub-step. *)
Theorem document_roundtrip n steps :
  _parse_workflow_document (workflow_document n steps) = Ok (n, steps) ↔ Forall wf_step steps.
Proof.
  split; [apply parse_document_wf|]. intros H. cbn -[parse_each].
  rewrite parse_each_map; [done|]. eapply Forall_impl; [exact H|].
  intros s Hs i. by apply parse_step_document.
Qed.

(** ** What an execution does *)
Section run_facts.
Context {W : Type} (invoke : nat → dict pyval → W → call * W).

(** The names of the steps of [s] that are attempted: tasks, those of every sub-step of
    a parallel step, and those of one branch of a conditional; and the names of the
    parallel and conditional steps entered. *)
Inductive attempts : YAMLWorkflowStep → list string * list string → Prop :=
  | attempts_task s : s.(step_type) = "task" → attempts s ([s.(name)], [])
  | attempts_parallel s ls :
      s.(step_type) = "parallel" → Forall2 attempts s.(sub_steps) ls →
      attempts s (mjoin ls.*1, mjoin ls.*2 ++ [s.(name)])
  | attempts_branch s c branch ls :
      s.(step_type) = "conditional" → s.(condition) = Some c →
      branch = s.(if_steps) ∨ branch = s.(else_steps) →
      Forall2 attempts branch ls → attempts s (mjoin ls.*1, mjoin ls.*2 ++ [s.(name)])
  | attempts_no_condition s :
      s.(step_type) = "conditional" → s.(condition) = None → attempts s ([s.(name)], [])
  | attempts_unknown s : s.(step_type) ∉ _VALID_STEP_TYPES → attempts s ([], []).

(** Every attempted step either completed or has one error; the other completed names
    are of parallel and conditional steps entered. *)
Definition accounts (ran : list string * list string) (s s' : yrun (W:=W)) : Prop :=
  ∃ done groups failed,
    s'.(completed) ≡ₚ s.(completed) ++ done ++ groups ∧
    s'.(failures) = s.(failures) ++ failed ∧
    ran.1 ≡ₚ done ++ failed.*1 ∧ groups ⊆+ ran.2.

Lemma accounts_refl s s' :
  s'.(completed) = s.(completed) → s'.(failures) = s.(failures) → accounts ([], []) s s'.
Proof. intros H1 H2. exists [], [], []. rewrite H1, H2, !app_nil_r. done. Qed.

Lemma accounts_trans r1 r2 s1 s2 s3 :
  accounts r1 s1 s2 → accounts r2 s2 s3 → accounts (r1.1 ++ r2.1, r1.2 ++ r2.2) s1 s3.
Proof.
  intros (d1 & g1 & f1 & C1 & F1 & R1 & G1) (d2 & g2 & f2 & C2 & F2 & R2 & G2).
  exists (d1 ++ d2), (g1 ++ g2), (f1 ++ f2). split_and!.
  - rewrite C2, C1. by solve_Permutation.
  - by rewrite F2, F1, (assoc (++)).
  - simpl. rewrite R1, R2, fmap_app. by solve_Permutation.
  - by apply submseteq_app.
Qed.

Lemma execute_task_cases step s u s' :
  _execute_task invoke step s = (Ok u, s') →
  (∃ f, s'.(completed) = s.(completed) ∧ s'.(failures) = s.(failures) ++ [(step.(name), f)] ∧
    s'.(ctx) = s.(ctx) ∧ f ≠ NoCondition) ∨
  (∃ v, s'.(completed) = s.(completed) ++ [step.(name)] ∧ s'.(failures) = s.(failures) ∧
    s'.(ctx) = merge_result step.(outputs) v s.(ctx)).
Proof.
  unfold _execute_task. intros H.
  assert (Hreport : ∀ f s0, f ≠ NoCondition → s0 = s → report step.(name) f s0 = (Ok u, s') →
    s'.(completed) = s.(completed) ∧ s'.(failures) = s.(failures) ++ [(step.(name), f)] ∧
    s'.(ctx) = s.(ctx) ∧ f ≠ NoCondition).
  { intros f s0 Hf -> [= _ <-]. done. }
  destruct (agent step) eqn:Ea; [left; eexists; eapply Hreport; [|reflexivity|exact H]; discriminate|..];
    unfold bindS at 1, getS in H;
    match type of H with context [lookup_agent ?c ?a] => destruct (lookup_agent c a) as [h|] end;
    try discriminate H;
    destruct h as [| | | | | | |fn]; try (left; eexists; eapply Hreport; [|reflexivity|exact H]; discriminate).
  all: destruct (obj_callable fn); [cbn [negb] in H|left; eexists; eapply Hreport; [|reflexivity|exact H]; discriminate].
  all: unfold call_handler, bindS at 1 in H.
  all: destruct (invoke fn _ _) as [[v|m|] w]; [right; exists v; by injection H as _ <-| |discriminate H].
  all: injection H as _ <-; left; eexists; split_and!; try reflexivity; done.
Qed.
Lemma merge_result_keys declared v c k :
  k ∉ declared → dget (merge_result declared v c) k = dget c k.
Proof.
  intros Hk. assert (H1 : ∀ k0 v0, k0 ∈ declared → dget (dset c k0 v0) k = dget c k).
  { intros k0 v0 H0. apply dget_set_ne. by intros ->. }
  destruct v; cbn [merge_result]; try (destruct declared; [done|apply H1; by left]).
  clear H1. revert c. induction declared as [|k0 l IH]; intros c; simpl; [done|].
  apply not_elem_of_cons in Hk as [Hne Hk]. rewrite IH by done.
  destruct (vget kvs k0); [by rewrite dget_set_ne|done].
Qed.

Lemma merge_result_wf declared v c : dwf c → dwf (merge_result declared v c).
Proof.
  intros Hc. destruct v; cbn [merge_result]; try (destruct declared; [done|by apply dwf_set]).
  revert c Hc. induction declared as [|k l IH]; intros c Hc; simpl; [done|].
  apply IH. destruct (vget kvs k); [by apply dwf_set|done].
Qed.

(** The output keys the tasks in a step declare. *)
Fixpoint declared (s : YAMLWorkflowStep) : list string :=
  match s with
  | mkYStep n ty a ins outs c ifs elses subs =>
      if String.eqb ty "task" then outs
      else concat (map declared ifs) ++ concat (map declared elses) ++ concat (map declared subs)
  end.

(** What running [steps], of which [ran] were attempted, did to the variables. *)
Record effect (steps : list YAMLWorkflowStep) (ran : list string * list string) (s s' : yrun (W:=W)) : Prop := {
  eff_accounts : accounts ran s s';
  eff_ctx k : k ∉ concat (map declared steps) → dget s'.(ctx) k = dget s.(ctx) k;
  eff_failures n : Forall wf_step steps → (n, NoCondition) ∈ s'.(failures) →
    (n, NoCondition) ∈ s.(failures);
  eff_dwf : dwf s.(ctx) → dwf s'.(ctx);
}.

Definition has_effect (st : YAMLWorkflowStep) : Prop :=
  ∀ s u s', _execute_step invoke st s = (Ok u, s') →
    ∃ ran, attempts st ran ∧ effect [st] ran s s'.

Lemma for_each_effect steps s u s' :
  Forall has_effect steps → for_each (_execute_step invoke) steps s = (Ok u, s') →
  ∃ ls, Forall2 attempts steps ls ∧ effect steps (mjoin ls.*1, mjoin ls.*2) s s'.
Proof.
  intros Hs. revert s. induction Hs as [|st steps Hst Hs IH]; intros s.
  { intros [= _ <-]. exists []. split; [constructor|].
    split; [by apply accounts_refl|done..]. }
  cbn [for_each]. fold (for_each (_execute_step invoke)). unfold bindS.
  destruct (_execute_step invoke st s) as [[[]|e] s1] eqn:E1; [|done]. intros H2.
  destruct (Hst _ _ _ E1) as (r & Hr & [A1 C1 N1 D1]).
  destruct (IH _ H2) as (ls & Hls & [A2 C2 N2 D2]). exists (r :: ls).
  split; [by constructor|]. split.
  - exact (accounts_trans _ _ _ _ _ A1 A2).
  - intros k. simpl. intros Hk. rewrite not_elem_of_app in Hk. destruct Hk as [Hk1 Hk2].
    rewrite C2 by done. apply C1. simpl. by rewrite app_nil_r.
  - intros n [Hw1 Hw2]%Forall_cons Hn. apply N1; [by repeat constructor|]. by apply N2.
  - auto.
Qed.

(** Fewer attempts of larger steps: an effect on some steps is one on a step made of
    them. *)
Lemma effect_weaken steps st r1 r2 s s' s1 :
  effect steps (r1, r2) s s' → (∀ k, k ∈ concat (map declared steps) → k ∈ declared st) →
  (wf_step st → Forall wf_step steps) →
  s1.(ctx) = s'.(ctx) → s1.(failures) = s'.(failures) →
  s1.(completed) = s'.(completed) ∨ s1.(completed) = s'.(completed) ++ [st.(name)] →
  effect [st] (r1, r2 ++ [st.(name)]) s s1.
Proof.
  intros [A C N D] Hd Hw Ec Ef Hc. split.
  - destruct A as (d & g & f & Cd & Fd & R & G). destruct Hc as [Hc|Hc].
    + exists d, g, f. rewrite Hc, Ef. split_and!; [done..|]. by apply submseteq_inserts_r.
    + exists d, (g ++ [st.(name)]), f. rewrite Hc, Ef, Cd. split_and!; [|done|done|].
      * solve_Permutation.
      * by apply submseteq_app.
  - intros k Hk. rewrite Ec. apply C. intros Hin. apply Hk. simpl. rewrite app_nil_r. by apply Hd.
  - intros m [Hst _]%Forall_cons. rewrite Ef. auto.
  - by rewrite Ec.
Qed.

Lemma execute_parallel_effect st s u s' :
  st.(step_type) = "parallel" → Forall has_effect st.(sub_steps) →
  _execute_parallel st.(name) (for_each (_execute_step invoke) st.(sub_steps)) s = (Ok u, s') →
  ∃ ran, attempts st ran ∧ effect [st] ran s s'.
Proof.
  intros Hty Hsub. unfold _execute_parallel, bindS, getS, modS, putS.
  destruct (for_each _ _ _) as [[[]|e] sub] eqn:E; [|done]. intros H.
  destruct (for_each_effect _ _ _ _ Hsub E) as (ls & Hls & [A C N D]).
  eexists. split; [by apply attempts_parallel|].
  assert (Heff : effect st.(sub_steps) (mjoin ls.*1, mjoin ls.*2) s
    (mkYRun sub.(ctx) (s.(completed) ++ sub.(completed)) (s.(failures) ++ sub.(failures))
      sub.(world))).
  { split; [|done| |done].
    - destruct A as (d & g & f & Cd & Ef & R & G). cbn in Cd, Ef. exists d, g, f.
      cbn [completed failures]. by rewrite Cd, Ef.
    - intros n Hw. cbn [failures]. intros [?|Hn]%elem_of_app; [done|].
      apply N in Hn; [|done]. by apply elem_of_nil in Hn. }
  destruct st as [n ty a ins outs c ifs elses subs]. cbn in *. subst ty.
  destruct (failures sub) as [|f l] eqn:Ef; injection H as _ <-;
    (eapply (effect_weaken _ (mkYStep n "parallel" a ins outs c ifs elses subs));
      [exact Heff|..]); try reflexivity; try (by left); try (by right);
    try (by inversion 1); cbn; clear; set_solver.
Qed.

Lemma execute_conditional_effect st s u s' :
  st.(step_type) = "conditional" →
  Forall has_effect st.(if_steps) → Forall has_effect st.(else_steps) →
  _execute_conditional st.(name) st.(condition)
    (for_each (_execute_step invoke) st.(if_steps))
    (for_each (_execute_step invoke) st.(else_steps)) s = (Ok u, s') →
  ∃ ran, attempts st ran ∧ effect [st] ran s s'.
Proof.
  intros Hty Hif Helse. unfold _execute_conditional.
  destruct (condition st) as [c|] eqn:Ec; cycle 1.
  { intros [= _ <-]. eexists. split; [by apply attempts_no_condition|]. split.
    - exists [], [], [(st.(name), NoCondition)]. cbn. by rewrite !app_nil_r.
    - done.
    - intros n [Hst _]%Forall_cons. by destruct Hst.
    - done. }
  unfold bindS, getS.
  set (branch := if _is_truthy (_resolve_dot_path s.(ctx) c) then st.(if_steps)
    else st.(else_steps)).
  assert (Hb : branch = st.(if_steps) ∨ branch = st.(else_steps)).
  { unfold branch. case_match; auto. }
  assert (Hall : Forall has_effect branch) by by destruct Hb as [-> | ->].
  intros H. assert (∃ s1, for_each (_execute_step invoke) branch s = (Ok tt, s1) ∧
    s' = mkYRun s1.(ctx) (s1.(completed) ++ [st.(name)]) s1.(failures) s1.(world)) as (s1 & E & ->).
  { unfold branch. destruct (_is_truthy _);
      destruct (for_each _ _ s) as [[[]|e] s1]; try discriminate H;
      injection H as _ <-; by exists s1. }
  destruct (for_each_effect _ _ _ _ Hall E) as (ls & Hls & Heff).
  eexists. split; [by eapply attempts_branch|].
  eapply effect_weaken; [exact Heff|..]; try reflexivity; try (by right).
  - destruct st as [n ty a ins outs cn ifs elses subs]. cbn in *. subst ty. cbn.
    intros k Hk. destruct Hb as [Hb|Hb]; rewrite Hb in Hk; clear -Hk; set_solver.
  - intros Hst. destruct Hb as [-> | ->]; by inversion Hst.
Qed.

Lemma execute_step_effect st : has_effect st.
Proof.
  induction st as [st IHi IHe IHs] using step_nested_ind. intros s u s'.
  destruct st as [n ty a ins outs c ifs elses subs] eqn:Est. cbn in IHi, IHe, IHs.
  cbn [_execute_step].
  destruct (String.eqb_spec ty "task") as [->|H1]; [|
    destruct (String.eqb_spec ty "parallel") as [->|H2]; [|
      destruct (String.eqb_spec ty "conditional") as [->|H3]]].
  - intros H. rewrite <-Est in *. eexists.
    assert (Hn : st.(name) = n) by by rewrite Est. rewrite <-Hn.
    split; [apply attempts_task; by rewrite Est|].
    apply execute_task_cases in H as [(f & Hc & Hf & Hx & Hne)|(v & Hc & Hf & Hx)]; split.
    + exists [], [], [(st.(name), f)]. by rewrite Hc, Hf, app_nil_r.
    + by rewrite Hx.
    + intros m _. rewrite Hf, elem_of_app, list_elem_of_singleton. intros [?|?]; [done|congruence].
    + by rewrite Hx.
    + exists [st.(name)], [], []. by rewrite Hc, Hf, !app_nil_r.
    + intros k Hk. rewrite Hx. apply merge_result_keys. rewrite Est in Hk |- *.
      simpl in Hk. by rewrite app_nil_r in Hk.
    + by rewrite Hf.
    + rewrite Hx. apply merge_result_wf.
  - intros H. by eapply (execute_parallel_effect (mkYStep n "parallel" a ins outs c ifs elses subs)).
  - intros H. by eapply (execute_conditional_effect
      (mkYStep n "conditional" a ins outs c ifs elses subs)).
  - intros [= _ <-]. eexists. split.
    + apply attempts_unknown. unfold _VALID_STEP_TYPES. cbn. clear -H1 H2 H3; set_solver.
    + split; [by apply accounts_refl|done..].
Qed.

(** ** The results of a workflow *)
Context (ne : pyval → pyval → bool).

(** [changed_keys] is the difference of two contexts. *)
Lemma changed_keys_spec context final k :
  dwf final →
  dget (changed_keys ne context final) k =
    v ← dget final k;
    match dget context k with
    | None => Some v
    | Some v0 => if ne v0 v then Some v else None
    end.
Proof.
  unfold changed_keys. intros Hwf.
  assert (H1 : ∀ outs, dget (fold_left (λ outs kv, if dmem context kv.1 then outs
      else dset outs kv.1 kv.2) final outs) k =
    match (v ← dget final k; if dmem context k then None else Some v) with
    | Some v => Some v | None => dget outs k end).
  { induction final as [|[k0 v0] final IH]; intros outs; simpl; [done|].
    apply NoDup_cons in Hwf as [Hk0 Hwf]. simpl in Hk0. rewrite IH by done.
    destruct (decide (k = k0)) as [->|Hne].
    - apply dget_None in Hk0. rewrite Hk0. simpl. destruct (dmem context k0); [done|].
      by rewrite dget_set_eq.
    - destruct (dget final k) eqn:E; simpl; [destruct (dmem context k); [|done]|];
        (destruct (dmem context k0); [done|by rewrite dget_set_ne]). }
  assert (H2 : ∀ outs, dget (fold_left (λ outs kv, match dget context kv.1 with
      | Some v => if ne v kv.2 then dset outs kv.1 kv.2 else outs | None => outs end) final outs) k =
    match (v ← dget final k; match dget context k with
      | Some v0 => if ne v0 v then Some v else None | None => None end) with
    | Some v => Some v | None => dget outs k end).
  { clear H1. induction final as [|[k0 v0] final IH]; intros outs; simpl; [done|].
    apply NoDup_cons in Hwf as [Hk0 Hwf]. simpl in Hk0. rewrite IH by done.
    destruct (decide (k = k0)) as [->|Hne].
    - apply dget_None in Hk0. rewrite Hk0. simpl. destruct (dget context k0); [|done].
      destruct (ne _ v0); [by rewrite dget_set_eq|done].
    - case_match; [done|]. destruct (dget context k0); [|done].
      destruct (ne _ v0); [by rewrite dget_set_ne|done]. }
  rewrite H2, H1. destruct (dget final k) as [v|]; [simpl|done].
  unfold dmem. destruct (dget context k) as [v0|]; [|done]. by destruct (ne v0 v).
Qed.

Lemma execute_effect self context start now w r w' :
  execute invoke ne self context start now w = (Ok r, w') →
  ∃ ls s', Forall2 attempts self.(wf_steps) ls ∧
    effect self.(wf_steps) (mjoin ls.*1, mjoin ls.*2) (mkYRun context [] [] w) s' ∧
    r = mkYResult s'.(completed) (changed_keys ne context s'.(ctx)) (fsub now start) s'.(failures).
Proof.
  unfold execute. destruct (for_each _ _ _) as [[[]|e] s'] eqn:E; [|done].
  intros [= <- <-]. destruct (for_each_effect _ _ _ _ (Forall_all _ execute_step_effect _) E)
    as (ls & H1 & H2). by exists ls, s'.
Qed.

(** C12. A declarative workflow attempts every task of its steps, of one branch of each
    conditional and of all sub-steps of each parallel group, whatever fails before it,
    and reports on each exactly once: as completed, or with one error.  The other
    completed names are of groups and conditionals it entered. *)
Theorem every_task_accounted self context start now w r w' :
  execute invoke ne self context start now w = (Ok r, w') →
  ∃ ls done groups, Forall2 attempts self.(wf_steps) ls ∧
    mjoin ls.*1 ≡ₚ done ++ r.(errors).*1 ∧
    r.(steps_completed) ≡ₚ done ++ groups ∧ groups ⊆+ mjoin ls.*2.
Proof.
  intros (ls & s' & Hls & [(d & g & f & C & E & R & G) _ _ _] & ->)%execute_effect.
  exists ls, d, g. cbn in *. by subst f.
Qed.

(** The outputs of a workflow are declared outputs of its tasks, and never a binding
    the caller passed in: nothing a handler returns beyond what its task declares
    leaks out. *)
Theorem outputs_declared self context start now w r w' k v :
  dwf context → (∀ k v, dget context k = Some v → ne v v = false) →
  execute invoke ne self context start now w = (Ok r, w') →
  dget r.(result_outputs) k = Some v →
  k ∈ concat (map declared self.(wf_steps)) ∧ dget context k ≠ Some v.
Proof.
  intros Hwf Hne (ls & s' & Hls & [_ C _ D] & ->)%execute_effect. cbn [result_outputs].
  rewrite changed_keys_spec by (by apply D). cbn [ctx] in C.
  destruct (dget s'.(ctx) k) as [v'|] eqn:Ef; [simpl|done]. intros Hk.
  assert (Hc : dget context k ≠ Some v').
  { intros Hc. rewrite Hc, (Hne _ _ Hc) in Hk. done. }
  assert (v' = v) as -> by (by repeat case_match; simplify_eq). split; [|done].
  destruct (decide (k ∈ concat (map declared self.(wf_steps)))) as [|Hn]; [done|].
  apply C in Hn. congruence.
Qed.

(** A workflow that was loaded from a document never meets a conditional without a
    condition. *)
Theorem loaded_has_conditions safe_load yaml_str self context start now w r w' n :
  from_yaml safe_load yaml_str = Ok self →
  execute invoke ne self context start now w = (Ok r, w') →
  (n, NoCondition) ∉ r.(errors).
Proof.
  unfold from_yaml, try. intros Hload.
  destruct (_load_yaml safe_load yaml_str) as [d|]; [|done].
  destruct (_parse_workflow_document d) as [[nm steps]|] eqn:E; [|done].
  injection Hload as <-. apply parse_document_wf in E.
  intros (ls & s' & _ & [_ _ N _] & ->)%execute_effect Hn.
  specialize (N n E Hn). by apply elem_of_nil in N.
Qed.
End run_facts.
End yaml.

(** ** A workflow *)
Section example.
#[local] Existing Instance QF.

Definition ex_repr (_ : pyval) : string := "?".
Definition ex_truth (_ : nat) : bool := true.
Definition ex_callable (_ : nat) : bool := true.

(** Handler 0 returns a dictionary, any other raises; the world counts calls. *)
Definition ex_invoke (o : nat) (_ : dict pyval) (n : nat) : call * nat :=
  (match o with
   | O => Returned (PDict [(PStr "x", PInt 1); (PStr "y", PInt 2)])
   | _ => RaisedExc "boom"
   end, S n).

(** Structural difference is enough for the values that occur. *)
Definition ex_ne (a b : pyval) : bool :=
  match a, b with
  | PObj o, PObj o' => negb (Nat.eqb o o')
  | PDict _, PDict _ => false
  | PInt x, PInt y => negb (Z.eqb x y)
  | _, _ => true
  end.

Definition ex_task (n a : string) (outs : list pyval) : pyval :=
  PDict [(PStr "name", PStr n); (PStr "type", PStr "task"); (PStr "agent", PStr a);
         (PStr "outputs", PList outs)].

Definition ex_document : pyval :=
  PDict [(PStr "name", PStr "w"); (PStr "steps", PList [
    ex_task "fetch" "h" [PStr "x"];
    PDict [(PStr "name", PStr "check"); (PStr "type", PStr "conditional");
           (PStr "condition", PStr "cfg.on");
           (PStr "if_steps", PList [ex_task "bad" "missing" []]);
           (PStr "else_steps", PList [ex_task "other" "h" []])];
    PDict [(PStr "name", PStr "group"); (PStr "type", PStr "parallel");
           (PStr "steps", PList [ex_task "t1" "boom" []; ex_task "t2" "h" [PStr "x"]])]])].

Definition ex_context : dict pyval :=
  [("h", PObj 0); ("boom", PObj 1); ("cfg", PDict [(PStr "on", PBool true)])].

Definition ex_workflow : YAMLWorkflow :=
  match from_yaml ex_repr (Some (λ _, Ok ex_document)) "w.yaml" with
  | Ok wf => wf
  | Raise _ => mkYWorkflow "" []
  end.

Definition ex_result : YAMLWorkflowResult :=
  mkYResult ["fetch"; "check"; "t2"] [("x", PInt 1)] (1 - 0)%Q
    [("bad", AgentNotFound (PStr "missing")); ("t1", HandlerRaised "boom")].

Lemma ex_run :
  execute ex_truth ex_callable ex_invoke ex_ne ex_workflow ex_context 0%Q 1%Q 0%nat
    = (Ok ex_result, 3%nat).
Proof. reflexivity. Qed.

(** Parsing and writing back gives the same steps again. *)
Lemma ex_reparse :
  _parse_workflow_document ex_repr ex_document = Ok ("w", ex_workflow.(wf_steps)) ∧
  _parse_workflow_document ex_repr (workflow_document "w" ex_workflow.(wf_steps))
    = Ok ("w", ex_workflow.(wf_steps)).
Proof. split; reflexivity. Qed.

Lemma every_task_accounted_witness :
  execute ex_truth ex_callable ex_invoke ex_ne ex_workflow ex_context 0%Q 1%Q 0%nat
    = (Ok ex_result, 3%nat) ∧
  ∃ ls done groups, Forall2 attempts ex_workflow.(wf_steps) ls ∧
    mjoin ls.*1 ≡ₚ done ++ ["bad"; "t1"] ∧
    ["fetch"; "check"; "t2"] ≡ₚ done ++ groups ∧ groups ⊆+ mjoin ls.*2.
Proof.
  split; [exact ex_run|].
  apply (every_task_accounted ex_truth ex_callable ex_invoke ex_ne _ _ _ _ _ _ _ ex_run).
Defined.

Lemma outputs_declared_witness :
  dget ex_result.(result_outputs) "x" = Some (PInt 1) ∧
  "x" ∈ concat (map declared ex_workflow.(wf_steps)).
Proof.
  split; [reflexivity|].
  apply (outputs_declared ex_truth ex_callable ex_invoke ex_ne ex_workflow ex_context 0%Q 1%Q 0%nat
    ex_result 3%nat "x" (PInt 1)).
  - apply (bool_decide_unpack _). reflexivity.
  - intros k v. unfold ex_context. simpl. repeat case_decide; intros; simplify_eq; reflexivity.
  - exact ex_run.
  - reflexivity.
Defined.

Lemma loaded_has_conditions_witness :
  from_yaml ex_repr (Some (λ _, Ok ex_document)) "w.yaml" = Ok ex_workflow ∧
  ("check", NoCondition) ∉ ex_result.(errors).
Proof.
  split; [reflexivity|].
  apply (loaded_has_conditions ex_repr ex_truth ex_callable ex_invoke ex_ne
    (Some (λ _, Ok ex_document)) "w.yaml" ex_workflow ex_context 0%Q 1%Q 0%nat ex_result 3%nat).
  - reflexivity.
  - exact ex_run.
Defined.

(** A conditional counts as completed although a step of the branch it took failed; a
    parallel group does not. *)
Lemma conditional_completes_despite_errors :
  "check" ∈ ex_result.(steps_completed) ∧ ("bad", AgentNotFound (PStr "missing")) ∈ ex_result.(errors) ∧
  "group" ∉ ex_result.(steps_completed).
Proof. split_and!; apply (bool_decide_unpack _) || (simpl; set_solver); reflexivity. Qed.

(** An explicit null branch raises [TypeError], no [YAMLValidationError]. *)
Lemma null_branch_type_error :
  _parse_workflow_document ex_repr (PDict [(PStr "name", PStr "w"); (PStr "steps", PList [
    PDict [(PStr "name", PStr "c"); (PStr "type", PStr "conditional");
           (PStr "condition", PStr "x"); (PStr "if_steps", PNone)]])]) = Raise TypeErr.
Proof. reflexivity. Qed.
End example.
