(* ===== verification/Fleet.v ===== *)
(** * The fleet ([fleet/registry.py], [fleet/health.py], [fleet/load_balancer.py])

    [AgentNode]s are mutable objects the registry, the monitor, the balancer and their
    callers share: a node is a location in a [heap], and the registry maps ids to
    locations.  Clients assign to the attributes of nodes directly as well as through the
    registry.  The clock is an argument of every operation that reads it. *)
From stdpp Require Import base list gmap sets strings.
From Stdlib Require Import ZArith QArith Sorting.Sorted Lia.
From S2P Require Import Prelude PyDict PyFloat PySort.
#[local] Close Scope Q_scope.

Inductive AgentStatus : Type := HEALTHY | UNHEALTHY | DEGRADED | STARTING | STOPPING.

#[export] Instance AgentStatus_eq_dec : EqDecision AgentStatus.
Proof. solve_decision. Defined.

Set Default Proof Using "Type".

Section fleet.
Context {F : PyFloat}.

Record AgentNode : Type := mkNode {
  agent_id : string;
  capabilities : gset string;
  status : AgentStatus;
  load_score : float;
  last_heartbeat : float;
  metadata : dict string;
}.

Definition is_healthy (n : AgentNode) : bool := bool_decide (n.(status) = HEALTHY).
Definition has_capability (c : string) (n : AgentNode) : bool :=
  bool_decide (c ∈ n.(capabilities)).

Definition with_status (s : AgentStatus) (n : AgentNode) : AgentNode :=
  mkNode n.(agent_id) n.(capabilities) s n.(load_score) n.(last_heartbeat) n.(metadata).
Definition with_load (x : float) (n : AgentNode) : AgentNode :=
  mkNode n.(agent_id) n.(capabilities) n.(status) x n.(last_heartbeat) n.(metadata).
Definition with_heartbeat (t : float) (n : AgentNode) : AgentNode :=
  mkNode n.(agent_id) n.(capabilities) n.(status) n.(load_score) t n.(metadata).

Inductive FleetError : Type :=
  | LoadOutOfRange                       (* ValueError *)
  | AgentNodeNotFoundError (id : string)
  | BadTimeout.                          (* ValueError of the monitor *)

(** ** The registry *)

Record Fleet : Type := mkFleet {
  heap : list AgentNode;
  nodes : dict nat;
}.

(** The node a variable refers to; references are never dangling. *)
Definition blank : AgentNode := mkNode "" ∅ STARTING f0 f0 [].
Definition deref (f : Fleet) (l : nat) : AgentNode := default blank (f.(heap) !! l).

(** [AgentNode(...)] *)
Definition new_node (n : AgentNode) : M Fleet FleetError nat := λ f,
  (Ok (length f.(heap)), mkFleet (f.(heap) ++ [n]) f.(nodes)).

(** An assignment to an attribute of the node at [l]. *)
Definition assign (l : nat) (g : AgentNode → AgentNode) (f : Fleet) : Fleet :=
  mkFleet (alter g l f.(heap)) f.(nodes).

Definition in_range (x : float) : bool := fbetween f0 x f1.

Definition register (l : nat) : M Fleet FleetError unit :=
  let! f := getS in
  let node := deref f l in
  let! _ := guardS (negb (in_range node.(load_score))) LoadOutOfRange in
  putS (mkFleet f.(heap) (dset f.(nodes) node.(agent_id) l)).

Definition _get_or_raise (id : string) : M Fleet FleetError nat :=
  let! f := getS in
  match dget f.(nodes) id with
  | Some l => retS l
  | None => raiseS (AgentNodeNotFoundError id)
  end.

Definition get (id : string) : M Fleet FleetError nat := _get_or_raise id.

Definition deregister (id : string) : M Fleet FleetError unit :=
  let! f := getS in
  let! _ := guardS (negb (dmem f.(nodes) id)) (AgentNodeNotFoundError id) in
  putS (mkFleet f.(heap) (ddel f.(nodes) id)).

Definition heartbeat (id : string) (load : option float) (st : option AgentStatus) (now : float)
    : M Fleet FleetError unit :=
  let! _ := guardS (match load with Some x => negb (in_range x) | None => false end)
              LoadOutOfRange in
  let! l := _get_or_raise id in
  let! _ := modS (assign l (with_heartbeat now)) in
  let! _ := (match load with Some x => modS (assign l (with_load x)) | None => retS tt end) in
  match st with Some s => modS (assign l (with_status s)) | None => retS tt end.

Definition get_available (f : Fleet) (capability : string) : list nat :=
  filter (λ l, is_healthy (deref f l) && has_capability capability (deref f l) = true)
    (dvalues f.(nodes)).

Definition list_nodes (f : Fleet) (healthy_only : bool) : list nat :=
  if healthy_only then filter (λ l, is_healthy (deref f l) = true) (dvalues f.(nodes))
  else dvalues f.(nodes).

(** [(now - node.last_heartbeat) > timeout] *)
Definition stale (now timeout : float) (n : AgentNode) : bool :=
  fltb timeout (fsub now n.(last_heartbeat)).

Definition prune_stale (timeout now : float) : M Fleet FleetError (list string) :=
  let! f := getS in
  let stale_ids := (filter (λ p, stale now timeout (deref f p.2) = true) f.(nodes)).*1 in
  let! _ := putS (mkFleet f.(heap) (fold_left ddel stale_ids f.(nodes))) in
  retS stale_ids.

Definition fleet_len (f : Fleet) : nat := length f.(nodes).
Definition contains (f : Fleet) (id : string) : bool := dmem f.(nodes) id.

(** ** The health monitor *)

Record HealthMonitor : Type := mkMonitor {
  _heartbeat_timeout : float;
  _check_interval : float;
  _restore_on_heartbeat : bool;
  _running : bool;                 (* and whether [_monitor_task] is there *)
  _total_checks : Z;
  _total_marked_unhealthy : Z;
  _total_restored : Z;
}.

Definition new_monitor (timeout interval : float) (restore : bool) : result FleetError HealthMonitor :=
  if fleb timeout f0 then Raise BadTimeout
  else if fleb interval f0 then Raise BadTimeout
  else Ok (mkMonitor timeout interval restore false 0 0 0).

(** The registry and the monitor that watches it. *)
Record Watch : Type := mkWatch { reg : Fleet; mon : HealthMonitor }.

Definition set_running (b : bool) (m : HealthMonitor) : HealthMonitor :=
  mkMonitor m.(_heartbeat_timeout) m.(_check_interval) m.(_restore_on_heartbeat) b
    m.(_total_checks) m.(_total_marked_unhealthy) m.(_total_restored).
Definition add_counts (checks marked restored : Z) (m : HealthMonitor) : HealthMonitor :=
  mkMonitor m.(_heartbeat_timeout) m.(_check_interval) m.(_restore_on_heartbeat) m.(_running)
    (m.(_total_checks) + checks) (m.(_total_marked_unhealthy) + marked)
    (m.(_total_restored) + restored).

Definition start (w : Watch) : Watch :=
  if w.(mon).(_running) then w else mkWatch w.(reg) (set_running true w.(mon)).
Definition stop (w : Watch) : Watch :=
  if negb w.(mon).(_running) then w else mkWatch w.(reg) (set_running false w.(mon)).

(** An operation of the registry run by the monitor. *)
Definition on_reg {A} (m : M Fleet FleetError A) : M Watch FleetError A := λ w,
  let '(r, f) := m w.(reg) in (r, mkWatch f w.(mon)).
Definition on_mon (g : HealthMonitor → HealthMonitor) : M Watch FleetError unit :=
  modS (λ w, mkWatch w.(reg) (g w.(mon))).

Definition record_heartbeat (id : string) (load : option float) (now : float)
    : M Watch FleetError unit := λ w,
  match get id w.(reg) with
  | (Raise _, _) => (Ok tt, w)
  | (Ok l, _) =>
      let restore_to_healthy := w.(mon).(_restore_on_heartbeat)
        && bool_decide ((deref w.(reg) l).(status) = UNHEALTHY) in
      let new_status := if restore_to_healthy then Some HEALTHY else None in
      (let! _ := on_reg (heartbeat id load new_status now) in
       if restore_to_healthy then on_mon (add_counts 0 0 1) else retS tt) w
  end.

Definition _mark_unhealthy (l : nat) (w : Watch) : Watch :=
  mkWatch (assign l (with_status UNHEALTHY) w.(reg)) (add_counts 0 1 0 w.(mon)).

(** The test of both checks. *)
Definition overdue (now : float) (w : Watch) (l : nat) : bool :=
  stale now w.(mon).(_heartbeat_timeout) (deref w.(reg) l)
  && negb (bool_decide ((deref w.(reg) l).(status) = UNHEALTHY)).

(** The loop of [check_all]. *)
Fixpoint check_loop (now : float) (ls : list nat) (w : Watch) : list string * Watch :=
  match ls with
  | [] => ([], w)
  | l :: rest =>
      if overdue now w l then
        let w1 := _mark_unhealthy l w in
        let id := (deref w1.(reg) l).(agent_id) in
        let '(ids, w2) := check_loop now rest w1 in (id :: ids, w2)
      else check_loop now rest w
  end.

Definition check_all (now : float) (w : Watch) : list string * Watch :=
  let '(ids, w1) := check_loop now (list_nodes w.(reg) false) w in
  (ids, mkWatch w1.(reg) (add_counts 1 0 0 w1.(mon))).

Definition check_node (id : string) (now : float) : M Watch FleetError bool :=
  let! l := on_reg (get id) in
  let! w := getS in
  if overdue now w l then let! _ := modS (_mark_unhealthy l) in retS true else retS false.

(** One turn of [_monitor_loop] while it runs. *)
Definition monitor_turn (now : float) (w : Watch) : list string * Watch :=
  if w.(mon).(_running) then check_all now w else ([], w).

(** ** The load balancer *)

Inductive Strategy : Type := ROUND_ROBIN | LEAST_LOADED | RANDOM | CAPABILITY_WEIGHTED.

Record LoadBalancer : Type := mkBalancer { _strategy : Strategy; _rr_counter : Z }.

(** [1 + len(node.capabilities)] over [1 + node.load_score] *)
Definition score (n : AgentNode) : float :=
  fdiv (fofZ (1 + Z.of_nat (size n.(capabilities)))) (fadd (fofZ 1) n.(load_score)).

Definition id_lt (f : Fleet) (a b : nat) : bool :=
  str_ltb (deref f a).(agent_id) (deref f b).(agent_id).
Definition load_lt (f : Fleet) (a b : nat) : bool :=
  fltb (deref f a).(load_score) (deref f b).(load_score).
Definition score_lt (f : Fleet) (a b : nat) : bool := fltb (score (deref f a)) (score (deref f b)).

(** The candidates of [select] and [select_many]. *)
Definition candidates (f : Fleet) (required_capability : option string) : list nat :=
  let healthy := list_nodes f true in
  match required_capability with
  | Some c => filter (λ l, has_capability c (deref f l) = true) healthy
  | None => healthy
  end.

Definition _round_robin (f : Fleet) (cs : list nat) (b : LoadBalancer) : option nat * LoadBalancer :=
  let candidates_sorted := py_sort (id_lt f) cs in
  let index := (b.(_rr_counter) mod Z.of_nat (length candidates_sorted))%Z in
  (candidates_sorted !! Z.to_nat index, mkBalancer b.(_strategy) (b.(_rr_counter) + 1)).

(** [Random.choice] of [n] elements takes the index [choice n]; [shuffle] is what
    [Random.shuffle] makes of a list. *)
Context (choice : nat → nat) (shuffle : list nat → list nat).

Definition select (f : Fleet) (required_capability : option string) (b : LoadBalancer)
    : option nat * LoadBalancer :=
  match candidates f required_capability with
  | [] => (None, b)
  | healthy =>
      match b.(_strategy) with
      | ROUND_ROBIN => _round_robin f healthy b
      | LEAST_LOADED => (py_min (load_lt f) healthy, b)
      | RANDOM => (healthy !! choice (length healthy), b)
      | CAPABILITY_WEIGHTED => (py_max (score_lt f) healthy, b)
      end
  end.

Definition _rank (f : Fleet) (b : LoadBalancer) (cs : list nat) : list nat :=
  match b.(_strategy) with
  | ROUND_ROBIN => py_sort (id_lt f) cs
  | LEAST_LOADED => py_sort (load_lt f) cs
  | RANDOM => shuffle cs
  | CAPABILITY_WEIGHTED => py_sort (flip (score_lt f)) cs
  end.

Definition select_many (f : Fleet) (count : Z) (required_capability : option string)
    (b : LoadBalancer) : list nat :=
  if (count <=? 0)%Z then []
  else match candidates f required_capability with
       | [] => []
       | healthy => py_slice (_rank f b healthy) 0 count
       end.
(** ** Invariant *)
(** [set_solver], without the balancer's parameters in the proof term. *)
Ltac fleet_solver := try clear choice shuffle; set_solver.

Section fleet_facts.
Implicit Types (f : Fleet) (w : Watch) (l : nat) (id : string).

(** Every entry refers to a node; it has the id of the entry, and its load was validated,
    when it is one of the nodes [X], which no client changes at will. *)
Record fleet_ok_on (X : nat → Prop) f : Prop := {
  okb_dwf : dwf f.(nodes);
  okb_node id l : dget f.(nodes) id = Some l → ∃ n, f.(heap) !! l = Some n ∧
    (X l → n.(agent_id) = id ∧ in_range n.(load_score) = true);
}.

Definition fleet_ok : Fleet → Prop := fleet_ok_on (λ _, True).

Lemma ok_dwf f : fleet_ok f → dwf f.(nodes).
Proof. apply okb_dwf. Qed.

Lemma ok_node f : fleet_ok f → ∀ id l, dget f.(nodes) id = Some l →
  ∃ n, f.(heap) !! l = Some n ∧ n.(agent_id) = id ∧ in_range n.(load_score) = true.
Proof. intros Hf id l H. destruct (okb_node _ f Hf id l H) as (n & Hl & Hn). eauto. Qed.

Lemma deref_assign f l g l' :
  deref (assign l g f) l' =
    if decide (l' = l ∧ l < length f.(heap)) then g (deref f l) else deref f l'.
Proof.
  unfold deref, assign. cbn [heap]. rewrite list_lookup_alter.
  destruct (decide (l = l')) as [->|Hne].
  - destruct (heap f !! l') eqn:E; simpl.
    + rewrite decide_True; [done|]. split; [done|]. by eapply lookup_lt_Some.
    + rewrite decide_False; [done|]. apply lookup_ge_None in E. lia.
  - rewrite decide_False; [done|]. intros [? _]. congruence.
Qed.

(** An assignment that keeps ids, and loads in range. *)
Definition harmless (g : AgentNode → AgentNode) : Prop := ∀ n,
  (g n).(agent_id) = n.(agent_id) ∧
  (in_range n.(load_score) = true → in_range (g n).(load_score) = true).

Lemma assign_ok {X} f l g :
  (X l → harmless g) → fleet_ok_on X f → fleet_ok_on X (assign l g f).
Proof.
  intros Hg [Hd Hn]. split; [done|]. intros id l' H.
  destruct (Hn id l' H) as (n & Hl & Hr). cbn [assign heap].
  rewrite list_lookup_alter. case_decide as E; [subst l'|by exists n].
  exists (g n). rewrite Hl. split; [done|]. intros HX. destruct (Hr HX) as [<- Hx].
  destruct (Hg HX n). auto.
Qed.

Lemma ok_deref f id l :
  fleet_ok f → dget f.(nodes) id = Some l →
  f.(heap) !! l = Some (deref f l) ∧ (deref f l).(agent_id) = id ∧
  in_range (deref f l).(load_score) = true.
Proof.
  intros Hf H. destruct (ok_node f Hf id l H) as (n & Hl & Hid & Hr).
  unfold deref. by rewrite Hl.
Qed.

(** Distinct entries are distinct nodes. *)
Lemma ok_refs_NoDup f : fleet_ok f → NoDup (dvalues f.(nodes)).
Proof.
  intros Hf. pose proof (ok_dwf f Hf) as Hd. unfold dvalues, dwf, dkeys in *.
  assert (H : ∀ p, p ∈ f.(nodes) → p.1 = (deref f p.2).(agent_id)).
  { intros [id l] Hp. apply elem_dget in Hp; [|done]. symmetry. by apply (ok_deref f). }
  induction (nodes f) as [|[id l] d IH] in Hd, H |- *; csimpl in *; [constructor|].
  apply NoDup_cons in Hd as [Hi Hd]. apply NoDup_cons. split; [|apply IH; [done|fleet_solver]].
  intros ([id' l'] & -> & Hp)%list_elem_of_fmap. apply Hi.
  pose proof (H (id, l') ltac:(by left)) as H1. pose proof (H (id', l') ltac:(by right)) as H2.
  simpl in H1, H2. apply list_elem_of_fmap. exists (id', l'). split; [simpl; congruence|done].
Qed.

Lemma elem_refs f l : fleet_ok f → l ∈ dvalues f.(nodes) ↔ dget f.(nodes) (deref f l).(agent_id) = Some l.
Proof.
  intros Hf. split.
  - intros ([id l'] & -> & Hp)%list_elem_of_fmap. apply elem_dget in Hp; [|apply Hf].
    simpl. destruct (ok_deref f id l' Hf Hp) as (_ & -> & _). done.
  - intros H%dget_Some_elem. apply list_elem_of_fmap. by eexists (_, _).
Qed.

(** The operations a client of the fleet can perform; [OpNew] makes a node, and [OpAssign]
    assigns to attributes of a node, which the registry holds by reference. *)
Inductive fleet_op : Type :=
  | OpNew (n : AgentNode)
  | OpAssign (l : nat) (g : AgentNode → AgentNode)
  | OpRegister (l : nat)
  | OpDeregister (id : string)
  | OpHeartbeat (id : string) (load : option float) (st : option AgentStatus) (now : float)
  | OpPrune (timeout now : float)
  | OpRecord (id : string) (load : option float) (now : float)
  | OpCheckAll (now : float)
  | OpCheckNode (id : string) (now : float)
  | OpStart
  | OpStop
  | OpTurn (now : float).

(** The state after an operation, returned or raised. *)
Definition fleet_step (o : fleet_op) w : Watch :=
  match o with
  | OpNew n => (on_reg (new_node n) w).2
  | OpAssign l g => mkWatch (assign l g w.(reg)) w.(mon)
  | OpRegister l => if decide (l < length w.(reg).(heap))%nat then (on_reg (register l) w).2 else w
  | OpDeregister id => (on_reg (deregister id) w).2
  | OpHeartbeat id load st now => (on_reg (heartbeat id load st now) w).2
  | OpPrune timeout now => (on_reg (prune_stale timeout now) w).2
  | OpRecord id load now => (record_heartbeat id load now w).2
  | OpCheckAll now => (check_all now w).2
  | OpCheckNode id now => (check_node id now w).2
  | OpStart => start w
  | OpStop => stop w
  | OpTurn now => (monitor_turn now w).2
  end.

Lemma register_ok {X} l f :
  (l < length f.(heap))%nat → fleet_ok_on X f → fleet_ok_on X (register l f).2.
Proof.
  intros Hl Hf. unfold register. run_m; [done|]. destruct Hf as [Hd Hn].
  split; [by apply dwf_set|]. intros id l'. cbn [nodes heap]. rewrite dget_set.
  case_decide; [|by apply Hn]. intros [= <-]. subst id.
  apply lookup_lt_is_Some in Hl as [n Hl]. exists n. split; [done|].
  unfold deref in *. rewrite Hl in *. simpl in *. intros _. split; [done|]. by bool_simpl.
Qed.

(** What a heartbeat makes of its node. *)
Definition beaten (load : option float) (st : option AgentStatus) (now : float) (n : AgentNode)
    : AgentNode :=
  let n1 := with_heartbeat now n in
  let n2 := match load with Some x => with_load x n1 | None => n1 end in
  match st with Some s => with_status s n2 | None => n2 end.

Lemma assign_assign l g h f : assign l h (assign l g f) = assign l (λ n, h (g n)) f.
Proof. 
  unfold assign. cbn [heap nodes]. f_equal. apply list_eq. intros i.
  rewrite !list_lookup_alter. case_decide; [|done]. subst. rewrite decide_True by done. by destruct (heap f !! i).
Qed.

Lemma heartbeat_spec id load st now f :
  heartbeat id load st now f =
    if match load with Some x => negb (in_range x) | None => false end
    then (Raise LoadOutOfRange, f)
    else match dget f.(nodes) id with
         | None => (Raise (AgentNodeNotFoundError id), f)
         | Some l => (Ok tt, assign l (beaten load st now) f)
         end.
Proof.
  unfold heartbeat, _get_or_raise. rewrite bindS_guard. case_match; [done|].
  unfold bindS, getS, retS, raiseS, modS. destruct (dget (nodes f) id) as [l|]; [|done].
  unfold beaten. destruct load, st; by rewrite ?assign_assign.
Qed.

Lemma beaten_ok load st now :
  match load with Some x => negb (in_range x) | None => false end = false →
  harmless (beaten load st now).
Proof.
  intros H1 n. unfold beaten. split; [by destruct load, st|].
  intros H2. destruct load, st; cbn; bool_simpl; done.
Qed.

Lemma heartbeat_ok {X} id load st now : preserves (fleet_ok_on X) (heartbeat id load st now).
Proof.
  intros f Hf. rewrite heartbeat_spec. case_match; [done|].
  destruct (dget (nodes f) id) as [l|]; [|done]. apply assign_ok; [|done]. intros _. by apply beaten_ok.
Qed.

Lemma del_all_spec (ids : list string) (d : dict nat) id :
  dwf d → dwf (fold_left ddel ids d) ∧
  dget (fold_left ddel ids d) id = if decide (id ∈ ids) then None else dget d id.
Proof.
  revert d. induction ids as [|i ids IH]; intros d Hd; cbn [fold_left].
  { split; [done|]. rewrite decide_False; [done|]. apply not_elem_of_nil. }
  destruct (IH (ddel d i)) as [H1 H2]; [by apply dwf_del|]. split; [done|].
  rewrite H2, dget_del by done. destruct (decide (id = i)) as [->|Hne].
  - rewrite (decide_True (P := i ∈ i :: ids)) by left. by case_decide.
  - repeat case_decide; try done; fleet_solver.
Qed.

Lemma sub_ok {X} f f' :
  f'.(heap) = f.(heap) → dwf f'.(nodes) →
  (∀ id l, dget f'.(nodes) id = Some l → dget f.(nodes) id = Some l) →
  fleet_ok_on X f → fleet_ok_on X f'.
Proof. intros Hh Hd Hs [_ Hn]. split; [done|]. rewrite Hh. eauto. Qed.

Lemma prune_ok {X} timeout now : preserves (fleet_ok_on X) (prune_stale timeout now).
Proof.
  intros f Hf. unfold prune_stale. run_m. apply (sub_ok f); [done| | |done]; cbn [nodes].
  - apply (del_all_spec _ _ "" (okb_dwf _ f Hf)).
  - intros id l. rewrite (proj2 (del_all_spec _ _ id (okb_dwf _ f Hf))). by case_decide.
Qed.

Lemma deregister_ok {X} id : preserves (fleet_ok_on X) (deregister id).
Proof.
  intros f Hf. unfold deregister. run_m; [done|]. apply (sub_ok f); [done| | |done]; cbn [nodes].
  - apply dwf_del, (okb_dwf _ f Hf).
  - intros id' l. rewrite dget_del by apply (okb_dwf _ f Hf). by case_decide.
Qed.

Lemma new_node_ok {X} n : preserves (fleet_ok_on X) (new_node n).
Proof.
  intros f [Hd Hn]. split; [done|]. intros id l H. destruct (Hn id l H) as (n' & Hl & ?).
  exists n'. split; [|done]. cbn [new_node snd heap]. by apply lookup_app_l_Some.
Qed.

Lemma mark_ok {X} l w : fleet_ok_on X w.(reg) → fleet_ok_on X (_mark_unhealthy l w).(reg).
Proof. by apply assign_ok. Qed.

Lemma check_loop_ok {X} now ls w :
  fleet_ok_on X w.(reg) → fleet_ok_on X (check_loop now ls w).2.(reg).
Proof.
  revert w. induction ls as [|l ls IH]; intros w Hw; cbn [check_loop]; [done|].
  case_match; [|by apply IH]. specialize (IH _ (mark_ok l w Hw)).
  by destruct (check_loop _ _ _).
Qed.

Lemma check_all_ok {X} now w :
  fleet_ok_on X w.(reg) → fleet_ok_on X (check_all now w).2.(reg).
Proof.
  intros Hw. unfold check_all. pose proof (check_loop_ok now (list_nodes w.(reg) false) w Hw).
  by destruct (check_loop _ _ _).
Qed.

Lemma on_reg_ok {X A} (m : M Fleet FleetError A) w :
  preserves (fleet_ok_on X) m → fleet_ok_on X w.(reg) → fleet_ok_on X (on_reg m w).2.(reg).
Proof. intros Hm Hw. unfold on_reg. specialize (Hm _ Hw). by destruct (m (reg w)). Qed.

Lemma record_ok {X} id load now w :
  fleet_ok_on X w.(reg) → fleet_ok_on X (record_heartbeat id load now w).2.(reg).
Proof.
  intros Hw. unfold record_heartbeat. destruct (get id (reg w)) as [[l|e] f']; [|done].
  cbv zeta. unfold bindS. pose proof (on_reg_ok _ _ (heartbeat_ok id load
    (if _restore_on_heartbeat (mon w) && bool_decide (status (deref (reg w) l) = UNHEALTHY)
     then Some HEALTHY else None) now) Hw) as H.
  destruct (on_reg _ w) as [[[]|e] w1]; [|done]. by destruct (_ && _).
Qed.

Lemma fleet_step_ok {X : nat → Prop} o w :
  (∀ l g, o = OpAssign l g → (X l → harmless g)) →
  fleet_ok_on X w.(reg) → fleet_ok_on X (fleet_step o w).(reg).
Proof.
  intros Ho Hw. destruct o; cbn [fleet_step].
  - by apply on_reg_ok; [apply new_node_ok|].
  - apply assign_ok; [|done]. by eapply Ho.
  - case_decide as Hl; [|done]. unfold on_reg. pose proof (register_ok l _ Hl Hw).
    by destruct (register l (reg w)).
  - by apply on_reg_ok; [apply deregister_ok|].
  - by apply on_reg_ok; [apply heartbeat_ok|].
  - by apply on_reg_ok; [apply prune_ok|].
  - by apply record_ok.
  - by apply check_all_ok.
  - unfold check_node, get, _get_or_raise, on_reg. run_m.
    repeat (case_match; simplify_eq/=; try done). by apply mark_ok.
  - unfold start. by case_match.
  - unfold stop. by case_match.
  - unfold monitor_turn. case_match; [by apply check_all_ok|done].
Qed.

(** Where clients assign only harmlessly to the nodes [X], these stay as they should. *)
Lemma fleet_run_ok {X : nat → Prop} ops w :
  (∀ l g, OpAssign l g ∈ ops → X l → harmless g) →
  fleet_ok_on X w.(reg) → fleet_ok_on X (fold_left (λ w o, fleet_step o w) ops w).(reg).
Proof.
  revert w. induction ops as [|o os IH]; intros w Hos Hw; [done|].
  apply IH; [intros l g Hg; apply Hos; by right|].
  apply fleet_step_ok; [|done]. intros l g ->. apply Hos. by left.
Qed.

(** C23. Whatever operations clients and the monitor perform, in any order, direct
    assignments to the attributes of nodes included, the ids of the registry are unique and
    every entry refers to a node; and the node has the id of its entry and a load score in
    [0, 1], unless a client itself assigned it another id or a load score outside: the
    registry's own operations let neither in. *)
Theorem fleet_reachable_ok (ops : list fleet_op) m :
  let f := (fold_left (λ w o, fleet_step o w) ops (mkWatch (mkFleet [] []) m)).(reg) in
  dwf f.(nodes) ∧
  ∀ id l, dget f.(nodes) id = Some l → ∃ n, f.(heap) !! l = Some n ∧
    ((∀ g, OpAssign l g ∈ ops → harmless g) →
     n.(agent_id) = id ∧ in_range n.(load_score) = true).
Proof.
  cbv zeta. set (X := λ l, ∀ g, OpAssign l g ∈ ops → harmless g).
  destruct (fleet_run_ok (X:=X) ops (mkWatch (mkFleet [] []) m)) as [Hd Hn];
    [intros l g Hg HX; by apply HX|by split; [constructor|]|by split].
Qed.
(** ** The monitor *)

(** What [check_all] leaves of a node. *)
Lemma check_loop_spec now ls w :
  NoDup ls → (∀ l, l ∈ ls → l < length w.(reg).(heap))%nat →
  let '(ids, w') := check_loop now ls w in
  let late := filter (λ l, overdue now w l = true) ls in
  ids = (λ l, (deref w.(reg) l).(agent_id)) <$> late ∧
  w'.(reg).(nodes) = w.(reg).(nodes) ∧
  (∀ l, deref w'.(reg) l =
    if decide (l ∈ late) then with_status UNHEALTHY (deref w.(reg) l) else deref w.(reg) l) ∧
  w'.(mon) = add_counts 0 (Z.of_nat (length late)) 0 w.(mon).
Proof.
  clear choice shuffle.
  revert w. induction ls as [|l ls IH]; intros w Hnd Hlt; cbn [check_loop].
  { split_and!; try done. by destruct (mon w) as [????? ? ?]; unfold add_counts; cbn; rewrite !Z.add_0_r. }
  apply NoDup_cons in Hnd as [Hl Hnd]. destruct (overdue now w l) eqn:E.
  - set (w1 := _mark_unhealthy l w).
    assert (Hd : ∀ l', deref w1.(reg) l' =
      if decide (l' = l) then with_status UNHEALTHY (deref w.(reg) l) else deref w.(reg) l').
    { intros l'. unfold w1, _mark_unhealthy. cbn [reg]. rewrite deref_assign.
      assert (l < length (heap (reg w)))%nat by (apply Hlt; left).
      repeat case_decide; try done; tauto. }
    assert (Ho : ∀ l', l' ∈ ls → overdue now w1 l' = overdue now w l').
    { intros l' Hl'. unfold overdue. rewrite Hd, decide_False by (by intros ->). done. }
    specialize (IH w1 Hnd). destruct (check_loop now ls w1) as [ids w2]. cbv zeta in *.
    destruct IH as (-> & Hn & Hde & Hm).
    { intros l' H. unfold w1. cbn. rewrite length_alter. apply Hlt. by right. }
    assert (Hf : filter (λ l', overdue now w1 l' = true) ls
      = filter (λ l', overdue now w l' = true) ls).
    { clear -Ho. induction ls as [|x xs IHx]; [done|].
      rewrite !filter_cons, Ho, IHx by fleet_solver. done. }
    rewrite Hf in *. rewrite filter_cons_True by done. split_and!.
    + csimpl. rewrite Hd, decide_True by done. f_equal. apply list_fmap_ext. intros i l' Hi.
      rewrite Hd, decide_False; [done|]. intros ->. apply Hl.
      apply list_elem_of_lookup_2, list_elem_of_filter in Hi. by destruct Hi.
    + by rewrite Hn.
    + intros l'. rewrite Hde, Hd. destruct (decide (l' = l)) as [->|Hne].
      * rewrite decide_False by (by intros [_ ?]%list_elem_of_filter).
        by rewrite decide_True by left.
      * repeat case_decide; try done; fleet_solver.
    + rewrite Hm. unfold w1, add_counts. cbn. f_equal; lia.
  - specialize (IH w Hnd). destruct (check_loop now ls w) as [ids w2]. cbv zeta in *.
    rewrite filter_cons_False by (by rewrite E). apply IH. intros l' H. apply Hlt. by right.
Qed.

Lemma refs_lt f l : fleet_ok f → l ∈ dvalues f.(nodes) → (l < length f.(heap))%nat.
Proof.
  intros Hf Hl. apply elem_refs in Hl; [|done]. destruct (ok_deref f _ _ Hf Hl) as (H & _).
  by eapply lookup_lt_Some.
Qed.

Lemma check_all_spec now w :
  fleet_ok w.(reg) →
  let '(ids, w') := check_all now w in
  let late := filter (λ l, overdue now w l = true) (dvalues w.(reg).(nodes)) in
  ids = (λ l, (deref w.(reg) l).(agent_id)) <$> late ∧
  w'.(reg).(nodes) = w.(reg).(nodes) ∧
  (∀ l, deref w'.(reg) l =
    if decide (l ∈ late) then with_status UNHEALTHY (deref w.(reg) l) else deref w.(reg) l) ∧
  w'.(mon) = add_counts 1 (Z.of_nat (length late)) 0 w.(mon).
Proof.
  intros Hf. unfold check_all. cbn [list_nodes].
  pose proof (check_loop_spec now (dvalues w.(reg).(nodes)) w (ok_refs_NoDup _ Hf)
    (λ l, refs_lt _ l Hf)) as H.
  destruct (check_loop _ _ _) as [ids w1]. cbv zeta in *. destruct H as (H1 & H2 & H3 & H4).
  split_and!; try done. cbn [mon]. rewrite H4. unfold add_counts. cbn. f_equal; lia.
Qed.

(** After a check, nodes silent beyond the timeout are unhealthy. *)
Lemma check_all_marks now w ids w' l :
  fleet_ok w.(reg) → check_all now w = (ids, w') → l ∈ dvalues w.(reg).(nodes) →
  stale now w.(mon).(_heartbeat_timeout) (deref w'.(reg) l) = true →
  (deref w'.(reg) l).(status) = UNHEALTHY.
Proof.
  intros Hf E Hl Hs. pose proof (check_all_spec now w Hf) as H. rewrite E in H.
  destruct H as (_ & _ & Hd & _). rewrite Hd in *. case_decide as Hlate; [done|].
  destruct (decide (status (deref (reg w) l) = UNHEALTHY)) as [|Hne]; [done|].
  exfalso. apply Hlate, list_elem_of_filter. split; [|done]. unfold overdue.
  by rewrite Hs, bool_decide_false.
Qed.

(** A check marks exactly the registered nodes silent beyond the timeout that were not
    yet marked, reports their ids in registry order, changes nothing else, and counts
    them; a second check at the same time finds nothing. *)
Theorem check_all_exact now w ids w' :
  fleet_ok w.(reg) → check_all now w = (ids, w') →
  ids = (filter (λ p, overdue now w p.2 = true) w.(reg).(nodes)).*1 ∧
  w'.(reg).(nodes) = w.(reg).(nodes) ∧
  (∀ id l, dget w.(reg).(nodes) id = Some l → deref w'.(reg) l =
    if overdue now w l then with_status UNHEALTHY (deref w.(reg) l) else deref w.(reg) l) ∧
  w'.(mon) = add_counts 1 (Z.of_nat (length ids)) 0 w.(mon) ∧
  (check_all now w').1 = [].
Proof.
  intros Hf E. pose proof (check_all_spec now w Hf) as H. rewrite E in H.
  cbv zeta in H. destruct H as (Hids & Hn & Hd & Hm).
  assert (Heq : ids = (filter (λ p, overdue now w p.2 = true) w.(reg).(nodes)).*1).
  { rewrite Hids. unfold dvalues.
    assert (Hp : ∀ p, p ∈ w.(reg).(nodes) → (deref w.(reg) p.2).(agent_id) = p.1).
    { intros [id l] Hp. apply elem_dget in Hp; [|apply Hf]. by apply (ok_deref (reg w)). }
    clear -Hp. induction (nodes (reg w)) as [|[id l] d IH]; [done|]. csimpl.
    rewrite !filter_cons. simpl. specialize (Hp (id, l) ltac:(by left)) as Hid. simpl in Hid.
    case_decide; csimpl; rewrite IH by (intros; apply Hp; by right); congruence. }
  assert (Hlate : ∀ l, l ∈ dvalues w.(reg).(nodes) →
    deref w'.(reg) l = if overdue now w l then with_status UNHEALTHY (deref w.(reg) l)
                       else deref w.(reg) l).
  { intros l Hl. rewrite Hd. destruct (overdue now w l) eqn:Eo.
    - rewrite decide_True; [done|]. by apply list_elem_of_filter.
    - rewrite decide_False; [done|]. intros [? _]%list_elem_of_filter. congruence. }
  split_and!; [done|done| | |].
  - intros id l H%dget_Some_elem. apply Hlate, list_elem_of_fmap. by exists (id, l).
  - rewrite Hm, Hids. by rewrite length_fmap.
  - pose proof (check_all_ok now w Hf) as Hf'. rewrite E in Hf'. cbn [snd] in Hf'.
    pose proof (check_all_spec now w' Hf') as H2. destruct (check_all now w') as [ids2 w2].
    cbv zeta in H2. destruct H2 as (-> & _). cbn [fst].
    rewrite filter_none; [done|]. intros l Hl. rewrite Hn in Hl.
    unfold overdue. rewrite Hm. cbn [add_counts _heartbeat_timeout].
    intros [Hs Hu]%andb_prop. apply negb_true_iff, bool_decide_eq_false in Hu.
    apply Hu. by eapply (check_all_marks now w ids w').
Qed.

Lemma elem_candidates f c l :
  l ∈ candidates f c ↔ l ∈ dvalues f.(nodes) ∧ (deref f l).(status) = HEALTHY ∧
    ∀ cap, c = Some cap → cap ∈ (deref f l).(capabilities).
Proof.
  clear choice shuffle.
  unfold candidates, list_nodes, is_healthy, has_capability.
  destruct c as [cap|]; rewrite ?list_elem_of_filter, !bool_decide_eq_true; naive_solver.
Qed.

Lemma select_elem f c b l b' :
  (∀ n, 0 < n → choice n < n)%nat → select f c b = (Some l, b') → l ∈ candidates f c.
Proof.
  intros Hch. unfold select. destruct (candidates f c) as [|x xs] eqn:E; [done|].
  destruct (_strategy b).
  - unfold _round_robin. intros H. apply (f_equal fst) in H. cbn [fst] in H.
    apply list_elem_of_lookup_2 in H. by rewrite elem_py_sort in H.
  - intros [= <- _]. apply py_min_from_elem.
  - intros [= H _]. by apply list_elem_of_lookup_2 in H.
  - intros [= <- _]. rewrite py_max_from_min. apply py_min_from_elem.
Qed.

(** C20. Balancing right after a health check never picks a silent agent: whatever the
    strategy, the selected node is registered, healthy, has the required capability,
    and its last heartbeat is within the timeout. *)
Theorem never_selects_silent now w ids w' c b l b' :
  (∀ n, 0 < n → choice n < n)%nat → fleet_ok w.(reg) →
  check_all now w = (ids, w') → select w'.(reg) c b = (Some l, b') →
  dget w'.(reg).(nodes) (deref w'.(reg) l).(agent_id) = Some l ∧
  (deref w'.(reg) l).(status) = HEALTHY ∧
  (∀ cap, c = Some cap → cap ∈ (deref w'.(reg) l).(capabilities)) ∧
  stale now w.(mon).(_heartbeat_timeout) (deref w'.(reg) l) = false.
Proof.
  intros Hch Hf E Hs. apply select_elem in Hs; [|done].
  apply elem_candidates in Hs as (Hl & Hst & Hc).
  pose proof (check_all_ok now w Hf) as Hf'. rewrite E in Hf'.
  split_and!; try done; [by apply elem_refs|].
  apply not_true_is_false. intros Hstale. pose proof (check_all_spec now w Hf) as H.
  rewrite E in H. destruct H as (_ & Hn & _). rewrite Hn in Hl.
  pose proof (check_all_marks now w ids w' l Hf E Hl Hstale). congruence.
Qed.
(** ** Heartbeats and pruning *)

(** Pruning removes exactly the nodes silent beyond the timeout, reports their ids in
    registry order, and touches no node. *)
Theorem prune_exact timeout now f :
  fleet_ok f →
  let '(r, f') := prune_stale timeout now f in
  r = Ok ((filter (λ p, stale now timeout (deref f p.2) = true) f.(nodes)).*1) ∧
  f'.(heap) = f.(heap) ∧
  ∀ id, dget f'.(nodes) id =
    l ← dget f.(nodes) id; if stale now timeout (deref f l) then None else Some l.
Proof.
  intros Hf. unfold prune_stale. run_m. split_and!; [done|done|]. intros id.
  rewrite (proj2 (del_all_spec _ _ id (ok_dwf f Hf))).
  destruct (dget (nodes f) id) as [l|] eqn:E; simpl; [|by case_decide].
  destruct (stale now timeout (deref f l)) eqn:Es.
  - rewrite decide_True; [done|]. apply list_elem_of_fmap. exists (id, l).
    split; [done|]. apply list_elem_of_filter. split; [done|]. by apply dget_Some_elem.
  - rewrite decide_False; [done|]. intros ([id' l'] & -> & [Hs Hp]%list_elem_of_filter)%list_elem_of_fmap.
    apply elem_dget in Hp; [|apply Hf]. simpl in *. congruence.
Qed.

Lemma record_spec id load now w :
  record_heartbeat id load now w =
    match dget w.(reg).(nodes) id with
    | None => (Ok tt, w)
    | Some l =>
        if match load with Some x => negb (in_range x) | None => false end
        then (Raise LoadOutOfRange, w)
        else
          let restored := w.(mon).(_restore_on_heartbeat)
            && bool_decide ((deref w.(reg) l).(status) = UNHEALTHY) in
          (Ok tt, mkWatch
            (assign l (beaten load (if restored then Some HEALTHY else None) now) w.(reg))
            (if restored then add_counts 0 0 1 w.(mon) else w.(mon)))
    end.
Proof.
  unfold record_heartbeat, get, _get_or_raise, bindS at 1, getS.
  destruct (dget (nodes (reg w)) id) as [l|] eqn:E; [|done]. cbn [retS]. cbv zeta.
  unfold bindS, on_reg. rewrite heartbeat_spec. destruct w as [f m]. cbn [reg mon] in *.
  rewrite E. destruct load as [x|]; [destruct (in_range x); cbn [negb]; [|done]|];
    by destruct (_ && _).
Qed.

(** A heartbeat recorded through the monitor brings a node that had been marked back
    to HEALTHY (and counts it), whereas one sent to the registry refreshes the node but
    leaves it UNHEALTHY, so that it stays out of every selection. *)
Theorem restored_only_by_monitor id l now w c :
  fleet_ok w.(reg) → dget w.(reg).(nodes) id = Some l →
  w.(mon).(_restore_on_heartbeat) = true → (deref w.(reg) l).(status) = UNHEALTHY →
  (∃ w', record_heartbeat id None now w = (Ok tt, w') ∧
    deref w'.(reg) l = with_status HEALTHY (with_heartbeat now (deref w.(reg) l)) ∧
    l ∈ candidates w'.(reg) None ∧
    w'.(mon).(_total_restored) = (w.(mon).(_total_restored) + 1)%Z) ∧
  (∃ f', heartbeat id None None now w.(reg) = (Ok tt, f') ∧
    deref f' l = with_heartbeat now (deref w.(reg) l) ∧ l ∉ candidates f' c).
Proof.
  intros Hf Hl Hr Hu.
  assert (Hlt : (l < length w.(reg).(heap))%nat).
  { eapply lookup_lt_Some. apply (ok_deref _ id l Hf Hl). }
  assert (Hin : l ∈ dvalues w.(reg).(nodes)).
  { apply list_elem_of_fmap. exists (id, l). split; [done|]. by apply dget_Some_elem. }
  split.
  - rewrite record_spec, Hl, Hr, bool_decide_true by done. eexists. split; [done|].
    cbn [reg mon negb andb]. rewrite deref_assign, decide_True by done.
    split_and!; [done| |done]. apply elem_candidates. rewrite deref_assign, decide_True by done.
    split_and!; done.
  - rewrite heartbeat_spec, Hl. eexists. split; [done|].
    rewrite elem_candidates, deref_assign, decide_True by done. split; [done|].
    intros (_ & H & _). cbn in H. congruence.
Qed.

(** ** The balancer *)
Section ranked.
Context {HF : FloatOrder F}.
Set Default Proof Using "Type HF".

Lemma load_order f : weak_order (load_lt f) (λ l, fnum (deref f l).(load_score) = true).
Proof.
  unfold load_lt. split; intros.
  - apply fltb_irrefl.
  - by eapply fltb_trans.
  - by eapply (fltb_negtrans _ (load_score (deref f y))).
Qed.

Lemma score_order f : weak_order (score_lt f) (λ l, fnum (score (deref f l)) = true).
Proof.
  unfold score_lt. split; intros.
  - apply fltb_irrefl.
  - by eapply fltb_trans.
  - by eapply (fltb_negtrans _ (score (deref f y))).
Qed.

Lemma candidate_load f c l :
  fleet_ok f → l ∈ candidates f c → fnum (deref f l).(load_score) = true.
Proof.
  intros Hf (Hl & _)%elem_candidates. apply elem_refs in Hl; [|done].
  destruct (ok_deref f _ _ Hf Hl) as (_ & _ & H). by eapply fbetween_num.
Qed.

(** A selection is empty exactly when no node qualifies; the least-loaded strategy
    picks a candidate no other is less loaded than, and the capability-weighted one a
    candidate none outscores. *)
Theorem select_best f c b :
  fleet_ok f → (∀ n, 0 < n → choice n < n)%nat →
  (∀ l, l ∈ candidates f c → fnum (score (deref f l)) = true) →
  ((select f c b).1 = None ↔ candidates f c = []) ∧
  ∀ l, (select f c b).1 = Some l → l ∈ candidates f c ∧
    (b.(_strategy) = LEAST_LOADED → ∀ l', l' ∈ candidates f c → load_lt f l' l = false) ∧
    (b.(_strategy) = CAPABILITY_WEIGHTED → ∀ l', l' ∈ candidates f c → score_lt f l l' = false).
Proof.
  intros Hf Hch Hsc. pose proof (select_elem f c b) as Hel.
  assert (Hld : ∀ l, l ∈ candidates f c → fnum (deref f l).(load_score) = true)
    by (intros; by eapply candidate_load).
  destruct (select f c b) as [o b'] eqn:E. cbn [fst]. split.
  - unfold select in E. destruct (candidates f c) as [|x xs]; [by simplify_eq|].
    split; [intros ->|done]. exfalso. destruct (_strategy b).
    + unfold _round_robin in E. apply (f_equal fst) in E. cbn [fst] in E.
      apply lookup_ge_None in E. rewrite length_py_sort in E. cbn [length] in E.
      pose proof (Z.mod_pos_bound (_rr_counter b) (Z.of_nat (S (length xs)))). lia.
    + done.
    + injection E as E _. apply lookup_ge_None in E. specialize (Hch (length (x :: xs))).
      simpl in *. lia.
    + done.
  - intros l ->. split; [by eapply Hel|]. unfold select in E.
    destruct (candidates f c) as [|x xs]; [done|].
    assert (Hlf : Forall (λ l, fnum (deref f l).(load_score) = true) xs)
      by (apply Forall_forall; intros; apply Hld; by right).
    assert (Hsf : Forall (λ l, fnum (score (deref f l)) = true) xs)
      by (apply Forall_forall; intros; apply Hsc; by right).
    split; intros Hst; rewrite Hst in E; injection E as <- _.
    + apply (py_min_from_spec (load_lt f) _ (load_order f) x xs); [apply Hld; by left|done].
    + rewrite py_max_from_min. intros l' Hl'.
      apply (proj2 (py_min_from_spec (flip (score_lt f)) _ (weak_order_flip _ _ (score_order f)) x xs
        ltac:(apply Hsc; by left) Hsf) l' Hl').
Qed.

(** [select_many] ranks the node [select] would pick first, for the strategies that
    order nodes by load or by score. *)
Theorem select_many_first f c b count :
  fleet_ok f → b.(_strategy) = LEAST_LOADED ∨ b.(_strategy) = CAPABILITY_WEIGHTED →
  (∀ l, l ∈ candidates f c → fnum (score (deref f l)) = true) → (0 < count)%Z →
  head (select_many f count c b) = (select f c b).1.
Proof.
  intros Hf Hst Hsc Hc. unfold select_many, select.
  rewrite (proj2 (Z.leb_gt count 0)) by done.
  assert (Hld : ∀ l, l ∈ candidates f c → fnum (deref f l).(load_score) = true)
    by (intros; by eapply candidate_load).
  destruct (candidates f c) as [|x xs]; [done|].
  assert (Hslice : ∀ l : list nat, head (py_slice l 0 count) = head l).
  { intros [|y ys]; rewrite py_slice_take by lia; [by rewrite take_nil|].
    destruct (Z.to_nat count) as [|n] eqn:En; [lia|done]. }
  rewrite Hslice. unfold _rank. destruct Hst as [-> | ->]; cbn [fst].
  - apply (head_py_sort (load_lt f) _ (load_order f)). apply Forall_forall, Hld.
  - rewrite py_max_min. apply (head_py_sort (flip (score_lt f)) _
      (weak_order_flip _ _ (score_order f))). apply Forall_forall, Hsc.
Qed.
End ranked.
Set Default Proof Using "Type".

(** The nodes [k] round-robin selections in a row pick. *)
Fixpoint round_robin_picks (k : nat) f c (b : LoadBalancer) : list nat :=
  match k with
  | O => []
  | S k' => match select f c b with
            | (Some l, b') => l :: round_robin_picks k' f c b'
            | (None, _) => []
            end
  end.

Lemma round_robin_nth k f c b :
  b.(_strategy) = ROUND_ROBIN → candidates f c ≠ [] →
  let sorted := py_sort (id_lt f) (candidates f c) in
  length (round_robin_picks k f c b) = k ∧
  ∀ j, (j < k)%nat → round_robin_picks k f c b !! j =
    sorted !! Z.to_nat ((b.(_rr_counter) + Z.of_nat j) mod Z.of_nat (length sorted)).
Proof.
  intros Hst Hne sorted. revert b Hst. induction k as [|k IH]; intros b Hst; [split; [done|lia]|].
  assert (Hlen : (0 < length sorted)%nat).
  { unfold sorted. rewrite length_py_sort. destruct (candidates f c); [done|simpl; lia]. }
  cbn [round_robin_picks]. unfold select.
  assert (∃ x xs, candidates f c = x :: xs) as (x & xs & Ec)
    by (destruct (candidates f c) as [|x xs]; [done|by exists x, xs]).
  rewrite Ec, Hst, <-Ec. unfold _round_robin. fold sorted.
  pose proof (Z.mod_pos_bound (_rr_counter b) (Z.of_nat (length sorted)) ltac:(lia)) as Hb.
  destruct (lookup_lt_is_Some_2 sorted (Z.to_nat (_rr_counter b mod Z.of_nat (length sorted))))
    as [l Hl]; [lia|].
  rewrite Hl. destruct (IH (mkBalancer ROUND_ROBIN (_rr_counter b + 1)) eq_refl) as [H1 H2].
  rewrite Hst. split; [simpl; by rewrite H1|]. intros [|j] Hj; simpl.
  - by rewrite Z.add_0_r, Hl.
  - rewrite H2 by lia. cbn [_rr_counter]. do 3 f_equal. lia.
Qed.

(** Round robin is fair whatever its counter: over one turn of an unchanged fleet every
    candidate is picked exactly once. *)
Theorem fleet_round_robin_fair f c b :
  b.(_strategy) = ROUND_ROBIN →
  round_robin_picks (length (candidates f c)) f c b ≡ₚ candidates f c.
Proof.
  intros Hst. destruct (decide (candidates f c = [])) as [E|Hne]; [by rewrite E|].
  destruct (round_robin_nth (length (candidates f c)) f c b Hst Hne) as [H1 H2]. cbv zeta in H2.
  rewrite <-(py_sort_perm (id_lt f) (candidates f c)) at 2.
  apply (cyclic_perm (_rr_counter b)).
  - by rewrite H1, length_py_sort.
  - intros j Hj. apply H2. by rewrite length_py_sort in Hj.
Qed.
End fleet_facts.
End fleet.

(** ** A fleet *)
Section example.
#[local] Existing Instance QF.

Definition ex_fleet : Fleet :=
  mkFleet [mkNode "a" {["nlp"]} HEALTHY (1 # 5)%Q 0%Q []; mkNode "b" ∅ HEALTHY (1 # 2)%Q 50%Q [];
           mkNode "c" {["nlp"]} UNHEALTHY 0%Q 20%Q []]
    [("a", 0); ("b", 1); ("c", 2)]%nat.

Definition ex_watch : Watch := mkWatch ex_fleet (mkMonitor 30%Q 10%Q true false 0 0 0).

Definition ex_balancer : LoadBalancer := mkBalancer LEAST_LOADED 0.

Lemma ex_fleet_ok : fleet_ok ex_fleet.
Proof.
  split; [apply (bool_decide_unpack _); reflexivity|].
  intros id l. unfold ex_fleet. cbn [nodes dget]. repeat case_decide; intros; simplify_eq;
    (eexists; split; [reflexivity|]; split; reflexivity).
Qed.

Lemma fleet_check_witness :
  (check_all (F:=QF) 60%Q ex_watch).1 = ["a"] ∧
  (check_all (F:=QF) 60%Q (check_all (F:=QF) 60%Q ex_watch).2).1 = [].
Proof. split; reflexivity. Qed.

Lemma check_all_exact_witness :
  fleet_ok ex_watch.(reg) ∧ (check_all (F:=QF) 60%Q (check_all (F:=QF) 60%Q ex_watch).2).1 = [].
Proof.
  split; [exact ex_fleet_ok|].
  apply (check_all_exact (F:=QF) 60%Q ex_watch ["a"] (check_all (F:=QF) 60%Q ex_watch).2 ex_fleet_ok).
  reflexivity.
Defined.

Lemma never_selects_silent_witness :
  (select (λ _, 0%nat) (check_all (F:=QF) 60%Q ex_watch).2.(reg) None ex_balancer).1 = Some 1%nat ∧
  stale (F:=QF) 60%Q 30%Q (deref (check_all (F:=QF) 60%Q ex_watch).2.(reg) 1) = false.
Proof.
  split; [reflexivity|].
  apply (never_selects_silent (F:=QF) (λ _, 0%nat) 60%Q ex_watch ["a"] (check_all (F:=QF) 60%Q ex_watch).2
    None ex_balancer 1%nat ex_balancer).
  - intros n Hn. exact Hn.
  - exact ex_fleet_ok.
  - reflexivity.
  - reflexivity.
Defined.

Lemma restored_only_by_monitor_witness :
  (deref ex_watch.(reg) 2).(status) = UNHEALTHY ∧
  ∃ f', heartbeat (F:=QF) "c" None None 70%Q ex_watch.(reg) = (Ok tt, f') ∧ 2%nat ∉ candidates f' None.
Proof.
  split; [reflexivity|].
  destruct (restored_only_by_monitor (F:=QF) "c" 2%nat 70%Q ex_watch None ex_fleet_ok) as [_ (f' & H & _ & Hc)];
    [reflexivity..|].
  exists f'. split; [exact H|exact Hc].
Defined.

Lemma select_many_first_witness :
  (0 < 2)%Z ∧
  head (select_many (λ l, l) ex_fleet 2 None ex_balancer) =
    (select (λ _, 0%nat) ex_fleet None ex_balancer).1.
Proof.
  split; [reflexivity|]. apply (select_many_first (λ _, 0%nat) (λ l, l)).
  - exact ex_fleet_ok.
  - left. reflexivity.
  - intros l Hl. apply (proj2 (Qeq_bool_iff _ _)). reflexivity.
  - reflexivity.
Defined.

Lemma prune_exact_witness :
  fleet_ok ex_fleet ∧
  ∀ id, dget (prune_stale (F:=QF) 30%Q 60%Q ex_fleet).2.(nodes) id =
    l ← dget ex_fleet.(nodes) id; if stale (F:=QF) 60%Q 30%Q (deref ex_fleet l) then None else Some l.
Proof. split; [exact ex_fleet_ok|]. apply (prune_exact (F:=QF) 30%Q 60%Q ex_fleet ex_fleet_ok). Defined.

Lemma fleet_round_robin_fair_witness :
  round_robin_picks (λ _, 0%nat) 2 ex_fleet None (mkBalancer ROUND_ROBIN 7)
    ≡ₚ candidates ex_fleet None.
Proof. apply (fleet_round_robin_fair (λ _, 0%nat) ex_fleet None). reflexivity. Defined.
End example.
