(* ===== verification/K8s.v ===== *)
(** * The operator's side of the Kubernetes API ([k8s/operator/controllers/])

    The requests the two controllers make, as an effect signature, and the monad their
    handlers run in: the API server, a parameter, answers each request and changes the
    cluster; the operator's own state is the status patch it fills and the circuit
    breakers it keeps.  [sent] records the requests in order, for the theorems. *)
From stdpp Require Import base list strings.
From Stdlib Require Import ZArith.
From S2P Require Import Prelude PyDict PyFloat Envelope Serializer.

Section requests.
Context {F : PyFloat}.

(** One constructor per client call, indexed by its result: [read_namespaced_deployment]
    by [status.ready_replicas], [get_namespaced_custom_object] by the object. *)
Inductive request : Type → Type :=
  | CreateDeployment (ns : string) (body : json) : request unit
  | PatchDeployment (ns name : string) (body : json) : request unit
  | DeleteDeployment (ns name : string) : request unit
  | ReadDeployment (ns name : string) : request (option Z)
  | CreateService (ns : string) (body : json) : request unit
  | DeleteService (ns name : string) : request unit
  | CreateConfigMap (ns : string) (body : json) : request unit
  | ReplaceConfigMap (ns name : string) (body : json) : request unit
  | DeleteConfigMap (ns name : string) : request unit
  | GetAgent (ns name : string) : request (dict json).

Record some_request : Type := Request { answer : Type; the_request : request answer }.

(** The outcome of a client call: its result, or the status of an [ApiException]. *)
Inductive reply (A : Type) : Type := Reply (a : A) | ApiError (status : Z).

(** The API server: it answers and changes the cluster. *)
Class ApiServer (W : Type) : Type := api : ∀ A, request A → W → reply A * W.

(** What leaves a handler. *)
Inductive HandlerError : Type :=
  | PermanentError                (* kopf.PermanentError *)
  | ApiException (status : Z)
  | Escaped (e : FromError).      (* an exception no handler catches *)
End requests.
Arguments Reply {A} a.
Arguments ApiError {A} status.
Arguments Request {F answer} the_request.

Section monad.
Context {F : PyFloat} {W B : Type} `{Api : !ApiServer W}.

(** [B] is the state a controller keeps of its own. *)
Record OpState : Type := mkOp {
  cluster : W;
  sent : list some_request;
  status_patch : dict json;
  memory : B;
}.

Abbreviation H := (M OpState HandlerError).

(** A client call. *)
Definition call {A} (r : request A) : H A := λ s,
  match api A r s.(cluster) with
  | (Reply a, w) => (Ok a, mkOp w (s.(sent) ++ [Request r]) s.(status_patch) s.(memory))
  | (ApiError n, w) =>
      (Raise (ApiException n), mkOp w (s.(sent) ++ [Request r]) s.(status_patch) s.(memory))
  end.

(** [try: m except ApiException as exc: h(exc.status)] *)
Definition try_api {A} (m : H A) (h : Z → H A) : H A := λ s,
  match m s with
  | (Raise (ApiException n), s') => h n s'
  | r => r
  end.

(** The call with the status [code] forgiven, any other re-raised. *)
Definition tolerate (code : Z) (m : H unit) : H unit :=
  try_api m (λ n, if (n =? code)%Z then retS tt else raiseS (ApiException n)).

(** The call with every status only logged. *)
Definition logged (m : H unit) : H unit := try_api m (λ _, retS tt).

(** [patch.status[k] = v] *)
Definition patch_status (k : string) (v : json) : H unit :=
  modS (λ s, mkOp s.(cluster) s.(sent) (dset s.(status_patch) k v) s.(memory)).

(** [raise] of what a conversion raised. *)
Definition lift {A} (r : result FromError A) : H A :=
  match r with Ok a => retS a | Raise e => raiseS (Escaped e) end.

Definition each_do {A} (f : A → H unit) : list A → H unit :=
  fix go l := match l with [] => retS tt | x :: r => let! _ := f x in go r end.

(** *** What handlers keep: the cluster, the status patch and the operator's own state *)
Section keeps.
Variable P : W → dict json → B → Prop.
Definition holds (s : OpState) : Prop := P s.(cluster) s.(status_patch) s.(memory).
Abbreviation keeps m := (preserves holds m).

(** What every request keeps. *)
Hypothesis stable : ∀ A (r : request A) w p b, P w p b → P (api A r w).2 p b.

Lemma keeps_call {A} (r : request A) : keeps (call r).
Proof using stable.
  intros s Hs. pose proof (stable A r _ _ _ Hs) as H. unfold call.
  by destruct (api A r (cluster s)) as [[]].
Qed.

Lemma keeps_try {A} (m : H A) h : keeps m → (∀ n, keeps (h n)) → keeps (try_api m h).
Proof.
  intros Hm Hh s Hs. specialize (Hm s Hs). unfold try_api.
  destruct (m s) as [[a|[|n|e]] s']; try done. by apply Hh.
Qed.

Lemma keeps_logged (m : H unit) : keeps m → keeps (logged m).
Proof. intros Hm. apply keeps_try; [done|]. intros n. apply preserves_ret. Qed.

Lemma keeps_tolerate c (m : H unit) : keeps m → keeps (tolerate c m).
Proof.
  intros Hm. apply keeps_try; [done|]. intros n.
  case_match; [apply preserves_ret|apply preserves_raise].
Qed.

Lemma keeps_patch k v : (∀ w p b, P w p b → P w (dset p k v) b) → keeps (patch_status k v).
Proof. intros Hk. apply preserves_mod. intros []. apply Hk. Qed.

Lemma keeps_lift {A} (r : result FromError A) : keeps (lift r).
Proof. destruct r; [apply preserves_ret|apply preserves_raise]. Qed.

Lemma keeps_each {A} (f : A → H unit) l : (∀ x, keeps (f x)) → keeps (each_do f l).
Proof.
  intros Hf. induction l as [|x l IH]; [apply preserves_ret|]. simpl.
  by apply preserves_bind.
Qed.
End keeps.
End monad.
Arguments OpState F W B : clear implicits, assert.

#[export] Hint Resolve keeps_call keeps_try keeps_logged keeps_tolerate keeps_patch keeps_lift keeps_each : py.
