(* ===== verification/AgentController.v ===== *)
(** * Agent resources ([k8s/operator/controllers/agent_controller.py])

    The handlers that create, update, delete and reconcile an Agent: its manifests as
    the JSON documents the API server receives, the environment merged into the
    container, the phase read off the live replicas, and the budget that suspends an
    agent.  [model_validate] is pydantic's, a parameter.  Timestamps are texts passed in;
    the lazy configuration of the client ([_ensure_k8s_client]) is left out. *)
From stdpp Require Import base sets list strings.
From Stdlib Require Import ZArith Lia.
From S2P Require Import Prelude PyInt PyDict PyFloat Envelope Json Serializer K8s.

Record ModelSpec : Type := mkModel { provider : string; model_name : string; max_tokens : Z }.

Definition default_model : ModelSpec := mkModel "anthropic" "claude-3-5-haiku-20241022" 4096.

Section agent.
Context {F : PyFloat} {FT : FloatText F} {FP : FloatParse F}.

Record BudgetSpec : Type := mkBudget {
  max_cost_per_hour : option string;
  max_tokens_per_hour : option Z;
  alert_threshold : float;
}.

(** [_validate_threshold]; [None] is the [ValueError]. *)
Definition _validate_threshold (value : float) : option float :=
  if fltb f0 value && fleb value f1 then Some value else None.

Record AgentSpec : Type := mkAgentSpec {
  image : string;
  capabilities : list string;
  replicas : Z;
  model : ModelSpec;
  budget : BudgetSpec;
  trust_level : string;
  policy : option string;
  env : list (dict json);
  resources : dict json;
}.

Definition OWNER_GROUP : string := "aumos.ai".
Definition OWNER_VERSION : string := "v1alpha1".
Definition OWNER_KIND : string := "Agent".

Definition _deployment_name (agent_name : string) : string := "agent-" +:+ agent_name.
Definition _service_name (agent_name : string) : string := "agent-" +:+ agent_name +:+ "-svc".

(** ** The environment of the container *)

Definition env_var (name value : string) : dict json := [("name", JStr name); ("value", JStr value)].

Definition int_string (n : Z) : string := String.string_of_list_ascii (int_text n).

Definition operator_vars (spec : AgentSpec) : list (dict json) :=
  [env_var "AUMOS_AGENT_TRUST_LEVEL" spec.(trust_level);
   env_var "AUMOS_MODEL_PROVIDER" spec.(model).(provider);
   env_var "AUMOS_MODEL_NAME" spec.(model).(model_name);
   env_var "AUMOS_MAX_TOKENS" (int_string spec.(model).(max_tokens))].

(** [{e["name"] for e in env}]: a missing name or an unhashable one raises. *)
Fixpoint existing_names (env : list (dict json)) : result FromError (list json) :=
  match env with
  | [] => Ok []
  | e :: r =>
      let? n := field e "name" in
      match n with
      | JList _ | JDict _ => Raise TypeError
      | _ => let? ns := existing_names r in Ok (n :: ns)
      end
  end.

(** [name in names], for a string. *)
Definition in_names (names : list json) (name : string) : bool :=
  existsb (λ j, match j with JStr s => bool_decide (s = name) | _ => false end) names.

Definition var_name (var : dict json) : string :=
  match dget var "name" with Some (JStr s) => s | _ => "" end.

Definition _build_env_list (spec : AgentSpec) : result FromError (list (dict json)) :=
  let? names := existing_names spec.(env) in
  Ok (spec.(env) ++ filter (λ var, in_names names (var_name var) = false) (operator_vars spec)).

(** ** Manifests *)

Definition owner_reference (kind name uid : string) : json :=
  JDict [("apiVersion", JStr (OWNER_GROUP +:+ "/" +:+ OWNER_VERSION)); ("kind", JStr kind);
         ("name", JStr name); ("uid", JStr uid); ("controller", JBool true);
         ("blockOwnerDeletion", JBool true)].

(** [service_account] is [os.getenv("AGENT_SERVICE_ACCOUNT")]. *)
Definition _build_deployment_manifest (service_account : option string) (name ns : string)
    (spec : AgentSpec) (owners : list json) : result FromError json :=
  let labels := JDict
    [("app.kubernetes.io/name", JStr name);
     ("app.kubernetes.io/component", JStr "agent");
     ("app.kubernetes.io/managed-by", JStr "aumos-operator");
     ("aumos.ai/capabilities", JStr (String.concat "," (take 5 spec.(capabilities))))] in
  let? env := _build_env_list spec in
  let container := JDict
    ([("name", JStr "agent"); ("image", JStr spec.(image)); ("env", JList (JDict <$> env));
      ("ports", JList [JDict [("containerPort", JInt 8080); ("name", JStr "http")]]);
      ("livenessProbe", JDict
        [("httpGet", JDict [("path", JStr "/healthz"); ("port", JInt 8080)]);
         ("initialDelaySeconds", JInt 10); ("periodSeconds", JInt 30);
         ("failureThreshold", JInt 3)]);
      ("readinessProbe", JDict
        [("httpGet", JDict [("path", JStr "/readyz"); ("port", JInt 8080)]);
         ("initialDelaySeconds", JInt 5); ("periodSeconds", JInt 10)])] ++
     match spec.(resources) with [] => [] | r => [("resources", JDict r)] end) in
  Ok (JDict
    [("apiVersion", JStr "apps/v1"); ("kind", JStr "Deployment");
     ("metadata", JDict
       [("name", JStr (_deployment_name name)); ("namespace", JStr ns); ("labels", labels);
        ("ownerReferences", JList owners)]);
     ("spec", JDict
       [("replicas", JInt spec.(replicas));
        ("selector", JDict [("matchLabels", JDict [("app.kubernetes.io/name", JStr name)])]);
        ("template", JDict
          [("metadata", JDict [("labels", labels)]);
           ("spec", JDict
             [("containers", JList [container]);
              ("serviceAccountName", JStr (default "default" service_account))])])])]).

Definition _build_service_manifest (name ns : string) (owners : list json) : json :=
  JDict
    [("apiVersion", JStr "v1"); ("kind", JStr "Service");
     ("metadata", JDict
       [("name", JStr (_service_name name)); ("namespace", JStr ns);
        ("labels", JDict [("app.kubernetes.io/name", JStr name);
                          ("app.kubernetes.io/managed-by", JStr "aumos-operator")]);
        ("ownerReferences", JList owners)]);
     ("spec", JDict
       [("clusterIP", JStr "None"); ("selector", JDict [("app.kubernetes.io/name", JStr name)]);
        ("ports", JList [JDict [("port", JInt 8080); ("name", JStr "http");
                                ("targetPort", JInt 8080)]])])].
End agent.

(** ** Handlers *)
Section handlers.
Context {F : PyFloat} {FT : FloatText F} {FP : FloatParse F}.
Context {W B : Type} `{Api : !ApiServer W}.
(** [AgentSpec.model_validate], [None] when it raises. *)
Variable model_validate : dict json → option AgentSpec.
Variable service_account : option string.

Abbreviation H := (M (OpState F W B) HandlerError).

Definition validated (spec : dict json) : H AgentSpec :=
  match model_validate spec with Some a => retS a | None => raiseS PermanentError end.

(** [uid] is [meta["uid"]]. *)
Definition on_agent_create (name ns : string) (spec : dict json) (uid : string) : H (dict json) :=
  let! a := validated spec in
  let owners := [owner_reference OWNER_KIND name uid] in
  let! deployment := lift (_build_deployment_manifest service_account name ns a owners) in
  let service := _build_service_manifest name ns owners in
  let! _ := tolerate 409 (call (CreateDeployment ns deployment)) in
  let! _ := tolerate 409 (call (CreateService ns service)) in
  retS [("phase", JStr "Pending"); ("readyReplicas", JInt 0)].

Definition update_patch (a : AgentSpec) (env : list (dict json)) : json :=
  JDict [("spec", JDict
    [("replicas", JInt a.(replicas));
     ("template", JDict [("spec", JDict [("containers", JList
       [JDict [("name", JStr "agent"); ("image", JStr a.(image));
               ("env", JList (JDict <$> env))]])])])])].

Definition on_agent_update (name ns : string) (spec : dict json) : H unit :=
  let! a := validated spec in
  let! env := lift (_build_env_list a) in
  tolerate 404 (call (PatchDeployment ns (_deployment_name name) (update_patch a env))).

Definition on_agent_delete (name ns : string) : H unit :=
  let! _ := logged (call (DeleteDeployment ns (_deployment_name name))) in
  logged (call (DeleteService ns (_service_name name))).

(** *** Reconciliation *)

(** The phase the live replicas show. *)
Definition agent_phase (ready desired : Z) : string :=
  if ((ready =? desired) && (0 <? desired))%Z then "Running"
  else if ((ready =? 0) && (desired =? 0))%Z then "Suspended"
  else if (ready =? 0)%Z then "Pending"
  else "Running".

(** [spec.get("replicas", 1)], an integer by the schema of the resource. *)
Definition desired_replicas (spec : dict json) : Z :=
  match dget spec "replicas" with Some (JInt n) => n | _ => 1 end.

Definition sub_dict (d : dict json) (k : string) : dict json :=
  match dget d k with Some (JDict d') => d' | _ => [] end.

(** [d.get(k)] of a text, [None] also when it is empty. *)
Definition text_field (d : dict json) (k : string) : option string :=
  match dget d k with
  | Some (JStr s) => if decide (s = "") then None else Some s
  | _ => None
  end.

(** What the budget test concludes. *)
Inductive budget_verdict : Type := Exceeded | Alert | Within.

(** The [try] block up to its comparisons; [Raise] is what leaves it. *)
Definition budget_test (max_cost total_cost : string) (threshold : json) (desired : Z)
    : result FromError budget_verdict :=
  let? max_cost := arg_float (JStr max_cost) in
  let? total_cost := arg_float (JStr total_cost) in
  let? threshold := arg_float threshold in
  Ok (if fleb max_cost total_cost && (0 <? desired)%Z then Exceeded
      else if fleb (fmul max_cost threshold) total_cost then Alert
      else Within).

(** [except ValueError] *)
Definition check_budget (max_cost total_cost : string) (threshold : json) (desired : Z)
    : result FromError budget_verdict :=
  match budget_test max_cost total_cost threshold desired with
  | Raise ValueError => Ok Within
  | r => r
  end.

Definition suspend_patch : json := JDict [("spec", JDict [("replicas", JInt 0)])].

Definition enforce_budget (name ns : string) (spec status : dict json) (desired : Z) : H unit :=
  let budget_spec := sub_dict spec "budget" in
  match text_field budget_spec "maxCostPerHour", text_field status "totalCost" with
  | Some max_cost, Some total_cost =>
      let! v := lift (check_budget max_cost total_cost
                        (default (JFloat (flit 8 10)) (dget budget_spec "alertThreshold")) desired) in
      match v with
      | Exceeded =>
          let! _ := call (PatchDeployment ns (_deployment_name name) suspend_patch) in
          patch_status "phase" (JStr "Suspended")
      | Alert | Within => retS tt
      end
  | _, _ => retS tt
  end.

(** [status] is the status of the Agent, [now_iso] the time. *)
Definition reconcile_agent_status (name ns : string) (spec status : dict json)
    (now_iso : string) : H unit :=
  let! found := try_api
    (let! r := call (ReadDeployment ns (_deployment_name name)) in retS (Some (default 0%Z r)))
    (λ n, if (n =? 404)%Z then retS None else raiseS (ApiException n)) in
  match found with
  | None => retS tt
  | Some ready =>
      let desired := desired_replicas spec in
      let! _ := patch_status "phase" (JStr (agent_phase ready desired)) in
      let! _ := patch_status "readyReplicas" (JInt ready) in
      let! _ := patch_status "lastHeartbeat" (JStr now_iso) in
      enforce_budget name ns spec status desired
  end.
End handlers.

(** ** Properties *)

(** The phases the controller gives an Agent. *)
Definition written_phases : list string := ["Pending"; "Running"; "Suspended"].

Lemma agent_phase_written ready desired : agent_phase ready desired ∈ written_phases.
Proof. unfold agent_phase. repeat case_match; set_solver. Qed.

Lemma failure_not_written : ("Failed" ∉ written_phases) ∧ ("Terminated" ∉ written_phases).
Proof. split; by apply (bool_decide_unpack _). Qed.

Section environment.
Context {F : PyFloat} {FT : FloatText F}.
Implicit Types (a : AgentSpec) (e v : dict json).

Lemma existing_names_spec l ns :
  existing_names l = Ok ns → Forall2 (λ e n, dget e "name" = Some n) l ns.
Proof.
  revert ns. induction l as [|e l IH]; intros ns H; simpl in H; [by simplify_eq|].
  unfold field in H. destruct (dget e "name") as [n|] eqn:Hn; [|done]. simpl in H.
  destruct (existing_names l) as [ns'|] eqn:E; simpl in H; destruct n; simplify_eq;
    constructor; auto.
Qed.

Lemma in_names_true ns name : in_names ns name = true ↔ JStr name ∈ ns.
Proof.
  unfold in_names. rewrite existsb_exists. split.
  - intros (j & Hj & H). apply list_elem_of_In in Hj. destruct j; try done.
    apply bool_decide_eq_true in H. by subst.
  - intros H. exists (JStr name). split; [by apply list_elem_of_In|by apply bool_decide_eq_true].
Qed.

(** The names of the user's variables. *)
Definition user_names a : list json := omap (λ e, dget e "name") a.(env).

Lemma existing_user_names a ns : existing_names a.(env) = Ok ns → ns = user_names a.
Proof.
  intros H. apply existing_names_spec in H. unfold user_names.
  induction H as [|e n l ns He _ IH]; [done|]. csimpl. rewrite He. by f_equal.
Qed.

Lemma operator_var_name a v : v ∈ operator_vars a → dget v "name" = Some (JStr (var_name v)).
Proof. intros H. repeat (apply elem_of_cons in H as [->|H]; [done|]). by apply elem_of_nil in H. Qed.

(** The container's environment is the user's, untouched and first, then the
    operator's variables the user did not name; so each operator variable is defined
    exactly once more than the user defines it, and the user's definition wins. *)
Theorem build_env_spec a vars :
  _build_env_list a = Ok vars →
  ∃ added, vars = a.(env) ++ added ∧ added `sublist_of` operator_vars a ∧
    ∀ v, v ∈ operator_vars a → v ∈ added ↔ JStr (var_name v) ∉ user_names a.
Proof.
  unfold _build_env_list. destruct (existing_names a.(env)) as [ns|] eqn:E; [|done].
  apply existing_user_names in E as ->. intros [= <-]. eexists. split; [done|]. split.
  - apply sublist_filter.
  - intros v Hv. rewrite list_elem_of_filter, <-not_true_iff_false, in_names_true. tauto.
Qed.
End environment.

Section reconcile.
Context {F : PyFloat} {FT : FloatText F} {FP : FloatParse F}.
Context {W B : Type} `{Api : !ApiServer W}.
Implicit Types (s : OpState F W B) (spec status : dict json).

(** The cost reported reaches the cap of a running agent. *)
Definition over_budget spec status : Prop :=
  ∃ mc tc m t thr,
    text_field (sub_dict spec "budget") "maxCostPerHour" = Some mc ∧
    text_field status "totalCost" = Some tc ∧
    float_of_str mc = Some m ∧ float_of_str tc = Some t ∧
    arg_float (default (JFloat (flit 8 10)) (dget (sub_dict spec "budget") "alertThreshold")) = Ok thr ∧
    fleb m t = true ∧ (0 < desired_replicas spec)%Z.

Lemma check_budget_exceeded mc tc th n :
  check_budget mc tc th n = Ok Exceeded ↔
  ∃ m t thr, float_of_str mc = Some m ∧ float_of_str tc = Some t ∧ arg_float th = Ok thr ∧
    fleb m t = true ∧ (0 < n)%Z.
Proof.
  unfold check_budget, budget_test. simpl.
  destruct (float_of_str mc) as [m|]; simpl; [|naive_solver].
  destruct (float_of_str tc) as [t|]; simpl; [|naive_solver].
  destruct (arg_float th) as [thr|e]; simpl; [|destruct e; naive_solver].
  destruct (fleb m t) eqn:Hm, (Z.ltb_spec 0 n); simpl;
    split; try (intros [= ]); try naive_solver; try lia.
  all: try (destruct (fleb (fmul m thr) t); done).
  all: intros (?&?&?&?&?&?&?&?); simplify_eq; try congruence; try lia.
Qed.
Abbreviation PatchTo0 name ns := (PatchDeployment ns (_deployment_name name) suspend_patch).

Lemma enforce_over name ns spec status s :
  over_budget spec status →
  enforce_budget name ns spec status (desired_replicas spec) s =
    (let! _ := call (PatchTo0 name ns) in patch_status "phase" (JStr "Suspended")) s.
Proof.
  intros (mc & tc & m & t & thr & Hm & Ht & H). unfold enforce_budget. rewrite Hm, Ht.
  by rewrite (proj2 (check_budget_exceeded mc tc _ _)) by naive_solver.
Qed.

Lemma enforce_within name ns spec status s :
  ¬ over_budget spec status →
  (enforce_budget name ns spec status (desired_replicas spec) s).2 = s.
Proof.
  intros Hn. unfold enforce_budget.
  destruct (text_field (sub_dict spec "budget") _) as [mc|] eqn:Hm; [|done].
  destruct (text_field status _) as [tc|] eqn:Ht; [|done].
  destruct (check_budget mc tc _ _) as [[]|] eqn:Hc; try done.
  exfalso. apply Hn. apply check_budget_exceeded in Hc. unfold over_budget. naive_solver.
Qed.

Lemma dget_patch k v s : dget (patch_status (W:=W) (B:=B) k v s).2.(status_patch) k = Some v.
Proof. apply dget_set_eq. Qed.

(** The status a reconciliation shows, before the budget is looked at. *)
Lemma reconcile_found name ns spec status now s r w :
  api _ (ReadDeployment ns (_deployment_name name)) s.(cluster) = (Reply r, w) →
  ∃ s1, reconcile_agent_status name ns spec status now s =
      enforce_budget name ns spec status (desired_replicas spec) s1 ∧
    s1.(cluster) = w ∧ s1.(memory) = s.(memory) ∧
    s1.(sent) = s.(sent) ++ [Request (ReadDeployment ns (_deployment_name name))] ∧
    dget s1.(status_patch) "phase" =
      Some (JStr (agent_phase (default 0%Z r) (desired_replicas spec))).
Proof.
  intros Hr. unfold reconcile_agent_status, bindS, try_api, call. rewrite Hr.
  eexists. split; [reflexivity|]. split_and!; [done..|]. cbn [status_patch].
  rewrite !dget_set_ne by done. apply dget_set_eq.
Qed.

(** C13. Budget enforcement: when the deployment is read, an agent whose reported cost has
    reached its cap is scaled to zero replicas by exactly one more request, and shown as
    Suspended once that request succeeds; any other agent keeps its deployment and is shown in the
    phase of its live replicas. *)
Theorem reconcile_enforces_budget name ns spec status now s r w :
  api _ (ReadDeployment ns (_deployment_name name)) s.(cluster) = (Reply r, w) →
  let read := Request (ReadDeployment ns (_deployment_name name)) in
  let '(out, s') := reconcile_agent_status name ns spec status now s in
  (over_budget spec status →
    s'.(sent) = s.(sent) ++ [read; Request (PatchTo0 name ns)] ∧
    match api _ (PatchTo0 name ns) w with
    | (Reply _, w') => out = Ok tt ∧ s'.(cluster) = w' ∧
        dget s'.(status_patch) "phase" = Some (JStr "Suspended")
    | (ApiError n, w') => out = Raise (ApiException n) ∧ s'.(cluster) = w'
    end) ∧
  (¬ over_budget spec status →
    s'.(sent) = s.(sent) ++ [read] ∧ s'.(cluster) = w ∧
    dget s'.(status_patch) "phase" =
      Some (JStr (agent_phase (default 0%Z r) (desired_replicas spec)))).
Proof.
  intros Hr. cbv zeta.
  destruct (reconcile_found name ns spec status now s r w Hr) as (s1 & -> & Hc & Hm & Hs & Hp).
  destruct (enforce_budget _ _ _ _ _ s1) as [out s'] eqn:E. split; intros Hob.
  - rewrite enforce_over in E by done. unfold bindS, call in E. rewrite Hc, Hs in E.
    destruct (api _ (PatchTo0 name ns) w) as [[[]|n] w']; rewrite <-(assoc_L (++)) in E.
    + injection E as <- <-. split_and!; [done..|]. apply dget_set_eq.
    + by injection E as <- <-.
  - pose proof (enforce_within name ns spec status s1 Hob) as H. rewrite E in H. simpl in H.
    subst. done.
Qed.

(** Whatever a reconciliation writes, the phase is one of three. *)
Lemma reconcile_phase_written name ns spec status now s :
  let s' := (reconcile_agent_status name ns spec status now s).2 in
  dget s'.(status_patch) "phase" = dget s.(status_patch) "phase" ∨
  ∃ p, p ∈ written_phases ∧ dget s'.(status_patch) "phase" = Some (JStr p).
Proof.
  cbv zeta. destruct (api _ (ReadDeployment ns (_deployment_name name)) s.(cluster)) as [[r|n] w] eqn:Hr.
  - right. pose proof (reconcile_found name ns spec status now s r w Hr) as (s1 & -> & _ & _ & _ & Hp).
    unfold enforce_budget.
    assert (H1 : ∃ p, p ∈ written_phases ∧ dget s1.(status_patch) "phase" = Some (JStr p))
      by (eexists; split; [apply agent_phase_written|exact Hp]).
    destruct (text_field (sub_dict spec "budget") "maxCostPerHour"); [|done].
    destruct (text_field status "totalCost"); [|done].
    destruct (check_budget _ _ _ _) as [[]|]; try done.
    unfold bindS, call. simpl. destruct (api _ _ (cluster s1)) as [[]]; [|exact H1].
    exists "Suspended". split; [set_solver|apply dget_set_eq].
  - left. unfold reconcile_agent_status, bindS, try_api, call. rewrite Hr. by destruct (n =? 404)%Z.
Qed.
End reconcile.

(** ** Witnesses *)
Section witnesses.
#[local] Existing Instance QF.

(** A cluster of deployments with their ready replicas; the object of an agent shows the
    phase the controller gives it for one desired replica. *)
#[export] Instance ex_api : ApiServer (F:=QF) (dict Z) := λ A r w,
  match r in request A return reply A * dict Z with
  | ReadDeployment _ n =>
      (match dget w n with Some k => Reply (Some k) | None => ApiError 404 end, w)
  | PatchDeployment _ n _ => (Reply tt, dset w n 0%Z)
  | GetAgent _ n =>
      (match dget w (_deployment_name n) with
       | Some k => Reply [("status", JDict [("phase", JStr (agent_phase k 1))])]
       | None => ApiError 404
       end, w)
  | CreateDeployment _ _ | DeleteDeployment _ _ | CreateService _ _ | DeleteService _ _
  | CreateConfigMap _ _ | ReplaceConfigMap _ _ _ | DeleteConfigMap _ _ => (Reply tt, w)
  end.

Definition ex_state : OpState QF (dict Z) unit := mkOp [("agent-a", 1%Z)] [] [] tt.
Definition ex_spec : dict json :=
  [("replicas", JInt 1); ("budget", JDict [("maxCostPerHour", JStr "5")])].
Definition ex_status : dict json := [("totalCost", JStr "7")].

Lemma ex_over_budget : over_budget ex_spec ex_status.
Proof.
  exists "5", "7", (fofZ 5), (fofZ 7), (flit 8 10). split_and!; try reflexivity.
Qed.

Lemma reconcile_enforces_budget_witness :
  let s' := (reconcile_agent_status "a" "n" ex_spec ex_status "t" ex_state).2 in
  s'.(cluster) = [("agent-a", 0%Z)] ∧ dget s'.(status_patch) "phase" = Some (JStr "Suspended").
Proof.
  pose proof (reconcile_enforces_budget "a" "n" ex_spec ex_status "t" ex_state (Some 1%Z)
    [("agent-a", 1%Z)] eq_refl) as H.
  destruct (reconcile_agent_status "a" "n" ex_spec ex_status "t" ex_state) as [out s'].
  destruct H as [H _]. destruct (H ex_over_budget) as (_ & _ & Hc & Hp). by split.
Defined.

Definition ex_agent : AgentSpec :=
  mkAgentSpec "img" ["c"] 1 default_model (mkBudget None None (flit 8 10)) "basic" None
    [env_var "AUMOS_MODEL_NAME" "mine"] [].

Lemma build_env_spec_witness :
  ∃ vars added, _build_env_list ex_agent = Ok vars ∧ vars = ex_agent.(env) ++ added ∧
    length added = 3.
Proof.
  destruct (build_env_spec ex_agent _ eq_refl) as (added & Hv & _).
  eexists _, added. split; [reflexivity|]. split; [exact Hv|].
  apply (f_equal length) in Hv. rewrite length_app in Hv.
  change (4 = 1 + length added) in Hv. lia.
Defined.
End witnesses.
