(* ===== verification/MeshController.v ===== *)
(** * Mesh resources ([k8s/operator/controllers/mesh_controller.py])

    The routing ConfigMap of a mesh, the handlers that create, update and delete it, the
    in-process circuit breaker of each mesh, and the reconciliation that rolls up the
    status of the referenced agents; the reader's side of the routing ConfigMap; and what
    the handlers keep of the cluster and of the breakers, for [Cluster].  Times are
    microseconds; pydantic's [model_validate] is a parameter. *)
From stdpp Require Import base sets relations list strings.
From Stdlib Require Import ZArith Ascii Lia.
From S2P Require Import Prelude PyInt PyDict PyFloat Envelope Json Serializer K8s AgentController.

Record AgentRef : Type := mkRef { ref_name : string; ref : string; role : string; weight : Z }.

Record CircuitBreakerSpec : Type := mkCbSpec {
  enabled : bool;
  failure_threshold : Z;
  recovery_timeout : string;
  success_threshold : Z;
}.

Record ObservabilitySpec : Type := mkObs {
  tracing : bool; metrics : bool; cost_tracking : bool; log_level : string }.

(** ** The circuit breaker *)
Inductive CbState : Type := closed | open | half_open.

#[export] Instance CbState_eq_dec : EqDecision CbState.
Proof. solve_decision. Defined.

Definition state_name (c : CbState) : string :=
  match c with closed => "closed" | open => "open" | half_open => "half-open" end.

Record CircuitBreakerState : Type := mkCb {
  config : CircuitBreakerSpec;
  state : CbState;
  failure_count : Z;
  success_count : Z;
  opened_at : option Z;
}.

Definition new_cb (c : CircuitBreakerSpec) : CircuitBreakerState := mkCb c closed 0 0 None.

(** [raw[:-1]] when [raw.endswith(c)] *)
Fixpoint strip_last (c : ascii) (raw : string) : option string :=
  match raw with
  | EmptyString => None
  | String a EmptyString => if decide (a = c) then Some EmptyString else None
  | String a r => String a <$> strip_last c r
  end.

(** [None] is the [ValueError] of [int]. *)
Definition _parse_timeout_seconds (cb : CircuitBreakerState) : option Z :=
  let raw := cb.(config).(recovery_timeout) in
  match strip_last "s" raw with
  | Some r => py_int r
  | None => match strip_last "m" raw with
            | Some r => (λ n, n * 60)%Z <$> py_int r
            | None => Some 30%Z
            end
  end.

Definition record_failure (now : Z) (cb : CircuitBreakerState) : CircuitBreakerState :=
  match cb.(state) with
  | open => cb
  | _ =>
      let n := (cb.(failure_count) + 1)%Z in
      if (cb.(config).(failure_threshold) <=? n)%Z
      then mkCb cb.(config) open n cb.(success_count) (Some now)
      else mkCb cb.(config) cb.(state) n cb.(success_count) cb.(opened_at)
  end.

Definition record_success (cb : CircuitBreakerState) : CircuitBreakerState :=
  match cb.(state) with
  | half_open =>
      let n := (cb.(success_count) + 1)%Z in
      if (cb.(config).(success_threshold) <=? n)%Z
      then mkCb cb.(config) closed 0 0 cb.(opened_at)
      else mkCb cb.(config) half_open cb.(failure_count) n cb.(opened_at)
  | _ => cb
  end.

Section breaker.
Context {F : PyFloat}.

(** [None] is the [ValueError] of the timeout. *)
Definition maybe_probe (now : Z) (cb : CircuitBreakerState)
    : option (bool * CircuitBreakerState) :=
  match cb.(state), cb.(opened_at) with
  | open, Some t =>
      let elapsed := flit (now - t) 1000000 in
      match _parse_timeout_seconds cb with
      | None => None
      | Some timeout =>
          if fleb (fofZ timeout) elapsed
          then Some (true, mkCb cb.(config) half_open cb.(failure_count) 0 cb.(opened_at))
          else Some (false, cb)
      end
  | _, _ => Some (false, cb)
  end.

(** ** The specification of a mesh *)
Record RetryPolicySpec : Type := mkRetryPolicy {
  max_attempts : Z; backoff_seconds : float; backoff_multiplier : float }.

Record RoutingSpec : Type := mkRouting {
  retry_policy : RetryPolicySpec; timeout_seconds : Z; dead_letter_queue : bool }.

Record AgentMeshSpec : Type := mkMeshSpec {
  agents : list AgentRef;
  topology : string;
  circuit_breaker : CircuitBreakerSpec;
  observability : ObservabilitySpec;
  routing : RoutingSpec;
  mesh_policy : option string;
}.

(** ** The routing ConfigMap *)
Definition MESH_KIND : string := "AgentMesh".

Definition _configmap_name (mesh_name : string) : string :=
  "agentmesh-" +:+ mesh_name +:+ "-routing".

Definition service_endpoint (ns : string) (a : AgentRef) : string :=
  "agent-" +:+ a.(ref) +:+ "-svc." +:+ ns +:+ ".svc.cluster.local:8080".

Definition routing_data (ns : string) (m : AgentMeshSpec) : json :=
  let cb := m.(circuit_breaker) in
  let rp := m.(routing).(retry_policy) in
  let ob := m.(observability) in
  JDict
    [("topology", JStr m.(topology));
     ("agents", JList ((λ a, JDict
        [("name", JStr a.(ref_name)); ("ref", JStr a.(ref)); ("role", JStr a.(role));
         ("weight", JInt a.(weight)); ("serviceEndpoint", JStr (service_endpoint ns a))])
        <$> m.(agents)));
     ("circuitBreaker", JDict
        [("enabled", JBool cb.(enabled)); ("failureThreshold", JInt cb.(failure_threshold));
         ("recoveryTimeout", JStr cb.(recovery_timeout));
         ("successThreshold", JInt cb.(success_threshold))]);
     ("routing", JDict
        [("retryPolicy", JDict
           [("maxAttempts", JInt rp.(max_attempts)); ("backoffSeconds", JFloat rp.(backoff_seconds));
            ("backoffMultiplier", JFloat rp.(backoff_multiplier))]);
         ("timeoutSeconds", JInt m.(routing).(timeout_seconds));
         ("deadLetterQueue", JBool m.(routing).(dead_letter_queue))]);
     ("observability", JDict
        [("tracing", JBool ob.(tracing)); ("metrics", JBool ob.(metrics));
         ("costTracking", JBool ob.(cost_tracking)); ("logLevel", JStr ob.(log_level))])].
End breaker.

(** ** Handlers *)
Section handlers.
Context {F : PyFloat} {FT : FloatText F} {FP : FloatParse F}.

Definition _build_routing_configmap (mesh_name ns : string) (m : AgentMeshSpec)
    (owners : list json) : json :=
  JDict
    [("apiVersion", JStr "v1"); ("kind", JStr "ConfigMap");
     ("metadata", JDict
       [("name", JStr (_configmap_name mesh_name)); ("namespace", JStr ns);
        ("labels", JDict [("app.kubernetes.io/name", JStr mesh_name);
                          ("app.kubernetes.io/managed-by", JStr "aumos-operator");
                          ("app.kubernetes.io/component", JStr "routing-config")]);
        ("ownerReferences", JList owners)]);
     ("data", JDict
       [("routing.json", JStr (String.string_of_list_ascii (dumps indented (routing_data ns m))));
        ("topology", JStr m.(topology))])].

Definition config_env_patch (configmap_name : string) : json :=
  JDict [("spec", JDict [("template", JDict [("spec", JDict [("containers", JList
    [JDict [("name", JStr "agent");
            ("env", JList [JDict
              [("name", JStr "AUMOS_MESH_ROUTING_CONFIG");
               ("valueFrom", JDict [("configMapKeyRef", JDict
                 [("name", JStr configmap_name); ("key", JStr "routing.json");
                  ("optional", JBool true)])])]])]])])])])].

Context {W : Type} `{Api : !ApiServer W}.
(** [AgentMeshSpec.model_validate], and the text of a float with four decimals. *)
Variable model_validate : dict json → option AgentMeshSpec.
Variable fixed4 : float → string.

(** [_circuit_breakers] *)
Abbreviation Breakers := (dict CircuitBreakerState).
Abbreviation H := (M (OpState F W Breakers) HandlerError).

Definition validated_mesh (spec : dict json) : H AgentMeshSpec :=
  match model_validate spec with Some m => retS m | None => raiseS PermanentError end.

Definition _patch_agent_deployment_with_configmap (agent_name ns configmap_name : string) : H unit :=
  logged (call (PatchDeployment ns ("agent-" +:+ agent_name) (config_env_patch configmap_name))).

Definition set_breakers (f : Breakers → Breakers) : H unit :=
  modS (λ s, mkOp s.(cluster) s.(sent) s.(status_patch) (f s.(memory))).

Definition _get_or_create_circuit_breaker (mesh_key : string) (c : CircuitBreakerSpec)
    : H CircuitBreakerState :=
  let! s := getS in
  match dget s.(memory) mesh_key with
  | Some cb => retS cb
  | None => let! _ := set_breakers (λ d, dset d mesh_key (new_cb c)) in retS (new_cb c)
  end.

Definition mesh_key (ns name : string) : string := ns +:+ "/" +:+ name.

Definition patch_agents (name ns : string) (m : AgentMeshSpec) : H unit :=
  each_do (λ a, _patch_agent_deployment_with_configmap a.(ref) ns (_configmap_name name))
    m.(agents).

Definition on_mesh_create (name ns : string) (spec : dict json) (uid : string) : H (dict json) :=
  let! m := validated_mesh spec in
  let configmap := _build_routing_configmap name ns m [owner_reference MESH_KIND name uid] in
  let! _ := tolerate 409 (call (CreateConfigMap ns configmap)) in
  let! _ := patch_agents name ns m in
  let! _ := (if m.(circuit_breaker).(enabled) then
               let! _ := _get_or_create_circuit_breaker (mesh_key ns name) m.(circuit_breaker) in
               retS tt
             else retS tt) in
  retS [("phase", JStr "Forming"); ("activeAgents", JInt 0); ("circuitBreakerState", JStr "closed")].

Definition on_mesh_update (name ns : string) (spec : dict json) : H unit :=
  let! m := validated_mesh spec in
  let configmap := _build_routing_configmap name ns m [] in
  let! _ := try_api (call (ReplaceConfigMap ns (_configmap_name name) configmap))
    (λ n, if (n =? 404)%Z then call (CreateConfigMap ns configmap) else raiseS (ApiException n)) in
  patch_agents name ns m.

Definition on_mesh_delete (name ns : string) : H unit :=
  let! _ := logged (call (DeleteConfigMap ns (_configmap_name name))) in
  set_breakers (λ d, ddel d (mesh_key ns name)).

(** *** Reconciliation *)

(** Running agents, failed agents, cost. *)
Abbreviation Rollup := (Z * Z * float)%type.

Definition count_agent (agent_obj : dict json) (acc : Rollup) : Rollup :=
  let '(active, failed, cost) := acc in
  let st := sub_dict agent_obj "status" in
  let phase := match dget st "phase" with Some (JStr p) => p | _ => "Pending" end in
  let cost := match text_field st "totalCost" with
    | Some c => match float_of_str c with Some x => fadd cost x | None => cost end
    | None => cost
    end in
  if decide (phase = "Running") then (active + 1, failed, cost)%Z
  else if decide (phase = "Failed" ∨ phase = "Terminated") then (active, failed + 1, cost)%Z
  else (active, failed, cost).

Fixpoint roll_up (ns : string) (l : list AgentRef) (acc : Rollup) : H Rollup :=
  match l with
  | [] => retS acc
  | a :: r =>
      let! acc := try_api (let! o := call (GetAgent ns a.(ref)) in retS (count_agent o acc))
                    (λ _, retS acc) in
      roll_up ns r acc
  end.

Definition mesh_phase (active failed total : Z) : string :=
  if (active =? total)%Z then "Ready"
  else if (active =? 0)%Z then (if (0 <? failed)%Z then "Failed" else "Forming")
  else "Degraded".

(** [t_fail] and [t_probe] are the readings of the clock. *)
Definition observe (key : string) (c : CircuitBreakerSpec) (failed : Z) (t_fail t_probe : Z)
    : H CbState :=
  let! cb := _get_or_create_circuit_breaker key c in
  let cb := if (0 <? failed)%Z then record_failure t_fail cb else record_success cb in
  let! _ := set_breakers (λ d, dset d key cb) in
  match maybe_probe t_probe cb with
  | None => raiseS (Escaped ValueError)
  | Some (_, cb) =>
      let! _ := set_breakers (λ d, dset d key cb) in
      retS cb.(state)
  end.

Definition reconcile_mesh_status (name ns : string) (spec : dict json) (t_fail t_probe : Z)
    (now_iso : string) : H unit :=
  match model_validate spec with
  | None => retS tt
  | Some m =>
      let! r := roll_up ns m.(agents) (0, 0, f0)%Z in
      let '(active, failed, cost) := r in
      let! cb := (if m.(circuit_breaker).(enabled)
                  then observe (mesh_key ns name) m.(circuit_breaker) failed t_fail t_probe
                  else retS closed) in
      let! _ := patch_status "phase"
        (JStr (mesh_phase active failed (Z.of_nat (length m.(agents))))) in
      let! _ := patch_status "activeAgents" (JInt active) in
      let! _ := patch_status "totalCost" (JStr (fixed4 cost)) in
      let! _ := patch_status "circuitBreakerState" (JStr (state_name cb)) in
      patch_status "lastUpdated" (JStr now_iso)
  end.
End handlers.

(** ** The breaker's state machine *)
Section breaker_properties.
Context {F : PyFloat}.
Implicit Types (cb : CircuitBreakerState) (c : CircuitBreakerSpec).

(** What a breaker goes through: an observation, a probe. *)
Inductive cb_step : CircuitBreakerState → CircuitBreakerState → Prop :=
  | step_failure now cb : cb_step cb (record_failure now cb)
  | step_success cb : cb_step cb (record_success cb)
  | step_probe now cb b cb' : maybe_probe now cb = Some (b, cb') → cb_step cb cb'.

Definition cb_ok c cb : Prop :=
  cb.(config) = c ∧ (0 ≤ cb.(failure_count))%Z ∧ (0 ≤ cb.(success_count))%Z ∧
  match cb.(state) with
  | closed => (cb.(failure_count) < c.(failure_threshold) ∨ cb.(failure_count) = 0)%Z ∧
              cb.(success_count) = 0%Z
  | open => is_Some cb.(opened_at) ∧ (c.(failure_threshold) ≤ cb.(failure_count))%Z
  | half_open => is_Some cb.(opened_at) ∧ (c.(failure_threshold) ≤ cb.(failure_count))%Z ∧
                 (cb.(success_count) < c.(success_threshold) ∨ cb.(success_count) = 0)%Z
  end.

Lemma new_cb_ok c : cb_ok c (new_cb c).
Proof. unfold cb_ok. simpl. split_and!; [done|lia..|by right|done]. Qed.

Lemma cb_step_ok c cb cb' : cb_ok c cb → cb_step cb cb' → cb_ok c cb'.
Proof.
  intros (Hc & Hf & Hs & H) Hstep. unfold cb_ok.
  destruct Hstep as [now cb|cb|now cb b cb' Hp].
  - unfold record_failure. destruct (state cb) eqn:E; rewrite ?E; [|done|];
      destruct (Z.leb_spec (failure_threshold (config cb)) (failure_count cb + 1));
      simpl; rewrite ?E; subst; destruct_and?; split_and!; eauto; lia.
  - unfold record_success. destruct (state cb) eqn:E; rewrite ?E; try done.
    destruct (Z.leb_spec (success_threshold (config cb)) (success_count cb + 1));
      simpl; subst; destruct_and?; split_and!; eauto; lia.
  - unfold maybe_probe in Hp. destruct (state cb) eqn:E; simplify_eq; rewrite ?E; try (naive_solver).
    destruct (opened_at cb) as [t|] eqn:Et; simplify_eq; rewrite ?E; [|naive_solver].
    destruct (_parse_timeout_seconds cb); simplify_eq.
    case_match; simplify_eq; simpl; rewrite ?E, ?Et; [|naive_solver].
    destruct_and?. split_and!; eauto; lia.
Qed.
Lemma cb_reachable_ok c cb : rtc cb_step (new_cb c) cb → cb_ok c cb.
Proof.
  intros H. assert (Hi : ∀ x y, rtc cb_step x y → cb_ok c x → cb_ok c y).
  { induction 1 as [|x y z Hs _ IH]; [done|]. intros Hx. eauto using cb_step_ok. }
  eapply Hi; [exact H|]. apply new_cb_ok.
Qed.

(** The ticks of a reconciliation: a failure seen at a time, or none. *)
Definition tick (o : option Z) cb : CircuitBreakerState :=
  match o with Some now => record_failure now cb | None => record_success cb end.

Definition ticks (l : list (option Z)) cb : CircuitBreakerState := fold_left (λ cb o, tick o cb) l cb.

Definition failures (l : list (option Z)) : nat := length (omap id l).

Lemma tick_open o cb : cb.(state) = open → tick o cb = cb.
Proof. intros H. destruct o; simpl; [unfold record_failure|unfold record_success]; by rewrite H. Qed.

Lemma ticks_open l cb : cb.(state) = open → ticks l cb = cb.
Proof.
  intros H. induction l as [|o l IH]; [done|]. unfold ticks in *. cbn [fold_left]. by rewrite tick_open.
Qed.

(** A mesh's breaker opens exactly when the failures observed since it was created reach
    its threshold, however many reconciliations without a failure lie between them. *)
Theorem opens_on_total_failures c l :
  (0 < c.(failure_threshold))%Z →
  (ticks l (new_cb c)).(state) =
    if decide (c.(failure_threshold) ≤ Z.of_nat (failures l))%Z then open else closed.
Proof.
  intros Hth.
  assert (Hgen : ∀ cb, cb.(state) = closed → cb.(config) = c →
    (cb.(failure_count) < c.(failure_threshold))%Z →
    (ticks l cb).(state) =
      if decide (c.(failure_threshold) ≤ cb.(failure_count) + Z.of_nat (failures l))%Z
      then open else closed).
  { induction l as [|o l IH]; intros cb Hs Hc Hlt.
    - unfold failures, ticks. simpl. by rewrite decide_False by lia.
    - unfold ticks. cbn [fold_left]. fold (ticks l (tick o cb)). destruct o as [now|]; cbn [tick].
      + unfold record_failure. rewrite Hs. destruct (Z.leb_spec (failure_threshold (config cb))
          (failure_count cb + 1)) as [Hle|Hle].
        * rewrite ticks_open by done. change (failures (Some now :: l)) with (S (failures l)).
          rewrite decide_True by (rewrite Hc in Hle; lia). done.
        * rewrite IH by (simpl; rewrite ?Hc in *; done || lia).
          change (failures (Some now :: l)) with (S (failures l)). cbn [failure_count].
          repeat case_decide; done || lia.
      + unfold record_success. rewrite Hs. rewrite IH by done. done. }
  rewrite Hgen by done. done.
Qed.

(** After the recovery timeout one probe decides: in a half-open breaker any single
    failure opens it again, and success_threshold successes in a row close it and reset its
    counts. *)
Theorem half_open_verdict c cb now :
  rtc cb_step (new_cb c) cb → cb.(state) = half_open →
  (record_failure now cb).(state) = open ∧
  ((record_success cb).(state) = closed ↔ (c.(success_threshold) ≤ cb.(success_count) + 1)%Z) ∧
  ((record_success cb).(state) = closed →
     (record_success cb).(failure_count) = 0 ∧ (record_success cb).(success_count) = 0)%Z.
Proof.
  intros Hr Hs. destruct (cb_reachable_ok c cb Hr) as (Hc & Hf & Hsc & H). rewrite Hs in H.
  destruct H as (_ & Hth & _). unfold record_failure, record_success. rewrite Hs, Hc.
  destruct (Z.leb_spec (failure_threshold c) (failure_count cb + 1)); [|lia].
  split; [done|].
  destruct (Z.leb_spec (success_threshold c) (success_count cb + 1)); simpl; naive_solver lia.
Qed.

(** An open breaker whose timeout is no numeral fails every probe. *)
Lemma bad_timeout now cb t :
  cb.(state) = open → cb.(opened_at) = Some t → _parse_timeout_seconds cb = None →
  maybe_probe now cb = None.
Proof. unfold maybe_probe. by intros -> -> ->. Qed.
End breaker_properties.

(** ** The routing configuration agents read *)
Section routing_config.
Context {F : PyFloat} {FT : FloatText F} {FTO : FloatTextOk F}.

(** The endpoint is the cluster address, at the port of the Service, of the Service the
    agent controller creates for the agent. *)
Definition cluster_address (service ns : string) (port : Z) : string :=
  service +:+ "." +:+ ns +:+ ".svc.cluster.local:" +:+ int_string port.

Lemma app_assoc_string (a b c : string) : (a +:+ b) +:+ c = a +:+ (b +:+ c).
Proof. induction a as [|x a IH]; [done|]. exact (f_equal (String x) IH). Qed.

Lemma endpoint_is_service ns a :
  service_endpoint ns a = cluster_address (_service_name a.(ref)) ns 8080.
Proof.
  unfold service_endpoint, cluster_address, _service_name. rewrite !app_assoc_string. done.
Qed.

Lemma routing_data_ok ns m : json_ok (routing_data (F:=F) ns m).
Proof.
  cbn [routing_data json_ok map foldr fst snd]. repeat split;
    try (unfold dwf, dkeys; cbn; by apply (bool_decide_unpack _)).
  rewrite foldr_and, Forall_fmap. apply Forall_true. intros a. cbn. repeat split.
  unfold dwf, dkeys; cbn; by apply (bool_decide_unpack _).
Qed.

(** [data["routing.json"]] of a ConfigMap. *)
Definition routing_text (configmap : json) : option string :=
  match configmap with
  | JDict d => match dget (sub_dict d "data") "routing.json" with Some (JStr s) => Some s | _ => None end
  | _ => None
  end.

(** *** The reader's side *)

Definition jtext (j : json) : option string := match j with JStr s => Some s | _ => None end.
Definition jint (j : json) : option Z := match j with JInt n => Some n | _ => None end.
Definition jbool (j : json) : option bool := match j with JBool b => Some b | _ => None end.
Definition jnum (j : json) : option float := match j with JFloat x => Some x | _ => None end.
Definition jmap (j : json) : option (dict json) := match j with JDict d => Some d | _ => None end.
Definition jlist (j : json) : option (list json) := match j with JList l => Some l | _ => None end.

(** A member of an object, read as [f]. *)
Definition member {A} (f : json → option A) (k : string) (d : dict json) : option A :=
  dget d k ≫= f.

(** An agent of the table, with the address it is reached at. *)
Definition read_agent (j : json) : option (AgentRef * string) :=
  d ← jmap j; n ← member jtext "name" d; r ← member jtext "ref" d;
  ro ← member jtext "role" d; w ← member jint "weight" d;
  address ← member jtext "serviceEndpoint" d; Some (mkRef n r ro w, address).

Definition read_breaker (d : dict json) : option CircuitBreakerSpec :=
  e ← member jbool "enabled" d; f ← member jint "failureThreshold" d;
  t ← member jtext "recoveryTimeout" d; n ← member jint "successThreshold" d;
  Some (mkCbSpec e f t n).

Definition read_routing (d : dict json) : option RoutingSpec :=
  rp ← member jmap "retryPolicy" d;
  a ← member jint "maxAttempts" rp; b ← member jnum "backoffSeconds" rp;
  m ← member jnum "backoffMultiplier" rp; t ← member jint "timeoutSeconds" d;
  q ← member jbool "deadLetterQueue" d; Some (mkRouting (mkRetryPolicy a b m) t q).

Definition read_observability (d : dict json) : option ObservabilitySpec :=
  t ← member jbool "tracing" d; m ← member jbool "metrics" d;
  c ← member jbool "costTracking" d; l ← member jtext "logLevel" d; Some (mkObs t m c l).

(** The mesh a sidecar reads off the parsed table, with the addresses of its agents; the
    policy of a mesh is not in the table. *)
Definition read_table (j : json) : option (AgentMeshSpec * list string) :=
  d ← jmap j; topology ← member jtext "topology" d;
  l ← member jlist "agents" d; rs ← mapM read_agent l;
  cb ← member jmap "circuitBreaker" d ≫= read_breaker;
  ro ← member jmap "routing" d ≫= read_routing;
  ob ← member jmap "observability" d ≫= read_observability;
  Some (mkMeshSpec rs.*1 topology cb ob ro None, rs.*2).

(** The address a Service answers at, read off its manifest: the cluster's DNS name of its
    name and namespace, and its first port. *)
Definition service_address (service : json) : option string :=
  d ← jmap service; meta ← member jmap "metadata" d; name ← member jtext "name" meta;
  ns ← member jtext "namespace" meta; spec ← member jmap "spec" d;
  ports ← member jlist "ports" spec; p ← head ports ≫= jmap; port ← member jint "port" p;
  Some (cluster_address name ns port).

Lemma read_agents ns l :
  mapM read_agent ((λ a, JDict
      [("name", JStr a.(ref_name)); ("ref", JStr a.(ref)); ("role", JStr a.(role));
       ("weight", JInt a.(weight)); ("serviceEndpoint", JStr (service_endpoint ns a))]) <$> l) =
    Some ((λ a, (a, service_endpoint ns a)) <$> l).
Proof.
  apply mapM_Some_2, Forall2_fmap, Forall_Forall2_diag, Forall_true. by intros [].
Qed.

Lemma read_routing_data ns m :
  read_table (routing_data ns m) =
    Some (mkMeshSpec m.(agents) m.(topology) m.(circuit_breaker) m.(observability) m.(routing) None,
          service_endpoint ns <$> m.(agents)).
Proof.
  transitivity (rs ← mapM read_agent ((λ a, JDict
      [("name", JStr a.(ref_name)); ("ref", JStr a.(ref)); ("role", JStr a.(role));
       ("weight", JInt a.(weight)); ("serviceEndpoint", JStr (service_endpoint ns a))]) <$> m.(agents));
    Some (mkMeshSpec rs.*1 m.(topology) m.(circuit_breaker) m.(observability) m.(routing) None, rs.*2)).
  { destruct m as [l t [] [] [[] ? ?] ?]. reflexivity. }
  rewrite read_agents. simpl. rewrite <-!list_fmap_compose. do 3 f_equal. apply list_fmap_id.
Qed.

(** C16. What an agent reads from the ConfigMap of its mesh, at creation as after an update,
    is the mesh: its topology, its agents, its breaker, its routing and its observability,
    and for every agent the address of the very Service the agent controller creates for
    it, as that Service's manifest names it: name, namespace and port. *)
Theorem routing_config_reads_back name ns m owners :
  ∃ s j addresses, routing_text (_build_routing_configmap name ns m owners) = Some s ∧
    loads (lit s) = Some j ∧
    read_table j = Some (mkMeshSpec m.(agents) m.(topology) m.(circuit_breaker)
      m.(observability) m.(routing) None, addresses) ∧
    Forall2 (λ a address, ∀ owners',
        service_address (_build_service_manifest a.(ref) ns owners') = Some address)
      m.(agents) addresses.
Proof.
  eexists _, _, _. split; [reflexivity|]. split.
  { unfold lit. rewrite String.list_ascii_of_string_of_list_ascii.
    apply loads_dumps; [apply indented_ok|apply routing_data_ok]. }
  split; [apply read_routing_data|]. apply Forall2_fmap_r, Forall_Forall2_diag, Forall_true.
  intros a owners'. by rewrite endpoint_is_service.
Qed.
End routing_config.

(** ** Reconciliation *)
Section reconcile.
Context {F : PyFloat} {FT : FloatText F} {FP : FloatParse F}.
Context {W : Type} `{Api : !ApiServer W}.
Variable model_validate : dict json → option AgentMeshSpec.
Variable fixed4 : float → string.
Abbreviation S := (OpState F W (dict CircuitBreakerState)).
Implicit Types (s : S).

Definition phase_of (o : dict json) : string :=
  match dget (sub_dict o "status") "phase" with Some (JStr p) => p | _ => "Pending" end.

Definition running (o : dict json) : bool := bool_decide (phase_of o = "Running").
Definition failing (o : dict json) : bool :=
  bool_decide (phase_of o = "Failed" ∨ phase_of o = "Terminated").

Lemma count_agent_counts o a f c :
  (count_agent o (a, f, c)).1 =
    (a + Z.b2z (running o), f + Z.b2z (failing o))%Z.
Proof.
  unfold count_agent, running, failing, phase_of.
  destruct (decide _) as [->|Hr]; [simpl; f_equal; lia|].
  rewrite (bool_decide_eq_false_2 _ Hr). 
  destruct (decide _) as [Hf|Hf]; [rewrite bool_decide_eq_true_2 by done|rewrite bool_decide_eq_false_2 by done];
    simpl; f_equal; lia.
Qed.

(** The answers to the requests for the agents, in order. *)
Fixpoint answers (ns : string) (l : list AgentRef) (w : W) : list (option (dict json)) * W :=
  match l with
  | [] => ([], w)
  | a :: r =>
      let '(o, w) := api _ (GetAgent ns a.(ref)) w in
      let '(os, w) := answers ns r w in
      (match o with Reply o => Some o | ApiError _ => None end :: os, w)
  end.

Definition count (p : dict json → bool) (os : list (option (dict json))) : Z :=
  Z.of_nat (length (filter (λ o, p o = true) (omap id os))).

Lemma count_cons p o os : count p (Some o :: os) = (Z.b2z (p o) + count p os)%Z.
Proof.
  unfold count. cbn [omap list_omap]. csimpl. destruct (p o) eqn:E.
  - rewrite filter_cons_True by done. simpl. lia.
  - rewrite filter_cons_False by congruence. simpl. lia.
Qed.

(** The roll-up never raises: it counts the agents that answered, and only asks. *)
Lemma roll_up_counts ns l a f c s :
  let '(os, w) := answers ns l s.(cluster) in
  ∃ c' s', roll_up ns l (a, f, c) s = (Ok (a + count running os, f + count failing os, c')%Z, s') ∧
    s'.(cluster) = w ∧ s'.(memory) = s.(memory) ∧ s'.(status_patch) = s.(status_patch).
Proof.
  revert a f c s. induction l as [|r l IH]; intros a f c s.
  { simpl. exists c, s. unfold count. simpl. by rewrite !Z.add_0_r. }
  cbn [answers roll_up]. unfold bindS, try_api, call.
  destruct (api _ (GetAgent ns (ref r)) (cluster s)) as [[o|n] w] eqn:Ho.
  - destruct (count_agent o (a, f, c)) as [[a' f'] c1] eqn:Hc.
    pose proof (count_agent_counts o a f c) as Hcc. rewrite Hc in Hcc. simpl in Hcc. simplify_eq.
    specialize (IH (a + Z.b2z (running o)) (f + Z.b2z (failing o)) c1
      (mkOp w (sent s ++ [Request (GetAgent ns (ref r))]) (status_patch s) (memory s)))%Z.
    cbn [cluster] in IH. destruct (answers ns l w) as [os w'].
    destruct IH as (c' & s' & Hrun & H). exists c', s'.
    cbn [retS]. rewrite Hrun. split; [|done]. rewrite !count_cons. do 3 f_equal. f_equal; lia.
  - specialize (IH a f c
      (mkOp w (sent s ++ [Request (GetAgent ns (ref r))]) (status_patch s) (memory s)))%Z.
    cbn [cluster] in IH. destruct (answers ns l w) as [os w'].
    destruct IH as (c' & s' & Hrun & H). exists c', s'. cbn [retS]. by rewrite Hrun.
Qed.
(** A reconciliation that returns has written the phase its counts give. *)
Lemma reconcile_written name ns spec t1 t2 now s m :
  model_validate spec = Some m →
  let '(os, _) := answers ns m.(agents) s.(cluster) in
  let '(out, s') := reconcile_mesh_status model_validate fixed4 name ns spec t1 t2 now s in
  out = Ok tt →
  dget s'.(status_patch) "phase" = Some (JStr (mesh_phase (count running os) (count failing os)
    (Z.of_nat (length m.(agents))))) ∧
  dget s'.(status_patch) "activeAgents" = Some (JInt (count running os)).
Proof.
  intros Hm. unfold reconcile_mesh_status. rewrite Hm.
  pose proof (roll_up_counts ns m.(agents) 0 0 f0 s) as Hr.
  destruct (answers ns (agents m) (cluster s)) as [os w].
  destruct Hr as (c' & s1 & Hr & _). unfold bindS at 1. rewrite Hr. rewrite !Z.add_0_l.
  match goal with |- context [bindS ?x _ s1] => set (b := x) end.
  unfold bindS at 1. destruct (b s1) as [[cb|e] s2]; [|done]. intros _.
  unfold patch_status, bindS, modS. cbn [status_patch]. split.
  - rewrite !dget_set_ne by done. apply dget_set_eq.
  - rewrite !dget_set_ne by done. apply dget_set_eq.
Qed.

Lemma length_answers ns l w : length (answers ns l w).1 = length l.
Proof.
  revert w. induction l as [|a l IH]; intros w; [done|]. cbn [answers].
  destruct (api _ _ w) as [o w1]. specialize (IH w1). destruct (answers ns l w1). simpl in *. lia.
Qed.

Lemma count_full p os :
  count p os = Z.of_nat (length os) ↔ Forall (λ x, ∃ o, x = Some o ∧ p o = true) os.
Proof.
  assert (Hle : ∀ os, (count p os ≤ Z.of_nat (length os))%Z).
  { clear os. induction os as [|[o|] os IH]; [done|..].
    - rewrite count_cons. simpl length. destruct (p o); simpl; lia.
    - change (count p (None :: os)) with (count p os). simpl length. lia. }
  induction os as [|[o|] os IH]; [by split|..].
  - rewrite count_cons, Forall_cons, <-IH. simpl length. specialize (Hle os).
    rewrite Nat2Z.inj_succ. destruct (p o) eqn:E; cbn [Z.b2z].
    + split; [intros H; split; [eauto|lia]|intros [_ H]; lia].
    + split; [lia|]. intros [(o' & [= <-] & H) _]. congruence.
  - change (count p (None :: os)) with (count p os). rewrite Forall_cons.
    specialize (Hle os). simpl length. split; [lia|]. intros [(o & [=] & _) _].
Qed.

(** C15. A mesh is shown as Ready by a reconciliation that returns exactly when every agent
    it references answered and reported the phase Running; the number of active agents
    is the number of those that did. *)
Theorem ready_iff_all_running name ns spec t1 t2 now s m :
  model_validate spec = Some m →
  let '(os, _) := answers ns m.(agents) s.(cluster) in
  let '(out, s') := reconcile_mesh_status model_validate fixed4 name ns spec t1 t2 now s in
  out = Ok tt →
  (dget s'.(status_patch) "phase" = Some (JStr "Ready") ↔
    Forall (λ x, ∃ o, x = Some o ∧ running o = true) os) ∧
  dget s'.(status_patch) "activeAgents" = Some (JInt (count running os)).
Proof.
  intros Hm. pose proof (reconcile_written name ns spec t1 t2 now s m Hm) as Hw.
  pose proof (length_answers ns m.(agents) s.(cluster)) as Hl.
  destruct (answers ns (agents m) (cluster s)) as [os w]. simpl in Hl.
  destruct (reconcile_mesh_status _ _ _ _ _ _ _ _ s) as [out s']. intros Ho.
  destruct (Hw Ho) as [-> ->]. split; [|done]. rewrite <-count_full, Hl.
  unfold mesh_phase. destruct (Z.eqb_spec (count running os) (Z.of_nat (length (agents m)))); [done|].
  split; [|done]. by repeat case_match.
Qed.

(** *** What the handlers keep *)

Definition rests (cb : CircuitBreakerState) : Prop := cb.(state) = closed.
Definition all_closed (d : dict CircuitBreakerState) : Prop := Forall (λ kv, rests kv.2) d.

(** With closed breakers, any property of the cluster that the requests keep. *)
Section keeps.
Variable I : W → Prop.
Hypothesis I_stable : ∀ A (r : request A) w, I w → I (api A r w).2.

Definition calm (w : W) (_ : dict json) (b : dict CircuitBreakerState) : Prop := I w ∧ all_closed b.
Abbreviation keeps_calm m := (preserves (holds calm) m).

Lemma calm_stable A (r : request A) w p b : calm w p b → calm (api A r w).2 p b.
Proof using I_stable. intros [Hw Hb]. split; [by apply I_stable|done]. Qed.

Lemma keeps_get_or_create k c : keeps_calm (_get_or_create_circuit_breaker k c).
Proof.
  unfold _get_or_create_circuit_breaker. apply preserves_bind; [apply preserves_get|].
  intros s. case_match; [apply preserves_ret|]. apply preserves_bind; [|intros; apply preserves_ret].
  apply preserves_mod. intros s' [Hw Hs]. split; [done|]. by apply Forall_dset.
Qed.

Lemma keeps_agents name ns m : keeps_calm (patch_agents name ns m).
Proof using I_stable. apply keeps_each. intros a. apply keeps_logged, keeps_call, calm_stable. Qed.

Lemma keeps_create name ns spec uid : keeps_calm (on_mesh_create model_validate name ns spec uid).
Proof using I_stable.
  unfold on_mesh_create, validated_mesh.
  apply preserves_bind; [case_match; [apply preserves_ret|apply preserves_raise]|intros m].
  apply preserves_bind; [apply keeps_tolerate, keeps_call, calm_stable|intros _].
  apply preserves_bind; [apply keeps_agents|intros _].
  apply preserves_bind; [|intros; apply preserves_ret].
  case_match; [|apply preserves_ret].
  apply preserves_bind; [apply keeps_get_or_create|intros; apply preserves_ret].
Qed.

Lemma keeps_update name ns spec : keeps_calm (on_mesh_update model_validate name ns spec).
Proof using I_stable.
  unfold on_mesh_update, validated_mesh.
  apply preserves_bind; [case_match; [apply preserves_ret|apply preserves_raise]|intros m].
  apply preserves_bind; [|intros; apply keeps_agents].
  apply keeps_try; [apply keeps_call, calm_stable|intros n].
  case_match; [apply keeps_call, calm_stable|apply preserves_raise].
Qed.

Lemma keeps_delete name ns : keeps_calm (on_mesh_delete name ns).
Proof using I_stable.
  unfold on_mesh_delete.
  apply preserves_bind; [apply keeps_logged, keeps_call, calm_stable|intros _].
  apply preserves_mod. intros s [Hw Hs]. split; [done|]. by apply Forall_ddel.
Qed.

(** An observation without a failure leaves a closed breaker as it is. *)
Lemma observe_quiet key c t1 t2 s :
  all_closed s.(memory) →
  ∃ s', observe key c 0 t1 t2 s = (Ok closed, s') ∧ all_closed s'.(memory) ∧
    s'.(cluster) = s.(cluster).
Proof.
  intros Hs. unfold observe, bindS at 1.
  assert (Hcb : ∃ cb s1, _get_or_create_circuit_breaker key c s = (Ok cb, s1) ∧ rests cb ∧
    all_closed s1.(memory) ∧ s1.(cluster) = s.(cluster)).
  { unfold _get_or_create_circuit_breaker, bindS, getS.
    destruct (dget (memory s) key) as [cb|] eqn:E.
    - eexists _, _. split; [done|]. split; [|done]. apply dget_Some_elem in E.
      unfold all_closed in Hs. rewrite Forall_forall in Hs. exact (Hs _ E).
    - eexists _, _. split; [done|]. split; [done|]. split; [by apply Forall_dset|done]. }
  destruct Hcb as (cb & s1 & -> & Hr & Hk & Hw).
  change (0 <? 0)%Z with false. cbv iota zeta.
  assert (record_success cb = cb) as -> by (unfold record_success; by rewrite Hr).
  unfold maybe_probe. rewrite Hr. unfold bindS, set_breakers, modS, retS. simpl.
  rewrite Hr. eexists. split; [done|]. split; [|done]. simpl. by repeat apply Forall_dset.
Qed.

(** A reconciliation that finds no agent failing returns and shows the mesh closed. *)
Lemma keeps_tick name ns spec t1 t2 now s :
  (∀ m, model_validate spec = Some m →
     let '(os, w) := answers ns m.(agents) s.(cluster) in count failing os = 0%Z ∧ I w) →
  calm s.(cluster) s.(status_patch) s.(memory) →
  let '(out, s') := reconcile_mesh_status model_validate fixed4 name ns spec t1 t2 now s in
  out = Ok tt ∧ calm s'.(cluster) s'.(status_patch) s'.(memory) ∧
  (is_Some (model_validate spec) →
    dget s'.(status_patch) "circuitBreakerState" = Some (JStr "closed")).
Proof.
  intros Hc [Hw Hs]. unfold reconcile_mesh_status.
  destruct (model_validate spec) as [m|]; [|by split_and!; [| |intros [? [=]]]].
  pose proof (roll_up_counts ns m.(agents) 0 0 f0 s) as Hr. specialize (Hc m eq_refl).
  destruct (answers ns (agents m) (cluster s)) as [os w]. destruct Hc as [Hc HI].
  destruct Hr as (c' & s1 & Hr & Hcl & Hmem & _). unfold bindS at 1. rewrite Hr, Hc, Z.add_0_r.
  rewrite <-Hmem in Hs. rewrite <-Hcl in HI.
  assert (Hb : ∃ s2, (if enabled (circuit_breaker m)
      then observe (mesh_key ns name) (circuit_breaker m) 0 t1 t2 else retS closed) s1 =
      (Ok closed, s2) ∧ all_closed s2.(memory) ∧ s2.(cluster) = s1.(cluster)).
  { destruct (enabled _); [by apply observe_quiet|by eexists]. }
  destruct Hb as (s2 & Hb & Hs2 & Hc2). unfold bindS at 1. rewrite Hb.
  unfold patch_status, bindS, modS. cbn [status_patch memory cluster]. split; [done|].
  split; [split; [by rewrite Hc2|done]|]. intros _. rewrite dget_set_ne by done. apply dget_set_eq.
Qed.
End keeps.

(** A mesh updated with another breaker configuration keeps the one it was created with. *)
Lemma stale_config key c c' failed t1 t2 s cb :
  dget s.(memory) key = Some cb → cb.(config) = c →
  ∀ o s', observe key c' failed t1 t2 s = (o, s') →
    ∃ cb', dget s'.(memory) key = Some cb' ∧ cb'.(config) = c.
Proof.
  intros Hg Hc o s'. unfold observe, bindS at 1, _get_or_create_circuit_breaker.
  unfold bindS at 1, getS. rewrite Hg. unfold retS. cbv zeta.
  set (cb1 := if (0 <? failed)%Z then record_failure t1 cb else record_success cb).
  assert (Hc1 : cb1.(config) = c).
  { unfold cb1, record_failure, record_success. by repeat case_match. }
  unfold bindS at 1, set_breakers, modS. destruct (maybe_probe t2 cb1) as [[b cb2]|] eqn:Hp.
  - unfold bindS, retS. intros [= <- <-]. simpl. eexists. split; [apply dget_set_eq|].
    unfold maybe_probe in Hp. repeat case_match; by simplify_eq.
  - intros [= <- <-]. simpl. eexists. split; [apply dget_set_eq|done].
Qed.

(** An open breaker with a malformed timeout makes every later reconciliation raise, its
    status never written again. *)
Lemma bad_timeout_raises key c failed t1 t2 s cb t :
  dget s.(memory) key = Some cb → cb.(state) = open → cb.(opened_at) = Some t →
  _parse_timeout_seconds cb = None →
  ∃ s', observe key c failed t1 t2 s = (Raise (Escaped ValueError), s') ∧
    s'.(status_patch) = s.(status_patch) ∧ dget s'.(memory) key = Some cb.
Proof.
  intros Hg Hs Ht Hp. unfold observe, bindS at 1, _get_or_create_circuit_breaker.
  unfold bindS at 1, getS. rewrite Hg. unfold retS. cbv zeta.
  assert ((if (0 <? failed)%Z then record_failure t1 cb else record_success cb) = cb) as ->.
  { unfold record_failure, record_success. rewrite Hs. by case_match. }
  unfold bindS, set_breakers, modS. rewrite (bad_timeout t2 cb t) by done.
  eexists. split; [done|]. split; [done|]. apply dget_set_eq.
Qed.

(** The ConfigMap an update writes is the one of the creation without its owner. *)
Lemma update_drops_owner name ns m o :
  _build_routing_configmap name ns m [] ≠ _build_routing_configmap name ns m [o].
Proof. done. Qed.
End reconcile.

(** ** Witnesses *)
Section witnesses.
#[local] Existing Instance QF.

Definition ex_cb : CircuitBreakerSpec := mkCbSpec true 2 "30s" 2.
Definition ex_mesh : AgentMeshSpec :=
  mkMeshSpec [mkRef "x" "a" "worker" 1; mkRef "y" "b" "leader" 2] "parallel" ex_cb
    (mkObs true true true "info") (mkRouting (mkRetryPolicy 3 (fofZ 1) (fofZ 2)) 30 true) None.
Definition ex_validate (spec : dict json) : option AgentMeshSpec :=
  match spec with [] => None | _ => Some ex_mesh end.
Definition ex_fixed (x : float) : string := "0.0000".
Definition ex_mesh_state : OpState QF (dict Z) (dict CircuitBreakerState) :=
  mkOp [("agent-a", 1%Z); ("agent-b", 1%Z)] [] [] [].
Definition ex_mesh_spec : dict json := [("topology", JStr "parallel")].

Lemma opens_on_total_failures_witness :
  state (ticks [Some 1%Z; None; Some 2%Z] (new_cb ex_cb)) = open.
Proof. rewrite opens_on_total_failures; [reflexivity|reflexivity]. Defined.

(** The breaker of two failures, 40 seconds later. *)
Definition ex_half_open : CircuitBreakerState := mkCb ex_cb half_open 2 0 (Some 2%Z).

Lemma ex_half_open_reached : rtc cb_step (new_cb ex_cb) ex_half_open.
Proof.
  eapply rtc_l; [exact (step_failure 1 _)|].
  eapply rtc_l; [exact (step_failure 2 _)|].
  eapply rtc_l; [|apply rtc_refl].
  eapply (step_probe (F:=QF) 40000002 _ true). reflexivity.
Qed.

Lemma half_open_verdict_witness : state (record_failure 50000000 ex_half_open) = open.
Proof.
  exact (proj1 (half_open_verdict (F:=QF) ex_cb ex_half_open 50000000 ex_half_open_reached eq_refl)).
Defined.

Lemma routing_config_reads_back_witness :
  ∃ s j, routing_text (_build_routing_configmap "m" "n" ex_mesh []) = Some s ∧
    loads (lit s) = Some j ∧ (fst <$> read_table j) = Some ex_mesh.
Proof.
  destruct (routing_config_reads_back "m" "n" ex_mesh []) as (s & j & ads & H1 & H2 & H3 & _).
  exists s, j. split; [exact H1|]. split; [exact H2|]. by rewrite H3.
Defined.

Lemma ready_iff_all_running_witness :
  dget (reconcile_mesh_status ex_validate ex_fixed "m" "n" ex_mesh_spec 1 2 "t" ex_mesh_state).2.(status_patch)
    "phase" = Some (JStr "Ready").
Proof.
  pose proof (ready_iff_all_running ex_validate ex_fixed "m" "n" ex_mesh_spec 1 2 "t" ex_mesh_state
    ex_mesh eq_refl) as H.
  destruct (answers "n" (agents ex_mesh) (cluster ex_mesh_state)) as [os w] eqn:Ha.
  destruct (reconcile_mesh_status _ _ _ _ _ _ _ _ ex_mesh_state) as [out s'] eqn:E.
  destruct H as [H _]; [exact (f_equal fst (eq_sym E))|]. apply H.
  injection Ha as <- <-. repeat constructor; eexists; split; reflexivity.
Defined.

End witnesses.
