(* ===== verification/Cluster.v ===== *)
(** * The operator: both controllers on one cluster ([k8s/operator/controllers/])

    The handlers of [AgentController] and [MeshController] run in one process against one
    API server, and the framework writes back the status each of them fills.  A run is any
    interleaving of handler calls, of changes by anybody else, and of restarts.  The
    cluster is a parameter: what it holds of an Agent, and the framework's write of a
    status, with their documented laws. *)
From stdpp Require Import base sets relations list strings.
From Stdlib Require Import ZArith.
From S2P Require Import Prelude PyDict PyFloat Envelope Json Serializer K8s AgentController MeshController.

(** ** The cluster *)
Section cluster.
Context {F : PyFloat}.

(** The Agent of a namespace and a name, and the framework's requests that merge a status
    patch into the status of an Agent and of a mesh; a request may fail, and others may
    change the cluster meanwhile. *)
Class Cluster (W : Type) : Type := {
  agent_object : W → string → string → option (dict json);
  patch_agent : string → string → dict json → W → W;
  patch_mesh : string → string → dict json → W → W;
}.

Definition phase_field (o : dict json) : option json := dget (sub_dict o "status") "phase".

(** What the changes by anybody but the agent controller do to the phases of the Agents:
    an Agent appears without a phase, disappears, or keeps its own.  The status is a
    subresource of the resource, which a write of the object does not touch. *)
Definition phases_kept {W} `{!Cluster W} (w w' : W) : Prop :=
  ∀ ns n o', agent_object w' ns n = Some o' →
    phase_field o' = None ∨
    ∃ o, agent_object w ns n = Some o ∧ phase_field o' = phase_field o.

(** A read returns the object that is there; no other request of the controllers, and no
    status of a mesh, is a write of an Agent's status; a merge patch replaces the texts it
    names and leaves the members it does not name. *)
Class ClusterOk (W : Type) `{!ApiServer W, !Cluster W} : Prop := {
  get_returns ns n (w : W) o w' :
    api _ (GetAgent ns n) w = (Reply o, w') → agent_object w' ns n = Some o;
  requests_keep A (r : request A) (w : W) : phases_kept w (api A r w).2;
  patch_mesh_keeps ns n p (w : W) : phases_kept w (patch_mesh ns n p w);
  patch_agent_elsewhere ns n p (w : W) ns' n' o' :
    agent_object (patch_agent ns n p w) ns' n' = Some o' → (ns', n') ≠ (ns, n) →
    phase_field o' = None ∨ ∃ o, agent_object w ns' n' = Some o ∧ phase_field o' = phase_field o;
  patch_agent_named ns n p (w : W) o' t :
    agent_object (patch_agent ns n p w) ns n = Some o' → dget p "phase" = Some (JStr t) →
    phase_field o' = Some (JStr t) ∨ phases_kept w (patch_agent ns n p w);
  patch_agent_unnamed ns n p (w : W) :
    dget p "phase" = None → phases_kept w (patch_agent ns n p w);
}.
End cluster.

(** ** Its runs *)
Section operator.
Context {F : PyFloat} {FT : FloatText F} {FP : FloatParse F}.
Context {W : Type} `{Api : !ApiServer W} {CW : Cluster W}.
Variable validate_agent : dict json → option AgentSpec.
Variable validate_mesh : dict json → option AgentMeshSpec.
Variable service_account : option string.
Variable fixed4 : float → string.
Abbreviation S := (OpState F W (dict CircuitBreakerState)).
Implicit Types (s : S) (name ns : string) (spec status : dict json).

(** One call of a handler by the framework; the object it passes, however old, the uid
    and the times are its own. *)
Inductive agent_event : Type :=
  | AgentCreated name ns spec (uid : string)
  | AgentUpdated name ns spec
  | AgentDeleted name ns
  | AgentTick name ns spec status (now_iso : string).

Inductive mesh_event : Type :=
  | MeshCreated name ns spec (uid : string)
  | MeshUpdated name ns spec
  | MeshDeleted name ns
  | MeshTick name ns spec (t_fail t_probe : Z) (now_iso : string).

(** A handler, and what it returns. *)
Definition agent_handle (e : agent_event) : M S HandlerError (option (dict json)) :=
  match e with
  | AgentCreated name ns spec uid =>
      let! r := on_agent_create validate_agent service_account name ns spec uid in retS (Some r)
  | AgentUpdated name ns spec =>
      let! _ := on_agent_update validate_agent name ns spec in retS None
  | AgentDeleted name ns => let! _ := on_agent_delete name ns in retS None
  | AgentTick name ns spec status now_iso =>
      let! _ := reconcile_agent_status name ns spec status now_iso in retS None
  end.

Definition mesh_handle (e : mesh_event) : M S HandlerError (option (dict json)) :=
  match e with
  | MeshCreated name ns spec uid =>
      let! r := on_mesh_create validate_mesh name ns spec uid in retS (Some r)
  | MeshUpdated name ns spec => let! _ := on_mesh_update validate_mesh name ns spec in retS None
  | MeshDeleted name ns => let! _ := on_mesh_delete name ns in retS None
  | MeshTick name ns spec t1 t2 now_iso =>
      let! _ := reconcile_mesh_status validate_mesh fixed4 name ns spec t1 t2 now_iso in retS None
  end.

Definition agent_of (e : agent_event) : string * string :=
  match e with
  | AgentCreated name ns _ _ | AgentUpdated name ns _ | AgentDeleted name ns
  | AgentTick name ns _ _ _ => (ns, name)
  end.

Definition mesh_of (e : mesh_event) : string * string :=
  match e with
  | MeshCreated name ns _ _ | MeshUpdated name ns _ | MeshDeleted name ns
  | MeshTick name ns _ _ _ _ => (ns, name)
  end.

(** Every call starts with an empty patch. *)
Definition fresh s : S := mkOp s.(cluster) s.(sent) [] s.(memory).

(** The patch to write after a call: what the handler filled, and what it returned, which
    the framework stores under the name of the handler. *)
Definition status_of (handler : string) (r : result HandlerError (option (dict json))) s
    : dict json :=
  match r with
  | Ok (Some d) => dset s.(status_patch) handler (JDict d)
  | _ => s.(status_patch)
  end.

Definition write (f : dict json → W → W) (p : dict json) s : S :=
  mkOp (f p s.(cluster)) s.(sent) [] s.(memory).

Definition agent_turn (e : agent_event) s : S :=
  let '(r, s') := agent_handle e (fresh s) in
  let '(ns, name) := agent_of e in
  write (patch_agent ns name) (status_of "on_agent_create" r s') s'.

Definition mesh_turn (e : mesh_event) s : S :=
  let '(r, s') := mesh_handle e (fresh s) in
  let '(ns, name) := mesh_of e in
  write (patch_mesh ns name) (status_of "on_mesh_create" r s') s'.

Inductive operator_step : S → S → Prop :=
  | step_agent e s : operator_step s (agent_turn e s)
  | step_mesh e s : operator_step s (mesh_turn e s)
  | step_others w s :
      phases_kept s.(cluster) w →
      operator_step s (mkOp w s.(sent) s.(status_patch) s.(memory))
  | step_restart s : operator_step s (mkOp s.(cluster) s.(sent) s.(status_patch) []).

(** ** What the agent controller writes *)
Context {OK : ClusterOk W}.
#[local] Set Default Proof Using "Type*".

Definition phase_ok (v : option json) : Prop :=
  v = None ∨ ∃ t, v = Some (JStr t) ∧ t ∈ written_phases.

Definition phases_ok (w : W) : Prop :=
  ∀ ns n o, agent_object w ns n = Some o → phase_ok (phase_field o).

Lemma kept_ok w w' : phases_ok w → phases_kept w w' → phases_ok w'.
Proof.
  intros Hw Hk ns n o' Ho. destruct (Hk _ _ _ Ho) as [->|(o & Hn & ->)]; [by left|]. by eapply Hw.
Qed.

Lemma requests_ok A (r : request A) w : phases_ok w → phases_ok (api A r w).2.
Proof. intros Hw. eapply kept_ok; [exact Hw|]. apply requests_keep. Qed.

Lemma patch_agent_ok ns n p w :
  phases_ok w → phase_ok (dget p "phase") → phases_ok (patch_agent ns n p w).
Proof.
  intros Hw [Hp|(t & Hp & Ht)]; [eapply kept_ok; [exact Hw|by apply patch_agent_unnamed]|].
  intros ns' n' o' Ho. destruct (decide ((ns', n') = (ns, n))) as [[= -> ->]|Hne].
  - destruct (patch_agent_named _ _ _ _ _ _ Ho Hp) as [->|Hk]; [right; eauto|].
    by eapply (kept_ok _ _ Hw Hk).
  - destruct (patch_agent_elsewhere _ _ _ _ _ _ _ Ho Hne) as [->|(o & Hn & ->)]; [by left|].
    by eapply Hw.
Qed.

(** With good phases in the cluster and in the patch, and closed breakers. *)
Definition sound (w : W) (p : dict json) (b : dict CircuitBreakerState) : Prop :=
  phases_ok w ∧ phase_ok (dget p "phase") ∧ all_closed b.
Abbreviation keeps_sound m := (preserves (holds sound) m).

Lemma sound_stable A (r : request A) w p b : sound w p b → sound (api A r w).2 p b.
Proof. intros (Hw & Hp & Hb). split; [by apply requests_ok|done]. Qed.

Lemma sound_phase t w p b : t ∈ written_phases → sound w p b → sound w (dset p "phase" (JStr t)) b.
Proof. intros Ht (Hw & _ & Hb). split; [done|]. split; [|done]. rewrite dget_set_eq. right; eauto. Qed.

Lemma sound_other k v w p b : k ≠ "phase" → sound w p b → sound w (dset p k v) b.
Proof. intros Hk (Hw & Hp & Hb). split; [done|]. split; [|done]. by rewrite dget_set_ne. Qed.

Lemma create_sound name ns spec uid :
  keeps_sound (on_agent_create validate_agent service_account name ns spec uid).
Proof.
  unfold on_agent_create, validated.
  apply preserves_bind; [case_match; [apply preserves_ret|apply preserves_raise]|intros a].
  apply preserves_bind; [apply keeps_lift|intros d].
  apply preserves_bind; [apply keeps_tolerate, keeps_call, sound_stable|intros _].
  apply preserves_bind; [apply keeps_tolerate, keeps_call, sound_stable|intros _]. apply preserves_ret.
Qed.

Lemma update_sound name ns spec : keeps_sound (on_agent_update validate_agent name ns spec).
Proof.
  unfold on_agent_update, validated.
  apply preserves_bind; [case_match; [apply preserves_ret|apply preserves_raise]|intros a].
  apply preserves_bind; [apply keeps_lift|intros d]. apply keeps_tolerate, keeps_call, sound_stable.
Qed.

Lemma delete_sound name ns : keeps_sound (on_agent_delete name ns).
Proof.
  apply preserves_bind; [|intros _]; apply keeps_logged, keeps_call, sound_stable.
Qed.

Lemma budget_sound name ns spec status desired :
  keeps_sound (enforce_budget name ns spec status desired).
Proof.
  unfold enforce_budget. case_match; [|apply preserves_ret]. case_match; [|apply preserves_ret].
  apply preserves_bind; [apply keeps_lift|intros []; [|apply preserves_ret..]].
  apply preserves_bind; [apply keeps_call, sound_stable|intros _].
  apply keeps_patch. intros w p b. apply sound_phase. unfold written_phases. set_solver.
Qed.

Lemma reconcile_sound name ns spec status now :
  keeps_sound (reconcile_agent_status name ns spec status now).
Proof.
  unfold reconcile_agent_status. apply preserves_bind.
  { apply keeps_try; [|intros n; case_match; [apply preserves_ret|apply preserves_raise]].
    apply preserves_bind; [apply keeps_call, sound_stable|intros; apply preserves_ret]. }
  intros [ready|]; [|apply preserves_ret]. cbv zeta.
  apply preserves_bind; [apply keeps_patch; intros; apply sound_phase; [apply agent_phase_written|done]|intros _].
  do 2 (apply preserves_bind; [apply keeps_patch; intros; by apply sound_other|intros _]).
  apply budget_sound.
Qed.

(** ** The two halves together *)

Definition operator_ok s : Prop := phases_ok s.(cluster) ∧ all_closed s.(memory).

Lemma agent_handle_sound e : keeps_sound (agent_handle e).
Proof.
  destruct e; (apply preserves_bind; [|intros; apply preserves_ret]).
  - apply create_sound.
  - apply update_sound.
  - apply delete_sound.
  - apply reconcile_sound.
Qed.

Lemma agent_turn_ok e s : operator_ok s → operator_ok (agent_turn e s).
Proof.
  intros [Hw Hb]. unfold agent_turn.
  assert (Hf : holds sound (fresh s)) by (split; [done|split; [by left|done]]).
  pose proof (agent_handle_sound e (fresh s) Hf) as Hh.
  destruct (agent_handle e (fresh s)) as [r s'], (agent_of e) as [ns name].
  destruct Hh as (Hw' & Hp & Hb'). split; [|done]. apply patch_agent_ok; [done|].
  unfold status_of. destruct r as [[d|]|]; [|done..]. by rewrite dget_set_ne.
Qed.

(** The objects that are read show no failing phase. *)
Lemma answers_ok ns l w :
  phases_ok w → let '(os, w') := answers ns l w in count failing os = 0%Z ∧ phases_ok w'.
Proof.
  revert w. induction l as [|a l IH]; intros w Hw; [done|]. cbn [answers].
  pose proof (requests_ok _ (GetAgent ns (ref a)) w Hw) as Hw1.
  destruct (api _ (GetAgent ns (ref a)) w) as [o w1] eqn:Ho. specialize (IH w1 Hw1).
  destruct (answers ns l w1) as [os w2]. destruct IH as [IH Hw2]. split; [|done].
  destruct o as [o|n]; [|exact IH]. rewrite count_cons, IH.
  apply get_returns, Hw1 in Ho. unfold failing. rewrite bool_decide_eq_false_2; [done|].
  unfold phase_of. fold (phase_field o). destruct Ho as [->|(t & -> & Ht)]; [by intros []|].
  destruct failure_not_written. by intros [->| ->].
Qed.

Lemma mesh_handle_calm e s :
  operator_ok s → holds (calm phases_ok) (mesh_handle e (fresh s)).2.
Proof.
  intros Hs. assert (Hf : holds (calm phases_ok) (fresh s)) by done.
  destruct e as [name ns spec uid|name ns spec|name ns|name ns spec t1 t2 now]; cbn [mesh_handle];
    [refine (preserves_bind _ _ _ _ _ _ Hf); [|intros; apply preserves_ret]..|].
  - apply keeps_create, requests_ok.
  - apply keeps_update, requests_ok.
  - apply keeps_delete, requests_ok.
  - pose proof (keeps_tick validate_mesh fixed4 phases_ok name ns spec t1 t2 now (fresh s)) as H.
    unfold bindS. destruct (reconcile_mesh_status _ _ _ _ _ _ _ _ (fresh s)) as [out s'].
    destruct H as (-> & H & _); [|done..]. intros m _. apply answers_ok, Hs.
Qed.

Lemma mesh_turn_ok e s : operator_ok s → operator_ok (mesh_turn e s).
Proof.
  intros Hs. pose proof (mesh_handle_calm e s Hs) as Hh. unfold mesh_turn.
  destruct (mesh_handle e (fresh s)) as [r s'], (mesh_of e) as [ns name].
  destruct Hh as [Hw Hb]. split; [|done]. eapply kept_ok; [exact Hw|]. apply patch_mesh_keeps.
Qed.

Lemma operator_step_ok s s' : operator_step s s' → operator_ok s → operator_ok s'.
Proof.
  intros [e s0|e s0|w s0 Hk|s0] Hs.
  - by apply agent_turn_ok.
  - by apply mesh_turn_ok.
  - split; [by eapply kept_ok; [apply Hs|]|apply Hs].
  - split; [apply Hs|constructor].
Qed.

Lemma operator_reachable_ok s s' : rtc operator_step s s' → operator_ok s → operator_ok s'.
Proof. induction 1; eauto using operator_step_ok. Qed.

(** C14. The mesh breaker never opens while only the operator writes the phases of the
    Agents.  From an installation in which no Agent has a phase, through any calls of the
    handlers of both controllers, with their statuses written back, any changes by others
    that write no phase, and restarts: every breaker is closed, and the next
    reconciliation of any valid mesh returns and shows its breaker as closed, since the
    mesh controller counts an Agent as failing in two phases the agent controller never
    writes. *)
Theorem breakers_never_open s s' :
  (∀ ns n o, agent_object s.(cluster) ns n = Some o → phase_field o = None) →
  s.(memory) = [] → rtc operator_step s s' →
  all_closed s'.(memory) ∧
  ∀ name ns spec t1 t2 now, is_Some (validate_mesh spec) →
    let '(out, r) :=
      reconcile_mesh_status validate_mesh fixed4 name ns spec t1 t2 now (fresh s') in
    out = Ok tt ∧ all_closed r.(memory) ∧
    dget r.(status_patch) "circuitBreakerState" = Some (JStr "closed").
Proof.
  intros Hn Hm Hr.
  assert (Hs : operator_ok s).
  { split; [|rewrite Hm; constructor]. intros ns n o Ho. left. by eapply Hn. }
  pose proof (operator_reachable_ok s s' Hr Hs) as Hs'. split; [apply Hs'|].
  intros name ns spec t1 t2 now Hv.
  pose proof (keeps_tick validate_mesh fixed4 phases_ok name ns spec t1 t2 now (fresh s')) as H.
  destruct (reconcile_mesh_status _ _ _ _ _ _ _ _ (fresh s')) as [out r].
  destruct H as (-> & [_ H] & Hc); [intros m _; apply answers_ok, Hs'|exact Hs'|].
  split; [done|]. split; [done|]. by apply Hc.
Qed.
End operator.

(** ** Witness *)
Section witness.
#[local] Existing Instance QF.

(** The ready replicas of the deployments, and the Agents. *)
Record ExCluster : Type := mkEx {
  ex_ready : string → Z;
  ex_objects : string → string → option (dict json);
}.

(** Deployments have what they are asked for, one replica unless it is none. *)
#[local] Instance ex_cluster_api : ApiServer (F:=QF) ExCluster := λ A r w,
  match r in request A return reply A * ExCluster with
  | ReadDeployment _ n => (Reply (Some (w.(ex_ready) n)), w)
  | PatchDeployment _ n body =>
      (Reply tt, mkEx (λ m, if decide (m = n) then 0%Z else w.(ex_ready) m) w.(ex_objects))
  | GetAgent ns n =>
      (match w.(ex_objects) ns n with Some o => Reply o | None => ApiError 404 end, w)
  | CreateDeployment _ _ | DeleteDeployment _ _ | CreateService _ _ | DeleteService _ _
  | CreateConfigMap _ _ | ReplaceConfigMap _ _ _ | DeleteConfigMap _ _ => (Reply tt, w)
  end.

Definition merge_status (p o : dict json) : dict json :=
  dset o "status" (JDict (foldr (λ kv d, dset d kv.1 kv.2) (sub_dict o "status") p)).

#[local] Instance ex_cluster : Cluster (F:=QF) ExCluster := {
  agent_object w := w.(ex_objects);
  patch_agent ns n p w := mkEx w.(ex_ready) (λ ns' n',
    if decide ((ns', n') = (ns, n)) then merge_status p <$> w.(ex_objects) ns' n'
    else w.(ex_objects) ns' n');
  patch_mesh _ _ _ w := w;
}.

Lemma ex_kept_refl (w : ExCluster) : phases_kept w w.
Proof. intros ns n o' Ho. right. by exists o'. Qed.

Lemma ex_kept (w w' : ExCluster) : w'.(ex_objects) = w.(ex_objects) → phases_kept w w'.
Proof. intros E ns n o' Ho. right. exists o'. split; [|done]. simpl in *. by rewrite <-E. Qed.

Lemma phase_merged p o :
  phase_field (merge_status p o) =
    match dget p "phase" with Some v => Some v | None => phase_field o end.
Proof.
  unfold phase_field, merge_status. unfold sub_dict at 1. rewrite dget_set_eq.
  induction p as [|[k v] p IH]; [done|]. cbn [foldr fst snd dget]. rewrite dget_set, IH.
  by destruct (decide ("phase" = k)).
Qed.

#[local] Instance ex_cluster_ok : ClusterOk ExCluster.
Proof.
  split.
  - intros ns n w o w'. unfold api, ex_cluster_api. simpl.
    destruct (ex_objects w ns n) eqn:E; [|done]. by intros [= <- <-].
  - intros A r w. apply ex_kept. by destruct r.
  - intros ns n p w. apply ex_kept_refl.
  - intros ns n p w ns' n' o'. simpl. intros Ho Hne. rewrite decide_False in Ho by done. right. by exists o'.
  - intros ns n p w o' t. simpl. rewrite decide_True by done. intros Ho Hp. left.
    apply fmap_Some in Ho as (o & _ & ->). by rewrite phase_merged, Hp.
  - intros ns n p w Hp ns' n' o'. simpl. case_decide; [|right; by exists o'].
    intros (o & Ho & ->)%fmap_Some. right. exists o. split; [done|]. by rewrite phase_merged, Hp.
Qed.

Definition ex_no_agent : dict json → option AgentSpec := λ _, None.

(** Two agents that were never reconciled, and a mesh of both. *)
Definition ex_installed : OpState QF ExCluster (dict CircuitBreakerState) :=
  mkOp (mkEx (λ _, 1%Z) (λ ns n, if decide (ns = "n" ∧ n ∈ ["a"; "b"]) then Some [] else None))
    [] [] [].

Definition ex_reconciled : OpState QF ExCluster (dict CircuitBreakerState) :=
  mesh_turn ex_validate ex_fixed (MeshTick "m" "n" ex_mesh_spec 1 2 "t")
    (agent_turn ex_no_agent None (AgentTick "a" "n" ex_spec ex_status "t") ex_installed).

(** The budget is exceeded: the agent is scaled to none and shown as Suspended. *)
Example ex_suspended :
  phase_field <$> agent_object ex_reconciled.(cluster) "n" "a" = Some (Some (JStr "Suspended")) ∧
  ex_ready ex_reconciled.(cluster) "agent-a" = 0%Z ∧
  dkeys ex_reconciled.(memory) = ["n/m"].
Proof. split; [reflexivity|]. split; reflexivity. Qed.

Lemma breakers_never_open_witness : all_closed ex_reconciled.(memory).
Proof.
  refine (proj1 (breakers_never_open ex_no_agent ex_validate None ex_fixed ex_installed ex_reconciled
    _ eq_refl _)).
  - intros ns n o. simpl. case_decide; [|done]. by intros [= <-].
  - unfold ex_reconciled. eapply rtc_l; [|apply rtc_once].
    + exact (step_agent ex_no_agent ex_validate None ex_fixed (AgentTick "a" "n" ex_spec ex_status "t") _).
    + exact (step_mesh ex_no_agent ex_validate None ex_fixed (MeshTick "m" "n" ex_mesh_spec 1 2 "t") _).
Defined.
End witness.
