(* ===== verification/Plugins.v ===== *)
(** * Plugin registry ([plugins/registry.py])

    Classes by name, registered by a decorator, directly, or from the entry points of
    installed packages.  A class is a value of an arbitrary type with the test that it
    subclasses the registry's base; importing the module of an entry point may itself
    register classes, by the decorator, and an import that finishes is cached. *)
From stdpp Require Import base gmap sets relations list strings.
From Stdlib Require Import ZArith.
From S2P Require Import Prelude PyDict PySort.

Section registry.
Context {Cls : Type}.
(** [isinstance(cls, type) and issubclass(cls, self._base_class)] *)
Variable derives : Cls → bool.

Inductive PluginError : Type :=
  | PluginNotFoundError (name : string)
  | PluginAlreadyRegisteredError (name : string)
  | PluginTypeError (name : string).

Abbreviation Plugins := (dict Cls).
Implicit Types (d : Plugins) (name : string) (c : Cls).

Definition register_class name c : M Plugins PluginError unit := λ d,
  if dmem d name then (Raise (PluginAlreadyRegisteredError name), d)
  else if negb (derives c) then (Raise (PluginTypeError name), d)
  else (Ok tt, dset d name c).

(** [register(name)(cls)]: the decorator tests when it is applied. *)
Definition register name c : M Plugins PluginError Cls :=
  let! _ := register_class name c in retS c.

Definition deregister name : M Plugins PluginError unit := λ d,
  if dmem d name then (Ok tt, ddel d name) else (Raise (PluginNotFoundError name), d).

Definition get name : M Plugins PluginError Cls := λ d,
  match dget d name with Some c => (Ok c, d) | None => (Raise (PluginNotFoundError name), d) end.

Definition list_plugins d : list string := py_sort str_ltb (dkeys d).

Definition registry_contains name d : bool := dmem d name.
Definition registry_len d : nat := length d.

(** A module of the entry points: the registrations its import makes, in order, and
    whether its body then finishes. *)
Record Module : Type := mkModule {
  mod_registers : list (string * Cls);
  mod_finishes : bool;
}.
Variable modules : string → Module.

(** An entry point: its name, its module, and the object it refers to in it, [None] when
    there is none. *)
Record EntryPoint : Type := mkEntry {
  ep_name : string;
  ep_module : string;
  ep_value : option Cls;
}.

(** The registry, and the modules that are imported: an import that raises leaves none. *)
Record World : Type := mkWorld { plugins : Plugins; imported : gset string }.
Implicit Types (s : World) (ep : EntryPoint).

(** The decorators of a module's body: one that raises ends the import. *)
Fixpoint import_all (l : list (string * Cls)) : M Plugins PluginError unit :=
  match l with
  | [] => retS tt
  | (n, c) :: r => let! _ := register n c in import_all r
  end.

(** [ep.load()]; [None] when it raises. *)
Definition ep_load ep s : option Cls * World :=
  if decide (ep.(ep_module) ∈ s.(imported)) then (ep.(ep_value), s)
  else
    let m := modules ep.(ep_module) in
    match import_all m.(mod_registers) s.(plugins) with
    | (Ok _, d) =>
        if m.(mod_finishes)
        then (ep.(ep_value), mkWorld d ({[ep.(ep_module)]} ∪ s.(imported)))
        else (None, mkWorld d s.(imported))
    | (Raise _, d) => (None, mkWorld d s.(imported))
    end.

(** One turn of the loop: nothing leaves it. *)
Definition load_one s ep : World :=
  if dmem s.(plugins) ep.(ep_name) then s
  else match ep_load ep s with
       | (None, s') => s'
       | (Some c, s') => mkWorld (register_class ep.(ep_name) c s'.(plugins)).2 s'.(imported)
       end.

Definition load_entrypoints (eps : list EntryPoint) s : World := fold_left load_one eps s.

(** ** The registry's invariant *)

Definition registry_ok d : Prop := dwf d ∧ Forall (λ kv, derives kv.2 = true) d.

(** The calls of an operation on the registry alone. *)
Definition on_plugins {A} (m : M Plugins PluginError A) s : World :=
  mkWorld (m s.(plugins)).2 s.(imported).

Inductive registry_step : World → World → Prop :=
  | step_register name c s : registry_step s (on_plugins (register name c) s)
  | step_register_class name c s : registry_step s (on_plugins (register_class name c) s)
  | step_deregister name s : registry_step s (on_plugins (deregister name) s)
  | step_load eps s : registry_step s (load_entrypoints eps s).

Lemma register_class_ok name c : preserves registry_ok (register_class name c).
Proof.
  intros d [Hwf Hd]. unfold register_class. case_match; [done|].
  destruct (derives c) eqn:E; [|done]. split; [by apply dwf_set|by apply Forall_dset].
Qed.

Lemma register_keeps_ok name c : preserves registry_ok (register name c).
Proof. apply preserves_bind; [apply register_class_ok|intros; apply preserves_ret]. Qed.

Lemma import_all_ok l : preserves registry_ok (import_all l).
Proof.
  induction l as [|[n c] l IH]; [apply preserves_ret|].
  apply preserves_bind; [apply register_keeps_ok|done].
Qed.

Lemma ep_load_ok s ep : registry_ok s.(plugins) → registry_ok (ep_load ep s).2.(plugins).
Proof.
  intros Hs. unfold ep_load. case_decide; [done|].
  pose proof (import_all_ok (modules ep.(ep_module)).(mod_registers) _ Hs) as Hi.
  destruct (import_all _ _) as [[[]|] d]; [by destruct (mod_finishes _)|done].
Qed.

Lemma load_one_ok s ep : registry_ok s.(plugins) → registry_ok (load_one s ep).(plugins).
Proof.
  intros Hs. unfold load_one. case_match; [done|].
  pose proof (ep_load_ok s ep Hs) as Hl. destruct (ep_load ep s) as [[c|] s']; [|done].
  exact (register_class_ok _ _ _ Hl).
Qed.

Lemma load_ok eps s : registry_ok s.(plugins) → registry_ok (load_entrypoints eps s).(plugins).
Proof.
  unfold load_entrypoints. revert s. induction eps as [|ep eps IH]; intros s Hs; [done|].
  apply IH. by apply load_one_ok.
Qed.

Lemma deregister_keeps_ok name : preserves registry_ok (deregister name).
Proof.
  intros d [Hwf Hd]. unfold deregister. case_match; [|done].
  split; [by apply dwf_del|by apply Forall_ddel].
Qed.

Lemma registry_step_ok s s' : registry_ok s.(plugins) → registry_step s s' → registry_ok s'.(plugins).
Proof.
  intros Hs Hstep. destruct Hstep as [name c s|name c s|name s|eps s].
  - by apply register_keeps_ok.
  - by apply register_class_ok.
  - by apply deregister_keeps_ok.
  - by apply load_ok.
Qed.

(** Whatever is registered, removed or loaded, raising or not, every plugin is a
    subclass of the registry's base and the names are distinct. *)
Theorem registry_reachable_ok im s : rtc registry_step (mkWorld [] im) s → registry_ok s.(plugins).
Proof.
  assert (H : ∀ x y, rtc registry_step x y → registry_ok x.(plugins) → registry_ok y.(plugins))
    by (induction 1; eauto using registry_step_ok).
  intros Hr. apply (H _ _ Hr). split; constructor.
Qed.

(** Loading keeps what is registered. *)
Definition extends d d' : Prop := ∀ name c, dget d name = Some c → dget d' name = Some c.

Lemma extends_refl d : extends d d.
Proof. by intros name c. Qed.

Lemma extends_trans d1 d2 d3 : extends d1 d2 → extends d2 d3 → extends d1 d3.
Proof. unfold extends. auto. Qed.

Lemma register_class_extends name c d : extends d (register_class name c d).2.
Proof.
  unfold register_class. destruct (dmem d name) eqn:E; [apply extends_refl|]. case_match; [apply extends_refl|].
  intros n c' Hn. simpl. rewrite dget_set_ne; [done|]. intros ->. apply dmem_false in E. congruence.
Qed.

Lemma import_extends l d : extends d (import_all l d).2.
Proof.
  revert d. induction l as [|[n c] l IH]; intros d; [apply extends_refl|]. simpl. unfold register, bindS.
  pose proof (register_class_extends n c d) as H.
  destruct (register_class n c d) as [[[]|e] d']; simpl in *; [|done].
  eapply extends_trans; [exact H|apply IH].
Qed.

Lemma ep_load_extends s ep : extends s.(plugins) (ep_load ep s).2.(plugins).
Proof.
  unfold ep_load. case_decide; [apply extends_refl|].
  pose proof (import_extends (modules ep.(ep_module)).(mod_registers) s.(plugins)) as Hi.
  destruct (import_all _ _) as [[[]|] d]; [by destruct (mod_finishes _)|done].
Qed.

Lemma load_one_extends s ep : extends s.(plugins) (load_one s ep).(plugins).
Proof.
  unfold load_one. case_match; [apply extends_refl|].
  pose proof (ep_load_extends s ep) as Hl. destruct (ep_load ep s) as [[c|] s']; [|done].
  eapply extends_trans; [exact Hl|apply register_class_extends].
Qed.

Lemma load_extends eps s : extends s.(plugins) (load_entrypoints eps s).(plugins).
Proof.
  unfold load_entrypoints. revert s. induction eps as [|ep eps IH]; intros s; [apply extends_refl|].
  eapply extends_trans; [apply load_one_extends|apply IH].
Qed.

Lemma extends_dmem d d' name : extends d d' → dmem d name = true → dmem d' name = true.
Proof.
  rewrite !dmem_true, <-!dget_is_Some. intros H [c Hc]. exists c. by apply H.
Qed.

(** ** Loading again *)

(** The import of a module that is not imported raises before it registers anything, and
    will again: of modules that are imported it says nothing. *)
Definition blocked d (m : Module) : Prop :=
  match m.(mod_registers) with
  | [] => m.(mod_finishes) = false
  | (n, c) :: _ => dmem d n = true ∨ derives c = false
  end.

(** The object an entry point refers to is missing or no subclass. *)
Definition unloadable ep : Prop :=
  ep.(ep_value) = None ∨ ∃ c, ep.(ep_value) = Some c ∧ derives c = false.

(** What becomes of an entry point: registered, never to be, or its module raises. *)
Definition settled s ep : Prop :=
  dmem s.(plugins) ep.(ep_name) = true ∨
  (ep.(ep_module) ∈ s.(imported) ∧ unloadable ep) ∨
  ((ep.(ep_module) ∉ s.(imported)) ∧ blocked s.(plugins) (modules ep.(ep_module))).

Lemma blocked_extends d d' m : extends d d' → blocked d m → blocked d' m.
Proof.
  unfold blocked. intros He. destruct (mod_registers m) as [|[n c] l]; [done|].
  intros [H|H]; [left; by eapply extends_dmem|by right].
Qed.

Lemma register_class_dmem name c d :
  dmem (register_class name c d).2 name = true ∨ derives c = false.
Proof.
  unfold register_class. destruct (dmem d name) eqn:E; [by left|].
  destruct (derives c); [|by right]. left. apply dmem_true, elem_dkeys_set. by left.
Qed.

Lemma register_raises name c d :
  dmem d name = true ∨ derives c = false → ∃ e, register name c d = (Raise e, d).
Proof.
  unfold register, register_class, bindS. intros H.
  destruct (dmem d name); [by eexists|]. destruct H as [H|H]; [discriminate H|]. rewrite H. by eexists.
Qed.

Lemma blocked_load s ep :
  ep.(ep_module) ∉ s.(imported) → blocked s.(plugins) (modules ep.(ep_module)) →
  ep_load ep s = (None, s).
Proof.
  intros Hi Hb. unfold ep_load, blocked in *. rewrite decide_False by done.
  destruct (mod_registers _) as [|[n c] l]; simpl; [rewrite Hb|
    unfold bindS; destruct (register_raises n c _ Hb) as [e ->]]; by destruct s.
Qed.

(** An import that does not finish leaves its module blocked. *)
Lemma failed_import_blocks d m :
  (is_ok (import_all m.(mod_registers) d).1 && m.(mod_finishes)) = false →
  blocked (import_all m.(mod_registers) d).2 m.
Proof.
  unfold blocked. destruct (mod_registers m) as [|[n c] l]; [done|]. intros _.
  destruct (register_class_dmem n c d) as [H|H]; [left|by right]. simpl. unfold bindS, register.
  unfold bindS. destruct (register_class n c d) as [[[]|e] d']; simpl in *; [|done].
  eapply extends_dmem; [apply import_extends|exact H].
Qed.

Lemma settled_load_one s ep : settled s ep → load_one s ep = s.
Proof.
  unfold load_one, settled. destruct (dmem (plugins s) (ep_name ep)) eqn:E; [done|].
  intros [H|[[Hi Hu]|[Hi Hb]]]; [discriminate H| |by rewrite blocked_load].
  unfold ep_load. rewrite decide_True by done.
  destruct Hu as [->|(c & -> & Hc)]; [done|]. unfold register_class. rewrite E, Hc. by destruct s.
Qed.

(** The module of another entry point is imported, or is left as it is. *)
Lemma load_one_imported s ep m :
  m ∈ (load_one s ep).(imported) →
  m ∈ s.(imported) ∨ (m = ep.(ep_module) ∧ (ep_load ep s).1 = ep.(ep_value) ∧
    ¬ ((m ∉ s.(imported)) ∧ blocked s.(plugins) (modules m))).
Proof.
  unfold load_one. case_match; [by left|]. destruct (ep_load ep s) as [v s'] eqn:El.
  intros Hm. assert (Him : m ∈ s'.(imported)) by by destruct v.
  destruct (decide (m ∈ s.(imported))) as [|Hn]; [by left|]. right. revert El. unfold ep_load.
  case_decide as Hd; [intros [= <- <-]; done|].
  destruct (import_all _ _) as [[[]|] d] eqn:Ei; [destruct (mod_finishes _) eqn:Ef|];
    intros [= <- <-]; simpl in Him; [|done..].
  assert (m = ep_module ep) as -> by set_solver. split_and!; [done..|]. intros [_ Hb].
  pose proof (blocked_load s ep Hn Hb) as Hl. unfold ep_load in Hl.
  rewrite decide_False, Ei, Ef in Hl by done. injection Hl as _ Hs.
  apply Hn. rewrite <-Hs. simpl. set_solver.
Qed.

Lemma load_one_imports s ep : s.(imported) ⊆ (load_one s ep).(imported).
Proof.
  unfold load_one, ep_load. repeat case_match; simplify_eq/=; set_solver.
Qed.

Lemma settled_step s ep ep' : settled s ep → settled (load_one s ep') ep.
Proof.
  intros [H|[[Hi Hu]|[Hi Hb]]].
  - left. eapply extends_dmem; [apply load_one_extends|done].
  - right; left. split; [by apply load_one_imports|done].
  - right; right. split; [|by eapply blocked_extends; [apply load_one_extends|]].
    intros Hm. apply load_one_imported in Hm as [?|(_ & _ & Hn)]; [done|]. by apply Hn.
Qed.

Lemma load_one_settles s ep : settled (load_one s ep) ep.
Proof.
  unfold load_one. destruct (dmem (plugins s) (ep_name ep)) eqn:E; [by left|].
  assert (Hval : ∀ s', ep.(ep_module) ∈ s'.(imported) →
    settled (match ep.(ep_value) with
             | Some c => mkWorld (register_class ep.(ep_name) c s'.(plugins)).2 s'.(imported)
             | None => s' end) ep).
  { intros s' Hi. unfold settled, unloadable. destruct (ep_value ep) as [c|]; [|right; left; auto].
    destruct (register_class_dmem (ep_name ep) c (plugins s')) as [H|H]; [by left|].
    right; left. eauto. }
  unfold ep_load. case_decide as Hi; [specialize (Hval s Hi); by destruct (ep_value ep)|].
  pose proof (failed_import_blocks (plugins s) (modules ep.(ep_module))) as Hf.
  destruct (import_all _ _) as [[[]|] d]; [destruct (mod_finishes _)|].
  - specialize (Hval (mkWorld d ({[ep.(ep_module)]} ∪ s.(imported))) ltac:(simpl; set_solver)).
    by destruct (ep_value ep).
  - right; right. split; [done|]. by apply Hf.
  - right; right. split; [done|]. by apply Hf.
Qed.

Lemma load_settled eps s : Forall (settled s) eps → load_entrypoints eps s = s.
Proof.
  unfold load_entrypoints. induction 1 as [|ep eps Hs _ IH]; [done|]. cbn [fold_left].
  by rewrite settled_load_one.
Qed.

Lemma load_keeps_settled eps s ep : settled s ep → settled (load_entrypoints eps s) ep.
Proof.
  unfold load_entrypoints. revert s. induction eps as [|ep' eps IH]; intros s Hs; [done|].
  by apply IH, settled_step.
Qed.

Lemma load_settles eps s : Forall (settled (load_entrypoints eps s)) eps.
Proof.
  revert s. induction eps as [|ep eps IH]; intros s; constructor; [|apply IH].
  apply (load_keeps_settled eps), load_one_settles.
Qed.

(** ** Where the plugins come from *)

(** A plugin an entry point brings: its object under its name, or a class its module
    registers by the decorator. *)
Definition brought ep name c : Prop :=
  (ep.(ep_name) = name ∧ ep.(ep_value) = Some c) ∨
  (name, c) ∈ (modules ep.(ep_module)).(mod_registers).

Lemma register_class_new name c d n c' :
  dget (register_class name c d).2 n = Some c' →
  dget d n = Some c' ∨ (n = name ∧ c' = c ∧ derives c = true).
Proof.
  unfold register_class. case_match; [by left|]. destruct (derives c) eqn:E; [|by left].
  simpl. rewrite dget_set. case_decide; [|by left]. intros [= <-]. by right.
Qed.

Lemma import_new l d n c :
  dget (import_all l d).2 n = Some c → dget d n = Some c ∨ ((n, c) ∈ l ∧ derives c = true).
Proof.
  revert d. induction l as [|[n0 c0] l IH]; intros d; [by left|]. simpl. unfold register, bindS.
  pose proof (register_class_new n0 c0 d n c) as Hr. intros Hn.
  assert (Hd : dget (register_class n0 c0 d).2 n = Some c ∨ ((n, c) ∈ l ∧ derives c = true)).
  { revert Hn. destruct (register_class n0 c0 d) as [[[]|e] d']; [by apply IH|by left]. }
  destruct Hd as [Hd|[? ?]]; [|right; split; [by right|done]].
  destruct (Hr Hd) as [|(-> & -> & ?)]; [by left|]. right. split; [by left|done].
Qed.

Lemma ep_load_new s ep n c :
  dget (ep_load ep s).2.(plugins) n = Some c →
  dget s.(plugins) n = Some c ∨ (brought ep n c ∧ derives c = true).
Proof.
  unfold ep_load. case_decide; [by left|]. intros Hn.
  destruct (import_new (mod_registers (modules ep.(ep_module))) s.(plugins) n c) as [|[? ?]].
  - destruct (import_all _ _) as [[[]|] d]; [by destruct (mod_finishes _)|done].
  - by left.
  - right. split; [by right|done].
Qed.

Lemma ep_load_value s ep c : (ep_load ep s).1 = Some c → ep.(ep_value) = Some c.
Proof. unfold ep_load. by repeat case_match. Qed.

Lemma load_one_new s ep n c :
  dget (load_one s ep).(plugins) n = Some c →
  dget s.(plugins) n = Some c ∨ (brought ep n c ∧ derives c = true).
Proof.
  unfold load_one. case_match; [by left|].
  pose proof (ep_load_new s ep n c) as Hl. pose proof (ep_load_value s ep) as Hv.
  destruct (ep_load ep s) as [[c0|] s']; [|done]. intros [?|(-> & -> & ?)]%register_class_new; [auto|].
  right. split; [left; auto|done].
Qed.

Lemma load_new eps s n c :
  dget (load_entrypoints eps s).(plugins) n = Some c →
  dget s.(plugins) n = Some c ∨ (Exists (λ ep, brought ep n c) eps ∧ derives c = true).
Proof.
  unfold load_entrypoints. revert s. induction eps as [|ep eps IH]; intros s; [by left|].
  intros [H|[? ?]]%IH; [|right; auto]. apply load_one_new in H as [|[? ?]]; [by left|right; auto].
Qed.

(** What is settled is registered, or does not load a subclass of the base. *)
Lemma settled_loads s ep :
  settled s ep →
  dmem s.(plugins) ep.(ep_name) = true ∨
  ((ep_load ep s).2 = s ∧ ∀ c, (ep_load ep s).1 = Some c → derives c = false).
Proof.
  intros [H|[[Hi Hu]|[Hi Hb]]]; [by left|right..]; [|by rewrite blocked_load].
  unfold ep_load. rewrite decide_True by done. split; [done|]. simpl. intros c Hc.
  destruct Hu as [Hu|(c' & Hu & ?)]; rewrite Hu in Hc; [discriminate Hc|congruence].
Qed.

(** C25. Loading a group is idempotent and leaves out only entry points without a loadable
    subclass, whatever importing its modules registers: a second load changes neither the
    registry nor the imported modules; every plugin of before is still the same class; an
    entry point whose name is not registered afterwards is one whose [load()] raises then
    too, or gives an object that is no subclass of the base; and every plugin that is new
    is a subclass of the base that an entry point of the group refers to under that name,
    or that its module registers under it. *)
Theorem load_idempotent eps s :
  let s' := load_entrypoints eps s in
  load_entrypoints eps s' = s' ∧ extends s.(plugins) s'.(plugins) ∧
  Forall (λ ep, dmem s'.(plugins) ep.(ep_name) = true ∨
            ((ep_load ep s').2 = s' ∧
             ∀ c, (ep_load ep s').1 = Some c → derives c = false)) eps ∧
  (∀ name c, dget s'.(plugins) name = Some c →
     dget s.(plugins) name = Some c ∨
     (Exists (λ ep, brought ep name c) eps ∧ derives c = true)).
Proof.
  cbv zeta. pose proof (load_settles eps s) as Hs.
  split; [by apply load_settled|]. split; [apply load_extends|]. split; [|by apply load_new].
  eapply Forall_impl; [exact Hs|]. apply settled_loads.
Qed.
End registry.

(** ** Witness *)
Section witness.
Definition ex_derives (n : nat) : bool := bool_decide (n ≠ 0).

(** A module that registers a class by its decorator, one that raises, and empty ones. *)
Definition ex_modules (m : string) : Module (Cls:=nat) :=
  if decide (m = "decorated") then mkModule [("x", 5)] true
  else if decide (m = "broken") then mkModule [("y", 6)] false
  else mkModule [] true.

Definition ex_entries : list (EntryPoint (Cls:=nat)) :=
  [mkEntry "a" "decorated" (Some 1); mkEntry "b" "plain" (Some 0); mkEntry "a" "plain" (Some 2);
   mkEntry "c" "broken" (Some 3); mkEntry "d" "decorated" (Some 4)].

Example ex_loaded :
  plugins (load_entrypoints ex_derives ex_modules ex_entries (mkWorld [] ∅)) =
    [("x", 5); ("a", 1); ("y", 6); ("d", 4)].
Proof. reflexivity. Qed.

Lemma registry_reachable_ok_witness :
  registry_ok ex_derives (plugins (load_entrypoints ex_derives ex_modules ex_entries (mkWorld [] ∅))).
Proof. apply (registry_reachable_ok ex_derives ex_modules ∅). apply rtc_once, step_load. Defined.
End witness.
