(* ===== verification/AgentCard.v ===== *)
(** * Agent cards and their discovery endpoint ([a2a/models.py], [a2a/agent_card.py],
      [a2a/discovery.py])

    An agent card built from a configuration, with every error in the code's order, and
    the endpoint that serves it, serialized once and cached.  Third-party code is a
    parameter: pydantic's validation of a list of strings and its JSON dump, and the
    reading of a YAML file. *)
From stdpp Require Import base list sets strings.
From Stdlib Require Import ZArith Ascii.
From S2P Require Import Prelude PyDict PyFloat PySort Envelope Json Serializer.

Record AgentSkill : Type := mkSkill {
  skill_id : string;
  skill_name : string;
  skill_description : string;
  tags : list string;
  examples : list string;
}.

Record AgentCapabilities : Type := mkCapabilities {
  streaming : bool;
  push_notifications : bool;
  state_transition_history : bool;
}.

Record AgentCard : Type := mkCard {
  card_name : string;
  card_description : string;
  url : string;
  version : string;
  capabilities : AgentCapabilities;
  skills : list AgentSkill;
  default_input_modes : list string;
  default_output_modes : list string;
}.

Definition no_capabilities : AgentCapabilities := mkCapabilities false false false.

(** [AgentCardError] by its message, and pydantic's [ValidationError]. *)
Inductive CardError : Type :=
  | MissingKey (key : string)
  | NotNonEmptyString (key : string)
  | SkillNotMapping (index : nat)
  | SkillMissingKeys (index : nat) (missing : list string)
  | NoYaml | CannotRead | InvalidYaml | YamlNotMapping
  | ValidationError.

Section card.
Context {F : PyFloat} {FT : FloatText F}.
(** Pydantic's reading of a [list[str]] field, [None] when it raises. *)
Variable validate_strings : list json → option (list string).

Definition flag (raw : dict json) (k : string) : bool :=
  truthy (default (JBool false) (dget raw k)).

Definition _parse_capabilities (raw : option json) : AgentCapabilities :=
  match raw with
  | Some (JDict d) =>
      mkCapabilities (flag d "streaming") (flag d "push_notifications")
        (flag d "state_transition_history")
  | _ => no_capabilities
  end.

Definition skill_required_keys : list string := ["id"; "name"; "description"].

(** [sorted(_SKILL_REQUIRED_KEYS - skill_raw.keys())] *)
Definition missing_keys (raw : dict json) : list string :=
  py_sort str_ltb (filter (λ k, dmem raw k = false) skill_required_keys).

(** [list(raw) if isinstance(raw, list) else fallback] *)
Definition list_or (raw : option json) (fallback : list json) : list json :=
  match raw with Some (JList l) => l | _ => fallback end.

(** The strings pydantic accepts for a field. *)
Definition strings_field (l : list json) : result CardError (list string) :=
  match validate_strings l with Some ss => Ok ss | None => Raise ValidationError end.

Definition text_of (raw : dict json) (k : string) : string := py_str (default JNull (dget raw k)).

Definition parse_skill (index : nat) (raw : json) : result CardError AgentSkill :=
  match raw with
  | JDict d =>
      match missing_keys d with
      | [] =>
          let? tags := strings_field (list_or (dget d "tags") []) in
          let? examples := strings_field (list_or (dget d "examples") []) in
          Ok (mkSkill (text_of d "id") (text_of d "name") (text_of d "description") tags examples)
      | missing => Raise (SkillMissingKeys index missing)
      end
  | _ => Raise (SkillNotMapping index)
  end.

Fixpoint parse_skill_list (index : nat) (l : list json) : result CardError (list AgentSkill) :=
  match l with
  | [] => Ok []
  | raw :: r =>
      let? s := parse_skill index raw in
      let? ss := parse_skill_list (S index) r in
      Ok (s :: ss)
  end.

Definition _parse_skills (raw : option json) : result CardError (list AgentSkill) :=
  match raw with Some (JList l) => parse_skill_list 0 l | _ => Ok [] end.

Definition required_keys : list string := ["name"; "description"; "url"].

(** One turn of the first loop. *)
Definition check_key (config : dict json) (k : string) : result CardError unit :=
  match dget config k with
  | None => Raise (MissingKey k)
  | Some (JStr s) => if decide (s = "") then Raise (NotNonEmptyString k) else Ok tt
  | Some _ => Raise (NotNonEmptyString k)
  end.

Fixpoint check_keys (config : dict json) (ks : list string) : result CardError unit :=
  match ks with [] => Ok tt | k :: r => let? _ := check_key config k in check_keys config r end.

Definition from_config (config : dict json) : result CardError AgentCard :=
  let? _ := check_keys config required_keys in
  let capabilities := _parse_capabilities (dget config "capabilities") in
  let? skills := _parse_skills (dget config "skills") in
  let version := match dget config "version" with Some v => py_str v | None => "0.3" end in
  let? input_modes := strings_field (list_or (dget config "default_input_modes") [JStr "text/plain"]) in
  let? output_modes := strings_field (list_or (dget config "default_output_modes") [JStr "text/plain"]) in
  Ok (mkCard (text_of config "name") (text_of config "description") (text_of config "url")
        version capabilities skills input_modes output_modes).

(** What importing PyYAML, opening the file and parsing it gives. *)
Inductive YamlRead : Type := YamlMissing | OsError | YamlError | Loaded (raw : json).

Definition from_yaml (read : YamlRead) : result CardError AgentCard :=
  match read with
  | YamlMissing => Raise NoYaml
  | OsError => Raise CannotRead
  | YamlError => Raise InvalidYaml
  | Loaded (JDict config) => from_config config
  | Loaded _ => Raise YamlNotMapping
  end.

(** ** Reading back a card *)

(** The configuration that describes a card. *)
Definition skill_config (s : AgentSkill) : json :=
  JDict [("id", JStr s.(skill_id)); ("name", JStr s.(skill_name));
         ("description", JStr s.(skill_description));
         ("tags", JList (JStr <$> s.(tags))); ("examples", JList (JStr <$> s.(examples)))].

Definition card_config (c : AgentCard) : dict json :=
  [("name", JStr c.(card_name)); ("description", JStr c.(card_description));
   ("url", JStr c.(url)); ("version", JStr c.(version));
   ("capabilities", JDict
     [("streaming", JBool c.(capabilities).(streaming));
      ("push_notifications", JBool c.(capabilities).(push_notifications));
      ("state_transition_history", JBool c.(capabilities).(state_transition_history))]);
   ("skills", JList (skill_config <$> c.(skills)));
   ("default_input_modes", JList (JStr <$> c.(default_input_modes)));
   ("default_output_modes", JList (JStr <$> c.(default_output_modes)))].

(** A list of strings is a valid [list[str]]. *)
Definition strings_valid : Prop := ∀ l, validate_strings (JStr <$> l) = Some l.

Lemma strings_field_strs l : strings_valid → strings_field (JStr <$> l) = Ok l.
Proof. intros H. unfold strings_field. by rewrite H. Qed.

Lemma parse_skill_config i s : strings_valid → parse_skill i (skill_config s) = Ok s.
Proof.
  intros H. unfold parse_skill, skill_config.
  change (missing_keys _) with (@nil string). cbv iota.
  change (list_or (dget _ "tags") []) with (JStr (F:=F) <$> s.(tags)).
  change (list_or (dget _ "examples") []) with (JStr (F:=F) <$> s.(examples)).
  rewrite !strings_field_strs by done. simpl. by destruct s.
Qed.

Lemma parse_skill_list_config i ss :
  strings_valid → parse_skill_list i (skill_config <$> ss) = Ok ss.
Proof.
  intros H. revert i. induction ss as [|s ss IH]; intros i; [done|].
  cbn [fmap list_fmap parse_skill_list]. rewrite parse_skill_config by done. simpl.
  change (list_fmap _ _ skill_config ss) with (skill_config <$> ss). by rewrite IH.
Qed.

(** A card's configuration gives the card back: every field is read from its own key
    and no default overrides what is there. *)
Theorem from_card_config c :
  strings_valid → c.(card_name) ≠ "" → c.(card_description) ≠ "" → c.(url) ≠ "" →
  from_config (card_config c) = Ok c.
Proof.
  intros H H1 H2 H3. unfold from_config.
  assert (Hk : check_keys (card_config c) required_keys = Ok tt).
  { unfold check_keys, required_keys, check_key.
    change (dget (card_config c) "name") with (Some (JStr (F:=F) c.(card_name))).
    change (dget (card_config c) "description") with (Some (JStr (F:=F) c.(card_description))).
    change (dget (card_config c) "url") with (Some (JStr (F:=F) c.(url))).
    cbv iota. by rewrite !decide_False by done. }
  rewrite Hk. cbn [bindR]. cbv zeta.
  change (_parse_skills (dget (card_config c) "skills"))
    with (parse_skill_list 0 (skill_config <$> c.(skills))).
  rewrite parse_skill_list_config by done.
  change (list_or (dget (card_config c) "default_input_modes") [JStr "text/plain"])
    with (JStr (F:=F) <$> c.(default_input_modes)).
  change (list_or (dget (card_config c) "default_output_modes") [JStr "text/plain"])
    with (JStr (F:=F) <$> c.(default_output_modes)).
  rewrite !strings_field_strs by done. cbn [bindR].
  destruct c as [? ? ? ? [] ? ? ?]. reflexivity.
Qed.
(** ** What is accepted, and what it gives *)

(** Pydantic's documented behaviour on JSON values: a field declared [list[str]] takes the
    lists of strings as they are, and no other element. *)
Definition strict_strings : Prop :=
  ∀ l ss, validate_strings l = Some ss ↔ l = JStr <$> ss.

Lemma strict_strings_valid : strict_strings → strings_valid.
Proof. intros H l. by apply H. Qed.

(** A list holds the strings; anything else, or nothing, stands for the default. *)
Definition strings_read (raw : option json) (fallback ss : list string) : Prop :=
  match raw with Some (JList l) => l = JStr <$> ss | _ => ss = fallback end.

Definition text_read (d : dict json) (k s : string) : Prop :=
  ∃ v, dget d k = Some v ∧ s = py_str v.

Definition skill_read (raw : json) (s : AgentSkill) : Prop :=
  ∃ d, raw = JDict d ∧
    text_read d "id" s.(skill_id) ∧ text_read d "name" s.(skill_name) ∧
    text_read d "description" s.(skill_description) ∧
    strings_read (dget d "tags") [] s.(tags) ∧ strings_read (dget d "examples") [] s.(examples).

Definition flag_read (raw : option json) (k : string) (b : bool) : Prop :=
  b = true ↔ ∃ d v, raw = Some (JDict d) ∧ dget d k = Some v ∧ truthy v = true.

Definition key_read (config : dict json) (k s : string) : Prop :=
  dget config k = Some (JStr s) ∧ s ≠ "".

(** The card a configuration describes, if any. *)
Definition card_read (config : dict json) (c : AgentCard) : Prop :=
  (key_read config "name" c.(card_name) ∧ key_read config "description" c.(card_description) ∧
   key_read config "url" c.(url)) ∧
  c.(version) = match dget config "version" with Some v => py_str v | None => "0.3" end ∧
  (flag_read (dget config "capabilities") "streaming" c.(capabilities).(streaming) ∧
   flag_read (dget config "capabilities") "push_notifications"
     c.(capabilities).(push_notifications) ∧
   flag_read (dget config "capabilities") "state_transition_history"
     c.(capabilities).(state_transition_history)) ∧
  match dget config "skills" with
  | Some (JList l) => Forall2 skill_read l c.(skills)
  | _ => c.(skills) = []
  end ∧
  strings_read (dget config "default_input_modes") ["text/plain"] c.(default_input_modes) ∧
  strings_read (dget config "default_output_modes") ["text/plain"] c.(default_output_modes).

Lemma bind_Ok {E A B} (m : result E A) (k : A → result E B) b :
  bindR m k = Ok b ↔ ∃ a, m = Ok a ∧ k a = Ok b.
Proof. destruct m as [a|e]; simpl; [naive_solver|]. split; [done|]. by intros (? & [=] & _). Qed.

Lemma missing_keys_nil d : missing_keys d = [] ↔ ∀ k, k ∈ skill_required_keys → dmem d k = true.
Proof.
  unfold missing_keys. rewrite py_sort_nil. split.
  - intros H k Hk. apply not_false_iff_true. intros Hd.
    assert (Hin : k ∈ filter (λ k, dmem d k = false) skill_required_keys)
      by by apply list_elem_of_filter.
    rewrite H in Hin. by apply elem_of_nil in Hin.
  - intros H. apply filter_none. intros k Hk. by rewrite (H k Hk).
Qed.

Section strict.
Hypothesis strict : strict_strings.

Lemma strings_field_Ok raw fallback ss :
  strings_field (list_or raw (JStr <$> fallback)) = Ok ss ↔ strings_read raw fallback ss.
Proof using strict.
  assert (H : ∀ l, strings_field l = Ok ss ↔ l = JStr <$> ss).
  { intros l. rewrite <-(strict l ss). unfold strings_field. destruct (validate_strings l); naive_solver. }
  assert (Hd : strings_field (JStr <$> fallback) = Ok ss ↔ ss = fallback).
  { rewrite H. split; [|by intros ->]. intros E. symmetry.
    exact (list_fmap_eq_inj (JStr (F:=F)) (λ x y, ltac:(by intros [= ->])) _ _ E). }
  unfold list_or, strings_read. by destruct raw as [[]|].
Qed.

Lemma text_of_read d k s : dmem d k = true → text_read d k s ↔ text_of d k = s.
Proof.
  rewrite dmem_true, <-dget_is_Some. intros [v Hv]. unfold text_read, text_of. rewrite Hv. naive_solver.
Qed.

Lemma text_read_mem d k s : text_read d k s → dmem d k = true.
Proof. intros (v & Hv & _). by apply dmem_true, dget_is_Some; exists v. Qed.

Lemma parse_skill_Ok i raw s : parse_skill i raw = Ok s ↔ skill_read raw s.
Proof using strict.
  unfold parse_skill, skill_read. destruct raw as [| | | | | |d]; try (split; [done|naive_solver]).
  destruct (missing_keys d) as [|k ks] eqn:E.
  - rewrite missing_keys_nil in E. rewrite bind_Ok. setoid_rewrite bind_Ok.
    setoid_rewrite (strings_field_Ok _ []). split.
    + intros (ts & Ht & es & He & [= <-]). exists d. split; [done|]. simpl.
      rewrite !text_of_read by (apply E; set_solver). done.
    + intros (? & [= <-] & H1 & H2 & H3 & Ht & He).
      rewrite text_of_read in H1, H2, H3 by (apply E; set_solver).
      eexists. split; [exact Ht|]. eexists. split; [exact He|]. rewrite H1, H2, H3. by destruct s.
  - split; [done|]. intros (? & [= <-] & H1 & H2 & H3 & _).
    assert (H : missing_keys d = []); [|congruence]. apply missing_keys_nil. intros k' Hk'.
    unfold skill_required_keys in Hk'. repeat (apply elem_of_cons in Hk' as [->|Hk']);
      [by eapply text_read_mem..|]. by apply elem_of_nil in Hk'.
Qed.

Lemma parse_skill_list_Ok i l ss : parse_skill_list i l = Ok ss ↔ Forall2 skill_read l ss.
Proof using strict.
  revert i ss. induction l as [|raw l IH]; intros i ss; cbn [parse_skill_list].
  { split; [by intros [= <-]|by intros ->%Forall2_nil_inv_l]. }
  rewrite bind_Ok. setoid_rewrite bind_Ok. setoid_rewrite parse_skill_Ok. setoid_rewrite IH. split.
  - intros (s & ? & ss' & ? & [= <-]). by constructor.
  - intros (s & ss' & ? & ? & ->)%Forall2_cons_inv_l. eauto.
Qed.

Lemma parse_skills_Ok raw ss :
  _parse_skills raw = Ok ss ↔
  match raw with Some (JList l) => Forall2 skill_read l ss | _ => ss = [] end.
Proof using strict.
  unfold _parse_skills. destruct raw as [[]|]; try naive_solver. apply parse_skill_list_Ok.
Qed.

Lemma check_key_Ok config k : check_key config k = Ok tt ↔ ∃ s, key_read config k s.
Proof.
  unfold check_key, key_read. destruct (dget config k) as [[]|]; try naive_solver.
  case_decide; naive_solver.
Qed.

Lemma key_read_text config k s : key_read config k s → text_of config k = s.
Proof. intros [H _]. unfold text_of. by rewrite H. Qed.

Lemma check_keys_Ok config :
  check_keys config required_keys = Ok tt ↔
  key_read config "name" (text_of config "name") ∧
  key_read config "description" (text_of config "description") ∧
  key_read config "url" (text_of config "url").
Proof.
  assert (H : ∀ k, check_key config k = Ok tt ↔ key_read config k (text_of config k)).
  { intros k. rewrite check_key_Ok. split; [|by eexists]. intros [s Hs].
    by rewrite (key_read_text _ _ _ Hs). }
  rewrite <-!H. unfold check_keys, required_keys, bindR.
  destruct (check_key config "name") as [[]|], (check_key config "description") as [[]|],
    (check_key config "url") as [[]|]; naive_solver.
Qed.

Lemma flag_reads raw k :
  flag_read raw k match raw with Some (JDict d) => flag d k | _ => false end.
Proof.
  unfold flag_read, flag. destruct raw as [[| | | | | |d]|]; try naive_solver.
  destruct (dget d k) eqn:E; simpl; naive_solver.
Qed.

Lemma flag_read_inj raw k b b' : flag_read raw k b → flag_read raw k b' → b = b'.
Proof. unfold flag_read. intros H H'. destruct b, b'; naive_solver. Qed.

Lemma parse_capabilities_read raw c :
  _parse_capabilities raw = c ↔
  flag_read raw "streaming" c.(streaming) ∧ flag_read raw "push_notifications" c.(push_notifications) ∧
  flag_read raw "state_transition_history" c.(state_transition_history).
Proof.
  pose proof (flag_reads raw "streaming") as H1. pose proof (flag_reads raw "push_notifications") as H2.
  pose proof (flag_reads raw "state_transition_history") as H3.
  assert (E : _parse_capabilities raw =
    mkCapabilities match raw with Some (JDict d) => flag d "streaming" | _ => false end
      match raw with Some (JDict d) => flag d "push_notifications" | _ => false end
      match raw with Some (JDict d) => flag d "state_transition_history" | _ => false end)
    by by destruct raw as [[]|].
  rewrite E. split; [by intros <-|]. destruct c as [b1 b2 b3]. simpl. intros (B1 & B2 & B3).
  f_equal; by eapply flag_read_inj.
Qed.

(** C26. What [from_config] accepts and what it makes of it.  It gives a card exactly when
    the name, the description and the URL are non-empty strings, every entry of the skills
    is a mapping with an id, a name and a description, and the lists of tags, examples and
    modes hold strings only; the card is then the one the configuration describes: a
    value that is no list where a list is expected, and capabilities that are no mapping,
    are not errors but give the defaults. *)
Theorem from_config_ok config c : from_config config = Ok c ↔ card_read config c.
Proof using strict.
  unfold from_config, card_read. split.
  - intros ([] & Hk%check_keys_Ok & Hc)%bind_Ok. revert Hc. cbv zeta.
    intros (ss & Hss%parse_skills_Ok & (im & Him%(strings_field_Ok _ ["text/plain"]) &
      (om & Hom%(strings_field_Ok _ ["text/plain"]) & [= <-])%bind_Ok)%bind_Ok)%bind_Ok.
    cbn [card_name card_description url version capabilities skills default_input_modes
      default_output_modes]. split; [done|]. split; [done|].
    split; [by apply parse_capabilities_read|done].
  - intros ((H1 & H2 & H3) & Hv & Hc%parse_capabilities_read & Hss%parse_skills_Ok &
      Him%strings_field_Ok & Hom%strings_field_Ok).
    pose proof (key_read_text _ _ _ H1) as E1. pose proof (key_read_text _ _ _ H2) as E2.
    pose proof (key_read_text _ _ _ H3) as E3.
    assert (Hk : check_keys config required_keys = Ok tt)
      by (apply check_keys_Ok; by rewrite E1, E2, E3).
    rewrite Hk. cbn [bindR]. cbv zeta. rewrite Hss. cbn [bindR]. cbn in Him, Hom.
    rewrite Him. cbn [bindR]. rewrite Hom. cbn [bindR]. rewrite E1, E2, E3, Hc, <-Hv. by destruct c.
Qed.
End strict.
End card.

(** ** The discovery endpoint *)
Section discovery.
(** [card.model_dump_json(indent=2)] *)
Variable model_dump_json : AgentCard → string.

(** [AgentCardGenerator.to_json] *)
Definition card_to_json (c : AgentCard) : string := model_dump_json c.

(** The card is the caller's object, which the caller may still change. *)
Record DiscoveryEndpoint : Type := mkEndpoint { card : AgentCard; _cached_json : option string }.

Definition new_discovery (c : AgentCard) : DiscoveryEndpoint := mkEndpoint c None.

Definition AGENT_CARD_PATH : string := "/.well-known/agent.json".

(** [path.split("?")[0]] *)
Fixpoint strip_query (path : string) : string :=
  match path with
  | EmptyString => EmptyString
  | String c r => if decide (c = "?"%char) then EmptyString else String c (strip_query r)
  end.

Definition _get_or_build_json (e : DiscoveryEndpoint) : string * DiscoveryEndpoint :=
  match e.(_cached_json) with
  | Some s => (s, e)
  | None => let s := model_dump_json e.(card) in (s, mkEndpoint e.(card) (Some s))
  end.

(** Status, headers, body. *)
Definition handle_request (path : string) (e : DiscoveryEndpoint)
    : (Z * dict string * string) * DiscoveryEndpoint :=
  if decide (strip_query path = AGENT_CARD_PATH) then
    let '(body, e) := _get_or_build_json e in
    ((200%Z, [("Content-Type", "application/json")], body), e)
  else ((404%Z, [], ""), e).

Definition invalidate_cache (e : DiscoveryEndpoint) : DiscoveryEndpoint := mkEndpoint e.(card) None.

(** What happens to an endpoint: a request, an invalidation, a change of the card by its
    owner. *)
Inductive endpoint_op : Type :=
  | Request_ (path : string)
  | Invalidate
  | Mutate (c : AgentCard).

Definition endpoint_step (e : DiscoveryEndpoint) (o : endpoint_op) : DiscoveryEndpoint :=
  match o with
  | Request_ path => (handle_request path e).2
  | Invalidate => invalidate_cache e
  | Mutate c => mkEndpoint c e.(_cached_json)
  end.

Definition endpoint_run (os : list endpoint_op) (e : DiscoveryEndpoint) : DiscoveryEndpoint :=
  fold_left endpoint_step os e.

(** The specification, on the history alone: the card as it is, and the card as it was
    when first requested since the last invalidation. *)
Definition note_op (s : AgentCard * option AgentCard) (o : endpoint_op) : AgentCard * option AgentCard :=
  match o with
  | Request_ path =>
      if decide (strip_query path = AGENT_CARD_PATH) then (s.1, Some (default s.1 s.2)) else s
  | Invalidate => (s.1, None)
  | Mutate c => (c, s.2)
  end.

Definition snapshot (c : AgentCard) (os : list endpoint_op) : AgentCard :=
  let '(now, first) := fold_left note_op os (c, None) in default now first.

Definition represents (e : DiscoveryEndpoint) (s : AgentCard * option AgentCard) : Prop :=
  e.(card) = s.1 ∧ e.(_cached_json) = model_dump_json <$> s.2.

Lemma step_represents e s o : represents e s → represents (endpoint_step e o) (note_op s o).
Proof.
  intros [Hc Hj]. destruct s as [now first]. simpl in *. subst now.
  destruct o as [path| |c]; simpl.
  - unfold handle_request, _get_or_build_json. case_decide; [|done]. rewrite Hj.
    by destruct first.
  - done.
  - done.
Qed.

Lemma run_represents os e s : represents e s → represents (endpoint_run os e) (fold_left note_op os s).
Proof.
  revert e s. induction os as [|o os IH]; intros e s H; [done|]. apply IH. by apply step_represents.
Qed.

(** C19. The endpoint refines its contract: after any history a request for the well-known
    path, whatever its query, is answered with the card as it was at the first request
    since the last invalidation, and any other path with an empty 404. *)
Theorem serves_snapshot c os path :
  (handle_request path (endpoint_run os (new_discovery c))).1 =
    if decide (strip_query path = AGENT_CARD_PATH)
    then (200%Z, [("Content-Type", "application/json")], model_dump_json (snapshot c os))
    else (404%Z, [], "").
Proof.
  pose proof (run_represents os (new_discovery c) (c, None) (conj eq_refl eq_refl)) as [H1 H2].
  unfold handle_request, snapshot, _get_or_build_json. case_decide; [|done].
  destruct (fold_left note_op os (c, None)) as [now first]. rewrite H2. simpl in *.
  rewrite H1. by destruct first.
Qed.
End discovery.

(** ** Witnesses *)
Section witnesses.
#[local] Existing Instance QF.

Fixpoint ex_validate (l : list json) : option (list string) :=
  match l with
  | [] => Some []
  | JStr s :: r => cons s <$> ex_validate r
  | _ => None
  end.

Definition ex_card : AgentCard :=
  mkCard "Summary" "Condenses" "https://a" "0.3" (mkCapabilities true false false)
    [mkSkill "s" "S" "d" ["nlp"] []] ["text/plain"] ["text/plain"].

Lemma ex_strict : strict_strings ex_validate.
Proof.
  intros l ss. revert ss. induction l as [|v l IH]; intros ss; [by destruct ss|].
  destruct v; try (split; [done|by destruct ss]). cbn [ex_validate].
  rewrite fmap_Some. setoid_rewrite IH. destruct ss as [|s' ss]; [naive_solver|]. csimpl. naive_solver.
Qed.

Lemma from_card_config_witness : from_config ex_validate (card_config ex_card) = Ok ex_card.
Proof. apply from_card_config; [exact (strict_strings_valid _ ex_strict)|done..]. Defined.

(** Skills that are no list, capabilities that are a list, and modes that are a string. *)
Definition ex_sloppy : dict json :=
  [("name", JStr "n"); ("description", JStr "d"); ("url", JStr "u"); ("skills", JStr "none");
   ("capabilities", JList []); ("default_input_modes", JStr "text/html")].

Lemma from_config_ok_witness :
  from_config ex_validate ex_sloppy =
    Ok (mkCard "n" "d" "u" "0.3" no_capabilities [] ["text/plain"] ["text/plain"]).
Proof.
  apply (from_config_ok ex_validate ex_strict). unfold card_read, key_read. simpl.
  split; [done|]. split; [done|]. split; [|done]. unfold flag_read. naive_solver.
Defined.
End witnesses.
