(* ===== verification/AcpBridge.v ===== *)
(** * The ACP bridge ([a2a/acp_bridge.py])

    Envelopes to A2A tasks and back, artifacts to envelopes.  Fresh ids and times are
    arguments. *)
From stdpp Require Import base list strings.
From Stdlib Require Import ZArith Ascii.
From S2P Require Import Prelude PyInt PyDict PyFloat Envelope Json Serializer TaskLifecycle.

Inductive ACPBridgeError : Type := BlankSender | BlankReceiver.

Section bridge.
Context {F : PyFloat} {FT : FloatText F}.

(** The text [json.dumps(payload, separators=(",", ":"))] of a payload: a value of the
    types of a payload always has one. *)
Definition payload_text (payload : dict json) : string :=
  String.string_of_list_ascii (dumps compact (JDict payload)).

Definition message_to_part (payload : dict json) : A2AMessage :=
  let '(ty, tx) := match dget payload "text" with
    | Some (JStr t) => ("text", t)
    | _ => ("data", payload_text payload)
    end in
  mkMessage "user" [mkPart ty tx] [].

Definition envelope_to_task (e : MessageEnvelope) (task_id : string) (now : float) : A2ATask :=
  mkTask task_id (mkStatus SUBMITTED (Some (message_to_part e.(payload))) now) [] []
    [("acp_sender", JStr e.(sender)); ("acp_receiver", JStr e.(receiver));
     ("acp_trace_id", JStr e.(trace_id)); ("acp_message_id", JStr e.(message_id))].

Definition part_json (p : MessagePart) : json :=
  JDict [("type", JStr p.(part_type)); ("text", JStr p.(text))].

(** The entries the status message adds to the payload. *)
Definition message_entries (m : option A2AMessage) : dict json :=
  match m with
  | None => []
  | Some m =>
      match m.(parts) with
      | [] => []
      | p :: [] => [("text", JStr p.(text))]
      | p :: r => [("text", JStr p.(text)); ("additional_parts", JList (part_json <$> r))]
      end
  end.

(** [new_trace], [new_id] and [now] are the defaults of the new envelope. *)
Definition task_to_envelope (t : A2ATask) (sender receiver : string)
    (new_trace new_id : string) (now : float) : result ACPBridgeError MessageEnvelope :=
  if is_blank sender then Raise BlankSender
  else if is_blank receiver then Raise BlankReceiver
  else
    let state := state_value t.(status).(state) in
    let payload := [("a2a_task_id", JStr t.(id_)); ("a2a_state", JStr state)] ++
                     message_entries t.(status).(message) in
    let trace := match dget t.(task_metadata) "acp_trace_id" with
      | Some (JStr s) => s | _ => new_trace end in
    Ok (mkEnvelope sender receiver payload TASK NORMAL None trace None new_id now None None
          [("a2a_task_id", t.(id_)); ("a2a_state", state)]).

(** ["\n".join(texts)] *)
Definition join_lines (l : list string) : string :=
  String.concat (String "010" EmptyString) l.

Definition artifact_to_envelope (a : Artifact) (t : A2ATask) (sender receiver : string)
    (new_trace new_id : string) (now : float) : MessageEnvelope :=
  let texts := filter (λ s, s ≠ "") (TaskLifecycle.text <$> a.(art_parts)) in
  let combined := match texts with [] => "" | _ => join_lines texts end in
  mkEnvelope sender receiver
    [("a2a_task_id", JStr t.(id_)); ("a2a_artifact_name", JStr a.(art_name));
     ("a2a_artifact_index", JInt a.(art_index)); ("text", JStr combined)]
    TASK NORMAL None new_trace None new_id now None None
    [("a2a_task_id", t.(id_)); ("a2a_artifact_name", a.(art_name))].

(** ** What survives the bridge *)

(** The payload an A2A client can recover from a message: a data part is its JSON text, a
    text part the payload's text. *)
Definition recovered (m : A2AMessage) : option (dict json) :=
  match m.(parts) with
  | [p] =>
      if decide (p.(part_type) = "data") then
        match loads (lit p.(text)) with Some (JDict d) => Some d | _ => None end
      else Some [("text", JStr p.(text))]
  | _ => None
  end.

Lemma recovered_text d t : dget d "text" = Some (JStr t) → recovered (message_to_part d) = Some [("text", JStr t)].
Proof. intros H. unfold message_to_part. by rewrite H. Qed.

Lemma recovered_data `{FTO : !FloatTextOk F} d :
  json_ok (JDict d) → (∀ t, dget d "text" ≠ Some (JStr t)) → recovered (message_to_part d) = Some d.
Proof.
  intros Hok Hn. unfold message_to_part.
  assert (Hp : recovered (mkMessage "user" [mkPart "data" (payload_text d)] []) = Some d).
  { unfold recovered, payload_text. cbn [parts part_type TaskLifecycle.text].
    rewrite decide_True by done. unfold lit.
    rewrite String.list_ascii_of_string_of_list_ascii, loads_dumps by (done || apply compact_ok).
    done. }
  destruct (dget d "text") as [[]|] eqn:E; try exact Hp. by destruct (Hn s).
Qed.

(** C17. Across the bridge and back, the conversation and the content survive: the returned
    envelope answers with the task in its submitted state, keeps the trace of the
    original, and its text is the original's text or, for a payload without one, JSON
    from which the whole payload is read back. *)
Theorem bridge_round_trip `{FTO : !FloatTextOk F} e tid t0 snd rcv nt ni t1 :
  json_ok (JDict e.(payload)) → is_blank snd = false → is_blank rcv = false →
  ∃ e' tx, task_to_envelope (envelope_to_task e tid t0) snd rcv nt ni t1 = Ok e' ∧
    e'.(trace_id) = e.(trace_id) ∧
    e'.(payload) = [("a2a_task_id", JStr tid); ("a2a_state", JStr "submitted"); ("text", JStr tx)] ∧
    match dget e.(payload) "text" with
    | Some (JStr t) => tx = t
    | _ => loads (lit tx) = Some (JDict e.(payload))
    end.
Proof.
  intros Hok Hs Hr. unfold task_to_envelope. rewrite Hs, Hr.
  unfold envelope_to_task, message_to_part.
  assert (Hl : loads (lit (payload_text (payload e))) = Some (JDict (payload e))).
  { unfold payload_text, lit.
    by rewrite String.list_ascii_of_string_of_list_ascii, loads_dumps by (done || apply compact_ok). }
  destruct (dget (payload e) "text") as [[]|]; eexists _, _; split_and!; done.
Qed.

(** What the task was created from is in its metadata. *)
Lemma bridge_metadata e tid t0 :
  let m := (envelope_to_task e tid t0).(task_metadata) in
  dget m "acp_sender" = Some (JStr e.(sender)) ∧ dget m "acp_receiver" = Some (JStr e.(receiver)) ∧
  dget m "acp_trace_id" = Some (JStr e.(trace_id)) ∧
  dget m "acp_message_id" = Some (JStr e.(message_id)).
Proof. done. Qed.

(** A text next to other entries is all that crosses the bridge. *)
Lemma text_hides_payload d t :
  dget d "text" = Some (JStr t) → length d > 1 → recovered (message_to_part d) ≠ Some d.
Proof. intros H Hl. rewrite (recovered_text d t H). intros [= <-]. simpl in Hl. lia. Qed.
(** ** Tasks of a manager

    [TaskManager] makes its tasks from a message alone, [create_task
    (bridge.message_to_part(payload))]. *)

(** What the bridge reads of a managed task, beyond its status. *)
Definition bare (kt : string * A2ATask) : Prop := kt.2.(id_) = kt.1 ∧ kt.2.(task_metadata) = [].

Lemma task_step_bare o m : Forall bare m.(_tasks) → Forall bare (task_step o m).(_tasks).
Proof.
  intros Hm.
  assert (Hget : ∀ tid t, dget m.(_tasks) tid = Some t → bare (tid, t)).
  { intros tid t Ht. apply dget_Some_elem in Ht. by rewrite Forall_forall in Hm; apply Hm in Ht. }
  assert (Htr : ∀ tid s msg now, Forall bare (transition tid s msg now m).2.(_tasks)).
  { intros tid s msg now. unfold transition, _get_or_raise, bindS.
    destruct (dget (_tasks m) tid) as [t|] eqn:Ht; [|done]. unfold guardS.
    destruct (bool_decide _); [done|]. simpl. apply Forall_dset; [done|]. exact (Hget tid t Ht). }
  destruct o as [msg tid now|tid s msg now|tid a|tid now]; simpl; [by apply Forall_dset|apply Htr| |apply Htr].
  unfold add_artifact, _get_or_raise, bindS. destruct (dget (_tasks m) tid) as [t|] eqn:Ht; [|done].
  simpl. apply Forall_dset; [done|]. exact (Hget tid t Ht).
Qed.

Lemma managed_bare track os tid t :
  dget (task_run os (new_manager track)).(_tasks) tid = Some t → bare (tid, t).
Proof.
  intros Ht. apply dget_Some_elem in Ht.
  assert (H : ∀ m, Forall bare m.(_tasks) → Forall bare (task_run os m).(_tasks)).
  { unfold task_run. clear. induction os as [|o os IH]; intros m Hm; [done|].
    by apply IH, task_step_bare. }
  specialize (H (new_manager track) ltac:(constructor)). rewrite Forall_forall in H. by apply H.
Qed.

(** C24. The bridge over a task manager: whatever calls the manager has seen, the envelope
    made of one of its tasks names the task and its current state, and its text is the first part of the latest status message.  Its trace is
    always a new one: a task of a manager has no metadata, so the trace of the envelope
    that started the conversation is lost. *)
Theorem managed_reply track os tid t snd rcv nt ni now :
  dget (task_run os (new_manager track)).(_tasks) tid = Some t →
  is_blank snd = false → is_blank rcv = false →
  ∃ e, task_to_envelope t snd rcv nt ni now = Ok e ∧
    dget e.(payload) "a2a_task_id" = Some (JStr tid) ∧
    dget e.(payload) "a2a_state" = Some (JStr (state_value t.(status).(state))) ∧
    dget e.(payload) "text" =
      (m ← t.(status).(message); JStr <$> (TaskLifecycle.text <$> head m.(parts))) ∧
    e.(trace_id) = nt.
Proof.
  intros Ht Hs Hr. destruct (managed_bare track os tid t Ht) as [Hid Hmd]. simpl in Hid, Hmd.
  unfold task_to_envelope. rewrite Hs, Hr, Hmd. eexists. split; [reflexivity|].
  split; [simpl; by rewrite Hid|]. split; [done|]. split; [|done].
  cbn [payload]. unfold message_entries. destruct (message (status t)) as [[r ps md]|]; [|done].
  simpl. by destruct ps as [|p [|p' ps]].
Qed.
End bridge.

Section witness.
#[local] Existing Instance QF.

Lemma bridge_round_trip_witness :
  ∃ e' tx, task_to_envelope (envelope_to_task ex_env "id" (fofZ 1)) "b" "a" "x" "m2" (fofZ 2) = Ok e' ∧
    e'.(trace_id) = "t" ∧ loads (lit tx) = Some (JDict ex_env.(payload)).
Proof.
  destruct (bridge_round_trip ex_env "id" (fofZ 1) "b" "a" "x" "m2" (fofZ 2)) as (e' & tx & H1 & H2 & _ & H4);
    [exact (proj1 ex_env_ok)|reflexivity..|].
  exists e', tx. split; [exact H1|]. split; [exact H2|exact H4].
Defined.

Definition ex_ops : list task_op :=
  [Create (message_to_part ex_env.(payload)) "id" (fofZ 1); Transition "id" WORKING None (fofZ 2);
   Transition "id" COMPLETED (Some (mkMessage "agent" [mkPart "text" "done"] [])) (fofZ 3)].

Lemma managed_reply_witness :
  ∃ t e, dget (task_run ex_ops (new_manager true)).(_tasks) "id" = Some t ∧
    task_to_envelope t "b" "a" "fresh" "m2" (fofZ 4) = Ok e ∧
    dget e.(payload) "a2a_state" = Some (JStr "completed") ∧
    dget e.(payload) "text" = Some (JStr "done") ∧ e.(trace_id) = "fresh".
Proof.
  eexists. destruct (managed_reply true ex_ops "id" _ "b" "a" "fresh" "m2" (fofZ 4)
    ltac:(reflexivity) ltac:(reflexivity) ltac:(reflexivity)) as (e & H1 & _ & H2 & H3 & H4).
  exists e. split; [reflexivity|]. split; [exact H1|]. split; [exact H2|]. split; [exact H3|exact H4].
Defined.
End witness.
