(* ===== verification/Tracing.v ===== *)
(** * Tracing middleware ([middleware/tracing.py])

    A middleware enriches the envelope it is given in place, counts it and calls the next
    handler on it; middlewares stack into a chain.  The envelope is the shared object, so
    it is part of the state every handler transforms.  Fresh ids, random draws and the
    texts of times are arguments, and so is OpenTelemetry's tracer, a function on the
    call it puts a span around. *)
From stdpp Require Import base list strings.
From Stdlib Require Import ZArith.
From S2P Require Import Prelude PyDict PyFloat Envelope.

Section tracing.
Context {F : PyFloat}.

Record TracingMiddleware : Type := mkTracing {
  service_name : string;
  sample_rate : float;
  use_otel : bool;
  total_processed : Z;
}.

(** [None] is the [ValueError]; [otel_available] is [_OTEL_AVAILABLE]. *)
Definition new_tracing (otel_available : bool) (service : string) (rate : float) (otel : bool)
    : option TracingMiddleware :=
  if fbetween f0 rate f1 then Some (mkTracing service rate (otel && otel_available) 0) else None.

(** What a pass draws: [str(uuid4())], [uuid4().hex], [random()], [str(time.time())]. *)
Record Draw : Type := mkDraw { new_trace : string; span_hex : string; random : float; now_text : string }.

(** [s[:n]] *)
Definition prefix (n : nat) (s : string) : string := String.substring 0 n s.

Definition with_metadata (md : dict string) (e : MessageEnvelope) : MessageEnvelope :=
  mkEnvelope e.(sender) e.(receiver) e.(payload) e.(message_type) e.(priority) e.(topic)
    e.(trace_id) e.(parent_message_id) e.(message_id) e.(created_at) e.(ttl_seconds)
    e.(cost_budget_usd) md.

Definition with_trace (t : string) (e : MessageEnvelope) : MessageEnvelope :=
  mkEnvelope e.(sender) e.(receiver) e.(payload) e.(message_type) e.(priority) e.(topic)
    t e.(parent_message_id) e.(message_id) e.(created_at) e.(ttl_seconds)
    e.(cost_budget_usd) e.(env_metadata).

Definition _inject_trace_context (m : TracingMiddleware) (d : Draw) (e : MessageEnvelope)
    : MessageEnvelope :=
  let e := if decide (e.(trace_id) = "") then with_trace d.(new_trace) e else e in
  let span_id := prefix 16 d.(span_hex) in
  let md := e.(env_metadata) in
  let md := match dget md "span_id" with
    | Some s => if decide (s = "") then md else dset md "parent_span_id" s
    | None => md
    end in
  let md := dset md "span_id" span_id in
  let md := dset md "service_name" m.(service_name) in
  let md := dset md "sampled" (if fltb d.(random) m.(sample_rate) then "1" else "0") in
  with_metadata (dset md "trace_ingested_at" d.(now_text)) e.

Definition processed (m : TracingMiddleware) : TracingMiddleware :=
  mkTracing m.(service_name) m.(sample_rate) m.(use_otel) (m.(total_processed) + 1).

(** ** Chains *)
Context {W E : Type}.

(** The last handler: it may change the envelope and the world, and may raise. *)
Abbreviation Handler := (M (MessageEnvelope * W) E unit).

(** [start_as_current_span(name, attributes)] of a service's tracer, around a call. *)
Variable with_span : string → string → dict string → Handler → Handler.

Definition span_attributes (e : MessageEnvelope) : dict string :=
  [("messaging.system", "agent-mesh-router"); ("messaging.destination", e.(receiver));
   ("messaging.message_id", e.(message_id)); ("net.app.protocol.name", "amr")].

Definition _call_with_otel_span (m : TracingMiddleware) (next : Handler) : Handler := λ s,
  with_span m.(service_name) ("agent_mesh_router." +:+ type_value s.1.(message_type)) (span_attributes s.1) next s.

(** [__call__] of the outermost middleware of a chain: each middleware, with what it
    draws, then the handler; the middlewares as they are after the call. *)
Fixpoint call (chain : list (TracingMiddleware * Draw)) (next : Handler)
    : M (MessageEnvelope * W) E unit * list TracingMiddleware :=
  match chain with
  | [] => (next, [])
  | (m, d) :: rest =>
      let '(inner, ms) := call rest next in
      (λ s, (if m.(use_otel) then _call_with_otel_span m inner else inner)
              (_inject_trace_context m d s.1, s.2), processed m :: ms)
  end.

(** A span observes the call it surrounds: what the call raises goes on. *)
Definition spans_observe : Prop := ∀ service n attrs m s, with_span service n attrs m s = m s.

(** ** What arrives *)

(** The envelope the last handler is given. *)
Definition arrives (chain : list (TracingMiddleware * Draw)) (e : MessageEnvelope) : MessageEnvelope :=
  fold_left (λ e md, _inject_trace_context md.1 md.2 e) chain e.

Lemma call_arrives chain next s :
  spans_observe → (call chain next).1 s = next (arrives chain s.1, s.2).
Proof.
  intros Hsp. revert s. induction chain as [|[m d] chain IH]; intros [e w]; [done|]. simpl.
  specialize (IH (_inject_trace_context m d e, w)).
  destruct (call chain next) as [inner ms]. cbn [fst] in *.
  destruct (use_otel m); [unfold _call_with_otel_span; rewrite Hsp|]; exact IH.
Qed.

Lemma call_counts chain next :
  (call chain next).2 = (λ md : TracingMiddleware * Draw, processed md.1) <$> chain.
Proof.
  induction chain as [|[m d] chain IH]; [done|]. simpl. destruct (call chain next). simpl in *.
  csimpl. by rewrite IH.
Qed.

Definition span_of (d : Draw) : string := prefix 16 d.(span_hex).

Lemma inject_span m d e :
  dget (_inject_trace_context m d e).(env_metadata) "span_id" = Some (span_of d).
Proof. unfold _inject_trace_context. simpl. rewrite !dget_set_ne by done. apply dget_set_eq. Qed.

Lemma inject_service m d e :
  dget (_inject_trace_context m d e).(env_metadata) "service_name" = Some m.(service_name).
Proof. unfold _inject_trace_context. simpl. rewrite !dget_set_ne by done. apply dget_set_eq. Qed.

Lemma inject_parent m d e s :
  dget e.(env_metadata) "span_id" = Some s → s ≠ "" →
  dget (_inject_trace_context m d e).(env_metadata) "parent_span_id" = Some s.
Proof.
  intros Hs Hne. unfold _inject_trace_context. simpl. rewrite !dget_set_ne by done.
  assert ((if decide (trace_id e = "") then with_trace (new_trace d) e else e).(env_metadata) =
    e.(env_metadata)) as -> by by case_decide.
  rewrite Hs, decide_False by done. apply dget_set_eq.
Qed.

Lemma inject_trace m d e :
  (_inject_trace_context m d e).(trace_id) =
    if decide (e.(trace_id) = "") then d.(new_trace) else e.(trace_id).
Proof. unfold _inject_trace_context. simpl. by case_decide. Qed.

Lemma arrives_trace chain e : e.(trace_id) ≠ "" → (arrives chain e).(trace_id) = e.(trace_id).
Proof.
  unfold arrives. revert e. induction chain as [|[m d] chain IH]; intros e He; [done|]. simpl.
  rewrite IH; rewrite inject_trace, decide_False; done.
Qed.

Lemma arrives_first m d chain e :
  d.(new_trace) ≠ "" →
  (arrives ((m, d) :: chain) e).(trace_id) =
    if decide (e.(trace_id) = "") then d.(new_trace) else e.(trace_id).
Proof.
  intros Hd. unfold arrives. cbn [fold_left fst snd].
  fold (arrives chain (_inject_trace_context m d e)).
  rewrite arrives_trace; rewrite inject_trace; by case_decide.
Qed.

(** Trace context through a chain: the last handler is called once, on an envelope
    whose span is the last middleware's, whose parent span is that of the middleware
    before it, and whose trace is the one it came with, or the outermost middleware's when
    it had none; and every middleware of the chain has counted the envelope, whether or
    not the handler raises. *)
Theorem chain_context m d chain m1 d1 m2 d2 next e w :
  let full := (m, d) :: chain ++ [(m1, d1); (m2, d2)] in
  spans_observe → d.(new_trace) ≠ "" → span_of d1 ≠ "" →
  ∃ e', (call full next).1 (e, w) = next (e', w) ∧
    dget e'.(env_metadata) "span_id" = Some (span_of d2) ∧
    dget e'.(env_metadata) "parent_span_id" = Some (span_of d1) ∧
    dget e'.(env_metadata) "service_name" = Some m2.(service_name) ∧
    e'.(trace_id) = (if decide (e.(trace_id) = "") then d.(new_trace) else e.(trace_id)) ∧
    (call full next).2 = (λ md : TracingMiddleware * Draw, processed md.1) <$> full.
Proof.
  intros full Hsp Ht Hs. exists (arrives full e).
  assert (Hlast : ∃ e0, arrives full e = _inject_trace_context m2 d2 (_inject_trace_context m1 d1 e0)).
  { unfold arrives, full. rewrite app_comm_cons, fold_left_app. by eexists. }
  split; [by apply (call_arrives full next (e, w))|].
  split_and!; [| | |by apply arrives_first|apply call_counts]; destruct Hlast as [e0 ->].
  - apply inject_span.
  - exact (inject_parent m2 d2 _ _ (inject_span m1 d1 e0) Hs).
  - apply inject_service.
Qed.
End tracing.

Section witness.
#[local] Existing Instance QF.

Definition ex_traced : MessageEnvelope :=
  mkEnvelope "a" "b" [] TASK NORMAL None "" None "m" f0 None None [].
Definition ex_pass (s : string) : TracingMiddleware * Draw :=
  (mkTracing s f1 true 0, mkDraw "trace" s f0 "1.0").
Definition ex_next : M (MessageEnvelope * nat) unit unit := λ s, (Raise tt, (s.1, S s.2)).

Definition ex_span (_ _ : string) (_ : dict string) (m : M (MessageEnvelope * nat) unit unit)
    : M (MessageEnvelope * nat) unit unit := m.

Lemma chain_context_witness :
  (call ex_span [ex_pass "x"; ex_pass "y"; ex_pass "z"] ex_next).2 =
    [processed (ex_pass "x").1; processed (ex_pass "y").1; processed (ex_pass "z").1] ∧
  dget ((call ex_span [ex_pass "x"; ex_pass "y"; ex_pass "z"] ex_next).1 (ex_traced, 0)).2.1.(env_metadata)
    "parent_span_id" = Some "y".
Proof.
  destruct (chain_context ex_span (ex_pass "x").1 (ex_pass "x").2 [] (ex_pass "y").1 (ex_pass "y").2
    (ex_pass "z").1 (ex_pass "z").2 ex_next ex_traced 0
    ltac:(done) ltac:(done) ltac:(done))
    as (e' & Hc & _ & Hp & _ & _ & Hn).
  split; [exact Hn|].
  change ([ex_pass "x"; ex_pass "y"; ex_pass "z"]) with
    (((ex_pass "x").1, (ex_pass "x").2) :: [] ++ [((ex_pass "y").1, (ex_pass "y").2); ((ex_pass "z").1, (ex_pass "z").2)]).
  rewrite Hc. exact Hp.
Defined.
End witness.
