(* ===== verification/Transports.v ===== *)
(** * Transports ([adapters/http.py], [adapters/redis_adapter.py],
      [adapters/kafka_adapter.py])

    The three transports over their clients, which are third-party: the answer to a POST,
    a PUBLISH or a produce request, and what it does to the world, are parameters.  What
    was handed to the client is recorded in order, and the seconds slept.  The gRPC
    adapter is an abstract class without behaviour. *)
From stdpp Require Import base relations list strings.
From Stdlib Require Import ZArith Ascii Lia.
From S2P Require Import Prelude PyDict PyFloat Envelope Json Serializer.

Section http.
Context {F : PyFloat} {FT : FloatText F}.

Record HttpTransport : Type := mkHttp {
  base_url : string;
  max_retries : Z;
  timeout_seconds : float;
  backoff_base : float;
  extra_headers : dict string;
  total_sent : Z;
  total_failed : Z;
}.

Inductive HttpConfigError : Type := NoHttpx | BadRetries | BadTimeout.

(** [s.rstrip("/")] *)
Fixpoint rstrip_slash (s : string) : string :=
  match s with
  | EmptyString => EmptyString
  | String c r =>
      match rstrip_slash r with
      | EmptyString => if decide (c = "/"%char) then EmptyString else String c EmptyString
      | r' => String c r'
      end
  end.

Definition new_http (httpx_available : bool) (url : string) (retries : Z) (timeout base : float)
    (headers : dict string) : result HttpConfigError HttpTransport :=
  if negb httpx_available then Raise NoHttpx
  else if (retries <? 0)%Z then Raise BadRetries
  else if fleb timeout f0 then Raise BadTimeout
  else Ok (mkHttp (rstrip_slash url) retries timeout base headers 0 0).

(** An [httpx.Response]: [parsed] is [response.json()], [None] when it raises. *)
Record Response : Type := mkResponse {
  status_code : Z;
  is_success : bool;
  parsed : option json;
  body_text : string;
}.

Record Post : Type := mkPost { post_url : string; post_body : text; post_headers : dict string }.

Context {W : Type}.
(** One POST; [None] when the client raises. *)
Variable client_post : Post → W → option Response * W.

Record HttpState : Type := mkHttpState {
  transport : HttpTransport;
  net : W;
  posted : list Post;
  slept : list float;
}.

Inductive HttpError : Type :=
  | PermanentHttp (status : Z)     (* HttpTransportError *)
  | Undelivered                    (* HttpTransportError *)
  | BackoffOverflow.               (* OverflowError *)

(** [min(base * 2 ** (attempt - 1), 30.0)], [None] when the power is beyond any float. *)
Definition backoff (h : HttpTransport) (attempt : Z) : option float :=
  let p := fofZ (2 ^ (attempt - 1)) in
  match ftrunc p with
  | Some _ => Some (fmin (fmul h.(backoff_base) p) (fofZ 30))
  | None => None
  end.

Definition count_sent (h : HttpTransport) : HttpTransport :=
  mkHttp h.(base_url) h.(max_retries) h.(timeout_seconds) h.(backoff_base) h.(extra_headers)
    (h.(total_sent) + 1) h.(total_failed).

Definition count_failed (h : HttpTransport) : HttpTransport :=
  mkHttp h.(base_url) h.(max_retries) h.(timeout_seconds) h.(backoff_base) h.(extra_headers)
    h.(total_sent) (h.(total_failed) + 1).

Definition with_transport (f : HttpTransport → HttpTransport) (s : HttpState) : HttpState :=
  mkHttpState (f s.(transport)) s.(net) s.(posted) s.(slept).

(** The response's body, or its status and the start of its text. *)
Definition response_body (r : Response) : json :=
  match r.(parsed) with
  | Some j => j
  | None => JDict [("status_code", JInt r.(status_code));
                   ("raw_body", JStr (String.substring 0 500 r.(body_text)))]
  end.

Definition the_post (h : HttpTransport) (e : MessageEnvelope) : Post :=
  mkPost (h.(base_url) +:+ "/messages") (to_json e)
    (dupdate [("Content-Type", "application/json"); ("X-Trace-Id", e.(trace_id));
              ("X-Message-Id", e.(message_id))] h.(extra_headers)).

(** The attempts that are left, from the given one. *)
Fixpoint send_attempts (left : nat) (attempt : Z) (p : Post) : M HttpState HttpError json := λ s,
  match left with
  | O => (Raise Undelivered, with_transport count_failed s)
  | S left' =>
      match (if (0 <? attempt)%Z then backoff s.(transport) attempt else Some f0) with
      | None => (Raise BackoffOverflow, s)
      | Some b =>
          let slept := if (0 <? attempt)%Z then s.(slept) ++ [b] else s.(slept) in
          let '(r, w) := client_post p s.(net) in
          let s := mkHttpState s.(transport) w (s.(posted) ++ [p]) slept in
          match r with
          | None => send_attempts left' (attempt + 1) p s
          | Some r =>
              if r.(is_success) then (Ok (response_body r), with_transport count_sent s)
              else if ((400 <=? r.(status_code)) && (r.(status_code) <? 500))%Z
              then (Raise (PermanentHttp r.(status_code)), with_transport count_failed s)
              else send_attempts left' (attempt + 1) p s
          end
      end
  end.

Definition send (e : MessageEnvelope) : M HttpState HttpError json := λ s,
  send_attempts (Z.to_nat (s.(transport).(max_retries) + 1)) 0 (the_post s.(transport) e) s.

(** ** What a send amounts to *)

(** The client's answers to [n] posts in a row. *)
Fixpoint replies (n : nat) (p : Post) (w : W) : list (option Response) :=
  match n with
  | O => []
  | S n' => let '(r, w') := client_post p w in r :: replies n' p w'
  end.

(** What an answer decides: a success and a 4xx do. *)
Definition conclusive (r : option Response) : option (result HttpError json) :=
  match r with
  | None => None
  | Some r =>
      if r.(is_success) then Some (Ok (response_body r))
      else if ((400 <=? r.(status_code)) && (r.(status_code) <? 500))%Z
      then Some (Raise (PermanentHttp r.(status_code)))
      else None
  end.

Fixpoint verdict (l : list (option Response)) : result HttpError json :=
  match l with
  | [] => Raise Undelivered
  | r :: rest => match conclusive r with Some v => v | None => verdict rest end
  end.

(** The posts made: up to the first answer that decides. *)
Fixpoint tries (l : list (option Response)) : nat :=
  match l with
  | [] => 0
  | r :: rest => match conclusive r with Some _ => 1 | None => S (tries rest) end
  end.

Lemma verdict_not_overflow l : verdict l ≠ Raise BackoffOverflow.
Proof.
  induction l as [|r l IH]; [done|]. simpl. unfold conclusive. destruct r as [r|]; [|exact IH].
  repeat case_match; simplify_eq; done || exact IH.
Qed.

Definition counted (v : result HttpError json) (h : HttpTransport) : HttpTransport :=
  if is_ok v then count_sent h else count_failed h.

(** The seconds slept before the attempts from [attempt], [n] of them. *)
Definition sleeps (h : HttpTransport) (attempt : Z) (n : nat) : list float :=
  omap (λ i, if (0 <? attempt + Z.of_nat i)%Z then backoff h (attempt + Z.of_nat i) else None) (seq 0 n).

(** *** [send_many]: the sends overlap

    Each send runs from one of its sleeps to the next, or to its end, on the shared
    transport; a POST takes effect when its answer arrives.  [order] is the order in which
    the event loop resumes the sends. *)

(** Before its attempt [n], or finished. *)
Inductive sender : Type :=
  | Attempt (n : Z)
  | Finished (out : result HttpError json).

(** The head of the loop: the attempts are over, or the backoff is slept. *)
Definition begin_attempt (a : Z) (s : HttpState) : sender * HttpState :=
  if (s.(transport).(max_retries) <? a)%Z
  then (Finished (Raise Undelivered), with_transport count_failed s)
  else if (0 <? a)%Z then
    match backoff s.(transport) a with
    | None => (Finished (Raise BackoffOverflow), s)
    | Some b => (Attempt a, mkHttpState s.(transport) s.(net) s.(posted) (s.(slept) ++ [b]))
    end
  else (Attempt a, s).

Definition resume (e : MessageEnvelope) (x : sender) (s : HttpState) : sender * HttpState :=
  match x with
  | Finished _ => (x, s)
  | Attempt a =>
      let p := the_post s.(transport) e in
      let '(r, w) := client_post p s.(net) in
      let s := mkHttpState s.(transport) w (s.(posted) ++ [p]) s.(slept) in
      match conclusive r with
      | Some v => (Finished v, with_transport (counted v) s)
      | None => begin_attempt (a + 1) s
      end
  end.

(** The loop runs the send of index [i]. *)
Definition resume_nth (es : list MessageEnvelope) (g : list sender * HttpState) (i : nat)
    : list sender * HttpState :=
  match es !! i, g.1 !! i with
  | Some e, Some x => let '(x', s) := resume e x g.2 in (<[i := x']> g.1, s)
  | _, _ => g
  end.

(** Each send enters its loop; then they are resumed in the given order. *)
Fixpoint begin_all (es : list MessageEnvelope) (s : HttpState) : list sender * HttpState :=
  match es with
  | [] => ([], s)
  | _ :: r =>
      let '(x, s) := begin_attempt 0 s in
      let '(xs, s) := begin_all r s in (x :: xs, s)
  end.

Definition gather_sends (es : list MessageEnvelope) (order : list nat) (s : HttpState)
    : list sender * HttpState :=
  fold_left (resume_nth es) order (begin_all es s).

(** [_safe_send]: what a send is answered with; [error_text] is [str(exc)]. *)
Definition safe_send (error_text : HttpError → string) (e : MessageEnvelope)
    (out : result HttpError json) : json :=
  match out with
  | Ok j => j
  | Raise x => JDict [("error", JStr (error_text x)); ("message_id", JStr e.(message_id))]
  end.

Definition finished (x : sender) : option (result HttpError json) :=
  match x with Attempt _ => None | Finished out => Some out end.

(** [None]: some send is still under way. *)
Definition send_many (error_text : HttpError → string) (es : list MessageEnvelope)
    (order : list nat) (s : HttpState) : option (list json) * HttpState :=
  let '(xs, s) := gather_sends es order s in
  (zip_with (safe_send error_text) es <$> mapM finished xs, s).

Lemma omap_seq_S {A} (f : nat → option A) k n : omap f (seq (S k) n) = omap (λ i, f (S i)) (seq k n).
Proof. revert k. induction n as [|n IH]; intros k; [done|]. cbn [seq]. csimpl. by rewrite IH. Qed.

Lemma sleeps_S h a n :
  sleeps h a (S n) = (match (if (0 <? a)%Z then backoff h a else None) with Some b => [b] | None => [] end)
    ++ sleeps h (a + 1) n.
Proof.
  unfold sleeps. cbn [seq]. csimpl. rewrite Z.add_0_r.
  assert (Hs : omap (λ i, if (0 <? a + Z.of_nat i)%Z then backoff h (a + Z.of_nat i) else None) (seq 1 n) =
    omap (λ i, if (0 <? a + 1 + Z.of_nat i)%Z then backoff h (a + 1 + Z.of_nat i) else None) (seq 0 n)).
  { rewrite omap_seq_S. apply omap_ext_in. intros i _. simpl.
    by replace (a + Z.of_nat (S i))%Z with (a + 1 + Z.of_nat i)%Z by lia. }
  destruct (if (0 <? a)%Z then backoff h a else None); simpl; by rewrite Hs.
Qed.

(** The backoffs of a transport are floats. *)
Definition backoffs_finite (h : HttpTransport) : Prop :=
  ∀ a, (0 < a ≤ h.(max_retries))%Z → is_Some (backoff h a).

Lemma attempts_spec n a p s :
  (0 ≤ a)%Z → (∀ i, (a ≤ i < a + Z.of_nat n)%Z → (0 < i)%Z → is_Some (backoff s.(transport) i)) →
  let l := replies n p s.(net) in
  let '(out, s') := send_attempts n a p s in
  out = verdict l ∧ s'.(transport) = counted (verdict l) s.(transport) ∧
  s'.(posted) = s.(posted) ++ repeat p (tries l) ∧
  s'.(slept) = s.(slept) ++ sleeps s.(transport) a (tries l).
Proof.
  revert a s. induction n as [|n IH]; intros a s Ha Hb; cbn [replies send_attempts tries verdict].
  { cbv zeta. unfold sleeps. simpl. by rewrite !app_nil_r. }
  assert (Hback : ∃ b, (if (0 <? a)%Z then backoff (transport s) a else Some f0) = Some b ∧
    (if (0 <? a)%Z then slept s ++ [b] else slept s) =
      slept s ++ match (if (0 <? a)%Z then backoff (transport s) a else None) with
                 | Some b => [b] | None => [] end).
  { destruct (Z.ltb_spec 0 a) as [Hlt|Hle].
    - destruct (Hb a) as [b Hb']; [lia|done|]. rewrite Hb'. by exists b.
    - eexists. split; [done|]. by rewrite app_nil_r. }
  destruct Hback as (b & Hbk & Hsl). rewrite Hbk, Hsl.
  destruct (client_post p (net s)) as [r w] eqn:Hr. cbv zeta.
  set (s1 := mkHttpState _ w _ _).
  assert (Hcont :
    let '(out, s') := send_attempts n (a + 1) p s1 in
    out = verdict (replies n p w) ∧
    s'.(transport) = counted (verdict (replies n p w)) s.(transport) ∧
    s'.(posted) = s.(posted) ++ repeat p (S (tries (replies n p w))) ∧
    s'.(slept) = s.(slept) ++ sleeps s.(transport) a (S (tries (replies n p w)))).
  { specialize (IH (a + 1)%Z s1 ltac:(lia)). cbv zeta in IH.
    destruct (send_attempts n (a + 1) p s1) as [out s'].
    destruct IH as (-> & -> & -> & ->).
    { intros i Hi Hpos. apply Hb; lia. }
    split; [done|]. split; [done|]. rewrite sleeps_S. unfold s1. simpl.
    by rewrite <-!(assoc_L (++)). }
  destruct r as [r|]; [|exact Hcont]. cbn [verdict tries]. unfold conclusive.
  destruct (is_success r); [|destruct ((400 <=? status_code r) && (status_code r <? 500))%Z; [|exact Hcont]];
    (split; [done|]; split; [done|]; rewrite sleeps_S; unfold s1, sleeps; simpl; by rewrite !app_nil_r).
Qed.

(** C18. A send posts the same request until an answer decides or [max_retries + 1] posts
    are made, sleeping its backoff before each repetition: it returns the first
    success's body, fails at the first 4xx, else fails at the end; and it counts as exactly one
    message, sent or failed. *)
Theorem send_spec e s :
  (0 ≤ s.(transport).(max_retries))%Z → backoffs_finite s.(transport) →
  let p := the_post s.(transport) e in
  let l := replies (Z.to_nat (s.(transport).(max_retries) + 1)) p s.(net) in
  let '(out, s') := send e s in
  out = verdict l ∧
  s'.(posted) = s.(posted) ++ repeat p (tries l) ∧
  s'.(slept) = s.(slept) ++ sleeps s.(transport) 0 (tries l) ∧
  s'.(transport).(total_sent) = (s.(transport).(total_sent) + if is_ok out then 1 else 0)%Z ∧
  s'.(transport).(total_failed) = (s.(transport).(total_failed) + if is_ok out then 0 else 1)%Z.
Proof.
  intros Hm Hb. cbv zeta. unfold send.
  pose proof (attempts_spec (Z.to_nat (max_retries (transport s) + 1)) 0
    (the_post (transport s) e) s ltac:(lia)) as H. cbv zeta in H.
  destruct (send_attempts _ _ _ s) as [out s']. destruct H as (-> & Ht & Hp & Hs).
  { intros i Hi Hpos. apply Hb. lia. }
  split; [done|]. split; [done|]. split; [done|]. rewrite Ht. unfold counted.
  destruct (is_ok _); simpl; lia.
Qed.

(** *** Overlapping sends *)

Lemma iter_finished e n out s :
  Nat.iter n (λ g, resume e g.1 g.2) (Finished out, s) = (Finished out, s).
Proof. induction n as [|n IH]; [done|]. simpl. by rewrite IH. Qed.

(** A send that runs alone is [send]. *)
Lemma resume_alone e n a s :
  (0 ≤ a)%Z → (a + Z.of_nat n = s.(transport).(max_retries) + 1)%Z →
  Nat.iter n (λ g, resume e g.1 g.2) (begin_attempt a s) =
  let '(out, s') := send_attempts n a (the_post s.(transport) e) s in (Finished out, s').
Proof.
  revert a s. induction n as [|n IH]; intros a s Ha Hn.
  { simpl. unfold begin_attempt. by destruct (Z.ltb_spec (max_retries (transport s)) a); [|lia]. }
  assert (Hgo : ∀ sl,
    Nat.iter n (λ g, resume e g.1 g.2)
      (resume e (Attempt a) (mkHttpState (transport s) (net s) (posted s) sl)) =
    let '(r, w) := client_post (the_post (transport s) e) (net s) in
    let s1 := mkHttpState (transport s) w (posted s ++ [the_post (transport s) e]) sl in
    let '(out, s') := match conclusive r with
      | Some v => (v, with_transport (counted v) s1)
      | None => send_attempts n (a + 1) (the_post (transport s) e) s1 end in (Finished out, s')).
  { intros sl. simpl. destruct (client_post _ _) as [r w].
    destruct (conclusive r) as [v|]; [by apply iter_finished|].
    set (s1 := mkHttpState _ w _ _). rewrite (IH (a + 1)%Z s1); [done|lia|simpl; lia]. }
  rewrite Nat.iter_succ_r. unfold begin_attempt.
  destruct (Z.ltb_spec (max_retries (transport s)) a); [lia|]. cbn [send_attempts].
  destruct (0 <? a)%Z.
  - destruct (backoff (transport s) a) as [b|]; cbn [fst snd]; [rewrite Hgo|by apply iter_finished].
    destruct (client_post _ _) as [r w]. cbn zeta. unfold conclusive.
    destruct r as [r|]; [|done]. destruct (is_success r); [done|]. by destruct (_ && _).
  - cbn [fst snd]. pose proof (Hgo (slept s)) as H'. destruct s as [t0 w0 p0 l0]. simpl in *.
    rewrite H'. destruct (client_post _ _) as [r w]. unfold conclusive.
    destruct r as [r|]; [|done]. destruct (is_success r); [done|]. by destruct (_ && _).
Qed.

(** What the counters of a transport do not change. *)
Definition same_config (h h' : HttpTransport) : Prop :=
  h'.(base_url) = h.(base_url) ∧ h'.(max_retries) = h.(max_retries) ∧
  h'.(backoff_base) = h.(backoff_base) ∧ h'.(extra_headers) = h.(extra_headers).

(** The messages a sender has counted as sent and as failed. *)
Definition ok_count (x : sender) : Z :=
  match x with Finished (Ok _) => 1 | _ => 0 end.
Definition failed_count (x : sender) : Z :=
  match x with Finished (Raise _) => 1 | _ => 0 end.

Definition total (f : sender → Z) (xs : list sender) : Z := foldr (λ x n, f x + n)%Z 0%Z xs.

Lemma total_insert f xs i x y :
  xs !! i = Some x → (total f (<[i := y]> xs) + f x = total f xs + f y)%Z.
Proof.
  revert i. induction xs as [|z xs IH]; intros [|i] H; simplify_eq/=; [lia|].
  specialize (IH i H). lia.
Qed.

Lemma total_ok outs :
  total ok_count (Finished <$> outs) = Z.of_nat (length (filter (λ o, is_ok o = true) outs)).
Proof.
  induction outs as [|[j|x] outs IH]; [done|..]; rewrite filter_cons; unfold total in *; csimpl; lia.
Qed.

Lemma total_failed_outs outs :
  total failed_count (Finished <$> outs) = Z.of_nat (length (filter (λ o, is_ok o = false) outs)).
Proof.
  induction outs as [|[j|x] outs IH]; [done|..]; rewrite filter_cons; unfold total in *; csimpl; lia.
Qed.

(** After [k] resumptions a sender is before its attempt [k], or finished. *)
Definition progress (h : HttpTransport) (k : nat) (x : sender) : Prop :=
  match x with
  | Attempt a => a = Z.of_nat k ∧ (a ≤ h.(max_retries))%Z
  | Finished _ => True
  end.

(** The step of one sender, in what it adds to the counters. *)
Definition advances (h : HttpTransport) (k : nat) (s : HttpState) (x' : sender) (s' : HttpState) : Prop :=
  progress h k x' ∧ same_config h s'.(transport) ∧
  s'.(transport).(total_sent) = (s.(transport).(total_sent) + ok_count x')%Z ∧
  s'.(transport).(total_failed) = (s.(transport).(total_failed) + failed_count x')%Z.

Lemma begin_advances h k s :
  same_config h s.(transport) → backoffs_finite h → 
  (0 ≤ Z.of_nat k)%Z →
  let '(x', s') := begin_attempt (Z.of_nat k) s in advances h k s x' s'.
Proof.
  intros (Hu & Hm & Hb & He) Hfin Hk. unfold begin_attempt, advances, progress, same_config. rewrite Hm.
  assert (Hback : backoff (transport s) (Z.of_nat k) = backoff h (Z.of_nat k))
    by (unfold backoff; by rewrite Hb).
  destruct (Z.ltb_spec (max_retries h) (Z.of_nat k)); [simpl; split_and!; try done; lia|].
  destruct (Z.ltb_spec 0 (Z.of_nat k)); [|simpl; split_and!; try done; lia].
  rewrite Hback. destruct (Hfin (Z.of_nat k)) as [b ->]; [lia|].
  simpl; split_and!; try done; lia.
Qed.

Lemma resume_advances h e k a s :
  same_config h s.(transport) → backoffs_finite h → progress h k (Attempt a) →
  let '(x', s') := resume e (Attempt a) s in advances h (S k) s x' s'.
Proof.
  intros Hs Hfin [-> Hle]. cbn [resume]. destruct (client_post _ _) as [r w].
  set (s1 := mkHttpState (transport s) w _ _).
  destruct (conclusive r) as [v|].
  - destruct Hs as (Hu & Hm & Hb & He).
    unfold advances, same_config, counted. destruct v; simpl; split_and!; try done; lia.
  - replace (Z.of_nat k + 1)%Z with (Z.of_nat (S k)) by lia.
    exact (begin_advances h (S k) s1 Hs Hfin ltac:(lia)).
Qed.

(** The state of the sends after the resumptions [order], from the transport [h]. *)
Definition gather_ok (h : HttpTransport) (order : list nat) (g : list sender * HttpState) : Prop :=
  same_config h g.2.(transport) ∧
  (∀ i x, g.1 !! i = Some x → progress h (count_occ Nat.eq_dec order i) x) ∧
  g.2.(transport).(total_sent) = (h.(total_sent) + total ok_count g.1)%Z ∧
  g.2.(transport).(total_failed) = (h.(total_failed) + total failed_count g.1)%Z.

Lemma begin_all_ok h es s :
  same_config h s.(transport) → backoffs_finite h →
  let '(xs, s') := begin_all es s in
  length xs = length es ∧ Forall (progress h 0) xs ∧ same_config h s'.(transport) ∧
  s'.(transport).(total_sent) = (s.(transport).(total_sent) + total ok_count xs)%Z ∧
  s'.(transport).(total_failed) = (s.(transport).(total_failed) + total failed_count xs)%Z.
Proof.
  intros Hs Hfin. revert s Hs. induction es as [|e es IH]; intros s Hs; cbn [begin_all].
  { simpl. split_and!; try done; lia. }
  pose proof (begin_advances h 0 s Hs Hfin ltac:(lia)) as H1. change (Z.of_nat 0) with 0%Z in H1.
  destruct (begin_attempt 0 s) as [x s1]. destruct H1 as (Hp & Hs1 & Ho & Hf).
  specialize (IH s1 Hs1). destruct (begin_all es s1) as [xs s2].
  destruct IH as (Hl & Hps & Hs2 & Ho2 & Hf2). simpl.
  split_and!; [lia|by constructor|done|rewrite Ho2, Ho; lia|rewrite Hf2, Hf; lia].
Qed.

Lemma resume_nth_ok h es order i g :
  backoffs_finite h → length g.1 = length es → gather_ok h order g →
  gather_ok h (order ++ [i]) (resume_nth es g i).
Proof.
  intros Hfin Hlen (Hc & Hp & Ho & Hf).
  assert (Hcount : ∀ j, count_occ Nat.eq_dec (order ++ [i]) j =
                     count_occ Nat.eq_dec order j + if decide (i = j) then 1 else 0).
  { intros j. rewrite count_occ_app. simpl. by destruct (Nat.eq_dec i j), (decide (i = j)). }
  assert (Hskip : (∀ x, g.1 !! i = Some x → ∃ out, x = Finished out) → gather_ok h (order ++ [i]) g).
  { intros Hfi. split_and!; try done. intros j x Hx. rewrite Hcount. case_decide; subst.
    - destruct (Hfi x Hx) as [out ->]. exact (Hp _ _ Hx).
    - rewrite Nat.add_0_r. by apply Hp. }
  unfold resume_nth. destruct (es !! i) as [e|] eqn:He; cycle 1.
  { apply Hskip. intros x Hx. apply lookup_lt_Some in Hx. apply lookup_ge_None in He. lia. }
  destruct (g.1 !! i) as [[a|out]|] eqn:Hx; [|cbn [resume]|by apply Hskip]; cycle 1.
  { rewrite list_insert_id, <-surjective_pairing by done. apply Hskip. intros x [= <-]. eauto. }
  pose proof (resume_advances h e _ a g.2 Hc Hfin (Hp _ _ Hx)) as H.
  destruct (resume e (Attempt a) g.2) as [x' s']. destruct H as (Hpx & Hc' & Ho' & Hf').
  split_and!; simpl; [done| | |].
  - intros j x Hj. rewrite Hcount. apply list_lookup_insert_Some in Hj as [(-> & -> & _)|[Hne Hj]].
    + rewrite decide_True by done. by rewrite Nat.add_1_r.
    + rewrite decide_False by done. rewrite Nat.add_0_r. by apply Hp.
  - rewrite Ho', Ho. pose proof (total_insert ok_count _ _ _ x' Hx). simpl in *. lia.
  - rewrite Hf', Hf. pose proof (total_insert failed_count _ _ _ x' Hx). simpl in *. lia.
Qed.

Lemma gather_invariant es order s :
  backoffs_finite s.(transport) →
  length (gather_sends es order s).1 = length es ∧ gather_ok s.(transport) order (gather_sends es order s).
Proof.
  intros Hfin. unfold gather_sends. induction order as [|i order IH] using rev_ind.
  - pose proof (begin_all_ok (transport s) es s ltac:(done) Hfin) as H. simpl.
    destruct (begin_all es s) as [xs s']. destruct H as (Hl & Hps & Hc & Ho & Hf).
    split; [done|]. split_and!; [done| |done|done]. intros j x Hj.
    by eapply Forall_lookup_1 in Hps.
  - rewrite fold_left_app. simpl. destruct IH as [Hl Hok]. split; [|by apply resume_nth_ok].
    rewrite <-Hl. unfold resume_nth. repeat case_match; simpl; by rewrite ?length_insert.
Qed.

(** C35. However the event loop interleaves the sends of a batch, once each has been resumed
    [max_retries + 1] times all are finished, the answers come in the order of the
    envelopes, and the shared counters have grown by exactly the sends that succeeded and
    the sends that failed. *)
Theorem send_many_any_order error_text es order s :
  backoffs_finite s.(transport) →
  (∀ i, i < length es → (s.(transport).(max_retries) < Z.of_nat (count_occ Nat.eq_dec order i))%Z) →
  let '(answers, s') := send_many error_text es order s in
  ∃ outs, answers = Some (zip_with (safe_send error_text) es outs) ∧ length outs = length es ∧
    s'.(transport).(total_sent) =
      (s.(transport).(total_sent) + Z.of_nat (length (filter (λ o, is_ok o = true) outs)))%Z ∧
    s'.(transport).(total_failed) =
      (s.(transport).(total_failed) + Z.of_nat (length (filter (λ o, is_ok o = false) outs)))%Z.
Proof.
  intros Hfin Hord. destruct (gather_invariant es order s Hfin) as [Hl (_ & Hp & Ho & Hf)].
  unfold send_many. destruct (gather_sends es order s) as [xs s']. simpl in *.
  assert (Hall : ∃ outs, xs = Finished <$> outs).
  { assert (H : Forall (λ x, ∃ out, x = Finished out) xs).
    { apply Forall_lookup_2. intros i x Hx. specialize (Hp i x Hx).
      destruct x as [a|out]; [|by eexists]. destruct Hp as [Ha Hle].
      specialize (Hord i ltac:(rewrite <-Hl; by eapply lookup_lt_Some)). lia. }
    clear -H. induction H as [|x xs [out ->] _ [outs ->]]; [by exists []|by exists (out :: outs)]. }
  destruct Hall as [outs ->]. rewrite length_fmap in Hl. exists outs.
  split; [|split; [done|]].
  - rewrite (proj2 (mapM_Some _ _ outs)); [done|].
    clear. by induction outs; constructor.
  - by rewrite Ho, Hf, total_ok, total_failed_outs.
Qed.
End http.

(** ** Redis *)
Section redis.
Context {F : PyFloat} {FT : FloatText F}.

Record RedisTransport : Type := mkRedis {
  redis_url : string;
  channel_prefix : string;
  has_client : bool;              (* _client is not None *)
  total_published : Z;
}.

(** [None] is the [ImportError]. *)
Definition new_redis (redis_available : bool) (url prefix : string) : option RedisTransport :=
  if redis_available then Some (mkRedis url prefix false 0) else None.

Definition _build_channel (r : RedisTransport) (e : MessageEnvelope) : string :=
  match e.(topic) with
  | Some t => if decide (t = "") then r.(channel_prefix) +:+ ":" +:+ e.(receiver)
              else r.(channel_prefix) +:+ ":topic:" +:+ t
  | None => r.(channel_prefix) +:+ ":" +:+ e.(receiver)
  end.

Context {W : Type}.
(** The client: [from_url], then its methods, each with whether it raises. *)
Variable from_url : string → bool.
Variable ping : W → bool * W.
Variable aclose : W → bool * W.
Variable client_publish : string → text → W → option Z * W.
Variable client_subscribe : string → W → bool * W.

Record RedisState : Type := mkRedisState {
  redis : RedisTransport;
  server : W;
  published : list (string * text);
}.

Inductive RedisError : Type :=
  | NotConnected                  (* RedisTransportError *)
  | PublishFailed                 (* RedisTransportError *)
  | ClientRaised.                 (* the client's own exception *)

Abbreviation R := (M RedisState RedisError).

Definition set_client (b : bool) (r : RedisTransport) : RedisTransport :=
  mkRedis r.(redis_url) r.(channel_prefix) b r.(total_published).

(** A client method that may raise. *)
Definition client_call (f : W → bool * W) : R unit := λ s,
  let '(ok, w) := f s.(server) in
  (if ok then Ok tt else Raise ClientRaised, mkRedisState s.(redis) w s.(published)).

Definition on_redis (f : RedisTransport → RedisTransport) : R unit :=
  modS (λ s, mkRedisState (f s.(redis)) s.(server) s.(published)).

Definition redis_connect : R unit := λ s,
  if from_url s.(redis).(redis_url)
  then (let! _ := on_redis (set_client true) in client_call ping) s
  else (Raise ClientRaised, s).

Definition redis_close : R unit := λ s,
  if s.(redis).(has_client)
  then (let! _ := client_call aclose in on_redis (set_client false)) s
  else (Ok tt, s).

Definition redis_send (e : MessageEnvelope) : R Z := λ s,
  if negb s.(redis).(has_client) then (Raise NotConnected, s)
  else
    let channel := _build_channel s.(redis) e in
    let payload := to_json e in
    match client_publish channel payload s.(server) with
    | (Some n, w) =>
        let r := s.(redis) in
        (Ok n, mkRedisState (mkRedis r.(redis_url) r.(channel_prefix) r.(has_client)
                                (r.(total_published) + 1)) w (s.(published) ++ [(channel, payload)]))
    | (None, w) => (Raise PublishFailed, mkRedisState s.(redis) w s.(published))
    end.

(** The channel the pubsub object listens on. *)
Definition subscribe_channel (agent_id : string) : R string := λ s,
  if negb s.(redis).(has_client) then (Raise NotConnected, s)
  else
    let channel := s.(redis).(channel_prefix) +:+ ":" +:+ agent_id in
    (let! _ := client_call (client_subscribe channel) in retS channel) s.

(** A message reaches the channel its receiver listens on exactly when it has no topic;
    and an agent whose name is a topic's gets that topic's messages. *)
Lemma receiver_channel r e :
  e.(topic) = None → _build_channel r e = r.(channel_prefix) +:+ ":" +:+ e.(receiver).
Proof. unfold _build_channel. by intros ->. Qed.

Lemma append_assoc (a b c : string) : (a +:+ b) +:+ c = a +:+ (b +:+ c).
Proof. induction a as [|x a IH]; [done|]. exact (f_equal (String x) IH). Qed.

Lemma topic_channel_collision r e t :
  e.(topic) = Some t → t ≠ "" →
  _build_channel r e = r.(channel_prefix) +:+ ":" +:+ ("topic:" +:+ t).
Proof. unfold _build_channel. intros -> Ht. by rewrite decide_False. Qed.
End redis.

(** ** Kafka *)
Section kafka.
Context {F : PyFloat} {FT : FloatText F}.

Record KafkaTransport : Type := mkKafka {
  bootstrap_servers : string;
  default_topic : string;
  key_by_receiver : bool;
  has_producer : bool;            (* _producer is not None *)
  total_produced : Z;
}.

Definition new_kafka (kafka_available : bool) (servers topic : string) (by_receiver : bool)
    : option KafkaTransport :=
  if kafka_available then Some (mkKafka servers topic by_receiver false 0) else None.

(** What is handed to the producer. *)
Record KRecord : Type := mkKRecord {
  k_topic : string;
  k_value : text;
  k_key : option string;
  k_headers : dict string;
}.

Context {W : Type}.
Variable producer_start producer_flush producer_stop : W → bool * W.
Variable send_and_wait send_only : KRecord → W → bool * W.

Record KafkaState : Type := mkKafkaState {
  kafka : KafkaTransport;
  brokers : W;
  produced : list KRecord;
}.

Inductive KafkaError : Type :=
  | ProducerMissing               (* KafkaTransportError *)
  | ProduceFailed                 (* KafkaTransportError *)
  | ProducerRaised.               (* the producer's own exception *)

Abbreviation K := (M KafkaState KafkaError).

Definition set_producer (b : bool) (k : KafkaTransport) : KafkaTransport :=
  mkKafka k.(bootstrap_servers) k.(default_topic) k.(key_by_receiver) b k.(total_produced).

Definition count_produced (k : KafkaTransport) : KafkaTransport :=
  mkKafka k.(bootstrap_servers) k.(default_topic) k.(key_by_receiver) k.(has_producer)
    (k.(total_produced) + 1).

Definition on_kafka (f : KafkaTransport → KafkaTransport) : K unit :=
  modS (λ s, mkKafkaState (f s.(kafka)) s.(brokers) s.(produced)).

Definition producer_call (x : KafkaError) (f : W → bool * W) : K unit := λ s,
  let '(ok, w) := f s.(brokers) in
  (if ok then Ok tt else Raise x, mkKafkaState s.(kafka) w s.(produced)).

(** A record accepted by the producer, counted. *)
Definition produce (x : KafkaError) (f : KRecord → W → bool * W) (r : KRecord) : K unit :=
  let! _ := producer_call x (f r) in
  modS (λ s, mkKafkaState (count_produced s.(kafka)) s.(brokers) (s.(produced) ++ [r])).

Definition kafka_connect : K unit :=
  let! _ := on_kafka (set_producer true) in producer_call ProducerRaised producer_start.

Definition kafka_close : K unit := λ s,
  if s.(kafka).(has_producer) then
    (let! _ := producer_call ProducerRaised producer_flush in
     let! _ := producer_call ProducerRaised producer_stop in
     on_kafka (set_producer false)) s
  else (Ok tt, s).

(** [a or b] of texts, [None] for a missing one. *)
Definition or_else (a : option string) (b : string) : string :=
  match a with Some s => if decide (s = "") then b else s | None => b end.

Definition record_of (k : KafkaTransport) (topic_ : option string) (headers : dict string)
    (e : MessageEnvelope) : KRecord :=
  mkKRecord (or_else topic_ (or_else e.(topic) k.(default_topic))) (to_json e)
    (if k.(key_by_receiver) then Some e.(receiver) else None) headers.

Definition kafka_send (e : MessageEnvelope) (topic_ : option string) : K unit := λ s,
  if negb s.(kafka).(has_producer) then (Raise ProducerMissing, s)
  else produce ProduceFailed send_and_wait
         (record_of s.(kafka) topic_
            [("x-trace-id", e.(trace_id)); ("x-message-id", e.(message_id));
             ("x-message-type", type_value e.(message_type))] e) s.

Fixpoint produce_all (k : KafkaTransport) (es : list MessageEnvelope) : K unit :=
  match es with
  | [] => retS tt
  | e :: r => let! _ := produce ProducerRaised send_only (record_of k None [] e) in produce_all k r
  end.

Definition kafka_send_many (es : list MessageEnvelope) : K unit := λ s,
  if negb s.(kafka).(has_producer) then (Raise ProducerMissing, s)
  else (let! _ := produce_all s.(kafka) es in producer_call ProducerRaised producer_flush) s.

(** *** The count is the number of records produced *)

Definition kafka_ok (s : KafkaState) : Prop :=
  s.(kafka).(total_produced) = Z.of_nat (length s.(produced)).

Lemma producer_call_ok x f : preserves kafka_ok (producer_call x f).
Proof. intros s H. unfold producer_call. by destruct (f (brokers s)). Qed.

Lemma produce_ok x f r : preserves kafka_ok (produce x f r).
Proof.
  apply preserves_bind; [apply producer_call_ok|intros _]. apply preserves_mod.
  unfold kafka_ok. intros s H. simpl. rewrite length_app, H. simpl. lia.
Qed.

Lemma produce_all_ok k es : preserves kafka_ok (produce_all k es).
Proof.
  induction es as [|e es IH]; [apply preserves_ret|]. by apply preserves_bind; [apply produce_ok|].
Qed.

Inductive kafka_step : KafkaState → KafkaState → Prop :=
  | k_connect s : kafka_step s (kafka_connect s).2
  | k_close s : kafka_step s (kafka_close s).2
  | k_send e t s : kafka_step s (kafka_send e t s).2
  | k_send_many es s : kafka_step s (kafka_send_many es s).2.

Lemma kafka_step_ok s s' : kafka_ok s → kafka_step s s' → kafka_ok s'.
Proof.
  intros Hs Hstep. destruct Hstep as [s|s|e t s|es s].
  - refine (preserves_bind kafka_ok _ _ _ _ s Hs); [by apply preserves_mod|intros; apply producer_call_ok].
  - unfold kafka_close. destruct (has_producer _); [|done].
    refine (preserves_bind kafka_ok _ _ _ _ s Hs); [apply producer_call_ok|intros _].
    apply preserves_bind; [apply producer_call_ok|intros _]. by apply preserves_mod.
  - unfold kafka_send. destruct (has_producer _); [|done]. by apply produce_ok.
  - unfold kafka_send_many. destruct (has_producer _); [|done].
    refine (preserves_bind kafka_ok _ _ _ _ s Hs); [apply produce_all_ok|intros; apply producer_call_ok].
Qed.

Theorem kafka_reachable_ok k w s :
  k.(total_produced) = 0%Z → rtc kafka_step (mkKafkaState k w []) s → kafka_ok s.
Proof.
  intros Hk. assert (H : ∀ x y, rtc kafka_step x y → kafka_ok x → kafka_ok y)
    by (induction 1; eauto using kafka_step_ok).
  intros Hr. by apply (H _ _ Hr).
Qed.

(** A transport whose connection failed says it is connected. *)
Lemma failed_start_connected s :
  (producer_start s.(brokers)).1 = false →
  (kafka_connect s).1 = Raise ProducerRaised ∧ (kafka_connect s).2.(kafka).(has_producer) = true.
Proof.
  intros H. unfold kafka_connect, bindS, on_kafka, modS, producer_call. simpl.
  destruct (producer_start (brokers s)) as [[] w]; done.
Qed.
End kafka.

(** ** gRPC: the interface a transport over a channel fills in *)
Section grpc.
Context {F : PyFloat}.

(** [GrpcTransport]: [send] is abstract, [connect] and [close] are hooks that do nothing
    unless overridden; a send that fails raises [GrpcTransportError], or anything else. *)
Class GrpcTransport (T E : Type) : Type := {
  grpc_send : MessageEnvelope → M T E (dict json);
  grpc_connect : M T E unit;
  grpc_close : M T E unit;
}.

(** The hooks of the base class, which do nothing. *)
Definition with_base_hooks {T E} (send : MessageEnvelope → M T E (dict json)) : GrpcTransport T E :=
  {| grpc_send := send; grpc_connect := retS tt; grpc_close := retS tt |}.

(** [None] is the [ImportError]. *)
Definition assert_grpc_available (grpc_available : bool) : option unit :=
  if negb grpc_available then None else Some tt.

End grpc.

(** ** Witnesses *)
Section witnesses.
#[local] Existing Instance QF.

(** A gateway that answers from a script, and fails when it is over. *)
Definition ex_post (p : Post) (w : list (option Response)) : option Response * list (option Response) :=
  match w with [] => (None, []) | r :: w' => (r, w') end.

Definition ex_http : HttpTransport := mkHttp "https://g" 3 (fofZ 10) (flit 1 2) [] 0 0.
Definition ex_http_state : HttpState :=
  mkHttpState ex_http [None; Some (mkResponse 503 false None ""); Some (mkResponse 200 true (Some JNull) "null")]
    [] [].

Lemma ex_backoffs : backoffs_finite ex_http.
Proof. intros a Ha. eexists. reflexivity. Qed.

Lemma send_spec_witness :
  let '(out, s') := send ex_post ex_env ex_http_state in
  out = Ok JNull ∧ length s'.(posted) = 3 ∧ s'.(transport).(total_sent) = 1%Z.
Proof.
  pose proof (send_spec ex_post ex_env ex_http_state ltac:(done) ex_backoffs) as H.
  destruct (send ex_post ex_env ex_http_state) as [out s'].
  destruct H as (Ho & Hp & _ & Hs & _).
  split; [exact Ho|]. split; [exact (f_equal length Hp)|]. rewrite Hs, Ho. reflexivity.
Defined.
(** The second send is answered between the attempts of the first. *)
Lemma send_many_any_order_witness :
  ∃ outs s', send_many ex_post (λ _, "failed") [ex_env; ex_env] [0; 1; 1; 0; 0; 1; 0; 1] ex_http_state =
    (Some (zip_with (safe_send (λ _, "failed")) [ex_env; ex_env] outs), s') ∧ length outs = 2 ∧
    (s'.(transport).(total_sent) + s'.(transport).(total_failed) = 2)%Z.
Proof.
  pose proof (send_many_any_order ex_post (λ _, "failed") [ex_env; ex_env] [0; 1; 1; 0; 0; 1; 0; 1]
    ex_http_state ex_backoffs) as H.
  destruct (send_many ex_post (λ _, "failed") [ex_env; ex_env] [0; 1; 1; 0; 0; 1; 0; 1] ex_http_state)
    as [answers s'].
  destruct H as (outs & -> & Hl & Hs & Hf); [intros [|[|i]] Hi; simpl in *; lia|].
  exists outs, s'. split; [done|]. split; [exact Hl|]. rewrite Hs, Hf. clear -Hl.
  destruct outs as [|[] [|[] [|]]]; try discriminate Hl; reflexivity.
Defined.
End witnesses.
