(* ===== verification/Convenience.v ===== *)
(** * The quickstart router ([convenience.py])

    A routing table and a round-robin strategy behind [register] and [route]: the
    composition of the two components on the path most programs take.  The answer of
    [route] is the dictionary the code returns. *)
From stdpp Require Import base gmap sets list strings.
From Stdlib Require Import ZArith Lia.
From S2P Require Import Prelude PyDict PyFloat PySort Envelope Table Strategy.

Section router.
Context {F : PyFloat}.

Record Router : Type := mkRouter { _table : RoutingTable; _strategy : strategy }.

Definition new_router : Router := mkRouter (new_table true) (RoundRobinRouter 0).

(** [t_reg] and [t_hb] are the times the record is stamped with. *)
Definition register (agent_id : string) (capabilities : option (list string)) (t_reg t_hb : float)
    : M Router TableError unit := λ r,
  match register_agent agent_id (Some (default [] capabilities)) f0 f0 None None t_reg t_hb r.(_table) with
  | (Ok _, t) => (Ok tt, mkRouter t r.(_strategy))
  | (Raise e, t) => (Raise e, mkRouter t r.(_strategy))
  end.

(** [trace], [mid] and [now] are the defaults of the envelope. *)
Definition route_envelope (task : dict json) (trace mid : string) (now : float) : MessageEnvelope :=
  mkEnvelope "router-quickstart" "*" task TASK NORMAL None trace None mid now None None [].

Definition route (task : dict json) (trace mid : string) (now : float) (r : Router)
    : result RouteError (dict json) * Router :=
  match list_agents r.(_table) None with
  | [] => (Ok [("error", JStr "no_agents_available"); ("task", JDict task)], r)
  | _ =>
      match select r.(_strategy) r.(_table) (route_envelope task trace mid now) with
      | (Raise e, s) => (Raise e, mkRouter r.(_table) s)
      | (Ok None, s) =>
          (Ok [("error", JStr "no_matching_agent"); ("task", JDict task)], mkRouter r.(_table) s)
      | (Ok (Some a), s) =>
          (Ok [("agent_id", JStr a.(agent_id)); ("task", JDict task)], mkRouter r.(_table) s)
      end
  end.

(** The agents a router can choose from, in the order of their ids. *)
Definition roster (r : Router) : list AgentRecord := py_sort id_lt (healthy_agents r.(_table)).

Lemma rotated_head {A} (i : nat) (l : list A) : i < length l → head (rotated i l) = l !! i.
Proof.
  intros Hi. unfold rotated. destruct (lookup_lt_is_Some_2 l i Hi) as [x Hx].
  rewrite (drop_S l x i Hx). by rewrite Hx.
Qed.

(** The quickstart router takes its healthy agents in turn: the call made when the
    counter is at [c] answers with agent [c mod n] of the [n] in the order of their ids, and
    moves the counter on; without any it answers the documented error; nothing raises
    and the other error is never given. *)
Theorem route_in_turn task trace mid now t c :
  t.(default_healthy_only) = true →
  let r := mkRouter t (RoundRobinRouter c) in
  let n := Z.of_nat (length (roster r)) in
  if decide (roster r = [])
  then route task trace mid now r = (Ok [("error", JStr "no_agents_available"); ("task", JDict task)], r)
  else ∃ a, roster r !! Z.to_nat (c mod n) = Some a ∧
    route task trace mid now r =
      (Ok [("agent_id", JStr a.(agent_id)); ("task", JDict task)], mkRouter t (RoundRobinRouter (c + 1))).
Proof.
  intros Hd r n. unfold route, roster in *. cbn [_table _strategy r] in *.
  assert (Hl : list_agents t None = healthy_agents t)
    by (unfold list_agents, healthy_agents, list_agents; by rewrite Hd).
  rewrite Hl. case_decide as He.
  - rewrite py_sort_nil in He. by rewrite He.
  - assert (Hne : healthy_agents t ≠ []) by (by rewrite <-(py_sort_nil id_lt)).
    assert (Hn : (0 < n)%Z).
    { unfold n, roster. simpl. destruct (py_sort id_lt (healthy_agents t)); [done|simpl; lia]. }
    pose proof (Z.mod_pos_bound c n Hn) as Hb.
    destruct (lookup_lt_is_Some_2 (py_sort id_lt (healthy_agents t)) (Z.to_nat (c mod n))) as [a Ha].
    { unfold n, roster in *. simpl in *. lia. }
    exists a. split; [exact Ha|]. unfold select. cbn [rank_candidates].
    rewrite rank_round_robin_ne by done. cbv zeta.
    rewrite rotated_head by (apply lookup_lt_Some in Ha; exact Ha).
    change (py_sort id_lt (healthy_agents t) !!
      Z.to_nat (c mod Z.of_nat (length (py_sort id_lt (healthy_agents t)))) = Some a) in Ha.
    rewrite Ha. destruct (healthy_agents t); done.
Qed.
End router.

Section witness.
#[local] Existing Instance QF.

Definition ex_router : Router :=
  (register "w2" None f0 f0 (register "w1" (Some ["nlp"]) f0 f0 new_router).2).2.

Lemma route_in_turn_witness :
  (route [] "t" "m" f0 ex_router).1 = Ok [("agent_id", JStr "w1"); ("task", JDict [])].
Proof.
  pose proof (route_in_turn [] "t" "m" f0 ex_router.(_table) 0 eq_refl) as H.
  cbv zeta in H. rewrite decide_False in H by (intros E; apply (f_equal length) in E; discriminate E).
  destruct H as (a & Ha & Hr).
  change ex_router with (mkRouter ex_router.(_table) (RoundRobinRouter 0)). rewrite Hr.
  assert (Some a.(agent_id) = Some "w1") as [= ->]; [|reflexivity].
  change (agent_id <$> Some a = Some "w1"). rewrite <-Ha. reflexivity.
Defined.
End witness.
