(* ===== verification/Cli.v ===== *)
(** * The [resilience health] command ([cli/resilience_commands.py])

    The command reads endpoint definitions from a JSON file, probes each of them once by a
    TCP connection, prints a table and exits with a status: the composition of the JSON
    reader, the endpoints of the load balancer and the health checker.  The file's text,
    the connections with the clock readings around them, and the rendering of a float to a
    number of decimals are parameters; click's parsing of the options and rich's drawing
    of the table are left out. *)
From stdpp Require Import base list strings.
From Stdlib Require Import ZArith Ascii Lia.
From S2P Require Import Prelude PyInt PyDict PyFloat Envelope Json Serializer.
From S2P Require Import ServiceBalancer HealthCheck.

(** The message printed before [sys.exit(1)]. *)
Inductive CliMessage : Type := NotJson | NotAList | NotAnObject | InvalidDefinition.

(** The exceptions the command does not catch: of reading the file, of a conversion, of
    the configuration. *)
Inductive CliException : Type :=
  | ReadFailed
  | Overflow
  | BadConfig (e : HConfigError).

Section definitions.
Context {F : PyFloat} {FP : FloatParse F}.

Definition str_or_empty (j : json) : string := match j with JStr s => s | _ => "" end.

(** The arguments in the order they are evaluated, then [__post_init__].  [None]: a name
    or a host that is no string, which has no value here. *)
Definition endpoint_of (item : dict json) : result FromError (option ServiceEndpoint) :=
  let? n := field item "name" in
  let? h := field item "host" in
  let? p := (let? j := field item "port" in arg_int j) in
  let? w := arg_float (default (JFloat f1) (dget item "weight")) in
  let ok := truthy (default (JBool true) (dget item "healthy")) in
  match new_endpoint (str_or_empty n) (str_or_empty h) p w ok with
  | Raise _ => Raise ValueError
  | Ok e => Ok (match n, h with JStr _, JStr _ => Some e | _, _ => None end)
  end.

(** Why the loading stops: a message, or an exception that no clause catches. *)
Definition load_error : Type := (CliMessage + CliException)%type.

Definition load_item (item : json) : result load_error (option ServiceEndpoint) :=
  match item with
  | JDict d =>
      match endpoint_of d with
      | Ok e => Ok e
      | Raise (KeyError | ValueError | TypeError) => Raise (inl InvalidDefinition)
      | Raise OverflowError => Raise (inr Overflow)
      end
  | _ => Raise (inl NotAnObject)
  end.

Fixpoint load_items (items : list json) : result load_error (option (list ServiceEndpoint)) :=
  match items with
  | [] => Ok (Some [])
  | i :: r =>
      let? e := load_item i in
      let? es := load_items r in
      Ok (e ← e; es ← es; Some (e :: es))
  end.

Section text.
Context {FT : FloatText F}.

Definition load_endpoints (raw : text) : result load_error (option (list ServiceEndpoint)) :=
  match loads raw with
  | None => Raise (inl NotJson)
  | Some (JList l) => load_items l
  | Some _ => Raise (inl NotAList)
  end.

(** What a file of definitions holds for an endpoint. *)
Definition endpoint_json (e : ServiceEndpoint) : json :=
  JDict [("name", JStr e.(name)); ("host", JStr e.(host)); ("port", JInt e.(port));
         ("weight", JFloat e.(weight)); ("healthy", JBool e.(healthy))].
End text.
End definitions.

Section command.
Context {F : PyFloat} {FP : FloatParse F} {FT : FloatText F}.

(** [f"{x:.0f}"] and [f"{x:.1f}"] *)
Variables (fixed0 fixed1 : float → string).

(** A TCP connection to a host and port with a timeout, and the clocks around it. *)
Variables (W : Type) (connect : string → Z → float → W → probe_run * W).

Definition error_message (d : details) : string :=
  match d with
  | NoDetails => ""
  | ProbeError _ m => m
  | TimedOut limit took => "Probe exceeded timeout of " +:+ fixed0 limit +:+ " ms (took " +:+
                             fixed1 took +:+ " ms)."
  end.

(** The markup of a status, and the exit code after it. *)
Definition status_display (s : HealthStatus) (exit_code : Z) : string * Z :=
  match s with
  | HEALTHY => ("[green]HEALTHY[/green]", exit_code)
  | DEGRADED => ("[yellow]DEGRADED[/yellow]", 2%Z)
  | UNHEALTHY => ("[red]UNHEALTHY[/red]", 1%Z)
  | UNKNOWN => ("[red]UNKNOWN[/red]", 1%Z)
  end.

Record Row : Type := mkRow {
  row_name : string;
  row_host : string;
  row_port : string;
  row_status : string;
  row_latency : string;
  row_details : string;
}.

(** The first endpoint of that name. *)
Definition matching (eps : list ServiceEndpoint) (n : string) : option ServiceEndpoint :=
  head (filter (λ e, e.(name) = n) eps).

Definition row_of (eps : list ServiceEndpoint) (r : HealthCheckResult) : Row :=
  let m := matching eps r.(endpoint_name) in
  let d := error_message r.(res_details) in
  mkRow r.(endpoint_name) (default "?" (host <$> m))
    (default "?" ((λ e, String.string_of_list_ascii (int_text e.(port))) <$> m))
    (status_display r.(status) 0).1 (fixed1 r.(latency_ms))
    (String.substring 0 60 d +:+ (if decide (60 < String.length d) then "..." else "")).

(** The table's rows and the exit code. *)
Definition health_report (eps : list ServiceEndpoint) (results : list HealthCheckResult) : list Row * Z :=
  (row_of eps <$> results, fold_left (λ code r, (status_display r.(status) code).2) results 0%Z).

(** The probes of [check_all], in order. *)
Fixpoint probe_all (timeout : float) (eps : list ServiceEndpoint) (w : W)
    : list (ServiceEndpoint * probe_run) * W :=
  match eps with
  | [] => ([], w)
  | e :: r =>
      let '(p, w) := connect e.(host) e.(port) timeout w in
      let '(ps, w) := probe_all timeout r w in ((e, p) :: ps, w)
  end.

(** How the command ends: an exception leaves it, a message and [sys.exit(1)], a return
    without endpoints, or the table and its exit code.  [Untyped]: see [endpoint_of]. *)
Inductive Outcome : Type :=
  | Traceback (e : CliException)
  | Fails (m : CliMessage)
  | NoEndpoints
  | Report (rows : list Row) (exit_code : Z)
  | Untyped.

(** [read] is the text of the file, [None] when reading it raises. *)
Definition health_command (read : option text) (timeout : float) (w : W) : Outcome * W :=
  match read with
  | None => (Traceback ReadFailed, w)
  | Some raw =>
      match load_endpoints raw with
      | Raise (inl m) => (Fails m, w)
      | Raise (inr e) => (Traceback e, w)
      | Ok None => (Untyped, w)
      | Ok (Some []) => (NoEndpoints, w)
      | Ok (Some eps) =>
          match new_hconfig (fofZ 60) timeout 1 1 100 with
          | Raise e => (Traceback (BadConfig e), w)
          | Ok config =>
              let '(runs, w) := probe_all timeout eps w in
              let '(rows, code) := health_report eps (check_all config runs new_checker).1 in
              (Report rows code, w)
          end
      end
  end.

(** The status the process ends with. *)
Definition exit_status (o : Outcome) : option Z :=
  match o with
  | Traceback _ | Fails _ => Some 1%Z
  | NoEndpoints => Some 0%Z
  | Report _ code => Some code
  | Untyped => None
  end.
End command.

(** ** The commands that print fixed texts

    The lines printed; [plugins] asks no registry and [circuit-breaker status] no breaker. *)
Definition version_command : list string := ["[bold]agent-mesh-router[/bold] v0.1.0"].

Definition plugins_command : list string :=
  ["[bold]Registered plugins:[/bold]";
   "  (No plugins registered. Install a plugin package to see entries here.)"].

Definition circuit_breaker_command (subcommand : string) : list string :=
  if decide (subcommand = "status") then
    ["[bold]Circuit breaker status[/bold]"; "";
     "No circuit breakers are registered in this process.";
     "Instantiate a [cyan]CircuitBreaker[/cyan] in your service code and " +:+
     "expose its [cyan].state[/cyan] property via your own status endpoint."]
  else [].

Section lemmas.
Context {F : PyFloat} {FP : FloatParse F} {FT : FloatText F}.

(** ** Reading a file of definitions *)

(** An endpoint the class accepts, its weight within the range of conversions. *)
Definition endpoint_valid (e : ServiceEndpoint) : Prop :=
  new_endpoint e.(name) e.(host) e.(port) e.(weight) e.(healthy) = Ok e.

Lemma load_item_written e : endpoint_valid e → load_item (endpoint_json e) = Ok (Some e).
Proof.
  intros He.
  change (load_item (endpoint_json e)) with
    (match match new_endpoint e.(name) e.(host) e.(port) e.(weight) e.(healthy) with
           | Raise _ => Raise ValueError | Ok e => Ok (Some e) end with
     | Ok e => Ok e
     | Raise (KeyError | ValueError | TypeError) => Raise (inl InvalidDefinition)
     | Raise OverflowError => Raise (inr Overflow)
     end : result load_error (option ServiceEndpoint)).
  by rewrite He.
Qed.

Lemma load_written es :
  Forall endpoint_valid es → load_items (endpoint_json <$> es) = Ok (Some es).
Proof.
  induction 1 as [|e es He _ IH]; [done|].
  cbn [fmap list_fmap load_items]. rewrite load_item_written by done. simpl.
  by rewrite IH.
Qed.

Lemma endpoint_json_ok e : json_ok (endpoint_json e).
Proof. split; [by apply (bool_decide_unpack _)|done]. Qed.

Lemma load_endpoints_written `{FTO : !FloatTextOk F} st es :
  style_ok st → Forall endpoint_valid es →
  load_endpoints (dumps st (JList (endpoint_json <$> es))) = Ok (Some es).
Proof.
  intros Hst Hes. unfold load_endpoints. rewrite loads_dumps; [by apply load_written|done|].
  simpl. induction es as [|e es IH]; [done|]. apply Forall_cons in Hes as [_ Hes].
  split; [apply endpoint_json_ok|by apply IH].
Qed.

(** ** Verdicts of a checker whose thresholds are one *)

Section verdicts.
Context (cfg : HealthCheckConfig).
Hypothesis one_success : cfg.(healthy_threshold) = 1%Z.
Hypothesis one_failure : cfg.(unhealthy_threshold) = 1%Z.
Hypothesis some_history : (1 ≤ cfg.(max_history))%Z.

Definition verdict (p : probe_run) : HealthStatus := if succeeded cfg p then HEALTHY else UNHEALTHY.

Lemma thresholds_ok : hconfig_ok cfg.
Proof. unfold hconfig_ok. lia. Qed.

Lemma check_verdict ep p c :
  checker_ok cfg c → (check cfg ep p c).1.(status) = verdict p.
Proof.
  intros Hc. pose proof (check_spec cfg ep p c thresholds_ok) as H.
  destruct (check cfg ep p c) as [r c']. destruct H as [H _]. simpl. rewrite H.
  destruct Hc as (_ & _ & _ & Hn). destruct (Hn ep.(name)) as (_ & Hs & Hf & _).
  unfold verdict, _compute_status. cbn [fst].
  destruct (succeeded cfg p); cbn -[_last_status get0]; rewrite ?get0_set, ?decide_True by done;
    rewrite ?one_success, ?one_failure;
    (replace (1 <=? _)%Z with true by lia); by case_match.
Qed.

Lemma check_name ep p c : (check cfg ep p c).1.(endpoint_name) = ep.(name).
Proof. unfold check. repeat case_match; by simplify_eq. Qed.

(** What a result says of the probe it comes from. *)
Definition tells (run : ServiceEndpoint * probe_run) (r : HealthCheckResult) : Prop :=
  r.(endpoint_name) = run.1.(name) ∧ r.(status) = verdict run.2.

Lemma check_all_tells runs acc c :
  checker_ok cfg c →
  ∃ rs, (fold_left (λ rc ep, let '(r, c') := check cfg ep.1 ep.2 rc.2 in (rc.1 ++ [r], c'))
           runs (acc, c)).1 = acc ++ rs ∧ Forall2 tells runs rs.
Proof.
  revert acc c. induction runs as [|[ep p] runs IH]; intros acc c Hc; simpl.
  { exists []. by rewrite app_nil_r. }
  pose proof (check_verdict ep p c Hc) as Hv. pose proof (check_name ep p c) as Hn.
  pose proof (check_ok cfg ep p c thresholds_ok Hc) as Hc'.
  destruct (check cfg ep p c) as [r c']. simpl in *.
  destruct (IH (acc ++ [r]) c' Hc') as (rs & -> & Hrs).
  exists (r :: rs). rewrite <-app_assoc. split; [done|]. by constructor.
Qed.

(** The exit code: the last result that is not healthy decides. *)
Lemma exit_code_fold runs rs code :
  Forall2 tells runs rs →
  fold_left (λ code r, (status_display r.(status) code).2) rs code =
  if forallb (λ run, succeeded cfg run.2) runs then code else 1%Z.
Proof.
  intros H. revert code. induction H as [|run r runs rs [_ Hs] _ IH]; intros code; [done|].
  simpl. rewrite IH, Hs. unfold verdict.
  destruct (succeeded cfg run.2); simpl; [done|]. by case_match.
Qed.
End verdicts.
End lemmas.

Section behaviour.
Context {F : PyFloat} {FP : FloatParse F} {FT : FloatText F}.
Context (fixed0 fixed1 : float → string) (W : Type) (connect : string → Z → float → W → probe_run * W).
Implicit Types (w : W) (eps : list ServiceEndpoint).
Lemma probe_all_endpoints timeout eps w : (probe_all W connect timeout eps w).1.*1 = eps.
Proof.
  revert w. induction eps as [|e eps IH]; intros w; [done|]. simpl.
  destruct (connect _ _ _ w) as [p w1]. specialize (IH w1).
  destruct (probe_all _ _ _ eps w1) as [ps w2]. simpl in *. by f_equal.
Qed.

Lemma matching_some eps e : e ∈ eps → ∃ e', matching eps e.(name) = Some e' ∧ e'.(name) = e.(name).
Proof.
  intros He. unfold matching. destruct (filter _ eps) as [|e' l] eqn:E.
  - assert (H : e ∈ filter (λ x, x.(name) = e.(name)) eps) by by apply list_elem_of_filter.
    rewrite E in H. by apply elem_of_nil in H.
  - exists e'. split; [done|].
    assert (H : e' ∈ filter (λ x, x.(name) = e.(name)) eps) by (rewrite E; by left).
    by apply list_elem_of_filter in H as [? _].
Qed.

(** What a row of the table says of the probe it reports. *)
Definition row_reports (cfg : HealthCheckConfig) eps (run : ServiceEndpoint * probe_run) (r : Row)
    : Prop :=
  r.(row_name) = run.1.(name) ∧
  r.(row_status) = (if succeeded cfg run.2 then "[green]HEALTHY[/green]"
                    else "[red]UNHEALTHY[/red]") ∧
  ∃ e, matching eps run.1.(name) = Some e ∧ r.(row_host) = e.(host).

Lemma rows_report cfg eps runs rs :
  Forall (λ run, run.1 ∈ eps) runs → Forall2 (tells cfg) runs rs →
  Forall2 (row_reports cfg eps) runs (row_of fixed0 fixed1 eps <$> rs).
Proof.
  intros Hin. induction 1 as [|run r runs rs [Hn Hs] _ IH]; [constructor|].
  apply Forall_cons in Hin as [Hr Hin]. constructor; [|by apply IH].
  destruct (matching_some eps run.1 Hr) as (e & He & _).
  split_and!; simpl; [done| |].
  - rewrite Hs. unfold verdict. by case_match.
  - exists e. by rewrite Hn, He.
Qed.

(** The thresholds of the command's configuration. *)
Lemma command_config timeout cfg :
  new_hconfig (fofZ 60) timeout 1 1 100 = Ok cfg →
  cfg.(healthy_threshold) = 1%Z ∧ cfg.(unhealthy_threshold) = 1%Z ∧ (1 ≤ cfg.(max_history))%Z.
Proof. unfold new_hconfig. intros H. repeat case_match; simplify_eq; simpl; lia. Qed.

Lemma health_report_spec timeout eps w cfg :
  new_hconfig (fofZ 60) timeout 1 1 100 = Ok cfg →
  let runs := (probe_all W connect timeout eps w).1 in
  let '(rows, code) := health_report fixed0 fixed1 eps (check_all cfg runs new_checker).1 in
  code = (if forallb (λ run, succeeded cfg run.2) runs then 0 else 1)%Z ∧
  Forall2 (row_reports cfg eps) runs rows.
Proof.
  intros Hcfg. cbv zeta.
  pose proof (probe_all_endpoints timeout eps w) as Hends.
  destruct (probe_all W connect timeout eps w) as [runs w']. simpl in *.
  destruct (command_config timeout cfg Hcfg) as (H1 & H2 & H3).
  destruct (check_all_tells cfg H1 H2 H3 runs [] new_checker) as (rs & Hrs & Htell);
    [by apply new_checker_ok|].
  unfold check_all, health_report. rewrite Hrs. simpl.
  split; [by rewrite (exit_code_fold cfg runs)|].
  apply rows_report; [|done]. rewrite <-Hends. apply Forall_forall. intros run.
  apply list_elem_of_fmap_2.
Qed.

(** C38. On a file of endpoints, the health command probes each endpoint once in order,
    prints one row per probe under the endpoint's name, healthy exactly when the probe
    neither raised nor took too long, and exits with 0 when every probe succeeded and with
    1 otherwise: the exit code 2, kept for degraded endpoints, is never reached. *)
Theorem health_command_spec raw timeout w eps cfg :
  load_endpoints raw = Ok (Some eps) → eps ≠ [] →
  new_hconfig (fofZ 60) timeout 1 1 100 = Ok cfg →
  let '(runs, w') := probe_all W connect timeout eps w in
  ∃ rows,
    health_command fixed0 fixed1 W connect (Some raw) timeout w =
      (Report rows (if forallb (λ run, succeeded cfg run.2) runs then 0 else 1)%Z, w') ∧
    runs.*1 = eps ∧ Forall2 (row_reports cfg eps) runs rows.
Proof.
  intros Hl Hne Hcfg. pose proof (health_report_spec timeout eps w cfg Hcfg) as H.
  pose proof (probe_all_endpoints timeout eps w) as Hends. unfold health_command. rewrite Hl.
  destruct eps as [|e eps]; [done|]. rewrite Hcfg.
  destruct (probe_all W connect timeout (e :: eps) w) as [runs w']. cbn [fst] in *.
  destruct (health_report _ _ _ _) as [rows code]. destruct H as [-> H]. by exists rows.
Qed.

(** The health command exits with 0 exactly when the file holds a list of endpoints and
    either it is empty or the timeout is valid and every probe succeeds. *)
Theorem health_exit_zero read timeout w :
  exit_status (health_command fixed0 fixed1 W connect read timeout w).1 = Some 0%Z ↔
  ∃ raw eps, read = Some raw ∧ load_endpoints raw = Ok (Some eps) ∧
    (eps = [] ∨ ∃ cfg, new_hconfig (fofZ 60) timeout 1 1 100 = Ok cfg ∧
       Forall (λ run, succeeded cfg run.2 = true) (probe_all W connect timeout eps w).1).
Proof.
  unfold health_command. destruct read as [raw|]; [|naive_solver].
  destruct (load_endpoints raw) as [[[|e eps]|]|[]] eqn:Hl;
    try (split; [done|]; by intros (? & ? & [= <-] & Hl' & _); rewrite Hl in Hl'); [naive_solver|].
  destruct (new_hconfig _ _ _ _ _) as [cfg|] eqn:Hcfg; cycle 1.
  { split; [done|]. by intros (? & ? & [= <-] & Hl' & [->|(? & ? & _)]); rewrite Hl in Hl'. }
  pose proof (health_report_spec timeout (e :: eps) w cfg Hcfg) as H.
  destruct (probe_all W connect timeout (e :: eps) w) as [runs w'] eqn:Hp. cbn [fst] in *.
  destruct (health_report _ _ _ _) as [rows code]. destruct H as [-> _]. simpl.
  destruct (forallb _ runs) eqn:Hall.
  - rewrite forallb_forall in Hall.
    split; [intros _|done]. exists raw, (e :: eps). split_and!; [done..|right]. exists cfg.
    rewrite Hp. split; [done|]. apply Forall_forall. intros run Hr.
    by apply Hall, list_elem_of_In.
  - split; [done|]. intros (? & ? & [= <-] & Hl' & [->|(cfg' & [= <-] & Hr)]);
      rewrite Hl in Hl'; [done|]. injection Hl' as <-. rewrite Hp in Hr.
    apply not_true_iff_false in Hall. destruct Hall.
    apply forallb_forall.
    intros run Hin. rewrite Forall_forall in Hr. by apply Hr, list_elem_of_In.
Qed.
End behaviour.

(** ** Witnesses *)
Section witnesses.
#[local] Existing Instance QF.

Definition ex_endpoints : list ServiceEndpoint :=
  [ServiceBalancer.mkEndpoint "api-1" "10.0.0.1" 8080 f1 true;
   ServiceBalancer.mkEndpoint "api-2" "10.0.0.2" 8080 f1 true].

Lemma ex_endpoints_valid : Forall endpoint_valid ex_endpoints.
Proof. repeat constructor. Qed.

(** The second host refuses the connection. *)
Definition ex_connect (h : string) (_ : Z) (_ : float) (n : nat) : probe_run * nat :=
  (mkProbe (if bool_decide (h = "10.0.0.1") then None else Some ("ConnectionRefusedError", "refused"))
     f0 f0 f0, S n).

Lemma health_command_spec_witness :
  ∃ rows,
    health_command (λ _, "") (λ _, "") nat ex_connect
      (Some (dumps compact (JList (endpoint_json <$> ex_endpoints)))) (fofZ 5) 0 =
      (Report rows 1%Z, 2) ∧ length rows = 2.
Proof.
  destruct (health_command_spec (λ _, "") (λ _, "") nat ex_connect
    (dumps compact (JList (endpoint_json <$> ex_endpoints))) (fofZ 5) 0 ex_endpoints
    (mkHConfig (fofZ 60) (fofZ 5) 1 1 100)) as (rows & H1 & H2 & H3);
    [apply load_endpoints_written; [apply compact_ok|apply ex_endpoints_valid]|done|reflexivity|].
  exists rows. split; [exact H1|]. symmetry. exact (Forall2_length _ _ _ H3).
Defined.
End witnesses.
