(* ===== verification/TracedBroker.v ===== *)
(** * Traced handlers on the broker ([broker/message_broker.py], [middleware/tracing.py])

    [TracingMiddleware.wrap] is made to be subscribed to the broker.  Here every
    subscription is such a wrapped handler, and the two components are composed: what the
    handlers behind the middlewares are given by one dispatch, through its targets and its
    retries, all of which share the one envelope. *)
From stdpp Require Import base gmap sets list strings.
From Stdlib Require Import ZArith Lia.
From S2P Require Import Prelude PyDict PyFloat Envelope PriorityQueue DeadLetter Broker Tracing.
#[local] Open Scope Z_scope.

Section traced.
Context {F : PyFloat}.

(** The draws of the middlewares, by the number of calls before; and whether the handler
    [i], given an envelope by the call [n], raises. *)
Variable draws : nat → Draw.
Variable inner : nat → MessageEnvelope → nat → option string.
Variable order : gset string → list string.
(** The tracer's spans: see [Tracing]. *)
Variable with_span : string → string → dict string →
  M (MessageEnvelope * list MessageEnvelope) string unit →
  M (MessageEnvelope * list MessageEnvelope) string unit.
Hypothesis observe_only : spans_observe with_span.

(** A middleware and the handler behind it; the world is the envelopes the handlers were
    given, in order. *)
Abbreviation Wrapped := (TracingMiddleware * nat)%type.
Abbreviation TBroker := (AsyncMessageBroker F Wrapped (list MessageEnvelope)).
Implicit Types (b : TBroker) (e : MessageEnvelope) (h : Wrapped) (a : string).

Definition set_world b (w : list MessageEnvelope) : TBroker :=
  mkBroker b.(_queue) b.(_dlq) b.(max_delivery_attempts) b.(agent_handlers)
    b.(topic_subscribers) b.(running) w.

(** The handler behind the middleware: it reads the envelope. *)
Definition downstream (i : nat) : M (MessageEnvelope * list MessageEnvelope) string unit := λ s,
  (match inner i s.1 (length s.2) with Some x => Raise x | None => Ok tt end, (s.1, s.2 ++ [s.1])).

(** [wrap()]: the coroutine function the broker calls. *)
Definition wrap h e b : outcome * (MessageEnvelope * TBroker) :=
  let '(r, (e1, w)) :=
    (Tracing.call with_span [(h.1, draws (length b.(world)))] (downstream h.2)).1
      (e, b.(world)) in
  (match r with Ok _ => Returns | Raise x => Raises x end, (e1, set_world b w)).

Lemma wrap_step h e b :
  let e1 := _inject_trace_context h.1 (draws (length b.(world))) e in
  wrap h e b = (match inner h.2 e1 (length b.(world)) with Some x => Raises x | None => Returns end,
    (e1, set_world b (b.(world) ++ [e1]))).
Proof. unfold wrap. rewrite call_arrives by done. simpl. by destruct (inner _ _ _). Qed.

Lemma wrap_keeps h e b : (wrap h e b).2.2.(agent_handlers) = b.(agent_handlers).
Proof. by rewrite wrap_step by done. Qed.

Lemma wrap_limit : keeps_limit wrap.
Proof. intros h e b. by rewrite wrap_step by done. Qed.

Lemma wrap_not_cancelled h e b : (wrap h e b).1 ≠ Cancels.
Proof. rewrite wrap_step by done. by destruct (inner _ _ _). Qed.

(** ** What the handlers are given *)

Definition attempts_of (d : delivery) : Z :=
  match d with Delivered k | DeadLettered _ k | Abandoned k => k end.

Definition span_at (n : nat) : string := span_of (draws n).

(** The envelopes [l] given since the world was [w0]: each carries the span of its own
    call, and the span of the call before as its parent. *)
Definition chained (w0 l : list MessageEnvelope) : Prop :=
  (∀ k x, l !! k = Some x → dget x.(env_metadata) "span_id" = Some (span_at (length w0 + k))) ∧
  (∀ k x, l !! S k = Some x →
     dget x.(env_metadata) "parent_span_id" = Some (span_at (length w0 + k))).

(** The envelope a dispatch of [e0] has come to, and the calls it has made. *)
Definition carries e0 (w0 : list MessageEnvelope) e b (l : list MessageEnvelope) : Prop :=
  b.(world) = w0 ++ l ∧ e = default e0 (last l) ∧ chained w0 l ∧
  Forall (λ x, x.(trace_id) = e0.(trace_id)) l.

Hypothesis spans_nonempty : ∀ n, span_at n ≠ "".

Lemma wrap_carries e0 w0 h e b l :
  e0.(trace_id) ≠ "" → carries e0 w0 e b l →
  ∃ l1, carries e0 w0 (wrap h e b).2.1 (wrap h e b).2.2 l1 ∧ length l1 = S (length l).
Proof.
  intros Ht (Hw & He & (Hs & Hp) & Htr). rewrite wrap_step. cbn [fst snd].
  set (e1 := _inject_trace_context _ _ _). exists (l ++ [e1]).
  assert (Hlen : length (world b) = (length w0 + length l)%nat) by (rewrite Hw; apply length_app).
  assert (Htrace : e.(trace_id) = e0.(trace_id)).
  { rewrite He. destruct (last l) as [x|] eqn:El; [|done].
    apply last_Some_elem_of in El. rewrite Forall_forall in Htr. by apply Htr. }
  split; [|rewrite length_app; simpl; lia]. split_and!.
  - simpl. by rewrite Hw, <-(assoc_L (++)).
  - by rewrite last_snoc.
  - split; intros k x Hk; apply lookup_app_Some in Hk as [Hk|[Hle Hk]]; [by apply Hs| |by apply Hp|].
    + apply list_lookup_singleton_Some in Hk as [Hk <-]. unfold e1. rewrite inject_span, Hlen.
      unfold span_at. do 3 f_equal. lia.
    + apply list_lookup_singleton_Some in Hk as [Hk <-].
      destruct (last l) as [y|] eqn:El; [|apply last_None in El; subst l; simpl in *; lia].
      unfold e1. apply inject_parent; [|apply spans_nonempty]. rewrite He. simpl.
      rewrite last_lookup in El. pose proof (Hs _ _ El) as Hy. rewrite Hy. do 2 f_equal. lia.
  - apply Forall_app. split; [done|]. constructor; [|constructor]. unfold e1.
    rewrite inject_trace, decide_False by congruence. done.
Qed.

Lemma deliver_carries e0 w0 fuel e a n clock b l d e1 b1 :
  e0.(trace_id) ≠ "" → carries e0 w0 e b l → is_Some (dget b.(agent_handlers) a) →
  _deliver_to wrap fuel e a n clock b = Some (d, (e1, b1)) →
  ∃ l1, carries e0 w0 e1 b1 l1 ∧ b1.(agent_handlers) = b.(agent_handlers) ∧
    Z.of_nat (length l1) = Z.of_nat (length l) + (attempts_of d - n + 1).
Proof.
  intros Ht. revert e n b l. induction fuel as [|fuel IH]; intros e n b l Hc [h Hh];
    cbn [_deliver_to]; rewrite Hh; destruct (wrap_carries e0 w0 h e b l Ht Hc) as (l1 & Hc1 & Hl);
    pose proof (wrap_keeps h e b) as Hk;
    destruct (wrap h e b) as [[|msg|] [e2 b2]]; cbn [fst snd] in *.
  all: try (case_match; [|intros [= <- <- <-]; exists l1; (split; [exact Hc1|split; [done|simpl; lia]])]).
  all: try (intros [= <- <- <-]; exists l1; (split; [exact Hc1|split; [done|simpl; lia]])).
  intros Hd. destruct (IH _ _ _ _ Hc1 ltac:(rewrite Hk; by eexists) Hd) as (l2 & Hc2 & Hk2 & Hl2).
  exists l2. split; [done|]. split; [congruence|lia].
Qed.

Lemma deliver_all_carries e0 w0 targets e clock b l ds e1 b1 :
  e0.(trace_id) ≠ "" → carries e0 w0 e b l →
  Forall (λ a, is_Some (dget b.(agent_handlers) a)) targets →
  deliver_all wrap e targets clock b = Some (ds, (e1, b1)) →
  ∃ l1, carries e0 w0 e1 b1 l1 ∧
    Z.of_nat (length l1) = Z.of_nat (length l) + foldr (λ ad n, attempts_of ad.2 + n) 0 ds.
Proof.
  intros Ht. revert e b l ds. induction targets as [|a ts IH]; intros e b l ds Hc Hts; cbn [deliver_all].
  { intros [= <- <- <-]. exists l. split; [done|simpl; lia]. }
  apply Forall_cons in Hts as [Ha Hts]. unfold deliver_to.
  destruct (_deliver_to wrap _ e a 1 (clock a) b) as [[d [e2 b2]]|] eqn:Hd; [|done].
  destruct (deliver_carries _ _ _ _ _ _ _ _ _ _ _ _ Ht Hc Ha Hd) as (l2 & Hc2 & Hk & Hl2).
  pose proof (not_cancelled wrap _ _ _ _ _ _ _ _ wrap_not_cancelled Hd) as Hne.
  destruct d as [k|why k|k]; [| |by destruct (Hne k)].
  all: destruct (deliver_all wrap e2 ts clock b2) as [[ds' [e3 b3]]|] eqn:Hr; [|done];
    intros [= <- -> ->]; destruct (IH _ _ _ _ Hc2 ltac:(by rewrite Hk) Hr) as (l3 & Hc3 & Hl3);
    exists l3; (split; [done|]); simpl in *; lia.
Qed.

End traced.

(** ** Witness: a broadcast to two agents, the first of which fails once *)
Section witness.
#[local] Existing Instance QF.

Definition ex_draws (n : nat) : Draw :=
  mkDraw "new" (match n with 0%nat => "aa" | 1%nat => "bb" | _ => "cc" end) f0 "1.0".
Definition ex_inner (i : nat) (_ : MessageEnvelope) (n : nat) : option string :=
  match n with O => Some "down" | _ => None end.
Definition ex_mw : TracingMiddleware := mkTracing "svc" f1 false 0.
Definition ex_message : MessageEnvelope :=
  mkEnvelope "s" "*" [] TASK NORMAL None "t" None "m" f0 None None [].
Definition ex_tbroker : AsyncMessageBroker QF (TracingMiddleware * nat) (list MessageEnvelope) :=
  mkBroker (new_pq 0 true) (mkDLQ 10 [] 0) 3 [("a", (ex_mw, 0%nat)); ("b", (ex_mw, 1%nat))] [] true [].

Definition ex_spans_of (_ _ : string) (_ : dict string)
    (m : M (MessageEnvelope * list MessageEnvelope) string unit) := m.

Lemma ex_targets : _resolve_targets ex_message ex_tbroker ≠ ∅.
Proof.
  intros H. assert (Hin : "a" ∈ _resolve_targets ex_message ex_tbroker).
  { apply resolve_targets_spec. split; [by eexists|by left]. }
  rewrite H in Hin. by apply not_elem_of_empty in Hin.
Qed.


(** The three calls: an attempt, its retry, and the other subscriber. *)
Example ex_spans :
  (λ x, (dget x.(env_metadata) "span_id", dget x.(env_metadata) "parent_span_id")) <$>
    match _dispatch (wrap ex_draws ex_inner ex_spans_of) elements ex_message f0 (λ _ _, f0) ex_tbroker with
    | Some (_, (_, b)) => b.(world) | None => [] end =
  [(Some "aa", None); (Some "bb", Some "aa"); (Some "cc", Some "bb")].
Proof. reflexivity. Qed.
End witness.
