(* ===== verification/Operator.v ===== *)
(** * Operator start-up ([k8s/operator/main.py])

    What the start-up hook reads from the environment and leaves configured: the log level,
    the trace exporter and the settings of kopf.  Third-party code is a parameter: which
    levels structlog accepts, whether the exporter of an endpoint is built, and the
    shutdown of the trace provider. *)
From stdpp Require Import base list strings.
From Stdlib Require Import ZArith Ascii Lia.
From S2P Require Import Prelude PyInt.

(** ["s".upper()] on ASCII. *)
Definition upper_char (c : ascii) : ascii :=
  let n := nat_of_ascii c in
  if decide (97 ≤ n ≤ 122) then ascii_of_nat (n - 32) else c.
Fixpoint upper (s : string) : string :=
  match s with
  | EmptyString => EmptyString
  | String c r => String (upper_char c) (upper r)
  end.

(** The attributes of the [logging] module whose names are in capitals: its levels, and two
    that are none. *)
Inductive LogAttr : Type := Level (n : Z) | BASIC_FORMAT | STYLES.

Definition logging_attr (name : string) : option LogAttr :=
  if decide (name = "CRITICAL" ∨ name = "FATAL") then Some (Level 50)
  else if decide (name = "ERROR") then Some (Level 40)
  else if decide (name = "WARNING" ∨ name = "WARN") then Some (Level 30)
  else if decide (name = "INFO") then Some (Level 20)
  else if decide (name = "DEBUG") then Some (Level 10)
  else if decide (name = "NOTSET") then Some (Level 0)
  else if decide (name = "BASIC_FORMAT") then Some BASIC_FORMAT
  else if decide (name = "_STYLES") then Some STYLES
  else None.

Record OperatorState : Type := mkOperator {
  log_level : option LogAttr;
  trace_exporter : option (string * string);    (* endpoint, service *)
  finalizer : option string;
  posting_level : option Z;
  server_timeout : option Z;
}.

Inductive StartError : Type := LevelRejected | ExporterFailed | BadWatchTimeout.

Section startup.
(** [os.getenv] *)
Variable getenv : string → option string.
Variable accepts_level : LogAttr → bool.
Variable otel_installed : bool.
Variable builds_exporter : string → bool.

Abbreviation Op := (M OperatorState StartError).

Definition env_or (k d : string) : string := default d (getenv k).

Definition set_level (l : LogAttr) (s : OperatorState) : OperatorState :=
  mkOperator (Some l) s.(trace_exporter) s.(finalizer) s.(posting_level) s.(server_timeout).
Definition set_exporter (x : string * string) (s : OperatorState) : OperatorState :=
  mkOperator s.(log_level) (Some x) s.(finalizer) s.(posting_level) s.(server_timeout).
Definition set_settings (f : string) (p : Z) (s : OperatorState) : OperatorState :=
  mkOperator s.(log_level) s.(trace_exporter) (Some f) (Some p) s.(server_timeout).
Definition set_timeout (n : Z) (s : OperatorState) : OperatorState :=
  mkOperator s.(log_level) s.(trace_exporter) s.(finalizer) s.(posting_level) (Some n).

Definition wanted_level : LogAttr :=
  default (Level 20) (logging_attr (upper (env_or "LOG_LEVEL" "INFO"))).

Definition _configure_logging : Op unit :=
  let! _ := guardS (negb (accepts_level wanted_level)) LevelRejected in
  modS (set_level wanted_level).

Definition _configure_otel : Op unit :=
  match getenv "OTEL_EXPORTER_OTLP_ENDPOINT" with
  | None | Some EmptyString => retS tt
  | Some endpoint =>
      if otel_installed then
        let! _ := guardS (negb (builds_exporter endpoint)) ExporterFailed in
        modS (set_exporter (endpoint, env_or "OTEL_SERVICE_NAME" "aumos-operator"))
      else retS tt
  end.

Definition on_startup : Op unit :=
  let! _ := _configure_logging in
  let! _ := _configure_otel in
  let! _ := modS (set_settings "aumos.ai/operator-finalizer" 30) in
  match py_int (env_or "WATCH_TIMEOUT" "300") with
  | Some n => modS (set_timeout n)
  | None => raiseS BadWatchTimeout
  end.

(** The shutdown of the provider, when the package is installed and the provider has one;
    whether it raises is of no consequence. *)
Definition on_cleanup {W} (shutdown : option (W → bool * W)) (w : W) : W :=
  if otel_installed then match shutdown with Some f => (f w).2 | None => w end else w.

(** ** What is configured *)

Definition blank_operator : OperatorState := mkOperator None None None None None.

(** The endpoint that is exported to, if any. *)
Definition exported_to : option string :=
  match getenv "OTEL_EXPORTER_OTLP_ENDPOINT" with
  | Some EmptyString | None => None
  | Some e => if otel_installed then Some e else None
  end.

(** The hook succeeds exactly when structlog accepts the level, the exporter of the
    endpoint is built, and the watch timeout is a numeral; then everything is configured,
    and a timeout that is no numeral is noticed only after all the rest is. *)
Theorem startup_spec :
  let '(r, s) := on_startup blank_operator in
  (is_ok r = true ↔ accepts_level wanted_level = true ∧
     (∀ e, exported_to = Some e → builds_exporter e = true) ∧
     is_Some (py_int (env_or "WATCH_TIMEOUT" "300"))) ∧
  (is_ok r = true ∨ r = Raise BadWatchTimeout →
     s.(log_level) = Some wanted_level ∧
     s.(trace_exporter) = (λ e, (e, env_or "OTEL_SERVICE_NAME" "aumos-operator")) <$> exported_to ∧
     s.(finalizer) = Some "aumos.ai/operator-finalizer" ∧ s.(posting_level) = Some 30%Z ∧
     s.(server_timeout) = py_int (env_or "WATCH_TIMEOUT" "300")).
Proof.
  unfold on_startup, _configure_logging, _configure_otel, exported_to.
  unfold bindS, guardS, modS, retS, raiseS.
  generalize wanted_level (env_or "OTEL_SERVICE_NAME" "aumos-operator"). intros level service.
  destruct (accepts_level level); [|naive_solver].
  destruct (getenv "OTEL_EXPORTER_OTLP_ENDPOINT") as [[|c ep]|]; cbn [negb];
    [|destruct otel_installed; [destruct (builds_exporter (String c ep)) eqn:Hb|]|];
    destruct (py_int (env_or "WATCH_TIMEOUT" "300")); simpl; try naive_solver;
    (split; [split; [done|]; intros (_ & He & _); by rewrite He in Hb|by intros [[=]|[=]]]).
Qed.
End startup.
