(* ===== verification/Reports.v ===== *)
(** * Reports and accessors ([deadlock/detector.py], [consensus/protocol.py],
      [quotas/resource_quota.py])

    The [to_dict] and [summary] of results, and the read-only accessors of the detector and
    the enforcer.  The text of a time ([isoformat]), of a percentage and of a string's
    [repr] come from the Standard Library's formatting: the first two are parameters. *)
From stdpp Require Import base gmap sets list strings.
From Stdlib Require Import ZArith Lia.
From S2P Require Import Prelude PyInt PyDict PyFloat PySort Envelope Json Serializer.
From S2P Require Import Deadlock Quota Consensus.

Definition int_str (z : Z) : string := String.string_of_list_ascii (int_text z).
Definition repr_string (s : string) : string := String.string_of_list_ascii (repr_str s).

(** ** Deadlock detection *)
Section deadlock.
Context {F : PyFloat} {FT : FloatText F}.

(** [list(self._edges)], [len(detector)], [agent_id in detector] *)
Definition detector_edges (d : DeadlockDetector) : list WaitEdge := d.(edges).
Definition detector_len (d : DeadlockDetector) : nat := length d.(graph).
Definition detector_contains (a : string) (d : DeadlockDetector) : bool := dmem d.(graph) a.

(** [checked_at] is the text of the time of the run. *)
Definition deadlock_summary (checked_at : string) (r : DeadlockResult) : string :=
  if negb (has_deadlock r) then
    "No deadlock detected. Checked " +:+ int_str (Z.of_nat r.(node_count)) +:+ " agents, " +:+
      int_str (Z.of_nat r.(edge_count)) +:+ " edges at " +:+ checked_at +:+ "."
  else
    "DEADLOCK: " +:+ int_str (Z.of_nat (cycle_count r)) +:+ " cycle(s) found. " +:+
      String.concat " | " (String.concat " -> " <$> r.(cycles)).

Definition deadlock_to_dict (checked_at : string) (r : DeadlockResult) : dict json :=
  [("has_deadlock", JBool (has_deadlock r)); ("cycle_count", JInt (Z.of_nat (cycle_count r)));
   ("cycles", JList ((λ c, JList (JStr <$> c)) <$> r.(cycles)));
   ("checked_at", JStr checked_at); ("node_count", JInt (Z.of_nat r.(node_count)));
   ("edge_count", JInt (Z.of_nat r.(edge_count)))].
End deadlock.

(** ** Consensus *)
Section consensus.
Context {F : PyFloat} {FT : FloatText F}.
Variable isoformat : float → string.
(** [f"{x:.1%}"] *)
Variable percent1 : float → string.

(** The dash is the three bytes of its UTF-8 form. *)
Definition consensus_summary (r : ConsensusResult) : string :=
  if negb r.(reached_consensus) then "[" +:+ r.(protocol_name) +:+ "] No consensus — 0 votes submitted."
  else
    "[" +:+ r.(protocol_name) +:+ "] Consensus: " +:+ repr_string r.(winning_option) +:+ " (" +:+
      int_str (default 0%Z (dget r.(vote_counts) r.(winning_option))) +:+ "/" +:+
      int_str r.(total_votes) +:+ " votes, agreement=" +:+ percent1 r.(agreement_ratio) +:+ ")".

Definition consensus_to_dict (r : ConsensusResult) : dict json :=
  [("winning_option", JStr r.(winning_option));
   ("vote_counts", JDict (prod_map id JInt <$> r.(vote_counts)));
   ("total_votes", JInt r.(total_votes)); ("agreement_ratio", JFloat r.(agreement_ratio));
   ("reached_consensus", JBool r.(reached_consensus)); ("protocol_name", JStr r.(protocol_name));
   ("decided_at", JStr (isoformat r.(decided_at))); ("metadata", JDict r.(res_metadata))].
End consensus.

(** ** Quotas *)
Section quotas.
Context {F : PyFloat} {FT : FloatText F}.

(** [ResourceQuota.dimensions] *)
Definition dimensions (q : ResourceQuota) : dict (option float) := dims_items q.(limits).

(** [QuotaUsage.to_dict] of a snapshot, at the time with the given text. *)
Definition usage_to_dict (agent at_ : string) (u : dims float) : dict json :=
  [("agent_id", JStr agent); ("tokens_used", JFloat u.(tokens));
   ("memory_mb_used", JFloat u.(memory_mb)); ("cpu_seconds_used", JFloat u.(cpu_seconds));
   ("api_calls_used", JFloat u.(api_calls)); ("snapshotted_at", JStr at_)].

Definition registered_agents (s : QuotaEnforcer) : list string := py_sort str_ltb (dkeys s.(quotas)).
Definition enforcer_len (s : QuotaEnforcer) : nat := length s.(quotas).
Definition enforcer_contains (a : string) (s : QuotaEnforcer) : bool := dmem s.(quotas) a.
End quotas.

(** ** The reports are JSON *)
Section reads_back.
Context {F : PyFloat} {FT : FloatText F} `{FTO : !FloatTextOk F}.

(** A report as JSON, whatever the style it is printed in, reads back as it was. *)
Lemma deadlock_reads_back st at_ r :
  style_ok st → loads (dumps st (JDict (deadlock_to_dict at_ r))) = Some (JDict (deadlock_to_dict at_ r)).
Proof.
  intros Hst. apply loads_dumps; [done|]. split; [by apply (bool_decide_unpack _)|]. cbn.
  split_and!; try done. induction (cycles r) as [|c cs IH]; [done|]. split; [|exact IH].
  simpl. by induction c.
Qed.

Lemma consensus_reads_back isoformat st r :
  style_ok st → dwf r.(vote_counts) → json_ok (JDict r.(res_metadata)) →
  loads (dumps st (JDict (consensus_to_dict isoformat r))) = Some (JDict (consensus_to_dict isoformat r)).
Proof.
  intros Hst Hv Hmd. apply loads_dumps; [done|]. split; [by apply (bool_decide_unpack _)|].
  cbn -[json_ok]. split_and!; try done. split.
  - unfold dwf, dkeys in *. rewrite <-list_fmap_compose. by rewrite (list_fmap_ext _ fst).
  - clear. by induction (vote_counts r) as [|[k v] l IH].
Qed.

Lemma usage_reads_back st a at_ u :
  style_ok st → loads (dumps st (JDict (usage_to_dict a at_ u))) = Some (JDict (usage_to_dict a at_ u)).
Proof. intros Hst. apply loads_dumps; [done|]. split; [by apply (bool_decide_unpack _)|done]. Qed.
End reads_back.

(** ** What a report counts *)
Section counts.
(** The pairs of a graph, by waiter. *)
Definition wait_pairs (g : dict (gset string)) : list (string * string) :=
  mjoin ((λ an : string * gset string, pair an.1 <$> elements an.2) <$> g).

Lemma elem_wait_pairs g a b : (a, b) ∈ wait_pairs g ↔ ∃ ns, (a, ns) ∈ g ∧ b ∈ ns.
Proof.
  unfold wait_pairs. rewrite list_elem_of_join. setoid_rewrite list_elem_of_fmap. split.
  - intros (l & Hin & [a' ns] & -> & Hg). apply list_elem_of_fmap in Hin as (x & [= -> ->] & Hx).
    exists ns. by rewrite elem_of_elements in Hx.
  - intros (ns & Hg & Hb). exists (pair a <$> elements ns). split; [|by exists (a, ns)].
    apply list_elem_of_fmap. exists b. by rewrite elem_of_elements.
Qed.

Lemma wait_pairs_NoDup g : dwf g → NoDup (wait_pairs g).
Proof.
  unfold wait_pairs. induction g as [|[a ns] g IH]; intros Hg; [constructor|].
  apply NoDup_cons in Hg as [Ha Hg]. csimpl. apply NoDup_app. split_and!; [|..|by apply IH].
  - apply NoDup_fmap_2; [by intros x y [=]|apply NoDup_elements].
  - intros [a' b] Hin Hrest. apply list_elem_of_fmap in Hin as (x & [= -> ->] & _).
    apply (elem_wait_pairs g) in Hrest as (ns' & Hg' & _). apply Ha.
    apply list_elem_of_fmap. by exists (a, ns').
Qed.

Lemma length_wait_pairs g :
  length (wait_pairs g) = sum_list (length <$> dvalues (dmap (λ ns : gset string, py_sort str_ltb (elements ns)) g)).
Proof.
  unfold wait_pairs. induction g as [|[a ns] g IH]; [done|]. csimpl.
  rewrite length_app, IH, length_fmap. unfold dvalues, dmap. csimpl.
  by rewrite (Permutation_length (py_sort_perm _ _)).
Qed.

(** The edges a report counts are the distinct pairs of a waiter and a holder, however many
    resources one waits for the other with; its nodes are the agents of the detector. *)
Theorem report_counts d :
  detector_ok d →
  (detect d).(node_count) = detector_len d ∧
  (detect d).(edge_count) =
    size (list_to_set ((λ e, (e.(waiter), e.(holder))) <$> detector_edges d) : gset (string * string)).
Proof.
  intros (Hwf & _ & Hw & _). split; [unfold detector_len; simpl; apply length_fmap|].
  unfold detect, graph_snapshot. cbn [edge_count]. rewrite <-length_wait_pairs. unfold size, set_size.
  apply Permutation_length, NoDup_Permutation; [by apply wait_pairs_NoDup|apply NoDup_elements|].
  intros [a b]. rewrite elem_wait_pairs, elem_of_elements, elem_of_list_to_set, list_elem_of_fmap.
  transitivity (waits d.(graph) a b).
  - unfold waits, neighbors. split.
    + intros (ns & Hin & Hb). by rewrite (elem_dget _ _ _ Hwf Hin).
    + destruct (dget (graph d) a) as [ns|] eqn:Hd; simpl; [|set_solver]. intros Hb.
      exists ns. split; [by apply dget_Some_elem|done].
  - rewrite Hw. naive_solver.
Qed.
End counts.
