(* ===== verification/FleetMonitor.v ===== *)
(** * The fleet's background check ([fleet/health.py])

    [_monitor_loop] checks all nodes, sleeps [check_interval] seconds, and checks again,
    while clients use the registry and the monitor: here its turns are interleaved with any
    other operations, and what is shown is how long a node can be silent unnoticed. *)
From stdpp Require Import base gmap sets list strings.
From Stdlib Require Import ZArith QArith Lqa Lia.
From S2P Require Import Prelude PyDict PyFloat Fleet.
#[local] Close Scope Q_scope.

Section watching.
Context {F : PyFloat}.
Implicit Types (w : Watch) (o : fleet_op) (id : string) (l : nat).

(** Operations that are not about the node [id] and do not stop the loop; clients that
    assign to attributes of another node keep its id, and its load in range. *)
Definition leaves_alone id w o : Prop :=
  match o with
  | OpRegister l => (deref w.(reg) l).(agent_id) ≠ id
  | OpAssign l g => dget w.(reg).(nodes) id ≠ Some l ∧ harmless g
  | OpDeregister i | OpHeartbeat i _ _ _ | OpRecord i _ _ => i ≠ id
  | OpPrune _ _ | OpStop => False
  | OpNew _ | OpCheckAll _ | OpCheckNode _ _ | OpStart | OpTurn _ => True
  end.

Fixpoint all_leave_alone id (os : list fleet_op) w : Prop :=
  match os with
  | [] => True
  | o :: os => leaves_alone id w o ∧ all_leave_alone id os (fleet_step o w)
  end.

Definition run (os : list fleet_op) w : Watch := fold_left (λ w o, fleet_step o w) os w.

(** The times of the turns of the loop. *)
Definition turns (os : list fleet_op) : list float :=
  omap (λ o, match o with OpTurn now => Some now | _ => None end) os.

(** The node of [id], last heard of at [h], under a running monitor. *)
Record watched id l (h timeout : float) w : Prop := {
  watched_ok : fleet_ok w.(reg);
  watched_node : dget w.(reg).(nodes) id = Some l;
  watched_beat : (deref w.(reg) l).(last_heartbeat) = h;
  watched_running : w.(mon).(_running) = true;
  watched_timeout : w.(mon).(_heartbeat_timeout) = timeout;
}.

Definition unhealthy l w : Prop := (deref w.(reg) l).(status) = UNHEALTHY.

(** What a quiet operation does to a watched node. *)
Definition kept id l h timeout w w' : Prop :=
  watched id l h timeout w' ∧ (unhealthy l w → unhealthy l w').

Lemma watched_lt id l h t w : watched id l h t w → (l < length w.(reg).(heap))%nat.
Proof.
  intros H. destruct (ok_deref _ _ _ (watched_ok _ _ _ _ _ H) (watched_node _ _ _ _ _ H)) as (Hl & _).
  by eapply lookup_lt_Some.
Qed.

(** Same entry, same node, same monitor settings. *)
Lemma kept_same id l h t w w' :
  watched id l h t w → fleet_ok w'.(reg) → dget w'.(reg).(nodes) id = Some l →
  ((deref w'.(reg) l = deref w.(reg) l) ∨ (deref w'.(reg) l = with_status UNHEALTHY (deref w.(reg) l))) →
  w'.(mon).(_running) = true → w'.(mon).(_heartbeat_timeout) = t → kept id l h t w w'.
Proof.
  intros Hw Hok Hn Hd Hr Ht. split.
  - split; try done. destruct Hd as [->| ->]; apply Hw.
  - unfold unhealthy. by destruct Hd as [->| ->].
Qed.

Lemma check_all_kept id l h t now w :
  watched id l h t w → kept id l h t w (check_all now w).2.
Proof.
  intros Hw. pose proof (check_all_spec now w (watched_ok _ _ _ _ _ Hw)) as H.
  pose proof (check_all_ok now w (watched_ok _ _ _ _ _ Hw)) as Hok.
  destruct (check_all now w) as [ids w']. cbv zeta in H. cbn [snd] in *.
  destruct H as (_ & Hn & Hd & Hm).
  apply kept_same; [done..|by rewrite Hn; apply Hw| |by rewrite Hm; apply Hw|by rewrite Hm; apply Hw].
  rewrite Hd. case_decide; auto.
Qed.

(** The node of another id is another node. *)
Lemma other_node id l h t w i l' :
  watched id l h t w → dget w.(reg).(nodes) i = Some l' → i ≠ id → l ≠ l'.
Proof.
  intros Hw Hi Hne ->. destruct (ok_deref _ _ _ (watched_ok _ _ _ _ _ Hw) Hi) as (_ & E1 & _).
  destruct (ok_deref _ _ _ (watched_ok _ _ _ _ _ Hw) (watched_node _ _ _ _ _ Hw)) as (_ & E2 & _).
  congruence.
Qed.

Lemma assign_other id l h t w i l' g :
  watched id l h t w → dget w.(reg).(nodes) i = Some l' → i ≠ id →
  deref (assign l' g w.(reg)) l = deref w.(reg) l.
Proof.
  intros Hw Hi Hne. rewrite deref_assign, decide_False; [done|].
  intros [E _]. by apply (other_node _ _ _ _ _ _ _ Hw Hi Hne).
Qed.

Lemma step_kept id l h t w o :
  watched id l h t w → leaves_alone id w o → kept id l h t w (fleet_step o w).
Proof.
  intros Hw Ho. assert (Hok : fleet_ok (fleet_step o w).(reg)).
  { apply fleet_step_ok; [|apply Hw]. intros l' g -> _. apply Ho. }
  assert (Hself : kept id l h t w w) by by split.
  destruct o as [n|l' g|l'|i|i load st now|tm now|i load now|now|i now| | |now]; cbn [fleet_step leaves_alone] in *.
  - apply kept_same; try done; [apply Hw| |apply Hw..]. left. cbn [on_reg new_node snd reg].
    unfold deref. cbn [heap]. rewrite lookup_app_l; [done|]. by eapply watched_lt.
  - apply kept_same; [done..|apply Hw| |apply Hw|apply Hw]. left. cbn [reg].
    rewrite deref_assign, decide_False; [done|]. intros [<- _]. by apply Ho, Hw.
  - case_decide; [|done]. revert Hok. unfold on_reg, register, bindS, getS, guardS, putS, retS, raiseS.
    destruct (negb _); [by destruct w|]. intros Hok. apply kept_same; [done..| |by left|apply Hw|apply Hw].
    cbn [snd reg nodes]. rewrite dget_set_ne by (symmetry; exact Ho). apply Hw.
  - revert Hok. unfold on_reg, deregister, bindS, getS, guardS, putS, retS, raiseS.
    destruct (negb _); [by destruct w|]. intros Hok. apply kept_same; [done..| |by left|apply Hw|apply Hw].
    cbn [snd reg nodes]. rewrite dget_del by exact (ok_dwf _ (watched_ok _ _ _ _ _ Hw)).
    rewrite decide_False by (symmetry; exact Ho). apply Hw.
  - revert Hok. unfold on_reg. rewrite heartbeat_spec.
    destruct (match load with Some _ => _ | None => _ end); [by destruct w|].
    destruct (dget (nodes (reg w)) i) as [l'|] eqn:Hi; [|by destruct w]. intros Hok.
    apply kept_same; [done..|apply Hw| |apply Hw|apply Hw]. left.
    exact (assign_other _ _ _ _ _ _ _ _ Hw Hi Ho).
  - done.
  - revert Hok. rewrite record_spec. destruct (dget (nodes (reg w)) i) as [l'|] eqn:Hi; [|done].
    case_match; [done|]. cbv zeta. intros Hok.
    pose proof (assign_other _ _ _ _ _ _ _ (beaten load (if _restore_on_heartbeat (mon w)
      && bool_decide (status (deref (reg w) l') = UNHEALTHY) then Some HEALTHY else None) now) Hw Hi Ho).
    apply kept_same; [done..|apply Hw|by left| |]; destruct (_ && _); apply Hw.
  - by apply check_all_kept.
  - revert Hok. unfold check_node, on_reg, get, _get_or_raise, bindS, getS, modS, retS, raiseS.
    destruct (dget (nodes (reg w)) i) as [l'|]; cbn [fst snd]; [|by destruct w].
    destruct w as [f m]. cbn [reg mon] in *. destruct (overdue now _ l'); [|done]. intros Hok.
    apply kept_same; [done..|apply Hw| |apply Hw|apply Hw]. unfold _mark_unhealthy. cbn [snd reg].
    rewrite deref_assign. case_decide as E; [|by left]. destruct E as [-> _]. by right.
  - unfold start. by rewrite (watched_running _ _ _ _ _ Hw).
  - done.
  - unfold monitor_turn. rewrite (watched_running _ _ _ _ _ Hw). by apply check_all_kept.
Qed.

Lemma run_kept id l h t os w :
  watched id l h t w → all_leave_alone id os w → kept id l h t w (run os w).
Proof.
  unfold run. revert w. induction os as [|o os IH]; intros w Hw Hos; [by split|].
  destruct Hos as [Ho Hos]. destruct (step_kept _ _ _ _ _ _ Hw Ho) as [Hw1 Hu1].
  destruct (IH _ Hw1 Hos) as [Hw2 Hu2]. split; [done|auto].
Qed.

(** A turn after the timeout marks the node. *)
Lemma turn_marks id l h t now w :
  watched id l h t w → fltb t (fsub now h) = true → unhealthy l (fleet_step (OpTurn now) w).
Proof.
  intros Hw Hs. cbn [fleet_step]. unfold monitor_turn. rewrite (watched_running _ _ _ _ _ Hw).
  pose proof (check_all_marks now w) as Hmark.
  pose proof (check_all_kept _ _ _ _ now _ Hw) as [Hw' _].
  destruct (check_all now w) as [ids w'] eqn:E. cbn [snd] in *.
  eapply (Hmark ids w' l); [apply Hw|done| |].
  - apply list_elem_of_fmap. exists (id, l). split; [done|]. apply dget_Some_elem, Hw.
  - unfold stale. by rewrite (watched_beat _ _ _ _ _ Hw'), (watched_timeout _ _ _ _ _ Hw).
Qed.

Lemma leave_alone_app id os os' w :
  all_leave_alone id (os ++ os') w ↔ all_leave_alone id os w ∧ all_leave_alone id os' (run os w).
Proof.
  unfold run. revert w. induction os as [|o os IH]; intros w; simpl; [tauto|]. rewrite IH. tauto.
Qed.
End watching.

(** ** Detection latency, in exact time *)
Section latency.
#[local] Existing Instance QF.
#[local] Open Scope Q_scope.

(** Turns that come at most [d] seconds after one another, the first of them after [t0]. *)
Fixpoint punctual (d t0 : Q) (ts : list Q) : Prop :=
  match ts with
  | [] => True
  | t :: ts => t <= t0 + d ∧ punctual d t ts
  end.

(** The first of punctual turns beyond a deadline is not far beyond it. *)
Lemma first_beyond d deadline t0 ts :
  punctual d t0 ts → t0 <= deadline → Exists (λ t, deadline < t) ts →
  ∃ ts1 t ts2, ts = ts1 ++ t :: ts2 ∧ deadline < t ∧ t <= deadline + d.
Proof.
  intros Hp H0 He. revert t0 Hp H0. induction He as [t ts Ht|t ts He IH]; intros t0 [Hle Hp] H0.
  - exists [], t, ts. split; [done|]. split; [done|]. lra.
  - destruct (Qlt_le_dec deadline t) as [Hlt|Hge].
    + exists [], t, ts. split; [done|]. split; [done|]. lra.
    + destruct (IH t Hp Hge) as (ts1 & t' & ts2 & -> & H). by exists (t :: ts1), t', ts2.
Qed.

(** The operation of a turn. *)
Lemma turn_split os ts1 t ts2 :
  turns os = ts1 ++ t :: ts2 → ∃ os1 os2, os = os1 ++ OpTurn t :: os2 ∧ turns os1 = ts1.
Proof.
  revert ts1. induction os as [|o os IH]; intros ts1 H; [by destruct ts1|].
  destruct o; cbn in H;
    try (destruct (IH ts1 H) as (os1 & os2 & -> & <-); by eexists (_ :: os1), os2).
  destruct ts1 as [|t' ts1]; simplify_eq/=; [by exists [], os|].
  destruct (IH ts1 ltac:(done)) as (os1 & os2 & -> & <-). by exists (OpTurn (F:=QF) t' :: os1), os2.
Qed.

(** C36. A silent node is noticed in time.  While the loop runs, with its turns at most [d]
    seconds apart (the check interval and the delays of the event loop), and whatever
    clients do to the other nodes, short of assigning them another id or an invalid load: a
    node that was last heard of at [h] is UNHEALTHY from some turn between [h + timeout] and
    [h + timeout + d] on, as soon as the loop has made any turn beyond [h + timeout]. *)
Theorem silence_noticed id l (h timeout d t0 : Q) os w :
  watched id l h timeout w → all_leave_alone id os w →
  t0 <= h + timeout → punctual d t0 (turns os) → Exists (λ t, h + timeout < t) (turns os) →
  ∃ os1 t os2, os = os1 ++ OpTurn t :: os2 ∧ h + timeout < t ∧ t <= h + timeout + d ∧
    ∀ os3, os3 `prefix_of` os2 → unhealthy l (run (os1 ++ OpTurn t :: os3) w).
Proof.
  intros Hw Hos H0 Hp He.
  destruct (first_beyond d (h + timeout) t0 (turns os) Hp H0 He) as (ts1 & t & ts2 & E & Hlt & Hle).
  destruct (turn_split os ts1 t ts2 E) as (os1 & os2 & -> & _).
  exists os1, t, os2. split; [done|]. split; [done|]. split; [done|]. intros os3 [rest ->].
  apply leave_alone_app in Hos as [Hos1 [Ho Hos2]].
  destruct (run_kept _ _ _ _ _ _ Hw Hos1) as [Hw1 _].
  assert (Hu : unhealthy l (fleet_step (OpTurn t) (run os1 w))).
  { eapply turn_marks; [done|]. q_simpl. lra. }
  destruct (step_kept _ _ _ _ _ _ Hw1 Ho) as [Hw2 _].
  apply leave_alone_app in Hos2 as [Hos3 _].
  destruct (run_kept _ _ _ _ _ _ Hw2 Hos3) as [_ Hk].
  unfold run in *. rewrite fold_left_app. by apply Hk.
Qed.

(** Three turns, and a heartbeat of another node between them. *)
Definition ex_running : Watch := mkWatch ex_fleet (mkMonitor 30 10 true true 0 0 0).
Definition ex_ops : list fleet_op :=
  [OpTurn 25; OpHeartbeat "b" None None 26; OpTurn 35; OpTurn 45].

Lemma silence_noticed_witness :
  (unhealthy 0 (run ex_ops ex_running) ∧ ¬ unhealthy 0 (run (take 2 ex_ops) ex_running)) ∧
  ∃ os1 t os2, ex_ops = os1 ++ OpTurn t :: os2 ∧ 30 < t ∧ t <= 40 ∧
    ∀ os3, os3 `prefix_of` os2 → unhealthy 0 (run (os1 ++ OpTurn t :: os3) ex_running).
Proof.
  split; [split; [reflexivity|intros H; discriminate H]|].
  apply (silence_noticed "a" 0%nat 0 30 10 20 ex_ops ex_running).
  - split; [exact ex_fleet_ok|reflexivity..].
  - split; [exact I|]. split; [discriminate|]. split; [exact I|]. split; [exact I|exact I].
  - discriminate.
  - split; [discriminate|]. split; [discriminate|]. split; [discriminate|exact I].
  - apply Exists_cons_tl, Exists_cons_hd. reflexivity.
Defined.
End latency.
